(* ===== verification/_CoqProject ===== *)
-Q . S2P
Prelude.v
GoIO.v
SaltFilter.v
ShadowCipher.v
ShadowStream.v
ShadowRecord.v
ShadowConn.v
ShadowPacket.v
GoNet.v
SocksAddr.v
SocksHandshake.v
GoUtf8.v
BufReader.v
BufReaderSpec.v
BufWriter.v
BufWriterSpec.v
Cork.v
Endpoint.v
Relay.v
Tunnel.v
CopyLoop.v
GoMd5.v
Core.v
Config.v
Serve.v
ServeSpec.v
Server.v
SocksHandler.v
RandString.v
Main.v
Session.v
Probe.v
