(* ===== verification/Prelude.v ===== *)
(** * miniproxygo: a verification development

    miniproxygo is a two-ended SOCKS5 proxy. The local end ([Local = true] in the configuration)
    negotiates SOCKS5 with its clients, opens an encrypted tunnel to a remote server and sends it the
    target's address; the server end reads the address, dials the target and relays. Everything
    in the tunnel is a Shadowsocks AEAD stream: a random salt, then records of a sealed length and a
    sealed payload, with the salts filtered against replays.

    ** The parts, and the files that model them

    The vocabulary, none of it code of the repository:
    - [Prelude]: bytes, machine integers, Go's errors and panics, the execution monad [M] with its
      total-correctness triple [wp], the state invariants [keeps] and [stays], and the generic lemmas.
    - [GoIO]: [io.Reader] and [io.Writer] as classes; [delivers] (what a reader will give, in
      whatever pieces), [Sink] and [Duplex] (what a connection promises); [io.ReadFull].
    - [GoNet] (strconv, net: decimal numbers, IP addresses, host:port), [GoUtf8] (unicode/utf8), [GoMd5]
      (crypto/md5, checked against the test suite of RFC 1321). [Main] has models of [flag] and [path.Join].

    The program, bottom up. An operation [(x *T) Op] is the definition [Op] or [T_Op] of the file:
    - [SaltFilter]: m_internal, the ring of Bloom filters and the process-wide salt filter.
    - [ShadowCipher], [ShadowStream], [ShadowPacket]: m_shadow, the session ciphers (cipher.go), the
      record stream and the salted connection (stream.go), the datagrams (packet.go).
      [ShadowRecord] and [ShadowConn] hold the theorems on the stream.
    - [SocksAddr], [SocksHandshake]: m_socks/socks5.go, addresses and the negotiation.
      [SocksHandler]: m_socks/handler.go, the older SOCKS5 server.
    - [BufReader], [BufWriter]: m_bufio/bufio.go, with their theorems in [BufReaderSpec] and
      [BufWriterSpec].
    - [Cork]: the corked connection and the accept back-off of m_server/socks_server.go, over the
      writer of [BufWriter].
    - [Relay]: the two relays (socks_server.go, handler.go) as a step relation over two goroutines.
      [CopyLoop]: the copy loops as the code has them are runs of that relation.
    - [GoMd5], [Core]: m_core, the key derivation, the choice of a cipher, the wrapped net calls.
    - [Config]: m_config. [Server]: m_server/server.go and the accept loops. [Serve]: what the goroutine
      of one connection does up to its relay, with its theorems in [ServeSpec].
    - [RandString]: m_util/utils.go. [Main]: proxy.go, m_util/exit.go, m_debug.
    - [Session] and [Probe] put the parts together.

    The interfaces between them are classes: [Reader], [Writer], [Sink] and [Duplex] ([GoIO]) between every
    layer and the one below; [Endpoint] between the relay and whatever it copies between, with
    an instance for plain connections ([Endpoint]) and one for the encrypted connection ([Tunnel]);
    [BloomLaws] and [AEADLaws] for what the program relies on in other packages; [Listener] ([Server]).
    A corked connection is a [Duplex] again ([Cork]), so the stacks of the code - encryption over a cork
    over a socket - are instances by composition.

    ** How code is translated

    A method is a function in the monad [M S A]: it is given fuel and the state it can reach, and
    returns, panics, deadlocks, exits the process, or runs out of fuel. A Go struct is a record, a slice
    kept in a struct is a range of the buffer it points into where the aliasing matters, [int] is [Z]
    with its wrap-around ([i64]) wherever the value can grow with the traffic. Slicing, indexing, [make],
    map lookups and nil pointers have Go's run-time checks. Goroutines are step relations ([Relay],
    the timer of [Cork]) whose theorems hold in every interleaving, or entries of a log ([Server]).

    Fuel bounds the rounds of each loop separately. Every theorem on a loop says how much is enough,
    in terms of its input - the number of reads the stream takes ([k] of [delivers]), the length of the
    data, the number of retries - and that the call then returns; [wp] holds of no call that
    halts. A loop of the program that never ends is shown to run out of any fuel.

    ** What is shown

    - The whole path ([Session]), in the states of a relay in which no write of its tunnel has failed:
      the tunnel holds whole records of a prefix of what its client or target sent; the far end, given any
      number of these records, passes on a prefix, in order and with nothing added, for every chunking by
      the network and every interleaving of both relays. It is all of it when every record arrives and
      the copies at both ends finish without an error. What the cork of the local end still holds has not
      gone out, and is lost if the connection is closed first. A client is given nothing that was not sealed
      for its session. [Probe]: a connection that does not open with an unknown salt and a record sealed
      for it gets no answer and is drained (a recorded session whose salt was not kept does open so, and is
      served), and so is a client that asks for nothing the local end can serve. [ServeSpec]: the two
      handlers composed dial exactly the target.
    - The tunnel ([ShadowRecord], [ShadowConn], [Tunnel]): [read] is the reference decoder on every
      stream, errors included; round trips for every chunking; nothing is accepted but what was
      sealed under the very next nonces; salts that were seen are refused, and the replay that is
      accepted all the same. [ShadowPacket]: the same for datagrams. [SaltFilter]: how long a salt is
      remembered.
    - SOCKS ([SocksAddr], [SocksHandshake], [SocksHandler]): the negotiation is the reference parser;
      addresses are read, split, printed and parsed back.
    - Copying ([Relay], [CopyLoop], [Cork], [BufReaderSpec], [BufWriterSpec]): each direction is a prefix
      of its source in every interleaving, relays end and report the right error, [WriteTo] and the
      loops of [request.Relay] are runs of the relay, buffers and open corks lose and reorder nothing, and
      the errors of a buffered writer are final but for its [ReadFrom].
    - The process ([Server], [Core], [Config], [Main], [RandString]): what is started for which accept,
      with which pauses, which cipher and key are chosen, when a server is made at all, and how the
      process ends.

    The code's own mistakes are theorems where they have consequences: the password of the
    configuration is not used, accepted salts are not recorded, shutting down dereferences nil, the
    server's accept loop never returns, [WriteTo] reports the end of an empty stream as an error, a
    failing [Start] ends with status 0, data glued to a request is lost, [ReadFrom] of a buffered writer
    reports success after a failed write, [-v] starts the server.

    ** Parameters

    Code outside the repository is an argument: HKDF, AES-GCM and ChaCha20-Poly1305 (any AEAD with
    [AEADLaws]; authenticity where it is used is the hypothesis [AEADTight]: only what [Seal] made opens), the
    Bloom filter, gcfg, the log's [Init], [net.Listen] and [net.Dial], the random sources, the environment.
    Each class and hypothesis has a concrete instance in the witnesses (a toy AEAD, lists as Bloom filters,
    scripted connections and listeners).

    ** Not modelled

    - The content of log lines and the calls that set the format of the log; wall-clock time (a deadline
      or a timer may fire at any moment after it is set).
    - Unused data types of socks5.go (the packet structs) and constants of handler.go.
    - The loop of [ReadFrom] of the encrypted connection is modelled ([streamConn_ReadFrom]), but only that of
      [WriteTo] is shown to be a run of the relay. [ReadFrom] sends its salt before the first read, even if
      the source has nothing to give; in the relay that is a tick of the connection, which may happen
      before any write, and a salt that could not be sent ends the copy at its first write.
    - [README.md]: no code.

    ** Left for later

    The lines and shortcuts of the buffered reader and writer ([ReadLine], [WriteTo], [ReadFrom]) against the
    stream; the text of IPv6 addresses parsed back; a tunnel cut at any byte, end to end. *)

From Stdlib Require Import ZArith Lia.
From Stdlib Require Import Strings.Byte Strings.String.
From stdpp Require Import base decidable list numbers countable strings.

#[global] Open Scope Z_scope.

(** ** Bytes, strings and slices *)

Abbreviation byte := Init.Byte.byte.
Abbreviation bytes := (list Init.Byte.byte).

(** The number of elements, as Go's [len]. *)
Abbreviation len l := (Z.of_nat (List.length l)).

#[global] Instance byte_eq_dec : EqDecision byte.
Proof. intros x y. destruct (Byte.byte_eq_dec x y); [left | right]; assumption. Defined.

Definition b2z (b : byte) : Z := Z.of_N (Byte.to_N b).

(** Conversion to [byte] keeps the low eight bits. *)
Definition z2b (z : Z) : byte :=
  match Byte.of_N (Z.to_N (z mod 256)) with
  | Some b => b
  | None => x00
  end.

Lemma b2z_range b : 0 <= b2z b < 256.
Proof.
  unfold b2z. pose proof (Byte.to_N_bounded b). lia.
Qed.

Lemma b2z_z2b z : b2z (z2b z) = z mod 256.
Proof.
  unfold b2z, z2b.
  pose proof (Z.mod_pos_bound z 256 ltac:(lia)) as Hm.
  destruct (Byte.of_N (Z.to_N (z mod 256))) as [b|] eqn:E.
  - apply Byte.to_of_N in E. rewrite E. lia.
  - apply Byte.of_N_None_iff in E. lia.
Qed.

Lemma z2b_b2z b : z2b (b2z b) = b.
Proof.
  unfold z2b. rewrite Z.mod_small by apply b2z_range.
  unfold b2z. rewrite N2Z.id, Byte.of_to_N. reflexivity.
Qed.

Lemma b2z_inj a b : b2z a = b2z b -> a = b.
Proof. intros H. rewrite <- (z2b_b2z a), <- (z2b_b2z b). congruence. Qed.

Lemma z2b_mod a b : a mod 256 = b mod 256 -> z2b a = z2b b.
Proof. intros H. apply b2z_inj. rewrite !b2z_z2b. assumption. Qed.

#[global] Instance byte_countable : Countable byte.
Proof. apply (inj_countable' (fun b => b2z b) z2b). apply z2b_b2z. Defined.

(** A Go string is a sequence of bytes; [str] reads a literal. *)
Definition str (s : string) : bytes := String.list_byte_of_string s.

(** [make([]byte, n)] for a size already known to be non-negative. *)
Definition zeros (n : Z) : bytes := replicate (Z.to_nat n) x00.

(** The elements of [l[lo:hi]], for bounds already known to be in range. *)
Definition sub {A} (lo hi : Z) (l : list A) : list A :=
  take (Z.to_nat (hi - lo)) (drop (Z.to_nat lo) l).

(** [l] with [src] written over it from offset [off]. *)
Definition blit {A} (off : Z) (src l : list A) : list A :=
  take (Z.to_nat off) l ++ src ++ drop (Z.to_nat off + List.length src) l.

(** ** Machine integers *)

(** Two's complement wrap-around of Go's [int] and [int64]. *)
Definition i64 (z : Z) : Z := (z + 2 ^ 63) mod 2 ^ 64 - 2 ^ 63.

Definition in_i64 (z : Z) : Prop := - 2 ^ 63 <= z < 2 ^ 63.

Lemma i64_small z : in_i64 z -> i64 z = z.
Proof. unfold in_i64, i64. intros H. rewrite Z.mod_small; lia. Qed.

Lemma i64_range z : in_i64 (i64 z).
Proof.
  unfold in_i64, i64.
  pose proof (Z.mod_pos_bound (z + 2 ^ 63) (2 ^ 64) ltac:(lia)). lia.
Qed.

Lemma i64_add_l a b : i64 (i64 a + b) = i64 (a + b).
Proof.
  unfold i64. f_equal.
  replace ((a + 2 ^ 63) mod 2 ^ 64 - 2 ^ 63 + b + 2 ^ 63)
    with ((a + 2 ^ 63) mod 2 ^ 64 + b) by lia.
  rewrite Zplus_mod_idemp_l. f_equal. lia.
Qed.

Definition u64 (z : Z) : Z := z mod 2 ^ 64.

(** ** Errors *)

(** A Go error value. [Sentinel] stands for the value an [errors.New] creates, identified by
    its message (the program's messages are all different); the other constructors are the
    error types the program defines or inspects. *)
Inductive error :=
| Sentinel (msg : string)
| KeySizeError (need : Z)
| AesKeySizeError (got : Z)
| SocksError (code : byte)
| NetError (timeout temporary : bool) (id : Z)
| ForeignError (id : Z).

#[global] Instance error_eq_dec : EqDecision error.
Proof. solve_decision. Defined.

(** ** The execution monad

    A Go call takes the state it can reach and returns, panics, blocks for ever, or does not
    terminate.  [fuel] bounds the iterations of every loop of the call separately, so
    a loop body runs with the fuel of the whole call. *)

Inductive panic :=
| IndexOutOfRange
| SliceOutOfRange
| MakeNegative
| NilDereference
| DivideByZero
| CloseOfClosed
| PanicValue (msg : string).

Inductive halt :=
| Panicked (p : panic)
| Deadlock
| OutOfFuel
| Exited (code : Z).

Inductive outcome (S A : Type) :=
| Ret (a : A) (s : S)
| Halt (h : halt) (s : S).
Arguments Ret {S A} a s.
Arguments Halt {S A} h s.

Definition M (S A : Type) : Type := nat -> S -> outcome S A.

Section Monad.
Context {S : Type}.

Definition ret {A} (a : A) : M S A := fun _ s => Ret a s.

Definition bind {A B} (m : M S A) (k : A -> M S B) : M S B :=
  fun fuel s =>
    match m fuel s with
    | Ret a s' => k a fuel s'
    | Halt h s' => Halt h s'
    end.

Definition stop {A} (h : halt) : M S A := fun _ s => Halt h s.
Definition fail {A} (p : panic) : M S A := stop (Panicked p).

Definition get : M S S := fun _ s => Ret s s.
Definition gets {A} (g : S -> A) : M S A := fun _ s => Ret (g s) s.
Definition put (s : S) : M S unit := fun _ _ => Ret tt s.
Definition modify (g : S -> S) : M S unit := fun _ s => Ret tt (g s).

(** A call on a part of the state. *)
Definition zoom {T A} (g : S -> T) (p : T -> S -> S) (m : M T A) : M S A :=
  fun fuel s =>
    match m fuel (g s) with
    | Ret a t => Ret a (p t s)
    | Halt h t => Halt h (p t s)
    end.

Definition when (b : bool) (m : M S unit) : M S unit := if b then m else ret tt.

(** [for { ... }]: the body answers [inl] to go round again with new locals, [inr] to leave. *)
Fixpoint iter_n {X A} (n : nat) (body : X -> M S (X + A)) (x : X) : M S A :=
  fun fuel s =>
    match n with
    | O => Halt OutOfFuel s
    | Datatypes.S n' =>
        match body x fuel s with
        | Ret (inl x') s' => iter_n n' body x' fuel s'
        | Ret (inr a) s' => Ret a s'
        | Halt h s' => Halt h s'
        end
    end.

Definition iter {X A} (body : X -> M S (X + A)) (x : X) : M S A :=
  fun fuel s => iter_n fuel body x fuel s.

(** [for _, x := range l { f(x) }]. *)
Fixpoint each {X} (g : X -> M S unit) (l : list X) : M S unit :=
  match l with
  | [] => ret tt
  | x :: l' => bind (g x) (fun _ => each g l')
  end.

(** [defer d()]: run when the body returns or panics. *)
Definition deferring {A} (d : S -> S) (m : M S A) : M S A := fun fuel s =>
  match m fuel s with
  | Ret a s' => Ret a (d s')
  | Halt (Panicked p) s' => Halt (Panicked p) (d s')
  | Halt h s' => Halt h s'
  end.

(** Indexing and slicing, with Go's run-time checks. *)
Definition slice {A} (lo hi : Z) (l : list A) : M S (list A) :=
  if (0 <=? lo) && (lo <=? hi) && (hi <=? len l)
  then ret (sub lo hi l) else fail SliceOutOfRange.

Definition index {A} (i : Z) (l : list A) : M S A :=
  if 0 <=? i
  then match l !! Z.to_nat i with Some a => ret a | None => fail IndexOutOfRange end
  else fail IndexOutOfRange.

(** [l[i] = a]. *)
Definition store {A} (i : Z) (a : A) (l : list A) : M S (list A) :=
  if (0 <=? i) && (i <? len l)
  then ret (<[Z.to_nat i := a]> l) else fail IndexOutOfRange.

Definition make (n : Z) : M S bytes :=
  if 0 <=? n then ret (zeros n) else fail MakeNegative.

End Monad.

(** [n = copy(dst, src)]: what [dst] holds afterwards, and [n]. *)
Definition copy {A} (dst src : list A) : list A * Z :=
  let n := Z.min (len dst) (len src) in
  (blit 0 (take (Z.to_nat n) src) dst, n).

Declare Scope go_scope.
Delimit Scope go_scope with go.
Notation "'let!' x := m 'in' k" := (bind m (fun x => k))
  (at level 10, x name, m at level 100, k at level 200,
   format "'[v' 'let!'  x  :=  m  'in' '/' k ']'") : go_scope.
Notation "'let!' ' p := m 'in' k" := (bind m (fun x => match x with p => k end))
  (at level 10, p strict pattern, m at level 100, k at level 200) : go_scope.
Notation "m ;;; k" := (bind m (fun _ => k))
  (at level 199, right associativity, format "'[v' m  ;;; '/' k ']'") : go_scope.
#[global] Open Scope go_scope.

(** ** Total correctness

    [wp m fuel s Q]: started in [s] with that fuel, [m] returns, and what it returns and the
    state it leaves satisfy [Q].  A panic, a deadlock or exhausted fuel satisfies nothing. *)

Definition wp {S A} (m : M S A) (fuel : nat) (s : S) (Q : A -> S -> Prop) : Prop :=
  match m fuel s with
  | Ret a s' => Q a s'
  | Halt _ _ => False
  end.

Section WP.
Context {S : Type}.
Implicit Types (f : nat) (s : S).

Lemma wp_ret {A} (a : A) f s Q : Q a s -> wp (ret a) f s Q.
Proof. exact (fun H => H). Qed.

Lemma wp_bind {A B} (m : M S A) (k : A -> M S B) f s Q :
  wp m f s (fun a s' => wp (k a) f s' Q) -> wp (bind m k) f s Q.
Proof. unfold wp, bind. destruct (m f s); tauto. Qed.

Lemma wp_mono {A} (m : M S A) f s (P Q : A -> S -> Prop) :
  wp m f s P -> (forall a s', P a s' -> Q a s') -> wp m f s Q.
Proof. unfold wp. destruct (m f s); auto. Qed.

Lemma wp_and {A} (m : M S A) f s (P Q : A -> S -> Prop) :
  wp m f s P -> wp m f s Q -> wp m f s (fun a s' => P a s' /\ Q a s').
Proof. unfold wp. destruct (m f s); auto. Qed.

Lemma wp_ex {A} (m : M S A) f s Q :
  wp m f s Q <-> exists a s', m f s = Ret a s' /\ Q a s'.
Proof.
  unfold wp. split.
  - destruct (m f s) as [a s'|]; [eauto | tauto].
  - intros (a & s' & -> & HQ). exact HQ.
Qed.

Lemma wp_eq {A} (m : M S A) f s a s' (Q : A -> S -> Prop) :
  m f s = Ret a s' -> Q a s' -> wp m f s Q.
Proof. intros H HQ. apply wp_ex. eauto. Qed.

Lemma wp_get f s (Q : S -> S -> Prop) : Q s s -> wp get f s Q.
Proof. exact (fun H => H). Qed.

Lemma wp_gets {A} (g : S -> A) f s (Q : A -> S -> Prop) : Q (g s) s -> wp (gets g) f s Q.
Proof. exact (fun H => H). Qed.

Lemma wp_put s' f s (Q : unit -> S -> Prop) : Q tt s' -> wp (put s') f s Q.
Proof. exact (fun H => H). Qed.

Lemma wp_modify g f s (Q : unit -> S -> Prop) : Q tt (g s) -> wp (modify g) f s Q.
Proof. exact (fun H => H). Qed.

Lemma wp_when (b : bool) (m : M S unit) f s Q :
  (b = true -> wp m f s Q) -> (b = false -> Q tt s) -> wp (when b m) f s Q.
Proof. destruct b; unfold when; [auto|]. intros _ H. apply wp_ret; auto. Qed.

Lemma wp_zoom {T A} (g : S -> T) p (m : M T A) f s (Q : A -> S -> Prop) :
  wp m f (g s) (fun a t => Q a (p t s)) -> wp (zoom g p m) f s Q.
Proof. unfold wp, zoom. destruct (m f (g s)); tauto. Qed.

Lemma wp_deferring {A} d (m : M S A) f s (Q : A -> S -> Prop) :
  wp m f s (fun a s' => Q a (d s')) -> wp (deferring d m) f s Q.
Proof. unfold wp, deferring. destruct (m f s); tauto. Qed.

Lemma wp_slice {A} lo hi (l : list A) f s (Q : list A -> S -> Prop) :
  0 <= lo <= hi -> hi <= len l -> Q (sub lo hi l) s -> wp (slice lo hi l) f s Q.
Proof.
  intros [H1 H2] H3 HQ. unfold slice.
  rewrite (proj2 (Z.leb_le 0 lo) H1), (proj2 (Z.leb_le lo hi) H2),
    (proj2 (Z.leb_le hi (len l)) H3).
  apply wp_ret, HQ.
Qed.

Lemma wp_index {A} i a (l : list A) f s (Q : A -> S -> Prop) :
  0 <= i -> l !! Z.to_nat i = Some a -> Q a s -> wp (index i l) f s Q.
Proof.
  intros H1 H2 HQ. unfold index. rewrite (proj2 (Z.leb_le 0 i) H1), H2. apply wp_ret, HQ.
Qed.

Lemma wp_store {A} i a (l : list A) f s (Q : list A -> S -> Prop) :
  0 <= i < len l -> Q (<[Z.to_nat i := a]> l) s -> wp (store i a l) f s Q.
Proof.
  intros [H1 H2] HQ. unfold store.
  rewrite (proj2 (Z.leb_le 0 i) H1), (proj2 (Z.ltb_lt i (len l)) H2). apply wp_ret, HQ.
Qed.

Lemma wp_make n f s (Q : bytes -> S -> Prop) :
  0 <= n -> Q (zeros n) s -> wp (make n) f s Q.
Proof. intros H HQ. unfold make. rewrite (proj2 (Z.leb_le 0 n) H). apply wp_ret, HQ. Qed.

(** The loop rule: an invariant indexed by a bound on the rounds left. *)
Lemma wp_iter_n {X A} (I : nat -> X -> S -> Prop) body f (Q : A -> S -> Prop) :
  (forall k x s, I k x s ->
     wp (body x) f s (fun r s' =>
       match r with
       | inl x' => exists k', (k' < k)%nat /\ I k' x' s'
       | inr a => Q a s'
       end)) ->
  forall n k x s, (k < n)%nat -> I k x s -> wp (iter_n n body x) f s Q.
Proof.
  intros Hbody n. induction n as [|n IH]; intros k x s Hk HI; [lia|].
  specialize (Hbody k x s HI). unfold wp in *. cbn [iter_n].
  destruct (body x f s) as [[x'|a] s'|h s']; [|exact Hbody|exact Hbody].
  destruct Hbody as (k' & Hk' & HI'). apply (IH k'); [lia | exact HI'].
Qed.

Lemma wp_iter {X A} (I : nat -> X -> S -> Prop) k body f x s (Q : A -> S -> Prop) :
  (forall k x s, I k x s ->
     wp (body x) f s (fun r s' =>
       match r with
       | inl x' => exists k', (k' < k)%nat /\ I k' x' s'
       | inr a => Q a s'
       end)) ->
  (k < f)%nat -> I k x s -> wp (iter body x) f s Q.
Proof. intros Hbody Hk HI. exact (wp_iter_n I body f Q Hbody f k x s Hk HI). Qed.

End WP.

(** One step of symbolic execution. Side conditions are left to the caller when [lia] does
    not close them. *)
Ltac wp_step := lazy beta iota;
  lazymatch goal with
  | |- wp (bind _ _) _ _ _ => apply wp_bind
  | |- wp (ret _) _ _ _ => apply wp_ret
  | |- wp get _ _ _ => apply wp_get
  | |- wp (gets _) _ _ _ => apply wp_gets
  | |- wp (put _) _ _ _ => apply wp_put
  | |- wp (modify _) _ _ _ => apply wp_modify
  | |- wp (zoom _ _ _) _ _ _ => apply wp_zoom
  | |- wp (deferring _ _) _ _ _ => apply wp_deferring
  | |- wp (when _ _) _ _ _ => apply wp_when; intros ?
  | |- wp (slice _ _ _) _ _ _ => apply wp_slice; [try lia | try lia |]
  | |- wp (make _) _ _ _ => apply wp_make; [try lia |]
  | |- wp (store _ _ _) _ _ _ => apply wp_store; [try lia |]
  | |- wp (if ?b then _ else _) _ _ _ => destruct b eqn:?
  | |- wp (match ?x with _ => _ end) _ _ _ => destruct x eqn:?
  | |- wp ((fun _ => _) _) _ _ _ => idtac
  end; lazy beta iota.

Ltac wp_steps := repeat wp_step.

(** ** State invariants

    [keeps P m]: whenever [m] returns, it leaves [P] true of the state if it was before;
    [keeps_from F P m]: when it is run with fuel [F] or more. *)

Definition keeps_from {S A} (F : nat) (P : S -> Prop) (m : M S A) : Prop :=
  forall f s a s', (F <= f)%nat -> P s -> m f s = Ret a s' -> P s'.

Abbreviation keeps := (keeps_from 0).

Section Keeps.
Context {S : Type} (F : nat) (P : S -> Prop).

Lemma keeps_ret {A} (a : A) : keeps_from F P (ret a).
Proof. by intros f s b s' HF HP [= <- <-]. Qed.

Lemma keeps_bind_ret {A B} (a : A) (k : A -> M S B) : keeps_from F P (k a) -> keeps_from F P (bind (ret a) k).
Proof. exact (fun H => H). Qed.

Lemma keeps_stop {A} h : keeps_from F P (@stop S A h).
Proof. by intros f s b s' HF HP ?. Qed.

Lemma keeps_fail {A} p : keeps_from F P (@fail S A p).
Proof. apply keeps_stop. Qed.

Lemma keeps_gets {A} (g : S -> A) : keeps_from F P (gets g).
Proof. by intros f s b s' HF HP [= <- <-]. Qed.

Lemma keeps_bind {A B} (m : M S A) (k : A -> M S B) :
  keeps_from F P m -> (forall a, keeps_from F P (k a)) -> keeps_from F P (bind m k).
Proof.
  intros Hm Hk f s b s' HF HP. unfold bind. destruct (m f s) as [a s1|] eqn:E; [|done].
  intros Hk1. eapply Hk; [exact HF | | exact Hk1]. by eapply Hm.
Qed.

Lemma keeps_get : keeps_from F P get.
Proof. by intros f s b s' HF HP [= <- <-]. Qed.

(** The state read is the one [P] holds of. *)
Lemma keeps_bind_get {A} (k : S -> M S A) :
  (forall s, P s -> keeps_from F P (k s)) -> keeps_from F P (bind get k).
Proof. intros Hk f s b s' HF HP. unfold bind, get. by apply Hk. Qed.

Lemma keeps_put s : P s -> keeps_from F P (put s).
Proof. by intros HP f s0 b s' HF _ [= <- <-]. Qed.

Lemma keeps_modify g : (forall s, P s -> P (g s)) -> keeps_from F P (modify g).
Proof. intros Hg f s b s' HF HP [= <- <-]. by apply Hg. Qed.

Lemma keeps_when (b : bool) (m : M S unit) : keeps_from F P m -> keeps_from F P (when b m).
Proof. intros Hm. destruct b; [exact Hm | apply keeps_ret]. Qed.

Lemma keeps_zoom {T A} (Q : T -> Prop) (g : S -> T) p (m : M T A) :
  (forall s, P s -> Q (g s)) -> (forall t s, P s -> Q t -> P (p t s)) -> keeps_from F Q m ->
  keeps_from F P (zoom g p m).
Proof.
  intros Hg Hp Hm f s a s' HF HP. unfold zoom. destruct (m f (g s)) as [b t|] eqn:E; [|done].
  intros [= <- <-]. apply Hp; [done|]. by eapply Hm; [exact HF | apply Hg|].
Qed.

Lemma keeps_deferring {A} d (m : M S A) :
  (forall s, P s -> P (d s)) -> keeps_from F P m -> keeps_from F P (deferring d m).
Proof.
  intros Hd Hm f s a s' HF HP. unfold deferring. destruct (m f s) as [b s1|[] s1] eqn:E; try done.
  intros [= <- <-]. apply Hd. by eapply Hm.
Qed.

Lemma keeps_slice {A} lo hi (l : list A) : keeps_from F P (slice lo hi l).
Proof. unfold slice. destruct (_ && _); [apply keeps_ret | apply keeps_stop]. Qed.

(** The slice that goes on is in range. *)
Lemma keeps_bind_slice {A B} lo hi (l : list A) (k : list A -> M S B) :
  (0 <= lo <= hi -> hi <= len l -> keeps_from F P (k (sub lo hi l))) -> keeps_from F P (bind (slice lo hi l) k).
Proof.
  intros Hk. unfold slice. destruct (_ && _) eqn:E; [|intros f s b s' HF HP; done].
  apply andb_prop in E as [E H3]. apply andb_prop in E as [H1 H2].
  apply keeps_bind_ret, Hk; lia.
Qed.

Lemma keeps_index {A} i (l : list A) : keeps_from F P (index i l).
Proof.
  unfold index. destruct (_ <=? _); [destruct (l !! _)|];
    [apply keeps_ret | apply keeps_stop | apply keeps_stop].
Qed.

Lemma keeps_store {A} i (a : A) (l : list A) : keeps_from F P (store i a l).
Proof. unfold store. destruct (_ && _); [apply keeps_ret | apply keeps_stop]. Qed.

Lemma keeps_make n : keeps_from F P (make n).
Proof. unfold make. destruct (_ <=? _); [apply keeps_ret | apply keeps_stop]. Qed.

Lemma keeps_iter {X A} (body : X -> M S (X + A)) x :
  (forall x, keeps_from F P (body x)) -> keeps_from F P (iter body x).
Proof.
  intros Hb f s a s' HF. unfold iter. generalize f at 1. intros n. revert x s.
  induction n as [|n IH]; intros x s HP; cbn [iter_n]; [done|].
  destruct (body x f s) as [[x'|b] s1|] eqn:E; [|by intros [= <- <-]; eapply Hb|done].
  apply IH. by eapply Hb.
Qed.

End Keeps.

Create HintDb keeps.
#[export] Hint Resolve keeps_ret keeps_stop keeps_fail keeps_gets keeps_get keeps_put keeps_modify keeps_slice keeps_index keeps_store keeps_make : keeps.

(** Walk through a program, leaving the calls [keeps] knows nothing about. *)
Ltac keeping := repeat
  first
  [ lazymatch goal with |- forall _, _ => intro end
  | assumption
  | solve [auto with keeps]
  | lazymatch goal with
    | |- keeps_from _ _ (bind get _) => apply keeps_bind_get
    | |- keeps_from _ _ (bind _ _) => apply keeps_bind
    | |- keeps_from _ _ (iter _ _) => apply keeps_iter
    | |- keeps_from _ _ (when _ _) => apply keeps_when
    | |- keeps_from _ _ (deferring _ _) => apply keeps_deferring; [done|]
    | |- keeps_from _ _ (match ?x with _ => _ end) => destruct x
    end ].

Lemma wp_keeps_from {S A} F (P : S -> Prop) (m : M S A) f s (Q : A -> S -> Prop) :
  keeps_from F P m -> (F <= f)%nat -> P s -> wp m f s Q -> wp m f s (fun a s' => Q a s' /\ P s').
Proof.
  intros Hk HF HP. unfold wp. destruct (m f s) as [a s'|] eqn:E; [|done].
  split; [done | by eapply Hk].
Qed.

Lemma wp_keeps {S A} (P : S -> Prop) (m : M S A) f s (Q : A -> S -> Prop) :
  keeps P m -> P s -> wp m f s Q -> wp m f s (fun a s' => Q a s' /\ P s').
Proof. intros Hk. exact (wp_keeps_from 0 P m f s Q Hk (le_0_n f)). Qed.

Lemma keeps_wp {S A} F (P : S -> Prop) (m : M S A) :
  (forall f s, (F <= f)%nat -> P s -> wp m f s (fun _ s' => P s')) -> keeps_from F P m.
Proof. intros Hm f s a s' HF HP E. specialize (Hm f s HF HP). unfold wp in Hm. by rewrite E in Hm. Qed.

(** [stays P m]: [m] leaves [P] true of the state however it ends, and so at any time. *)

Definition state_after {S A} (o : outcome S A) : S :=
  match o with Ret _ s => s | Halt _ s => s end.

Definition stays {S A} (P : S -> Prop) (m : M S A) : Prop :=
  forall f s, P s -> P (state_after (m f s)).

Section Stays.
Context {S : Type} (P : S -> Prop).

Lemma stays_ret {A} (a : A) : stays P (ret a).
Proof. by intros f s HP. Qed.

Lemma stays_stop {A} h : stays P (@stop S A h).
Proof. by intros f s HP. Qed.

Lemma stays_get : stays P get.
Proof. by intros f s HP. Qed.

Lemma stays_modify g : (forall s, P s -> P (g s)) -> stays P (modify g).
Proof. intros Hg f s HP. by apply Hg. Qed.

Lemma stays_bind {A B} (m : M S A) (k : A -> M S B) :
  stays P m -> (forall a, stays P (k a)) -> stays P (bind m k).
Proof.
  intros Hm Hk f s HP. specialize (Hm f s HP). unfold bind. destruct (m f s) as [a s'|h s']; [|exact Hm].
  by apply Hk.
Qed.

Lemma stays_when (b : bool) (m : M S unit) : stays P m -> stays P (when b m).
Proof. intros Hm. destruct b; [exact Hm | apply stays_ret]. Qed.

Lemma stays_zoom {T A} (Q : T -> Prop) (g : S -> T) p (m : M T A) :
  (forall s, P s -> Q (g s)) -> (forall t s, P s -> Q t -> P (p t s)) -> stays Q m ->
  stays P (zoom g p m).
Proof.
  intros Hg Hp Hm f s HP. specialize (Hm f (g s) (Hg s HP)). unfold zoom.
  destruct (m f (g s)); by apply Hp.
Qed.

Lemma stays_iter {X A} (body : X -> M S (X + A)) x :
  (forall x, stays P (body x)) -> stays P (iter body x).
Proof.
  intros Hb f s. unfold iter. generalize f at 1. intros n. revert x s.
  induction n as [|n IH]; intros x s HP; cbn [iter_n]; [exact HP|]. specialize (Hb x f s HP).
  destruct (body x f s) as [[x'|b] s1|h s1]; [by apply IH | exact Hb | exact Hb].
Qed.

End Stays.

(** ** Lists as arrays *)

Section Slices.
Context {A : Type}.
Implicit Types (l src : list A) (lo hi off : Z).

Lemma len_app l1 l2 : len (l1 ++ l2) = len l1 + len l2.
Proof. rewrite length_app. lia. Qed.

Lemma len_sub lo hi l : 0 <= lo <= hi -> hi <= len l -> len (sub lo hi l) = hi - lo.
Proof. intros. unfold sub. rewrite length_take, length_drop. lia. Qed.

Lemma sub_all l : sub 0 (len l) l = l.
Proof.
  unfold sub. rewrite drop_0. apply take_ge. lia.
Qed.

Lemma sub_empty lo hi l : hi <= lo -> sub lo hi l = [].
Proof. intros. unfold sub. replace (Z.to_nat (hi - lo)) with O by lia. reflexivity. Qed.

Lemma sub_lookup lo hi l i :
  0 <= lo -> sub lo hi l !! i = if decide (Z.of_nat i < hi - lo) then l !! (Z.to_nat lo + i)%nat else None.
Proof.
  intros. unfold sub. case_decide.
  - rewrite lookup_take_lt by lia. apply lookup_drop.
  - apply lookup_take_ge. lia.
Qed.

Lemma sub_0_take hi l : sub 0 hi l = take (Z.to_nat hi) l.
Proof. unfold sub. rewrite drop_0. f_equal. lia. Qed.

Lemma sub_to_end lo l : 0 <= lo -> sub lo (len l) l = drop (Z.to_nat lo) l.
Proof. intros. unfold sub. apply take_ge. rewrite length_drop. lia. Qed.

Lemma sub_split lo mid hi l :
  0 <= lo <= mid -> mid <= hi -> sub lo hi l = sub lo mid l ++ sub mid hi l.
Proof.
  intros. unfold sub.
  replace (drop (Z.to_nat mid) l) with (drop (Z.to_nat (mid - lo)) (drop (Z.to_nat lo) l))
    by (rewrite drop_drop; f_equal; lia).
  replace (Z.to_nat (hi - lo)) with (Z.to_nat (mid - lo) + Z.to_nat (hi - mid))%nat by lia.
  rewrite take_take_drop. reflexivity.
Qed.

Lemma sub_drop lo hi n l :
  0 <= lo -> 0 <= n -> lo + n <= hi -> drop (Z.to_nat n) (sub lo hi l) = sub (lo + n) hi l.
Proof.
  intros. unfold sub.
  replace (Z.to_nat (lo + n)) with (Z.to_nat lo + Z.to_nat n)%nat by lia.
  rewrite <- drop_drop, (take_drop_commute _ (Z.to_nat (hi - (lo + n)))).
  by replace (Z.to_nat n + Z.to_nat (hi - (lo + n)))%nat with (Z.to_nat (hi - lo)) by lia.
Qed.

Lemma len_blit off src l :
  0 <= off -> off + len src <= len l -> len (blit off src l) = len l.
Proof.
  intros. unfold blit. rewrite !length_app, length_take, length_drop. lia.
Qed.

Lemma blit_at off src l :
  0 <= off -> off + len src <= len l -> sub off (off + len src) (blit off src l) = src.
Proof.
  intros. unfold sub, blit.
  rewrite drop_app_ge by (rewrite length_take; lia).
  rewrite length_take.
  replace (Z.to_nat off - Z.to_nat off `min` length l)%nat with O by lia.
  rewrite drop_0, take_app_le by lia. apply take_ge. lia.
Qed.

Lemma blit_prefix off n src l :
  0 <= off -> 0 <= n <= len src -> off + len src <= len l ->
  sub off (off + n) (blit off src l) = take (Z.to_nat n) src.
Proof.
  intros. rewrite <- (blit_at off src l) at 2 by lia. unfold sub.
  rewrite take_take. f_equal. lia.
Qed.

Lemma blit_before lo hi off src l :
  0 <= lo -> hi <= off -> off <= len l -> sub lo hi (blit off src l) = sub lo hi l.
Proof.
  intros. apply list_eq. intros i. rewrite !sub_lookup by lia. case_decide; [|reflexivity].
  unfold blit. rewrite lookup_app_l by (rewrite length_take; lia).
  apply lookup_take_lt. lia.
Qed.

Lemma blit_after lo hi off src l :
  0 <= off -> off + len src <= lo -> off + len src <= len l ->
  sub lo hi (blit off src l) = sub lo hi l.
Proof.
  intros. apply list_eq. intros i. rewrite !sub_lookup by lia. case_decide; [|reflexivity].
  unfold blit. rewrite lookup_app_r by (rewrite length_take; lia).
  rewrite length_take, lookup_app_r by lia. rewrite lookup_drop. f_equal. lia.
Qed.

Lemma insert_before lo hi i x l : hi <= Z.of_nat i -> 0 <= lo -> sub lo hi (<[i:=x]> l) = sub lo hi l.
Proof.
  intros. apply list_eq. intros j. rewrite !sub_lookup by lia. case_decide; [|reflexivity].
  apply list_lookup_insert_ne. lia.
Qed.

Lemma insert_after lo hi i x l : Z.of_nat i < lo -> sub lo hi (<[i:=x]> l) = sub lo hi l.
Proof.
  intros. apply list_eq. intros j. rewrite !sub_lookup by lia. case_decide; [|reflexivity].
  apply list_lookup_insert_ne. lia.
Qed.

Lemma blit_all src l : length src = length l -> blit 0 src l = src.
Proof.
  intros. unfold blit. cbn [Z.to_nat take]. rewrite drop_ge by lia.
  rewrite app_nil_r. reflexivity.
Qed.

Lemma sub_0_blit src l n :
  n = len src -> len src <= len l -> sub 0 n (blit 0 src l) = src.
Proof. intros -> ?. apply (blit_at 0); lia. Qed.

Lemma copy_fits dst src :
  len src <= len dst -> @copy A dst src = (blit 0 src dst, len src).
Proof.
  intros. unfold copy. rewrite Z.min_r by lia. rewrite Nat2Z.id, take_ge by lia. reflexivity.
Qed.

Lemma len_copy dst src : length (@copy A dst src).1 = length dst.
Proof.
  unfold copy. cbn [fst]. apply Nat2Z.inj. rewrite len_blit; [lia..|].
  rewrite length_take. lia.
Qed.

Lemma copy_prefix dst src :
  let '(d, n) := @copy A dst src in sub 0 n d = take (Z.to_nat n) src.
Proof.
  unfold copy. apply sub_0_blit; rewrite ?length_take; lia.
Qed.

End Slices.

Lemma len_zeros n : 0 <= n -> len (zeros n) = n.
Proof. intros. unfold zeros. rewrite length_replicate. lia. Qed.


Create Rewrite HintDb len.
#[export] Hint Rewrite @length_app @length_take @length_drop @length_insert
  @length_replicate @length_cons @length_nil : len.
#[export] Hint Rewrite @len_copy : len.

(** Normalise lengths everywhere, then linear arithmetic. *)
Ltac lens := autorewrite with len in *; cbn [List.length] in *; lia.

(** [lia] after turning boolean comparisons into propositions. *)
Ltac blia := rewrite ?Z.ltb_lt, ?Z.ltb_ge, ?Z.leb_le, ?Z.leb_gt, ?Z.eqb_eq, ?Z.eqb_neq in *; lia.

Create HintDb slices.
#[export] Hint Resolve @len_sub @len_blit @blit_at @sub_all : slices.
