(* ===== verification/GoIO.v ===== *)
(** The part of Go's [io] the program builds on: readers and writers as type classes, the
    contracts their documentation states, [io.ReadFull], and a concrete connection that
    meets the contracts.  Nothing here is code of the repository: it is the library
    vocabulary its components are written in. *)

From Stdlib Require Import ZArith Lia.
From stdpp Require Import base decidable list numbers strings.
From S2P Require Import Prelude.

Definition EOF : error := Sentinel "EOF".
Definition ErrUnexpectedEOF : error := Sentinel "unexpected EOF".
Definition ErrShortWrite : error := Sentinel "short write".
Definition ErrShortBuffer : error := Sentinel "short buffer".

(** [n, err := r.Read(p)]: the new contents of [p], [n] and [err]. A reader may use the whole
    of [p] as scratch space. *)
Class Reader (R : Type) := read : bytes -> M R (bytes * Z * option error).

(** [n, err := w.Write(p)]. *)
Class Writer (W : Type) := write : bytes -> M W (Z * option error).

(** ** What a reader delivers *)

Section Streams.
Context {R : Type} `{Reader R}.

(** From [r] on, every read returns no data and the error [e]. *)
Definition exhausted (F : nat) (r : R) (e : error) : Prop :=
  exists P : R -> Prop, P r /\
    forall r p f, P r -> p <> [] -> (F <= f)%nat ->
      wp (read p) f r (fun '(p', n, er) r' =>
        length p' = length p /\ n = 0 /\ er = Some e /\ P r').

(** [delivers F k r bs e]: whatever the sizes of the buffers it is given, [r] hands out exactly
    the bytes [bs] and then the error [e], within [k] reads, when run with fuel [F] or
    more. The last bytes may come with the error. Reads that return nothing are allowed. *)
Fixpoint delivers (F k : nat) (r : R) (bs : bytes) (e : error) : Prop :=
  match k with
  | O => False
  | S k' =>
      forall p f, p <> [] -> (F <= f)%nat ->
        wp (read p) f r (fun '(p', n, er) r' =>
          exists chunk rest,
            bs = chunk ++ rest /\ n = len chunk /\
            length p' = length p /\ (length chunk <= length p)%nat /\
            take (length chunk) p' = chunk /\
            match er with
            | None => delivers F k' r' rest e
            | Some e' => rest = [] /\ e' = e /\ exhausted F r' e
            end)
  end.

Lemma exhausted_mono F F' r e : (F <= F')%nat -> exhausted F r e -> exhausted F' r e.
Proof.
  intros HF (P & HP & Hr). exists P. split; [exact HP|].
  intros r1 p f H1 H2 H3. apply Hr; [exact H1 | exact H2 | lia].
Qed.

Lemma exhausted_delivers F k r e : exhausted F r e -> delivers F (S k) r [] e.
Proof.
  intros (P & HP & Hr). cbn [delivers]. intros p f Hp Hf.
  eapply wp_mono; [exact (Hr r p f HP Hp Hf)|].
  intros [[p' n] er] r' (Hl & -> & -> & HP'). exists [], [].
  repeat split; try done; [cbn; lia|]. exists P. auto.
Qed.

Lemma delivers_mono F F' k k' r bs e :
  (F <= F')%nat -> (k <= k')%nat -> delivers F k r bs e -> delivers F' k' r bs e.
Proof.
  intros HF. revert k' r bs. induction k as [|k IH]; intros [|k'] r bs Hk Hd;
    [done | done | lia |].
  cbn [delivers] in *. intros p f Hp Hf.
  eapply wp_mono; [exact (Hd p f Hp ltac:(lia))|].
  intros [[p' n] er] r' (chunk & rest & ? & ? & ? & ? & ? & Her).
  exists chunk, rest. repeat split; try done.
  destruct er as [e'|].
  - destruct Her as (? & ? & ?). eauto using exhausted_mono.
  - apply IH; [lia | exact Her].
Qed.

Lemma delivers_pos F k r bs e : delivers F k r bs e -> (0 < k)%nat.
Proof. destruct k; [done | lia]. Qed.

End Streams.

Create HintDb stream.
#[export] Hint Resolve exhausted_delivers : stream.

(** ** [io.ReadFull] *)

Section ReadFull.
Context {R : Type} `{Reader R}.

(** [io.ReadAtLeast(r, buf, len(buf))]: read into [buf[n:]] until it is full or a read fails. *)
Definition readFull_body (st : bytes * Z) : M R ((bytes * Z) + (bytes * Z * option error)) :=
  let '(buf, n) := st in
  if n >=? len buf then ret (inr (buf, n, None))
  else
    let! rest := slice n (len buf) buf in
    let! '(p, nn, err) := read rest in
    let buf' := blit n p buf in
    let n' := n + nn in
    match err with
    | None => ret (inl (buf', n'))
    | Some e =>
        if n' >=? len buf then ret (inr (buf', n', None))
        else if (0 <? n') && bool_decide (e = EOF)
        then ret (inr (buf', n', Some ErrUnexpectedEOF))
        else ret (inr (buf', n', Some e))
    end.

Definition ReadFull (buf : bytes) : M R (bytes * Z * option error) :=
  iter readFull_body (buf, 0).

(** The error a short [ReadFull] reports: an end of file in the middle is unexpected. *)
Definition short_error (got : bytes) (e : error) : error :=
  if (0 <? len got) && bool_decide (e = EOF) then ErrUnexpectedEOF else e.

(** The invariant of the loop: [n] bytes of the stream are in place and [k] reads are left. *)
Let RF F (bs buf : bytes) e (k : nat) (st : bytes * Z) (r : R) : Prop :=
  let '(b, n) := st in
  length b = length buf /\ 0 <= n <= len buf /\ n <= len bs /\
  take (Z.to_nat n) b = take (Z.to_nat n) bs /\
  delivers F k r (drop (Z.to_nat n) bs) e.

Lemma take_blit_chunk (b bs p' chunk rest : bytes) n :
  0 <= n <= len b -> take (Z.to_nat n) b = take (Z.to_nat n) bs ->
  drop (Z.to_nat n) bs = chunk ++ rest -> n <= len bs ->
  length p' = (length b - Z.to_nat n)%nat -> (length chunk <= length p')%nat ->
  take (length chunk) p' = chunk ->
  take (Z.to_nat (n + len chunk)) (blit n p' b) = take (Z.to_nat (n + len chunk)) bs.
Proof.
  intros Hn Ht Hd Hnb Hl Hc Hp.
  replace (Z.to_nat (n + len chunk)) with (Z.to_nat n + length chunk)%nat by lia.
  rewrite <- (take_take_drop bs), Hd, take_app_length, <- Ht. unfold blit.
  rewrite take_app_add' by (rewrite length_take; lia).
  f_equal. rewrite take_app_le by lia. exact Hp.
Qed.

(** What [ReadFull] does with a stream, whatever the sizes of its reads. *)
Lemma ReadFull_delivers F k r bs e buf f :
  delivers F k r bs e -> (F <= f)%nat -> (k < f)%nat ->
  wp (ReadFull buf) f r (fun '(buf', n, er) r' =>
    length buf' = length buf /\
    if decide (length buf <= length bs)%nat
    then buf' = take (length buf) bs /\ n = len buf /\ er = None /\
         delivers F k r' (drop (length buf) bs) e
    else n = len bs /\ er = Some (short_error bs e) /\ take (length bs) buf' = bs /\
         exhausted F r' e).
Proof.
  intros Hd HF Hk. unfold ReadFull.
  apply (wp_iter (fun j st r' => (j <= k)%nat /\ RF F bs buf e j st r') k); [| lia |].
  2:{ split; [lia|]. unfold RF. rewrite drop_0. repeat split; try lia; [done..|exact Hd]. }
  clear r Hd. intros j [b n] r [Hj (Hb & Hn & Hnb & Ht & Hd)]. unfold readFull_body.
  destruct (n >=? len b) eqn:Hfull.
  { wp_step. split; [exact Hb|]. assert (n = len buf) as -> by lia.
    rewrite decide_True by lia. rewrite Nat2Z.id in *.
    rewrite take_ge in Ht by lia. repeat split; [exact Ht|].
    apply (delivers_mono F F j k); auto. }
  wp_step. wp_step.
  rewrite sub_to_end by lia.
  destruct j as [|j]; [done|]. wp_step. cbn [delivers] in Hd.
  eapply wp_mono; [apply Hd; [|lia]|].
  { intros E. apply (f_equal length) in E. rewrite length_drop in E. cbn in E. lia. }
  intros [[p' nn] er] r' (chunk & rest & Hbs & -> & Hl & Hc & Hp & Her).
  rewrite length_drop in Hl, Hc.
  pose proof (f_equal length Hbs) as Hlen. rewrite length_drop, length_app in Hlen.
  assert (Hb' : length (blit n p' b) = length b)
    by (apply Nat2Z.inj, len_blit; lia).
  assert (Ht' : take (Z.to_nat (n + len chunk)) (blit n p' b)
                = take (Z.to_nat (n + len chunk)) bs)
    by (apply (take_blit_chunk _ _ _ _ rest); (lia || assumption)).
  assert (Hd' : drop (Z.to_nat (n + len chunk)) bs = rest).
  { replace (Z.to_nat (n + len chunk)) with (Z.to_nat n + length chunk)%nat by lia.
    rewrite <- drop_drop, Hbs, drop_app_length. reflexivity. }
  destruct er as [e'|].
  2:{ wp_step. exists j. split; [lia|]. split; [lia|]. unfold RF.
      rewrite Hd'. repeat split; try lia; assumption. }
  destruct Her as (-> & -> & Hex).
  assert (Hall : n + len chunk = len bs) by (cbn in Hlen; lia).
  rewrite Hall in *.
  destruct (len bs >=? len b) eqn:Hf2.
  - wp_step. rewrite decide_True by lia. rewrite !Nat2Z.id in *.
    assert (Hlbs : length bs = length buf) by lia.
    rewrite (take_ge (blit _ _ _)), Hlbs in Ht' by lia.
    split; [lia|]. repeat split; [exact Ht'|lia|].
    rewrite drop_ge by lia.
    apply (delivers_mono F F 1 k); [lia..|]. apply exhausted_delivers, Hex.
  - unfold short_error. rewrite (take_ge bs), Nat2Z.id in Ht' by lia.
    destruct ((0 <? len bs) && bool_decide (e = EOF)); wp_step; rewrite decide_False by lia;
      (split; [lia|]; repeat split; assumption).
Qed.

End ReadFull.

Lemma ReadFull_keeps {R} `{Reader R} F (P : R -> Prop) :
  (forall p, p <> [] -> keeps_from F P (read p)) -> forall buf, keeps_from F P (ReadFull buf).
Proof.
  intros Hr buf. unfold ReadFull. apply keeps_iter. intros [b n]. unfold readFull_body.
  destruct (n >=? len b) eqn:E; [apply keeps_ret|]. apply keeps_bind_slice. intros Hn _.
  apply keeps_bind; [|keeping]. apply Hr. intros Hs. pose proof (len_sub n (len b) b Hn ltac:(lia)) as Hl.
  rewrite Hs in Hl. cbn in Hl. lia.
Qed.

(** ** What a writer accepts *)

(** The [io.Writer] contract, with the bytes accepted so far as a ghost view of the state: a
    write accepts a prefix of [p] and reports an error when it accepts less than all of it. The
    contract covers the states [sink_ok], which writes preserve, run with fuel [sink_fuel]. *)
Class Sink (W : Type) `{Writer W} := {
  written : W -> bytes;
  sink_ok : W -> Prop;
  sink_fuel : nat;
  write_spec : forall p f w, sink_ok w -> (sink_fuel <= f)%nat ->
    wp (write p) f w (fun '(n, er) w' =>
      (0 <= n <= len p /\ written w' = written w ++ take (Z.to_nat n) p /\
       (n < len p -> er <> None)) /\ sink_ok w')
}.
Arguments sink_fuel W {_ _}.

(** A connection carries two independent byte streams. Between the calls made on it something
    of its own, such as a timer, may run: a [tick]. *)
Class Duplex (C : Type) `{Reader C, Sink C} := {
  tick : nat -> C -> C -> Prop;
  read_keeps_written : forall p f c a c',
    read p f c = Ret a c' -> written c' = written c /\ (sink_ok c -> sink_ok c');
  write_keeps_stream : forall F k bs e p, keeps (fun c => delivers F k c bs e) (write p);
  tick_keeps : forall f c c', tick f c c' -> (sink_fuel C <= f)%nat -> sink_ok c ->
    written c' = written c /\ sink_ok c' /\
    (forall F k bs e, delivers F k c bs e -> delivers F k c' bs e)
}.

(** A successful write went through as a whole. *)
Lemma write_ok {W} `{Sink W} p f w n w' :
  sink_ok w -> (sink_fuel W <= f)%nat -> write p f w = Ret (n, None) w' ->
  n = len p /\ written w' = written w ++ p.
Proof.
  intros Hok Hf E. pose proof (write_spec p f w Hok Hf) as Hw. unfold wp in Hw. rewrite E in Hw.
  destruct Hw as [(Hn & Hout & Her) _].
  destruct (decide (n < len p)) as [Hlt|Hge]; [by destruct (Her Hlt)|].
  assert (n = len p) as -> by lia. split; [done|].
  rewrite Hout, Nat2Z.id, take_ge by lia. reflexivity.
Qed.

(** No write on [w] or on what writing makes of it fails. *)
Definition reliable {W} `{Sink W} (w : W) : Prop :=
  exists P : W -> Prop, P w /\
    (forall w, P w -> sink_ok w) /\
    (forall p f w, P w -> (sink_fuel W <= f)%nat -> wp (write p) f w (fun '(n, er) w' => er = None /\ P w')).

Lemma reliable_ok {W} `{Sink W} (w : W) : reliable w -> sink_ok w.
Proof. intros (P & HP & Hok & _). by apply Hok. Qed.

Lemma reliable_write {W} `{Sink W} p f (w : W) n er w' :
  reliable w -> (sink_fuel W <= f)%nat -> write p f w = Ret (n, er) w' -> er = None /\ reliable w'.
Proof.
  intros (P & HP & Hok & Hw) Hf E. pose proof (Hw p f w HP Hf) as Hwp. unfold wp in Hwp. rewrite E in Hwp.
  destruct Hwp as [Her HP']. split; [exact Her|]. by exists P.
Qed.

(** The contract with what reliability adds to it. *)
Lemma write_run {W} `{Sink W} p f (w : W) :
  sink_ok w -> (sink_fuel W <= f)%nat ->
  wp (write p) f w (fun '(n, er) w' =>
    (0 <= n <= len p /\ written w' = written w ++ take (Z.to_nat n) p /\ (n < len p -> er <> None)) /\
    sink_ok w' /\ (reliable w -> er = None /\ reliable w')).
Proof.
  intros Hok Hf. pose proof (write_spec p f w Hok Hf) as Hspec. unfold wp in *.
  destruct (write p f w) as [[n er] w'|] eqn:E; [|done]. destruct Hspec as [Hspec Hok'].
  split; [exact Hspec|]. split; [exact Hok'|]. intros Hr. by eapply reliable_write.
Qed.

(** No write on [c] or on what becomes of it fails. *)
Definition accepts {C} `{Duplex C} (c : C) : Prop :=
  exists P : C -> Prop, P c /\
    (forall c, P c -> sink_ok c) /\
    (forall p, keeps P (read p)) /\
    (forall p f c, P c -> (sink_fuel C <= f)%nat -> wp (write p) f c (fun '(n, er) c' => er = None /\ P c')).

(** Reading and writing on such a connection, for the bytes written so far. *)
Definition sent {C} `{Duplex C} (out : bytes) (c : C) : Prop := accepts c /\ written c = out.

Lemma read_sent {C} `{Duplex C} out p : keeps (sent (C := C) out) (read p).
Proof.
  intros f c a c' _ [(P & HP & Hok & Hr & Hw) Hout] Hread. split.
  - exists P. repeat split; try done. by eapply Hr; [apply le_0_n|..].
  - rewrite <- Hout. eapply read_keeps_written, Hread.
Qed.

Lemma write_sent {C} `{Duplex C} out p f c F k bs e
  (Q : Z * option error -> C -> Prop) :
  sent out c -> delivers F k c bs e -> (sink_fuel C <= f)%nat ->
  (forall c', sent (out ++ p) c' -> delivers F k c' bs e -> Q (len p, None) c') ->
  wp (write p) f c Q.
Proof.
  intros [(P & HP & Hok & Hr & Hw) Hout] Hd Hf HQ.
  pose proof (Hw p f c HP Hf) as Hwp. pose proof (write_keeps_stream F k bs e p f c) as Hst.
  unfold wp in *. destruct (write p f c) as [[n er] c'|h c'] eqn:E; [|done].
  destruct Hwp as [-> HP']. destruct (write_ok _ _ _ _ _ (Hok c HP) Hf E) as [-> Hout'].
  apply HQ; [|by eapply Hst; [apply le_0_n|..]].
  split; [by exists P | by rewrite Hout', Hout].
Qed.

(** ** A concrete connection

    The inbound side is a script of the chunks the network delivers and the error that ends
    it; the outbound side records what was written and may run out of room. *)

Record conn := {
  conn_in : list bytes;
  conn_fin : error;
  conn_out : bytes;
  conn_room : option Z
}.

Definition broken_pipe : error := NetError false false 32.

#[global] Instance conn_Reader : Reader conn := fun p _ c =>
  match conn_in c with
  | [] => Ret (p, 0, Some (conn_fin c)) c
  | chunk :: more =>
      let n := Nat.min (length p) (length chunk) in
      let left := drop n chunk in
      Ret (blit 0 (take n chunk) p, Z.of_nat n, None)
        {| conn_in := if (n <? length chunk)%nat then left :: more else more;
           conn_fin := conn_fin c; conn_out := conn_out c; conn_room := conn_room c |}
  end.

#[global] Instance conn_Writer : Writer conn := fun p _ c =>
  let n := match conn_room c with
           | None => len p
           | Some room => Z.min (Z.max 0 room) (len p)
           end in
  Ret (n, if n <? len p then Some broken_pipe else None)
    {| conn_in := conn_in c; conn_fin := conn_fin c;
       conn_out := conn_out c ++ take (Z.to_nat n) p;
       conn_room := option_map (fun room => room - n) (conn_room c) |}.

#[global] Program Instance conn_Sink : Sink conn :=
  {| written := conn_out; sink_ok := fun _ => True; sink_fuel := 0 |}.
Next Obligation.
  intros p f c _ _. unfold wp, write, conn_Writer. cbn beta iota zeta.
  set (n := match conn_room c with None => _ | Some _ => _ end).
  assert (0 <= n <= len p) as Hn by (subst n; destruct (conn_room c); lia).
  split; [|done]. split; [exact Hn|]. split; [reflexivity|].
  intros Hlt. rewrite (proj2 (Z.ltb_lt _ _) Hlt). discriminate.
Qed.

Lemma conn_exhausted c : conn_in c = [] -> exhausted 0 c (conn_fin c).
Proof.
  intros Hc. exists (fun c' => c' = c). split; [done|].
  intros r p f -> Hp _. unfold wp, read, conn_Reader. rewrite Hc. done.
Qed.

Definition conn_steps (c : conn) : nat :=
  S (length (conn_in c) + length (concat (conn_in c))).

(** The script is what the connection delivers. *)
Lemma conn_delivers c :
  delivers 0 (conn_steps c) c (concat (conn_in c)) (conn_fin c).
Proof.
  assert (forall k c, (conn_steps c <= k)%nat ->
    delivers 0 k c (concat (conn_in c)) (conn_fin c)) as Hgen; [|by apply Hgen].
  clear c. unfold conn_steps. induction k as [|k IH]; intros c Hk; [lia|].
  cbn [delivers]. intros p f Hp _. unfold wp, read, conn_Reader.
  destruct (conn_in c) as [|chunk more] eqn:E.
  - exists [], []. repeat split; try done; [cbn; lia|]. by apply conn_exhausted.
  - set (n := Nat.min (length p) (length chunk)).
    assert (0 < length p)%nat by (destruct p; [done | cbn; lia]).
    exists (take n chunk), (drop n chunk ++ concat more).
    assert (length (take n chunk) = n) as Hn by (rewrite length_take; lia).
    cbn [concat] in *. rewrite length_app in Hk. cbn [List.length] in Hk.
    split; [by rewrite app_assoc, take_drop|].
    split; [lia|]. split; [apply Nat2Z.inj, len_blit; lia|]. split; [lia|].
    split.
    { rewrite <- (Nat2Z.id (length _)), <- sub_0_take. apply sub_0_blit; lia. }
    match goal with |- delivers 0 k ?c' _ _ => specialize (IH c') end.
    cbn [conn_in conn_fin] in IH.
    destruct (n <? length chunk)%nat eqn:Hlt.
    + apply Nat.ltb_lt in Hlt. cbn [concat] in IH. apply IH. cbn [List.length].
      rewrite length_app, length_drop. lia.
    + apply Nat.ltb_ge in Hlt. rewrite drop_ge by lia. apply IH. lia.
Qed.

(** Two connections with the same inbound script deliver the same. *)
Lemma conn_exhausted_ext F c c' e :
  conn_in c = conn_in c' -> conn_fin c = conn_fin c' -> exhausted F c e -> exhausted F c' e.
Proof.
  intros Hin Hfin (P & HP & Hr).
  exists (fun d => exists d', P d' /\ conn_in d' = conn_in d /\ conn_fin d' = conn_fin d).
  split; [by exists c|].
  intros d p f (d' & Hd' & Hi & Hf) Hp HF.
  specialize (Hr d' p f Hd' Hp HF). revert Hr. unfold wp, read, conn_Reader.
  rewrite Hi, Hf. destruct (conn_in d) as [|chunk more] eqn:E.
  - intros (? & ? & ? & ?). repeat split; try done. exists d'. by rewrite Hi, E.
  - intros (? & ? & ? & ?). done.
Qed.

Lemma conn_delivers_ext F k c c' bs e :
  conn_in c = conn_in c' -> conn_fin c = conn_fin c' ->
  delivers F k c bs e -> delivers F k c' bs e.
Proof.
  revert c c' bs. induction k as [|k IH]; intros c c' bs Hin Hfin Hd; [done|].
  cbn [delivers] in *. intros p f Hp HF. specialize (Hd p f Hp HF). revert Hd.
  unfold wp, read, conn_Reader. rewrite Hin, Hfin.
  destruct (conn_in c') as [|chunk more] eqn:E.
  - intros (ch & rest & ? & ? & ? & ? & ? & ? & ? & ?). exists ch, rest.
    repeat split; try done. eapply conn_exhausted_ext; [| |eassumption]; by rewrite ?Hin, ?E.
  - intros (ch & rest & ? & ? & ? & ? & ? & ?). exists ch, rest.
    repeat split; try done. eapply IH; [| |eassumption]; done.
Qed.

#[global] Program Instance conn_Duplex : Duplex conn := {| tick := fun _ _ _ => False |}.
Next Obligation.
  intros p f c a c'. unfold read, conn_Reader.
  destruct (conn_in c); intros [= <- <-]; split; done.
Qed.
Next Obligation.
  intros F k bs e p f c a c' _ Hd. unfold write, conn_Writer. intros [= _ <-].
  by eapply conn_delivers_ext; [| |exact Hd].
Qed.
Next Obligation. done. Qed.

Lemma conn_accepts c : conn_room c = None -> accepts c.
Proof.
  intros Hc. exists (fun c => conn_room c = None). split; [done|]. split; [done|]. split.
  - intros p f d a d' _ Hd. unfold read, conn_Reader. destruct (conn_in d); by intros [= _ <-].
  - intros p f d Hd _. unfold wp, write, conn_Writer. rewrite Hd. by rewrite Z.ltb_irrefl.
Qed.

(** ** [bytes.Buffer], read only: its state is the unread part *)

Definition buffer : Type := bytes.

#[global] Instance buffer_Reader : Reader buffer := fun p _ b =>
  match b with
  | [] => Ret (p, 0, match p with [] => None | _ => Some EOF end) b
  | _ => let '(p', n) := copy p b in Ret (p', n, None) (drop (Z.to_nat n) b : buffer)
  end.

Lemma buffer_delivers (b : buffer) : delivers 0 (S (length b)) b b EOF.
Proof.
  assert (forall k (b : buffer), (length b < k)%nat -> delivers 0 k b b EOF) as Hgen;
    [|apply Hgen; lia].
  clear b. induction k as [|k IH]; intros b Hk; [lia|].
  cbn [delivers]. intros p f Hp _. unfold wp, read, buffer_Reader.
  assert (0 < length p)%nat by (destruct p; [done | cbn; lia]).
  destruct b as [|x b'] eqn:E.
  - exists [], []. destruct p; [done|]. repeat split; try done; [cbn; lia|].
    exists (fun b => b = []). split; [done|]. intros r q g -> Hq _.
    destruct q; [done|]. by unfold wp, read, buffer_Reader.
  - rewrite <- E in *. pose proof (copy_prefix p b) as Hc.
    pose proof (len_copy p b) as Hl. unfold copy in *. cbn [fst] in Hl.
    set (n := Z.min (len p) (len b)) in *.
    exists (take (Z.to_nat n) b), (drop (Z.to_nat n) b).
    assert (length (take (Z.to_nat n) b) = Z.to_nat n) as Hn by (rewrite length_take; lia).
    assert (0 < n) by (subst n; rewrite E; cbn; lia).
    split; [by rewrite take_drop|]. rewrite Hn. split; [lia|]. split; [exact Hl|].
    split; [lia|]. split; [by rewrite <- sub_0_take|].
    apply IH. rewrite length_drop. lia.
Qed.

Lemma conn_reliable c : conn_room c = None -> reliable c.
Proof.
  intros Hc. exists (fun c => conn_room c = None). split; [done|]. split; [done|].
  intros p f d Hd _. unfold wp, write, conn_Writer. rewrite Hd. by rewrite Z.ltb_irrefl.
Qed.
