(* ===== verification/SaltFilter.v ===== *)
(** The replay filter of [m_internal]: the ring of Bloom filters (bloomring.go) and the
    process-wide singleton that holds the salts (saltfilter.go).

    The Bloom filter itself is the package github.com/riobard/go-bloom: the class [Bloom] is
    its interface, and [BloomLaws] its documented promise, that a filter has no false
    negatives. *)

From Stdlib Require Import ZArith Lia.
From Stdlib Require Import SpecFloat.
From stdpp Require Import base decidable list numbers strings.
From S2P Require Import Prelude.

Abbreviation float64 := spec_float.

(** [bloom.Filter], [bloom.New]. *)
Class Bloom (B : Type) := {
  bloom_New : Z -> float64 -> (bytes -> Z * Z) -> B;
  bloom_Add : bytes -> B -> B;
  bloom_Test : bytes -> B -> bool;
  bloom_Reset : B -> B
}.

Class BloomLaws (B : Type) `{Bloom B} := {
  bloom_add_found : forall b f, bloom_Test b (bloom_Add b f) = true;
  bloom_add_keeps : forall a b f, bloom_Test a f = true -> bloom_Test a (bloom_Add b f) = true
}.

(** ** The hash: Go's [hash/fnv] *)

Definition fnv_offset64 : Z := 14695981039346656037.
Definition fnv_prime64 : Z := 1099511628211.

Definition fnv64 (b : bytes) : Z :=
  fold_left (fun h c => Z.lxor (u64 (h * fnv_prime64)) (b2z c)) b fnv_offset64.

Definition fnv64a (b : bytes) : Z :=
  fold_left (fun h c => u64 (Z.lxor h (b2z c) * fnv_prime64)) b fnv_offset64.

Definition doubleFNV (b : bytes) : Z * Z :=
  let x := fnv64 b in
  let y := fnv64a b in
  (x, y).

(** ** [sync.RWMutex], as one goroutine sees it

    Taking a lock the same goroutine already holds never succeeds. *)

Record rwmutex := { wlocked : bool; rlocks : nat }.
Definition unlocked : rwmutex := {| wlocked := false; rlocks := 0 |}.

Section BloomRing.
Context {B : Type} `{Bloom B}.

Record BloomRing := {
  slotCapacity : Z;
  slotPosition : Z;
  slotCount : Z;
  entryCounter : Z;
  slots : list B;
  mutex : rwmutex
}.

Definition set_mutex (m : rwmutex) (r : BloomRing) : BloomRing :=
  {| slotCapacity := slotCapacity r; slotPosition := slotPosition r;
     slotCount := slotCount r; entryCounter := entryCounter r; slots := slots r; mutex := m |}.

Definition set_position (p : Z) (r : BloomRing) : BloomRing :=
  {| slotCapacity := slotCapacity r; slotPosition := p;
     slotCount := slotCount r; entryCounter := entryCounter r; slots := slots r;
     mutex := mutex r |}.

Definition set_counter (n : Z) (r : BloomRing) : BloomRing :=
  {| slotCapacity := slotCapacity r; slotPosition := slotPosition r;
     slotCount := slotCount r; entryCounter := n; slots := slots r; mutex := mutex r |}.

Definition set_slots (l : list B) (r : BloomRing) : BloomRing :=
  {| slotCapacity := slotCapacity r; slotPosition := slotPosition r;
     slotCount := slotCount r; entryCounter := entryCounter r; slots := l; mutex := mutex r |}.

Definition Lock : M BloomRing unit :=
  let! r := get in
  if wlocked (mutex r) || (0 <? Z.of_nat (rlocks (mutex r))) then stop Deadlock
  else put (set_mutex {| wlocked := true; rlocks := 0 |} r).

Definition RLock : M BloomRing unit :=
  let! r := get in
  if wlocked (mutex r) then stop Deadlock
  else put (set_mutex {| wlocked := false; rlocks := S (rlocks (mutex r)) |} r).

Definition Unlock (r : BloomRing) : BloomRing := set_mutex unlocked r.

Definition RUnlock (r : BloomRing) : BloomRing :=
  set_mutex {| wlocked := false; rlocks := Nat.pred (rlocks (mutex r)) |} r.

(** ** bloomring.go *)

(** [NewBloomRing]: the division and [make] check their operands at run time. *)
Definition NewBloomRing {S} (slot capacity : Z) (falsePositiveRate : float64) : M S BloomRing :=
  if slot =? 0 then fail DivideByZero
  else if slot <? 0 then fail MakeNegative
  else ret {| slotCapacity := Z.quot capacity slot; slotPosition := 0; slotCount := slot;
              entryCounter := 0;
              slots := replicate (Z.to_nat slot)
                         (bloom_New (Z.quot capacity slot) falsePositiveRate doubleFNV);
              mutex := unlocked |}.

(** [slot.Reset()] and [slot.Add(b)] act on the filter the slice element points to. *)
Definition on_slot (i : Z) (g : B -> B) : M BloomRing unit :=
  let! r := get in
  let! f := index i (slots r) in
  let! l := store i (g f) (slots r) in
  put (set_slots l r).

Definition add (b : bytes) : M BloomRing unit :=
  let! r := get in
  let! _ := index (slotPosition r) (slots r) in
  (if entryCounter r >? slotCapacity r then
     if slotCount r =? 0 then fail DivideByZero else
     modify (set_position (Z.rem (slotPosition r + 1) (slotCount r))) ;;;
     (let! r := get in on_slot (slotPosition r) bloom_Reset) ;;;
     modify (set_counter 0)
   else ret tt) ;;;
  modify (fun r => set_counter (entryCounter r + 1) r) ;;;
  let! r := get in
  on_slot (slotPosition r) (bloom_Add b).

Definition test (b : bytes) : M BloomRing bool :=
  let! r := get in
  ret (existsb (bloom_Test b) (slots r)).

(** Methods of a possibly nil [*BloomRing]. *)
Definition on_ring {A} (m : M BloomRing A) : M (option BloomRing) A := fun f o =>
  match o with
  | None => Halt (Panicked NilDereference) None
  | Some r =>
      match m f r with
      | Ret a r' => Ret a (Some r')
      | Halt h r' => Halt h (Some r')
      end
  end.

Definition Add (b : bytes) : M (option BloomRing) unit :=
  let! r := get in
  match r with
  | None => ret tt
  | Some _ => on_ring (Lock ;;; deferring Unlock (add b))
  end.

Definition Test (b : bytes) : M (option BloomRing) bool :=
  let! r := get in
  match r with
  | None => ret false
  | Some _ => on_ring (RLock ;;; deferring RUnlock (test b))
  end.

Definition Check (b : bytes) : M (option BloomRing) bool :=
  on_ring Lock ;;;
  deferring (option_map Unlock)
    (let! found := Test b in
     if found : bool then ret true
     else Add b ;;; ret false).

End BloomRing.
Arguments BloomRing B : clear implicits.

(** ** saltfilter.go *)

Definition DefaultSFCapacity : float64 := S754_finite false 8589934592000000 (-33).
Definition DefaultSFFPR : float64 := S754_finite false 4835703278458517 (-72).
Definition DefaultSFSlot : float64 := S754_finite false 5629499534213120 (-49).

Definition EnvironmentPrefix : bytes := str "SHADOWSOCKS_".

(** [int(f)] on amd64: truncation, and the smallest integer for what does not fit. *)
Definition int_of_float (x : float64) : Z :=
  let fit z := if (- 2 ^ 63 <=? z) && (z <? 2 ^ 63) then z else - 2 ^ 63 in
  match x with
  | S754_zero _ => 0
  | S754_finite s m e =>
      let a := if 0 <=? e then Z.pos m * 2 ^ e else Z.pos m / 2 ^ (- e) in
      fit (if s then - a else a)
  | _ => - 2 ^ 63
  end.

(** [f <= 0]. *)
Definition float_le0 (x : float64) : bool := SFleb x (S754_zero false).

Section Singleton.
Context {B : Type} `{Bloom B}.

(** [os.Getenv], and [strconv.ParseFloat] ([None] when it reports an error). *)
Variable Getenv : bytes -> bytes.
Variable ParseFloat : bytes -> option float64.

(** The package variables: whether [initSaltfilterOnce] has fired, and [saltfilter]. *)
Record saltState := {
  initSaltfilterOnce : bool;
  saltfilter : option (BloomRing B)
}.

Definition saltState_init : saltState :=
  {| initSaltfilterOnce := false; saltfilter := None |}.

Definition set_saltfilter (o : option (BloomRing B)) (s : saltState) : saltState :=
  {| initSaltfilterOnce := initSaltfilterOnce s; saltfilter := o |}.

(** One round of the option loop: the environment overrides the default. *)
Definition sf_option {S} (name : bytes) (dflt : float64) : M S float64 :=
  let envKey := EnvironmentPrefix ++ str "SF_" ++ name in
  let env := Getenv envKey in
  if bool_decide (env = []) then ret dflt
  else match ParseFloat env with
       | None => fail (PanicValue "Invalid envrionment setting in saltfilter")
       | Some p => ret p
       end.

Definition initSaltfilter : M saltState unit :=
  let! finalCapacity := sf_option (str "CAPACITY") DefaultSFCapacity in
  let! finalFPR := sf_option (str "FPR") DefaultSFFPR in
  let! finalSlot := sf_option (str "SLOT") DefaultSFSlot in
  if float_le0 finalCapacity then ret tt
  else
    let! r := NewBloomRing (int_of_float finalSlot) (int_of_float finalCapacity) finalFPR in
    modify (set_saltfilter (Some r)).

(** [initSaltfilterOnce.Do(f)]: a panic of [f] counts as having run it. *)
Definition getSaltFilterSingleton : M saltState unit :=
  let! s := get in
  if initSaltfilterOnce s then ret tt
  else
    deferring (fun s => {| initSaltfilterOnce := true; saltfilter := saltfilter s |})
      initSaltfilter.

Definition on_filter {A} (m : M (option (BloomRing B)) A) : M saltState A :=
  getSaltFilterSingleton ;;; zoom saltfilter set_saltfilter m.

Definition TestSalt (b : bytes) : M saltState bool := on_filter (Test b).
Definition AddSalt (b : bytes) : M saltState unit := on_filter (Add b).
Definition CheckSalt (b : bytes) : M saltState bool := on_filter (Test b).

End Singleton.
Arguments saltState B : clear implicits.
Arguments set_saltfilter {B} o s.

(** ** Correctness of the ring *)

Section RingProofs.
Context {B : Type} `{BloomLaws B}.
Implicit Types r : BloomRing B.

(** The ring's shape: every index in range, the current slot at most one entry over its
    capacity. *)
Record ring_wf r : Prop := {
  wf_capacity : 0 <= slotCapacity r;
  wf_slots : len (slots r) = slotCount r;
  wf_position : 0 <= slotPosition r < slotCount r;
  wf_counter : 0 <= entryCounter r <= slotCapacity r + 1
}.

(** What [add] computes on a well-formed ring. *)
Definition add_position r : Z :=
  if entryCounter r >? slotCapacity r then (slotPosition r + 1) mod slotCount r
  else slotPosition r.

Definition add_next (b : bytes) r : BloomRing B :=
  let p := add_position r in
  let rotate := entryCounter r >? slotCapacity r in
  let sl := if rotate then alter bloom_Reset (Z.to_nat p) (slots r) else slots r in
  {| slotCapacity := slotCapacity r; slotPosition := p; slotCount := slotCount r;
     entryCounter := if rotate then 1 else entryCounter r + 1;
     slots := alter (bloom_Add b) (Z.to_nat p) sl; mutex := mutex r |}.

Lemma on_slot_run i g f r Q :
  0 <= i < len (slots r) ->
  Q tt (set_slots (alter g (Z.to_nat i) (slots r)) r) -> wp (on_slot i g) f r Q.
Proof.
  intros Hi HQ. unfold on_slot. do 2 wp_step.
  destruct (lookup_lt_is_Some_2 (slots r) (Z.to_nat i)) as [x Hx]; [lia|].
  wp_step. eapply wp_index; [lia | exact Hx|]. wp_step. wp_step. wp_step.
  replace (<[Z.to_nat i:=g x]> (slots r)) with (alter g (Z.to_nat i) (slots r)); [exact HQ|].
  apply list_eq. intros j.
  destruct (decide (j = Z.to_nat i)) as [->|Hne].
  - rewrite list_lookup_alter_eq, Hx, list_lookup_insert_eq by lia. reflexivity.
  - rewrite list_lookup_alter_ne, list_lookup_insert_ne by congruence. reflexivity.
Qed.

Lemma add_run b f r Q : ring_wf r -> Q tt (add_next b r) -> wp (add b) f r Q.
Proof.
  intros [Hc Hs Hp He] HQ. unfold add. do 2 wp_step.
  destruct (lookup_lt_is_Some_2 (slots r) (Z.to_nat (slotPosition r))) as [x Hx]; [lia|].
  wp_step. eapply wp_index; [lia | exact Hx|]. wp_step.
  unfold add_next, add_position in HQ.
  destruct (entryCounter r >? slotCapacity r) eqn:Hrot.
  - wp_step; [lia|]. rewrite Z.rem_mod_nonneg by lia.
    assert (0 <= (slotPosition r + 1) mod slotCount r < slotCount r)
      by (apply Z.mod_pos_bound; lia).
    do 5 wp_step. apply on_slot_run; [cbn; lia|]. repeat wp_step.
    apply on_slot_run; [cbn; rewrite length_alter; lia|]. exact HQ.
  - repeat wp_step. apply on_slot_run; [cbn; lia|]. exact HQ.
Qed.

Lemma add_position_range r : ring_wf r -> 0 <= add_position r < slotCount r.
Proof.
  intros [Hc Hs Hp He]. unfold add_position.
  destruct (_ >? _); [apply Z.mod_pos_bound|]; lia.
Qed.

Lemma add_next_wf b r : ring_wf r -> ring_wf (add_next b r).
Proof.
  intros Hwf. pose proof (add_position_range r Hwf). destruct Hwf as [Hc Hs Hp He].
  constructor; cbn; [lia | | lia |];
    destruct (entryCounter r >? slotCapacity r) eqn:E; rewrite ?length_alter; lia.
Qed.

(** How many more entries fit before the one that resets slot [q]. *)
Definition lifetime r (q : Z) : Z :=
  ((q - slotPosition r - 1) mod slotCount r) * (slotCapacity r + 1)
  + (slotCapacity r + 1 - entryCounter r).

Definition holds_in r (q : Z) (b : bytes) : Prop :=
  exists f, slots r !! Z.to_nat q = Some f /\ bloom_Test b f = true.

Lemma add_next_holds b r : ring_wf r -> holds_in (add_next b r) (add_position r) b.
Proof.
  intros Hwf. pose proof (add_position_range r Hwf) as Hp. destruct Hwf as [_ Hs _ _].
  unfold holds_in, add_next. cbn [slots].
  set (sl := if _ >? _ then _ else _).
  assert (length sl = length (slots r)) as Hl
    by (subst sl; destruct (_ >? _); rewrite ?length_alter; reflexivity).
  destruct (lookup_lt_is_Some_2 sl (Z.to_nat (add_position r))) as [x Hx]; [lia|].
  exists (bloom_Add b x). rewrite list_lookup_alter_eq, Hx. split; [reflexivity|].
  apply bloom_add_found.
Qed.

Lemma mod_pred_pos a n : 0 < n -> a mod n <> 0 -> (a - 1) mod n = a mod n - 1.
Proof.
  intros Hn Ha. pose proof (Z.mod_pos_bound a n Hn).
  symmetry. apply (Z.mod_unique_pos _ _ (a / n)); [lia|].
  pose proof (Z.div_mod a n ltac:(lia)). lia.
Qed.

Lemma mod_zero_eq q p n : 0 <= q < n -> 0 <= p < n -> (q - p - 1) mod n = 0 -> q = (p + 1) mod n.
Proof.
  intros Hq Hp Hmod. apply Z.mod_divide in Hmod as [z Hz]; [|lia].
  assert (z = 0 \/ z = -1) as [-> | ->] by nia.
  - rewrite Z.mod_small; lia.
  - replace (p + 1) with (q + 1 * n) by lia. rewrite Z.mod_add, Z.mod_small; lia.
Qed.

(** An entry survives one more [add] as long as its slot has lifetime left. *)
Lemma add_next_keeps a b r q :
  ring_wf r -> 0 <= q < slotCount r -> holds_in r q a -> 0 < lifetime r q ->
  holds_in (add_next b r) q a /\ lifetime (add_next b r) q = lifetime r q - 1.
Proof.
  intros Hwf Hq (f & Hf & Ht) Hl. pose proof (add_position_range r Hwf) as Hap.
  destruct Hwf as [Hc Hs Hp He].
  unfold lifetime in *. unfold holds_in, add_next. cbn [slots slotPosition slotCount
    slotCapacity entryCounter]. unfold add_position in *.
  destruct (entryCounter r >? slotCapacity r) eqn:Hrot.
  - assert (entryCounter r = slotCapacity r + 1) as Hfull by lia.
    assert ((q - slotPosition r - 1) mod slotCount r <> 0) as Hne.
    { intros E. rewrite E in Hl. lia. }
    assert (q <> (slotPosition r + 1) mod slotCount r) as Hq'.
    { intros E. apply Hne. rewrite E.
      replace ((slotPosition r + 1) mod slotCount r - slotPosition r - 1)
        with ((slotPosition r + 1) mod slotCount r - (slotPosition r + 1)) by lia.
      rewrite Zminus_mod_idemp_l, Z.sub_diag. reflexivity. }
    split.
    + exists f. rewrite !list_lookup_alter_ne by lia. auto.
    + replace (q - (slotPosition r + 1) mod slotCount r - 1)
        with (q - 1 - (slotPosition r + 1) mod slotCount r) by lia.
      rewrite Zminus_mod_idemp_r.
      replace (q - 1 - (slotPosition r + 1)) with (q - slotPosition r - 1 - 1) by lia.
      rewrite mod_pred_pos by lia. lia.
  - split; [|lia].
    destruct (decide (Z.to_nat q = Z.to_nat (slotPosition r))) as [E|E].
    + exists (bloom_Add b f). rewrite E, list_lookup_alter_eq, <- E, Hf. split; [done|].
      apply bloom_add_keeps, Ht.
    + exists f. rewrite list_lookup_alter_ne by lia. auto.
Qed.

(** Right after an entry is added, its slot outlives all the other slots' capacity. *)
Lemma add_next_lifetime b r :
  ring_wf r ->
  (slotCount r - 1) * (slotCapacity r + 1) <= lifetime (add_next b r) (add_position r).
Proof.
  intros Hwf. pose proof (add_next_wf b r Hwf) as [Hc' Hs' Hp' He'].
  destruct Hwf as [Hc Hs Hp He].
  unfold lifetime. cbn [slotPosition slotCount slotCapacity add_next] in *.
  replace (add_position r - add_position r - 1) with (-1) by lia.
  replace ((-1) mod slotCount r) with (slotCount r - 1); [lia|].
  apply (Z.mod_unique_pos _ _ (-1)); lia.
Qed.

Lemma holds_test r q a : holds_in r q a -> existsb (bloom_Test a) (slots r) = true.
Proof.
  intros (f & Hf & Ht). apply existsb_exists. exists f. split; [|exact Ht].
  apply list_elem_of_In. by eapply list_elem_of_lookup_2.
Qed.

(** The adds of a history, oldest first. *)
Definition add_all (l : list bytes) r : BloomRing B := fold_left (fun r b => add_next b r) l r.

Lemma add_all_wf l r : ring_wf r -> ring_wf (add_all l r).
Proof. revert r. induction l as [|b l IH]; cbn; auto using add_next_wf. Qed.

Lemma add_all_keeps a l r q :
  ring_wf r -> 0 <= q < slotCount r -> holds_in r q a -> len l <= lifetime r q ->
  holds_in (add_all l r) q a.
Proof.
  revert r. induction l as [|b l IH]; intros r Hwf Hq Ha Hl; [done|].
  cbn [List.length] in Hl.
  destruct (add_next_keeps a b r q) as [Ha' Hl']; try done; [lia|].
  apply IH; [by apply add_next_wf | done | done | lia].
Qed.

(** The calls on a well-formed ring whose mutex is free return, and free it again. *)
Lemma wp_on_ring {A} (m : M (BloomRing B) A) f r (Q : A -> option (BloomRing B) -> Prop) :
  wp m f r (fun a r' => Q a (Some r')) -> wp (on_ring m) f (Some r) Q.
Proof. unfold wp, on_ring. destruct (m f r); tauto. Qed.

Lemma wp_Lock f r (Q : unit -> BloomRing B -> Prop) :
  mutex r = unlocked -> Q tt (set_mutex {| wlocked := true; rlocks := 0 |} r) -> wp Lock f r Q.
Proof. intros Hm HQ. unfold Lock. do 2 wp_step. rewrite Hm. exact HQ. Qed.

Lemma Add_run b f r Q :
  ring_wf r -> mutex r = unlocked -> Q tt (Some (add_next b r)) -> wp (Add b) f (Some r) Q.
Proof.
  intros Hwf Hm HQ. unfold Add. do 2 wp_step. apply wp_on_ring. wp_step.
  apply wp_Lock; [exact Hm|]. wp_step. apply add_run; [by destruct Hwf|].
  replace (Unlock _) with (add_next b r); [exact HQ|].
  unfold Unlock, set_mutex, add_next, add_position. cbn. by rewrite <- Hm.
Qed.

Lemma Test_run b f r Q :
  mutex r = unlocked -> Q (existsb (bloom_Test b) (slots r)) (Some r) -> wp (Test b) f (Some r) Q.
Proof.
  intros Hm HQ. destruct r as [? ? ? ? ? m]. cbn in Hm. subst m. exact HQ.
Qed.

Lemma each_Add_run l f r Q :
  ring_wf r -> mutex r = unlocked -> Q tt (Some (add_all l r)) ->
  wp (each Add l) f (Some r) Q.
Proof.
  revert r. induction l as [|b l IH]; intros r Hwf Hm HQ; [exact HQ|].
  cbn [each]. wp_step. apply Add_run; [done..|]. apply IH; [by apply add_next_wf | exact Hm | exact HQ].
Qed.

Lemma NewBloomRing_run {S} slot capacity fpr f (s : S) :
  0 < slot -> 0 <= capacity ->
  wp (NewBloomRing slot capacity fpr) f s (fun r s' =>
    s' = s /\ ring_wf r /\ mutex r = unlocked /\
    slotCount r = slot /\ slotCapacity r = capacity / slot).
Proof.
  intros Hs Hc. unfold NewBloomRing.
  destruct (slot =? 0) eqn:E1; [lia|]. destruct (slot <? 0) eqn:E2; [lia|].
  wp_step. rewrite Z.quot_div_nonneg by lia.
  assert (0 <= capacity / slot) by (apply Z.div_pos; lia).
  repeat split; try reflexivity; cbn; rewrite ?length_replicate; lia.
Qed.

(** C19. The ring does not forget a salt too early: once [b] has been added, [Test b] answers
    [true] however many further salts are added, up to what the other slots hold together.
    The whole history runs: no index is out of range, and no call finds the mutex taken. *)
Theorem ring_remembers b later r fuel :
  ring_wf r -> mutex r = unlocked ->
  len later <= (slotCount r - 1) * (slotCapacity r + 1) ->
  wp (Add b ;;; each Add later ;;; Test b) fuel (Some r)
    (fun found o => found = true /\ o = Some (add_all later (add_next b r))).
Proof.
  intros Hwf Hm Hl. wp_step. apply Add_run; [done..|]. wp_step.
  apply each_Add_run; [by apply add_next_wf | done|]. apply Test_run.
  { clear Hl. assert (mutex (add_next b r) = unlocked) as Hm' by done.
    revert Hm'. generalize (add_next b r). induction later as [|c l IH]; [done|].
    intros r' Hm'. apply IH. exact Hm'. }
  split; [|reflexivity]. apply (holds_test _ (add_position r)).
  pose proof (add_next_lifetime b r Hwf).
  apply add_all_keeps; [by apply add_next_wf | exact (add_position_range r Hwf)
    | by apply add_next_holds | lia].
Qed.

(** [Check] never answers on a ring: with a free mutex it takes the write lock and then
    waits for itself in [Test], and a nil ring is dereferenced. *)
Theorem check_never_returns b (o : option (BloomRing B)) fuel :
  match o with
  | Some r => mutex r = unlocked ->
      exists o', Check b fuel o = Halt Deadlock o'
  | None => Check b fuel o = Halt (Panicked NilDereference) None
  end.
Proof.
  destruct o as [r|]; [|reflexivity]. intros Hm.
  destruct r as [? ? ? ? ? m]. cbn in Hm. subst m. eexists. reflexivity.
Qed.

End RingProofs.

(** ** The salt singleton *)

Section SaltProofs.
Context {B : Type} `{BloomLaws B}.
Variable Getenv : bytes -> bytes.
Variable ParseFloat : bytes -> option float64.

Definition salts_wf (s : saltState B) : Prop :=
  initSaltfilterOnce s = true /\
  forall r, saltfilter s = Some r -> ring_wf r /\ mutex r = unlocked.

(** What [CheckSalt] answers. *)
Definition known_salt (b : bytes) (s : saltState B) : bool :=
  match saltfilter s with
  | None => false
  | Some r => existsb (bloom_Test b) (slots r)
  end.

Definition after_AddSalt (b : bytes) (s : saltState B) : saltState B :=
  set_saltfilter (option_map (add_next b) (saltfilter s)) s.

Lemma after_AddSalt_wf b s : salts_wf s -> salts_wf (after_AddSalt b s).
Proof.
  intros [H1 H2]. split; [exact H1|]. cbn. intros r Hr.
  destruct (saltfilter s) as [r0|]; [|done]. injection Hr as <-.
  destruct (H2 r0 eq_refl). split; [by apply add_next_wf | done].
Qed.

Lemma CheckSalt_run b f s Q :
  salts_wf s -> Q (known_salt b s) s -> wp (CheckSalt Getenv ParseFloat b) f s Q.
Proof.
  intros [H1 H2] HQ. unfold CheckSalt, on_filter, getSaltFilterSingleton.
  do 3 wp_step. rewrite H1. do 2 wp_step. unfold known_salt in HQ.
  destruct s as [once [r|]]; cbn in *.
  - apply Test_run; [by apply H2|]. exact HQ.
  - exact HQ.
Qed.

Lemma AddSalt_run b f s Q :
  salts_wf s -> Q tt (after_AddSalt b s) -> wp (AddSalt Getenv ParseFloat b) f s Q.
Proof.
  intros [H1 H2] HQ. unfold AddSalt, on_filter, getSaltFilterSingleton.
  do 3 wp_step. rewrite H1. do 2 wp_step.
  destruct s as [once [r|]]; cbn in *.
  - apply Add_run; [by apply H2..|]. exact HQ.
  - exact HQ.
Qed.

Lemma known_after_AddSalt b s r :
  salts_wf s -> saltfilter s = Some r -> known_salt b (after_AddSalt b s) = true.
Proof.
  intros [_ Hs] Hr. unfold known_salt, after_AddSalt. cbn. rewrite Hr. cbn.
  apply (holds_test (add_next b r) (add_position r)), add_next_holds. by apply Hs.
Qed.

(** The first call sets the filter up. *)
Lemma first_use_default f Q :
  (forall v, Getenv v = []) ->
  (forall r, ring_wf r -> mutex r = unlocked -> slotCount r = 10 -> slotCapacity r = 100000 ->
     Q tt {| initSaltfilterOnce := true; saltfilter := Some r |}) ->
  wp (getSaltFilterSingleton Getenv ParseFloat) f (saltState_init : saltState B) Q.
Proof.
  intros Henv HQ. unfold getSaltFilterSingleton, initSaltfilter, sf_option.
  do 2 wp_step. cbn [initSaltfilterOnce saltState_init].
  do 2 wp_step. rewrite !Henv. rewrite bool_decide_true by done.
  repeat wp_step; [discriminate|].
  change (int_of_float DefaultSFSlot) with 10.
  change (int_of_float DefaultSFCapacity) with 1000000.
  eapply wp_mono; [apply NewBloomRing_run; lia|].
  intros r s' (-> & Hwf & Hm & Hc & Hcap). wp_step. by apply HQ.
Qed.

Lemma each_AddSalt_run l f s r Q :
  salts_wf s -> saltfilter s = Some r -> Q tt (set_saltfilter (Some (add_all l r)) s) ->
  wp (each (AddSalt Getenv ParseFloat) l) f s Q.
Proof.
  revert s r. induction l as [|b l IH]; intros s r Hwf Hr HQ.
  { destruct s; cbn in *. subst. exact HQ. }
  cbn [each]. wp_step. apply AddSalt_run; [exact Hwf|].
  apply (IH _ (add_next b r)); [by apply after_AddSalt_wf | | exact HQ].
  unfold after_AddSalt. cbn. by rewrite Hr.
Qed.

(** With nothing set in the environment, a salt handed to [AddSalt] is reported as
    repeated by [CheckSalt] for the next 900,009 salts added, counting from the first use
    of the filter, which that call itself sets up. *)
Theorem default_filter_window b later fuel :
  (forall v, Getenv v = []) -> len later <= 900009 ->
  wp (AddSalt Getenv ParseFloat b ;;;
      each (AddSalt Getenv ParseFloat) later ;;;
      CheckSalt Getenv ParseFloat b) fuel (saltState_init : saltState B)
    (fun repeated _ => repeated = true).
Proof.
  intros Henv Hl. wp_step. unfold AddSalt at 1, on_filter. wp_step.
  apply first_use_default; [exact Henv|]. intros r Hwf Hm Hcnt Hcap.
  wp_step. cbn [saltfilter]. apply Add_run; [done..|]. wp_step.
  assert (ring_wf (add_next b r)) as Hwf' by by apply add_next_wf.
  eapply each_AddSalt_run; [|reflexivity|].
  { split; [done|]. cbn. intros ? [= <-]. done. }
  apply CheckSalt_run; [split; [done|]|].
  - cbn. intros ? [= <-]. split; [by apply add_all_wf|].
    assert (mutex (add_next b r) = unlocked) as Hm' by done. revert Hm'.
    generalize (add_next b r). clear. induction later as [|c l IH]; [done|].
    intros r Hm. by apply IH.
  - unfold known_salt. cbn. apply (holds_test _ (add_position r)).
    pose proof (add_next_lifetime b r Hwf).
    apply add_all_keeps; [done | exact (add_position_range r Hwf) | by apply add_next_holds
      | lia].
Qed.

Lemma each_ignored_CheckSalt_run l f s Q :
  salts_wf s -> Q tt s ->
  wp (each (fun b => CheckSalt Getenv ParseFloat b ;;; ret tt) l) f s Q.
Proof.
  intros Hwf HQ. induction l as [|b l IH]; [exact HQ|].
  cbn [each]. do 2 wp_step. apply CheckSalt_run; [exact Hwf|]. wp_step. exact IH.
Qed.

(** [CheckSalt] never records the salt it is asked about: a salt that is not in the filter
    is reported fresh again when it comes back, whatever other salts were checked in
    between, and the filter is the one before. *)
Theorem checked_salt_is_not_recorded b others s fuel :
  salts_wf s -> known_salt b s = false ->
  wp (let! first := CheckSalt Getenv ParseFloat b in
      each (fun b => CheckSalt Getenv ParseFloat b ;;; ret tt) others ;;;
      let! second := CheckSalt Getenv ParseFloat b in
      ret (first, second)) fuel s
    (fun '(first, second) s' => first = false /\ second = false /\ s' = s).
Proof.
  intros Hwf Hb. wp_step. apply CheckSalt_run; [exact Hwf|]. wp_step.
  apply each_ignored_CheckSalt_run; [exact Hwf|]. wp_step.
  apply CheckSalt_run; [exact Hwf|]. wp_step. auto.
Qed.

End SaltProofs.

(** ** Witnesses: a Bloom filter that is simply the list of what was added *)

Definition list_bloom : Type := list bytes.

#[global] Instance list_bloom_Bloom : Bloom list_bloom := {
  bloom_New := fun _ _ _ => [];
  bloom_Add := fun b f => b :: f;
  bloom_Test := fun b f => bool_decide (b ∈ f);
  bloom_Reset := fun _ => []
}.

#[global] Program Instance list_bloom_laws : BloomLaws list_bloom.
Next Obligation. intros b f. cbn. rewrite bool_decide_eq_true. apply list_elem_of_here. Qed.
Next Obligation.
  intros a b f. cbn. rewrite !bool_decide_eq_true. apply list_elem_of_further.
Qed.

Definition small_ring : BloomRing list_bloom :=
  {| slotCapacity := 1; slotPosition := 0; slotCount := 2; entryCounter := 2;
     slots := [[str "a"; str "b"]; []]; mutex := unlocked |}.

Lemma small_ring_wf : ring_wf small_ring.
Proof. constructor; cbn; lia. Qed.

Lemma ring_remembers_witness :
  wp (Add (str "x") ;;; each Add [str "y"; str "z"] ;;; Test (str "x")) 0 (Some small_ring)
    (fun found o => found = true /\
       o = Some (add_all [str "y"; str "z"] (add_next (str "x") small_ring))).
Proof.
  apply (ring_remembers (str "x") [str "y"; str "z"] small_ring 0 small_ring_wf eq_refl).
  vm_compute. discriminate.
Defined.

Lemma check_never_returns_witness :
  mutex small_ring = unlocked /\ exists o', Check (str "x") 5%nat (Some small_ring) = Halt Deadlock o'.
Proof.
  split; [reflexivity|]. exact (check_never_returns (str "x") (Some small_ring) 5%nat eq_refl).
Defined.

Definition no_env : bytes -> bytes := fun _ => [].
Definition no_floats : bytes -> option float64 := fun _ => None.

Lemma default_filter_window_witness :
  wp (AddSalt no_env no_floats (str "salt") ;;;
      each (AddSalt no_env no_floats) [str "a"; str "b"] ;;;
      CheckSalt no_env no_floats (str "salt")) 0 (saltState_init : saltState list_bloom)
    (fun repeated _ => repeated = true).
Proof.
  apply (default_filter_window no_env no_floats (str "salt") [str "a"; str "b"] 0).
  - intros v. reflexivity.
  - vm_compute. discriminate.
Defined.

Definition small_salts : saltState list_bloom :=
  {| initSaltfilterOnce := true; saltfilter := Some small_ring |}.

Lemma small_salts_wf : salts_wf small_salts.
Proof. split; [done|]. intros r [= <-]. split; [apply small_ring_wf | done]. Qed.

Lemma checked_salt_is_not_recorded_witness :
  known_salt (str "x") small_salts = false /\
  wp (let! first := CheckSalt no_env no_floats (str "x") in
      each (fun b => CheckSalt no_env no_floats b ;;; ret tt) [str "y"] ;;;
      let! second := CheckSalt no_env no_floats (str "x") in
      ret (first, second)) 0 small_salts
    (fun '(first, second) s' => first = false /\ second = false /\ s' = small_salts).
Proof.
  split; [vm_compute; reflexivity|].
  apply (checked_salt_is_not_recorded no_env no_floats (str "x") [str "y"] small_salts 0
    small_salts_wf).
  vm_compute. reflexivity.
Defined.
