(* ===== verification/ShadowCipher.v ===== *)
(** The ciphers of [m_shadow] (cipher.go): session sub-keys derived from a pre-shared key and a
    salt, and the AEADs made from them.

    HKDF and ChaCha20-Poly1305 are golang.org/x/crypto, AES-GCM is crypto/aes with
    crypto/cipher: they are parameters.  [AEAD] is the interface cipher.AEAD with what its
    documentation promises as the class [AEADLaws]. *)

From Stdlib Require Import ZArith Lia.
From stdpp Require Import base decidable list numbers strings.
From S2P Require Import Prelude GoIO.

(** ** cipher.AEAD *)

Record AEAD := {
  NonceSize : Z;
  Overhead : Z;
  (** [Seal nonce plaintext ad]: the bytes appended to [dst]. *)
  Seal : bytes -> bytes -> bytes -> bytes;
  (** [Open nonce ciphertext ad]: the plaintext appended to [dst], [None] when
      authentication fails. *)
  Open : bytes -> bytes -> bytes -> option bytes;
  (** What a failed [Open] leaves in the memory behind [dst]: it may be overwritten. *)
  Clobber : bytes -> bytes -> bytes -> bytes -> bytes
}.

Class AEADLaws (a : AEAD) : Prop := {
  nonce_size_nonneg : 0 <= NonceSize a <= 128;
  overhead_nonneg : 0 <= Overhead a;
  seal_len : forall n p ad, len (Seal a n p ad) = len p + Overhead a;
  open_len : forall n c ad p, Open a n c ad = Some p -> len c = len p + Overhead a;
  open_seal : forall n p ad, Open a n (Seal a n p ad) ad = Some p;
  clobber_len : forall n c ad old, length (Clobber a n c ad old) = length old
}.

(** The AEADs in use are deterministic encryptions with a recomputed tag: what opens is what
    sealing gives. *)
Class AEADTight (a : AEAD) : Prop :=
  open_tight : forall n c ad p, Open a n c ad = Some p -> c = Seal a n p ad.

Definition errOpen : error := Sentinel "cipher: message authentication failed".

(** The calls, which panic on a nonce of the wrong length. *)
Definition aead_Seal {S} (a : AEAD) (nonce plaintext ad : bytes) : M S bytes :=
  if len nonce =? NonceSize a then ret (Seal a nonce plaintext ad)
  else fail (PanicValue "crypto/cipher: incorrect nonce length given to GCM").

(** [Open(dst[:0], nonce, c, ad)]: the memory behind [dst] afterwards, and the plaintext or the
    error. *)
Definition aead_Open {S} (a : AEAD) (dst nonce c ad : bytes) : M S (bytes * (bytes + error)) :=
  if len nonce =? NonceSize a then
    match Open a nonce c ad with
    | Some p => ret (blit 0 p dst, inl p)
    | None => ret (Clobber a nonce c ad dst, inr errOpen)
    end
  else fail (PanicValue "crypto/cipher: incorrect nonce length given to GCM").

Lemma wp_aead_Seal {S} a nonce p ad f (s : S) (Q : bytes -> S -> Prop) :
  len nonce = NonceSize a -> Q (Seal a nonce p ad) s -> wp (aead_Seal a nonce p ad) f s Q.
Proof. intros H HQ. unfold aead_Seal. rewrite (proj2 (Z.eqb_eq _ _) H). exact HQ. Qed.

(** ** cipher.go *)

Definition ErrRepeatedSalt : error := Sentinel "repeated salt detected".

(** The interface [Cipher]. A method may return, or panic. *)
Record Cipher := {
  KeySize : Z;
  SaltSize : Z;
  Encrypter : bytes -> outcome unit (AEAD + error);
  Decrypter : bytes -> outcome unit (AEAD + error)
}.

(** Calling a method that has no access to the caller's state. *)
Definition lift {S A} (o : outcome unit A) : M S A := fun _ s =>
  match o with
  | Ret a _ => Ret a s
  | Halt h _ => Halt h s
  end.

Lemma wp_lift {S A} (o : outcome unit A) a f (s : S) (Q : A -> S -> Prop) :
  o = Ret a tt -> Q a s -> wp (lift o) f s Q.
Proof. intros -> HQ. exact HQ. Qed.

Section MetaCipher.

(** [io.ReadFull(hkdf.New(sha1.New, secret, salt, info), outkey)] for an [outkey] of [n] bytes. *)
Variable hkdf_sha1 : forall (secret salt info : bytes) (n : Z), bytes + error.
(** [cipher.NewGCM] of the AES cipher for that key. *)
Variable gcm_of_aes : bytes -> AEAD.
(** [chacha20poly1305.New]. *)
Variable chacha20poly1305_New : bytes -> AEAD + error.

Definition chacha20poly1305_KeySize : Z := 32.

Definition hkdfSHA1 (secret salt info outkey : bytes) : outcome unit bytes :=
  match hkdf_sha1 secret salt info (len outkey) with
  | inl key => Ret key tt
  | inr _ => Halt (Panicked (PanicValue "hkdf: entropy limit reached")) tt
  end.

Record metaCipher := {
  psk : bytes;
  makeAEAD : bytes -> AEAD + error
}.

Definition metaCipher_KeySize (a : metaCipher) : Z := len (psk a).

Definition metaCipher_SaltSize (a : metaCipher) : Z :=
  let ks := metaCipher_KeySize a in
  if ks >? 16 then ks else 16.

Definition metaCipher_Encrypter (a : metaCipher) (salt : bytes) : outcome unit (AEAD + error) :=
  let subkey := zeros (metaCipher_KeySize a) in
  match hkdfSHA1 (psk a) salt (str "ss-subkey") subkey with
  | Ret subkey _ => Ret (makeAEAD a subkey) tt
  | Halt h _ => Halt h tt
  end.

Definition metaCipher_Decrypter (a : metaCipher) (salt : bytes) : outcome unit (AEAD + error) :=
  let subkey := zeros (metaCipher_KeySize a) in
  match hkdfSHA1 (psk a) salt (str "ss-subkey") subkey with
  | Ret subkey _ => Ret (makeAEAD a subkey) tt
  | Halt h _ => Halt h tt
  end.

(** The [*metaCipher] as a [Cipher]. *)
Definition meta_Cipher (a : metaCipher) : Cipher :=
  {| KeySize := metaCipher_KeySize a; SaltSize := metaCipher_SaltSize a;
     Encrypter := metaCipher_Encrypter a; Decrypter := metaCipher_Decrypter a |}.

Definition aes_key_ok (l : Z) : bool := (l =? 16) || (l =? 24) || (l =? 32).

Definition aesGCM (key : bytes) : AEAD + error :=
  if aes_key_ok (len key) then inl (gcm_of_aes key) else inr (AesKeySizeError (len key)).

Definition AESGCM (key : bytes) : Cipher + error :=
  let l := len key in
  if aes_key_ok l then inl (meta_Cipher {| psk := key; makeAEAD := aesGCM |})
  else inr (AesKeySizeError l).

Definition Chacha20Poly1305 (key : bytes) : Cipher + error :=
  if len key =? chacha20poly1305_KeySize
  then inl (meta_Cipher {| psk := key; makeAEAD := chacha20poly1305_New |})
  else inr (KeySizeError chacha20poly1305_KeySize).

(** ** Correctness *)

(** The documented limit of HKDF-SHA1, which the key sizes stay below. *)
Hypothesis hkdf_ok : forall secret salt info n,
  0 <= n <= 255 * 20 -> exists key, hkdf_sha1 secret salt info n = inl key /\ len key = n.
Hypothesis chacha_ok : forall key, len key = 32 -> exists a, chacha20poly1305_New key = inl a.

Lemma AESGCM_spec psk :
  (exists c, AESGCM psk = inl c) <-> len psk = 16 \/ len psk = 24 \/ len psk = 32.
Proof.
  unfold AESGCM, aes_key_ok. split.
  - intros [c Hc]. destruct (_ || _) eqn:E; [|discriminate].
    rewrite !orb_true_iff, !Z.eqb_eq in E. lia.
  - intros Hl. destruct (_ || _) eqn:E; [eauto|].
    rewrite !orb_false_iff, !Z.eqb_neq in E. lia.
Qed.

Lemma session_agrees (k salt : bytes) (c : Cipher) :
  AESGCM k = inl c \/ Chacha20Poly1305 k = inl c ->
  16 <= SaltSize c /\ KeySize c = len k /\ KeySize c <= SaltSize c /\
  exists a, Encrypter c salt = Ret (inl a) tt /\ Decrypter c salt = Ret (inl a) tt.
Proof.
  assert (forall mk, 16 <= len k <= 32 ->
    (forall key, len key = len k -> exists a, mk key = inl a) ->
    c = meta_Cipher {| psk := k; makeAEAD := mk |} ->
    16 <= SaltSize c /\ KeySize c = len k /\ KeySize c <= SaltSize c /\
    exists a, Encrypter c salt = Ret (inl a) tt /\ Decrypter c salt = Ret (inl a) tt) as Hmeta.
  { intros mk Hk Hmk ->.
    cbn [SaltSize KeySize Encrypter Decrypter meta_Cipher].
    unfold metaCipher_SaltSize, metaCipher_KeySize, metaCipher_Encrypter,
      metaCipher_Decrypter, hkdfSHA1, metaCipher_KeySize. cbn [psk makeAEAD].
    rewrite len_zeros by lia.
    destruct (hkdf_ok k salt (str "ss-subkey") (len k)) as (key & -> & Hl); [lia|].
    destruct (Hmk key Hl) as [a ->].
    split; [destruct (len k >? 16) eqn:E; lia|]. split; [done|].
    split; [destruct (len k >? 16) eqn:E; lia|]. eauto. }
  intros [Hc|Hc].
  - destruct (AESGCM_spec k) as [Hs _]. specialize (Hs (ex_intro _ c Hc)).
    unfold AESGCM in Hc. destruct (aes_key_ok (len k)) eqn:E; [|discriminate].
    injection Hc as <-. eapply Hmeta; [lia | | reflexivity].
    intros key Hkey. unfold aesGCM. rewrite Hkey, E. eauto.
  - unfold Chacha20Poly1305, chacha20poly1305_KeySize in Hc.
    destruct (len k =? 32) eqn:E; [|discriminate]. apply Z.eqb_eq in E.
    injection Hc as <-. eapply Hmeta; [lia | | reflexivity].
    intros key Hkey. apply chacha_ok. lia.
Qed.

(** A cipher made by [AESGCM] or [Chacha20Poly1305] always sets up a session: its salt is at
    least 16 bytes and as long as the key, and both ends derive the same AEAD from the same
    salt, with no error and no panic. *)
Theorem cipher_session_agrees (k salt : bytes) (c : Cipher) :
  AESGCM k = inl c \/ Chacha20Poly1305 k = inl c ->
  16 <= SaltSize c /\ KeySize c = len k /\ KeySize c <= SaltSize c /\
  exists a, Encrypter c salt = Ret (inl a) tt /\ Decrypter c salt = Ret (inl a) tt.
Proof. apply session_agrees. Qed.

(** The key length is checked when the cipher is made: any other length than the one the AEAD
    takes is an error that names a key size. *)
Theorem cipher_key_size_checked (k : bytes) :
  (forall e, AESGCM k = inr e <->
     (len k <> 16 /\ len k <> 24 /\ len k <> 32) /\ e = AesKeySizeError (len k)) /\
  (forall e, Chacha20Poly1305 k = inr e <-> len k <> 32 /\ e = KeySizeError 32).
Proof.
  unfold AESGCM, aes_key_ok, Chacha20Poly1305, chacha20poly1305_KeySize.
  destruct (len k =? 16) eqn:E1, (len k =? 24) eqn:E2, (len k =? 32) eqn:E3; cbn;
    repeat split; intros; simplify_eq; try lia; destruct_and?; subst; (lia || reflexivity).
Qed.

End MetaCipher.

(** ** An AEAD for witnesses

    It does not encrypt: the tag is the nonce with four bytes of padding. *)

Definition toy_tag (nonce ad : bytes) : bytes := take 12 (nonce ++ zeros 12) ++ zeros 4.

Definition toy_AEAD : AEAD := {|
  NonceSize := 12;
  Overhead := 16;
  Seal := fun n p ad => p ++ toy_tag n ad;
  Open := fun n c ad =>
    let k := (length c - 16)%nat in
    if decide (16 <= length c)%nat then
      if decide (drop k c = toy_tag n ad) then Some (take k c) else None
    else None;
  Clobber := fun _ _ _ old => zeros (len old)
|}.

Lemma toy_tag_len n ad : length (toy_tag n ad) = 16%nat.
Proof. unfold toy_tag, zeros. rewrite !length_app, length_take, length_app, !length_replicate. lia. Qed.

#[global] Instance toy_AEAD_laws : AEADLaws toy_AEAD.
Proof.
  constructor; cbn [NonceSize Overhead Seal Open Clobber toy_AEAD].
  - lia.
  - lia.
  - intros n p ad. rewrite length_app, toy_tag_len. lia.
  - intros n c ad p. case_decide; [|done]. case_decide; [|done].
    intros [= <-]. rewrite length_take. lia.
  - intros n p ad. rewrite length_app, toy_tag_len.
    rewrite decide_True by lia. replace (length p + 16 - 16)%nat with (length p) by lia.
    rewrite drop_app_length, decide_True by done. by rewrite take_app_length.
  - intros. pose proof (len_zeros (len old)). lia.
Qed.

#[global] Instance toy_AEAD_tight : AEADTight toy_AEAD.
Proof.
  intros n c ad p. cbn. case_decide; [|done]. case_decide as Hd; [|done].
  intros [= <-]. by rewrite <- Hd, take_drop.
Qed.

Definition toy_hkdf (secret salt info : bytes) (n : Z) : bytes + error :=
  if n <=? 255 * 20 then inl (zeros n) else inr (Sentinel "hkdf: entropy limit reached").

Lemma toy_hkdf_ok secret salt info n :
  0 <= n <= 255 * 20 -> exists key, toy_hkdf secret salt info n = inl key /\ len key = n.
Proof.
  intros Hn. exists (zeros n). unfold toy_hkdf. rewrite (proj2 (Z.leb_le _ _)) by lia.
  split; [done | apply len_zeros; lia].
Qed.

Lemma cipher_session_agrees_witness :
  let c := meta_Cipher toy_hkdf
             {| psk := str "0123456789abcdef"; makeAEAD := aesGCM (fun _ => toy_AEAD) |} in
  16 <= SaltSize c /\ KeySize c = 16 /\ KeySize c <= SaltSize c /\
  exists a, Encrypter c (str "salt") = Ret (inl a) tt /\ Decrypter c (str "salt") = Ret (inl a) tt.
Proof.
  exact (cipher_session_agrees toy_hkdf (fun _ => toy_AEAD) (fun _ => inl toy_AEAD)
    toy_hkdf_ok (fun key _ => ex_intro _ toy_AEAD eq_refl)
    (str "0123456789abcdef") (str "salt") _ (or_introl eq_refl)).
Defined.
