(* ===== verification/ShadowStream.v ===== *)
(** The encrypted stream of [m_shadow] (stream.go): the record writer, the record reader, and
    the connection that exchanges a salt before the first record in each direction.

    A slice kept in a struct ([leftover]) is a range of the buffer it points into, so that
    the aliasing is the code's. *)

From Stdlib Require Import ZArith Lia.
From stdpp Require Import base decidable list numbers strings.
From S2P Require Import Prelude GoIO SaltFilter ShadowCipher.

Definition payloadSizeMask : Z := 0x3FFF.

(** ** The nonce *)

(** [b[i]++; if b[i] != 0 { return }], from the first byte on. *)
Fixpoint increment (b : bytes) : bytes :=
  match b with
  | [] => []
  | c :: b' =>
      let c' := z2b (b2z c + 1) in
      if bool_decide (c' = z2b 0) then c' :: increment b' else c' :: b'
  end.

(** ** The writer *)

Record swriter := {
  w_AEAD : AEAD;
  w_nonce : bytes;
  w_buf : bytes
}.

Definition w_set_buf (buf : bytes) (w : swriter) : swriter :=
  {| w_AEAD := w_AEAD w; w_nonce := w_nonce w; w_buf := buf |}.

Definition w_set_nonce (n : bytes) (w : swriter) : swriter :=
  {| w_AEAD := w_AEAD w; w_nonce := n; w_buf := w_buf w |}.

Definition newWriter (aead : AEAD) : swriter :=
  {| w_AEAD := aead;
     w_buf := zeros (2 + Overhead aead + payloadSizeMask + Overhead aead);
     w_nonce := zeros (NonceSize aead) |}.

Section Writer.
Context {W : Type} `{Writer W} {R : Type} `{Reader R}.

(** The state of [ReadFrom]: the struct, the embedded writer and the source. *)
Record wstate := { ws_w : swriter; ws_Writer : W; ws_src : R }.

Definition ws_set_w (w : swriter) (s : wstate) : wstate :=
  {| ws_w := w; ws_Writer := ws_Writer s; ws_src := ws_src s |}.
Definition ws_set_Writer (w : W) (s : wstate) : wstate :=
  {| ws_w := ws_w s; ws_Writer := w; ws_src := ws_src s |}.
Definition ws_set_src (r : R) (s : wstate) : wstate :=
  {| ws_w := ws_w s; ws_Writer := ws_Writer s; ws_src := r |}.

(** [w.Seal(dst[:0], w.nonce, dst[:n], nil)] in place at offset [off] of the buffer, followed
    by [increment(w.nonce)]. *)
Definition seal_in_place (off n : Z) : M wstate unit :=
  let! s := get in
  let w := ws_w s in
  let! plain := slice off (off + n) (w_buf w) in
  let! sealed := aead_Seal (w_AEAD w) (w_nonce w) plain [] in
  put (ws_set_w (w_set_nonce (increment (w_nonce w))
                   (w_set_buf (blit off sealed (w_buf w)) w)) s).

(** The body of [if nr > 0]: frame, encrypt and send [nr] bytes that are in place in the
    payload buffer; the error is the embedded writer's. *)
Definition write_record (nr : Z) : M wstate (option error) :=
  let! s := get in
  let w := ws_w s in
  let ov := Overhead (w_AEAD w) in
  let! buf := slice 0 (2 + ov + nr + ov) (w_buf w) in
  let! _ := slice (2 + ov) (2 + ov + nr) (w_buf w) in
  let! b0 := store 0 (z2b (Z.shiftr nr 8)) (w_buf w) in
  let! b1 := store 1 (z2b nr) b0 in
  put (ws_set_w (w_set_buf b1 w) s) ;;;
  seal_in_place 0 2 ;;;
  seal_in_place (2 + ov) nr ;;;
  let! s := get in
  let! buf := slice 0 (2 + ov + nr + ov) (w_buf (ws_w s)) in
  let! '(_, ew) := zoom ws_Writer ws_set_Writer (write buf) in
  ret ew.

Definition swriter_ReadFrom_body (n : Z) : M wstate (Z + (Z * option error)) :=
  let! s := get in
  let w := ws_w s in
  let ov := Overhead (w_AEAD w) in
  let! payloadBuf := slice (2 + ov) (2 + ov + payloadSizeMask) (w_buf w) in
  let! '(p, nr, er) := zoom ws_src ws_set_src (read payloadBuf) in
  modify (fun s => ws_set_w (w_set_buf (blit (2 + ov) p (w_buf w)) w) s) ;;;
  let! ew := (if nr >? 0 then write_record nr else ret None) in
  let n' := if nr >? 0 then i64 (n + nr) else n in
  match ew with
  | Some e => ret (inr (n', Some e))
  | None =>
      match er with
      | Some e => ret (inr (n', if bool_decide (e = EOF) then None else Some e))
      | None => ret (inl n')
      end
  end.

Definition swriter_ReadFrom : M wstate (Z * option error) := iter swriter_ReadFrom_body 0.

End Writer.
Arguments wstate W R : clear implicits.

(** [Write(b)]: [ReadFrom] of a [bytes.Buffer] over [b]. *)
Definition swriter_Write {W} `{Writer W} (b : bytes) : M (swriter * W) (Z * option error) :=
  fun f '(w, out) =>
    match swriter_ReadFrom f {| ws_w := w; ws_Writer := out; ws_src := b : buffer |} with
    | Ret (n, err) s => Ret (n, err) (ws_w s, ws_Writer s)
    | Halt h s => Halt h (ws_w s, ws_Writer s)
    end.

(** ** The reader *)

Record sreader := {
  r_AEAD : AEAD;
  r_nonce : bytes;
  r_buf : bytes;
  r_leftover : Z * Z  (** the range of [r_buf] it points to *)
}.

Definition newReader (aead : AEAD) : sreader :=
  {| r_AEAD := aead;
     r_buf := zeros (payloadSizeMask + Overhead aead);
     r_nonce := zeros (NonceSize aead);
     r_leftover := (0, 0) |}.

Definition r_set_buf (buf : bytes) (r : sreader) : sreader :=
  {| r_AEAD := r_AEAD r; r_nonce := r_nonce r; r_buf := buf; r_leftover := r_leftover r |}.
Definition r_set_nonce (n : bytes) (r : sreader) : sreader :=
  {| r_AEAD := r_AEAD r; r_nonce := n; r_buf := r_buf r; r_leftover := r_leftover r |}.
Definition r_set_leftover (l : Z * Z) (r : sreader) : sreader :=
  {| r_AEAD := r_AEAD r; r_nonce := r_nonce r; r_buf := r_buf r; r_leftover := l |}.

Definition leftover_bytes (r : sreader) : bytes :=
  let '(lo, hi) := r_leftover r in sub lo hi (r_buf r).

Section Reader.
Context {R : Type} `{Reader R}.

Abbreviation rstate := (sreader * R)%type.

Definition on_r (g : sreader -> sreader) : M rstate unit := modify (fun '(r, src) => (g r, src)).
Definition the_r : M rstate sreader := gets fst.

(** [buf := r.buf[:n]; io.ReadFull(r.Reader, buf)]. *)
Definition fill_buf (n : Z) : M rstate (option error) :=
  let! r := the_r in
  let! buf := slice 0 n (r_buf r) in
  let! '(buf', _, err) := zoom snd (fun src '(r, _) => (r, src)) (ReadFull buf) in
  on_r (r_set_buf (blit 0 buf' (r_buf r))) ;;;
  ret err.

(** [r.Open(buf[:0], r.nonce, buf, nil); increment(r.nonce)] for [buf := r.buf[:n]]. *)
Definition open_in_place (n : Z) : M rstate (option error) :=
  let! r := the_r in
  let! buf := slice 0 n (r_buf r) in
  let! '(mem, res) := aead_Open (r_AEAD r) (r_buf r) (r_nonce r) buf [] in
  on_r (fun r => r_set_nonce (increment (r_nonce r)) (r_set_buf mem r)) ;;;
  ret (match res with inl _ => None | inr e => Some e end).

(** [read]: one record into the internal buffer. *)
Definition sreader_read : M rstate (Z * option error) :=
  let! r := the_r in
  let ov := Overhead (r_AEAD r) in
  let! err := fill_buf (2 + ov) in
  match err with Some e => ret (0, Some e) | None =>
  let! err := open_in_place (2 + ov) in
  match err with Some e => ret (0, Some e) | None =>
  let! r := the_r in
  let! b0 := index 0 (r_buf r) in
  let! b1 := index 1 (r_buf r) in
  let size := Z.land (Z.shiftl (b2z b0) 8 + b2z b1) payloadSizeMask in
  let! err := fill_buf (size + ov) in
  match err with Some e => ret (0, Some e) | None =>
  let! err := open_in_place (size + ov) in
  match err with Some e => ret (0, Some e) | None =>
  ret (size, None)
  end end end end.

(** [Read(b)]. *)
Definition sreader_Read (b : bytes) : M rstate (bytes * Z * option error) :=
  let! r := the_r in
  let '(lo, hi) := r_leftover r in
  if hi - lo >? 0 then
    let '(b', n) := copy b (leftover_bytes r) in
    on_r (r_set_leftover (lo + n, hi)) ;;;
    ret (b', n, None)
  else
    let! '(n, err) := sreader_read in
    let! r := the_r in
    let! got := slice 0 n (r_buf r) in
    let '(b', m) := copy b got in
    when (m <? n) (on_r (r_set_leftover (m, n))) ;;;
    ret (b', m, err).

(** [WriteTo(w)]. *)
Section WriteTo.
Context {W : Type} `{Writer W}.

Definition to_reader {A} (m : M rstate A) : M (rstate * W) A :=
  zoom fst (fun s '(_, w) => (s, w)) m.
Definition to_writer {A} (m : M W A) : M (rstate * W) A :=
  zoom snd (fun w '(s, _) => (s, w)) m.

Definition drain_leftover_body (n : Z) : M (rstate * W) (Z + (Z * option error)) :=
  let! r := to_reader the_r in
  let '(lo, hi) := r_leftover r in
  if hi - lo >? 0 then
    let! '(nw, ew) := to_writer (write (leftover_bytes r)) in
    if (0 <=? nw) && (nw <=? hi - lo) then
      to_reader (on_r (r_set_leftover (lo + nw, hi))) ;;;
      let n' := i64 (n + nw) in
      match ew with
      | Some e => ret (inr (n', Some e))
      | None => ret (inl n')
      end
    else fail SliceOutOfRange
  else ret (inr (n, None)).

Definition copy_records_body (n : Z) : M (rstate * W) (Z + (Z * option error)) :=
  let! '(nr, er) := to_reader sreader_read in
  let! '(nw, ew) :=
    (if nr >? 0 then
       let! r := to_reader the_r in
       let! out := slice 0 nr (r_buf r) in
       to_writer (write out)
     else ret (0, None)) in
  let n' := if nr >? 0 then i64 (n + nw) else n in
  match ew with
  | Some e => ret (inr (n', Some e))
  | None =>
      match er with
      | Some e => ret (inr (n', if bool_decide (e = EOF) then None else Some e))
      | None => ret (inl n')
      end
  end.

Definition sreader_WriteTo : M (rstate * W) (Z * option error) :=
  let! '(n, err) := iter drain_leftover_body 0 in
  match err with
  | Some e => ret (n, Some e)
  | None => iter copy_records_body n
  end.

End WriteTo.

#[global] Instance sreader_Reader : Reader rstate := sreader_Read.

End Reader.

(** ** The connection *)

Section StreamConn.
Context {C : Type} `{Reader C} `{Writer C}.
(** [crypto/rand.Reader]. *)
Context {G : Type} `{Reader G}.
Context {B : Type} `{Bloom B}.
Variable Getenv : bytes -> bytes.
Variable ParseFloat : bytes -> option float64.

Record streamConn := {
  Conn : C;
  ciph : Cipher;
  sc_r : option sreader;
  sc_w : option swriter
}.

(** A connection together with the process state its methods use: the salt filter and the
    source of randomness. *)
Record world := {
  conn_of : streamConn;
  salts : saltState B;
  rand : G
}.

(** [NewConn(c, ciph)]. *)
Definition NewConn (c : C) (k : Cipher) : streamConn :=
  {| Conn := c; ciph := k; sc_r := None; sc_w := None |}.

Definition set_Conn (c : C) (s : world) : world :=
  {| conn_of := {| Conn := c; ciph := ciph (conn_of s);
                   sc_r := sc_r (conn_of s); sc_w := sc_w (conn_of s) |};
     salts := salts s; rand := rand s |}.
Definition set_r (r : option sreader) (s : world) : world :=
  {| conn_of := {| Conn := Conn (conn_of s); ciph := ciph (conn_of s);
                   sc_r := r; sc_w := sc_w (conn_of s) |};
     salts := salts s; rand := rand s |}.
Definition set_w (w : option swriter) (s : world) : world :=
  {| conn_of := {| Conn := Conn (conn_of s); ciph := ciph (conn_of s);
                   sc_r := sc_r (conn_of s); sc_w := w |};
     salts := salts s; rand := rand s |}.
Definition set_salts (t : saltState B) (s : world) : world :=
  {| conn_of := conn_of s; salts := t; rand := rand s |}.
Definition set_rand (g : G) (s : world) : world :=
  {| conn_of := conn_of s; salts := salts s; rand := g |}.

Definition on_Conn {A} (m : M C A) : M world A := zoom (fun s => Conn (conn_of s)) set_Conn m.
Definition on_salts {A} (m : M (saltState B) A) : M world A := zoom salts set_salts m.

Definition initReader : M world (option error) :=
  let! s := get in
  let! salt := make (SaltSize (ciph (conn_of s))) in
  let! '(salt, _, err) := on_Conn (ReadFull salt) in
  match err with Some e => ret (Some e) | None =>
  let! aead := lift (Decrypter (ciph (conn_of s)) salt) in
  match aead with inr e => ret (Some e) | inl aead =>
  let! repeated := on_salts (CheckSalt Getenv ParseFloat salt) in
  if repeated : bool then ret (Some ErrRepeatedSalt)
  else
    modify (set_r (Some (newReader aead))) ;;;
    ret None
  end end.

(** A method of [*reader], whose embedded [io.Reader] is the connection. *)
Definition on_reader {A} (m : M (sreader * C) A) : M world A := fun f s =>
  match sc_r (conn_of s) with
  | None => Halt (Panicked NilDereference) s
  | Some r =>
      match m f (r, Conn (conn_of s)) with
      | Ret a (r', c') => Ret a (set_r (Some r') (set_Conn c' s))
      | Halt h (r', c') => Halt h (set_r (Some r') (set_Conn c' s))
      end
  end.

Definition streamConn_Read (b : bytes) : M world (bytes * Z * option error) :=
  let! s := get in
  let! err := (match sc_r (conn_of s) with None => initReader | Some _ => ret None end) in
  match err with
  | Some e => ret (b, 0, Some e)
  | None => on_reader (sreader_Read b)
  end.

Definition streamConn_WriteTo {W} `{Writer W} : M (world * W) (Z * option error) :=
  let! s := gets fst in
  let! err := (match sc_r (conn_of s) with
               | None => zoom fst (fun s '(_, w) => (s, w)) initReader
               | Some _ => ret None
               end) in
  match err with
  | Some e => ret (0, Some e)
  | None => fun f '(s, w) =>
      match sc_r (conn_of s) with
      | None => Halt (Panicked NilDereference) (s, w)
      | Some r =>
          match sreader_WriteTo f (r, Conn (conn_of s), w) with
          | Ret a (r', c', w') => Ret a (set_r (Some r') (set_Conn c' s), w')
          | Halt h (r', c', w') => Halt h (set_r (Some r') (set_Conn c' s), w')
          end
      end
  end.

Definition initWriter : M world (option error) :=
  let! s := get in
  let! salt := make (SaltSize (ciph (conn_of s))) in
  let! '(salt, _, err) := zoom rand set_rand (ReadFull salt) in
  match err with Some e => ret (Some e) | None =>
  let! aead := lift (Encrypter (ciph (conn_of s)) salt) in
  match aead with inr e => ret (Some e) | inl aead =>
  let! '(_, err) := on_Conn (write salt) in
  match err with Some e => ret (Some e) | None =>
  on_salts (AddSalt Getenv ParseFloat salt) ;;;
  modify (set_w (Some (newWriter aead))) ;;;
  ret None
  end end end.

(** A method of [*writer], whose embedded [io.Writer] is the connection. *)
Definition on_writer {A} (m : M (swriter * C) A) : M world A := fun f s =>
  match sc_w (conn_of s) with
  | None => Halt (Panicked NilDereference) s
  | Some w =>
      match m f (w, Conn (conn_of s)) with
      | Ret a (w', c') => Ret a (set_w (Some w') (set_Conn c' s))
      | Halt h (w', c') => Halt h (set_w (Some w') (set_Conn c' s))
      end
  end.

Definition streamConn_Write (b : bytes) : M world (Z * option error) :=
  let! s := get in
  let! err := (match sc_w (conn_of s) with None => initWriter | Some _ => ret None end) in
  match err with
  | Some e => ret (0, Some e)
  | None => on_writer (swriter_Write b)
  end.

Definition streamConn_ReadFrom {R} `{Reader R} : M (world * R) (Z * option error) :=
  let! s := gets fst in
  let! err := (match sc_w (conn_of s) with
               | None => zoom fst (fun s '(_, r) => (s, r)) initWriter
               | Some _ => ret None
               end) in
  match err with
  | Some e => ret (0, Some e)
  | None => fun f '(s, r) =>
      match sc_w (conn_of s) with
      | None => Halt (Panicked NilDereference) (s, r)
      | Some w =>
          let put t := (set_w (Some (ws_w t)) (set_Conn (ws_Writer t) s), ws_src t) in
          match swriter_ReadFrom f {| ws_w := w; ws_Writer := Conn (conn_of s); ws_src := r |} with
          | Ret a t => Ret a (put t)
          | Halt h t => Halt h (put t)
          end
      end
  end.

(** The connection is itself a reader and a writer. *)
Definition streamConn_Reader : Reader world := streamConn_Read.
Definition streamConn_Writer : Writer world := streamConn_Write.

End StreamConn.
Arguments streamConn C : clear implicits.
Arguments world C G B : clear implicits.
