(* ===== verification/ShadowRecord.v ===== *)
(** Correctness of the record layer of [ShadowStream]: the nonce counter, what the writer puts
    on the wire, the reader against a reference decoder, and that the reader gives back
    what the writer was given. *)

From Stdlib Require Import ZArith Lia.
From stdpp Require Import base decidable list numbers strings.
From S2P Require Import Prelude GoIO SaltFilter ShadowCipher ShadowStream.

(** ** The nonce is a little-endian counter *)

Fixpoint le_val (b : bytes) : Z :=
  match b with
  | [] => 0
  | c :: b' => b2z c + 256 * le_val b'
  end.

Lemma le_val_range b : 0 <= le_val b < 256 ^ len b.
Proof.
  induction b as [|c b IH]; cbn [le_val List.length]; [lia|].
  rewrite Nat2Z.inj_succ, Z.pow_succ_r by lia. pose proof (b2z_range c). nia.
Qed.

Lemma length_increment b : length (increment b) = length b.
Proof.
  induction b as [|c b IH]; cbn; [done|]. case_bool_decide; cbn; lia.
Qed.

Lemma increment_carry c : z2b (b2z c + 1) = z2b 0 <-> b2z c = 255.
Proof.
  pose proof (b2z_range c). split.
  - intros E. apply (f_equal b2z) in E. rewrite !b2z_z2b in E.
    destruct (decide (b2z c = 255)); [done|].
    rewrite (Z.mod_small (b2z c + 1)) in E by lia. change (0 mod 256) with 0 in E. lia.
  - intros ->. by apply z2b_mod.
Qed.

(** [increment] adds one to the nonce read as a little-endian number, wrapping around at
    its length, which it keeps. *)
Theorem increment_counts b :
  le_val (increment b) = (le_val b + 1) mod 256 ^ len b /\
  length (increment b) = length b.
Proof.
  split; [|apply length_increment]. induction b as [|c b IH]; [done|].
  cbn [increment le_val List.length]. pose proof (b2z_range c). pose proof (le_val_range b).
  rewrite Nat2Z.inj_succ, Z.pow_succ_r by lia. set (m := 256 ^ len b) in *.
  assert (0 < m) by (apply Z.pow_pos_nonneg; lia).
  case_bool_decide as Hc; cbn [le_val]; rewrite b2z_z2b.
  - apply increment_carry in Hc as E. rewrite E, IH.
    replace (255 + 256 * le_val b + 1) with (256 * (le_val b + 1)) by lia.
    rewrite Z.mul_mod_distr_l by lia. change ((255 + 1) mod 256) with 0. lia.
  - rewrite increment_carry in Hc. rewrite !Z.mod_small by nia. lia.
Qed.

(** ** The wire format *)

(** The payload length, big-endian. *)
Definition be16 (n : Z) : bytes := [z2b (Z.shiftr n 8); z2b n].

Definition be16_val (b : bytes) : Z :=
  match b with
  | b0 :: b1 :: _ => Z.shiftl (b2z b0) 8 + b2z b1
  | _ => 0
  end.

Lemma be16_roundtrip n : 0 <= n < 65536 -> be16_val (be16 n) = n.
Proof.
  intros. cbn. rewrite !b2z_z2b, Z.shiftl_mul_pow2, Z.shiftr_div_pow2 by lia.
  change (2 ^ 8) with 256.
  rewrite (Z.mod_small (n / 256)) by (split; [apply Z.div_pos | apply Z.div_lt_upper_bound]; lia).
  pose proof (Z.div_mod n 256 ltac:(lia)). lia.
Qed.

Definition be16_size (b : bytes) : Z := Z.land (be16_val b) payloadSizeMask.

Lemma land_mask z : 0 <= Z.land z payloadSizeMask <= payloadSizeMask.
Proof.
  change payloadSizeMask with (Z.ones 14). rewrite Z.land_ones by lia.
  change (Z.ones 14) with 16383. change (2 ^ 14) with 16384.
  pose proof (Z.mod_pos_bound z 16384 ltac:(lia)). lia.
Qed.

Lemma be16_size_be16 n : 0 <= n <= payloadSizeMask -> be16_size (be16 n) = n.
Proof.
  unfold payloadSizeMask. intros Hn. unfold be16_size. rewrite be16_roundtrip by lia.
  change payloadSizeMask with (Z.ones 14). rewrite Z.land_ones, Z.mod_small by lia. done.
Qed.

Section Wire.
Variable a : AEAD.

(** One record: the sealed length and the sealed payload, under two successive nonces. *)
Definition frame (nonce chunk : bytes) : bytes :=
  Seal a nonce (be16 (len chunk)) [] ++ Seal a (increment nonce) chunk [].

Definition next_nonce (nonce : bytes) : bytes := increment (increment nonce).

Fixpoint encode (nonce : bytes) (chunks : list bytes) : bytes :=
  match chunks with
  | [] => []
  | c :: cs => frame nonce c ++ encode (next_nonce nonce) cs
  end.

Definition nonce_after (chunks : list bytes) (nonce : bytes) : bytes :=
  Nat.iter (length chunks) next_nonce nonce.

Lemma nonce_after_cons c cs n : nonce_after (c :: cs) n = nonce_after cs (next_nonce n).
Proof. unfold nonce_after. cbn [List.length]. rewrite Nat.iter_succ_r. done. Qed.

Lemma encode_app n cs ds : encode n (cs ++ ds) = encode n cs ++ encode (nonce_after cs n) ds.
Proof.
  revert n. induction cs as [|c cs IH]; intros n; [done|].
  cbn [encode app]. rewrite nonce_after_cons, IH. by rewrite app_assoc.
Qed.

Lemma nonce_after_snoc cs c n : nonce_after (cs ++ [c]) n = next_nonce (nonce_after cs n).
Proof.
  unfold nonce_after. rewrite length_app, Nat.add_comm. done.
Qed.

Lemma length_nonce_after cs n : length (nonce_after cs n) = length n.
Proof.
  unfold nonce_after. induction (length cs) as [|k IH]; [done|].
  cbn [Nat.iter nat_rect]. unfold Nat.iter in IH. unfold next_nonce at 1.
  rewrite !length_increment. exact IH.
Qed.

(** The reference decoder: what one call of [read] makes of the bytes [bs] that the source
    still delivers before its error [e]. The answer is the payload or the error, the nonce
    afterwards and the bytes that remain. *)
Definition decode_record (nonce bs : bytes) (e : error) : (bytes + error) * bytes * bytes :=
  let h := Z.to_nat (2 + Overhead a) in
  if decide (h <= length bs)%nat then
    match Open a nonce (take h bs) [] with
    | None => (inr errOpen, increment nonce, drop h bs)
    | Some hdr =>
        let nonce1 := increment nonce in
        let body := drop h bs in
        let m := Z.to_nat (be16_size hdr + Overhead a) in
        if decide (m <= length body)%nat then
          match Open a nonce1 (take m body) [] with
          | None => (inr errOpen, increment nonce1, drop m body)
          | Some pt => (inl pt, increment nonce1, drop m body)
          end
        else (inr (short_error body e), nonce1, [])
    end
  else (inr (short_error bs e), nonce, []).

Definition chunk_ok (c : bytes) : Prop := len c <= payloadSizeMask.

Context `{AEADLaws a}.

Lemma len_frame n c : len (frame n c) = 2 + Overhead a + len c + Overhead a.
Proof. unfold frame. rewrite len_app, !seal_len. cbn. lia. Qed.

(** The decoder inverts the frame, whatever follows it. *)
Lemma decode_frame n c rest e :
  chunk_ok c -> decode_record n (frame n c ++ rest) e = (inl c, next_nonce n, rest).
Proof.
  unfold chunk_ok. intros Hc. unfold decode_record, frame. pose proof overhead_nonneg as Hov.
  pose proof (seal_len n (be16 (len c)) []) as H1. cbn [be16 List.length] in H1.
  pose proof (seal_len (increment n) c []) as H2.
  set (s1 := Seal a n (be16 (len c)) []) in *. set (s2 := Seal a (increment n) c []) in *.
  rewrite <- app_assoc. rewrite decide_True by lens.
  replace (Z.to_nat (2 + Overhead a)) with (length s1) by lia.
  rewrite take_app_length, drop_app_length. subst s1.
  rewrite open_seal, be16_size_be16 by lia.
  replace (Z.to_nat (len c + Overhead a)) with (length s2) by lia.
  rewrite decide_True by lens. rewrite take_app_length, drop_app_length. subst s2.
  by rewrite open_seal.
Qed.

End Wire.
Arguments decode_record : simpl never.

(** ** The writer *)

Section WriterProofs.
Context {W : Type} `{Sink W} {R : Type} `{Reader R}.

Record swriter_wf (w : swriter) : Prop := {
  ww_laws : AEADLaws (w_AEAD w);
  ww_nonce : len (w_nonce w) = NonceSize (w_AEAD w);
  ww_buf : len (w_buf w)
           = 2 + Overhead (w_AEAD w) + payloadSizeMask + Overhead (w_AEAD w)
}.

Lemma newWriter_wf a : AEADLaws a -> swriter_wf (newWriter a).
Proof.
  intros Ha. pose proof (nonce_size_nonneg (a := a)). pose proof (overhead_nonneg (a := a)).
  constructor; [exact Ha | | ]; cbn; apply len_zeros; unfold payloadSizeMask; lia.
Qed.

(** The writer after [m] more nonces, with some other buffer contents. *)
Definition w_next (nonce buf : bytes) (w : swriter) : swriter :=
  {| w_AEAD := w_AEAD w; w_nonce := nonce; w_buf := buf |}.

Lemma w_next_wf nonce buf w :
  swriter_wf w -> length nonce = length (w_nonce w) -> length buf = length (w_buf w) ->
  swriter_wf (w_next nonce buf w).
Proof. intros [? ? ?] ? ?. constructor; cbn; [assumption | lia | lia]. Qed.

Lemma seal_in_place_run off n f (s : wstate W R) Q :
  swriter_wf (ws_w s) -> 0 <= off -> 0 <= n ->
  off + n + Overhead (w_AEAD (ws_w s)) <= len (w_buf (ws_w s)) ->
  (let w := ws_w s in
   Q tt (ws_set_w (w_next (increment (w_nonce w))
           (blit off (Seal (w_AEAD w) (w_nonce w) (sub off (off + n) (w_buf w)) [])
              (w_buf w)) w) s)) ->
  wp (seal_in_place off n) f s Q.
Proof.
  intros [Ha Hn Hb] Hoff Hn0 Hfit HQ. pose proof (overhead_nonneg (a := w_AEAD (ws_w s))).
  unfold seal_in_place. repeat wp_step.
  apply wp_aead_Seal; [exact Hn|]. wp_step. exact HQ.
Qed.

(** The two seals in place leave the frame at the front of the buffer. *)
Lemma frame_in_buffer a n b chunk :
  AEADLaws a ->
  let ov := Overhead a in
  2 + ov + len chunk + ov <= len b ->
  sub 0 2 b = be16 (len chunk) ->
  sub (2 + ov) (2 + ov + len chunk) b = chunk ->
  let b2 := blit 0 (Seal a n (sub 0 (0 + 2) b) []) b in
  let b3 := blit (2 + ov)
              (Seal a (increment n) (sub (2 + ov) (2 + ov + len chunk) b2) []) b2 in
  length b2 = length b /\ length b3 = length b /\
  sub 0 (2 + ov + len chunk + ov) b3 = frame a n chunk.
Proof.
  intros Ha ov Hfit Hhead Hbody b2 b3. pose proof (overhead_nonneg (a := a)) as Hov. fold ov in Hov.
  assert (len (Seal a n (sub 0 (0 + 2) b) []) = 2 + ov) as Hs1
    by (rewrite seal_len, len_sub; lia).
  assert (length b2 = length b) as Hl2 by (apply Nat2Z.inj, len_blit; lia).
  assert (sub (2 + ov) (2 + ov + len chunk) b2 = chunk) as Hbody2
    by (subst b2; rewrite blit_after by lia; exact Hbody).
  subst b3. rewrite Hbody2.
  assert (len (Seal a (increment n) chunk []) = len chunk + ov) as Hs2 by apply seal_len.
  split; [exact Hl2|]. split; [rewrite <- Hl2; apply Nat2Z.inj, len_blit; lia|].
  rewrite (sub_split 0 (2 + ov)) by lia. unfold frame. f_equal.
  - rewrite blit_before by lia. subst b2.
    replace (2 + ov) with (0 + len (Seal a n (sub 0 (0 + 2) b) [])) by lia.
    rewrite blit_at by lia. change (0 + 2) with 2. by rewrite Hhead.
  - replace (2 + ov + len chunk + ov) with (2 + ov + len (Seal a (increment n) chunk [])) by lia.
    apply blit_at; lia.
Qed.

Lemma write_record_run nr chunk f (s : wstate W R) Q :
  swriter_wf (ws_w s) ->
  let w := ws_w s in
  let ov := Overhead (w_AEAD w) in
  0 <= nr <= payloadSizeMask ->
  sub (2 + ov) (2 + ov + nr) (w_buf w) = chunk ->
  (forall buf, length buf = length (w_buf w) ->
     wp (write (frame (w_AEAD w) (w_nonce w) chunk)) f (ws_Writer s) (fun '(_, ew) out =>
       Q ew (ws_set_Writer out (ws_set_w (w_next (next_nonce (w_nonce w)) buf w) s)))) ->
  wp (write_record nr) f s Q.
Proof.
  intros Hwf w ov Hnr Hchunk HQ. pose proof Hwf as [Ha Hn Hb]. fold w in Ha, Hn, Hb.
  pose proof (overhead_nonneg (a := w_AEAD w)) as Hov. fold ov in Hb, Hov.
  assert (len chunk = nr) as Hlc by (rewrite <- Hchunk, len_sub; unfold payloadSizeMask in *; lia).
  unfold write_record. unfold payloadSizeMask in *. fold w. fold ov.
  do 10 (wp_step; fold w ov; try (autorewrite with len; lia)).
  set (b1 := <[Z.to_nat 1:=z2b nr]> (<[Z.to_nat 0:=z2b (Z.shiftr nr 8)]> (w_buf w))).
  assert (length b1 = length (w_buf w)) as Hl1 by (subst b1; by rewrite !length_insert).
  assert (sub 0 2 b1 = be16 nr) as Hhead.
  { subst b1. destruct (w_buf w) as [|x [|y l]]; [cbn in Hb; lia..|reflexivity]. }
  assert (sub (2 + ov) (2 + ov + nr) b1 = chunk) as Hbody.
  { subst b1. rewrite !insert_after by lia. exact Hchunk. }
  clearbody b1. rewrite <- Hlc in Hhead, Hbody.
  destruct (frame_in_buffer (w_AEAD w) (w_nonce w) b1 chunk Ha) as (Hl2 & Hl3 & Hframe);
    [fold ov; lia | exact Hhead | exact Hbody |]. fold ov in Hl2, Hl3, Hframe.
  do 3 wp_step. apply seal_in_place_run; cbn [ws_w ws_set_w w_set_buf w_AEAD w_nonce w_buf];
    [constructor; cbn; [exact Ha | exact Hn | fold ov; unfold payloadSizeMask; lia]
    | lia | lia | fold ov; lia |].
  wp_step. apply seal_in_place_run; cbn [ws_w ws_set_w w_set_buf w_next w_AEAD w_nonce w_buf];
    [constructor; cbn; [exact Ha | rewrite length_increment; exact Hn
      | fold ov; unfold payloadSizeMask; lia]
    | lia | lia | fold ov; lia |].
  fold ov. rewrite <- Hlc. do 3 wp_step.
  cbn [ws_w ws_set_w w_set_buf w_next w_buf w_AEAD w_nonce].
  apply wp_slice; [lia | lia |]. rewrite Hframe. do 2 wp_step.
  eapply wp_mono; [apply (HQ _ (eq_trans Hl3 Hl1))|].
  intros [n0 ew] out HQ'. wp_step. exact HQ'.
Qed.

(** ** [ReadFrom] *)

Definition chunks_ok (cs : list bytes) : Prop := Forall (fun c => c <> [] /\ chunk_ok c) cs.

(** What [ReadFrom] makes of a source that delivers [bs] and then [e]: the source goes out as
    records of at most [payloadSizeMask] bytes under successive nonces, or the embedded
    writer failed, having taken a prefix of such records. *)
Definition written_as (w w' : swriter) (out out' bs : bytes) (e : error) (n : Z)
    (err : option error) : Prop :=
  exists cs, chunks_ok cs /\ n = i64 (len (concat cs)) /\
    w_AEAD w' = w_AEAD w /\ swriter_wf w' /\ w_nonce w' = nonce_after cs (w_nonce w) /\
    ((concat cs = bs /\ out' = out ++ encode (w_AEAD w) (w_nonce w) cs /\
       err = (if bool_decide (e = EOF) then None else Some e))
    \/ (err <> None /\ concat cs `prefix_of` bs /\
        exists m, out' = out ++ take m (encode (w_AEAD w) (w_nonce w) cs))).

(** The error [ReadFrom] reports for a source that ends with [e]. *)
Definition source_error (e : error) : option error := if bool_decide (e = EOF) then None else Some e.

(** After the records [cs], with [rest] still to come from the source. *)
Record sent w0 (wr0 : W) bs (cs : list bytes) (rest : bytes) (n : Z) (s : wstate W R) : Prop := {
  sent_ok : chunks_ok cs;
  sent_split : bs = concat cs ++ rest;
  sent_count : n = i64 (len (concat cs));
  sent_AEAD : w_AEAD (ws_w s) = w_AEAD w0;
  sent_wf : swriter_wf (ws_w s);
  sent_nonce : w_nonce (ws_w s) = nonce_after cs (w_nonce w0);
  sent_sink : sink_ok (ws_Writer s);
  sent_reliable : reliable wr0 -> reliable (ws_Writer s);
  sent_out : written (ws_Writer s) = written wr0 ++ encode (w_AEAD w0) (w_nonce w0) cs
}.

Lemma sent_done w0 wr0 bs cs n s e :
  sent w0 wr0 bs cs [] n s ->
  written_as w0 (ws_w s) (written wr0) (written (ws_Writer s)) bs e n
    (if bool_decide (e = EOF) then None else Some e).
Proof.
  intros [? Hs ? ? ? ? ? ? ?]. exists cs. rewrite app_nil_r in Hs. subst bs.
  do 5 (split; [assumption|]). left. auto.
Qed.

Lemma chunks_ok_snoc cs c : chunks_ok cs -> c <> [] -> chunk_ok c -> chunks_ok (cs ++ [c]).
Proof. intros. apply Forall_app. split; [done|]. by constructor. Qed.

Lemma concat_snoc (cs : list bytes) c : concat (cs ++ [c]) = concat cs ++ c.
Proof. rewrite concat_app. cbn. by rewrite app_nil_r. Qed.

Lemma i64_count n (cs : list bytes) c :
  n = i64 (len (concat cs)) -> i64 (n + len c) = i64 (len (concat (cs ++ [c]))).
Proof. intros ->. rewrite i64_add_l, concat_snoc, len_app. done. Qed.

(** One more record that goes out whole, or breaks the writer. *)
Lemma send_record w0 wr0 bs cs chunk rest n f s Q :
  sent w0 wr0 bs cs (chunk ++ rest) n s -> (sink_fuel W <= f)%nat -> chunk <> [] -> chunk_ok chunk ->
  (let w := ws_w s in let ov := Overhead (w_AEAD w) in
   sub (2 + ov) (2 + ov + len chunk) (w_buf w) = chunk) ->
  (forall s', ws_src s' = ws_src s -> sent w0 wr0 bs (cs ++ [chunk]) rest (i64 (n + len chunk)) s' ->
     Q None s') ->
  (forall ew s', sink_ok (ws_Writer s') -> ~ reliable wr0 -> written_as w0 (ws_w s') (written wr0) (written (ws_Writer s')) bs EOF
     (i64 (n + len chunk)) (Some ew) -> Q (Some ew) s') ->
  wp (write_record (len chunk)) f s Q.
Proof.
  intros [Hcs Hbs Hn Ha Hwf Hnonce Hsink Hrel Hout] Hfuel Hne Hok Hchunk HQ1 HQ2.
  apply (write_record_run _ chunk); [exact Hwf | unfold chunk_ok in Hok; lia | exact Hchunk |].
  intros buf Hbuf. eapply wp_mono; [by apply write_run|].
  intros [m ew] out ((Hm & Hout' & Hew) & Hsink' & Hrel').
  assert (swriter_wf (w_next (next_nonce (w_nonce (ws_w s))) buf (ws_w s))) as Hwf'.
  { apply w_next_wf; [exact Hwf | | exact Hbuf]. unfold next_nonce. by rewrite !length_increment. }
  assert (next_nonce (w_nonce (ws_w s)) = nonce_after (cs ++ [chunk]) (w_nonce w0)) as Hnext
    by (rewrite nonce_after_snoc, Hnonce; reflexivity).
  rewrite Hout, Ha, Hnonce, <- app_assoc in Hout'.
  assert (encode (w_AEAD w0) (w_nonce w0) (cs ++ [chunk])
    = encode (w_AEAD w0) (w_nonce w0) cs
      ++ frame (w_AEAD w0) (nonce_after cs (w_nonce w0)) chunk) as Henc
    by (rewrite encode_app; cbn [encode]; by rewrite app_nil_r).
  destruct ew as [ew|].
  - apply HQ2; [exact Hsink' | intros Hr; by destruct (Hrel' (Hrel Hr))|]. exists (cs ++ [chunk]).
    split; [by apply chunks_ok_snoc|]. split; [by apply i64_count|].
    split; [exact Ha|]. split; [exact Hwf'|]. split; [exact Hnext|]. right.
    split; [done|]. split; [rewrite Hbs, concat_snoc, app_assoc; by apply prefix_app_r|].
    exists (length (encode (w_AEAD w0) (w_nonce w0) cs) + Z.to_nat m)%nat.
    rewrite Henc, take_app_add. exact Hout'.
  - apply HQ1; [done|]. constructor; cbn; try assumption.
    + by apply chunks_ok_snoc.
    + rewrite Hbs, concat_snoc, app_assoc. done.
    + by apply i64_count.
    + intros Hr. by apply Hrel', Hrel.
    + rewrite Hout', Henc, take_ge; [done|].
      destruct (decide (m < len (frame (w_AEAD (ws_w s)) (w_nonce (ws_w s)) chunk)));
        [by destruct (Hew ltac:(assumption))|]. rewrite <- Hnonce, <- Ha. lia.
Qed.

Lemma written_as_any_error w w' out out' bs e e' n ew :
  written_as w w' out out' bs e n (Some ew) -> e = EOF ->
  written_as w w' out out' bs e' n (Some ew).
Proof.
  intros (cs & ? & ? & ? & ? & ? & [(? & ? & Herr) | Hrest]) ->.
  - by rewrite bool_decide_true in Herr.
  - exists cs. auto 10.
Qed.

Lemma ReadFrom_body_run F w0 wr0 bs e k n f s cs rest :
  sent w0 wr0 bs cs rest n s -> (sink_fuel W <= f)%nat ->
  delivers F k (ws_src s) rest e -> (F <= f)%nat ->
  wp (swriter_ReadFrom_body n) f s (fun r s' =>
    match r with
    | inl n' => exists k', (k' < k)%nat /\ exists cs' rest',
        sent w0 wr0 bs cs' rest' n' s' /\ delivers F k' (ws_src s') rest' e
    | inr (n', err) => written_as w0 (ws_w s') (written wr0) (written (ws_Writer s')) bs e n' err /\
        sink_ok (ws_Writer s') /\
        (reliable wr0 -> reliable (ws_Writer s') /\ err = source_error e)
    end).
Proof.
  intros Hsent Hfuel Hd HF. pose proof (sent_wf _ _ _ _ _ _ _ Hsent) as [Hlaws Hln Hlb].
  pose proof (overhead_nonneg (a := w_AEAD (ws_w s))) as Hov.
  unfold swriter_ReadFrom_body. set (w := ws_w s) in *. set (ov := Overhead (w_AEAD w)) in *.
  destruct k as [|k]; [done|]. cbn [delivers] in Hd.
  do 2 wp_step. fold w ov. unfold payloadSizeMask in *. do 2 wp_step. do 2 wp_step.
  assert (len (sub (2 + ov) (2 + ov + 16383) (w_buf w)) = 16383) as Hlp
    by (rewrite len_sub; lia).
  eapply wp_mono; [apply Hd; [|exact HF]|].
  { intros E. rewrite E in Hlp. cbn in Hlp. lia. }
  intros [[p nr] er] src' (chunk & rest' & -> & -> & Hp & Hlc & Htake & Her).
  set (s1 := ws_set_w (w_set_buf (blit (2 + ov) p (w_buf w)) w) (ws_set_src src' s)).
  assert (sent w0 wr0 bs cs (chunk ++ rest') n s1) as Hsent1.
  { destruct Hsent. constructor; cbn; try assumption. constructor; cbn; try assumption.
    rewrite len_blit by lia. fold ov. unfold payloadSizeMask. lia. }
  do 3 wp_step. fold s1.
  destruct (len chunk >? 0) eqn:Hpos.
  - apply (send_record w0 wr0 bs cs chunk rest' n f s1).
    + exact Hsent1.
    + exact Hfuel.
    + intros ->. cbn in Hpos. discriminate.
    + unfold chunk_ok, payloadSizeMask. lia.
    + cbn [ws_w s1 ws_set_w w_set_buf w_AEAD w_buf]. fold ov.
      rewrite blit_prefix, Nat2Z.id by lia. exact Htake.
    + intros s2 Hsrc Hsent2. destruct er as [e'|]; wp_step.
      * destruct Her as (-> & -> & _). split; [by apply sent_done with (cs := cs ++ [chunk])|].
        split; [by eapply sent_sink|]. intros Hr. split; [by eapply sent_reliable | done].
      * exists k. split; [lia|]. exists (cs ++ [chunk]), rest'. split; [exact Hsent2|].
        rewrite Hsrc. exact Her.
    + intros ew s2 Hok2 Hrel2 Hfail. wp_step. split; [|by split]. by apply (written_as_any_error _ _ _ _ _ EOF).
  - assert (chunk = []) as -> by (destruct chunk; [done | discriminate]).
    wp_step. destruct er as [e'|]; wp_step.
    + destruct Her as (-> & -> & _). split; [by apply sent_done with (cs := cs)|].
      split; [by eapply sent_sink|]. intros Hr. split; [by eapply sent_reliable | done].
    + exists k. split; [lia|]. exists cs, rest'. auto.
Qed.

Lemma ReadFrom_run F k bs e f (s : wstate W R) :
  swriter_wf (ws_w s) -> sink_ok (ws_Writer s) -> (sink_fuel W <= f)%nat ->
  delivers F k (ws_src s) bs e -> (F <= f)%nat -> (k < f)%nat ->
  wp swriter_ReadFrom f s (fun '(n, err) s' =>
    written_as (ws_w s) (ws_w s') (written (ws_Writer s)) (written (ws_Writer s')) bs e n err /\
    sink_ok (ws_Writer s') /\
    (reliable (ws_Writer s) -> reliable (ws_Writer s') /\ err = source_error e)).
Proof.
  intros Hwf Hok Hfuel Hd HF Hk. unfold swriter_ReadFrom.
  apply (wp_iter (fun j n s' => exists cs rest,
    sent (ws_w s) (ws_Writer s) bs cs rest n s' /\ delivers F j (ws_src s') rest e) k);
    [| exact Hk |].
  - intros j n s' (cs & rest & Hs & Hj).
    eapply wp_mono; [by eapply ReadFrom_body_run|]. intros [n'|[n' err]] s2 Hr; exact Hr.
  - exists [], bs. split; [|exact Hd]. constructor; try done.
    + by constructor.
    + cbn. by rewrite app_nil_r.
Qed.

End WriterProofs.

(** ** The reader *)

Section ReaderProofs.
Context {R : Type} `{Reader R}.
Implicit Types (r : sreader) (src : R).

Record sreader_wf r : Prop := {
  rw_laws : AEADLaws (r_AEAD r);
  rw_nonce : len (r_nonce r) = NonceSize (r_AEAD r);
  rw_buf : len (r_buf r) = payloadSizeMask + Overhead (r_AEAD r);
  rw_leftover : 0 <= (r_leftover r).1 <= (r_leftover r).2 /\ (r_leftover r).2 <= payloadSizeMask
}.

Lemma newReader_wf a : AEADLaws a -> sreader_wf (newReader a).
Proof.
  intros Ha. pose proof (nonce_size_nonneg (a := a)). pose proof (overhead_nonneg (a := a)).
  constructor; [exact Ha | | |]; cbn; rewrite ?len_zeros; unfold payloadSizeMask; lia.
Qed.

Definition r_next (nonce buf : bytes) r : sreader :=
  {| r_AEAD := r_AEAD r; r_nonce := nonce; r_buf := buf; r_leftover := r_leftover r |}.

Lemma r_next_wf nonce buf r :
  sreader_wf r -> length nonce = length (r_nonce r) -> length buf = length (r_buf r) ->
  sreader_wf (r_next nonce buf r).
Proof. intros [? ? ? ?] ? ?. constructor; cbn; [assumption | lia | lia | lia]. Qed.

(** [fill_buf] on a stream. *)
Lemma fill_buf_run F k n bs e f r src Q :
  sreader_wf r -> 0 <= n <= len (r_buf r) -> delivers F k src bs e ->
  (F <= f)%nat -> (k < f)%nat ->
  (n <= len bs -> forall src', delivers F k src' (drop (Z.to_nat n) bs) e ->
     Q None (r_next (r_nonce r) (blit 0 (take (Z.to_nat n) bs) (r_buf r)) r, src')) ->
  (len bs < n -> forall buf src', length buf = length (r_buf r) -> exhausted F src' e ->
     Q (Some (short_error bs e)) (r_next (r_nonce r) buf r, src')) ->
  wp (fill_buf n) f (r, src) Q.
Proof.
  intros Hwf Hn Hd HF Hk HQ1 HQ2. unfold fill_buf, the_r, on_r. do 2 wp_step. cbn [fst]. do 2 wp_step.
  do 2 wp_step. cbn [snd].
  assert (len (sub 0 n (r_buf r)) = n) as Hl by (rewrite len_sub; lia).
  eapply wp_mono; [eapply ReadFull_delivers; eassumption|].
  intros [[buf' m] err] src' [Hlb Hres]. do 3 wp_step.
  case_decide as Hfit.
  - destruct Hres as (-> & -> & -> & Hd').
    replace (length (sub 0 n (r_buf r))) with (Z.to_nat n) in * by lia.
    apply HQ1; [lia | exact Hd'].
  - destruct Hres as (-> & -> & _ & Hex).
    apply HQ2; [lia | | exact Hex]. apply Nat2Z.inj, len_blit; lia.
Qed.

Lemma open_in_place_run n f r src Q :
  sreader_wf r -> 0 <= n <= len (r_buf r) ->
  match Open (r_AEAD r) (r_nonce r) (sub 0 n (r_buf r)) [] with
  | Some p => Q None (r_next (increment (r_nonce r)) (blit 0 p (r_buf r)) r, src)
  | None => forall buf, length buf = length (r_buf r) ->
      Q (Some errOpen) (r_next (increment (r_nonce r)) buf r, src)
  end -> wp (open_in_place n) f (r, src) Q.
Proof.
  intros [Ha Hln Hlb Hlo] Hn HQ. unfold open_in_place, the_r, on_r. do 2 wp_step. cbn [fst]. do 3 wp_step.
  unfold aead_Open. rewrite (proj2 (Z.eqb_eq _ _) Hln).
  destruct (Open _ _ _ _) as [p|]; repeat wp_step; apply HQ. by apply clobber_len.
Qed.

(** The stream [bs] loaded at the front of the buffer, then opened. *)
Lemma load_then_open F k n bs e f r src Q :
  sreader_wf r -> 0 <= n <= len (r_buf r) -> n <= len bs ->
  delivers F k src (drop (Z.to_nat n) bs) e ->
  let ct := take (Z.to_nat n) bs in
  match Open (r_AEAD r) (r_nonce r) ct [] with
  | Some p => forall buf, length buf = length (r_buf r) -> sub 0 (len p) buf = p ->
      Q None (r_next (increment (r_nonce r)) buf r, src)
  | None => forall buf, length buf = length (r_buf r) ->
      Q (Some errOpen) (r_next (increment (r_nonce r)) buf r, src)
  end ->
  wp (open_in_place n) f (r_next (r_nonce r) (blit 0 ct (r_buf r)) r, src) Q.
Proof.
  intros Hwf Hn Hfit Hd ct HQ.
  assert (len ct = n) as Hct by (subst ct; rewrite length_take; lia).
  assert (length (blit 0 ct (r_buf r)) = length (r_buf r)) as Hlb
    by (apply Nat2Z.inj, len_blit; lia).
  apply open_in_place_run; cbn [r_next r_AEAD r_nonce r_buf].
  - by apply r_next_wf.
  - lia.
  - rewrite <- Hct, sub_0_blit by lia.
    pose proof (open_len (AEADLaws := rw_laws _ Hwf) (r_nonce r) ct []) as Hol.
    pose proof (overhead_nonneg (AEADLaws := rw_laws _ Hwf)) as Hov.
    destruct (Open (r_AEAD r) (r_nonce r) ct []) as [p|].
    + specialize (Hol p eq_refl). apply HQ.
      * rewrite <- Hlb. apply Nat2Z.inj, len_blit; lia.
      * apply sub_0_blit; lia.
    + intros buf Hb. apply HQ. lia.
Qed.

(** [read] on a stream is the reference decoder. *)
Definition read_as r (bs : bytes) e (size : Z) (err : option error) r' (rest : bytes) : Prop :=
  exists nonce' buf', r' = r_next nonce' buf' r /\ sreader_wf r' /\
    match decode_record (r_AEAD r) (r_nonce r) bs e with
    | (inl pt, nonce, more) =>
        nonce' = nonce /\ rest = more /\ err = None /\ size = len pt /\
        size <= payloadSizeMask /\ sub 0 size buf' = pt
    | (inr er, nonce, more) => nonce' = nonce /\ rest = more /\ err = Some er /\ size = 0
    end.

Lemma wf_next1 r buf nonce :
  sreader_wf r -> nonce = r_nonce r \/ nonce = increment (r_nonce r) \/
    nonce = increment (increment (r_nonce r)) ->
  length buf = length (r_buf r) -> sreader_wf (r_next nonce buf r).
Proof.
  intros Hwf Hn Hb. apply r_next_wf; [exact Hwf | | exact Hb].
  destruct Hn as [-> | [-> | ->]]; by rewrite ?length_increment.
Qed.

Lemma sreader_read_run F k bs e f r src :
  sreader_wf r -> delivers F k src bs e -> (F <= f)%nat -> (k < f)%nat ->
  wp sreader_read f (r, src) (fun '(size, err) '(r', src') =>
    exists rest, read_as r bs e size err r' rest /\ delivers F k src' rest e).
Proof.
  intros Hwf Hd HF Hk. pose proof Hwf as [Ha Hln Hlb Hlo].
  pose proof (overhead_nonneg (a := r_AEAD r)) as Hov.
  pose proof (delivers_pos _ _ _ _ _ Hd) as Hkpos.
  assert (forall src', exhausted F src' e -> delivers F k src' [] e) as Hex.
  { intros src' Hx. apply (delivers_mono F F 1 k); [lia..|]. by apply exhausted_delivers. }
  unfold sreader_read, read_as, decode_record, the_r, payloadSizeMask in *. do 2 wp_step. cbn [fst].
  set (ov := Overhead (r_AEAD r)) in *. set (h := Z.to_nat (2 + ov)).
  wp_step. eapply fill_buf_run; [exact Hwf | lia | exact Hd | exact HF | exact Hk | |].
  2:{ intros Hshort buf src' Hb Hx. wp_step. rewrite decide_False by (unfold h; lia).
      eexists. split; [|by apply Hex]. do 2 eexists. split; [reflexivity|].
      split; [apply wf_next1; auto|]. auto. }
  intros Hfit src1 Hd1. rewrite decide_True by (unfold h; lia). fold h in Hd1 |- *.
  wp_step. eapply load_then_open; [exact Hwf | lia | exact Hfit | exact Hd1 |]. fold h.
  pose proof (open_len (a := r_AEAD r) (r_nonce r) (take h bs) []) as Hol.
  destruct (Open (r_AEAD r) (r_nonce r) (take h bs) []) as [hdr|].
  2:{ intros buf Hb. wp_step. eexists. split; [|exact Hd1]. do 2 eexists. split; [reflexivity|].
      split; [apply wf_next1; auto|]. auto. }
  specialize (Hol hdr eq_refl). rewrite length_take in Hol. fold ov in Hol.
  assert (len hdr = 2) as Hhdr by lia.
  intros buf Hb Hbuf. do 3 wp_step. cbn [fst r_next r_buf].
  destruct hdr as [|x [|y [|z hdr]]]; try (cbn in Hhdr; lia). clear Hhdr Hol.
  destruct buf as [|x' [|y' tl]]; try (cbn in Hb; lia).
  assert (x' = x /\ y' = y) as [-> ->] by (injection Hbuf; auto). clear Hbuf.
  eapply wp_index; [lia | reflexivity|]. wp_step. eapply wp_index; [lia | reflexivity|].
  set (buf := x :: y :: tl) in *. set (size := Z.land _ 16383).
  change (be16_size [x; y]) with size.
  assert (0 <= size <= 16383) as Hsize by apply land_mask. clearbody size.
  set (r1 := r_next (increment (r_nonce r)) buf r).
  assert (sreader_wf r1) as Hwf1 by (apply wf_next1; auto).
  set (m := Z.to_nat (size + ov)). set (body := drop h bs) in *.
  wp_step. eapply (fill_buf_run F k); [exact Hwf1 | cbn [r1 r_next r_buf]; lia | exact Hd1 | exact HF | exact Hk | |].
  2:{ intros Hshort buf2 src' Hb2 Hx. wp_step. rewrite decide_False by (unfold m; lia).
      eexists. split; [|by apply Hex]. do 2 eexists. split; [reflexivity|].
      cbn [r1 r_next r_buf] in Hb2. split; [apply wf_next1; auto; lia|]. auto. }
  intros Hfit2 src2 Hd2. rewrite decide_True by (unfold m; lia). fold m in Hd2 |- *.
  wp_step. eapply load_then_open; [exact Hwf1 | cbn [r1 r_next r_buf]; lia | exact Hfit2 | exact Hd2 |]. fold m.
  cbn [r1 r_next r_AEAD r_nonce r_buf].
  pose proof (open_len (a := r_AEAD r) (increment (r_nonce r)) (take m body) []) as Hol.
  destruct (Open (r_AEAD r) (increment (r_nonce r)) (take m body) []) as [pt|];
    intros; wp_step; (eexists; split; [|exact Hd2]); do 2 eexists; (split; [reflexivity|]);
    (split; [apply wf_next1; auto; lia|]); [|auto].
  specialize (Hol pt eq_refl). rewrite length_take in Hol. fold ov in Hol.
  assert (size = len pt) as -> by lia. do 4 (split; [reflexivity|]). split; [lia | assumption].
Qed.

(** ** What the reader delivers *)

(** The wire [encode nonce chunks], arriving in pieces of any size, is delivered as the
    chunks' bytes, and the end of the stream is passed on. *)
Lemma leftover_len r : sreader_wf r -> len (leftover_bytes r) = (r_leftover r).2 - (r_leftover r).1.
Proof.
  intros [Ha _ Hb Hlo]. pose proof (overhead_nonneg (a := r_AEAD r)).
  unfold leftover_bytes. destruct (r_leftover r) as [lo hi]. cbn in Hlo. rewrite len_sub by lia. done.
Qed.

(** [p] with as much of [data] as fits at its front: what [copy(p, data)] leaves in [p]. *)
Definition filled (p data : bytes) : bytes :=
  blit 0 (take (Z.to_nat (Z.min (len p) (len data))) data) p.

Lemma filled_spec (p data : bytes) :
  length (filled p data) = length p /\
  let n := Z.to_nat (Z.min (len p) (len data)) in
  length (take n data) = n /\ (n <= length p)%nat /\ take n (filled p data) = take n data.
Proof.
  unfold filled. set (n := Z.min (len p) (len data)).
  assert (length (take (Z.to_nat n) data) = Z.to_nat n) as Hl by (rewrite length_take; lia).
  split; [apply Nat2Z.inj, len_blit; lia|]. split; [exact Hl|]. split; [lia|].
  rewrite <- sub_0_take. apply sub_0_blit; lia.
Qed.

(** One [Read], from the leftover of the previous record or from a new one. *)
Lemma Read_leftover p f r src Q :
  sreader_wf r -> leftover_bytes r <> [] ->
  let lo := leftover_bytes r in
  let n := Z.min (len p) (len lo) in
  (forall r', sreader_wf r' -> r_AEAD r' = r_AEAD r -> r_nonce r' = r_nonce r ->
     leftover_bytes r' = drop (Z.to_nat n) lo -> Q (filled p lo, n, None) (r', src)) ->
  wp (sreader_Read p) f (r, src) Q.
Proof.
  intros Hwf Hne lo n HQ. pose proof (leftover_len r Hwf) as Hl. fold lo in Hl, Hne.
  destruct Hwf as [Ha Hln Hlb Hlo]. unfold sreader_Read, the_r, on_r. do 2 wp_step. cbn [fst].
  destruct (r_leftover r) as [l h] eqn:El. cbn [fst snd] in *.
  assert (0 < len lo) as Hpos by (destruct lo; [done | cbn; lia]).
  assert (0 <= n <= h - l) as Hn by (unfold n; lia).
  destruct (h - l >? 0) eqn:E; [|lia]. fold lo. unfold copy. fold n. repeat wp_step.
  apply HQ; [constructor; cbn; lia || assumption | done | done |].
  subst lo. unfold leftover_bytes in *. rewrite El in *. cbn.
  rewrite sub_drop by lia. done.
Qed.

Lemma Read_record F k bs e p f r src Q :
  sreader_wf r -> leftover_bytes r = [] -> delivers F k src bs e ->
  (F <= f)%nat -> (k < f)%nat ->
  (forall pt nonce rest r' src',
     decode_record (r_AEAD r) (r_nonce r) bs e = (inl pt, nonce, rest) ->
     sreader_wf r' -> r_AEAD r' = r_AEAD r -> r_nonce r' = nonce ->
     delivers F k src' rest e ->
     let n := Z.min (len p) (len pt) in
     leftover_bytes r' = drop (Z.to_nat n) pt -> Q (filled p pt, n, None) (r', src')) ->
  (forall er nonce rest r' src',
     decode_record (r_AEAD r) (r_nonce r) bs e = (inr er, nonce, rest) ->
     sreader_wf r' -> r_AEAD r' = r_AEAD r -> r_nonce r' = nonce ->
     delivers F k src' rest e -> leftover_bytes r' = [] -> Q (p, 0, Some er) (r', src')) ->
  wp (sreader_Read p) f (r, src) Q.
Proof.
  intros Hwf Hlo Hd HF Hk HQ1 HQ2. pose proof (leftover_len r Hwf) as Hl. rewrite Hlo in Hl.
  unfold sreader_Read, the_r, on_r. do 2 wp_step. cbn [fst].
  destruct (r_leftover r) as [l h] eqn:El. cbn [fst snd List.length] in Hl.
  destruct (h - l >? 0) eqn:E; [lia|]. wp_step.
  eapply wp_mono; [by eapply sreader_read_run|].
  intros [size err] [r1 src1] (rest & (nonce & buf & -> & Hwf1 & Hdec) & Hd1).
  pose proof (rw_buf _ Hwf1) as Hlb. cbn [r_next r_buf] in Hlb.
  pose proof (overhead_nonneg (AEADLaws := rw_laws _ Hwf)) as Hov.
  destruct (decode_record _ _ _ _) as [[[pt|er] nonce'] rest'].
  - destruct Hdec as (-> & -> & -> & -> & Hmax & Hpt). cbn [r_next r_AEAD] in Hlb.
    do 2 wp_step. cbn [fst r_next r_buf]. wp_step. wp_step. rewrite Hpt.
    unfold copy. do 2 wp_step.
    + do 2 wp_step. apply (HQ1 pt nonce' rest'); try done.
      * destruct Hwf1 as [Ha1 Hn1 Hb1 Hlo1]. constructor; cbn in *; [done..|lia].
      * unfold leftover_bytes. cbn. rewrite <- Hpt at 4. rewrite sub_drop by lia.
        by rewrite Z.add_0_l.
    + wp_step. apply (HQ1 pt nonce' rest'); try done.
      unfold leftover_bytes. cbn. rewrite El, sub_empty by lia.
      rewrite drop_ge by lia. done.
  - destruct Hdec as (-> & -> & -> & ->).
    do 2 wp_step. cbn [fst]. do 2 wp_step. rewrite sub_empty by lia. unfold copy.
    cbn [List.length]. rewrite Z.min_r by lia. cbn [take Z.to_nat]. do 2 wp_step; [discriminate|].
    wp_step. unfold blit. cbn [take app Z.to_nat Nat.add List.length]. rewrite drop_0.
    apply (HQ2 er nonce' rest'); try done.
    unfold leftover_bytes. cbn. rewrite El, sub_empty by lia. done.
Qed.

(** ** What the reader delivers *)

Lemma short_error_nil e : short_error [] e = e.
Proof. reflexivity. Qed.

Lemma decode_end a n e : AEADLaws a -> decode_record a n [] e = (inr e, n, []).
Proof.
  intros Ha. pose proof (overhead_nonneg (a := a)). unfold decode_record.
  rewrite decide_False by (cbn; lia). reflexivity.
Qed.

(** With the source at its end, so is the reader. *)
Lemma sreader_exhausted F k e r src :
  sreader_wf r -> leftover_bytes r = [] -> delivers F k src [] e ->
  exhausted (S (Nat.max F k)) (r, src) e.
Proof.
  intros Hwf Hlo Hd.
  exists (fun '(r, src) => sreader_wf r /\ leftover_bytes r = [] /\ delivers F k src [] e).
  split; [auto|]. clear r src Hwf Hlo Hd.
  intros [r src] p f (Hwf & Hlo & Hd) Hp Hf. unfold read, sreader_Reader.
  pose proof (decode_end (r_AEAD r) (r_nonce r) e (rw_laws _ Hwf)) as Hdec.
  apply (Read_record F k [] e); [done | done | done | lia | lia | |];
    rewrite Hdec; [discriminate|].
  intros er nonce rest r' src' [= <- <- <-] Hwf' _ _ Hd' Hlo'. auto 10.
Qed.

(** The wire [encode nonce chunks], arriving in pieces of any size, is delivered as the
    chunks' bytes, and the end of the stream is passed on. *)
Lemma sreader_delivers F k chunks e r src :
  sreader_wf r -> Forall chunk_ok chunks ->
  delivers F k src (encode (r_AEAD r) (r_nonce r) chunks) e ->
  delivers (S (Nat.max F k)) (S (length (leftover_bytes r ++ concat chunks) + length chunks))
    (r, src) (leftover_bytes r ++ concat chunks) e.
Proof.
  enough (forall K chunks r src,
    (length (leftover_bytes r ++ concat chunks) + length chunks < K)%nat ->
    sreader_wf r -> Forall chunk_ok chunks ->
    delivers F k src (encode (r_AEAD r) (r_nonce r) chunks) e ->
    delivers (S (Nat.max F k)) K (r, src) (leftover_bytes r ++ concat chunks) e) as Hgen
    by (intros; apply Hgen; [lia | done..]).
  clear chunks r src. induction K as [|K IH]; intros chunks r src HK Hwf Hok Hd; [lia|].
  rewrite length_app in HK. cbn [delivers]. intros p f Hp Hf.
  assert (0 < length p)%nat as Hp0 by (destruct p; [done | cbn; lia]).
  unfold read, sreader_Reader.
  destruct (decide (leftover_bytes r = [])) as [Hlo|Hlo].
  - rewrite Hlo in *. cbn [app List.length] in *. destruct chunks as [|c cs].
    + apply (Read_record F k [] e); [done | done | done | lia | lia | |];
        rewrite (decode_end _ _ _ (rw_laws _ Hwf)); [discriminate|].
      intros er nonce rest r' src' [= <- <- <-] Hwf' _ _ Hd' Hlo'.
      exists [], []. repeat split; try done; [cbn; lia|]. by apply sreader_exhausted.
    + inversion Hok as [|? ? Hc Hcs]; subst. cbn [encode] in Hd. cbn [concat] in *.
      pose proof (rw_laws _ Hwf) as Hlaws.
      pose proof (decode_frame (r_AEAD r) (r_nonce r) c
        (encode (r_AEAD r) (next_nonce (r_nonce r)) cs) e Hc) as Hdec.
      eapply (Read_record F k); [done | done | exact Hd | lia | lia | |];
        rewrite Hdec; [|discriminate].
      intros pt nonce rest r' src' [= <- <- <-] Hwf' Ha' Hn' Hd' n0 Hlo'. subst n0.
      cbv zeta in Hlo'. pose proof (filled_spec p c) as (Hf1 & Hf2 & Hf3 & Hf4).
      set (n := Z.to_nat (len p `min` len c)) in *.
      exists (take n c), (drop n c ++ concat cs).
      rewrite Hf2. split; [by rewrite app_assoc, take_drop|].
      split; [lia|]. split; [exact Hf1|]. split; [lia|]. split; [exact Hf4|].
      rewrite <- Hlo'. apply IH; try done; [|by rewrite Ha', Hn'].
      rewrite length_app in *. rewrite Hlo', length_drop. cbn [List.length] in *. lia.
  - apply Read_leftover; [done..|]. set (lo := leftover_bytes r) in *.
    intros r' Hwf' Ha' Hn' Hlo'.
    pose proof (filled_spec p lo) as (Hf1 & Hf2 & Hf3 & Hf4).
    set (n := Z.to_nat (len p `min` len lo)) in *.
    assert (0 < length lo)%nat as Hpos by (destruct lo; [done | cbn; lia]).
    exists (take n lo), (drop n lo ++ concat chunks).
    rewrite Hf2. split; [by rewrite app_assoc, take_drop|].
    split; [lia|]. split; [exact Hf1|]. split; [lia|]. split; [exact Hf4|].
    rewrite <- Hlo'. apply IH; try done; [|by rewrite Ha', Hn'].
    rewrite length_app, Hlo', length_drop. lia.
Qed.

End ReaderProofs.

(** ** The properties of the record layer *)

Section RecordProperties.
Context {W : Type} `{Sink W} {R : Type} `{Reader R}.

(** C21. [ReadFrom] sends what its source delivers as records of 1 to 16383 bytes, the [i]-th one
    sealed under nonces [2i] and [2i+1], whatever the sizes in which the source hands the
    bytes out; it returns the number of bytes read and the source's error, except an end
    of file. When the embedded writer fails, what went out is a prefix of such records and
    the error is reported. *)
Theorem ReadFrom_writes_records F k bs e f (s : wstate W R) :
  swriter_wf (ws_w s) -> sink_ok (ws_Writer s) -> (sink_fuel W <= f)%nat ->
  delivers F k (ws_src s) bs e -> (F <= f)%nat -> (k < f)%nat ->
  wp swriter_ReadFrom f s (fun '(n, err) s' =>
    written_as (ws_w s) (ws_w s') (written (ws_Writer s)) (written (ws_Writer s')) bs e n err /\
    (reliable (ws_Writer s) -> err = source_error e)).
Proof.
  intros. eapply wp_mono; [by eapply ReadFrom_run|]. intros [n err] s' (? & _ & Hr).
  split; [done|]. apply Hr.
Qed.

(** C10. [read] computes the reference decoder: on every stream it returns the payload of the
    next record, or fails exactly as the decoder says, with the nonce and the rest of the
    stream the decoder leaves. No slice is ever out of range, whatever the peer sends. *)
Theorem read_refines_decoder F k bs e f (r : sreader) (src : R) :
  sreader_wf r -> delivers F k src bs e -> (F <= f)%nat -> (k < f)%nat ->
  wp sreader_read f (r, src) (fun '(size, err) '(r', src') =>
    sreader_wf r' /\ r_AEAD r' = r_AEAD r /\
    match decode_record (r_AEAD r) (r_nonce r) bs e with
    | (inl pt, nonce, rest) =>
        r_nonce r' = nonce /\ delivers F k src' rest e /\
        err = None /\ size = len pt /\ sub 0 size (r_buf r') = pt
    | (inr er, nonce, rest) =>
        r_nonce r' = nonce /\ delivers F k src' rest e /\ err = Some er /\ size = 0
    end).
Proof.
  intros Hwf Hd HF Hk. eapply wp_mono; [by eapply sreader_read_run|].
  intros [size err] [r' src'] (rest & (nonce & buf & -> & Hwf' & Hdec) & Hd').
  split; [exact Hwf'|]. split; [reflexivity|].
  destruct (decode_record _ _ _ _) as [[[pt|er] n'] rest']; cbn [r_next r_nonce r_buf].
  - destruct Hdec as (-> & -> & -> & -> & _ & Hsub). auto.
  - destruct Hdec as (-> & -> & -> & ->). auto.
Qed.

(** C8. What the record writer sends, the record reader returns: after an error-free [ReadFrom]
    of a source that ends after [bs], and it is one when the embedded writer never fails, any reader that is given the bytes written, cut up
    in any way, delivers exactly [bs] and then the end of its own source. *)
Theorem record_roundtrip a F k bs f (out : W) (r : R) :
  AEADLaws a -> sink_ok out -> (sink_fuel W <= f)%nat ->
  delivers F k r bs EOF -> (F <= f)%nat -> (k < f)%nat ->
  wp swriter_ReadFrom f {| ws_w := newWriter a; ws_Writer := out; ws_src := r |}
    (fun '(n, err) s' =>
      (reliable out -> err = None) /\
      (err = None ->
      n = i64 (len bs) /\
      exists wire, written (ws_Writer s') = written out ++ wire /\
        forall (R' : Type) `(Reader R') F' k' e (src : R'),
          delivers F' k' src wire e ->
          exists k'', delivers (S (Nat.max F' k')) k'' (newReader a, src) bs e)).
Proof.
  intros Ha Hok Hfuel Hd HF Hk.
  eapply wp_mono; [eapply ReadFrom_run; cbn; [by apply newWriter_wf | done | done | exact Hd | done | done]|].
  intros [n err] s' [(cs & Hcs & -> & Ha' & Hwf' & Hnonce & Hres) [_ Hrel]].
  split; [apply Hrel|]. intros ->. cbn in Hres.
  destruct Hres as [(<- & Hout & _) | (Herr & _)]; [|by destruct Herr].
  split; [reflexivity|]. eexists. split; [exact Hout|].
  intros R' HR' F' k' e src Hsrc. eexists.
  apply (sreader_delivers F' k' cs e (newReader a) src).
  - by apply newReader_wf.
  - eapply Forall_impl; [exact Hcs|]. by intros c [_ Hc].
  - exact Hsrc.
Qed.

(** C9. The reader only accepts what was sealed with the session's AEAD: when [read] succeeds, the
    bytes it took from the stream are a sealed two-byte header and a sealed payload, under
    exactly the next two nonces, and the payload it returns is the sealed one, of the
    length the header states. *)
Theorem read_accepts_only_sealed F k bs e f (r : sreader) (src : R) :
  sreader_wf r -> AEADTight (r_AEAD r) -> delivers F k src bs e -> (F <= f)%nat -> (k < f)%nat ->
  wp sreader_read f (r, src) (fun '(size, err) '(r', src') =>
    err = None ->
    exists hdr pt rest,
      len hdr = 2 /\ size = len pt /\ size = be16_size hdr /\ sub 0 size (r_buf r') = pt /\
      bs = Seal (r_AEAD r) (r_nonce r) hdr [] ++
           Seal (r_AEAD r) (increment (r_nonce r)) pt [] ++ rest /\
      r_nonce r' = next_nonce (r_nonce r) /\ delivers F k src' rest e).
Proof.
  intros Hwf Ht Hd HF Hk. pose proof (rw_laws _ Hwf) as Ha.
  pose proof (overhead_nonneg (a := r_AEAD r)) as Hov.
  eapply wp_mono; [by eapply sreader_read_run|].
  intros [size err] [r' src'] (rest & (nonce & buf & -> & Hwf' & Hdec) & Hd') ->.
  unfold decode_record in Hdec. set (h := Z.to_nat (2 + Overhead (r_AEAD r))) in *.
  case_decide as Hh; [|by destruct Hdec as (_ & _ & ? & _)].
  destruct (Open _ (r_nonce r) (take h bs) []) as [hdr|] eqn:E1;
    [|by destruct Hdec as (_ & _ & ? & _)].
  set (m := Z.to_nat (be16_size hdr + Overhead (r_AEAD r))) in *.
  case_decide as Hm; [|by destruct Hdec as (_ & _ & ? & _)].
  destruct (Open _ (increment (r_nonce r)) (take m (drop h bs)) []) as [pt|] eqn:E2;
    [|by destruct Hdec as (_ & _ & ? & _)].
  destruct Hdec as (-> & -> & _ & -> & _ & Hpt).
  pose proof (open_len _ _ _ _ E1) as Hl1. pose proof (open_len _ _ _ _ E2) as Hl2.
  rewrite length_take in Hl1, Hl2.
  pose proof (land_mask (be16_val hdr)) as Hland. fold (be16_size hdr) in Hland.
  exists hdr, pt, (drop m (drop h bs)). split; [lia|]. split; [done|]. split; [lia|].
  split; [exact Hpt|]. split; [|split; [done | exact Hd']].
  rewrite <- (Ht _ _ _ _ E1), <- (Ht _ _ _ _ E2), !take_drop. done.
Qed.

(** A stream cut between the header and the payload of a record is reported as a plain end of
    file, not as an unexpected one: the reader cannot tell it from a complete stream. *)
Theorem truncated_record_is_clean_EOF F k n f p (r : sreader) (src : R) :
  sreader_wf r -> leftover_bytes r = [] -> 0 < n <= payloadSizeMask ->
  delivers F k src (Seal (r_AEAD r) (r_nonce r) (be16 n) []) EOF -> (F <= f)%nat -> (k < f)%nat ->
  wp (sreader_Read p) f (r, src) (fun '(_, got, err) _ => got = 0 /\ err = Some EOF).
Proof.
  intros Hwf Hlo Hn Hd HF Hk. pose proof (rw_laws _ Hwf) as Ha.
  pose proof (overhead_nonneg (a := r_AEAD r)) as Hov.
  pose proof (seal_len (r_nonce r) (be16 n) []) as Hl. cbn [be16 List.length] in Hl.
  assert (decode_record (r_AEAD r) (r_nonce r) (Seal (r_AEAD r) (r_nonce r) (be16 n) []) EOF
    = (inr EOF, increment (r_nonce r), [])) as Hdec.
  { unfold decode_record. rewrite decide_True by lia.
    rewrite take_ge by lia. rewrite open_seal, drop_ge, be16_size_be16 by lia.
    rewrite decide_False by (cbn; lia). reflexivity. }
  eapply (Read_record F k); [done | done | exact Hd | done | done | |]; rewrite Hdec;
    [discriminate|].
  intros er nonce rest r' src' [= <- <- <-]. auto.
Qed.

End RecordProperties.

(** ** Witnesses *)

Definition idle_conn (chunks : list bytes) : conn :=
  {| conn_in := chunks; conn_fin := EOF; conn_out := []; conn_room := None |}.

Lemma idle_conn_delivers chunks bs :
  concat chunks = bs ->
  delivers 0 (conn_steps (idle_conn chunks)) (idle_conn chunks) bs EOF.
Proof. intros <-. apply (conn_delivers (idle_conn chunks)). Qed.

Definition toy_wstate (b : bytes) : wstate conn buffer :=
  {| ws_w := newWriter toy_AEAD; ws_Writer := idle_conn []; ws_src := b |}.

Definition hello_wstate : wstate conn buffer := toy_wstate (str "hello").

Lemma hello_wstate_wf : swriter_wf (ws_w hello_wstate).
Proof. apply newWriter_wf, toy_AEAD_laws. Qed.

Lemma hello_delivers : delivers 0 6 (ws_src hello_wstate) (str "hello") EOF.
Proof. exact (buffer_delivers (str "hello")). Qed.

Lemma ReadFrom_writes_records_witness :
  wp swriter_ReadFrom 9 hello_wstate (fun '(n, err) s' =>
    written_as (ws_w hello_wstate) (ws_w s') (written (ws_Writer hello_wstate))
      (written (ws_Writer s')) (str "hello") EOF n err /\
    (reliable (ws_Writer hello_wstate) -> err = source_error EOF)).
Proof.
  exact (ReadFrom_writes_records 0 6 (str "hello") EOF 9 hello_wstate
    hello_wstate_wf I (le_0_n 9) hello_delivers ltac:(lia) ltac:(lia)).
Defined.

Definition toy_reader : sreader := newReader toy_AEAD.

Lemma toy_reader_wf : sreader_wf toy_reader.
Proof. apply newReader_wf, toy_AEAD_laws. Qed.

Definition toy_wire : bytes := frame toy_AEAD (zeros 12) (str "hello").

Lemma toy_wire_delivers : delivers 0 41 (idle_conn [toy_wire]) toy_wire EOF.
Proof.
  pose proof (idle_conn_delivers [toy_wire] toy_wire (app_nil_r _)) as Hd.
  by replace (conn_steps (idle_conn [toy_wire])) with 41%nat in Hd by (vm_compute; reflexivity).
Qed.

Lemma read_refines_decoder_witness :
  decode_record (r_AEAD toy_reader) (r_nonce toy_reader) toy_wire EOF
    = (inl (str "hello"), next_nonce (zeros 12), []) /\
  wp sreader_read 60 (toy_reader, idle_conn [toy_wire]) (fun '(size, err) '(r', src') =>
    sreader_wf r' /\ r_AEAD r' = r_AEAD toy_reader /\
    match decode_record (r_AEAD toy_reader) (r_nonce toy_reader) toy_wire EOF with
    | (inl pt, nonce, rest) =>
        r_nonce r' = nonce /\ delivers 0 41 src' rest EOF /\
        err = None /\ size = len pt /\ sub 0 size (r_buf r') = pt
    | (inr er, nonce, rest) =>
        r_nonce r' = nonce /\ delivers 0 41 src' rest EOF /\ err = Some er /\ size = 0
    end).
Proof.
  split; [vm_compute; reflexivity|].
  exact (read_refines_decoder 0 41 toy_wire EOF 60 toy_reader (idle_conn [toy_wire])
    toy_reader_wf toy_wire_delivers ltac:(lia) ltac:(lia)).
Defined.

Lemma record_roundtrip_witness :
  wp swriter_ReadFrom 9
    {| ws_w := newWriter toy_AEAD; ws_Writer := idle_conn []; ws_src := str "hello" : buffer |}
    (fun '(n, err) s' =>
    (reliable (idle_conn []) -> err = None) /\
    (err = None ->
    n = i64 (len (str "hello")) /\
    exists wire, written (ws_Writer s') = written (idle_conn []) ++ wire /\
      forall (R' : Type) `(Reader R') F' k' e (src : R'),
        delivers F' k' src wire e ->
        exists k'', delivers (S (Nat.max F' k')) k'' (newReader toy_AEAD, src) (str "hello") e)).
Proof.
  exact (record_roundtrip toy_AEAD 0 6 (str "hello") 9 (idle_conn []) (str "hello" : buffer)
    toy_AEAD_laws I (le_0_n 9) (buffer_delivers (str "hello")) ltac:(lia) ltac:(lia)).
Defined.

Lemma read_accepts_only_sealed_witness :
  wp sreader_read 60 (toy_reader, idle_conn [toy_wire]) (fun '(size, err) '(r', src') =>
    err = None ->
    exists hdr pt rest,
      len hdr = 2 /\ size = len pt /\ size = be16_size hdr /\ sub 0 size (r_buf r') = pt /\
      toy_wire = Seal (r_AEAD toy_reader) (r_nonce toy_reader) hdr [] ++
           Seal (r_AEAD toy_reader) (increment (r_nonce toy_reader)) pt [] ++ rest /\
      r_nonce r' = next_nonce (r_nonce toy_reader) /\ delivers 0 41 src' rest EOF).
Proof.
  exact (read_accepts_only_sealed 0 41 toy_wire EOF 60 toy_reader (idle_conn [toy_wire])
    toy_reader_wf toy_AEAD_tight toy_wire_delivers ltac:(lia) ltac:(lia)).
Defined.

Definition toy_header : bytes := Seal (r_AEAD toy_reader) (r_nonce toy_reader) (be16 5) [].

Lemma toy_header_delivers : delivers 0 20 (idle_conn [toy_header]) toy_header EOF.
Proof.
  pose proof (idle_conn_delivers [toy_header] toy_header (app_nil_r _)) as Hd.
  by replace (conn_steps (idle_conn [toy_header])) with 20%nat in Hd
    by (vm_compute; reflexivity).
Qed.

Lemma truncated_record_is_clean_EOF_witness :
  wp (sreader_Read (zeros 4)) 60 (toy_reader, idle_conn [toy_header])
    (fun '(_, got, err) _ => got = 0 /\ err = Some EOF).
Proof.
  refine (truncated_record_is_clean_EOF 0 20 5 60 (zeros 4) toy_reader (idle_conn [toy_header])
    toy_reader_wf (sub_empty 0 0 _ ltac:(lia)) _ toy_header_delivers ltac:(lia) ltac:(lia)).
  vm_compute. split; [reflexivity | discriminate].
Defined.
