(* ===== verification/ShadowConn.v ===== *)
(** Correctness of the salted connection of [ShadowStream]: what a fresh connection puts on the
    wire, that the peer's connection delivers it, and what the salt filter does to salts that
    were sent or seen before. *)

From Stdlib Require Import ZArith Lia.
From stdpp Require Import base decidable list numbers strings.
From S2P Require Import Prelude GoIO SaltFilter ShadowCipher ShadowStream ShadowRecord.

Section ConnProofs.
Context {C : Type} `{Duplex C}.
Context {G : Type} `{Reader G}.
Context {B : Type} `{BloomLaws B}.
Variable Getenv : bytes -> bytes.
Variable ParseFloat : bytes -> option float64.

Abbreviation worldT := (world C G B).
Abbreviation reader_of_world := (streamConn_Reader (C := C) (G := G) (B := B) Getenv ParseFloat).

(** ** A connection whose reader is set up reads as the record reader does *)

Definition reading (s : worldT) (r : sreader) (c : C) : Prop :=
  sc_r (conn_of s) = Some r /\ Conn (conn_of s) = c.

Lemma reading_set s r c : reading (set_r (Some r) (set_Conn c s)) r c.
Proof. done. Qed.

Lemma wp_on_reader {A} (m : M (sreader * C) A) s r c f (Q : A -> worldT -> Prop) :
  reading s r c ->
  wp m f (r, c) (fun a '(r', c') => Q a (set_r (Some r') (set_Conn c' s))) ->
  wp (on_reader m) f s Q.
Proof.
  intros [Hr Hc]. unfold wp, on_reader. rewrite Hr, Hc.
  by destruct (m f (r, c)) as [a [r' c']|h [r' c']].
Qed.

Lemma streamConn_Read_on s r c p f (Q : bytes * Z * option error -> worldT -> Prop) :
  reading s r c ->
  wp (sreader_Read p) f (r, c) (fun a '(r', c') => Q a (set_r (Some r') (set_Conn c' s))) ->
  wp (streamConn_Read Getenv ParseFloat p) f s Q.
Proof.
  intros Hrd Hw. unfold streamConn_Read. do 2 wp_step. rewrite (proj1 Hrd). do 2 wp_step.
  by eapply wp_on_reader.
Qed.

Lemma reading_exhausted F s r c e :
  reading s r c -> exhausted F (r, c) e -> @exhausted _ reader_of_world F s e.
Proof.
  intros Hrd (P & HP & Hr).
  exists (fun s => exists r c, reading s r c /\ P (r, c)). split; [eauto|].
  clear s r c Hrd HP. intros s p f (r & c & Hrd & HP) Hp HF.
  apply (streamConn_Read_on s r c); [exact Hrd|].
  eapply wp_mono; [exact (Hr (r, c) p f HP Hp HF)|].
  intros [[p' n] er] [r' c'] (? & ? & ? & HP'). repeat split; try done.
  exists r', c'. split; [apply reading_set | exact HP'].
Qed.

Lemma reading_delivers F k s r c bs e :
  reading s r c -> delivers F k (r, c) bs e -> @delivers _ reader_of_world F k s bs e.
Proof.
  revert s r c bs. induction k as [|k IH]; intros s r c bs Hrd Hd; [done|].
  cbn [delivers] in *. intros p f Hp HF.
  apply (streamConn_Read_on s r c); [exact Hrd|].
  eapply wp_mono; [exact (Hd p f Hp HF)|].
  intros [[p' n] er] [r' c'] (chunk & rest & ? & ? & ? & ? & ? & Her).
  exists chunk, rest. repeat split; try done. destruct er as [e'|].
  - destruct Her as (? & ? & Hex). repeat split; try done.
    eapply reading_exhausted; [apply reading_set | exact Hex].
  - eapply IH; [apply reading_set | exact Her].
Qed.

(** ** Setting the reader up *)

(** A connection that has not read yet, over a wire that starts with [salt]. *)
Record awaiting (s : worldT) (salt : bytes) (a : AEAD) : Prop := {
  aw_fresh : sc_r (conn_of s) = None;
  aw_salts : salts_wf (salts s);
  aw_laws : AEADLaws a;
  aw_size : len salt = SaltSize (ciph (conn_of s));
  aw_dec : Decrypter (ciph (conn_of s)) salt = Ret (inl a) tt
}.

Lemma initReader_run F k s salt a wire e f (Q : option error -> worldT -> Prop) :
  awaiting s salt a ->
  delivers F k (Conn (conn_of s)) (salt ++ wire) e -> (F <= f)%nat -> (k < f)%nat ->
  (forall c, delivers F k c wire e ->
     if known_salt salt (salts s) then Q (Some ErrRepeatedSalt) (set_Conn c s)
     else Q None (set_r (Some (newReader a)) (set_Conn c s))) ->
  wp (initReader Getenv ParseFloat) f s Q.
Proof.
  intros [Hfresh Hs Ha Hsize Hdec] Hd HF Hk HQ. unfold initReader, on_Conn, on_salts.
  do 4 wp_step. do 2 wp_step.
  assert (len (zeros (SaltSize (ciph (conn_of s)))) = len salt) as Hz
    by (rewrite len_zeros; lia).
  eapply wp_mono; [eapply ReadFull_delivers; eassumption|].
  intros [[buf n] err] c [_ Hres]. rewrite decide_True in Hres by (rewrite length_app; lia).
  destruct Hres as (-> & -> & -> & Hd').
  replace (length (zeros (SaltSize (ciph (conn_of s))))) with (length salt) in * by lia.
  rewrite take_app_length in *. rewrite drop_app_length in Hd'. specialize (HQ c Hd').
  wp_step. eapply wp_lift; [exact Hdec|]. lazy beta iota. do 2 wp_step.
  apply CheckSalt_run; [exact Hs|]. cbn [salts set_Conn]. destruct (known_salt salt (salts s)).
  - wp_step. exact HQ.
  - repeat wp_step. exact HQ.
Qed.

Lemma streamConn_Read_first F k s salt a wire e p f Q :
  awaiting s salt a ->
  delivers F k (Conn (conn_of s)) (salt ++ wire) e -> (F <= f)%nat -> (k < f)%nat ->
  (forall c, delivers F k c wire e ->
     if known_salt salt (salts s) then Q (p, 0, Some ErrRepeatedSalt) (set_Conn c s)
     else wp (sreader_Read p) f (newReader a, c)
            (fun x '(r', c') => Q x (set_r (Some r') (set_Conn c' s)))) ->
  wp (streamConn_Read Getenv ParseFloat p) f s Q.
Proof.
  intros Haw Hd HF Hk HQ. unfold streamConn_Read. do 2 wp_step. rewrite (aw_fresh _ _ _ Haw).
  wp_step. eapply initReader_run; [exact Haw | exact Hd | done | done |].
  intros c Hd'. specialize (HQ c Hd'). destruct (known_salt salt (salts s)).
  - wp_step. exact HQ.
  - eapply wp_on_reader; [apply reading_set | exact HQ].
Qed.

(** A connection whose salt is new delivers what its records hold. *)
Lemma awaiting_delivers F k k' s salt a wire bs e :
  awaiting s salt a -> known_salt salt (salts s) = false ->
  delivers F k (Conn (conn_of s)) (salt ++ wire) e ->
  (forall c : C, delivers F k c wire e -> delivers (S (Nat.max F k)) (S k') (newReader a, c) bs e) ->
  @delivers _ reader_of_world (S (Nat.max F k)) (S k') s bs e.
Proof.
  intros Haw Hnew Hd Hpeer. cbn [delivers]. intros p f Hp Hf.
  unfold read at 1, streamConn_Reader.
  eapply streamConn_Read_first; [exact Haw | exact Hd | lia | lia |].
  rewrite Hnew. intros c Hd'. specialize (Hpeer c Hd'). cbn [delivers] in Hpeer.
  eapply wp_mono; [exact (Hpeer p f Hp Hf)|].
  intros [[p' n] er] [r' c'] (chunk & rest & ? & ? & ? & ? & ? & Her).
  exists chunk, rest. repeat split; try done. destruct er as [e'|].
  - destruct Her as (? & ? & Hex). repeat split; try done.
    eapply reading_exhausted; [apply reading_set | exact Hex].
  - eapply reading_delivers; [apply reading_set | exact Her].
Qed.

Lemma awaiting_records F k s salt a chunks e :
  awaiting s salt a -> known_salt salt (salts s) = false -> Forall chunk_ok chunks ->
  delivers F k (Conn (conn_of s))
    (salt ++ encode a (zeros (NonceSize a)) chunks) e ->
  @delivers _ reader_of_world (S (Nat.max F k))
    (S (length (concat chunks) + length chunks)) s (concat chunks) e.
Proof.
  intros Haw Hnew Hok Hd. eapply awaiting_delivers; [exact Haw | exact Hnew | exact Hd |].
  intros c Hc. apply (sreader_delivers F k chunks e (newReader a) c); [|exact Hok | exact Hc].
  apply newReader_wf, (aw_laws _ _ _ Haw).
Qed.

(** ** Setting the writer up *)

(** A connection that has not written yet, with [salt] the next thing the random source
    gives. *)
Record opening (F k : nat) (s : worldT) (salt : bytes) (a : AEAD) : Prop := {
  op_fresh : sc_w (conn_of s) = None;
  op_sink : sink_ok (Conn (conn_of s));
  op_salts : salts_wf (salts s);
  op_laws : AEADLaws a;
  op_size : len salt = SaltSize (ciph (conn_of s));
  op_enc : Encrypter (ciph (conn_of s)) salt = Ret (inl a) tt;
  op_rand : exists more e, delivers F k (rand s) (salt ++ more) e
}.

Lemma initWriter_run F k s salt a f (Q : option error -> worldT -> Prop) :
  opening F k s salt a -> (sink_fuel C <= f)%nat -> (F <= f)%nat -> (k < f)%nat ->
  (forall g c m e, written c = written (Conn (conn_of s)) ++ take m salt -> sink_ok c ->
     ~ reliable (Conn (conn_of s)) ->
     Q (Some e) (set_Conn c (set_rand g s))) ->
  (forall g c, written c = written (Conn (conn_of s)) ++ salt -> sink_ok c ->
     (reliable (Conn (conn_of s)) -> reliable c) ->
     Q None (set_w (Some (newWriter a))
               (set_salts (after_AddSalt salt (salts s)) (set_Conn c (set_rand g s))))) ->
  wp (initWriter Getenv ParseFloat) f s Q.
Proof.
  intros [Hfresh Hsink Hs Ha Hsize Henc (more & er & Hd)] Hfuel HF Hk HQ1 HQ2.
  unfold initWriter, on_Conn, on_salts. do 6 wp_step.
  assert (len (zeros (SaltSize (ciph (conn_of s)))) = len salt) as Hz
    by (rewrite len_zeros; lia).
  eapply wp_mono; [eapply ReadFull_delivers; eassumption|].
  intros [[buf n] err] g [_ Hres]. rewrite decide_True in Hres by (rewrite length_app; lia).
  destruct Hres as (-> & -> & -> & Hd').
  replace (length (zeros (SaltSize (ciph (conn_of s))))) with (length salt) in * by lia.
  rewrite take_app_length in *.
  wp_step. eapply wp_lift; [exact Henc|]. lazy beta iota. do 2 wp_step.
  eapply wp_mono; [by apply write_run|]. intros [m [ew|]] c ((Hm & Hout & Hew) & Hsink' & Hrel).
  - wp_step. eapply HQ1; [exact Hout | exact Hsink' |]. intros Hr. by destruct (Hrel Hr).
  - do 2 wp_step. apply AddSalt_run; [exact Hs|]. repeat wp_step. apply HQ2; [|exact Hsink' | apply Hrel].
    rewrite Hout, take_ge; [done|]. destruct (decide (m < len salt)); [|lia].
    by destruct (Hew ltac:(assumption)).
Qed.

Lemma wp_on_writer {A} (m : M (swriter * C) A) s w f (Q : A -> worldT -> Prop) :
  sc_w (conn_of s) = Some w ->
  wp m f (w, Conn (conn_of s)) (fun a '(w', c') => Q a (set_w (Some w') (set_Conn c' s))) ->
  wp (on_writer m) f s Q.
Proof.
  intros Hw. unfold wp, on_writer. rewrite Hw.
  by destruct (m f (w, Conn (conn_of s))) as [a [w' c']|h [w' c']].
Qed.

Lemma swriter_Write_run (w : swriter) (out : C) b f :
  swriter_wf w -> sink_ok out -> (sink_fuel C <= f)%nat -> (length b + 1 < f)%nat ->
  wp (swriter_Write b) f (w, out) (fun '(n, err) '(w', out') =>
    written_as w w' (written out) (written out') b EOF n err /\ sink_ok out' /\
    (reliable out -> reliable out' /\ err = None)).
Proof.
  intros Hwf Hsink Hfuel Hf.
  pose proof (ReadFrom_run 0 (S (length b)) b EOF f
    {| ws_w := w; ws_Writer := out; ws_src := b : buffer |} Hwf Hsink Hfuel (buffer_delivers b)
    ltac:(lia) ltac:(lia)) as Hrun.
  unfold wp, swriter_Write in *.
  by destruct (swriter_ReadFrom f _) as [[n err] s|h s].
Qed.

(** The connection never fails, and never will. *)
Definition reliably (s s' : worldT) (err : option error) : Prop :=
  reliable (Conn (conn_of s)) -> err = None /\ reliable (Conn (conn_of s')).

(** A connection that has sent [salt] and then the records [cs]. *)
Definition session (base salt : bytes) (a : AEAD) (cs : list bytes) (s : worldT) : Prop :=
  exists w, sc_w (conn_of s) = Some w /\ swriter_wf w /\ w_AEAD w = a /\
    w_nonce w = nonce_after cs (zeros (NonceSize a)) /\ Forall chunk_ok cs /\
    sink_ok (Conn (conn_of s)) /\
    written (Conn (conn_of s)) = base ++ salt ++ encode a (zeros (NonceSize a)) cs.

Lemma session_write base salt a cs s b f :
  session base salt a cs s -> (sink_fuel C <= f)%nat -> (length b + 1 < f)%nat ->
  wp (on_writer (swriter_Write b)) f s (fun '(n, err) s' =>
    salts s' = salts s /\ reliably s s' err /\ (err = None -> n = i64 (len b) /\
    exists cs', concat cs' = concat cs ++ b /\ session base salt a cs' s')).
Proof.
  intros (w & Hw & Hwf & Ha & Hn & Hok & Hsink & Hout) Hfuel Hf.
  eapply wp_on_writer; [exact Hw|].
  eapply wp_mono; [by apply swriter_Write_run|].
  intros [n err] [w' c'] [(cs2 & Hcs2 & -> & Ha' & Hwf' & Hn' & Hres) [Hsink' Hrel]].
  split; [done|]. split; [intros Hr; by destruct (Hrel Hr)|].
  intros ->.
  destruct Hres as [(Hb & Hout' & _) | (Herr & _)]; [|by destruct Herr].
  rewrite Hb. split; [done|]. exists (cs ++ cs2). split; [by rewrite concat_app, Hb|].
  exists w'. split; [done|]. split; [exact Hwf'|]. split; [congruence|].
  split.
  { rewrite Hn', Hn. unfold nonce_after. rewrite length_app, Nat.add_comm, <- Nat.iter_add. done. }
  split.
  { apply Forall_app. split; [exact Hok|]. eapply Forall_impl; [exact Hcs2|]. by intros c [_ ?]. }
  split; [exact Hsink'|].
  cbn. rewrite Hout', Hout, Ha, Hn, encode_app, <- !app_assoc. done.
Qed.

Lemma Write_fresh F k s salt a b f :
  opening F k s salt a -> (sink_fuel C <= f)%nat -> (F <= f)%nat -> (k < f)%nat ->
  (length b + 1 < f)%nat ->
  wp (streamConn_Write Getenv ParseFloat b) f s (fun '(n, err) s' =>
    reliably s s' err /\
    (err = None -> n = i64 (len b) /\ salts s' = after_AddSalt salt (salts s) /\
     exists cs, concat cs = b /\ session (written (Conn (conn_of s))) salt a cs s')).
Proof.
  intros Hop Hfuel HF Hk Hf. pose proof (op_laws _ _ _ _ _ Hop) as Hlaws.
  unfold streamConn_Write. do 2 wp_step. rewrite (op_fresh _ _ _ _ _ Hop). wp_step.
  eapply initWriter_run; [exact Hop | done | done | done | |].
  - intros g c m e _ _ Hrel. wp_step. split; [by intros Hr; destruct Hrel | done].
  - intros g c Hout Hsink' Hrel. lazy beta iota.
    eapply wp_mono; [apply (session_write (written (Conn (conn_of s))) salt a [])|].
    + exists (newWriter a). split; [done|]. split; [by apply newWriter_wf|].
      do 4 (split; [done|]). cbn. by rewrite app_nil_r.
    + exact Hfuel.
    + exact Hf.
    + intros [n err] s' (Hsalts & Hrel' & Hres). split; [intros Hr; by apply Hrel', Hrel|].
      intros Herr. destruct (Hres Herr) as (? & cs & ? & ?). eauto.
Qed.

Lemma Write_session base salt a cs s b f :
  session base salt a cs s -> (sink_fuel C <= f)%nat -> (length b + 1 < f)%nat ->
  wp (streamConn_Write Getenv ParseFloat b) f s (fun '(n, err) s' =>
    reliably s s' err /\ (err = None -> n = i64 (len b) /\
    exists cs', concat cs' = concat cs ++ b /\ session base salt a cs' s')).
Proof.
  intros Hs Hfuel Hf. unfold streamConn_Write. do 2 wp_step.
  pose proof Hs as (w & Hw & _). rewrite Hw. do 2 wp_step.
  eapply wp_mono; [by apply session_write|]. by intros [n err] s' (_ & Hrel & Hres).
Qed.

(** Writing several pieces, up to the first error. *)
Fixpoint write_all (l : list bytes) : M worldT (option error) :=
  match l with
  | [] => ret None
  | b :: l' =>
      let! '(_, err) := streamConn_Write Getenv ParseFloat b in
      match err with
      | Some e => ret (Some e)
      | None => write_all l'
      end
  end.

Lemma write_all_session base salt a l cs s f :
  session base salt a cs s -> (sink_fuel C <= f)%nat -> Forall (fun b => (length b + 1 < f)%nat) l ->
  wp (write_all l) f s (fun err s' => reliably s s' err /\ (err = None ->
    exists cs', concat cs' = concat cs ++ concat l /\ session base salt a cs' s')).
Proof.
  revert cs s. induction l as [|b l IH]; intros cs s Hs Hfuel Hl.
  { split; [done|]. intros _. exists cs. split; [by rewrite app_nil_r | exact Hs]. }
  inversion Hl as [|? ? Hb Hl']; subst. cbn [write_all]. wp_step.
  eapply wp_mono; [by apply (Write_session base salt a cs)|].
  intros [n [e|]] s' [Hrel Hres]; [by wp_step; split; [intros Hr; by destruct (Hrel Hr)|]|].
  destruct (Hres eq_refl) as (_ & cs' & Hcs' & Hs').
  eapply wp_mono; [by apply (IH cs')|].
  intros err s2 [Hrel2 Hres2]. split; [intros Hr; by apply Hrel2, Hrel|].
  intros Herr. destruct (Hres2 Herr) as (cs2 & Hcs2 & Hs2).
  exists cs2. split; [|exact Hs2]. cbn [concat]. rewrite Hcs2, Hcs', <- app_assoc. done.
Qed.

(** ** The properties of the connection *)

(** C7. The tunnel is transparent. A fresh connection draws a salt, sends it and then encrypts
    everything written to it, without an error if the connection below never fails; a peer connection with the same session
    AEAD that receives the bytes this connection put on the wire, cut up in any way,
    and does not know the salt, delivers exactly the bytes written, then the end of
    its own stream. *)
Theorem tunnel_roundtrip F k s salt a b l f :
  opening F k s salt a -> (sink_fuel C <= f)%nat -> (F <= f)%nat -> (k < f)%nat ->
  Forall (fun b => (length b + 1 < f)%nat) (b :: l) ->
  wp (write_all (b :: l)) f s (fun err s' =>
    (reliable (Conn (conn_of s)) -> err = None) /\ (err = None ->
    exists wire, written (Conn (conn_of s')) = written (Conn (conn_of s)) ++ wire /\
      forall F' k' (peer : worldT) e,
        awaiting peer salt a -> known_salt salt (salts peer) = false ->
        delivers F' k' (Conn (conn_of peer)) wire e ->
        exists k'', @delivers _ reader_of_world (S (Nat.max F' k')) k'' peer (b ++ concat l) e)).
Proof.
  intros Hop Hfuel HF Hk Hl. inversion Hl as [|? ? Hb Hl']; subst. cbn [write_all]. wp_step.
  eapply wp_mono; [by apply (Write_fresh F k s salt a)|].
  intros [n [e|]] s1 [Hrel Hres]; [by wp_step; split; [intros Hr; by destruct (Hrel Hr)|]|].
  destruct (Hres eq_refl) as (_ & _ & cs & Hcs & Hs1).
  eapply wp_mono; [by apply (write_all_session (written (Conn (conn_of s))) salt a l cs)|].
  intros err s2 [Hrel2 Hres2]. split; [intros Hr; by apply Hrel2, Hrel|].
  intros Herr. destruct (Hres2 Herr) as (cs2 & Hcs2 & w & _ & _ & _ & _ & Hok & _ & Hout).
  eexists. split; [exact Hout|]. intros F' k' peer e Haw Hnew Hd.
  eexists. rewrite <- Hcs, <- Hcs2. by eapply awaiting_records.
Qed.

(** C20. A connection whose peer sends a salt that is in the filter is refused before any
    payload is decrypted. *)
Theorem known_salt_refused F k s salt a wire e p f :
  awaiting s salt a -> known_salt salt (salts s) = true ->
  delivers F k (Conn (conn_of s)) (salt ++ wire) e -> (F <= f)%nat -> (k < f)%nat ->
  wp (streamConn_Read Getenv ParseFloat p) f s (fun '(_, n, err) s' =>
    n = 0 /\ err = Some ErrRepeatedSalt /\ sc_r (conn_of s') = None).
Proof.
  intros Haw Hknown Hd HF Hk.
  eapply streamConn_Read_first; [exact Haw | exact Hd | done | done |].
  intros c _. rewrite Hknown. split; [done|]. split; [done|]. exact (aw_fresh _ _ _ Haw).
Qed.

(** Reflection is detected: once this process has opened a stream with a salt, a connection
    that sends the same salt back is refused. *)
Theorem own_salt_refused F k s salt a b ring f :
  opening F k s salt a -> saltfilter (salts s) = Some ring -> (sink_fuel C <= f)%nat ->
  (F <= f)%nat -> (k < f)%nat -> (length b + 1 < f)%nat ->
  wp (streamConn_Write Getenv ParseFloat b) f s (fun '(n, err) s' => err = None ->
    forall F' k' (back : worldT) a' wire e p g,
      awaiting back salt a' -> salts back = salts s' ->
      delivers F' k' (Conn (conn_of back)) (salt ++ wire) e -> (F' <= g)%nat -> (k' < g)%nat ->
      wp (streamConn_Read Getenv ParseFloat p) g back
        (fun '(_, m, err) _ => m = 0 /\ err = Some ErrRepeatedSalt)).
Proof.
  intros Hop Hring Hfuel HF Hk Hb. pose proof (op_salts _ _ _ _ _ Hop) as Hs.
  eapply wp_mono; [by apply (Write_fresh F k s salt a)|].
  intros [n err] s' [_ Hres] Herr. destruct (Hres Herr) as (_ & Hsalts & _).
  intros F' k' back a' wire e p g Haw Hback Hd HF' Hk'.
  eapply streamConn_Read_first; [exact Haw | exact Hd | done | done |].
  intros c _. rewrite Hback, Hsalts, (known_after_AddSalt salt _ ring Hs Hring). done.
Qed.

(** C31. Replay is not detected: a connection that was accepted is accepted again when the same
    bytes arrive on a second connection of the same process, and delivers the same data. *)
Theorem replayed_stream_accepted F k s salt a chunks e p f :
  awaiting s salt a -> known_salt salt (salts s) = false -> Forall chunk_ok chunks ->
  delivers F k (Conn (conn_of s)) (salt ++ encode a (zeros (NonceSize a)) chunks) e ->
  p <> [] -> (Nat.max F k < f)%nat ->
  wp (streamConn_Read Getenv ParseFloat p) f s (fun _ s' =>
    forall again : worldT, conn_of again = conn_of s -> salts again = salts s' ->
      @delivers _ reader_of_world (S (Nat.max F k))
        (S (length (concat chunks) + length chunks)) again (concat chunks) e).
Proof.
  intros Haw Hnew Hok Hd Hp Hf.
  eapply streamConn_Read_first; [exact Haw | exact Hd | lia | lia |].
  intros c Hd'. rewrite Hnew.
  pose proof (sreader_delivers F k chunks e (newReader a) c
    (newReader_wf a (aw_laws _ _ _ Haw)) Hok Hd') as Hdel. cbn [delivers] in Hdel.
  eapply wp_mono; [exact (Hdel p f Hp ltac:(lia))|].
  intros [[p' n] er] [r' c'] _ again Hconn Hsalts.
  assert (salts again = salts s) as Hsame by exact Hsalts.
  apply (awaiting_records F k again salt a); [| by rewrite Hsame | exact Hok | by rewrite Hconn].
  destruct Haw. constructor; rewrite ?Hconn, ?Hsame; assumption.
Qed.

End ConnProofs.

(** ** Witnesses *)

Definition toy_Cipher : Cipher :=
  meta_Cipher toy_hkdf
    {| psk := str "0123456789abcdef"; makeAEAD := aesGCM (fun _ => toy_AEAD) |}.

Definition toy_salt : bytes := str "a 16 byte salt!!".

Definition toy_world (chunks : list bytes) (t : saltState list_bloom) : world conn buffer list_bloom :=
  {| conn_of := NewConn (idle_conn chunks) toy_Cipher; salts := t;
     rand := toy_salt ++ str "more" |}.

Lemma toy_opening : opening 0 21 (toy_world [] small_salts) toy_salt toy_AEAD.
Proof.
  constructor; [reflexivity | exact I | apply small_salts_wf | apply toy_AEAD_laws | reflexivity
    | reflexivity |].
  exists (str "more"), EOF. exact (buffer_delivers (toy_salt ++ str "more")).
Qed.

Lemma toy_awaiting chunks t : salts_wf t -> awaiting (toy_world chunks t) toy_salt toy_AEAD.
Proof.
  intros Ht. constructor; [reflexivity | exact Ht | apply toy_AEAD_laws | reflexivity
    | reflexivity].
Qed.

Abbreviation toy_reader_of_world := (streamConn_Reader (C := conn) (G := buffer) (B := list_bloom)
  no_env no_floats).

Lemma tunnel_roundtrip_witness :
  wp (write_all no_env no_floats [str "hi"; str "there"]) 30 (toy_world [] small_salts)
    (fun err s' =>
      (reliable (Conn (conn_of (toy_world [] small_salts))) -> err = None) /\ (err = None ->
      exists wire, written (Conn (conn_of s'))
          = written (Conn (conn_of (toy_world [] small_salts))) ++ wire /\
        forall F' k' (peer : world conn buffer list_bloom) e,
          awaiting peer toy_salt toy_AEAD -> known_salt toy_salt (salts peer) = false ->
          delivers F' k' (Conn (conn_of peer)) wire e ->
          exists k'', @delivers _ toy_reader_of_world (S (Nat.max F' k')) k'' peer
            (str "hi" ++ concat [str "there"]) e)).
Proof.
  refine (tunnel_roundtrip no_env no_floats 0 21 (toy_world [] small_salts) toy_salt toy_AEAD
    (str "hi") [str "there"] 30 toy_opening (le_0_n 30) ltac:(lia) ltac:(lia) _).
  repeat constructor.
Defined.

Definition stale_salts : saltState list_bloom := after_AddSalt toy_salt small_salts.

Lemma toy_stream_delivers t wire :
  delivers 0 (conn_steps (idle_conn [toy_salt ++ wire]))
    (Conn (conn_of (toy_world [toy_salt ++ wire] t))) (toy_salt ++ wire) EOF.
Proof. exact (idle_conn_delivers [toy_salt ++ wire] (toy_salt ++ wire) (app_nil_r _)). Qed.

Lemma known_salt_refused_witness :
  known_salt toy_salt stale_salts = true /\
  wp (streamConn_Read no_env no_floats (zeros 8)) 99
    (toy_world [toy_salt ++ toy_wire] stale_salts) (fun '(_, n, err) s' =>
      n = 0 /\ err = Some ErrRepeatedSalt /\ sc_r (conn_of s') = None).
Proof.
  split; [vm_compute; reflexivity|].
  refine (known_salt_refused no_env no_floats 0 (conn_steps (idle_conn [toy_salt ++ toy_wire]))
    (toy_world [toy_salt ++ toy_wire] stale_salts) toy_salt toy_AEAD toy_wire EOF (zeros 8) 99
    (toy_awaiting _ _ (after_AddSalt_wf _ _ small_salts_wf)) _ (toy_stream_delivers _ _)
    ltac:(lia) _); [vm_compute; reflexivity|].
  apply Nat.ltb_lt. vm_compute. reflexivity.
Defined.

Lemma own_salt_refused_witness :
  wp (streamConn_Write no_env no_floats (str "hi")) 30 (toy_world [] small_salts)
    (fun '(n, err) s' => err = None ->
      forall F' k' (back : world conn buffer list_bloom) a' wire e p g,
        awaiting back toy_salt a' -> salts back = salts s' ->
        delivers F' k' (Conn (conn_of back)) (toy_salt ++ wire) e ->
        (F' <= g)%nat -> (k' < g)%nat ->
        wp (streamConn_Read no_env no_floats p) g back
          (fun '(_, m, err) _ => m = 0 /\ err = Some ErrRepeatedSalt)).
Proof.
  exact (own_salt_refused no_env no_floats 0 21 (toy_world [] small_salts) toy_salt toy_AEAD
    (str "hi") small_ring 30 toy_opening eq_refl (le_0_n 30) ltac:(lia) ltac:(lia) ltac:(cbn; lia)).
Defined.

Definition hello_records : bytes := encode toy_AEAD (zeros (NonceSize toy_AEAD)) [str "hello"].

Lemma replayed_stream_accepted_witness :
  known_salt toy_salt small_salts = false /\
  wp (streamConn_Read no_env no_floats (str "buffer")) 99
    (toy_world [toy_salt ++ hello_records] small_salts) (fun _ s' =>
      forall again : world conn buffer list_bloom,
        conn_of again = conn_of (toy_world [toy_salt ++ hello_records] small_salts) ->
        salts again = salts s' ->
        @delivers _ toy_reader_of_world
          (S (Nat.max 0 (conn_steps (idle_conn [toy_salt ++ hello_records]))))
          (S (length (concat [str "hello"]) + length [str "hello"])) again
          (concat [str "hello"]) EOF).
Proof.
  split; [vm_compute; reflexivity|].
  refine (replayed_stream_accepted no_env no_floats 0
    (conn_steps (idle_conn [toy_salt ++ hello_records]))
    (toy_world [toy_salt ++ hello_records] small_salts) toy_salt toy_AEAD [str "hello"] EOF
    (str "buffer") 99 (toy_awaiting _ _ small_salts_wf) _ _ (toy_stream_delivers _ _) _ _).
  - vm_compute. reflexivity.
  - repeat constructor. vm_compute. discriminate.
  - discriminate.
  - apply Nat.ltb_lt. vm_compute. reflexivity.
Defined.
