(* ===== verification/ShadowPacket.v ===== *)
(** The encrypted datagrams of [m_shadow] (packet.go): packing and unpacking one datagram, and the
    packet connection that does it under a lock with one shared buffer. *)

From Stdlib Require Import ZArith Lia.
From stdpp Require Import base decidable list numbers strings.
From S2P Require Import Prelude GoIO SaltFilter ShadowCipher ShadowStream ShadowRecord ShadowConn.

Definition ErrShortPacket : error := Sentinel "short packet".

(** [net.PacketConn], as far as the code uses it; [A] is [net.Addr]. *)
Class PacketConn (P A : Type) := {
  pc_ReadFrom : bytes -> M P (bytes * Z * option A * option error);
  pc_WriteTo : bytes -> A -> M P (Z * option error)
}.

Definition _zerononce : bytes := zeros 128.

Definition maxPacketSize : Z := 64 * 1024.

Section Packet.
Context {P A : Type} `{PacketConn P A}.
Context {G : Type} `{Reader G}.
Context {B : Type} `{Bloom B}.
Variable Getenv : bytes -> bytes.
Variable ParseFloat : bytes -> option float64.

(** A packet connection with the process state it uses. [pk_locked] is its mutex. *)
Record pworld := {
  pk_conn : P;
  pk_ciph : Cipher;
  pk_locked : bool;
  pk_buf : bytes;
  pk_salts : saltState B;
  pk_rand : G
}.

Definition pk_set_conn (c : P) (s : pworld) : pworld :=
  {| pk_conn := c; pk_ciph := pk_ciph s; pk_locked := pk_locked s; pk_buf := pk_buf s;
     pk_salts := pk_salts s; pk_rand := pk_rand s |}.
Definition pk_set_locked (b : bool) (s : pworld) : pworld :=
  {| pk_conn := pk_conn s; pk_ciph := pk_ciph s; pk_locked := b; pk_buf := pk_buf s;
     pk_salts := pk_salts s; pk_rand := pk_rand s |}.
Definition pk_set_buf (b : bytes) (s : pworld) : pworld :=
  {| pk_conn := pk_conn s; pk_ciph := pk_ciph s; pk_locked := pk_locked s; pk_buf := b;
     pk_salts := pk_salts s; pk_rand := pk_rand s |}.
Definition pk_set_salts (t : saltState B) (s : pworld) : pworld :=
  {| pk_conn := pk_conn s; pk_ciph := pk_ciph s; pk_locked := pk_locked s; pk_buf := pk_buf s;
     pk_salts := t; pk_rand := pk_rand s |}.
Definition pk_set_rand (g : G) (s : pworld) : pworld :=
  {| pk_conn := pk_conn s; pk_ciph := pk_ciph s; pk_locked := pk_locked s; pk_buf := pk_buf s;
     pk_salts := pk_salts s; pk_rand := g |}.

(** [Pack(dst, plaintext, ciph)] for [dst] the connection's buffer: the contents of the returned
    slice, which is a prefix of the buffer. *)
Definition Pack (plaintext : bytes) (ciph : Cipher) : M pworld (bytes + error) :=
  let saltSize := SaltSize ciph in
  let! dst := gets pk_buf in
  let! salt := slice 0 saltSize dst in
  let! '(salt, _, err) := zoom pk_rand pk_set_rand (ReadFull salt) in
  let dst := blit 0 salt dst in
  modify (pk_set_buf dst) ;;;
  match err with Some e => ret (inr e) | None =>
  let! aead := lift (Encrypter ciph salt) in
  match aead with inr e => ret (inr e) | inl aead =>
  zoom pk_salts pk_set_salts (AddSalt Getenv ParseFloat salt) ;;;
  if len dst <? saltSize + len plaintext + Overhead aead then ret (inr ErrShortBuffer)
  else
    let! _ := slice saltSize saltSize dst in
    let! nonce := slice 0 (NonceSize aead) _zerononce in
    let! b := aead_Seal aead nonce plaintext [] in
    let dst := blit saltSize b dst in
    modify (pk_set_buf dst) ;;;
    let! out := slice 0 (saltSize + len b) dst in
    ret (inl out)
  end end.

(** [Unpack(dst, pkt, ciph)] where [dst] is the memory from [pkt[saltSize:]] on: what [dst] holds
    afterwards, and the plaintext, which is a prefix of it, or the error. *)
Definition Unpack (dst pkt : bytes) (ciph : Cipher) : M pworld (bytes * (bytes + error)) :=
  let saltSize := SaltSize ciph in
  if len pkt <? saltSize then ret (dst, inr ErrShortPacket)
  else
    let! salt := slice 0 saltSize pkt in
    let! aead := lift (Decrypter ciph salt) in
    match aead with inr e => ret (dst, inr e) | inl aead =>
    let! repeated := zoom pk_salts pk_set_salts (CheckSalt Getenv ParseFloat salt) in
    if repeated : bool then ret (dst, inr ErrRepeatedSalt)
    else if len pkt <? saltSize + Overhead aead then ret (dst, inr ErrShortPacket)
    else if saltSize + len dst + Overhead aead <? len pkt then ret (dst, inr ErrShortBuffer)
    else
      let! nonce := slice 0 (NonceSize aead) _zerononce in
      let! ct := slice saltSize (len pkt) pkt in
      aead_Open aead dst nonce ct []
    end.

(** [NewPacketConn(c, ciph)]. *)
Definition NewPacketConn (c : P) (ciph : Cipher) (t : saltState B) (g : G) : pworld :=
  {| pk_conn := c; pk_ciph := ciph; pk_locked := false; pk_buf := zeros maxPacketSize;
     pk_salts := t; pk_rand := g |}.

Definition pk_Lock : M pworld unit :=
  let! s := get in
  if pk_locked s then stop Deadlock else put (pk_set_locked true s).

Definition packetConn_WriteTo (b : bytes) (addr : A) : M pworld (Z * option error) :=
  pk_Lock ;;;
  deferring (pk_set_locked false)
    (let! s := get in
     let! res := Pack b (pk_ciph s) in
     match res with
     | inr e => ret (0, Some e)
     | inl buf =>
         let! '(_, err) := zoom pk_conn pk_set_conn (pc_WriteTo buf addr) in
         ret (len b, err)
     end).

(** [ReadFrom(b)]: the contents of [b] afterwards and the results. *)
Definition packetConn_ReadFrom (b : bytes) : M pworld (bytes * Z * option A * option error) :=
  let! '(b, n, addr, err) := zoom pk_conn pk_set_conn (pc_ReadFrom b) in
  match err with
  | Some e => ret (b, n, addr, Some e)
  | None =>
      let! s := get in
      let saltSize := SaltSize (pk_ciph s) in
      let! dst := slice saltSize (len b) b in
      let! pkt := slice 0 n b in
      let! '(mem, res) := Unpack dst pkt (pk_ciph s) in
      let b := blit saltSize mem b in
      match res with
      | inr e => ret (b, n, addr, Some e)
      | inl bb => let '(b, _) := copy b bb in ret (b, len bb, addr, None)
      end
  end.

End Packet.
Arguments pworld P G B : clear implicits.

(** ** Correctness *)

(** The sending side of a packet connection, with the datagrams sent as a ghost view. *)
Class PacketSink (P A : Type) `{PacketConn P A} := {
  datagrams : P -> list (bytes * A);
  pc_WriteTo_spec : forall d addr f c,
    wp (pc_WriteTo d addr) f c (fun '(n, err) c' =>
      match err with
      | None => datagrams c' = datagrams c ++ [(d, addr)]
      | Some _ => datagrams c' = datagrams c
      end)
}.

Section PacketProofs.
Context {P A : Type} `{PacketSink P A}.
Context {G : Type} `{Reader G}.
Context {B : Type} `{BloomLaws B}.
Variable Getenv : bytes -> bytes.
Variable ParseFloat : bytes -> option float64.
Abbreviation pworldT := (pworld P G B).

(** The wire format: the salt and the sealed payload. *)
Definition packet (a : AEAD) (salt plaintext : bytes) : bytes :=
  salt ++ Seal a (zeros (NonceSize a)) plaintext [].

(** A packet connection about to send, with [salt] next from the random source. *)
Record packing (F k : nat) (s : pworldT) (salt : bytes) (a : AEAD) : Prop := {
  pkg_salts : salts_wf (pk_salts s);
  pkg_laws : AEADLaws a;
  pkg_size : len salt = SaltSize (pk_ciph s);
  pkg_fits : len salt <= len (pk_buf s);
  pkg_enc : Encrypter (pk_ciph s) salt = Ret (inl a) tt;
  pkg_rand : exists more e, delivers F k (pk_rand s) (salt ++ more) e
}.

Lemma zerononce_slice {S} a f (s : S) (Q : bytes -> S -> Prop) :
  AEADLaws a -> Q (zeros (NonceSize a)) s -> wp (slice 0 (NonceSize a) _zerononce) f s Q.
Proof.
  intros Ha HQ. pose proof (nonce_size_nonneg (a := a)).
  apply wp_slice; [lia | unfold _zerononce; rewrite len_zeros; lia |].
  replace (sub 0 (NonceSize a) _zerononce) with (zeros (NonceSize a)); [exact HQ|].
  rewrite sub_0_take. unfold _zerononce, zeros. rewrite take_replicate. f_equal. lia.
Qed.

Lemma Pack_run F k s salt a plaintext f (Q : bytes + error -> pworldT -> Prop) :
  packing F k s salt a -> (F <= f)%nat -> (k < f)%nat ->
  (forall s', pk_conn s' = pk_conn s -> pk_salts s' = after_AddSalt salt (pk_salts s) ->
     length (pk_buf s') = length (pk_buf s) -> pk_locked s' = pk_locked s ->
     pk_ciph s' = pk_ciph s ->
     Q (if len (pk_buf s) <? len (packet a salt plaintext) then inr ErrShortBuffer
        else inl (packet a salt plaintext)) s') ->
  wp (Pack Getenv ParseFloat plaintext (pk_ciph s)) f s Q.
Proof.
  intros [Hs Ha Hsize Hfit Henc (more & e & Hd)] HF Hk HQ. unfold Pack. do 4 wp_step.
  assert (len (sub 0 (SaltSize (pk_ciph s)) (pk_buf s)) = len salt) as Hl
    by (rewrite len_sub; lia).
  do 2 wp_step. eapply wp_mono; [eapply ReadFull_delivers; eassumption|].
  intros [[buf n] err] g [_ Hres]. rewrite decide_True in Hres by (rewrite length_app; lia).
  replace (length (sub 0 (SaltSize (pk_ciph s)) (pk_buf s))) with (length salt) in Hres by lia.
  rewrite take_app_length in Hres. destruct Hres as (-> & -> & -> & _).
  assert (len (blit 0 salt (pk_buf s)) = len (pk_buf s)) as Hl1 by (rewrite len_blit; lia).
  do 3 wp_step. eapply wp_lift; [exact Henc|]. do 2 wp_step.
  apply AddSalt_run; [exact Hs|]. rewrite Hl1.
  assert (len (packet a salt plaintext) = SaltSize (pk_ciph s) + len plaintext + Overhead a) as Hpl.
  { unfold packet. rewrite len_app, (seal_len (a := a)). lia. }
  pose proof (overhead_nonneg (a := a)) as Hov. rewrite Hpl in HQ.
  destruct (len (pk_buf s) <? _) eqn:Hfits.
  - wp_step. apply HQ; [done | done | cbn; lia | done | done].
  - wp_step. wp_step. wp_step. apply zerononce_slice; [exact Ha|]. wp_step.
    pose proof (nonce_size_nonneg (a := a)).
    apply wp_aead_Seal; [rewrite len_zeros; lia|]. do 3 wp_step.
    pose proof (seal_len (a := a) (zeros (NonceSize a)) plaintext []) as Hsl.
    set (ct := Seal a (zeros (NonceSize a)) plaintext []) in *.
    assert (len (blit (SaltSize (pk_ciph s)) ct (blit 0 salt (pk_buf s))) = len (pk_buf s)) as Hl2
      by (rewrite len_blit; lia).
    wp_step. wp_step.
    replace (sub 0 _ _) with (packet a salt plaintext).
    + apply HQ; [done | done | cbn; lia | done | done].
    + unfold packet. fold ct. rewrite (sub_split 0 (SaltSize (pk_ciph s))) by lia. f_equal.
      * rewrite blit_before by lia. rewrite <- Hsize. symmetry. apply sub_0_blit; lia.
      * symmetry. apply blit_at; lia.
Qed.

(** A packet connection that can set up the AEAD [a] for [salt]. *)
Record unpacking (s : pworldT) (salt : bytes) (a : AEAD) : Prop := {
  upk_salts : salts_wf (pk_salts s);
  upk_laws : AEADLaws a;
  upk_size : len salt = SaltSize (pk_ciph s);
  upk_dec : Decrypter (pk_ciph s) salt = Ret (inl a) tt
}.

(** The datagram [d] is next on [c], for a reader with the buffer [p] and fuel [f]. *)
Definition arrives (f : nat) (c : P) (p d : bytes) (from : option A) : Prop :=
  exists c' p', pc_ReadFrom p f c = Ret (p', len d, from, None) c' /\
    length p' = length p /\ (length d <= length p)%nat /\ take (length d) p' = d.

(** What [Unpack] makes of a datagram that starts with [salt]. *)
Definition unpacked (salt body : bytes) (a : AEAD) (known : bool) (r : bytes + error) : Prop :=
  if known then r = inr ErrRepeatedSalt
  else if len body <? Overhead a then r = inr ErrShortPacket
  else match Open a (zeros (NonceSize a)) body [] with
       | Some b => r = inl b
       | None => r = inr errOpen
       end.

Lemma Unpack_run s salt body a dst f (Q : bytes * (bytes + error) -> pworldT -> Prop) :
  unpacking s salt a -> len body <= len dst ->
  (forall mem r, length mem = length dst ->
     unpacked salt body a (known_salt salt (pk_salts s)) r ->
     (forall b, r = inl b -> mem = blit 0 b dst) -> Q (mem, r) s) ->
  wp (Unpack Getenv ParseFloat dst (salt ++ body) (pk_ciph s)) f s Q.
Proof.
  intros [Hs Ha Hsize Hdec] Hfit HQ. unfold Unpack. unfold unpacked in HQ.
  pose proof (overhead_nonneg (a := a)) as Hov. rewrite <- Hsize, len_app.
  destruct (len salt + len body <? len salt) eqn:Hshort; [exfalso; lia|]. wp_step. apply wp_slice; [lia | rewrite len_app; lia |].
  replace (sub 0 (len salt) (salt ++ body)) with salt
    by (rewrite sub_0_take, Nat2Z.id; by rewrite take_app_length).
  wp_step. eapply wp_lift; [exact Hdec|]. do 2 wp_step. apply CheckSalt_run; [exact Hs|].
  replace (pk_set_salts (pk_salts s) s) with s by (by destruct s).
  destruct (known_salt salt (pk_salts s)).
  { wp_step. by apply HQ. }
  assert ((len salt + len body <? len salt + Overhead a) = (len body <? Overhead a)) as ->
    by (destruct (Z.ltb_spec (len body) (Overhead a)); lia).
  destruct (len body <? Overhead a) eqn:Hb.
  { wp_step. by apply HQ. }
  destruct (len salt + len dst + Overhead a <? _) eqn:Hbig; [exfalso; lia|].
  wp_step. apply zerononce_slice; [exact Ha|].
  wp_step. apply wp_slice; [lia | rewrite len_app; lia |].
  replace (sub _ _ (salt ++ body)) with body.
  2:{ rewrite <- len_app, sub_to_end, Nat2Z.id by lia. by rewrite drop_app_length. }
  pose proof (nonce_size_nonneg (a := a)). unfold aead_Open.
  rewrite len_zeros, Z.eqb_refl by lia. destruct (Open _ _ _ _) as [b|] eqn:E; wp_step.
  - apply HQ; [|done|by intros ? [= ->]]. pose proof (open_len _ _ _ _ E).
    apply Nat2Z.inj, len_blit; lia.
  - apply HQ; [apply clobber_len | done | done].
Qed.

Lemma datagram_run s salt body a p from f
  (Q : bytes * Z * option A * option error -> pworldT -> Prop) :
  unpacking s salt a -> arrives f (pk_conn s) p (salt ++ body) from ->
  (forall c p' r, unpacked salt body a (known_salt salt (pk_salts s)) r ->
     length p' = length p ->
     match r with
     | inl b => len body = len b + Overhead a -> take (length b) p' = b ->
                Q (p', len b, from, None) (pk_set_conn c s)
     | inr e => Q (p', len (salt ++ body), from, Some e) (pk_set_conn c s)
     end) ->
  wp (packetConn_ReadFrom Getenv ParseFloat p) f s Q.
Proof.
  intros Hun (c & p1 & Hread & Hlen & Hle & Hp1) HQ. unfold packetConn_ReadFrom.
  wp_step. apply wp_zoom. eapply wp_eq; [exact Hread|]. do 2 wp_step.
  cbn [pk_ciph pk_set_conn]. rewrite <- (upk_size _ _ _ Hun). rewrite length_app in Hle.
  wp_step. apply wp_slice; [lia | lia |]. wp_step.
  apply wp_slice; [lia | rewrite len_app; lia |].
  replace (sub 0 _ p1) with (salt ++ body) by (rewrite sub_0_take, Nat2Z.id; done).
  wp_step. eapply (Unpack_run (pk_set_conn c s)); [by destruct Hun; constructor | |].
  { rewrite len_sub by lia. lia. }
  intros mem r Hmem Hr Hmemb. cbn [pk_salts pk_set_conn] in Hr.
  pose proof (len_sub (len salt) (len p1) p1 ltac:(lia) ltac:(lia)) as Hsub.
  assert (length (blit (len salt) mem p1) = length p) as Hl2.
  { rewrite <- Hlen. apply Nat2Z.inj, len_blit; lia. }
  destruct r as [b|e]; lazy beta iota.
  2:{ wp_step. apply (HQ c _ (inr e)); assumption. }
  assert (len body = len b + Overhead a) as Hbl.
  { unfold unpacked in Hr. destruct (known_salt _ _); [done|]. destruct (_ <? _); [done|].
    destruct (Open _ _ _ _) as [b'|] eqn:E; [|done]. injection Hr as ->.
    by apply (open_len (AEADLaws := upk_laws _ _ _ Hun)) in E. }
  pose proof (overhead_nonneg (AEADLaws := upk_laws _ _ _ Hun)) as Hov.
  rewrite copy_fits by lia. wp_step. apply (HQ c _ (inl b)); [assumption | | assumption |].
  - rewrite <- Hl2. apply Nat2Z.inj, len_blit; lia.
  - rewrite <- (Nat2Z.id (length b)) at 1. rewrite <- sub_0_take. apply sub_0_blit; lia.
Qed.

(** C17. Sending a datagram. [WriteTo] puts one datagram on the connection, the salt followed by
    the payload sealed under the zero nonce, and releases the lock; a payload that does not fit
    the 64 KiB buffer is refused with nothing sent. The salt is recorded either way. A peer with the
    same AEAD that does not know the salt gets exactly the payload out of the
    datagram, and a peer that knows it, the sender included, refuses it. *)
Theorem packet_roundtrip F k s salt a b addr f :
  packing F k s salt a -> pk_locked s = false -> (F <= f)%nat -> (k < f)%nat ->
  wp (packetConn_WriteTo Getenv ParseFloat b addr) f s (fun '(n, err) s' =>
    pk_locked s' = false /\ pk_salts s' = after_AddSalt salt (pk_salts s) /\
    if len (pk_buf s) <? len (packet a salt b)
    then n = 0 /\ err = Some ErrShortBuffer /\ pk_conn s' = pk_conn s
    else n = len b /\
      datagrams (pk_conn s') = datagrams (pk_conn s) ++
        match err with None => [(packet a salt b, addr)] | Some _ => [] end /\
      forall (peer : pworldT) p from g,
        unpacking peer salt a -> arrives g (pk_conn peer) p (packet a salt b) from ->
        wp (packetConn_ReadFrom Getenv ParseFloat p) g peer (fun '(p', m, from', err') peer' =>
          from' = from /\
          if known_salt salt (pk_salts peer) then err' = Some ErrRepeatedSalt
          else err' = None /\ m = len b /\ take (length b) p' = b)).
Proof.
  intros Hpk Hlock HF Hk. unfold packetConn_WriteTo, pk_Lock. do 3 wp_step. rewrite Hlock.
  apply wp_put. wp_step. do 3 wp_step. eapply Pack_run; [by destruct Hpk; constructor | done | done |].
  intros s1 Hc Hs1 Hl1 Hk1 Hci. cbn [pk_conn pk_salts pk_set_locked pk_buf] in *.
  destruct (_ <? _); [by wp_step|]. wp_step. apply wp_zoom.
  eapply wp_mono; [apply pc_WriteTo_spec|]. intros [n err] c' Hsent. wp_step.
  split; [done|]. split; [done|]. split; [done|]. cbn [pk_conn pk_set_conn pk_set_locked].
  rewrite Hc in Hsent. split; [by destruct err; rewrite ?app_nil_r|].
  intros peer p from g Hun Harr. pose proof (upk_laws _ _ _ Hun) as Ha.
  eapply datagram_run; [exact Hun | exact Harr |]. intros c2 p' r Hr Hp'.
  unfold unpacked in Hr. destruct (known_salt salt (pk_salts peer)); [by subst r|].
  rewrite (seal_len (a := a)), (open_seal (a := a)) in Hr.
  pose proof (overhead_nonneg (a := a)).
  rewrite (proj2 (Z.ltb_ge (len b + Overhead a) (Overhead a))) in Hr by lia. subst r.
  intros Hlen Htake. done.
Qed.

(** A datagram that [Unpack] refuses before it looks at its payload. *)
Lemma datagram_refused s p d e from f (Q : bytes * Z * option A * option error -> pworldT -> Prop) :
  0 <= SaltSize (pk_ciph s) <= len p -> arrives f (pk_conn s) p d from ->
  (forall dst c, wp (Unpack Getenv ParseFloat dst d (pk_ciph s)) f (pk_set_conn c s) (fun '(mem, r) s' =>
     mem = dst /\ r = inr e /\ s' = pk_set_conn c s)) ->
  (forall c p', length p' = length p -> Q (p', len d, from, Some e) (pk_set_conn c s)) ->
  wp (packetConn_ReadFrom Getenv ParseFloat p) f s Q.
Proof.
  intros Hp (c & p1 & Hread & Hlen & Hle & Hp1) Hunpack HQ. unfold packetConn_ReadFrom.
  wp_step. apply wp_zoom. eapply wp_eq; [exact Hread|]. do 2 wp_step. cbn [pk_ciph pk_set_conn].
  wp_step. apply wp_slice; [lia | lia |]. wp_step. apply wp_slice; [lia | lia |].
  replace (sub 0 _ p1) with d by (rewrite sub_0_take, Nat2Z.id; done).
  wp_step. eapply wp_mono; [apply Hunpack|]. intros [mem r] s' (-> & -> & ->). wp_step. apply HQ.
  rewrite <- Hlen. pose proof (len_sub (SaltSize (pk_ciph s)) (len p1) p1 ltac:(lia) ltac:(lia)).
  apply Nat2Z.inj, len_blit; lia.
Qed.

(** What a datagram is to give, from its bytes alone: a payload or an error. *)
Definition unseal (s : pworldT) (d : bytes) : bytes + error :=
  let salt := take (Z.to_nat (SaltSize (pk_ciph s))) d in
  let body := drop (Z.to_nat (SaltSize (pk_ciph s))) d in
  if len d <? SaltSize (pk_ciph s) then inr ErrShortPacket
  else match Decrypter (pk_ciph s) salt with
       | Ret (inl a) _ =>
           if known_salt salt (pk_salts s) then inr ErrRepeatedSalt
           else if len body <? Overhead a then inr ErrShortPacket
           else match Open a (zeros (NonceSize a)) body [] with Some b => inl b | None => inr errOpen end
       | Ret (inr e) _ => inr e
       | Halt _ _ => inr errOpen
       end.

(** C18. Whatever datagram arrives, of any length down to none, a caller's buffer that can hold a salt makes
    [ReadFrom] return, with the result [unseal] gives for its bytes: [ErrShortPacket] for one that is
    shorter than the salt, or than the salt and the tag, the error of the cipher's key setup,
    [ErrRepeatedSalt] for a known salt, and an authentication error for what does not open, each with the
    length of the datagram; the salts are left as they were. What it returns without an error is
    authentic: the datagram is a salt that was not known followed by the returned payload sealed for that
    salt, and the payload is what the caller's buffer starts with. *)
Theorem packet_accepts_only_sealed s p d from f :
  salts_wf (pk_salts s) -> 0 <= SaltSize (pk_ciph s) <= len p ->
  (forall salt, len salt = SaltSize (pk_ciph s) -> exists r, Decrypter (pk_ciph s) salt = Ret r tt /\
     forall a, r = inl a -> AEADLaws a /\ AEADTight a) ->
  arrives f (pk_conn s) p d from ->
  wp (packetConn_ReadFrom Getenv ParseFloat p) f s (fun '(p', n, from', err) s' =>
    from' = from /\ length p' = length p /\ pk_salts s' = pk_salts s /\
    match unseal s d with
    | inr e => err = Some e /\ n = len d
    | inl b =>
        err = None /\ n = len b /\ take (length b) p' = b /\
        exists salt a, len salt = SaltSize (pk_ciph s) /\ known_salt salt (pk_salts s) = false /\
          Decrypter (pk_ciph s) salt = Ret (inl a) tt /\ d = packet a salt b
    end).
Proof.
  intros Hs Hp Hdec Harr. set (k := Z.to_nat (SaltSize (pk_ciph s))).
  unfold unseal. cbv zeta. fold k. destruct (len d <? SaltSize (pk_ciph s)) eqn:Hshort.
  { eapply datagram_refused; [exact Hp | exact Harr | |by intros].
    intros dst c. unfold Unpack. rewrite Hshort. by wp_step. }
  set (salt := take k d). set (body := drop k d).
  assert (len salt = SaltSize (pk_ciph s)) as Hsize by (subst salt k; rewrite length_take; lia).
  destruct (Hdec salt Hsize) as (r & Hr & Hlaws). rewrite Hr. destruct r as [a|e].
  2:{ eapply datagram_refused; [exact Hp | exact Harr | |by intros].
      intros dst c. unfold Unpack. rewrite Hshort. wp_step. apply wp_slice; [lia | lia |].
      replace (sub 0 _ d) with salt by by rewrite sub_0_take.
      wp_step. eapply wp_lift; [exact Hr|]. by wp_step. }
  destruct (Hlaws a eq_refl) as [Ha Ht]. rewrite <- (take_drop k d) in Harr. fold salt body in Harr.
  eapply datagram_run; [by constructor | exact Harr |]. intros c p' r Hun Hp'. unfold unpacked in Hun.
  replace (salt ++ body) with d in * by (symmetry; apply take_drop).
  destruct (known_salt salt (pk_salts s)) eqn:Hk; [by subst r|].
  destruct (len body <? Overhead a); [by subst r|].
  destruct (Open a (zeros (NonceSize a)) body []) as [b|] eqn:Ho; subst r; [|done].
  intros _ Htake. do 6 (split; [done|]). exists salt, a. do 3 (split; [done|]).
  unfold packet. rewrite <- (Ht _ _ _ _ Ho). symmetry. apply take_drop.
Qed.

(** A caller's buffer shorter than the salt makes [ReadFrom] panic, after the datagram was
    taken off the connection: the slice [b[SaltSize:]] is taken before any length is
    looked at. *)
Theorem packet_short_buffer_panics (s : pworldT) p p' n from c f :
  len p' < SaltSize (pk_ciph s) ->
  pc_ReadFrom p f (pk_conn s) = Ret (p', n, from, None) c ->
  packetConn_ReadFrom Getenv ParseFloat p f s
    = Halt (Panicked SliceOutOfRange) (pk_set_conn c s).
Proof.
  intros Hl Hr. unfold packetConn_ReadFrom, bind, zoom. rewrite Hr.
  unfold get, slice. cbn [pk_ciph pk_set_conn].
  destruct (SaltSize (pk_ciph s) <=? len p') eqn:E; [exfalso; lia|].
  by rewrite andb_false_r.
Qed.

End PacketProofs.

(** ** Witnesses *)

(** A socket: the datagrams that will arrive, with their senders, and those sent. *)
Record dsocket := { ds_in : list (bytes * Z); ds_out : list (bytes * Z) }.

#[global] Instance dsocket_conn : PacketConn dsocket Z := {|
  pc_ReadFrom := fun p _ c =>
    match ds_in c with
    | [] => Ret (p, 0, None, Some (NetError true true 11)) c
    | (d, from) :: more =>
        let '(p', n) := copy p d in
        Ret (p', n, Some from, None) {| ds_in := more; ds_out := ds_out c |}
    end;
  pc_WriteTo := fun d addr _ c =>
    Ret (len d, None) {| ds_in := ds_in c; ds_out := ds_out c ++ [(d, addr)] |}
|}.

#[global] Program Instance dsocket_sink : PacketSink dsocket Z := {| datagrams := ds_out |}.
Next Obligation. intros d addr f c. reflexivity. Qed.

Definition toy_socket (incoming : list (bytes * Z)) : pworld dsocket buffer list_bloom :=
  NewPacketConn {| ds_in := incoming; ds_out := [] |} toy_Cipher small_salts
    (toy_salt ++ str "more").

Lemma toy_packing : packing 0 21 (toy_socket []) toy_salt toy_AEAD.
Proof.
  constructor; [apply small_salts_wf | apply toy_AEAD_laws | reflexivity | | reflexivity |].
  - unfold toy_socket, NewPacketConn, pk_buf. rewrite len_zeros; vm_compute; discriminate.
  - exists (str "more"), EOF. exact (buffer_delivers (toy_salt ++ str "more")).
Qed.

Lemma packet_roundtrip_witness :
  wp (packetConn_WriteTo no_env no_floats (str "query") 7) 30 (toy_socket [])
    (fun '(n, err) s' =>
      pk_locked s' = false /\ pk_salts s' = after_AddSalt toy_salt (pk_salts (toy_socket [])) /\
      if len (pk_buf (toy_socket [])) <? len (packet toy_AEAD toy_salt (str "query"))
      then n = 0 /\ err = Some ErrShortBuffer /\ pk_conn s' = pk_conn (toy_socket [])
      else n = len (str "query") /\
        datagrams (pk_conn s') = datagrams (pk_conn (toy_socket [])) ++
          match err with
          | None => [(packet toy_AEAD toy_salt (str "query"), 7)] | Some _ => []
          end /\
        forall (peer : pworld dsocket buffer list_bloom) p from g,
          unpacking peer toy_salt toy_AEAD ->
          arrives g (pk_conn peer) p (packet toy_AEAD toy_salt (str "query")) from ->
          wp (packetConn_ReadFrom no_env no_floats p) g peer (fun '(p', m, from', err') peer' =>
            from' = from /\
            if known_salt toy_salt (pk_salts peer) then err' = Some ErrRepeatedSalt
            else err' = None /\ m = len (str "query") /\
                 take (length (str "query")) p' = str "query")).
Proof.
  exact (packet_roundtrip no_env no_floats 0 21 (toy_socket []) toy_salt toy_AEAD (str "query")
    7 30 toy_packing eq_refl ltac:(lia) ltac:(lia)).
Defined.

Definition forged : bytes := toy_salt ++ str "not sealed by anyone".

Lemma packet_accepts_only_sealed_witness :
  wp (packetConn_ReadFrom no_env no_floats (zeros 64)) 30 (toy_socket [(forged, 9)])
    (fun '(p', n, from', err) s' =>
      from' = Some 9 /\ length p' = length (zeros 64) /\
      pk_salts s' = pk_salts (toy_socket [(forged, 9)]) /\
      match unseal (toy_socket [(forged, 9)]) forged with
      | inr e => err = Some e /\ n = len forged
      | inl b =>
          err = None /\ n = len b /\ take (length b) p' = b /\
          exists salt a, len salt = SaltSize toy_Cipher /\ known_salt salt small_salts = false /\
            Decrypter toy_Cipher salt = Ret (inl a) tt /\ forged = packet a salt b
      end).
Proof.
  apply (packet_accepts_only_sealed no_env no_floats (toy_socket [(forged, 9)]) (zeros 64) forged (Some 9) 30).
  - apply small_salts_wf.
  - split; apply Z.leb_le; vm_compute; reflexivity.
  - intros salt _. exists (inl toy_AEAD). split; [reflexivity|]. intros a [= <-].
    split; [apply toy_AEAD_laws | apply toy_AEAD_tight].
  - eexists _, _. split; [reflexivity|]. split; [reflexivity|]. split; [|reflexivity].
    apply Nat.leb_le. vm_compute. reflexivity.
Defined.

(** What [unseal] makes of the forged datagram, of one that is cut short, and of a sealed one. *)
Example unseal_forged : unseal (toy_socket []) forged = inr errOpen.
Proof. reflexivity. Qed.

Example unseal_short : unseal (toy_socket []) (str "short") = inr ErrShortPacket.
Proof. reflexivity. Qed.

Example unseal_sealed : unseal (toy_socket []) (packet toy_AEAD toy_salt (str "query")) = inl (str "query").
Proof. reflexivity. Qed.

Lemma packet_short_buffer_panics_witness :
  packetConn_ReadFrom no_env no_floats (zeros 8) 30%nat (toy_socket [(forged, 9)])
    = Halt (Panicked SliceOutOfRange)
        (pk_set_conn {| ds_in := []; ds_out := [] |} (toy_socket [(forged, 9)])).
Proof.
  exact (packet_short_buffer_panics no_env no_floats (toy_socket [(forged, 9)]) (zeros 8)
    (take 8 forged) 8 (Some 9) {| ds_in := []; ds_out := [] |} 30%nat eq_refl eq_refl).
Defined.
