(* ===== verification/GoNet.v ===== *)
(** The textual forms of Go's [strconv] and [net] the program uses: decimal numbers, IP
    addresses, and host:port pairs.  Nothing here is code of the repository: it is the
    standard library its address functions are written in. *)

From Stdlib Require Import ZArith Lia.
From Stdlib Require Import Strings.Byte.
From stdpp Require Import base decidable list numbers strings.
From S2P Require Import Prelude.

Definition colon : byte := x3a.
Definition dot : byte := x2e.
Definition lbracket : byte := x5b.
Definition rbracket : byte := x5d.

(** ** Decimal numbers *)

Definition digit (d : Z) : byte := z2b (48 + d).
Definition is_digit (c : byte) : bool := (48 <=? b2z c) && (b2z c <=? 57).
Definition digit_value (c : byte) : Z := b2z c - 48.

(** The digits of [z], most significant first, before [acc]; [k] bounds their number. *)
Fixpoint digits (k : nat) (z : Z) (acc : bytes) : bytes :=
  match k with
  | O => acc
  | S k' =>
      let acc' := digit (z mod 10) :: acc in
      if z / 10 =? 0 then acc' else digits k' (z / 10) acc'
  end.

(** [strconv.Itoa]; a 64-bit integer has at most 19 digits. *)
Definition Itoa (z : Z) : bytes :=
  if z <? 0 then x2d :: digits 20 (- z) [] else digits 20 z [].

Definition push_digit (n : Z) (c : byte) : Z := n * 10 + digit_value c.
Definition dec_value (s : bytes) : Z := fold_left push_digit s 0.

(** [strconv.ParseUint(s, 10, 16)], [None] on any error. *)
Definition ParseUint16 (s : bytes) : option Z :=
  if (0 <? len s) && forallb is_digit s && (dec_value s <=? 65535)
  then Some (dec_value s) else None.

(** [dtoi] and [xtoi] of net/parse.go: the number [s] starts with, the digits it takes, and
    whether there is one below [big]. *)
Definition big : Z := 16777215.

Fixpoint dtoi_go (s : bytes) (n i : Z) : Z * Z * bool :=
  match s with
  | c :: s' =>
      if is_digit c then
        let n' := push_digit n c in
        if n' >=? big then (big, i, false) else dtoi_go s' n' (i + 1)
      else (n, i, negb (i =? 0))
  | [] => (n, i, negb (i =? 0))
  end.
Definition dtoi (s : bytes) : Z * Z * bool := dtoi_go s 0 0.

Definition hex_value (c : byte) : option Z :=
  let z := b2z c in
  if (48 <=? z) && (z <=? 57) then Some (z - 48)
  else if (97 <=? z) && (z <=? 102) then Some (z - 87)
  else if (65 <=? z) && (z <=? 70) then Some (z - 55)
  else None.

Fixpoint xtoi_go (s : bytes) (n i : Z) : Z * Z * bool :=
  match s with
  | c :: s' =>
      match hex_value c with
      | Some d =>
          let n' := n * 16 + d in
          if n' >=? big then (0, i, false) else xtoi_go s' n' (i + 1)
      | None => (n, i, negb (i =? 0))
      end
  | [] => (n, i, negb (i =? 0))
  end.
Definition xtoi (s : bytes) : Z * Z * bool := xtoi_go s 0 0.

(** ** IP addresses *)

Definition IP : Type := bytes.

Definition v4InV6Prefix : bytes := zeros 10 ++ [xff; xff].

(** [net.IPv4]. *)
Definition IPv4 (a b c d : byte) : IP := v4InV6Prefix ++ [a; b; c; d].

(** [ip.To4()]. *)
Definition To4 (ip : IP) : option bytes :=
  if len ip =? 4 then Some ip
  else if (len ip =? 16) && bool_decide (take 12 ip = v4InV6Prefix) then Some (drop 12 ip)
  else None.

(** [parseIPv4], the octets left to read counting down. *)
Fixpoint parseIPv4_go (octets : nat) (first : bool) (s : bytes) : option bytes :=
  match octets with
  | O => match s with [] => Some [] | _ => None end
  | S octets' =>
      let s1 := if first then Some s
                else match s with c :: s' => if decide (c = dot) then Some s' else None | [] => None end in
      match s1 with
      | Some ((h :: _) as s1) =>
          let '(n, c, ok) := dtoi s1 in
          if negb ok || (255 <? n) then None
          else if (1 <? c) && bool_decide (h = digit 0) then None
          else match parseIPv4_go octets' false (drop (Z.to_nat c) s1) with
               | Some l => Some (z2b n :: l)
               | None => None
               end
      | _ => None
      end
  end.

Definition parseIPv4 (s : bytes) : option IP :=
  match parseIPv4_go 4 true s with
  | Some [a; b; c; d] => Some (IPv4 a b c d)
  | _ => None
  end.

(** [parseIPv6]: [ip] holds the bytes read so far, [ellipsis] the position of "::". *)
Definition expand_ellipsis (ip : bytes) (ellipsis : option nat) : option IP :=
  if (len ip <? 16)
  then match ellipsis with
       | Some e => Some (take e ip ++ zeros (16 - len ip) ++ drop e ip)
       | None => None
       end
  else match ellipsis with Some _ => None | None => Some ip end.

Fixpoint parseIPv6_go (k : nat) (s ip : bytes) (ellipsis : option nat) : option IP :=
  match k with
  | O => match s with [] => expand_ellipsis ip ellipsis | _ => None end
  | S k' =>
      if 16 <=? len ip then match s with [] => expand_ellipsis ip ellipsis | _ => None end
      else
      let '(n, c, ok) := xtoi s in
      if negb ok || (65535 <? n) then None
      else
        match drop (Z.to_nat c) s with
        | [] => expand_ellipsis (ip ++ [z2b (Z.shiftr n 8); z2b n]) ellipsis
        | sep :: s' =>
            if decide (sep = dot) then
              if (match ellipsis with None => negb (len ip =? 12) | Some _ => false end)
                 || (16 <? len ip + 4)
              then None
              else match parseIPv4 s with
                   | Some ip4 => expand_ellipsis (ip ++ drop 12 ip4) ellipsis
                   | None => None
                   end
            else
              let ip' := ip ++ [z2b (Z.shiftr n 8); z2b n] in
              if negb (bool_decide (sep = colon)) then None
              else match s' with
                   | [] => None
                   | c1 :: s'' =>
                       if decide (c1 = colon) then
                         match ellipsis with
                         | Some _ => None
                         | None =>
                             match s'' with
                             | [] => expand_ellipsis ip' (Some (length ip'))
                             | _ => parseIPv6_go k' s'' ip' (Some (length ip'))
                             end
                         end
                       else parseIPv6_go k' s' ip' ellipsis
                   end
        end
  end.

Definition parseIPv6 (s : bytes) : option IP :=
  match s with
  | c1 :: c2 :: s' =>
      if decide (c1 = colon /\ c2 = colon)
      then match s' with [] => Some (zeros 16) | _ => parseIPv6_go 8 s' [] (Some O) end
      else parseIPv6_go 8 s [] None
  | _ => parseIPv6_go 8 s [] None
  end.

(** [net.ParseIP]: the first '.' or ':' decides the family. *)
Fixpoint ip_family (s : bytes) : option byte :=
  match s with
  | [] => None
  | c :: s' => if decide (c = dot \/ c = colon) then Some c else ip_family s'
  end.

Definition ParseIP (s : bytes) : option IP :=
  match ip_family s with
  | Some c => if decide (c = dot) then parseIPv4 s else parseIPv6 s
  | None => None
  end.

Definition dotted (a b c d : byte) : bytes :=
  Itoa (b2z a) ++ dot :: Itoa (b2z b) ++ dot :: Itoa (b2z c) ++ dot :: Itoa (b2z d).

Definition hex_digit (d : Z) : byte := if d <? 10 then z2b (48 + d) else z2b (87 + d).

(** [appendHex] for one group, without leading zeros. *)
Fixpoint hex_digits (k : nat) (z : Z) (acc : bytes) : bytes :=
  match k with
  | O => acc
  | S k' =>
      let acc' := hex_digit (z mod 16) :: acc in
      if z / 16 =? 0 then acc' else hex_digits k' (z / 16) acc'
  end.

(** The eight groups of a 16-byte address. *)
Fixpoint groups (ip : bytes) : list Z :=
  match ip with
  | h :: l :: ip' => b2z h * 256 + b2z l :: groups ip'
  | _ => []
  end.

Fixpoint zero_run (gs : list Z) : nat :=
  match gs with
  | g :: gs' => if g =? 0 then S (zero_run gs') else O
  | [] => O
  end.

(** The first longest run of zero groups, [(start, length)], [at] groups into the address. *)
Fixpoint longest_zeros (gs : list Z) (at_ : nat) (best : nat * nat) : nat * nat :=
  match gs with
  | [] => best
  | _ :: gs' =>
      let n := zero_run gs in
      longest_zeros gs' (S at_) (if (best.2 <? n)%nat then (at_, n) else best)
  end.

Fixpoint join_groups (gs : list Z) (first : bool) : bytes :=
  match gs with
  | [] => []
  | g :: gs' => (if first then [] else [colon]) ++ hex_digits 4 g [] ++ join_groups gs' false
  end.

Definition ipv6_text (gs : list Z) : bytes :=
  let '(e, n) := longest_zeros gs O (O, O) in
  if (n <=? 1)%nat then join_groups gs true
  else join_groups (take e gs) true ++ [colon; colon] ++ join_groups (drop (e + n) gs) true.

(** [ip.String()]. *)
Definition IP_String (ip : IP) : bytes :=
  if len ip =? 0 then str "<nil>"
  else match To4 ip with
  | Some [a; b; c; d] => dotted a b c d
  | _ =>
      if len ip =? 16 then ipv6_text (groups ip)
      else x3f :: concat (map (fun c => [hex_digit (b2z c / 16); hex_digit (b2z c mod 16)]) ip)
  end.

(** ** Host and port *)

Definition contains (c : byte) (s : bytes) : bool := existsb (fun x => bool_decide (x = c)) s.

(** [net.JoinHostPort]. *)
Definition JoinHostPort (host port : bytes) : bytes :=
  if contains colon host then [lbracket] ++ host ++ [rbracket; colon] ++ port
  else host ++ [colon] ++ port.

Fixpoint index_byte (c : byte) (s : bytes) : option nat :=
  match s with
  | [] => None
  | x :: s' => if decide (x = c) then Some O else option_map S (index_byte c s')
  end.

Fixpoint last_index (c : byte) (s : bytes) : option nat :=
  match s with
  | [] => None
  | x :: s' =>
      match last_index c s' with
      | Some i => Some (S i)
      | None => if decide (x = c) then Some O else None
      end
  end.

(** [net.SplitHostPort], [None] on any error. *)
Definition SplitHostPort (hostport : bytes) : option (bytes * bytes) :=
  match last_index colon hostport with
  | None => None
  | Some i =>
      let port := drop (S i) hostport in
      if bool_decide (head hostport = Some lbracket) then
        match index_byte rbracket hostport with
        | None => None
        | Some end_ =>
            if (S end_ =? i)%nat then
              if contains lbracket (drop 1 hostport) || contains rbracket (drop (S end_) hostport)
              then None
              else Some (take (end_ - 1) (drop 1 hostport), port)
            else None
        end
      else
        let host := take i hostport in
        if contains colon host || contains lbracket hostport || contains rbracket hostport
        then None
        else Some (host, port)
  end.

(** ** Reading back what was printed *)

Lemma is_digit_digit d : 0 <= d < 10 -> is_digit (digit d) = true.
Proof.
  intros Hd. unfold is_digit, digit. rewrite b2z_z2b, Z.mod_small by lia. apply andb_true_iff. lia.
Qed.

Lemma digit_value_digit d : 0 <= d < 10 -> digit_value (digit d) = d.
Proof. intros Hd. unfold digit_value, digit. rewrite b2z_z2b, Z.mod_small by lia. lia. Qed.

Lemma digits_value k z acc :
  0 <= z < 10 ^ Z.of_nat k -> (0 < k)%nat ->
  fold_left push_digit (digits k z acc) 0 = fold_left push_digit acc z.
Proof.
  revert z acc. induction k as [|k IH]; intros z acc Hz Hk; [lia|]. cbn [digits].
  pose proof (Z.mod_pos_bound z 10 ltac:(lia)). pose proof (Z.div_mod z 10 ltac:(lia)).
  assert (push_digit (z / 10) (digit (z mod 10)) = z) as Hpush.
  { unfold push_digit. rewrite digit_value_digit by lia. lia. }
  destruct (z / 10 =? 0) eqn:E.
  - apply Z.eqb_eq in E. cbn [fold_left]. rewrite E in Hpush. by rewrite Hpush.
  - apply Z.eqb_neq in E. destruct k as [|k].
    { cbn in Hz. assert (z / 10 = 0) by (apply Z.div_small; lia). lia. }
    rewrite IH; [cbn [fold_left]; by rewrite Hpush | | lia].
    rewrite (Nat2Z.inj_succ (S k)), Z.pow_succ_r in Hz by lia. split; [apply Z.div_pos; lia|].
    apply Z.div_lt_upper_bound; lia.
Qed.

Lemma digits_all k z acc :
  0 <= z -> forallb is_digit acc = true -> forallb is_digit (digits k z acc) = true.
Proof.
  revert z acc. induction k as [|k IH]; intros z acc Hz Hacc; [exact Hacc|]. cbn [digits].
  pose proof (Z.mod_pos_bound z 10 ltac:(lia)).
  assert (forallb is_digit (digit (z mod 10) :: acc) = true)
    by (cbn [forallb]; by rewrite is_digit_digit, Hacc by lia).
  destruct (_ =? _); [assumption | apply IH; [apply Z.div_pos; lia | assumption]].
Qed.

Lemma digits_length k z acc : (length acc <= length (digits k z acc))%nat.
Proof.
  revert z acc. induction k as [|k IH]; intros z acc; [done|]. cbn [digits].
  destruct (_ =? _); [cbn; lia|]. specialize (IH (z / 10) (digit (z mod 10) :: acc)).
  cbn [List.length] in IH. lia.
Qed.

(** No leading zero, unless the number is zero. *)
Lemma digits_head k z acc :
  0 < z < 10 ^ Z.of_nat k -> exists d l, digits k z acc = digit d :: l /\ 0 < d < 10.
Proof.
  revert z acc. induction k as [|k IH]; intros z acc Hz; [cbn in Hz; lia|]. cbn [digits].
  pose proof (Z.mod_pos_bound z 10 ltac:(lia)). pose proof (Z.div_mod z 10 ltac:(lia)).
  destruct (z / 10 =? 0) eqn:E.
  - apply Z.eqb_eq in E. eexists _, _. split; [reflexivity | lia].
  - apply Z.eqb_neq in E. apply IH.
    rewrite Nat2Z.inj_succ, Z.pow_succ_r in Hz by lia.
    pose proof (Z.div_pos z 10 ltac:(lia) ltac:(lia)). split; [lia|].
    apply Z.div_lt_upper_bound; lia.
Qed.

Definition int_ok (z : Z) : Prop := 0 <= z < 10 ^ 20.

Lemma Itoa_digits z : int_ok z -> Itoa z = digits 20 z [].
Proof. intros Hz. unfold Itoa. destruct (z <? 0) eqn:E; [unfold int_ok in Hz; lia | done]. Qed.

Lemma Itoa_value z : int_ok z -> dec_value (Itoa z) = z.
Proof. intros Hz. rewrite Itoa_digits by done. by apply digits_value; [exact Hz | lia]. Qed.

Lemma Itoa_all z : int_ok z -> forallb is_digit (Itoa z) = true.
Proof. intros Hz. rewrite Itoa_digits by done. by apply digits_all; [apply Hz|]. Qed.

Lemma digits_pos k z : 0 < len (digits (S k) z []).
Proof.
  cbn [digits]. destruct (_ =? _); [cbn; lia|].
  pose proof (digits_length k (z / 10) [digit (z mod 10)]) as Hl. cbn [List.length] in Hl. lia.
Qed.

Lemma Itoa_pos z : 0 < len (Itoa z).
Proof.
  unfold Itoa. destruct (z <? 0); [|apply digits_pos].
  pose proof (digits_pos 19 (- z)). rewrite length_cons. lia.
Qed.

Lemma ParseUint16_Itoa z : 0 <= z <= 65535 -> ParseUint16 (Itoa z) = Some z.
Proof.
  intros Hz. assert (int_ok z) as Hok by (unfold int_ok; lia). unfold ParseUint16.
  rewrite Itoa_all, Itoa_value by exact Hok. pose proof (Itoa_pos z) as Hl.
  rewrite (proj2 (Z.ltb_lt _ _) Hl), (proj2 (Z.leb_le _ _)) by lia. done.
Qed.

(** [dtoi] of some digits and then something else. *)
Definition stops (s : bytes) : Prop := match s with c :: _ => is_digit c = false | [] => True end.

Lemma fold_push_mono ds n : 0 <= n -> forallb is_digit ds = true -> n <= fold_left push_digit ds n.
Proof.
  revert n. induction ds as [|c ds IH]; intros n Hn Hds; [cbn; lia|].
  cbn [forallb fold_left] in *. apply andb_true_iff in Hds as [Hc Hds].
  unfold is_digit in Hc.
  assert (n <= push_digit n c) by (unfold push_digit, digit_value; lia).
  specialize (IH (push_digit n c) ltac:(lia) Hds). lia.
Qed.

Lemma dtoi_go_digits ds rest n i :
  forallb is_digit ds = true -> stops rest -> 0 <= n -> 0 <= i -> 0 < i + len ds ->
  fold_left push_digit ds n < big ->
  dtoi_go (ds ++ rest) n i = (fold_left push_digit ds n, i + len ds, true).
Proof.
  revert n i. induction ds as [|c ds IH]; intros n i Hds Hstop Hn Hi Hpos Hbig.
  - cbn [app fold_left List.length] in *. assert (negb (i =? 0) = true) as Hni by lia.
    replace (i + Z.of_nat 0) with i by lia. rewrite <- Hni.
    destruct rest as [|c rest]; cbn in *; [done|]. by rewrite Hstop.
  - cbn [forallb fold_left app dtoi_go] in *. apply andb_true_iff in Hds as [Hc Hds].
    rewrite Hc. assert (0 <= push_digit n c) by (unfold is_digit in Hc; unfold push_digit, digit_value; lia).
    pose proof (fold_push_mono ds (push_digit n c) ltac:(lia) Hds).
    destruct (push_digit n c >=? big) eqn:E; [exfalso; lia|].
    rewrite IH; [|done|done|lia|lia|lia|done].
    f_equal. f_equal. cbn [List.length]. lia.
Qed.

Lemma dtoi_Itoa z rest : 0 <= z <= 65535 -> stops rest ->
  dtoi (Itoa z ++ rest) = (z, len (Itoa z), true).
Proof.
  intros Hz Hs. assert (int_ok z) as Hok by (unfold int_ok; lia).
  pose proof (Itoa_value z Hok) as Hv. unfold dec_value in Hv. pose proof (Itoa_pos z).
  unfold dtoi. rewrite dtoi_go_digits; [|by apply Itoa_all|done|lia|lia|lia|rewrite Hv; unfold big; lia].
  by rewrite Hv.
Qed.

Lemma Itoa_head z : 0 <= z <= 65535 ->
  exists h t, Itoa z = h :: t /\ (1 < len (Itoa z) -> h <> digit 0).
Proof.
  intros Hz. rewrite Itoa_digits by (unfold int_ok; lia). destruct (decide (z = 0)) as [->|Hnz].
  - eexists _, _. split; [vm_compute; reflexivity|]. vm_compute. discriminate.
  - destruct (digits_head 20 z [] ltac:(lia)) as (d & l & -> & Hd). eexists _, _.
    split; [done|]. intros _ Heq. apply (f_equal digit_value) in Heq.
    rewrite !digit_value_digit in Heq by lia. lia.
Qed.

(** One octet of a dotted address. *)
Definition dot_tail (first : bool) (s : bytes) : bytes := if first then s else dot :: s.

Lemma parseIPv4_octet n first (a : byte) rest :
  stops rest ->
  parseIPv4_go (S n) first (dot_tail first (Itoa (b2z a) ++ rest))
  = match parseIPv4_go n false rest with Some l => Some (a :: l) | None => None end.
Proof.
  intros Hs. pose proof (b2z_range a) as Ha.
  destruct (Itoa_head (b2z a) ltac:(lia)) as (h & t & Hit & Hz).
  cbn [parseIPv4_go]. unfold dot_tail.
  assert ((if first
      then Some (if first then Itoa (b2z a) ++ rest else dot :: Itoa (b2z a) ++ rest)
      else match (if first then Itoa (b2z a) ++ rest else dot :: Itoa (b2z a) ++ rest) with
           | [] => None
           | c :: s' => if decide (c = dot) then Some s' else None
           end) = Some (h :: t ++ rest)) as ->.
  { rewrite Hit. destruct first; [done|]. by rewrite decide_True. }
  change (h :: t ++ rest) with ((h :: t) ++ rest). rewrite <- Hit.
  rewrite (dtoi_Itoa (b2z a) rest) by (lia || exact Hs). cbn [negb orb].
  rewrite (proj2 (Z.ltb_ge 255 (b2z a))) by lia.
  assert ((1 <? len (Itoa (b2z a))) && bool_decide (h = digit 0) = false) as Hlead.
  { destruct (1 <? _) eqn:E; [|done]. apply bool_decide_eq_false. apply Hz. lia. }
  rewrite Hit in Hlead |- *. cbn [app]. rewrite Hlead. rewrite <- Hit.
  rewrite Nat2Z.id, app_comm_cons, <- Hit, drop_app_length, z2b_b2z. done.
Qed.

Lemma stops_dot s : stops (dot :: s).
Proof. reflexivity. Qed.

Lemma parseIPv4_dotted a b c d : parseIPv4 (dotted a b c d) = Some (IPv4 a b c d).
Proof.
  unfold parseIPv4, dotted.
  pose proof (parseIPv4_octet 3 true a) as H1. cbn [dot_tail] in H1. rewrite H1 by apply stops_dot.
  pose proof (parseIPv4_octet 2 false b) as H2. cbn [dot_tail] in H2. rewrite H2 by apply stops_dot.
  pose proof (parseIPv4_octet 1 false c) as H3. cbn [dot_tail] in H3. rewrite H3 by apply stops_dot.
  pose proof (parseIPv4_octet 0 false d []) as H4. cbn [dot_tail] in H4.
  rewrite app_nil_r in H4. by rewrite H4.
Qed.

Lemma contains_app c s t : contains c (s ++ t) = contains c s || contains c t.
Proof. apply existsb_app. Qed.

Lemma contains_In c s : contains c s = false <-> ~ In c s.
Proof.
  unfold contains. rewrite <- not_true_iff_false, existsb_exists. split; intros H Hin; apply H.
  - exists c. by rewrite bool_decide_eq_true.
  - destruct Hin as (x & Hin & Hx). apply bool_decide_eq_true in Hx. by subst.
Qed.

Lemma digits_not_special s c : forallb is_digit s = true -> is_digit c = false -> ~ In c s.
Proof. rewrite forallb_forall. intros Hs Hc Hin. apply Hs in Hin. congruence. Qed.

Lemma ip_family_app s c rest :
  ~ In dot s -> ~ In colon s -> (c = dot \/ c = colon) -> ip_family (s ++ c :: rest) = Some c.
Proof.
  intros Hd Hc Hsep. induction s as [|x s IH]; cbn [app ip_family].
  - by rewrite decide_True.
  - cbn [In] in *. rewrite decide_False by (intros [-> | ->]; tauto). apply IH; tauto.
Qed.

Lemma ParseIP_dotted a b c d : ParseIP (dotted a b c d) = Some (IPv4 a b c d).
Proof.
  unfold ParseIP. pose proof (b2z_range a).
  pose proof (Itoa_all (b2z a) ltac:(unfold int_ok; lia)) as Hall.
  unfold dotted at 1. rewrite ip_family_app; [|by apply (digits_not_special _ _ Hall)..|by left].
  rewrite decide_True by done. apply parseIPv4_dotted.
Qed.

Lemma last_index_app c s t : ~ In c t -> last_index c (s ++ c :: t) = Some (length s).
Proof.
  intros Ht. assert (last_index c t = None) as Hn.
  { induction t as [|x t IH]; [done|]. cbn [In last_index] in *. rewrite IH by tauto.
    rewrite decide_False; [done | intros ->; tauto]. }
  induction s as [|x s IH]; cbn [app last_index List.length]; [by rewrite Hn, decide_True | by rewrite IH].
Qed.

Lemma index_byte_app c s t : ~ In c s -> index_byte c (s ++ c :: t) = Some (length s).
Proof.
  intros Hs. induction s as [|x s IH]; cbn [app index_byte List.length]; [by rewrite decide_True|].
  cbn [In] in Hs. rewrite decide_False by (intros ->; tauto). rewrite IH by tauto. done.
Qed.

(** A host without brackets survives [JoinHostPort], colons or not. *)
Lemma SplitHostPort_JoinHostPort host port :
  ~ In lbracket host -> ~ In rbracket host -> forallb is_digit port = true ->
  SplitHostPort (JoinHostPort host port) = Some (host, port).
Proof.
  intros Hl Hr Hp.
  assert (forall c, is_digit c = false -> ~ In c port) as Hport
    by (intros; by apply digits_not_special).
  unfold JoinHostPort, SplitHostPort. destruct (contains colon host) eqn:Hc.
  - cbn [app]. rewrite (app_comm_cons host _ lbracket).
    change (rbracket :: colon :: port) with ([rbracket] ++ colon :: port).
    rewrite (app_assoc (lbracket :: host)).
    rewrite last_index_app by (by apply Hport).
    rewrite bool_decide_eq_true_2 by done. rewrite <- (app_assoc (lbracket :: host)).
    change ([rbracket] ++ colon :: port) with (rbracket :: colon :: port).
    rewrite index_byte_app by (cbn; intros [?|?]; [discriminate | tauto]).
    rewrite length_app, length_cons. cbn [List.length].
    rewrite (proj2 (Nat.eqb_eq _ _)) by lia. cbn [app drop]. rewrite drop_0.
    assert (contains lbracket (host ++ rbracket :: colon :: port) = false) as ->.
    { apply contains_In. rewrite in_app_iff. cbn [In].
      intros [?|[?|[?|?]]]; [tauto | discriminate | discriminate | by eapply (Hport lbracket)]. }
    assert (drop (S (length host)) (host ++ rbracket :: colon :: port) = colon :: port) as Hd.
    { replace (S (length host)) with (length host + 1)%nat by lia.
      rewrite <- drop_drop, drop_app_length. reflexivity. }
    rewrite Hd. assert (contains rbracket (colon :: port) = false) as ->.
    { apply contains_In. cbn [In]. intros [?|?]; [discriminate | by eapply (Hport rbracket)]. }
    cbn [orb]. rewrite Nat.sub_succ, Nat.sub_0_r, take_app_length, <- drop_drop, Hd. done.
  - cbn [app]. rewrite last_index_app by (by apply Hport).
    apply contains_In in Hc.
    assert (forall c, c = lbracket \/ c = rbracket -> contains c (host ++ colon :: port) = false) as Hb.
    { intros c Hcb. apply contains_In. rewrite in_app_iff. cbn [In].
      intros [?|[?|?]]; [by destruct Hcb; subst | by destruct Hcb; subst |].
      apply (Hport c); [by destruct Hcb; subst | assumption]. }
    rewrite bool_decide_eq_false_2.
    2:{ destruct host as [|h host]; cbn; [discriminate|]. intros [= ->]. cbn in Hl. tauto. }
    rewrite take_app_length, (proj2 (contains_In _ _) Hc), !Hb by tauto. cbn [orb].
    replace (S (length host)) with (length host + 1)%nat by lia.
    rewrite <- drop_drop, drop_app_length. done.
Qed.

(** ** The length of a parsed address *)

Lemma To4_len ip ip4 : To4 ip = Some ip4 -> length ip4 = 4%nat.
Proof.
  unfold To4. destruct (len ip =? 4) eqn:E4; [intros [= <-]; blia|].
  destruct (len ip =? 16) eqn:E16; cbn [andb]; [|done].
  destruct (bool_decide _); [|done]. intros [= <-]. rewrite length_drop. blia.
Qed.

Lemma parseIPv4_len s ip : parseIPv4 s = Some ip -> length ip = 16%nat.
Proof.
  unfold parseIPv4. destruct (parseIPv4_go _ _ _) as [[|a [|b [|c [|d [|]]]]]|]; try done.
  by intros [= <-].
Qed.

Lemma expand_ellipsis_len ip e r :
  (length ip <= 16)%nat -> expand_ellipsis ip e = Some r -> length r = 16%nat.
Proof.
  intros Hip. unfold expand_ellipsis. destruct (len ip <? 16) eqn:E; destruct e as [e|]; try done.
  - intros [= <-]. rewrite !length_app. pose proof (len_zeros (16 - len ip) ltac:(lia)).
    pose proof (f_equal length (take_drop e ip)) as Htd. rewrite length_app in Htd. lia.
  - intros [= <-]. blia.
Qed.

Lemma parseIPv6_go_len k s ip e r :
  (length ip <= 16)%nat -> Nat.Even (length ip) ->
  parseIPv6_go k s ip e = Some r -> length r = 16%nat.
Proof.
  revert s ip e. induction k as [|k IH]; intros s ip e Hip Hev; cbn [parseIPv6_go].
  { destruct s; [by apply expand_ellipsis_len | done]. }
  destruct (16 <=? len ip) eqn:Efull; [destruct s; [by apply expand_ellipsis_len | done]|].
  destruct (xtoi s) as [[n c] ok]. destruct (_ || _); [done|].
  set (ip' := ip ++ _).
  assert (length ip' = length ip + 2)%nat as Hl by (subst ip'; by rewrite length_app).
  assert (length ip' <= 16)%nat as Hip'.
  { apply Z.leb_gt in Efull. destruct Hev as [m Hm]. lia. }
  assert (Nat.Even (length ip')) as Hev' by (destruct Hev as [m Hm]; exists (S m); lia).
  destruct (drop _ s) as [|sep s']; [by apply expand_ellipsis_len|].
  destruct (decide (sep = dot)).
  - destruct (_ || (16 <? len ip + 4)) eqn:E4; [done|]. apply orb_false_iff in E4 as [_ E4].
    destruct (parseIPv4 s) as [ip4|] eqn:E; [|done]. apply parseIPv4_len in E.
    apply expand_ellipsis_len. rewrite length_app, length_drop. blia.
  - destruct (negb _); [done|]. destruct s' as [|c1 s'']; [done|].
    destruct (decide (c1 = colon)); [|by apply IH].
    destruct e; [done|]. destruct s''; [by apply expand_ellipsis_len | by apply IH].
Qed.

Lemma ParseIP_len s ip : ParseIP s = Some ip -> length ip = 16%nat.
Proof.
  assert (forall s e r, parseIPv6_go 8 s [] e = Some r -> length r = 16%nat) as H6.
  { intros s' e r. apply parseIPv6_go_len; [cbn; lia | by exists O]. }
  unfold ParseIP. destruct (ip_family s); [|done]. destruct (decide _); [by apply parseIPv4_len|].
  unfold parseIPv6. destruct s as [|c1 [|c2 s]]; [apply H6..|].
  destruct (decide _); [|apply H6]. destruct s; [by intros [= <-] | apply H6].
Qed.
