(* ===== verification/SocksAddr.v ===== *)
(** SOCKS addresses (m_socks/socks5.go): the wire format of RFC 1928 section 5, reading it from a
    stream, splitting it off a buffer, and its textual form. *)

From Stdlib Require Import ZArith Lia.
From Stdlib Require Import Strings.Byte.
From stdpp Require Import base decidable list numbers strings.
From S2P Require Import Prelude GoIO GoNet.

Definition ATYPIPv4 : byte := x01.
Definition ATYPDomain : byte := x03.
Definition ATYPIPv6 : byte := x04.

Definition IPv4len : Z := 4.
Definition IPv6len : Z := 16.

Definition MaxAddrLen : Z := 1 + 1 + 255 + 2.

(** [Error] values, and the ones RFC 1928 defines. *)
Definition Error_Error (code : byte) : bytes := str "SOCKS error: " ++ Itoa (b2z code).

Definition ErrGeneralFailure : error := SocksError x01.
Definition ErrConnectionNotAllowed : error := SocksError x02.
Definition ErrNetworkUnreachable : error := SocksError x03.
Definition ErrHostUnreachable : error := SocksError x04.
Definition ErrConnectionRefused : error := SocksError x05.
Definition ErrTTLExpired : error := SocksError x06.
Definition ErrCommandNotSupported : error := SocksError x07.
Definition ErrAddressNotSupported : error := SocksError x08.
Definition InfoUDPAssociate : error := SocksError x09.

(** An [Addr] that is nil is [None] where the code tells nil from empty. *)
Definition Addr : Type := bytes.

(** [(int(a[i]) << 8) | int(a[i+1])], in decimal. *)
Definition port_at {S} (i : Z) (a : Addr) : M S bytes :=
  let! hi := index i a in
  let! lo := index (i + 1) a in
  ret (Itoa (Z.lor (Z.shiftl (b2z hi) 8) (b2z lo))).

(** [a.String()], for an address whose capacity is its length. *)
Definition Addr_String {S} (a : Addr) : M S bytes :=
  let! t := index 0 a in
  let! '(host, port) :=
    (if decide (t = ATYPDomain) then
       let! l := index 1 a in
       let! host := slice 2 (2 + b2z l) a in
       let! port := port_at (2 + b2z l) a in
       ret (host, port)
     else if decide (t = ATYPIPv4) then
       let! ip := slice 1 (1 + IPv4len) a in
       let! port := port_at (1 + IPv4len) a in
       ret (IP_String ip, port)
     else if decide (t = ATYPIPv6) then
       let! ip := slice 1 (1 + IPv6len) a in
       let! port := port_at (1 + IPv6len) a in
       ret (IP_String ip, port)
     else ret ([], [])) in
  ret (JoinHostPort host port).

(** [copy(addr[off:], src)]. *)
Definition copy_at (off : Z) (src dst : bytes) : bytes :=
  blit off (take (Z.to_nat (len dst - off)) src) dst.

Definition ParseAddr (s : bytes) : option Addr :=
  match SplitHostPort s with
  | None => None
  | Some (host, port) =>
      let addr :=
        match ParseIP host with
        | Some ip =>
            match To4 ip with
            | Some ip4 => Some (copy_at 1 ip4 (<[0%nat := ATYPIPv4]> (zeros (1 + IPv4len + 2))))
            | None => Some (copy_at 1 ip (<[0%nat := ATYPIPv6]> (zeros (1 + IPv6len + 2))))
            end
        | None =>
            if len host >? 255 then None
            else Some (copy_at 2 host
                   (<[1%nat := z2b (len host)]> (<[0%nat := ATYPDomain]>
                      (zeros (1 + 1 + len host + 2)))))
        end in
      match addr with
      | None => None
      | Some addr =>
          match ParseUint16 port with
          | None => None
          | Some portnum =>
              Some (<[(length addr - 1)%nat := z2b portnum]>
                     (<[(length addr - 2)%nat := z2b (Z.shiftr portnum 8)]> addr))
          end
      end
  end.

Section Read.
Context {R : Type} `{Reader R}.

(** [_, err = io.ReadFull(r, b[lo:hi])]: [b] afterwards and [err]. *)
Definition ReadFull_at (lo hi : Z) (b : bytes) : M R (bytes * option error) :=
  let! p := slice lo hi b in
  let! '(p, _, err) := ReadFull p in
  ret (blit lo p b, err).

(** [readAddr(r, b)]: [b] afterwards, the address, which is a prefix of it, and the error. *)
Definition readAddr (b : bytes) : M R (bytes * option Addr * option error) :=
  if len b <? MaxAddrLen then ret (b, None, Some ErrShortBuffer)
  else
    let! '(b, err) := ReadFull_at 0 1 b in
    match err with
    | Some e => ret (b, None, Some e)
    | None =>
        let! t := index 0 b in
        if decide (t = ATYPDomain) then
          let! '(b, err) := ReadFull_at 1 2 b in
          match err with
          | Some e => ret (b, None, Some e)
          | None =>
              let! l := index 1 b in
              let! '(b, err) := ReadFull_at 2 (2 + b2z l + 2) b in
              let! l := index 1 b in
              let! a := slice 0 (1 + 1 + b2z l + 2) b in
              ret (b, Some a, err)
          end
        else if decide (t = ATYPIPv4) then
          let! '(b, err) := ReadFull_at 1 (1 + IPv4len + 2) b in
          let! a := slice 0 (1 + IPv4len + 2) b in
          ret (b, Some a, err)
        else if decide (t = ATYPIPv6) then
          let! '(b, err) := ReadFull_at 1 (1 + IPv6len + 2) b in
          let! a := slice 0 (1 + IPv6len + 2) b in
          ret (b, Some a, err)
        else ret (b, None, Some ErrAddressNotSupported)
    end.

Definition ReadAddr : M R (option Addr * option error) :=
  let! b := make MaxAddrLen in
  let! '(_, a, err) := readAddr b in
  ret (a, err).

End Read.

Definition SplitAddr (b : bytes) : option Addr :=
  match b with
  | [] => None
  | t :: _ =>
      let finish (addrLen : Z) := if len b <? addrLen then None else Some (sub 0 addrLen b) in
      if decide (t = ATYPDomain) then
        match b with
        | _ :: l :: _ => finish (1 + 1 + b2z l + 2)
        | _ => None
        end
      else if decide (t = ATYPIPv4) then finish (1 + IPv4len + 2)
      else if decide (t = ATYPIPv6) then finish (1 + IPv6len + 2)
      else None
  end.

(** ** The addresses a byte string can hold *)

Inductive target :=
| Domain (name : bytes) (port : Z)
| TargetV4 (a b c d : byte) (port : Z)
| TargetV6 (ip : bytes) (port : Z).

Definition port_bytes (port : Z) : bytes := [z2b (Z.shiftr port 8); z2b port].

(** The wire format. *)
Definition encode_target (t : target) : Addr :=
  match t with
  | Domain name port => ATYPDomain :: z2b (len name) :: name ++ port_bytes port
  | TargetV4 a b c d port => ATYPIPv4 :: [a; b; c; d] ++ port_bytes port
  | TargetV6 ip port => ATYPIPv6 :: ip ++ port_bytes port
  end.

Definition target_port (t : target) : Z :=
  match t with Domain _ port | TargetV4 _ _ _ _ port | TargetV6 _ port => port end.

Definition target_wf (t : target) : Prop :=
  0 <= target_port t <= 65535 /\
  match t with
  | Domain name _ => len name <= 255
  | TargetV4 _ _ _ _ _ => True
  | TargetV6 ip _ => len ip = 16
  end.

(** The host:port text of an address. *)
Definition target_text (t : target) : bytes :=
  match t with
  | Domain name port => JoinHostPort name (Itoa port)
  | TargetV4 a b c d port => JoinHostPort (dotted a b c d) (Itoa port)
  | TargetV6 ip port => JoinHostPort (IP_String ip) (Itoa port)
  end.

(** ** Correctness *)

Lemma shiftr_8 z : Z.shiftr z 8 = z / 256.
Proof. by rewrite Z.shiftr_div_pow2 by lia. Qed.

Lemma port_bytes_of hi lo : port_bytes (b2z hi * 256 + b2z lo) = [hi; lo].
Proof.
  pose proof (b2z_range hi). pose proof (b2z_range lo). unfold port_bytes. rewrite shiftr_8.
  f_equal; [|f_equal].
  - rewrite Z.div_add_l, (Z.div_small (b2z lo)), Z.add_0_r by lia. apply z2b_b2z.
  - rewrite <- (z2b_b2z lo) at 2. apply z2b_mod. rewrite Z.add_comm, Z_mod_plus_full. done.
Qed.

Lemma port_value port : 0 <= port <= 65535 ->
  Z.lor (Z.shiftl (b2z (z2b (Z.shiftr port 8))) 8) (b2z (z2b port)) = port.
Proof.
  intros Hp. rewrite !b2z_z2b, shiftr_8. rewrite (Z.mod_small (port / 256)).
  2:{ split; [apply Z.div_pos; lia | apply Z.div_lt_upper_bound; lia]. }
  pose proof (Z.add_lor_land (Z.shiftl (port / 256) 8) (port mod 256)) as Hadd.
  assert (Z.land (Z.shiftl (port / 256) 8) (port mod 256) = 0) as Hland.
  { apply Z.bits_inj_0. intros i. rewrite Z.land_spec. destruct (Z.ltb_spec i 8) as [Hi|Hi].
    - rewrite Z.shiftl_spec_low by lia. done.
    - change 256 with (2 ^ 8). rewrite Z.mod_pow2_bits_high by lia. by rewrite andb_false_r. }
  rewrite Hland, Z.shiftl_mul_pow2 in Hadd by lia. rewrite Z.shiftl_mul_pow2 by lia.
  pose proof (Z.div_mod port 256). lia.
Qed.

Lemma split_last2 (l : bytes) n : len l = n + 2 -> 0 <= n ->
  exists x hi lo, l = x ++ [hi; lo] /\ len x = n.
Proof.
  intros Hl Hn. pose proof (take_drop (Z.to_nat n) l) as Htd.
  assert (length (drop (Z.to_nat n) l) = 2%nat) as Hd by (rewrite length_drop; lia).
  destruct (drop (Z.to_nat n) l) as [|hi [|lo [|]]]; try discriminate.
  exists (take (Z.to_nat n) l), hi, lo. split; [done|]. rewrite length_take. lia.
Qed.

Lemma name_len (name : bytes) : len name <= 255 -> b2z (z2b (len name)) = len name.
Proof. intros. rewrite b2z_z2b. apply Z.mod_small. lia. Qed.

(** The length of a wire address, from its first bytes. *)
Lemma encode_target_len t : target_wf t ->
  len (encode_target t) =
    match t with
    | Domain name _ => 1 + 1 + len name + 2
    | TargetV4 _ _ _ _ _ => 1 + IPv4len + 2
    | TargetV6 _ _ => 1 + IPv6len + 2
    end.
Proof.
  intros [_ Hwf]. destruct t; cbn [encode_target]; rewrite ?length_cons, ?length_app;
    cbn [List.length port_bytes]; unfold IPv4len, IPv6len; lia.
Qed.

Lemma encode_target_fits t : target_wf t -> len (encode_target t) <= MaxAddrLen.
Proof.
  intros Hwf. rewrite encode_target_len by done. unfold MaxAddrLen, IPv4len, IPv6len.
  destruct Hwf as [_ Hwf]. destruct t; lia.
Qed.

Lemma take_encoded t rest n : n = len (encode_target t) ->
  sub 0 n (encode_target t ++ rest) = encode_target t.
Proof. intros ->. rewrite sub_0_take, Nat2Z.id, take_app_length. done. Qed.

Lemma SplitAddr_encode t rest : target_wf t ->
  SplitAddr (encode_target t ++ rest) = Some (encode_target t).
Proof.
  intros Hwf. pose proof (encode_target_len t Hwf) as Hl.
  assert (forall n, n = len (encode_target t) ->
    (if len (encode_target t ++ rest) <? n then None
     else Some (sub 0 n (encode_target t ++ rest))) = Some (encode_target t)) as Hfin.
  { intros n Hn. rewrite take_encoded by done. destruct (_ <? _) eqn:E; [|done].
    rewrite len_app in E. clear Hl. exfalso. blia. }
  destruct Hwf as [Hp Hwf]. destruct t as [name port|a b c d port|ip port].
  - specialize (Hfin (1 + 1 + b2z (z2b (len name)) + 2)). rewrite name_len in Hfin by done.
    specialize (Hfin (eq_sym Hl)). cbn [encode_target app SplitAddr] in *.
    rewrite decide_True, name_len by done. exact Hfin.
  - exact (Hfin _ (eq_sym Hl)).
  - exact (Hfin _ (eq_sym Hl)).
Qed.

Lemma SplitAddr_inv b a : SplitAddr b = Some a ->
  exists t rest, target_wf t /\ a = encode_target t /\ b = a ++ rest.
Proof.
  intros Hs. destruct b as [|ty b]; [done|].
  assert (forall n m ip rest, n = 1 + m + 2 -> 0 <= m ->
    (if len (ty :: b) <? n then None else Some (sub 0 n (ty :: b))) = Some a ->
    ip = take (Z.to_nat m) b -> rest = drop (Z.to_nat (m + 2)) b ->
    exists hi lo, a = ty :: ip ++ [hi; lo] /\ ty :: b = a ++ rest /\ len ip = m) as Hfin.
  { intros n m ip rest -> Hm Hif -> ->. destruct (_ <? _) eqn:E; [done|]. injection Hif as <-.
    apply Z.ltb_ge in E. rewrite length_cons in E. rewrite sub_0_take.
    replace (Z.to_nat (1 + m + 2)) with (S (Z.to_nat (m + 2))) by lia. cbn [take].
    destruct (split_last2 (take (Z.to_nat (m + 2)) b) m) as (x & hi & lo & Hx & Hxl);
      [rewrite length_take; lia | lia |].
    assert (take (Z.to_nat m) b = x) as Ht.
    { rewrite <- (take_drop (Z.to_nat (m + 2)) b), Hx, <- app_assoc.
      rewrite take_app_le by lia. apply take_ge. lia. }
    exists hi, lo. rewrite Ht, Hx. split; [done|]. split; [|done].
    cbn [app]. rewrite <- Hx, take_drop. done. }
  assert (forall hi lo, 0 <= b2z hi * 256 + b2z lo <= 65535) as Hport.
  { intros hi lo. pose proof (b2z_range hi). pose proof (b2z_range lo). lia. }
  unfold SplitAddr in Hs. destruct (decide (ty = ATYPDomain)) as [->|].
  - destruct b as [|l b]; [done|]. pose proof (b2z_range l).
    specialize (Hfin (1 + 1 + b2z l + 2) (1 + b2z l) _ _ ltac:(lia) ltac:(lia) Hs eq_refl eq_refl).
    destruct Hfin as (hi & lo & -> & Hb & Hl).
    replace (Z.to_nat (1 + b2z l)) with (S (Z.to_nat (b2z l))) in * by lia. cbn [take app] in *.
    set (name := take (Z.to_nat (b2z l)) b) in *. rewrite length_cons in Hl.
    assert (len name = b2z l) as Hn by lia.
    exists (Domain name (b2z hi * 256 + b2z lo)). eexists. split.
    { split; [apply Hport | cbn; lia]. }
    split; [|exact Hb]. cbn [encode_target]. by rewrite port_bytes_of, Hn, z2b_b2z.
  - destruct (decide (ty = ATYPIPv4)) as [->|].
    + destruct (Hfin (1 + IPv4len + 2) 4 _ _ ltac:(unfold IPv4len; lia) ltac:(lia) Hs eq_refl eq_refl)
        as (hi & lo & -> & Hb & Hl).
      destruct (take (Z.to_nat 4) b) as [|i1 [|i2 [|i3 [|i4 [|]]]]]; try (cbn in Hl; lia).
      exists (TargetV4 i1 i2 i3 i4 (b2z hi * 256 + b2z lo)). eexists.
      split; [split; [apply Hport | done]|]. split; [|exact Hb].
      cbn [encode_target]. by rewrite port_bytes_of.
    + destruct (decide (ty = ATYPIPv6)) as [->|]; [|done].
      destruct (Hfin (1 + IPv6len + 2) 16 _ _ ltac:(unfold IPv6len; lia) ltac:(lia) Hs eq_refl eq_refl)
        as (hi & lo & -> & Hb & Hl).
      exists (TargetV6 (take (Z.to_nat 16) b) (b2z hi * 256 + b2z lo)). eexists.
      split; [split; [apply Hport | exact Hl]|]. split; [|exact Hb].
      cbn [encode_target]. by rewrite port_bytes_of.
Qed.

(** [SplitAddr] is the parser of RFC 1928 addresses: it finds an address exactly when the buffer
    starts with one, and returns that prefix. *)
Theorem SplitAddr_parses b a :
  SplitAddr b = Some a <->
  exists t rest, target_wf t /\ a = encode_target t /\ b = a ++ rest.
Proof.
  split; [apply SplitAddr_inv|]. intros (t & rest & Hwf & -> & ->). by apply SplitAddr_encode.
Qed.

(** The error of an address that does not arrive. *)
Definition addr_error (bs : bytes) (e : error) : error :=
  match bs with
  | [] => e
  | t :: more =>
      if decide (t = ATYPDomain) then
        match more with [] => e | _ :: more' => short_error more' e end
      else if decide (t = ATYPIPv4 \/ t = ATYPIPv6) then short_error more e
      else ErrAddressNotSupported
  end.

Section ReadProofs.
Context {R : Type} `{Reader R}.

(** The first [n] bytes of the stream [bs] are in place in [b]. *)
Definition in_place (n : Z) (bs b : bytes) : Prop := sub 0 n b = sub 0 n bs.

Lemma in_place_lookup n bs b i : in_place n bs b -> Z.of_nat i < n -> b !! i = bs !! i.
Proof.
  intros Hp Hi. pose proof (f_equal (fun l => l !! i) Hp) as Heq. cbn beta in Heq.
  rewrite !sub_lookup in Heq by lia. rewrite !decide_True in Heq by lia. exact Heq.
Qed.

Lemma ReadFull_at_run F k r bs e lo hi b f (Q : bytes * option error -> R -> Prop) :
  delivers F k r (drop (Z.to_nat lo) bs) e -> (F <= f)%nat -> (k < f)%nat ->
  0 <= lo <= hi -> hi <= len b -> in_place lo bs b -> lo <= len bs ->
  (hi <= len bs -> forall b' r', length b' = length b -> in_place hi bs b' ->
     delivers F k r' (drop (Z.to_nat hi) bs) e -> Q (b', None) r') ->
  (len bs < hi -> forall b' r', length b' = length b -> in_place lo bs b' ->
     Q (b', Some (short_error (drop (Z.to_nat lo) bs) e)) r') ->
  wp (ReadFull_at lo hi b) f r Q.
Proof.
  intros Hd HF Hk Hlo Hhi Hp Hlb Hok Hbad. unfold ReadFull_at. do 3 wp_step.
  pose proof (len_sub lo hi b Hlo Hhi) as Hsub.
  eapply wp_mono; [eapply ReadFull_delivers; eassumption|].
  intros [[p n] err] r' [Hlp Hres]. wp_step.
  assert (length (blit lo p b) = length b) as Hl by (apply Nat2Z.inj, len_blit; lia).
  assert (sub 0 lo (blit lo p b) = sub 0 lo bs) as Hpre
    by (rewrite blit_before by lia; exact Hp).
  rewrite length_drop in Hres. destruct (decide _) as [Hle|Hgt].
  - destruct Hres as (-> & -> & -> & Hd').
    rewrite drop_drop in Hd'.
    replace (Z.to_nat lo + length (sub lo hi b))%nat with (Z.to_nat hi) in Hd' by lia.
    apply Hok; [lia | exact Hl | | exact Hd'].
    unfold in_place. rewrite (sub_split 0 lo hi) by lia. rewrite Hpre.
    rewrite (sub_split 0 lo hi bs) by lia. f_equal.
    replace hi with (lo + len (take (length (sub lo hi b)) (drop (Z.to_nat lo) bs))) at 1
      by (rewrite length_take, length_drop; lia).
    rewrite blit_at by (rewrite ?length_take, ?length_drop; lia).
    unfold sub at 2. f_equal. lia.
  - destruct Hres as (-> & -> & _ & _). apply Hbad; [lia | exact Hl | exact Hpre].
Qed.

(** The part of an address at [lo] up to [hi], which completes it. *)
Lemma complete_run F k bs e f lo hi (b b1 : bytes) (r1 : R) (Q : bytes * option error -> R -> Prop) :
  (F <= f)%nat -> (k < f)%nat -> length b1 = length b -> in_place lo bs b1 ->
  delivers F k r1 (drop (Z.to_nat lo) bs) e -> 0 <= lo <= hi -> hi <= len b -> lo <= len bs ->
  (hi <= len bs -> forall b2 r2, length b2 = length b ->
     in_place hi bs b2 -> sub 0 hi b2 = sub 0 hi bs ->
     delivers F k r2 (drop (length (sub 0 hi bs)) bs) e -> Q (b2, None) r2) ->
  (len bs < hi -> forall b2 r2, length b2 = length b -> in_place lo bs b2 ->
     Q (b2, Some (short_error (drop (Z.to_nat lo) bs) e)) r2) ->
  wp (ReadFull_at lo hi b1) f r1 Q.
Proof.
  intros HF Hk Hl Hp Hd Hlo Hhi Hlb Hok Hbad.
  apply (ReadFull_at_run F k r1 bs e); [done | done | done | lia | lia | done | done | |].
  - intros Hle b2 r2 Hl2 Hp2 Hd2. apply Hok; [lia | lia | done | done |].
    pose proof (len_sub 0 hi bs ltac:(lia) Hle) as Hs.
    replace (length (sub 0 hi bs)) with (Z.to_nat hi) by lia. exact Hd2.
  - intros Hlt b2 r2 Hl2 Hp2. apply Hbad; [lia | lia | done].
Qed.

(** An IP address of [m] bytes and the port. *)
Lemma ip_run F k t bs e f m (b b1 : bytes) (r1 : R) :
  (F <= f)%nat -> (k < f)%nat -> MaxAddrLen <= len b -> length b1 = length b -> in_place 1 (t :: bs) b1 ->
  delivers F k r1 (drop (Z.to_nat 1) (t :: bs)) e -> 0 <= m <= 20 ->
  wp (let! '(b, err) := ReadFull_at 1 (1 + m + 2) b1 in
      let! a := slice 0 (1 + m + 2) b in ret (b, Some a, err)) f r1
    (fun '(b', a, err) r' => length b' = length b /\
      match (if len (t :: bs) <? 1 + m + 2 then None else Some (sub 0 (1 + m + 2) (t :: bs))) with
      | Some x => a = Some x /\ err = None /\ delivers F k r' (drop (length x) (t :: bs)) e
      | None => err = Some (short_error bs e)
      end).
Proof.
  unfold MaxAddrLen. intros HF Hk Hmax Hl1 Hp1 Hd1 Hm. assert (1 <= len (t :: bs)) by (cbn; lia).
  wp_step. apply (complete_run F k (t :: bs) e f _ _ b); [done | done | done | done | exact Hd1 | lia | lia | lia | |].
  - intros Hle b3 r3 Hl3 Hp3 Hs3 Hd3. do 3 wp_step. split; [done|].
    rewrite (proj2 (Z.ltb_ge _ _)) by exact Hle. rewrite Hs3. done.
  - intros Hlt b3 r3 Hl3 Hp3. do 3 wp_step. split; [done|].
    rewrite (proj2 (Z.ltb_lt _ _)) by exact Hlt. done.
Qed.

Lemma readAddr_run F k r bs e b f :
  delivers F k r bs e -> (F <= f)%nat -> (k < f)%nat -> MaxAddrLen <= len b ->
  wp (readAddr b) f r (fun '(b', a, err) r' => length b' = length b /\
    match SplitAddr bs with
    | Some x => a = Some x /\ err = None /\ delivers F k r' (drop (length x) bs) e
    | None => err = Some (addr_error bs e)
    end).
Proof.
  intros Hd HF Hk Hmax. unfold MaxAddrLen in Hmax. unfold readAddr.
  rewrite (proj2 (Z.ltb_ge (len b) MaxAddrLen)) by (unfold MaxAddrLen; lia).
  wp_step. apply (ReadFull_at_run F k r bs e); [exact Hd | done | done | lia | lia | done | lia | |].
  2:{ intros Hlt b1 r1 Hl1 _. wp_step. split; [done|].
      destruct bs; [done | rewrite length_cons in Hlt; lia]. }
  intros Hle b1 r1 Hl1 Hp1 Hd1. wp_step.
  destruct bs as [|t bs]; [cbn in Hle; lia|].
  pose proof (in_place_lookup 1 _ _ 0%nat Hp1 ltac:(lia)) as Ht. cbn in Ht.
  eapply wp_index; [lia | exact Ht |]. lazy beta iota.
  unfold SplitAddr, addr_error.
  destruct (decide (t = ATYPDomain)).
  { wp_step. apply (complete_run F k (t :: bs) e f _ _ b); [done | done | done | done | exact Hd1 | lia | lia | lia | |].
    2:{ intros Hlt b2 r2 Hl2 _. wp_step. split; [done|].
        destruct bs; [done | rewrite !length_cons in Hlt; lia]. }
    intros Hle2 b2 r2 Hl2 Hp2 _ Hd2. wp_step.
    destruct bs as [|l bs]; [cbn in Hle2; lia|]. pose proof (b2z_range l) as Hlr.
    assert (forall h b3, 2 <= h -> in_place h (t :: l :: bs) b3 -> b3 !! Z.to_nat 1 = Some l) as Hl.
    { intros h b3 Hh Hp. by apply (in_place_lookup h _ _ 1%nat Hp); lia. }
    eapply wp_index; [lia | exact (Hl 2 b2 ltac:(lia) Hp2) |]. wp_step.
    apply (complete_run F k (t :: l :: bs) e f _ _ b); [done | done | done | done | exact Hd2 | lia | lia | lia | |].
    - intros Hle3 b3 r3 Hl3 Hp3 Hs3 Hd3. wp_step.
      eapply wp_index; [lia | refine (Hl _ b3 _ Hp3); lia |]. do 3 wp_step.
      split; [done|]. replace (1 + 1 + b2z l + 2) with (2 + b2z l + 2) by lia.
      rewrite (proj2 (Z.ltb_ge _ _)) by exact Hle3. rewrite Hs3. done.
    - intros Hlt3 b3 r3 Hl3 Hp3. wp_step.
      eapply wp_index; [lia | refine (Hl _ b3 _ Hp3); lia |]. do 3 wp_step.
      split; [done|]. replace (1 + 1 + b2z l + 2) with (2 + b2z l + 2) by lia.
      rewrite (proj2 (Z.ltb_lt _ _)) by exact Hlt3. done. }
  destruct (decide (t = ATYPIPv4)).
  { rewrite decide_True by auto. by apply ip_run; unfold IPv4len. }
  destruct (decide (t = ATYPIPv6)).
  { rewrite decide_True by auto. by apply ip_run; unfold IPv6len. }
  rewrite decide_False by tauto. wp_step. done.
Qed.

Lemma readAddr_keeps F (P : R -> Prop) b :
  (forall p, p <> [] -> keeps_from F P (read p)) -> keeps_from F P (readAddr b).
Proof. intros Hr. unfold readAddr, ReadFull_at. keeping; by apply ReadFull_keeps. Qed.

Lemma ReadAddr_keeps F (P : R -> Prop) : (forall p, p <> [] -> keeps_from F P (read p)) -> keeps_from F P ReadAddr.
Proof. intros Hr. unfold ReadAddr. keeping. by apply readAddr_keeps. Qed.

Lemma ReadAddr_run F k r bs e f :
  delivers F k r bs e -> (F <= f)%nat -> (k < f)%nat ->
  wp ReadAddr f r (fun '(a, err) r' =>
    match SplitAddr bs with
    | Some x => a = Some x /\ err = None /\ delivers F k r' (drop (length x) bs) e
    | None => err = Some (addr_error bs e)
    end).
Proof.
  intros Hd HF Hk. unfold ReadAddr. wp_step. wp_step; [done|]. wp_step.
  eapply wp_mono; [eapply readAddr_run; try eassumption; by rewrite len_zeros|].
  intros [[b a] err] r' [_ Hres]. wp_step. exact Hres.
Qed.

(** C12. [ReadAddr] reads exactly an address: from a stream that starts with one it returns it and
    leaves the stream right after it, whatever the sizes of the reads; from any other stream it
    returns an error, [ErrAddressNotSupported] for an unknown type and the stream's end for
    a truncated address. It never panics. *)
Theorem ReadAddr_reads F k r bs e f :
  delivers F k r bs e -> (F <= f)%nat -> (k < f)%nat ->
  wp ReadAddr f r (fun '(a, err) r' =>
    match SplitAddr bs with
    | Some x => a = Some x /\ err = None /\ delivers F k r' (drop (length x) bs) e
    | None => err = Some (addr_error bs e)
    end).
Proof. exact (ReadAddr_run F k r bs e f). Qed.

End ReadProofs.

(** ** The textual form *)

Lemma index_at {S} i c (l : bytes) f (s : S) :
  0 <= i -> l !! Z.to_nat i = Some c -> index i l f s = Ret c s.
Proof. intros Hi Hl. unfold index. rewrite (proj2 (Z.leb_le _ _) Hi), Hl. done. Qed.

Lemma port_at_encoded {S} pre port f (s : S) : 0 <= port <= 65535 ->
  wp (port_at (len pre) (pre ++ port_bytes port)) f s (fun p s' => p = Itoa port /\ s' = s).
Proof.
  intros Hp. unfold port_at. wp_step.
  eapply wp_index; [lia | by rewrite lookup_app_r, Nat2Z.id, Nat.sub_diag by lia |].
  wp_step. eapply wp_index; [lia | |].
  { rewrite lookup_app_r by lia. by replace (Z.to_nat (len pre + 1) - length pre)%nat with 1%nat by lia. }
  wp_step. by rewrite port_value.
Qed.

Lemma sub_middle {A} (pre x post : list A) lo hi :
  lo = len pre -> hi = lo + len x -> sub lo hi (pre ++ x ++ post) = x.
Proof.
  intros -> ->. unfold sub. rewrite Nat2Z.id, drop_app_length.
  replace (Z.to_nat (len pre + len x - len pre)) with (length x) by lia. apply take_app_length.
Qed.

(** The host part and the port of each type. *)
Lemma host_port_encoded {S} pre host port g n m f (s : S) (Q : bytes * bytes -> S -> Prop) :
  0 <= port <= 65535 -> n = len pre -> m = n + len host -> Q (g host, Itoa port) s ->
  wp (let! h := slice n m (pre ++ host ++ port_bytes port) in
      let! p := port_at m (pre ++ host ++ port_bytes port) in ret (g h, p)) f s Q.
Proof.
  intros Hp -> -> HQ. wp_step. apply wp_slice; [lia | rewrite !len_app; lia |].
  rewrite sub_middle by lia. wp_step. rewrite app_assoc, <- len_app.
  eapply wp_mono; [by apply port_at_encoded|]. intros ? ? [-> ->]. wp_step. exact HQ.
Qed.

Lemma Addr_String_run {S} t f (s : S) : target_wf t ->
  wp (Addr_String (encode_target t)) f s (fun x s' => x = target_text t /\ s' = s).
Proof.
  intros [Hp Hwf]. destruct t as [name port|a b c d port|ip port]; unfold Addr_String; wp_step;
    (eapply wp_index; [lia | reflexivity |]); cbn [encode_target target_port] in *; wp_step.
  - rewrite decide_True by done. wp_step. eapply wp_index; [lia | reflexivity |].
    lazy beta. rewrite name_len by done.
    apply (host_port_encoded [_; _] name port (fun x => x)); [done | done | done |]. wp_step. done.
  - rewrite decide_False, decide_True by done.
    apply (host_port_encoded [_] [a; b; c; d] port IP_String); [done | done | done |]. wp_step. done.
  - rewrite !decide_False, decide_True by done.
    apply (host_port_encoded [_] ip port IP_String); [done | done | by rewrite Hwf |]. wp_step. done.
Qed.

Lemma set_port (x : bytes) p q hi lo :
  <[(length (x ++ [p; q]) - 1)%nat := lo]> (<[(length (x ++ [p; q]) - 2)%nat := hi]> (x ++ [p; q]))
  = x ++ [hi; lo].
Proof.
  rewrite length_app. cbn [List.length].
  replace (length x + 2 - 2)%nat with (length x + 0)%nat by lia.
  replace (length x + 2 - 1)%nat with (length x + 1)%nat by lia.
  by rewrite !insert_app_r.
Qed.

(** The three buffers [ParseAddr] fills, before the port. *)
Lemma copy_at_host ty l pre host :
  pre = [ty; l] -> copy_at 2 host (pre ++ zeros (len host + 2)) = pre ++ host ++ [x00; x00].
Proof.
  intros ->. unfold copy_at, blit. rewrite len_app, len_zeros by lia. cbn [List.length].
  rewrite (take_ge host) by lia. change (Z.to_nat 2) with 2%nat. cbn [app take]. do 2 f_equal.
  unfold zeros. rewrite Z2Nat.inj_add, Nat2Z.id by lia. rewrite replicate_add.
  cbn [Nat.add drop]. rewrite drop_app_ge by (rewrite length_replicate; lia).
  by rewrite length_replicate, Nat.sub_diag.
Qed.

Lemma zeros_succ n : 0 <= n -> zeros (1 + n) = x00 :: zeros n.
Proof. intros. unfold zeros. by replace (Z.to_nat (1 + n)) with (S (Z.to_nat n)) by lia. Qed.

Lemma domain_buffer host :
  copy_at 2 host (<[1%nat := z2b (len host)]> (<[0%nat := ATYPDomain]> (zeros (1 + 1 + len host + 2))))
  = [ATYPDomain; z2b (len host)] ++ host ++ [x00; x00].
Proof.
  replace (1 + 1 + len host + 2) with (1 + (1 + (len host + 2))) by lia.
  rewrite !zeros_succ by lia. exact (copy_at_host _ _ _ host eq_refl).
Qed.

Lemma ipv4_buffer (ip : bytes) : length ip = 4%nat ->
  copy_at 1 ip (<[0%nat := ATYPIPv4]> (zeros (1 + IPv4len + 2)))
  = ([ATYPIPv4] ++ ip) ++ [x00; x00].
Proof. destruct ip as [|? [|? [|? [|? [|]]]]]; try discriminate. reflexivity. Qed.

Lemma ipv6_buffer (ip : bytes) : length ip = 16%nat ->
  copy_at 1 ip (<[0%nat := ATYPIPv6]> (zeros (1 + IPv6len + 2)))
  = ([ATYPIPv6] ++ ip) ++ [x00; x00].
Proof.
  intros Hl. unfold copy_at, blit. change (Z.to_nat 1) with 1%nat.
  change (take 1 (<[0%nat := ATYPIPv6]> (zeros (1 + IPv6len + 2)))) with [ATYPIPv6].
  rewrite (take_ge ip) by (rewrite Hl; vm_compute; lia). rewrite Hl, <- app_assoc. reflexivity.
Qed.

Lemma ParseAddr_split s host port : SplitHostPort s = Some (host, port) ->
  ParseAddr s =
    match ParseUint16 port with
    | None => None
    | Some p =>
        match ParseIP host with
        | Some ip =>
            match To4 ip with
            | Some ip4 => if (length ip4 =? 4)%nat then Some (ATYPIPv4 :: ip4 ++ port_bytes p) else ParseAddr s
            | None => if (length ip =? 16)%nat then Some (ATYPIPv6 :: ip ++ port_bytes p) else ParseAddr s
            end
        | None => if len host >? 255 then None
                  else Some (ATYPDomain :: z2b (len host) :: host ++ port_bytes p)
        end
    end.
Proof.
  intros Hs. unfold ParseAddr. rewrite Hs.
  destruct (ParseIP host) as [ip|]; [destruct (To4 ip) as [ip4|]|].
  - destruct (Nat.eqb_spec (length ip4) 4); [|by destruct (ParseUint16 port)].
    destruct (ParseUint16 port); [|done].
    rewrite ipv4_buffer, set_port, <- app_assoc by done. done.
  - destruct (Nat.eqb_spec (length ip) 16); [|by destruct (ParseUint16 port)].
    destruct (ParseUint16 port); [|done].
    rewrite ipv6_buffer, set_port, <- app_assoc by done. done.
  - destruct (len host >? 255); [by destruct (ParseUint16 port)|].
    destruct (ParseUint16 port); [|done].
    rewrite domain_buffer, app_assoc, set_port, <- app_assoc by done. done.
Qed.

Lemma ParseUint16_range s p : ParseUint16 s = Some p -> 0 <= p <= 65535.
Proof.
  unfold ParseUint16. destruct (_ && _) eqn:E; [|done]. intros [= <-].
  rewrite !andb_true_iff in E. destruct E as [[_ Hd] Hle].
  pose proof (fold_push_mono s 0 ltac:(lia) Hd). unfold dec_value in *. blia.
Qed.

Lemma dotted_safe a b c d x : is_digit x = false -> x <> dot -> ~ In x (dotted a b c d).
Proof.
  intros Hx Hd. assert (forall z : byte, ~ In x (Itoa (b2z z))) as Ho.
  { intros z. pose proof (b2z_range z).
    apply digits_not_special; [apply Itoa_all; unfold int_ok; lia | done]. }
  unfold dotted. rewrite !in_app_iff. cbn [In]. rewrite !in_app_iff. cbn [In].
  rewrite !in_app_iff. cbn [In]. intuition (try congruence; by eapply Ho).
Qed.

(** A host name that [ParseAddr] keeps as a name. *)
Definition plain_name (name : bytes) : Prop :=
  ~ In lbracket name /\ ~ In rbracket name /\ ParseIP name = None.

(** C28. Formatting an address never panics and gives its host:port text, and [ParseAddr] reads the
    text of an IPv4 address, or of a name without brackets that is not an IP address, colons
    or not, back to the same wire address. *)
Theorem ParseAddr_String t {S} f (s : S) :
  target_wf t ->
  wp (Addr_String (encode_target t)) f s (fun text s' =>
    s' = s /\ text = target_text t /\
    match t with
    | TargetV4 _ _ _ _ _ => ParseAddr text = Some (encode_target t)
    | Domain name _ => plain_name name -> ParseAddr text = Some (encode_target t)
    | TargetV6 _ _ => True
    end).
Proof.
  intros Hwf. eapply wp_mono; [by apply Addr_String_run|]. intros text s' [-> ->].
  do 2 (split; [done|]). destruct Hwf as [Hp Hwf].
  destruct t as [name port|a b c d port|ip port]; cbn [target_text target_port] in *; [|clear Hwf|done].
  - intros (Hl & Hr & Hip).
    rewrite (ParseAddr_split _ name (Itoa port)).
    2:{ apply SplitHostPort_JoinHostPort; [done | done |]. apply Itoa_all. unfold int_ok. lia. }
    rewrite ParseUint16_Itoa, Hip by done. destruct (len name >? 255) eqn:E; [exfalso; lia | done].
  - rewrite (ParseAddr_split _ (dotted a b c d) (Itoa port)).
    2:{ apply SplitHostPort_JoinHostPort; [by apply dotted_safe | by apply dotted_safe |].
        apply Itoa_all. unfold int_ok. lia. }
    rewrite ParseUint16_Itoa, ParseIP_dotted by done. reflexivity.
Qed.

(** C32. Whatever the text, [ParseAddr] returns nil or a well-formed wire address, which [SplitAddr]
    and so [ReadAddr] accept as a whole. *)
Theorem ParseAddr_wf s a :
  ParseAddr s = Some a -> SplitAddr a = Some a.
Proof.
  destruct (SplitHostPort s) as [[host port]|] eqn:Hs; [|unfold ParseAddr; by rewrite Hs].
  rewrite (ParseAddr_split _ _ _ Hs).
  destruct (ParseUint16 port) as [p|] eqn:Hp; [|done]. apply ParseUint16_range in Hp.
  assert (forall t, target_wf t -> SplitAddr (encode_target t) = Some (encode_target t)) as Henc.
  { intros t Ht. rewrite <- (app_nil_r (encode_target t)) at 1. by apply SplitAddr_encode. }
  destruct (ParseIP host) as [ip|] eqn:Hip.
  - pose proof (ParseIP_len _ _ Hip) as Hl. destruct (To4 ip) as [ip4|] eqn:H4.
    + pose proof (To4_len _ _ H4) as Hl4. rewrite Hl4. cbn [Nat.eqb]. intros [= <-].
      destruct ip4 as [|i1 [|i2 [|i3 [|i4 [|]]]]]; try discriminate.
      exact (Henc (TargetV4 i1 i2 i3 i4 p) (conj Hp I)).
    + rewrite Hl. cbn [Nat.eqb]. intros [= <-]. apply (Henc (TargetV6 ip p)). split; [done|].
      unfold len. by rewrite Hl.
  - destruct (len host >? 255) eqn:E; [done|]. intros [= <-].
    apply (Henc (Domain host p)). split; [done|]. cbn. lia.
Qed.

(** ** Witnesses *)

Definition example_target : target := Domain (str "example.org") 443.

Lemma ReadAddr_reads_witness :
  let c := {| conn_in := [[x03]; [x0b]; str "exam"; str "ple.org"; [x01; xbb]; str "GET /"];
              conn_fin := EOF; conn_out := []; conn_room := None |} in
  wp ReadAddr 99 c (fun '(a, err) c' =>
    match SplitAddr (concat (conn_in c)) with
    | Some x => a = Some x /\ err = None /\
                delivers 0 (conn_steps c) c' (drop (length x) (concat (conn_in c))) EOF
    | None => err = Some (addr_error (concat (conn_in c)) EOF)
    end).
Proof.
  intros c. apply (ReadAddr_reads 0 (conn_steps c) c (concat (conn_in c)) EOF 99 (conn_delivers c));
    [lia|]. apply Nat.ltb_lt. vm_compute. reflexivity.
Defined.

Lemma ParseAddr_String_witness :
  target_wf example_target /\
  wp (Addr_String (encode_target example_target)) 0 tt (fun text s' =>
    s' = tt /\ text = target_text example_target /\
    match example_target with
    | TargetV4 _ _ _ _ _ => ParseAddr text = Some (encode_target example_target)
    | Domain name _ => plain_name name -> ParseAddr text = Some (encode_target example_target)
    | TargetV6 _ _ => True
    end).
Proof.
  assert (target_wf example_target) as Hwf by (vm_compute; intuition discriminate).
  split; [exact Hwf | exact (ParseAddr_String example_target 0 tt Hwf)].
Defined.

Lemma ParseAddr_wf_witness :
  let a := encode_target (TargetV4 xc0 xa8 x00 x01 8080) in
  ParseAddr (str "192.168.0.1:8080") = Some a /\ SplitAddr a = Some a.
Proof.
  intros a. assert (ParseAddr (str "192.168.0.1:8080") = Some a) as Ha by (vm_compute; reflexivity).
  split; [exact Ha | exact (ParseAddr_wf _ _ Ha)].
Defined.
