(* ===== verification/SocksHandshake.v ===== *)
(** The SOCKS5 negotiation a local proxy runs with its client ([HandShake] of m_socks/socks5.go),
    and the reference parser of a client's side of it. *)

From Stdlib Require Import ZArith Lia.
From Stdlib Require Import Strings.Byte.
From stdpp Require Import base decidable list numbers strings.
From S2P Require Import Prelude GoIO GoNet SocksAddr.

Definition Ver : byte := x05.
Definition MethodNone : byte := x00.
Definition CmdConnect : byte := x01.
Definition CmdBind : byte := x02.
Definition CmdUDP : byte := x03.

Section HandShake.
Context {C : Type} `{Duplex C}.
(** The package variable of that name, false unless a program sets it. *)
Variable UDPEnabled : bool.
(** [rw.(net.Conn).LocalAddr().String()], if [rw] is a [net.Conn]. *)
Variable LocalAddr : option bytes.

Definition HandShake : M C (option Addr * option error) :=
  let! buf := make MaxAddrLen in
  let! '(buf, err) := ReadFull_at 0 2 buf in
  match err with Some e => ret (None, Some e) | None =>
  let! nmethods := index 1 buf in
  let! '(buf, err) := ReadFull_at 0 (b2z nmethods) buf in
  match err with Some e => ret (None, Some e) | None =>
  let! '(_, err) := write [x05; x00] in
  match err with Some e => ret (None, Some e) | None =>
  let! '(buf, err) := ReadFull_at 0 3 buf in
  match err with Some e => ret (None, Some e) | None =>
  let! cmd := index 1 buf in
  let! '(buf, addr, err) := readAddr buf in
  match err with Some e => ret (None, Some e) | None =>
  if decide (cmd = CmdConnect) then
    let! '(_, err) := write [x05; x00; x00; x01; x00; x00; x00; x00; x00; x00] in
    ret (addr, err)
  else if decide (cmd = CmdUDP) then
    if negb UDPEnabled then ret (None, Some ErrCommandNotSupported)
    else
      match LocalAddr with
      | None => fail (PanicValue "interface conversion: io.ReadWriter is not net.Conn")
      | Some la =>
          let listenAddr := ParseAddr la in
          let! '(_, err) := write ([x05; x00; x00] ++ default [] listenAddr) in
          match err with
          | Some _ => ret (None, Some ErrCommandNotSupported)
          | None => ret (addr, Some InfoUDPAssociate)
          end
      end
  else ret (None, Some ErrCommandNotSupported)
  end end end end end.

End HandShake.

(** ** The reference parser

    What a client's bytes [bs], ended by [e], ask for: the result of the negotiation, what is sent
    back, and the bytes left for the relay. *)

Definition method_reply : bytes := [x05; x00].
Definition connect_reply : bytes := [x05; x00; x00; x01; x00; x00; x00; x00; x00; x00].

Record outcome_of := {
  o_addr : option Addr;
  o_err : option error;
  o_reply : bytes;
  o_rest : bytes
}.

Definition refuse (e : error) (reply : bytes) : outcome_of :=
  {| o_addr := None; o_err := Some e; o_reply := reply; o_rest := [] |}.

Definition command (UDPEnabled : bool) (local : bytes) (cmd : byte) (a : Addr) (rest : bytes) : outcome_of :=
  if decide (cmd = CmdConnect) then
    {| o_addr := Some a; o_err := None; o_reply := method_reply ++ connect_reply; o_rest := rest |}
  else if decide (cmd = CmdUDP /\ UDPEnabled = true) then
    {| o_addr := Some a; o_err := Some InfoUDPAssociate;
       o_reply := method_reply ++ [x05; x00; x00] ++ default [] (ParseAddr local);
       o_rest := rest |}
  else refuse ErrCommandNotSupported method_reply.

Definition negotiate (UDPEnabled : bool) (local bs : bytes) (e : error) : outcome_of :=
  match bs with
  | _ :: nm :: bs1 =>
      if len bs1 <? b2z nm then refuse (short_error bs1 e) []
      else
        let bs2 := drop (Z.to_nat (b2z nm)) bs1 in
        match bs2 with
        | _ :: cmd :: _ :: bs3 =>
            match SplitAddr bs3 with
            | Some a => command UDPEnabled local cmd a (drop (length a) bs3)
            | None => refuse (addr_error bs3 e) method_reply
            end
        | _ => refuse (short_error bs2 e) method_reply
        end
  | _ => refuse (short_error bs e) []
  end.

(** The bytes a client sends to ask for a connection to [t], and those it wants passed on. *)
Definition connect_request (v v' rsv : byte) (methods : bytes) (t : target) (rest : bytes) : bytes :=
  v :: z2b (len methods) :: methods ++ [v'; CmdConnect; rsv] ++ encode_target t ++ rest.

(** ** Correctness *)

Section HandShakeProofs.
Context {C : Type} `{Duplex C}.
Variable UDPEnabled : bool.
Variable LocalAddr : option bytes.

Lemma ReadFull_at_sent out lo hi b : keeps (sent (C := C) out) (ReadFull_at lo hi b).
Proof.
  unfold ReadFull_at. keeping. apply ReadFull_keeps. intros p _. apply read_sent.
Qed.

Lemma readAddr_sent out b : keeps (sent (C := C) out) (readAddr b).
Proof. unfold readAddr. keeping; apply ReadFull_at_sent. Qed.

(** A fresh piece of the buffer read from the start of what is left of the stream. *)
Lemma piece_run F k c bs e hi b f out (Q : bytes * option error -> C -> Prop) :
  sent out c -> delivers F k c bs e -> (F <= f)%nat -> (k < f)%nat -> 0 <= hi <= len b ->
  (hi <= len bs -> forall b' c', length b' = length b -> sub 0 hi b' = sub 0 hi bs ->
     sent out c' -> delivers F k c' (drop (Z.to_nat hi) bs) e -> Q (b', None) c') ->
  (len bs < hi -> forall b' c', sent out c' -> Q (b', Some (short_error bs e)) c') ->
  wp (ReadFull_at 0 hi b) f c Q.
Proof.
  intros Hs Hd HF Hk Hhi Hok Hbad.
  eapply wp_mono; [apply (wp_keeps (sent out)); [apply ReadFull_at_sent | exact Hs |]|].
  - apply (ReadFull_at_run F k c bs e 0 hi b f (fun r c' => sent out c' -> Q r c'));
      [exact Hd | done | done | lia | lia | done | lia | |].
    + intros Hle b' c' Hl Hp Hd' Hs'. by apply Hok.
    + intros Hlt b' c' _ _ Hs'. by apply Hbad.
  - intros a c' [HQ Hs']. by apply HQ.
Qed.

Lemma addr_run F k c bs e b f out (Q : bytes * option Addr * option error -> C -> Prop) :
  sent out c -> delivers F k c bs e -> (F <= f)%nat -> (k < f)%nat -> MaxAddrLen <= len b ->
  (forall b' a err c', sent out c' ->
     match SplitAddr bs with
     | Some x => a = Some x /\ err = None /\ delivers F k c' (drop (length x) bs) e
     | None => err = Some (addr_error bs e)
     end -> Q (b', a, err) c') ->
  wp (readAddr b) f c Q.
Proof.
  intros Hs Hd HF Hk Hb HQ.
  eapply wp_mono; [apply (wp_keeps (sent out)); [apply readAddr_sent | exact Hs |]|].
  - by apply (readAddr_run F k c bs e b f Hd).
  - intros [[b' a] err] c' [[_ Hres] Hs']. by apply HQ.
Qed.

Definition agrees (F k : nat) (out : bytes) (e : error) (o : outcome_of)
    (r : option Addr * option error) (c' : C) : Prop :=
  r = (o_addr o, o_err o) /\ sent (out ++ o_reply o) c' /\
  (o_addr o <> None -> delivers F k c' (o_rest o) e).

Lemma agrees_refuse F k out e err reply c' :
  sent (out ++ reply) c' -> agrees F k out e (refuse err reply) (None, Some err) c'.
Proof. intros Hs. split; [done|]. split; [exact Hs | done]. Qed.

Lemma command_run F k c cmd a rest e f out :
  sent (out ++ method_reply) c -> delivers F k c rest e -> LocalAddr <> None -> (sink_fuel C <= f)%nat ->
  wp (if decide (cmd = CmdConnect) then
        let! '(_, err) := write connect_reply in ret (Some a, err)
      else if decide (cmd = CmdUDP) then
        if negb UDPEnabled then ret (None, Some ErrCommandNotSupported)
        else match LocalAddr with
             | None => fail (PanicValue "interface conversion: io.ReadWriter is not net.Conn")
             | Some la =>
                 let! '(_, err) := write ([x05; x00; x00] ++ default [] (ParseAddr la)) in
                 match err with
                 | Some _ => ret (None, Some ErrCommandNotSupported)
                 | None => ret (Some a, Some InfoUDPAssociate)
                 end
             end
      else ret (None, Some ErrCommandNotSupported)) f c
    (agrees F k out e (command UDPEnabled (default [] LocalAddr) cmd a rest)).
Proof.
  intros Hs Hd Hla Hfuel. unfold command. destruct (decide (cmd = CmdConnect)).
  - wp_step. eapply write_sent; [exact Hs | exact Hd | done |]. intros c' Hs' Hd'. wp_step.
    rewrite <- app_assoc in Hs'. split; [done|]. split; [exact Hs' | done].
  - destruct (decide (cmd = CmdUDP)).
    + destruct UDPEnabled; cbn [negb].
      * rewrite decide_True by done. destruct LocalAddr as [la|]; [|done]. wp_step.
        eapply write_sent; [exact Hs | exact Hd | done |]. intros c' Hs' Hd'. wp_step.
        rewrite <- app_assoc in Hs'. split; [done|]. split; [exact Hs' | done].
      * rewrite decide_False by (intros [? ?]; congruence). wp_step. by apply agrees_refuse.
    + rewrite decide_False by (intros [? ?]; congruence). wp_step. by apply agrees_refuse.
Qed.

Lemma HandShake_run F k c bs e f :
  accepts c -> LocalAddr <> None ->
  delivers F k c bs e -> (sink_fuel C <= f)%nat -> (F <= f)%nat -> (k < f)%nat ->
  wp (HandShake UDPEnabled LocalAddr) f c
    (agrees F k (written c) e (negotiate UDPEnabled (default [] LocalAddr) bs e)).
Proof.
  intros Hacc Hla Hd Hfuel HF Hk.
  assert (sent (written c) c) as Hs by done. generalize (written c) Hs. clear Hs Hacc.
  intros out Hs. assert (sent (out ++ []) c) as Hs0 by (by rewrite app_nil_r).
  unfold HandShake. wp_step. wp_step; [unfold MaxAddrLen; lia|]. wp_step.
  assert (len (zeros MaxAddrLen) = MaxAddrLen) as Hz by (apply len_zeros; unfold MaxAddrLen; lia).
  assert (259 = MaxAddrLen) as Hmax by reflexivity.
  eapply piece_run; [exact Hs0 | exact Hd | done | done | lia | |].
  2:{ intros Hlt b' c' Hs'. wp_step.
      destruct bs as [|v [|nm bs1]]; [by apply agrees_refuse.. | cbn [List.length] in Hlt; lia]. }
  intros Hle b1 c1 Hl1 Hp1 Hs1 Hd1. destruct bs as [|v [|nm bs]]; [cbn in Hle; lia.. |].
  wp_step. pose proof (b2z_range nm) as Hnm.
  eapply wp_index; [lia | exact (in_place_lookup 2 _ _ 1%nat Hp1 ltac:(lia)) |]. wp_step.
  change (drop (Z.to_nat 2) (v :: nm :: bs)) with bs in Hd1. cbn [negotiate].
  eapply piece_run; [exact Hs1 | exact Hd1 | done | done | lia | |].
  2:{ intros Hlt b' c' Hs'. wp_step. rewrite (proj2 (Z.ltb_lt _ _)) by exact Hlt.
      by apply agrees_refuse. }
  intros Hle2 b2 c2 Hl2 Hp2 Hs2 Hd2. rewrite (proj2 (Z.ltb_ge _ _)) by exact Hle2. wp_step.
  rewrite app_nil_r in Hs2. set (bs2 := drop (Z.to_nat (b2z nm)) bs) in *.
  eapply write_sent; [exact Hs2 | exact Hd2 | done |]. intros c3 Hs3 Hd3. wp_step.
  eapply piece_run; [exact Hs3 | exact Hd3 | done | done | lia | |].
  2:{ intros Hlt b' c' Hs'. wp_step.
      destruct bs2 as [|x [|y [|z bs3]]]; [by apply agrees_refuse.. | cbn [List.length] in Hlt; lia]. }
  intros Hle4 b4 c4 Hl4 Hp4 Hs4 Hd4.
  destruct bs2 as [|x [|cmd [|z bs3]]]; [cbn in Hle4; lia.. |]. wp_step.
  eapply wp_index; [lia | exact (in_place_lookup 3 _ _ 1%nat Hp4 ltac:(lia)) |]. wp_step.
  change (drop (Z.to_nat 3) (x :: cmd :: z :: bs3)) with bs3 in Hd4.
  eapply addr_run; [exact Hs4 | exact Hd4 | done | done | lia |].
  intros b5 a err c5 Hs5 Hres. destruct (SplitAddr bs3) as [x5|].
  - destruct Hres as (-> & -> & Hd5). by apply command_run.
  - subst err. wp_step. by apply agrees_refuse.
Qed.

(** Whatever the negotiation comes to, what is left of the client's stream can still be read. *)
Definition still_gives (F K : nat) (e : error) (c : C) : Prop :=
  exists k bs, (k <= K)%nat /\ delivers F k c bs e.

Lemma read_still_gives F K e p : p <> [] -> keeps_from F (still_gives F K e) (read (R := C) p).
Proof.
  intros Hp f c a c' HF (k & bs & Hk & Hd) Hr. destruct k as [|k]; [done|]. cbn [delivers] in Hd.
  specialize (Hd p f Hp HF). unfold wp in Hd. rewrite Hr in Hd. destruct a as [[p' n] er].
  destruct Hd as (chunk & rest & _ & _ & _ & _ & _ & Her). destruct er as [e'|].
  - destruct Her as (_ & _ & Hex). exists 1%nat, []. split; [lia | by apply exhausted_delivers].
  - exists k, rest. split; [lia | done].
Qed.

Lemma write_still_gives F K e p : keeps (still_gives F K e) (write (W := C) p).
Proof.
  intros f c a c' HF (k & bs & Hk & Hd) Hw. exists k, bs. split; [done|].
  by eapply write_keeps_stream; [exact HF | exact Hd | exact Hw].
Qed.

Lemma HandShake_still_gives F K e : keeps_from F (still_gives F K e) (HandShake UDPEnabled LocalAddr).
Proof.
  assert (forall p, keeps_from F (still_gives F K e) (write (W := C) p)) as Hw
    by (intros p f c a c' _; exact (write_still_gives F K e p f c a c' (Nat.le_0_l f))).
  assert (forall lo hi b, keeps_from F (still_gives F K e) (ReadFull_at (R := C) lo hi b)) as Hr
    by (intros lo hi b; unfold ReadFull_at; keeping; apply ReadFull_keeps, read_still_gives).
  unfold HandShake. keeping; first [apply Hw | apply Hr | apply readAddr_keeps, read_still_gives].
Qed.

Lemma negotiate_connect la e v v' rsv methods t rest :
  len methods <= 255 -> target_wf t ->
  negotiate UDPEnabled la (connect_request v v' rsv methods t rest) e =
    {| o_addr := Some (encode_target t); o_err := None; o_reply := method_reply ++ connect_reply;
       o_rest := rest |}.
Proof.
  intros Hm Hwf. unfold connect_request, negotiate. rewrite name_len by done.
  destruct (_ <? _) eqn:E; [rewrite len_app in E; exfalso; blia|].
  rewrite Nat2Z.id, drop_app_length. cbn [app].
  rewrite SplitAddr_encode, drop_app_length by done. unfold command. by rewrite decide_True by done.
Qed.

Lemma connect_run F k c e f v methods v' rsv t rest :
  accepts c -> LocalAddr <> None -> len methods <= 255 -> target_wf t ->
  delivers F k c (connect_request v v' rsv methods t rest) e ->
  (sink_fuel C <= f)%nat -> (F <= f)%nat -> (k < f)%nat ->
  wp (HandShake UDPEnabled LocalAddr) f c (fun '(a, err) c' =>
    a = Some (encode_target t) /\ err = None /\
    sent (written c ++ method_reply ++ connect_reply) c' /\ delivers F k c' rest e).
Proof.
  intros Hacc Hla Hm Hwf Hd Hfuel HF Hk. eapply wp_mono; [by eapply HandShake_run|].
  intros [a err] c' (Hr & Hs & Hrest). rewrite negotiate_connect in * by done. cbn in *.
  injection Hr as -> ->. repeat split; try apply Hs. by apply Hrest.
Qed.

(** C11. The negotiation refines the reference parser. On a connection whose writes succeed,
    [HandShake] returns for every byte stream, however it is cut up, exactly the address and error
    [negotiate] gives, has sent exactly its replies, and has left on the connection
    exactly the bytes after the request; it never panics and never reads ahead. *)
Theorem HandShake_refines F k c bs e f :
  accepts c -> LocalAddr <> None ->
  delivers F k c bs e -> (sink_fuel C <= f)%nat -> (F <= f)%nat -> (k < f)%nat ->
  wp (HandShake UDPEnabled LocalAddr) f c (fun r c' =>
    let o := negotiate UDPEnabled (default [] LocalAddr) bs e in
    r = (o_addr o, o_err o) /\ written c' = written c ++ o_reply o /\
    (o_addr o <> None -> delivers F k c' (o_rest o) e)).
Proof.
  intros Hacc Hla Hd Hfuel HF Hk. eapply wp_mono; [by eapply HandShake_run|].
  intros r c' (Hr & [_ Hw] & Hrest). auto.
Qed.

(** A SOCKS5 client that asks for a connection gets it. Whatever methods it offers, the
    local proxy answers "no authentication" and then success, returns the address it asked for, and leaves
    whatever the client sent early to be relayed. Neither version byte is looked at, nor
    whether "no authentication" was offered. *)
Theorem HandShake_connect F k c e f v methods v' rsv t rest :
  accepts c -> LocalAddr <> None -> len methods <= 255 -> target_wf t ->
  delivers F k c (connect_request v v' rsv methods t rest) e ->
  (sink_fuel C <= f)%nat -> (F <= f)%nat -> (k < f)%nat ->
  wp (HandShake UDPEnabled LocalAddr) f c (fun '(a, err) c' =>
    a = Some (encode_target t) /\ err = None /\
    written c' = written c ++ method_reply ++ connect_reply /\ delivers F k c' rest e).
Proof.
  intros Hacc Hla Hm Hwf Hd Hfuel HF Hk. eapply wp_mono; [by eapply connect_run|].
  intros [a err] c' (? & ? & [_ ?] & ?). auto.
Qed.

End HandShakeProofs.

(** ** Witnesses *)

Definition client_bytes : list bytes :=
  [[x05; x01]; [x00; x05; x01]; x00 :: take 5 (encode_target example_target);
   drop 5 (encode_target example_target) ++ str "early"].

Definition client : conn :=
  {| conn_in := client_bytes; conn_fin := EOF; conn_out := []; conn_room := None |}.

Lemma HandShake_refines_witness :
  wp (HandShake false (Some (str "127.0.0.1:1080"))) 99 client (fun r c' =>
    let o := negotiate false (str "127.0.0.1:1080") (concat client_bytes) EOF in
    r = (o_addr o, o_err o) /\ written c' = written client ++ o_reply o /\
    (o_addr o <> None -> delivers 0 (conn_steps client) c' (o_rest o) EOF)).
Proof.
  apply (HandShake_refines false (Some (str "127.0.0.1:1080")) 0 (conn_steps client) client
    (concat client_bytes) EOF 99 (conn_accepts client eq_refl) (ltac:(discriminate))
    (conn_delivers client)); [cbn; lia | lia |].
  apply Nat.ltb_lt. vm_compute. reflexivity.
Defined.

Lemma HandShake_connect_witness :
  wp (HandShake false (Some (str "127.0.0.1:1080"))) 99 client (fun '(a, err) c' =>
    a = Some (encode_target example_target) /\ err = None /\
    written c' = written client ++ method_reply ++ connect_reply /\
    delivers 0 (conn_steps client) c' (str "early") EOF).
Proof.
  apply (HandShake_connect false (Some (str "127.0.0.1:1080")) 0 (conn_steps client) client
    EOF 99 x05 [x00] x05 x00 example_target (str "early") (conn_accepts client eq_refl)).
  - discriminate.
  - vm_compute. discriminate.
  - vm_compute. intuition discriminate.
  - exact (conn_delivers client).
  - cbn. lia.
  - lia.
  - apply Nat.ltb_lt. vm_compute. reflexivity.
Defined.
