(* ===== verification/GoUtf8.v ===== *)
(** Go's [unicode/utf8], as far as the buffered reader and writer use it. Nothing here is code of
    the repository. *)

From Stdlib Require Import ZArith Lia.
From stdpp Require Import base decidable list numbers strings.
From S2P Require Import Prelude.

Definition UTFMax : Z := 4.
Definition RuneSelf : Z := 128.
Definition MaxRune : Z := 1114111.
Definition RuneError : Z := 65533.

Definition between (lo hi z : Z) : bool := (lo <=? z) && (z <=? hi).

(** The table [first] with [acceptRanges]: the size of the encoding a byte starts and the
    range of its second byte; size 1 also stands for an invalid first byte. *)
Definition first (b0 : Z) : Z * (Z * Z) :=
  if between 194 223 b0 then (2, (128, 191))
  else if b0 =? 224 then (3, (160, 191))
  else if b0 =? 237 then (3, (128, 159))
  else if between 225 239 b0 then (3, (128, 191))
  else if b0 =? 240 then (4, (144, 191))
  else if between 241 243 b0 then (4, (128, 191))
  else if b0 =? 244 then (4, (128, 143))
  else (1, (128, 191)).

Definition cont (b : byte) : bool := between 128 191 (b2z b).

(** [utf8.FullRune]. *)
Definition FullRune (p : bytes) : bool :=
  match p with
  | [] => false
  | b0 :: p1 =>
      let '(size, (lo, hi)) := first (b2z b0) in
      if size <=? len p then true
      else match p1 with
           | [] => false
           | b1 :: p2 =>
               negb (between lo hi (b2z b1))
               || match p2 with [] => false | b2 :: _ => negb (cont b2) end
           end
  end.

(** [utf8.DecodeRune]: the rune and its width; an invalid encoding is one byte wide. *)
Definition DecodeRune (p : bytes) : Z * Z :=
  match p with
  | [] => (RuneError, 0)
  | b0 :: p1 =>
      let z0 := b2z b0 in
      if z0 <? RuneSelf then (z0, 1)
      else
        let '(size, (lo, hi)) := first z0 in
        let invalid := (RuneError, 1) in
        if (size =? 1) || (len p <? size) then invalid
        else match p1 with
             | [] => invalid
             | b1 :: p2 =>
                 if negb (between lo hi (b2z b1)) then invalid
                 else if size =? 2 then ((z0 - 192) * 64 + (b2z b1 - 128), 2)
                 else match p2 with
                      | [] => invalid
                      | b2 :: p3 =>
                          if negb (cont b2) then invalid
                          else if size =? 3
                          then ((z0 - 224) * 4096 + (b2z b1 - 128) * 64 + (b2z b2 - 128), 3)
                          else match p3 with
                               | [] => invalid
                               | b3 :: _ =>
                                   if negb (cont b3) then invalid
                                   else ((z0 - 240) * 262144 + (b2z b1 - 128) * 4096
                                         + (b2z b2 - 128) * 64 + (b2z b3 - 128), 4)
                               end
                      end
             end
  end.

(** The bytes [utf8.EncodeRune] writes for [r]. *)
Definition surrogate (r : Z) : bool := between 55296 57343 r.

Definition encode_valid (r : Z) : bytes :=
  if r <? 128 then [z2b r]
  else if r <? 2048 then [z2b (192 + r / 64); z2b (128 + r mod 64)]
  else if r <? 65536 then
    [z2b (224 + r / 4096); z2b (128 + r / 64 mod 64); z2b (128 + r mod 64)]
  else [z2b (240 + r / 262144); z2b (128 + r / 4096 mod 64);
        z2b (128 + r / 64 mod 64); z2b (128 + r mod 64)].

Definition valid_rune (r : Z) : bool := between 0 MaxRune r && negb (surrogate r).

Definition EncodeRune (r : Z) : bytes :=
  if valid_rune r then encode_valid r else encode_valid RuneError.

(** Decoding looks at no more than it consumes. *)
Lemma DecodeRune_size p : p <> [] -> 1 <= (DecodeRune p).2 <= len p.
Proof.
  destruct p as [|b0 p1]; [done|]. intros _. unfold DecodeRune.
  destruct (b2z b0 <? RuneSelf); [cbn; lia|].
  destruct (first (b2z b0)) as [size [lo hi]].
  destruct ((size =? 1) || (len (b0 :: p1) <? size)) eqn:E; [cbn; lia|].
  destruct p1 as [|b1 p2]; [cbn; lia|]. destruct (negb _); [cbn; lia|].
  destruct (size =? 2); [cbn; lia|]. destruct p2 as [|b2 p3]; [cbn; lia|].
  destruct (negb _); [cbn; lia|]. destruct (size =? 3); [cbn; lia|].
  destruct p3 as [|b3 p4]; [cbn; lia|]. destruct (negb _); cbn; lia.
Qed.

(** A full encoding decodes the same whatever follows it. *)
Lemma DecodeRune_app p q : FullRune p = true -> DecodeRune (p ++ q) = DecodeRune p.
Proof.
  destruct p as [|b0 p1]; [done|]. unfold FullRune, DecodeRune. cbn [app].
  destruct (b2z b0 <? RuneSelf); [done|].
  destruct (first (b2z b0)) as [size [lo hi]] eqn:Ef.
  assert (size = 1 \/ size = 2 \/ size = 3 \/ size = 4) as Hs.
  { revert Ef. unfold first. repeat case_match; intros [= <- _ _]; tauto. }
  destruct (size =? 1) eqn:E1; cbn [orb]; [done|].
  destruct p1 as [|b1 p2]; cbn [app List.length].
  { destruct (size <=? _) eqn:E; [exfalso; cbn in E; blia | done]. }
  destruct (between lo hi (b2z b1)); cbn [negb orb].
  2:{ intros _. by repeat case_match. }
  destruct p2 as [|b2 p3]; cbn [app List.length].
  { destruct (size <=? _) eqn:E; [|done]. intros _. cbn in E. assert (size = 2) as -> by blia.
    destruct (_ <? 2) eqn:E2; [exfalso; blia|]. done. }
  destruct (cont b2) eqn:Ec; cbn [negb orb].
  2:{ intros _. destruct (size =? 2) eqn:E2; [|by repeat case_match].
      apply Z.eqb_eq in E2 as ->.
      assert (forall n, (Z.of_nat (S (S n)) <? 2) = false) as H2 by (intros; apply Z.ltb_ge; lia).
      by rewrite !H2. }
  destruct (size <=? _) eqn:E; [|done]. intros _.
  rewrite (proj2 (Z.ltb_ge (Z.of_nat (S (S (S (length (p3 ++ q)))))) size)) by
    (rewrite length_app; blia).
  rewrite (proj2 (Z.ltb_ge (Z.of_nat (S (S (S (length p3))))) size)) by blia.
  destruct (size =? 2) eqn:E2; [done|]. destruct (size =? 3) eqn:E3; [done|].
  destruct p3 as [|b3 p4]; [exfalso | done].
  apply Z.leb_le in E. apply Z.eqb_neq in E3, E2, E1. cbn in E. lia.
Qed.

Lemma first_size b0 : 1 <= (first b0).1 <= 4.
Proof. unfold first. repeat case_match; cbn; lia. Qed.

Lemma FullRune_long p : 4 <= len p -> FullRune p = true.
Proof.
  destruct p as [|b0 p]; [cbn; lia|]. intros Hl. unfold FullRune.
  pose proof (first_size (b2z b0)) as Hs. destruct (first (b2z b0)) as [size [lo hi]]. cbn [fst] in Hs.
  by rewrite (proj2 (Z.leb_le _ _)) by lia.
Qed.

Lemma DecodeRune_ascii c p : b2z c < 128 -> DecodeRune (c :: p) = (b2z c, 1).
Proof. intros Hc. unfold DecodeRune. by rewrite (proj2 (Z.ltb_lt _ RuneSelf)). Qed.

Lemma DecodeRune_size4 p : (DecodeRune p).2 <= 4.
Proof.
  destruct p as [|b0 p]; [cbn; lia|]. unfold DecodeRune. destruct (_ <? RuneSelf); [cbn; lia|].
  destruct (first (b2z b0)) as [size [lo hi]].
  repeat (case_match; [cbn; lia|]). cbn. lia.
Qed.

Lemma encode_valid_len r : 1 <= len (encode_valid r) <= 4.
Proof. unfold encode_valid. repeat case_match; cbn; lia. Qed.

Lemma EncodeRune_len r : 1 <= len (EncodeRune r) <= 4.
Proof. unfold EncodeRune. destruct (valid_rune r); apply encode_valid_len. Qed.
