(* ===== verification/BufReader.v ===== *)
(** The buffered reader of [m_bufio] (bufio.go, lines 1-500): a fork of Go's [bufio.Reader] that counts
    the bytes it hands out.

    The indices [b_r] and [b_w] stay within the buffer, so they are plain integers; the
    counter [b_TotalRead] grows with the traffic and wraps around as Go's [int] does. *)

From Stdlib Require Import ZArith Lia.
From Stdlib Require Import Strings.Byte.
From stdpp Require Import base decidable list numbers strings.
From S2P Require Import Prelude GoIO GoUtf8.

Definition defaultBufSize : Z := 4096.

Definition ErrInvalidUnreadByte : error := Sentinel "m_bufio: invalid use of UnreadByte".
Definition ErrInvalidUnreadRune : error := Sentinel "m_bufio: invalid use of UnreadRune".
Definition ErrBufferFull : error := Sentinel "m_bufio: buffer full".
Definition ErrNegativeCount : error := Sentinel "m_bufio: negative count".

Definition minReadBufferSize : Z := 16.

Record bufReader (R : Type) := {
  b_buf : bytes;
  b_rd : R;
  b_r : Z;
  b_w : Z;
  b_err : option error;
  b_lastByte : Z;
  b_lastRuneSize : Z;
  b_TotalRead : Z
}.
Arguments b_buf {R} _.
Arguments b_rd {R} _.
Arguments b_r {R} _.
Arguments b_w {R} _.
Arguments b_err {R} _.
Arguments b_lastByte {R} _.
Arguments b_lastRuneSize {R} _.
Arguments b_TotalRead {R} _.

(** [bytes.IndexByte], -1 when absent. *)
Fixpoint IndexByte (s : bytes) (c : byte) : Z :=
  match s with
  | [] => -1
  | x :: s' => if decide (x = c) then 0
               else let i := IndexByte s' c in if i <? 0 then -1 else i + 1
  end.

Section BufReader.
Context {R : Type} `{Reader R}.
Abbreviation BR := (bufReader R).

Definition set_b_buf x (b : BR) : BR :=
  {| b_buf := x; b_rd := b_rd b; b_r := b_r b; b_w := b_w b; b_err := b_err b;
     b_lastByte := b_lastByte b; b_lastRuneSize := b_lastRuneSize b; b_TotalRead := b_TotalRead b |}.
Definition set_b_rd x (b : BR) : BR :=
  {| b_buf := b_buf b; b_rd := x; b_r := b_r b; b_w := b_w b; b_err := b_err b;
     b_lastByte := b_lastByte b; b_lastRuneSize := b_lastRuneSize b; b_TotalRead := b_TotalRead b |}.
Definition set_b_r x (b : BR) : BR :=
  {| b_buf := b_buf b; b_rd := b_rd b; b_r := x; b_w := b_w b; b_err := b_err b;
     b_lastByte := b_lastByte b; b_lastRuneSize := b_lastRuneSize b; b_TotalRead := b_TotalRead b |}.
Definition set_b_w x (b : BR) : BR :=
  {| b_buf := b_buf b; b_rd := b_rd b; b_r := b_r b; b_w := x; b_err := b_err b;
     b_lastByte := b_lastByte b; b_lastRuneSize := b_lastRuneSize b; b_TotalRead := b_TotalRead b |}.
Definition set_b_err x (b : BR) : BR :=
  {| b_buf := b_buf b; b_rd := b_rd b; b_r := b_r b; b_w := b_w b; b_err := x;
     b_lastByte := b_lastByte b; b_lastRuneSize := b_lastRuneSize b; b_TotalRead := b_TotalRead b |}.
Definition set_lasts x y (b : BR) : BR :=
  {| b_buf := b_buf b; b_rd := b_rd b; b_r := b_r b; b_w := b_w b; b_err := b_err b;
     b_lastByte := x; b_lastRuneSize := y; b_TotalRead := b_TotalRead b |}.
Definition count_read n (b : BR) : BR :=
  {| b_buf := b_buf b; b_rd := b_rd b; b_r := b_r b; b_w := b_w b; b_err := b_err b;
     b_lastByte := b_lastByte b; b_lastRuneSize := b_lastRuneSize b;
     b_TotalRead := i64 (b_TotalRead b + n) |}.

Definition reset (buf : bytes) (r : R) : BR :=
  {| b_buf := buf; b_rd := r; b_r := 0; b_w := 0; b_err := None;
     b_lastByte := -1; b_lastRuneSize := -1; b_TotalRead := 0 |}.

Definition Reset (r : R) : M BR unit := modify (fun b => reset (b_buf b) r).

(** [as_Reader rd] is the dynamic check [rd.( *Reader)]. *)
Definition NewReaderSize (as_Reader : R -> option BR) (rd : R) (size : Z) : BR :=
  let fresh :=
    let size := if size <? minReadBufferSize then minReadBufferSize else size in
    reset (zeros size) rd in
  match as_Reader rd with
  | Some b => if len (b_buf b) >=? size then b else fresh
  | None => fresh
  end.

Definition NewReader (as_Reader : R -> option BR) (rd : R) : BR :=
  NewReaderSize as_Reader rd defaultBufSize.

Definition errNegativeRead : halt :=
  Panicked (PanicValue "bfe_bufio: reader returned negative count from Read").

Definition fill : M BR unit :=
  let! b := get in
  when (0 <? b_r b)
    (let! data := slice (b_r b) (b_w b) (b_buf b) in
     put (set_b_buf (copy (b_buf b) data).1 (set_b_w (b_w b - b_r b) (set_b_r 0 b)))) ;;;
  let! b := get in
  let! p := slice (b_w b) (len (b_buf b)) (b_buf b) in
  let! '(p, n, err) := zoom b_rd set_b_rd (read p) in
  modify (fun b => set_b_buf (blit (b_w b) p (b_buf b)) b) ;;;
  if n <? 0 then stop errNegativeRead
  else
    modify (fun b => set_b_w (b_w b + n) b) ;;;
    match err with
    | Some e => modify (set_b_err (Some e))
    | None => ret tt
    end.

Definition readErr : M BR (option error) :=
  let! err := gets b_err in
  modify (set_b_err None) ;;;
  ret err.

Definition Peek (n : Z) : M BR (bytes * option error) :=
  let! b := get in
  if n <? 0 then ret ([], Some ErrNegativeCount)
  else if n >? len (b_buf b) then ret ([], Some ErrBufferFull)
  else
    iter (fun _ : unit =>
      let! b := get in
      if (b_w b - b_r b <? n) && bool_decide (b_err b = None)
      then fill ;;; ret (inl tt) else ret (inr tt)) tt ;;;
    let! b := get in
    let m := b_w b - b_r b in
    let m := if m >? n then n else m in
    let! err :=
      (if m <? n then
         let! err := readErr in
         ret (match err with None => Some ErrBufferFull | Some _ => err end)
       else ret None) in
    let! b := get in
    let! out := slice (b_r b) (b_r b + m) (b_buf b) in
    ret (out, err).

(** The last part of [Read]: [copy(p, b.buf[b.r:])] for the data buffered. *)
Definition read_buffered (p : bytes) : M BR (bytes * Z * option error) :=
  let! b := get in
  let n := if len p >? b_w b - b_r b then b_w b - b_r b else len p in
  let! dst := slice 0 n p in
  let! src := slice (b_r b) (len (b_buf b)) (b_buf b) in
  let p := blit 0 (copy dst src).1 p in
  modify (fun b => set_b_r (b_r b + n) b) ;;;
  let! b := get in
  let! last := index (b_r b - 1) (b_buf b) in
  modify (set_lasts (b2z last) (-1)) ;;;
  modify (count_read n) ;;;
  ret (p, n, None).

(** [n, err = b.Read(p)] and the contents of [p] afterwards. *)
Definition bufReader_Read (p : bytes) : M BR (bytes * Z * option error) :=
  if len p =? 0 then
    let! err := readErr in ret (p, 0, err)
  else
    let! b := get in
    if b_w b =? b_r b then
      match b_err b with
      | Some _ => let! err := readErr in ret (p, 0, err)
      | None =>
          if len p >=? len (b_buf b) then
            let! '(p, n, err) := zoom b_rd set_b_rd (read p) in
            modify (set_b_err err) ;;;
            when (0 <? n)
              (let! last := index (n - 1) p in
               modify (set_lasts (b2z last) (-1)) ;;;
               modify (count_read n)) ;;;
            let! err := readErr in
            ret (p, n, err)
          else
            fill ;;;
            let! b := get in
            if b_w b =? b_r b then
              let! err := readErr in ret (p, 0, err)
            else read_buffered p
      end
    else read_buffered p.

Definition bufReader_ReadByte : M BR (byte * option error) :=
  modify (fun b => set_lasts (b_lastByte b) (-1) b) ;;;
  let! e := iter (fun _ : unit =>
    let! b := get in
    if b_w b =? b_r b then
      match b_err b with
      | Some _ => let! err := readErr in ret (inr err)
      | None => fill ;;; ret (inl tt)
      end
    else ret (inr None)) tt in
  match e with
  | Some _ => ret (x00, e)
  | None =>
      let! b := get in
      let! c := index (b_r b) (b_buf b) in
      modify (fun b => set_b_r (b_r b + 1) b) ;;;
      modify (fun b => set_lasts (b2z c) (b_lastRuneSize b) b) ;;;
      modify (count_read 1) ;;;
      ret (c, None)
  end.

(** [if b.TotalRead >= k { b.TotalRead -= k }]. *)
Definition uncount k (b : BR) : BR :=
  if b_TotalRead b >=? k then count_read (- k) b else b.

Definition UnreadByte : M BR (option error) :=
  modify (fun b => set_lasts (b_lastByte b) (-1) b) ;;;
  let! b := get in
  if (b_r b =? b_w b) && (b_lastByte b >=? 0) then
    modify (fun b => set_b_w 1 (set_b_r 0 b)) ;;;
    let! buf := store 0 (z2b (b_lastByte b)) (b_buf b) in
    modify (set_b_buf buf) ;;;
    modify (fun b => set_lasts (-1) (b_lastRuneSize b) b) ;;;
    modify (uncount 1) ;;;
    ret None
  else if b_r b <=? 0 then ret (Some ErrInvalidUnreadByte)
  else
    modify (fun b => set_b_r (b_r b - 1) b) ;;;
    modify (fun b => set_lasts (-1) (b_lastRuneSize b) b) ;;;
    modify (uncount 1) ;;;
    ret None.

Definition ReadRune : M BR (Z * Z * option error) :=
  iter (fun _ : unit =>
    let! b := get in
    if b_r b + UTFMax >? b_w b then
      let! data := slice (b_r b) (b_w b) (b_buf b) in
      if negb (FullRune data) && bool_decide (b_err b = None)
      then fill ;;; ret (inl tt) else ret (inr tt)
    else ret (inr tt)) tt ;;;
  modify (fun b => set_lasts (b_lastByte b) (-1) b) ;;;
  let! b := get in
  if b_r b =? b_w b then
    let! err := readErr in ret (0, 0, err)
  else
    let! c := index (b_r b) (b_buf b) in
    let! '(r, size) :=
      (if b2z c >=? 128 then
         let! data := slice (b_r b) (b_w b) (b_buf b) in
         ret (DecodeRune data)
       else ret (b2z c, 1)) in
    modify (fun b => set_b_r (b_r b + size) b) ;;;
    let! b := get in
    let! last := index (b_r b - 1) (b_buf b) in
    modify (set_lasts (b2z last) size) ;;;
    modify (count_read size) ;;;
    ret (r, size, None).

Definition UnreadRune : M BR (option error) :=
  let! b := get in
  if (b_lastRuneSize b <? 0) || (b_r b =? 0) then ret (Some ErrInvalidUnreadRune)
  else
    modify (fun b => set_b_r (b_r b - b_lastRuneSize b) b) ;;;
    modify (uncount (b_lastRuneSize b)) ;;;
    modify (set_lasts (-1) (-1)) ;;;
    ret None.

Definition bufReader_Buffered (b : BR) : Z := b_w b - b_r b.

(** The contents of the line returned: a slice of the buffer, valid until the next call. *)
Definition ReadSlice (delim : byte) : M BR (bytes * option error) :=
  let! b := get in
  let! data := slice (b_r b) (b_w b) (b_buf b) in
  let i := IndexByte data delim in
  if 0 <=? i then
    let! line := slice (b_r b) (b_r b + i + 1) (b_buf b) in
    modify (fun b => set_b_r (b_r b + (i + 1)) b) ;;;
    modify (count_read (i + 1)) ;;;
    ret (line, None)
  else
    iter (fun _ : unit =>
      let! b := get in
      match b_err b with
      | Some _ =>
          let! line := slice (b_r b) (b_w b) (b_buf b) in
          modify (count_read (b_w b - b_r b)) ;;;
          modify (set_b_r (b_w b)) ;;;
          let! err := readErr in
          ret (inr (line, err))
      | None =>
          let n := bufReader_Buffered b in
          fill ;;;
          let! b := get in
          let! data := slice n (b_w b) (b_buf b) in
          let i := IndexByte data delim in
          if 0 <=? i then
            let! line := slice 0 (n + i + 1) (b_buf b) in
            modify (set_b_r (n + i + 1)) ;;;
            modify (count_read (i + 1)) ;;;
            ret (inr (line, None))
          else if bufReader_Buffered b >=? len (b_buf b) then
            modify (count_read (len (b_buf b))) ;;;
            modify (set_b_r (b_w b)) ;;;
            ret (inr (b_buf b, Some ErrBufferFull))
          else ret (inl tt)
      end) tt.

Definition cr : byte := x0d.
Definition lf : byte := x0a.

(** [line = nil] and an empty line are both [[]]. *)
Definition ReadLine : M BR (bytes * bool * option error) :=
  let! '(line, err) := ReadSlice lf in
  if bool_decide (err = Some ErrBufferFull) then
    if (0 <? len line) && bool_decide (last line = Some cr) then
      let! b := get in
      if b_r b =? 0
      then fail (PanicValue "bfe_bufio: tried to rewind past start of buffer")
      else
        modify (fun b => set_b_r (b_r b - 1) b) ;;;
        let! line := slice 0 (len line - 1) line in
        ret (line, true, None)
    else ret (line, true, None)
  else if len line =? 0 then ret ([], false, err)
  else
    let! c := index (len line - 1) line in
    if decide (c = lf) then
      let! drop :=
        (if len line >? 1 then
           let! c2 := index (len line - 2) line in
           ret (if decide (c2 = cr) then 2 else 1)
         else ret 1) in
      let! line := slice 0 (len line - drop) line in
      ret (line, false, None)
    else ret (line, false, None).

(** [ReadBytes] copies every full buffer, since the next [ReadSlice] overwrites it; the
    pieces and the last fragment are joined at the end. *)
Definition ReadBytes (delim : byte) : M BR (bytes * option error) :=
  let! '(full, frag, err) := iter (fun full : list bytes =>
    let! '(frag, e) := ReadSlice delim in
    match e with
    | None => ret (inr (full, frag, None))
    | Some e' =>
        if decide (e' = ErrBufferFull) then ret (inl (full ++ [frag]))
        else ret (inr (full, frag, Some e'))
    end) [] in
  ret (concat full ++ frag, err).

Definition ReadString (delim : byte) : M BR (bytes * option error) :=
  let! '(bytes, err) := ReadBytes delim in
  ret (bytes, err).

End BufReader.

(** ** [WriteTo], on a reader paired with the writer it empties into *)

Section WriteTo.
Context {R W : Type} `{Reader R} `{Writer W}.
(** [b.rd.(io.WriterTo)], if the reader has it. *)
Variable rd_WriteTo : option (M (R * W) (Z * option error)).

Definition on_b {A} (m : M (bufReader R) A) : M (bufReader R * W) A :=
  zoom fst (fun b s => (b, s.2)) m.

Definition writeBuf : M (bufReader R * W) (Z * option error) :=
  let! '(b, _) := get in
  let! data := slice (b_r b) (b_w b) (b_buf b) in
  let! '(n, err) := zoom snd (fun w s => (s.1, w)) (write data) in
  on_b (modify (fun b => set_b_r (b_r b + n) b)) ;;;
  when (0 <? n) (on_b (modify (count_read n))) ;;;
  ret (n, err).

Definition bufReader_WriteTo : M (bufReader R * W) (Z * option error) :=
  let! '(n, err) := writeBuf in
  match err with
  | Some e => ret (n, Some e)
  | None =>
      match rd_WriteTo with
      | Some r_WriteTo =>
          let! '(m, err) :=
            zoom (fun s => (b_rd s.1, s.2)) (fun rw s => (set_b_rd rw.1 s.1, rw.2)) r_WriteTo in
          when (0 <? m) (on_b (modify (count_read m))) ;;;
          ret (i64 (n + m), err)
      | None =>
          on_b fill ;;;
          let! '(n, early) := iter (fun n : Z =>
            let! '(b, _) := get in
            if b_r b <? b_w b then
              let! '(m, err) := writeBuf in
              let n := i64 (n + m) in
              match err with
              | Some e => ret (inr (n, Some e))
              | None => on_b fill ;;; ret (inl n)
              end
            else ret (inr (n, None))) n in
          match early with
          | Some e => ret (n, Some e)
          | None =>
              on_b (modify (fun b => if decide (b_err b = Some EOF) then set_b_err None b else b)) ;;;
              let! err := on_b readErr in
              ret (n, err)
          end
      end
  end.

End WriteTo.
