(* ===== verification/BufReaderSpec.v ===== *)
(** Correctness of the buffered reader: it delivers the stream of its source, and each operation reads
    what the stream holds.  [holds] relates a reader to the bytes it has still to hand out. *)

From Stdlib Require Import ZArith Lia.
From Stdlib Require Import Strings.Byte.
From stdpp Require Import base decidable list numbers strings.
From S2P Require Import Prelude GoIO GoUtf8 BufReader.

Section Spec.
Context {R : Type} `{Reader R}.
Abbreviation BR := (bufReader R).
Implicit Types (b : BR) (bs rest : bytes) (e : error) (F k f : nat).

(** ** The invariant *)

Definition br_wf b : Prop :=
  0 <= b_r b <= b_w b /\ b_w b <= len (b_buf b) /\ minReadBufferSize <= len (b_buf b).

(** The bytes buffered. *)
Definition data b : bytes := sub (b_r b) (b_w b) (b_buf b).

(** The source still has [rest] to give, or its error is pending. *)
Definition source F k b rest e : Prop :=
  match b_err b with
  | None => delivers F k (b_rd b) rest e
  | Some e' => rest = [] /\ e' = e /\ exhausted F (b_rd b) e
  end.

(** [b] has still to hand out [bs] and then [e]. *)
Definition holds F k b bs e : Prop :=
  br_wf b /\ exists rest, bs = data b ++ rest /\ source F k b rest e.

(** Nothing an observer sees has changed. *)
Definition same_counters b b' : Prop :=
  b_TotalRead b' = b_TotalRead b /\ b_lastByte b' = b_lastByte b /\
  b_lastRuneSize b' = b_lastRuneSize b.

Lemma len_data b : br_wf b -> len (data b) = b_w b - b_r b.
Proof. intros (Hr & Hw & _). apply len_sub; lia. Qed.

Lemma data_nil b : b_w b = b_r b -> data b = [].
Proof. intros Hb. apply sub_empty. lia. Qed.

Lemma source_mono F k k' b rest e : (k <= k')%nat -> source F k b rest e -> source F k' b rest e.
Proof.
  unfold source. intros Hk. destruct (b_err b); [done|]. by apply delivers_mono.
Qed.

Lemma holds_mono F k k' b bs e : (k <= k')%nat -> holds F k b bs e -> holds F k' b bs e.
Proof. intros Hk (Hwf & rest & ? & ?). split; [done|]. eauto using source_mono. Qed.

(** Consuming the first [n] bytes buffered. *)
Lemma drop_data b n : br_wf b -> 0 <= n <= len (data b) ->
  data (set_b_r (b_r b + n) b) = drop (Z.to_nat n) (data b).
Proof.
  intros Hwf Hn. pose proof (len_data b Hwf) as Hl. destruct Hwf as (Hr & Hw & _).
  unfold data. cbn. symmetry. apply sub_drop; lia.
Qed.

Lemma wf_advance b n : br_wf b -> 0 <= n <= len (data b) -> br_wf (set_b_r (b_r b + n) b).
Proof.
  intros Hwf Hn. pose proof (len_data b Hwf). destruct Hwf as (? & ? & ?).
  repeat split; cbn; lia.
Qed.

Lemma drop_app_le' (l l' : bytes) n : (n <= length l)%nat -> drop n (l ++ l') = drop n l ++ l'.
Proof.
  intros Hn. rewrite drop_app. replace (n - length l)%nat with O by lia. by rewrite drop_0.
Qed.

Lemma holds_advance F k b bs e n :
  holds F k b bs e -> 0 <= n <= len (data b) ->
  holds F k (set_b_r (b_r b + n) b) (drop (Z.to_nat n) bs) e.
Proof.
  intros (Hwf & rest & -> & Hs) Hn. split; [by apply wf_advance|]. exists rest.
  rewrite drop_data by done. split; [apply drop_app_le'; lia | exact Hs].
Qed.

(** The counters are not part of what is left to read. *)
Lemma holds_lasts F k b bs e x y : holds F k b bs e -> holds F k (set_lasts x y b) bs e.
Proof. done. Qed.

Lemma holds_count F k b bs e n : holds F k b bs e -> holds F k (count_read n b) bs e.
Proof. done. Qed.

(** ** [fill] *)

Lemma fill_run F k b rest e f (Q : unit -> BR -> Prop) :
  br_wf b -> b_w b - b_r b < len (b_buf b) -> b_err b = None ->
  delivers F k (b_rd b) rest e -> (F <= f)%nat ->
  (forall b' chunk rest' k', (k' < k)%nat -> br_wf b' -> b_r b' = 0 ->
     length (b_buf b') = length (b_buf b) -> same_counters b b' ->
     rest = chunk ++ rest' -> data b' = data b ++ chunk -> source F k' b' rest' e -> Q tt b') ->
  wp fill f b Q.
Proof.
  intros Hwf Hroom Herr Hd HF HQ. pose proof (len_data b Hwf) as Hld.
  pose proof Hwf as (Hr & Hw & Hmin). unfold fill. do 2 wp_step.
  (* the slide *)
  assert (forall Q1 : unit -> BR -> Prop,
    (forall b1, b_r b1 = 0 -> b_w b1 = b_w b - b_r b -> length (b_buf b1) = length (b_buf b) ->
       sub 0 (b_w b1) (b_buf b1) = data b -> b_rd b1 = b_rd b -> b_err b1 = None ->
       same_counters b b1 -> Q1 tt b1) ->
    wp (when (0 <? b_r b)
          (let! data := slice (b_r b) (b_w b) (b_buf b) in
           put (set_b_buf (copy (b_buf b) data).1 (set_b_w (b_w b - b_r b) (set_b_r 0 b))))) f b Q1)
    as Hslide.
  { intros Q1 HQ1. wp_step.
    - do 3 wp_step. apply HQ1; cbn; try done.
      + apply len_copy.
      + fold (data b). rewrite Z.min_r by lia. rewrite Nat2Z.id, take_ge by lia.
        apply sub_0_blit; lia.
    - apply HQ1; try done; try lia. unfold data. replace (b_r b) with 0 by blia. done. }
  wp_step. apply Hslide. intros b1 Hr1 Hw1 Hl1 Hdata Hrd1 Herr1 Hsame. clear Hslide.
  do 3 wp_step. do 3 wp_step.
  rewrite Hrd1. destruct k as [|k]; [done|]. cbn [delivers] in Hd.
  rewrite sub_to_end by lia.
  eapply wp_mono; [apply Hd; [|exact HF]|].
  { intros E. apply (f_equal length) in E. rewrite length_drop in E. cbn in E. lia. }
  intros [[p n] er] rd' (chunk & rest' & -> & -> & Hlp & Hlc & Hchunk & Her).
  rewrite length_drop in Hlp, Hlc. do 2 wp_step.
  rewrite (proj2 (Z.ltb_ge (len chunk) 0)) by lia. do 2 wp_step. cbn.
  assert (len (blit (b_w b1) p (b_buf b1)) = len (b_buf b)) as Hlb
    by (rewrite len_blit; lia).
  assert (sub 0 (b_w b1 + len chunk) (blit (b_w b1) p (b_buf b1)) = data b ++ chunk) as Hd'.
  { rewrite (sub_split 0 (b_w b1)) by lia. f_equal.
    - rewrite blit_before by lia. exact Hdata.
    - rewrite blit_prefix by lia. by rewrite Nat2Z.id. }
  assert (forall er b2, b_buf b2 = blit (b_w b1) p (b_buf b1) -> b_r b2 = 0 ->
    b_w b2 = b_w b1 + len chunk -> same_counters b b2 -> b_rd b2 = rd' -> b_err b2 = er ->
    match er with
    | Some e' => rest' = [] /\ e' = e /\ exhausted F rd' e
    | None => delivers F k rd' rest' e
    end -> Q tt b2) as Hfin.
  { intros er' b2 Hb2 Hr2 Hw2 Hs2 Hrd2 He2 Hsrc. apply (HQ b2 chunk rest' k); try done; try lia.
    - unfold br_wf. rewrite Hr2, Hw2, Hb2, Hlb. lia.
    - rewrite Hb2. lia.
    - unfold data at 1. by rewrite Hr2, Hw2, Hb2.
    - unfold source. by rewrite He2, Hrd2. }
  destruct er as [e'|].
  - wp_step. by eapply (Hfin (Some e')).
  - wp_step. by eapply (Hfin None).
Qed.

(** [fill], for the stream a reader holds: it advances by at least one read of the source. *)
Lemma fill_holds F k b bs e f (Q : unit -> BR -> Prop) :
  holds F k b bs e -> b_w b - b_r b < len (b_buf b) -> b_err b = None -> (F <= f)%nat ->
  (forall b' chunk k', (k' < k)%nat -> holds F k' b' bs e -> b_r b' = 0 ->
     length (b_buf b') = length (b_buf b) -> same_counters b b' ->
     data b' = data b ++ chunk -> Q tt b') ->
  wp fill f b Q.
Proof.
  intros (Hwf & rest & -> & Hs) Hroom Herr HF HQ. unfold source in Hs. rewrite Herr in Hs.
  eapply fill_run; try done. intros b' chunk rest' k' Hk Hwf' Hr' Hl Hsame -> Hdata Hs'.
  apply (HQ b' chunk k'); try done. split; [done|]. exists rest'. split; [|done].
  by rewrite Hdata, <- app_assoc.
Qed.

(** ** The reader delivers what its source delivers *)

Lemma readErr_run b f (Q : option error -> BR -> Prop) :
  Q (b_err b) (set_b_err None b) -> wp readErr f b Q.
Proof. intros HQ. unfold readErr. do 4 wp_step. exact HQ. Qed.

Lemma last_index_data b n : br_wf b -> 0 < n <= len (data b) ->
  exists c, b_buf b !! Z.to_nat (b_r b + n - 1) = Some c /\
            data b !! Z.to_nat (n - 1) = Some c.
Proof.
  intros Hwf Hn. pose proof (len_data b Hwf). destruct Hwf as (Hr & Hw & _).
  destruct (lookup_lt_is_Some_2 (data b) (Z.to_nat (n - 1))) as [c Hc]; [lia|].
  exists c. split; [|done]. unfold data in Hc. rewrite sub_lookup in Hc by lia.
  case_decide; [|done]. rewrite <- Hc. f_equal. lia.
Qed.

Lemma read_buffered_run F k b bs e p f (Q : bytes * Z * option error -> BR -> Prop) :
  holds F k b bs e -> data b <> [] -> p <> [] ->
  (forall p' b' n, 0 < n <= len p -> n <= len bs -> length p' = length p ->
     take (Z.to_nat n) p' = take (Z.to_nat n) bs ->
     holds F k b' (drop (Z.to_nat n) bs) e ->
     b_TotalRead b' = i64 (b_TotalRead b + n) -> b_lastRuneSize b' = -1 ->
     (exists c, bs !! Z.to_nat (n - 1) = Some c /\ b_lastByte b' = b2z c) ->
     Q (p', n, None) b') ->
  wp (read_buffered p) f b Q.
Proof.
  intros Hh Hne Hp HQ. pose proof Hh as (Hwf & rest & Hbs & Hs).
  pose proof (len_data b Hwf) as Hld. pose proof Hwf as (Hr & Hw & _).
  assert (0 < len (data b)) by (destruct (data b); [done | cbn; lia]).
  assert (0 < len p) by (destruct p; [done | cbn; lia]).
  unfold read_buffered. do 2 wp_step.
  set (n := if len p >? b_w b - b_r b then b_w b - b_r b else len p).
  assert (0 < n <= len p /\ n <= len (data b)) as [Hn1 Hn2]
    by (subst n; destruct (len p >? b_w b - b_r b) eqn:E; lia).
  do 6 wp_step. do 2 wp_step. cbn.
  destruct (last_index_data b n Hwf ltac:(lia)) as (c & Hc & Hc').
  wp_step. eapply wp_index; [lia | exact Hc |]. do 4 wp_step.
  set (p' := blit 0 _ p).
  assert (sub 0 n p' = take (Z.to_nat n) bs) as Hpre.
  { subst p'. pose proof (len_sub 0 n p ltac:(lia) ltac:(lia)) as Hls.
    unfold copy. cbn [fst].
    rewrite (sub_to_end (b_r b)) by lia. rewrite Hls, length_drop.
    rewrite Z.min_l by lia.
    rewrite (blit_all (take _ _) (sub 0 n p)) by (rewrite length_take, length_drop; lia).
    rewrite sub_0_blit; [|rewrite length_take, length_drop; lia..].
    rewrite Hbs, take_app_le by lia. unfold data, sub. rewrite take_take. f_equal. lia. }
  assert (length p' = length p) as Hlp.
  { pose proof (len_sub 0 n p ltac:(lia) ltac:(lia)).
    apply Nat2Z.inj, len_blit; [lia|]. rewrite len_blit by (rewrite ?length_take; lia). lia. }
  apply (HQ p' _ n); [done | | done | | | done | done |].
  - rewrite Hbs, len_app. lia.
  - by rewrite <- sub_0_take.
  - apply holds_count, holds_lasts. apply (holds_advance F k b bs e n Hh). lia.
  - exists c. split; [|done]. rewrite Hbs. rewrite lookup_app_l by lia. exact Hc'.
Qed.

(** Everything was handed out, the final error included. *)
Definition drained F b e : Prop :=
  br_wf b /\ b_w b = b_r b /\ b_err b = None /\ exhausted F (b_rd b) e.

Lemma drained_holds F b e : drained F b e -> holds F 1 b [] e.
Proof.
  intros (Hwf & Hw & Herr & Hex). split; [done|]. exists []. rewrite data_nil by done.
  split; [done|]. unfold source. rewrite Herr. by apply exhausted_delivers.
Qed.

(** The counter after [n] more bytes. *)
Definition counted (T n : Z) : Z := if n =? 0 then T else i64 (T + n).

(** A successful read makes progress: it returns data or used up a read of the source. *)
Definition reads_on F k b' (chunk rest : bytes) e : Prop :=
  exists k', holds F k' b' rest e /\
    if decide (chunk = []) then (S k' <= k)%nat /\ b_err b' = None else (k' <= k)%nat.

Lemma pending_error F k b bs e e' f (Q : option error -> BR -> Prop) :
  holds F k b bs e -> b_w b = b_r b -> b_err b = Some e' ->
  (forall b', bs = [] -> drained F b' e -> b_TotalRead b' = b_TotalRead b -> Q (Some e) b') ->
  wp readErr f b Q.
Proof.
  intros (Hwf & rest & -> & Hs) Hw Herr HQ. apply readErr_run. unfold source in Hs.
  rewrite Herr in *. destruct Hs as (-> & -> & Hex). apply HQ; [by rewrite data_nil | | done].
  split; [exact Hwf | done].
Qed.

(** What a read of [p] may come to: a chunk of [bs], and what follows it. *)
Definition read_result (F k : nat) (b : BR) (bs : bytes) (e : error) (p : bytes)
    (res : bytes * Z * option error) (b' : BR) : Prop :=
  let '(p', n, er) := res in
  exists chunk rest, n = len chunk /\ bs = chunk ++ rest /\ length p' = length p /\
    (length chunk <= length p)%nat /\ take (length chunk) p' = chunk /\
    b_TotalRead b' = counted (b_TotalRead b) (len chunk) /\
    match er with
    | None => reads_on F k b' chunk rest e
    | Some e' => rest = [] /\ e' = e /\ drained F b' e
    end.

(** What was buffered, now or by [fill]. *)
Lemma Read_of_buffer F k k1 b b1 bs e p f :
  holds F k1 b1 bs e -> b_w b1 <> b_r b1 -> p <> [] -> (k1 <= k)%nat -> b_TotalRead b1 = b_TotalRead b ->
  wp (read_buffered p) f b1 (read_result F k b bs e p).
Proof.
  intros Hh1 Hne Hp Hk1 Ht1. pose proof (len_data b1 (proj1 Hh1)) as Hl1.
  destruct Hh1 as (Hwf1 & Hrest1). pose proof Hwf1 as (? & ? & ?).
  eapply read_buffered_run; [exact (conj Hwf1 Hrest1) | | done |].
  { intros E. rewrite E in Hl1. cbn in Hl1. lia. }
  intros p' b' n Hn Hnb Hlp Ht Hh' Htot _ _.
  assert (len (take (Z.to_nat n) bs) = n) as Hlt by (rewrite length_take; lia).
  exists (take (Z.to_nat n) bs), (drop (Z.to_nat n) bs). rewrite Hlt, take_drop.
  do 3 (split; [done|]). split; [lia|].
  split; [by replace (length (take (Z.to_nat n) bs)) with (Z.to_nat n) by lia|].
  split; [unfold counted; rewrite Htot, Ht1; destruct (n =? 0) eqn:E; [blia | done]|].
  exists k1. split; [done|]. rewrite decide_False; [done|]. intros E. rewrite E in Hlt. cbn in Hlt. lia.
Qed.

(** A read past the buffer, straight from the source. *)
Lemma Read_from_source F k b b1 e (p p' : bytes) chunk rest er rd' f :
  br_wf b -> b_w b = b_r b -> length p' = length p -> (length chunk <= length p)%nat -> take (length chunk) p' = chunk ->
  match er with
  | None => delivers F k rd' rest e
  | Some e' => rest = [] /\ e' = e /\ exhausted F rd' e
  end ->
  b_buf b1 = b_buf b -> b_rd b1 = rd' -> b_r b1 = b_r b -> b_w b1 = b_w b ->
  b_TotalRead b1 = counted (b_TotalRead b) (len chunk) -> b_err b1 = er ->
  wp (let! err := readErr in ret (p', len chunk, err)) f b1 (read_result F (S k) b (chunk ++ rest) e p).
Proof.
  intros Hwf Ewr Hlp Hlc Ht Her Hb1 Hrd1 Hr1 Hw1 Ht1 He1. wp_step. apply readErr_run. wp_step. rewrite He1.
  assert (br_wf (set_b_err None b1)) as Hwf1 by (unfold br_wf; cbn; by rewrite Hb1, Hr1, Hw1).
  exists chunk, rest. do 6 (split; [done|]). destruct er as [e'|].
  - destruct Her as (-> & -> & Hex). do 2 (split; [done|]). split; [exact Hwf1|].
    cbn. by rewrite Hw1, Hr1, Hrd1.
  - exists k. split; [|destruct (decide _); [split; [lia | done] | lia]].
    split; [done|]. exists rest. split; [|unfold source; cbn; by rewrite Hrd1].
    rewrite data_nil; [done | cbn; by rewrite Hw1, Hr1].
Qed.

Lemma Read_result_run F k b bs e p f :
  holds F k b bs e -> p <> [] -> (F <= f)%nat -> wp (bufReader_Read p) f b (read_result F k b bs e p).
Proof.
  intros Hh Hp HF. assert (0 < len p) by (destruct p; [done | cbn; lia]).
  pose proof Hh as (Hwf & rest & Hbs & Hs). pose proof (len_data b Hwf) as Hld.
  assert (forall p' b' er, length p' = length p -> b_TotalRead b' = b_TotalRead b ->
    match er with
    | None => exists k', holds F k' b' bs e /\ (S k' <= k)%nat /\ b_err b' = None
    | Some e' => bs = [] /\ e' = e /\ drained F b' e
    end -> read_result F k b bs e p (p', 0, er) b') as Hnone.
  { intros p' b' er Hlp Htot Her. exists [], bs. do 3 (split; [done|]). split; [cbn; lia|]. do 2 (split; [done|]).
    destruct er; [done|]. destruct Her as (k' & Hh' & Hk'). exists k'. by rewrite decide_True. }
  unfold bufReader_Read. rewrite (proj2 (Z.eqb_neq (len p) 0)) by lia. do 2 wp_step.
  destruct (b_w b =? b_r b) eqn:Ewr; [apply Z.eqb_eq in Ewr | apply Z.eqb_neq in Ewr; by apply (Read_of_buffer F k k b)].
  destruct (b_err b) as [e'|] eqn:Eerr.
  { wp_step. eapply pending_error; [exact Hh | done | exact Eerr |].
    intros b' -> Hdr Htot. wp_step. by apply Hnone. }
  unfold source in Hs. rewrite Eerr in Hs. rewrite data_nil in Hbs by done. cbn in Hbs. subst rest.
  destruct (len p >=? len (b_buf b)) eqn:Elarge.
  - do 2 wp_step. destruct k as [|k]; [done|]. cbn [delivers] in Hs.
    eapply wp_mono; [by apply Hs|].
    intros [[p' n] er] rd' (chunk & rest & -> & -> & Hlp & Hlc & Ht & Her). do 3 wp_step.
    wp_step. wp_step.
    + destruct (lookup_lt_is_Some_2 p' (Z.to_nat (len chunk - 1))) as [c Hc]; [lia|].
      eapply wp_index; [lia | exact Hc |]. do 3 wp_step. eapply Read_from_source; try done.
      cbn. unfold counted. destruct (len chunk =? 0) eqn:E; [blia | done].
    + eapply Read_from_source; try done. cbn. unfold counted. destruct (len chunk =? 0) eqn:E; [done | blia].
  - wp_step. eapply fill_holds; [exact Hh | destruct Hwf; lia | done | done |].
    intros b' chunk k' Hk Hh' Hr' Hl (Htot & _) Hdata. lazy beta. do 2 wp_step.
    destruct (b_w b' =? b_r b') eqn:Ewr'; [apply Z.eqb_eq in Ewr' | apply Z.eqb_neq in Ewr'; by apply (Read_of_buffer F k k' b); try lia].
    wp_step. destruct (b_err b') as [e'|] eqn:Ee'.
    + eapply pending_error; [exact Hh' | done | exact Ee' |]. intros b2 -> Hdr Ht2. wp_step.
      apply Hnone; [done | congruence | done].
    + apply readErr_run. wp_step. rewrite Ee'. apply Hnone; [done | done |]. exists k'.
      split; [|split; [lia | done]]. destruct Hh' as (? & r & ? & Hsrc). split; [done|]. exists r. split; [done|].
      unfold source in *. cbn. by rewrite Ee' in Hsrc.
Qed.

Lemma Read_run F k b bs e p f (Q : bytes * Z * option error -> BR -> Prop) :
  holds F k b bs e -> p <> [] -> (F <= f)%nat ->
  (forall p' b' er chunk rest, bs = chunk ++ rest -> length p' = length p ->
     (length chunk <= length p)%nat -> take (length chunk) p' = chunk ->
     b_TotalRead b' = counted (b_TotalRead b) (len chunk) ->
     match er with
     | None => reads_on F k b' chunk rest e
     | Some e' => rest = [] /\ e' = e /\ drained F b' e
     end -> Q (p', len chunk, er) b') ->
  wp (bufReader_Read p) f b Q.
Proof.
  intros Hh Hp HF HQ. eapply wp_mono; [by apply Read_result_run|].
  intros [[p' n] er] b' (chunk & rest & -> & -> & Hlp & Hlc & Ht & Htot & Her). by apply (HQ p' b' er chunk rest).
Qed.

#[global] Instance bufReader_Reader : Reader BR := bufReader_Read.

Lemma drained_exhausted F b e : drained F b e -> exhausted F b e.
Proof.
  intros Hd. exists (fun b => drained F b e). split; [done|].
  clear b Hd. intros b p f Hd Hp HF. unfold read, bufReader_Reader.
  eapply Read_run; [by apply drained_holds | done | done |].
  intros p' b' er chunk rest Hbs Hlp Hlc _ _ Her.
  symmetry in Hbs. apply app_nil in Hbs as [-> ->].
  destruct er as [e'|]; [destruct Her as (_ & -> & ?); done|].
  exfalso. destruct Her as (k' & (_ & rest & _ & Hs) & Hk). rewrite decide_True in Hk by done.
  destruct Hk as [Hk Herr]. assert (k' = O) as -> by lia. unfold source in Hs.
  by rewrite Herr in Hs.
Qed.

Lemma holds_delivers F m k b bs e :
  holds F k b bs e -> (k + length bs < m)%nat -> delivers F m b bs e.
Proof.
  revert k b bs. induction m as [|m IH]; intros k b bs Hh Hm; [lia|].
  cbn [delivers]. intros p f Hp HF. unfold read, bufReader_Reader.
  eapply Read_run; [exact Hh | done | done |].
  intros p' b' er chunk rest Hbs Hlp Hlc Ht _ Her.
  exists chunk, rest. do 5 (split; [done|]). destruct er as [e'|].
  - destruct Her as (-> & -> & Hd). eauto using drained_exhausted.
  - destruct Her as (k' & Hh' & Hk). apply (IH k'); [exact Hh'|].
    rewrite Hbs, length_app in Hm. destruct (decide (chunk = [])) as [->|Hne].
    + destruct Hk. cbn in Hm. lia.
    + destruct chunk; [done|]. cbn [List.length] in Hm. lia.
Qed.

(** ** Searching *)

Lemma IndexByte_spec (s : bytes) c :
  (IndexByte s c < 0 /\ ~ In c s) \/
  exists pre post, s = pre ++ c :: post /\ ~ In c pre /\ IndexByte s c = len pre.
Proof.
  induction s as [|x s IH]; cbn [IndexByte]; [left; split; [lia | tauto]|].
  destruct (decide (x = c)) as [->|Hx].
  { right. exists [], s. split; [done|]. split; [tauto | done]. }
  destruct IH as [[Hi Hin]|(pre & post & -> & Hin & Hi)].
  - left. rewrite (proj2 (Z.ltb_lt _ _) Hi). split; [lia|]. cbn. intuition.
  - right. exists (x :: pre), post. split; [done|]. split; [cbn; intuition|].
    rewrite Hi, (proj2 (Z.ltb_ge _ _)) by lia. rewrite length_cons. lia.
Qed.

(** How a search ends: at the delimiter, at the end of the stream, or with a full buffer. *)
Inductive slice_end F k (size : Z) (delim : byte) bs e b' : bytes -> option error -> Prop :=
| slice_found k' pre rest :
    bs = (pre ++ [delim]) ++ rest -> ~ In delim pre ->
    holds F k' b' rest e -> (k' <= k)%nat ->
    slice_end F k size delim bs e b' (pre ++ [delim]) None
| slice_over :
    ~ In delim bs -> drained F b' e ->
    slice_end F k size delim bs e b' bs (Some e)
| slice_full k' line rest :
    bs = line ++ rest -> ~ In delim line -> len line = size ->
    holds F k' b' rest e -> (k' <= k)%nat -> b_w b' = b_r b' ->
    slice_end F k size delim bs e b' line (Some ErrBufferFull).

Lemma slice_end_mono F k k1 size delim bs e b' line er :
  (k1 <= k)%nat -> slice_end F k1 size delim bs e b' line er ->
  slice_end F k size delim bs e b' line er.
Proof.
  intros Hk []; [eapply slice_found | eapply slice_over | eapply slice_full]; eauto; lia.
Qed.

(** What [ReadSlice] does while it refills: [n] bytes without the delimiter are buffered. *)
Lemma holds_prefix F k b bs e pre post :
  holds F k b bs e -> data b = pre ++ post ->
  exists rest, bs = pre ++ post ++ rest /\
    holds F k (set_b_r (b_r b + len pre) b) (post ++ rest) e.
Proof.
  intros Hh Hd. pose proof Hh as (_ & rest & -> & _). exists rest.
  rewrite Hd in *. split; [by rewrite <- app_assoc|].
  replace (post ++ rest) with (drop (Z.to_nat (len pre)) ((pre ++ post) ++ rest)).
  - apply holds_advance; [exact Hh|]. rewrite Hd, length_app. lia.
  - by rewrite Nat2Z.id, <- app_assoc, drop_app_length.
Qed.

(** The bytes before [post] in a buffer that starts with its data. *)
Lemma line_at_start F k b bs e pre post :
  holds F k b bs e -> b_r b = 0 -> data b = pre ++ post ->
  sub 0 (len pre) (b_buf b) = pre /\ len pre <= b_w b /\
  exists rest, bs = pre ++ post ++ rest /\ holds F k (set_b_r (len pre) b) (post ++ rest) e.
Proof.
  intros Hh Hr Hd. pose proof (len_data b (proj1 Hh)) as Hl. rewrite Hd, len_app in Hl.
  destruct (holds_prefix F k b bs e pre post Hh Hd) as (rest & Hbs & Hh').
  rewrite Hr in Hh'. split; [|split; [lia | by exists rest]].
  unfold data in Hd. rewrite Hr in Hd.
  rewrite sub_0_take in *. rewrite Nat2Z.id.
  replace (length pre) with (Nat.min (length pre) (Z.to_nat (b_w b))) by lia.
  by rewrite <- take_take, Hd, take_app_length.
Qed.

Lemma slice_step F j k b bs e delim f (Q : unit + (bytes * option error) -> BR -> Prop) :
  holds F j b bs e -> (j <= k)%nat -> ~ In delim (data b) ->
  b_w b - b_r b < len (b_buf b) -> (F <= f)%nat ->
  (forall b' line er, slice_end F k (len (b_buf b)) delim bs e b' line er ->
     length (b_buf b') = length (b_buf b) -> Q (inr (line, er)) b') ->
  (forall b' k', (k' < j)%nat -> holds F k' b' bs e -> ~ In delim (data b') ->
     length (b_buf b') = length (b_buf b) -> b_w b' - b_r b' < len (b_buf b') -> Q (inl tt) b') ->
  wp (      let! b := get in
      match b_err b with
      | Some _ =>
          let! line := slice (b_r b) (b_w b) (b_buf b) in
          modify (count_read (b_w b - b_r b)) ;;;
          modify (set_b_r (b_w b)) ;;;
          let! err := readErr in
          ret (inr (line, err))
      | None =>
          let n := bufReader_Buffered b in
          fill ;;;
          let! b := get in
          let! data := slice n (b_w b) (b_buf b) in
          let i := IndexByte data delim in
          if 0 <=? i then
            let! line := slice 0 (n + i + 1) (b_buf b) in
            modify (set_b_r (n + i + 1)) ;;;
            modify (count_read (i + 1)) ;;;
            ret (inr (line, None))
          else if bufReader_Buffered b >=? len (b_buf b) then
            modify (count_read (len (b_buf b))) ;;;
            modify (set_b_r (b_w b)) ;;;
            ret (inr (b_buf b, Some ErrBufferFull))
          else ret (inl tt)
      end) f b Q.
Proof.
  intros Hh Hj Hnin Hroom HF HQ HI. pose proof Hh as (Hwf & rest & Hbs & Hs).
  pose proof (len_data b Hwf) as Hl. pose proof Hwf as (Hr & Hw & Hmin). unfold minReadBufferSize in Hmin.
  do 2 wp_step. destruct (b_err b) as [e0|] eqn:Herr.
  { do 6 wp_step. wp_step. unfold source in Hs. rewrite Herr in Hs. destruct Hs as (-> & -> & Hex).
    rewrite app_nil_r in Hbs. apply readErr_run. wp_step. cbn [b_err count_read set_b_r]. rewrite Herr.
    fold (data b). rewrite <- Hbs. apply HQ; [|done]. apply slice_over; [by rewrite Hbs|].
    split; [|done]. repeat split; cbn; unfold minReadBufferSize; lia. }
  cbv zeta. wp_step. eapply fill_holds; [exact Hh | done | done | done |].
  intros b2 chunk k2 Hk2 Hh2 Hr2 Hl2 _ Hd2. pose proof (len_data b2 (proj1 Hh2)) as Hlen2.
  pose proof (proj1 Hh2) as (_ & Hw2 & _). rewrite Hd2, len_app, Hr2 in Hlen2. do 2 wp_step.
  unfold bufReader_Buffered. rewrite <- Hl. wp_step. apply wp_slice; [lia | lia |].
  replace (sub (len (data b)) (b_w b2) (b_buf b2)) with chunk.
  2:{ rewrite <- (drop_app_length (data b) chunk), <- Hd2. unfold data at 2.
      rewrite <- (Nat2Z.id (length (data b))) at 1. rewrite sub_drop by lia. f_equal. lia. }
  destruct (IndexByte_spec chunk delim) as [[Hi Hin]|(pre & post & Hc & Hin & Hi)].
  - rewrite (proj2 (Z.leb_gt 0 (IndexByte chunk delim))) by lia.
    assert (~ In delim (data b2)) as Hnin2 by (rewrite Hd2, in_app_iff; tauto).
    destruct (b_w b2 - b_r b2 >=? len (b_buf b2)) eqn:Efull.
    2:{ wp_step. apply (HI b2 k2); try done. lia. }
    assert (b_w b2 = len (b_buf b2)) as Hfull by lia.
    assert (data b2 = b_buf b2) as Hall by (unfold data; rewrite Hr2, Hfull; apply sub_all).
    do 5 wp_step. apply HQ; [|done].
    destruct (line_at_start F k2 b2 bs e (b_buf b2) [] Hh2 Hr2) as (_ & _ & rest2 & Hbs2 & Hh3);
      [by rewrite app_nil_r|].
    apply (slice_full F k _ delim bs e _ k2 (b_buf b2) rest2); try done; [by rewrite <- Hall | lia | | lia].
    cbn. by rewrite Hfull.
  - rewrite Hi, (proj2 (Z.leb_le 0 (len pre))) by lia.
    assert (data b2 = ((data b ++ pre) ++ [delim]) ++ post) as Hd3
      by (rewrite Hd2, Hc, <- !app_assoc; done).
    assert (len ((data b ++ pre) ++ [delim]) = len (data b) + len pre + 1) as Hll
      by (rewrite !len_app; cbn; lia).
    destruct (line_at_start F k2 b2 bs e _ post Hh2 Hr2 Hd3) as (Hsub & Hle & rest2 & Hbs2 & Hh3).
    rewrite Hll in Hsub, Hle, Hh3. wp_step. apply wp_slice; [lia | lia |]. rewrite Hsub. do 5 wp_step.
    apply HQ; [|done]. apply (slice_found F k _ delim bs e _ k2 _ (post ++ rest2)); try done; [| lia].
    rewrite in_app_iff. tauto.
Qed.

Lemma ReadSlice_run F k b bs e delim f (Q : bytes * option error -> BR -> Prop) :
  holds F k b bs e -> b_w b - b_r b < len (b_buf b) -> (F <= f)%nat -> (k < f)%nat ->
  (forall b' line er, slice_end F k (len (b_buf b)) delim bs e b' line er ->
     length (b_buf b') = length (b_buf b) -> Q (line, er) b') ->
  wp (ReadSlice delim) f b Q.
Proof.
  intros Hh Hroom HF Hk HQ. pose proof (proj1 Hh) as Hwf. pose proof (len_data b Hwf) as Hl.
  destruct Hwf as (Hr & Hw & Hmin). unfold ReadSlice. do 4 wp_step. fold (data b).
  destruct (IndexByte_spec (data b) delim) as [[Hi Hin]|(pre & post & Hc & Hin & Hi)].
  - rewrite (proj2 (Z.leb_gt 0 (IndexByte (data b) delim))) by lia.
    set (size := len (b_buf b)) in *.
    apply (wp_iter (fun j _ b1 => (j <= k)%nat /\ holds F j b1 bs e /\ ~ In delim (data b1) /\
      length (b_buf b1) = length (b_buf b) /\ b_w b1 - b_r b1 < size) k); [|lia|done].
    intros j [] b1 (Hj & Hh1 & Hnin1 & Hl1 & Hroom1).
    assert (len (b_buf b1) = size) as Hs1 by (subst size; lia).
    apply (slice_step F j k b1 bs e); try done; [lia | |].
    + intros b' line er Hend Hl'. apply HQ; [by rewrite <- Hs1 | lia].
    + intros b' k' Hk' Hh' Hnin' Hl' Hroom'. exists k'. split; [lia|].
      repeat split; try done; try apply Hh'; lia.
  - rewrite Hi, (proj2 (Z.leb_le 0 (len pre))) by lia.
    assert (data b = (pre ++ [delim]) ++ post) as Hd by (rewrite <- app_assoc; exact Hc).
    destruct (holds_prefix F k b bs e _ post Hh Hd) as (rest & Hbs & Hh').
    assert (len (pre ++ [delim]) = len pre + 1) as Hll by (rewrite len_app; cbn; lia).
    assert (len (data b) = len pre + 1 + len post) as Hld by (rewrite Hd, !len_app; cbn; lia).
    rewrite Hll in Hh'. wp_step. apply wp_slice; [lia | lia |].
    replace (sub (b_r b) (b_r b + len pre + 1) (b_buf b)) with (pre ++ [delim]).
    2:{ rewrite <- (take_app_length (pre ++ [delim]) post), <- Hd. unfold data, sub.
        rewrite take_take. f_equal. lia. }
    do 5 wp_step. apply HQ; [|done].
    apply (slice_found F k _ delim bs e _ k pre (post ++ rest)); try done.
Qed.

(** What is left to read, without the reads it takes. *)
Definition holds_now F b bs e : Prop := exists k, holds F k b bs e.

(** A line read up to the delimiter, or all there was. *)
Definition line_of F (delim : byte) bs e (line : bytes) (err : option error) b' : Prop :=
  (exists pre rest, bs = pre ++ delim :: rest /\ ~ In delim pre /\
     line = pre ++ [delim] /\ err = None /\ holds_now F b' rest e) \/
  (~ In delim bs /\ line = bs /\ err = Some e /\ drained F b' e).

Lemma ReadBytes_run F k b bs e delim f :
  holds F k b bs e -> b_w b - b_r b < len (b_buf b) -> e <> ErrBufferFull ->
  (F <= f)%nat -> (k + length bs < f)%nat ->
  wp (ReadBytes delim) f b (fun '(line, err) b' => line_of F delim bs e line err b').
Proof.
  intros Hh Hroom He HF Hf. unfold ReadBytes. wp_step.
  apply (wp_iter (fun j full b1 => exists k1 rest, bs = concat full ++ rest /\
    ~ In delim (concat full) /\ holds F k1 b1 rest e /\ (k1 <= k)%nat /\ (length rest <= j)%nat /\
    b_w b1 - b_r b1 < len (b_buf b1)) (length bs)); [|lia|].
  2:{ exists k, bs. repeat split; try done; try apply Hh. cbn. tauto. }
  clear b Hh Hroom. intros j full b (k1 & rest & -> & Hnin & Hh & Hk1 & Hj & Hroom).
  pose proof (proj1 Hh) as (_ & _ & Hmin). unfold minReadBufferSize in Hmin.
  wp_step. eapply ReadSlice_run; [exact Hh | done | done | lia |].
  intros b' line er Hend Hl. lazy beta iota. destruct Hend as [k' pre rest' Hr Hin Hh' Hk'|Hin Hd|k' line rest' Hr Hin Hll Hh' Hk' Hwr].
  - do 2 wp_step. left. exists (concat full ++ pre), rest'.
    split; [by rewrite Hr, <- !app_assoc|]. split; [rewrite in_app_iff; tauto|].
    split; [by rewrite app_assoc|]. split; [done | by exists k'].
  - rewrite decide_False by done. do 2 wp_step. right. rewrite in_app_iff. tauto.
  - rewrite decide_True by done. wp_step.
    assert (0 < len line) by lia. pose proof (f_equal length Hr) as Hlr. rewrite length_app in Hlr.
    exists (length rest'). split; [lia|]. exists k', rest'. rewrite concat_app. cbn [concat].
    rewrite app_nil_r. split; [by rewrite Hr, app_assoc|]. split; [rewrite in_app_iff; tauto|].
    split; [exact Hh'|]. split; [lia|]. split; [done|]. lia.
Qed.

(** ** Single bytes *)

Lemma data_cons b x l : br_wf b -> data b = x :: l ->
  b_buf b !! Z.to_nat (b_r b) = Some x /\ b_r b < b_w b.
Proof.
  intros Hwf Hd. pose proof (len_data b Hwf) as Hl. rewrite Hd, length_cons in Hl.
  split; [|lia]. pose proof (f_equal (fun l => l !! 0%nat) Hd) as Hx. cbn in Hx.
  destruct Hwf as (Hr & _). unfold data in Hx. rewrite sub_lookup in Hx by lia.
  rewrite decide_True in Hx by lia. by rewrite Nat.add_0_r in Hx.
Qed.

Lemma holds_cons F k b bs e : holds F k b bs e -> b_w b <> b_r b ->
  exists x l rest, data b = x :: l /\ bs = x :: l ++ rest.
Proof.
  intros (Hwf & rest & -> & _) Hne. pose proof (len_data b Hwf) as Hl.
  destruct (data b) as [|x l] eqn:E; [cbn in Hl; lia|]. by exists x, l, rest.
Qed.

(** The loops that wait for data: they return with data buffered, or the final error pending. *)
Lemma ReadByte_run F k b bs e f (Q : byte * option error -> BR -> Prop) :
  holds F k b bs e -> (F <= f)%nat -> (k < f)%nat ->
  match bs with
  | c :: rest => forall b', holds_now F b' rest e -> 0 < b_r b' ->
      b_lastByte b' = b2z c -> b_lastRuneSize b' = -1 -> holds_now F (set_b_r (b_r b' - 1) b') bs e ->
      b_TotalRead b' = i64 (b_TotalRead b + 1) -> Q (c, None) b'
  | [] => forall b', drained F b' e -> b_TotalRead b' = b_TotalRead b -> Q (x00, Some e) b'
  end ->
  wp bufReader_ReadByte f b Q.
Proof.
  intros Hh HF Hk HQ. unfold bufReader_ReadByte. do 3 wp_step.
  destruct (ex_intro (fun T => b_TotalRead b = T) _ eq_refl) as [T HT]. rewrite HT in HQ.
  apply (wp_iter (fun j _ b1 => (j <= k)%nat /\ holds F j b1 bs e /\ b_TotalRead b1 = T /\
    b_lastRuneSize b1 = -1) k); [|lia|done].
  clear b Hh HT. intros j [] b (Hj & Hh & Ht & Hrune). do 2 wp_step.
  destruct (b_w b =? b_r b) eqn:E; [apply Z.eqb_eq in E|apply Z.eqb_neq in E].
  - destruct (b_err b) as [e0|] eqn:Herr.
    + wp_step. eapply pending_error; [exact Hh | done | exact Herr |].
      intros b' -> Hd Ht'. do 2 wp_step. apply HQ; [done | congruence].
    + pose proof (proj1 Hh) as (Hr & Hw & Hmin). unfold minReadBufferSize in Hmin.
      wp_step. eapply fill_holds; [exact Hh | lia | done | done |].
      intros b' chunk k' Hk' Hh' _ _ (Ht' & _ & Hrune') _. wp_step. exists k'. split; [lia|].
      split; [lia|]. split; [done|]. split; congruence.
  - destruct (holds_cons F j b bs e Hh E) as (x & l & rest & Hd & ->).
    destruct (data_cons b x l (proj1 Hh) Hd) as [Hx Hlt]. pose proof (proj1 Hh) as (Hr & _).
    do 4 wp_step. eapply wp_index; [lia | exact Hx |]. wp_steps.
    pose proof (holds_advance F j b _ e 1 Hh ltac:(rewrite Hd, length_cons; lia)) as Hh'.
    change (drop (Z.to_nat 1) (x :: l ++ rest)) with (l ++ rest) in Hh'.
    apply HQ; cbn; [by exists j | lia | done | done | | by rewrite Ht].
    exists j. replace (b_r b + 1 - 1) with (b_r b) by lia. by destruct b.
Qed.

Lemma uncount_count b n : 0 <= n -> 0 <= b_TotalRead b -> b_TotalRead b + n < 2 ^ 63 ->
  forall b', b_TotalRead b' = i64 (b_TotalRead b + n) ->
  b_TotalRead (uncount n b') = b_TotalRead b.
Proof.
  intros Hn Ht Hlt b' Hb'. rewrite i64_small in Hb' by (unfold in_i64; lia).
  unfold uncount. rewrite Hb', (proj2 (Z.geb_le _ _)) by lia. cbn. rewrite Hb', i64_small; [lia|].
  unfold in_i64. lia.
Qed.

Lemma holds_uncount F k b bs e n : holds F k b bs e -> holds F k (uncount n b) bs e.
Proof. unfold uncount. by destruct (_ >=? _). Qed.

(** Putting a byte back, when it was the last one read. *)
Lemma UnreadByte_run F b c rest e T f (Q : option error -> BR -> Prop) :
  holds_now F b rest e -> 0 < b_r b -> b_lastByte b = b2z c ->
  holds_now F (set_b_r (b_r b - 1) b) (c :: rest) e ->
  (forall b', b_TotalRead b' = b_TotalRead b -> b_TotalRead (uncount 1 b') = T) ->
  (forall b', holds_now F b' (c :: rest) e -> b_TotalRead b' = T -> Q None b') ->
  wp UnreadByte f b Q.
Proof.
  intros (k & Hwf & rest' & Hrest & Hs) Hr Hlast (k' & Hback) HT HQ. unfold UnreadByte. do 4 wp_step.
  cbn [b_r b_w b_lastByte set_lasts]. pose proof Hwf as (_ & Hw & Hmin). unfold minReadBufferSize in Hmin.
  pose proof (b2z_range c). rewrite Hlast, (proj2 (Z.geb_le (b2z c) 0)), andb_true_r by lia.
  destruct (b_r b =? b_w b) eqn:E; [apply Z.eqb_eq in E|].
  - wp_steps; [cbn; lia|]. rewrite z2b_b2z. apply HQ; [|by apply HT].
    exists k. apply holds_uncount. split; [unfold br_wf, minReadBufferSize; cbn; rewrite length_insert; lia|].
    exists rest'. rewrite (data_nil b) in Hrest by done. split; [|exact Hs].
    rewrite Hrest. unfold data. cbn. change (Z.to_nat 0) with 0%nat.
    destruct (b_buf b) as [|x l]; [cbn in Hmin; lia | done].
  - rewrite (proj2 (Z.leb_gt (b_r b) 0)) by lia. wp_steps. apply HQ; [|by apply HT].
    exists k'. by apply holds_uncount.
Qed.

(** ** [Peek] *)

Lemma Peek_run F k b bs e n f :
  holds F k b bs e -> 0 <= n <= len (b_buf b) -> (F <= f)%nat -> (k < f)%nat ->
  wp (Peek n) f b (fun '(out, err) b' =>
    holds_now F b' bs e /\ b_TotalRead b' = b_TotalRead b /\
    out = take (Z.to_nat n) bs /\ err = if n <=? len bs then None else Some e).
Proof.
  intros Hh Hn HF Hk. unfold Peek. do 2 wp_step.
  rewrite (proj2 (Z.ltb_ge n 0)) by lia.
  destruct (n >? len (b_buf b)) eqn:E; [exfalso; lia|]. clear E. wp_step.
  destruct (ex_intro (fun T => b_TotalRead b = T) _ eq_refl) as [T HT]. rewrite HT.
  apply (wp_iter (fun j _ b1 => (j <= k)%nat /\ holds F j b1 bs e /\ b_TotalRead b1 = T /\
    n <= len (b_buf b1)) k); [|lia|by destruct Hn].
  destruct Hn as [Hn0 Hn].
  clear b Hh HT Hn. intros j [] b (Hj & Hh & Ht & Hn). do 2 wp_step.
  pose proof (len_data b (proj1 Hh)) as Hl. pose proof (proj1 Hh) as (Hr & Hw & _).
  destruct ((b_w b - b_r b <? n) && bool_decide (b_err b = None)) eqn:E.
  { apply andb_true_iff in E as [Elt Enone]. apply bool_decide_eq_true in Enone.
    wp_step. eapply fill_holds; [exact Hh | lia | done | done |].
    intros b' chunk k' Hk' Hh' _ Hl' (Ht' & _) _. wp_step. exists k'. split; [lia|].
    split; [lia|]. split; [done|]. split; [congruence | lia]. }
  wp_step. do 3 wp_step. cbv zeta. pose proof Hh as (Hwf & rest & Hbs & Hs).
  destruct (Z.le_gt_cases n (b_w b - b_r b)) as [Hle|Hgt].
  - replace (if b_w b - b_r b >? n then n else b_w b - b_r b) with n
      by (destruct (_ >? _) eqn:?; lia).
    rewrite Z.ltb_irrefl. do 4 wp_step. apply wp_slice; [lia..|]. wp_step.
    split; [by exists j|]. split; [done|].
    rewrite (proj2 (Z.leb_le n (len bs))) by (rewrite Hbs, len_app; lia).
    split; [|done]. rewrite Hbs, take_app_le by lia. unfold data, sub.
    rewrite take_take. f_equal. lia.
  - replace (if b_w b - b_r b >? n then n else b_w b - b_r b) with (b_w b - b_r b)
      by (destruct (_ >? _) eqn:?; lia).
    rewrite (proj2 (Z.ltb_lt (b_w b - b_r b) n)) in E |- * by lia. apply bool_decide_eq_false in E.
    unfold source in Hs. destruct (b_err b) as [e0|] eqn:Herr; [|done].
    destruct Hs as (-> & -> & Hex). rewrite app_nil_r in Hbs.
    wp_step. apply readErr_run. rewrite Herr. do 4 wp_step. cbn [b_r b_buf set_b_err].
    apply wp_slice; [lia..|]. wp_step.
    split.
    { exists 1%nat. split; [done|]. exists []. rewrite app_nil_r. split; [done|].
      by apply exhausted_delivers. }
    split; [done|]. rewrite (proj2 (Z.leb_gt n (len bs))) by (rewrite Hbs; lia).
    split; [|done]. rewrite take_ge by (rewrite Hbs; lia). rewrite Hbs. unfold data.
    f_equal. lia.
Qed.

(** ** Runes *)

Definition rune_result F bs e T (Q : Z * Z * option error -> BR -> Prop) : Prop :=
  match bs with
  | [] => forall b', drained F b' e -> b_TotalRead b' = T -> Q (0, 0, Some e) b'
  | _ => forall b' r size, DecodeRune bs = (r, size) -> 1 <= size <= len bs ->
      holds_now F b' (drop (Z.to_nat size) bs) e ->
      size <= b_r b' -> b_lastRuneSize b' = size ->
      holds_now F (set_b_r (b_r b' - size) b') bs e ->
      b_TotalRead b' = i64 (T + size) -> Q (r, size, None) b'
  end.

(** The rune at the start of the buffer, once it is known to be the one the stream starts with. *)
Lemma decode_buffered F k b bs e f (Q : Z * Z * option error -> BR -> Prop) :
  holds F k b bs e -> (data b = [] -> b_err b <> None) ->
  DecodeRune bs = DecodeRune (data b) -> rune_result F bs e (b_TotalRead b) Q ->
  wp (modify (fun b => set_lasts (b_lastByte b) (-1) b) ;;;
      let! b := get in
      if b_r b =? b_w b then
        let! err := readErr in ret (0, 0, err)
      else
        let! c := index (b_r b) (b_buf b) in
        let! '(r, size) :=
          (if b2z c >=? 128 then
             let! data := slice (b_r b) (b_w b) (b_buf b) in
             ret (DecodeRune data)
           else ret (b2z c, 1)) in
        modify (fun b => set_b_r (b_r b + size) b) ;;;
        let! b := get in
        let! last := index (b_r b - 1) (b_buf b) in
        modify (set_lasts (b2z last) size) ;;;
        modify (count_read size) ;;;
        ret (r, size, None)) f b Q.
Proof.
  intros Hh Hpend Hdec HQ. pose proof (len_data b (proj1 Hh)) as Hl.
  pose proof (proj1 Hh) as (Hr & Hw & Hmin). do 4 wp_step.
  cbn [b_r b_w b_buf set_lasts]. destruct (b_r b =? b_w b) eqn:E.
  - apply Z.eqb_eq in E. destruct (b_err b) as [e0|] eqn:Herr.
    2:{ by destruct (Hpend (data_nil b (eq_sym E))). }
    wp_step. eapply (pending_error F k _ bs e e0); [exact Hh | done | exact Herr |].
    intros b' -> Hd Ht. wp_step. by apply HQ.
  - apply Z.eqb_neq in E. destruct (holds_cons F k b bs e Hh ltac:(lia)) as (x & l & rest & Hd & Hbs).
    destruct (data_cons b x l (proj1 Hh) Hd) as [Hx Hlt].
    pose proof (DecodeRune_size (data b) ltac:(by rewrite Hd)) as Hsize.
    destruct (DecodeRune (data b)) as [r size] eqn:Edec. cbn [snd] in Hsize.
    wp_step. eapply wp_index; [lia | exact Hx |].
    assert (forall Q1 : Z * Z -> BR -> Prop, Q1 (r, size) (set_lasts (b_lastByte b) (-1) b) ->
      wp (if b2z x >=? 128 then
             let! data := slice (b_r b) (b_w b) (b_buf b) in ret (DecodeRune data)
           else ret (b2z x, 1)) f (set_lasts (b_lastByte b) (-1) b) Q1) as Hchoose.
    { intros Q1 HQ1. destruct (b2z x >=? 128) eqn:Ex.
      - do 3 wp_step. fold (data b). by rewrite Edec.
      - wp_step. rewrite Hd, DecodeRune_ascii in Edec by lia. by injection Edec as <- <-. }
    wp_step. apply Hchoose. clear Hchoose. do 4 wp_step.
    cbn [b_r b_w b_buf set_lasts set_b_r].
    destruct (last_index_data b size (proj1 Hh) ltac:(lia)) as (c & Hc & _).
    wp_step. eapply wp_index; [lia | exact Hc |]. wp_steps.
    pose proof (holds_advance F k b bs e size Hh ltac:(lia)) as Hh'.
    assert (len (data b) <= len bs) as Hlb by (rewrite Hd, Hbs, app_comm_cons, len_app; lia).
    unfold rune_result in HQ. destruct bs as [|y bs]; [done|]. apply HQ; try done.
    + lia.
    + by exists k.
    + cbn. lia.
    + exists k. cbn. replace (b_r b + size - size) with (b_r b) by lia. by destruct b.
Qed.

Lemma ReadRune_run F k b bs e f (Q : Z * Z * option error -> BR -> Prop) :
  holds F k b bs e -> (F <= f)%nat -> (k < f)%nat -> rune_result F bs e (b_TotalRead b) Q ->
  wp ReadRune f b Q.
Proof.
  intros Hh HF Hk HQ. unfold ReadRune. wp_step.
  destruct (ex_intro (fun T => b_TotalRead b = T) _ eq_refl) as [T HT]. rewrite HT in HQ.
  apply (wp_iter (fun j _ b1 => (j <= k)%nat /\ holds F j b1 bs e /\ b_TotalRead b1 = T) k);
    [|lia|done].
  clear b Hh HT. intros j [] b (Hj & Hh & Ht).
  pose proof (len_data b (proj1 Hh)) as Hl. pose proof (proj1 Hh) as (Hr & Hw & Hmin).
  pose proof Hh as (Hwf & rest & Hbs & Hs). unfold minReadBufferSize in Hmin.
  assert (FullRune (data b) = true -> DecodeRune bs = DecodeRune (data b)) as Hfull
    by (intros Hf; rewrite Hbs; by apply DecodeRune_app).
  assert (FullRune (data b) = true -> data b = [] -> b_err b <> None) as Hne
    by (intros Hf Hd; by rewrite Hd in Hf).
  do 2 wp_step. unfold UTFMax. destruct (b_r b + 4 >? b_w b) eqn:E4.
  2:{ assert (FullRune (data b) = true) by (apply FullRune_long; lia). wp_step.
      eapply decode_buffered; eauto. by rewrite Ht. }
  do 2 wp_step. fold (data b). destruct (FullRune (data b)) eqn:Ef; cbn [negb andb].
  { wp_step. eapply decode_buffered; eauto. by rewrite Ht. }
  destruct (bool_decide (b_err b = None)) eqn:Eerr.
  - apply bool_decide_eq_true in Eerr. wp_step.
    assert (len (data b) < 4).
    { destruct (Z.le_gt_cases 4 (len (data b))) as [Hle|]; [|done].
      by rewrite FullRune_long in Ef. }
    eapply fill_holds; [exact Hh | lia | done | done |].
    intros b' chunk k' Hk' Hh' _ _ (Ht' & _) _. wp_step. exists k'. split; [lia|].
    split; [lia|]. split; [done | congruence].
  - apply bool_decide_eq_false in Eerr. wp_step. eapply decode_buffered; [exact Hh | done | |by rewrite Ht].
    unfold source in Hs. destruct (b_err b); [|done]. destruct Hs as (-> & _). by rewrite Hbs, app_nil_r.
Qed.

Lemma UnreadRune_run F b bs e size T f (Q : option error -> BR -> Prop) :
  1 <= size <= b_r b -> b_lastRuneSize b = size -> holds_now F (set_b_r (b_r b - size) b) bs e ->
  (forall b', b_TotalRead b' = b_TotalRead b -> b_TotalRead (uncount size b') = T) ->
  (forall b', holds_now F b' bs e -> b_TotalRead b' = T -> Q None b') ->
  wp UnreadRune f b Q.
Proof.
  intros Hsize Hlast (k & Hh) HT HQ. unfold UnreadRune. do 2 wp_step. rewrite Hlast.
  rewrite (proj2 (Z.ltb_ge size 0)), (proj2 (Z.eqb_neq (b_r b) 0)) by lia.
  cbn [orb]. wp_steps. apply HQ; [|by apply HT]. exists k.
  apply holds_lasts, holds_uncount. by rewrite Hlast.
Qed.

(** ** The properties *)

Lemma NewReaderSize_holds F k as_Reader (rd : R) size bs e :
  as_Reader rd = None -> delivers F k rd bs e -> holds F k (NewReaderSize as_Reader rd size) bs e.
Proof.
  intros Hnew Hd. unfold NewReaderSize. rewrite Hnew.
  set (sz := if size <? minReadBufferSize then minReadBufferSize else size).
  assert (minReadBufferSize <= sz) by (subst sz; destruct (size <? _) eqn:?; lia).
  unfold minReadBufferSize in *. split; [|by exists bs].
  unfold br_wf, minReadBufferSize. cbn [b_r b_w b_buf reset]. rewrite len_zeros by lia. lia.
Qed.

(** C22. Buffering is transparent. A new reader, of any size, delivers exactly the bytes its source
    delivers and then the source's error, for every sequence of reads with buffers of any sizes
    and for every way the source cuts its bytes up. *)
Theorem bufReader_transparent F k as_Reader (rd : R) size bs e :
  as_Reader rd = None -> delivers F k rd bs e ->
  delivers F (S (k + length bs)) (NewReaderSize as_Reader rd size) bs e.
Proof.
  intros Hnew Hd. apply (holds_delivers F _ k); [by apply NewReaderSize_holds | lia].
Qed.

(** One [Read] hands out the next bytes of the stream, copies them to the caller's buffer, and
    adds their number to [TotalRead], whether they come from the buffer or straight from
    the source. *)
Theorem Read_counts F k b bs e p f :
  holds F k b bs e -> p <> [] -> (F <= f)%nat ->
  wp (bufReader_Read p) f b (fun '(p', n, er) b' =>
    exists chunk rest, bs = chunk ++ rest /\ n = len chunk /\ n <= len p /\
      take (length chunk) p' = chunk /\
      b_TotalRead b' = (if n =? 0 then b_TotalRead b else i64 (b_TotalRead b + n)) /\
      match er with
      | None => holds_now F b' rest e
      | Some e' => e' = e /\ rest = [] /\ drained F b' e
      end).
Proof.
  intros Hh Hp HF. eapply Read_run; [exact Hh | done | done |].
  intros p' b' er chunk rest Hbs Hlp Hlc Ht Htot Her. exists chunk, rest.
  do 2 (split; [done|]). split; [lia|]. do 2 (split; [done|]).
  destruct er; [tauto|]. destruct Her as (k' & Hh' & _). by exists k'.
Qed.

(** C29. [ReadBytes] returns the bytes up to and including the first delimiter, however many buffers
    long the line is, and leaves the reader right after it; if there is no delimiter it
    returns all that is left and the source's error, which it returns in no other case. *)
Theorem ReadBytes_spec F k b bs e delim f :
  holds F k b bs e -> b_w b - b_r b < len (b_buf b) -> e <> ErrBufferFull ->
  (F <= f)%nat -> (k + length bs < f)%nat ->
  wp (ReadBytes delim) f b (fun '(line, err) b' =>
    (exists pre rest, bs = pre ++ delim :: rest /\ ~ In delim pre /\
       line = pre ++ [delim] /\ err = None /\ holds_now F b' rest e) \/
    (~ In delim bs /\ line = bs /\ err = Some e /\ drained F b' e)).
Proof. exact (ReadBytes_run F k b bs e delim f). Qed.

(** [Peek] shows the next [n] bytes, or all there are with the source's error, and consumes
    nothing: the reader still holds the same stream and has counted nothing. *)
Theorem Peek_spec F k b bs e n f :
  holds F k b bs e -> 0 <= n <= len (b_buf b) -> (F <= f)%nat -> (k < f)%nat ->
  wp (Peek n) f b (fun '(out, err) b' =>
    holds_now F b' bs e /\ b_TotalRead b' = b_TotalRead b /\
    out = take (Z.to_nat n) bs /\ err = if n <=? len bs then None else Some e).
Proof. exact (Peek_run F k b bs e n f). Qed.

(** Reading a byte or a rune and putting it back changes nothing: the value read is the first of
    the stream (an invalid encoding is one byte wide), and afterwards the reader holds the
    same stream and the same [TotalRead]. *)
Theorem unread_restores F k b x bs e f :
  holds F k b (x :: bs) e -> 0 <= b_TotalRead b -> b_TotalRead b + 4 < 2 ^ 63 ->
  (F <= f)%nat -> (k < f)%nat ->
  wp (let! '(c, err1) := bufReader_ReadByte in
      let! err2 := UnreadByte in ret (c, err1, err2)) f b
    (fun r b' => r = (x, None, None) /\ holds_now F b' (x :: bs) e /\
                 b_TotalRead b' = b_TotalRead b) /\
  wp (let! '(r, size, err1) := ReadRune in
      let! err2 := UnreadRune in ret (r, size, err1, err2)) f b
    (fun r b' => r = (DecodeRune (x :: bs), None, None) /\ holds_now F b' (x :: bs) e /\
                 b_TotalRead b' = b_TotalRead b).
Proof.
  intros Hh Ht0 Ht1 HF Hk. split; wp_step.
  - eapply ReadByte_run; [exact Hh | done | done |]. intros b1 Hrest Hr Hlast _ Hback Htot.
    wp_step. eapply (UnreadByte_run F b1 x bs e (b_TotalRead b)); [done.. | |].
    + intros b2 Hb2. apply (uncount_count b 1); [lia.. | congruence].
    + intros b2 Hh2 Ht2. by wp_step.
  - eapply ReadRune_run; [exact Hh | done | done |]. intros b1 r size Hdec Hsize Hrest Hr Hlast Hback Htot.
    wp_step. pose proof (DecodeRune_size4 (x :: bs)) as H4. rewrite Hdec in H4. cbn [snd] in H4.
    eapply (UnreadRune_run F b1 (x :: bs) e size (b_TotalRead b)); [lia | done | done | |].
    + intros b2 Hb2. apply (uncount_count b size); [lia.. | congruence].
    + intros b2 Hh2 Ht2. wp_step. by rewrite Hdec.
Qed.

End Spec.

(** ** Witnesses *)

Definition lines : list bytes := [str "GET / HT"; str "TP/1.1"; [x0a]; str "Host: a"].

Definition line_conn : conn :=
  {| conn_in := lines; conn_fin := EOF; conn_out := []; conn_room := None |}.

Definition no_Reader (c : conn) : option (bufReader conn) := None.

Definition line_reader : bufReader conn := NewReaderSize no_Reader line_conn 16.

Lemma line_reader_holds : holds 0 (conn_steps line_conn) line_reader (concat lines) EOF.
Proof. exact (NewReaderSize_holds _ _ no_Reader _ 16 _ _ eq_refl (conn_delivers line_conn)). Qed.

Lemma bufReader_transparent_witness :
  delivers 0 (S (conn_steps line_conn + length (concat lines))) line_reader (concat lines) EOF.
Proof.
  exact (bufReader_transparent 0 (conn_steps line_conn) no_Reader line_conn 16 (concat lines) EOF
    eq_refl (conn_delivers line_conn)).
Defined.

Lemma Read_counts_witness :
  wp (bufReader_Read (zeros 5)) 0 line_reader (fun '(p', n, er) b' =>
    exists chunk rest, concat lines = chunk ++ rest /\ n = len chunk /\ n <= len (zeros 5) /\
      take (length chunk) p' = chunk /\
      b_TotalRead b' = (if n =? 0 then b_TotalRead line_reader
                        else i64 (b_TotalRead line_reader + n)) /\
      match er with
      | None => holds_now 0 b' rest EOF
      | Some e' => e' = EOF /\ rest = [] /\ drained 0 b' EOF
      end).
Proof.
  exact (Read_counts 0 (conn_steps line_conn) line_reader (concat lines) EOF (zeros 5) 0
    line_reader_holds ltac:(discriminate) ltac:(lia)).
Defined.

Lemma ReadBytes_spec_witness :
  wp (ReadBytes lf) 99 line_reader (fun '(line, err) b' =>
    (exists pre rest, concat lines = pre ++ lf :: rest /\ ~ In lf pre /\
       line = pre ++ [lf] /\ err = None /\ holds_now 0 b' rest EOF) \/
    (~ In lf (concat lines) /\ line = concat lines /\ err = Some EOF /\ drained 0 b' EOF)).
Proof.
  apply (ReadBytes_spec 0 (conn_steps line_conn) line_reader (concat lines) EOF lf 99
    line_reader_holds); [vm_compute; reflexivity | discriminate | lia |].
  apply Nat.ltb_lt. vm_compute. reflexivity.
Defined.

Lemma Peek_spec_witness :
  wp (Peek 10) 99 line_reader (fun '(out, err) b' =>
    holds_now 0 b' (concat lines) EOF /\ b_TotalRead b' = b_TotalRead line_reader /\
    out = take (Z.to_nat 10) (concat lines) /\
    err = if 10 <=? len (concat lines) then None else Some EOF).
Proof.
  apply (Peek_spec 0 (conn_steps line_conn) line_reader (concat lines) EOF 10 99
    line_reader_holds); [vm_compute; split; discriminate | lia |].
  apply Nat.ltb_lt. vm_compute. reflexivity.
Defined.

Lemma unread_restores_witness :
  wp (let! '(c, err1) := bufReader_ReadByte in
      let! err2 := UnreadByte in ret (c, err1, err2)) 99 line_reader
    (fun r b' => r = (x47, None, None) /\ holds_now 0 b' (concat lines) EOF /\
                 b_TotalRead b' = b_TotalRead line_reader) /\
  wp (let! '(r, size, err1) := ReadRune in
      let! err2 := UnreadRune in ret (r, size, err1, err2)) 99 line_reader
    (fun r b' => r = (DecodeRune (concat lines), None, None) /\
                 holds_now 0 b' (concat lines) EOF /\
                 b_TotalRead b' = b_TotalRead line_reader).
Proof.
  apply (unread_restores 0 (conn_steps line_conn) line_reader x47 (drop 1 (concat lines)) EOF 99
    line_reader_holds); [vm_compute; discriminate | vm_compute; reflexivity | lia |].
  apply Nat.ltb_lt. vm_compute. reflexivity.
Defined.

(** ** Where the counter and the put-back state go wrong *)

(** [ReadSlice] undercounts: when the delimiter is found only after a refill, the bytes that were
    already buffered are handed out but not added to [TotalRead]. Here 15 bytes are
    returned and 1 is counted. *)
Theorem ReadSlice_undercounts :
  exists b', ReadSlice lf 99%nat line_reader = Ret (str "GET / HTTP/1.1" ++ [lf], None) b' /\
    b_TotalRead b' = 1.
Proof. eexists. vm_compute. split; reflexivity. Qed.

(** The reader after [ReadByte] and then a line. *)
Definition then_line {A} (m : M (bufReader conn) A) : M (bufReader conn) (option error) :=
  m ;;; (let! '(_, err) := ReadSlice lf in ret err).

Definition short_conn : conn :=
  {| conn_in := [str "ab" ++ [lf] ++ str "cd"]; conn_fin := EOF; conn_out := []; conn_room := None |}.

(** [ReadSlice] leaves the put-back state of the operation before it. After [ReadRune] and then
    [ReadSlice], [UnreadRune] succeeds, which its documentation rules out, and the next
    byte is the one before the delimiter's end, not the first of the line. *)
Theorem UnreadRune_after_ReadSlice :
  exists b', (then_line ReadRune ;;; (let! err := UnreadRune in
              let! '(c, _) := bufReader_ReadByte in ret (err, c))) 99%nat
    (NewReaderSize no_Reader short_conn 16) = Ret (None, lf) b'.
Proof. eexists. vm_compute. reflexivity. Qed.
