(* ===== verification/BufWriter.v ===== *)
(** The buffered writer of [m_bufio] (bufio.go, lines 502-745): a fork of Go's [bufio.Writer] that counts
    the bytes it takes, with the reader/writer pair. *)

From Stdlib Require Import ZArith Lia.
From Stdlib Require Import Strings.Byte.
From stdpp Require Import base decidable list numbers strings.
From S2P Require Import Prelude GoIO GoUtf8 BufReader.

Record bufWriter (W : Type) := {
  w_err : option error;
  w_buf : bytes;
  w_n : Z;
  w_wr : W;
  w_TotalWrite : Z
}.
Arguments w_err {W} _.
Arguments w_buf {W} _.
Arguments w_n {W} _.
Arguments w_wr {W} _.
Arguments w_TotalWrite {W} _.

Section BufWriter.
Context {W : Type} `{Writer W}.
Abbreviation BW := (bufWriter W).

Definition set_w_err x (b : BW) : BW :=
  {| w_err := x; w_buf := w_buf b; w_n := w_n b; w_wr := w_wr b; w_TotalWrite := w_TotalWrite b |}.
Definition set_w_buf x (b : BW) : BW :=
  {| w_err := w_err b; w_buf := x; w_n := w_n b; w_wr := w_wr b; w_TotalWrite := w_TotalWrite b |}.
Definition set_w_n x (b : BW) : BW :=
  {| w_err := w_err b; w_buf := w_buf b; w_n := x; w_wr := w_wr b; w_TotalWrite := w_TotalWrite b |}.
Definition set_w_wr x (b : BW) : BW :=
  {| w_err := w_err b; w_buf := w_buf b; w_n := w_n b; w_wr := x; w_TotalWrite := w_TotalWrite b |}.
Definition count_write n (b : BW) : BW :=
  {| w_err := w_err b; w_buf := w_buf b; w_n := w_n b; w_wr := w_wr b;
     w_TotalWrite := i64 (w_TotalWrite b + n) |}.

(** [as_Writer w] is the dynamic check [w.( *Writer)]. *)
Definition NewWriterSize (as_Writer : W -> option BW) (w : W) (size : Z) : BW :=
  let fresh :=
    let size := if size <=? 0 then defaultBufSize else size in
    {| w_err := None; w_buf := zeros size; w_n := 0; w_wr := w; w_TotalWrite := 0 |} in
  match as_Writer w with
  | Some b => if len (w_buf b) >=? size then b else fresh
  | None => fresh
  end.

Definition NewWriter (as_Writer : W -> option BW) (w : W) : BW :=
  NewWriterSize as_Writer w defaultBufSize.

Definition bufWriter_Reset (w : W) : M BW unit :=
  modify (fun b => {| w_err := None; w_buf := w_buf b; w_n := 0; w_wr := w; w_TotalWrite := 0 |}).

Definition flush : M BW (option error) :=
  let! b := get in
  match w_err b with
  | Some e => ret (Some e)
  | None =>
      if w_n b =? 0 then ret None
      else
        let! p := slice 0 (w_n b) (w_buf b) in
        let! '(n, err) := zoom w_wr set_w_wr (write p) in
        let err := match err with
                   | None => if n <? w_n b then Some ErrShortWrite else None
                   | Some _ => err
                   end in
        match err with
        | Some e =>
            when ((0 <? n) && (n <? w_n b))
              (let! dst := slice 0 (w_n b - n) (w_buf b) in
               let! src := slice n (w_n b) (w_buf b) in
               modify (set_w_buf (blit 0 (copy dst src).1 (w_buf b)))) ;;;
            modify (set_w_n (w_n b - n)) ;;;
            modify (set_w_err (Some e)) ;;;
            ret (Some e)
        | None => modify (set_w_n 0) ;;; ret None
        end
  end.

Definition Flush : M BW (option error) := flush.

Definition Available (b : BW) : Z := len (w_buf b) - w_n b.
Definition bufWriter_Buffered (b : BW) : Z := w_n b.

(** [n := copy(b.buf[b.n:], p); b.n += n]. *)
Definition put_in_buffer (p : bytes) : M BW Z :=
  let! b := get in
  let! dst := slice (w_n b) (len (w_buf b)) (w_buf b) in
  let '(dst, n) := copy dst p in
  modify (fun b => set_w_n (w_n b + n) (set_w_buf (blit (w_n b) dst (w_buf b)) b)) ;;;
  ret n.

(** The end of [Write] and of [WriteString]: report the error, or buffer what is left. *)
Definition write_rest (p : bytes) (nn : Z) : M BW (Z * option error) :=
  let! b := get in
  match w_err b with
  | Some e => modify (count_write nn) ;;; ret (nn, Some e)
  | None =>
      let! n := put_in_buffer p in
      let nn := nn + n in
      modify (count_write nn) ;;;
      ret (nn, None)
  end.

Definition bufWriter_Write (p : bytes) : M BW (Z * option error) :=
  let! '(p, nn) := iter (fun '(p, nn) =>
    let! b := get in
    if (len p >? Available b) && bool_decide (w_err b = None) then
      let! n :=
        (if bufWriter_Buffered b =? 0 then
           let! '(n, err) := zoom w_wr set_w_wr (write p) in
           modify (set_w_err err) ;;; ret n
         else
           let! n := put_in_buffer p in
           flush ;;; ret n) in
      let! p := slice n (len p) p in
      ret (inl (p, nn + n))
    else ret (inr (p, nn))) (p, 0) in
  write_rest p nn.

Definition bufWriter_WriteByte (c : byte) : M BW (option error) :=
  let! b := get in
  match w_err b with
  | Some e => ret (Some e)
  | None =>
      let! full := (if Available b <=? 0 then
                      let! err := flush in
                      ret (match err with Some _ => true | None => false end)
                    else ret false) in
      if full : bool then gets w_err
      else
        let! b := get in
        let! buf := store (w_n b) c (w_buf b) in
        modify (set_w_buf buf) ;;;
        modify (set_w_n (w_n b + 1)) ;;;
        modify (count_write 1) ;;;
        ret None
  end.

Definition bufWriter_WriteString (s : bytes) : M BW (Z * option error) :=
  let! '(s, nn) := iter (fun '(s, nn) =>
    let! b := get in
    if (len s >? Available b) && bool_decide (w_err b = None) then
      let! n := put_in_buffer s in
      let! s := slice n (len s) s in
      flush ;;;
      ret (inl (s, nn + n))
    else ret (inr (s, nn))) (s, 0) in
  write_rest s nn.

(** [r] is a 32-bit signed integer; [string(r)] is its encoding. *)
Definition WriteRune (r : Z) : M BW (Z * option error) :=
  if r <? RuneSelf then
    let! err := bufWriter_WriteByte (z2b r) in
    match err with
    | Some e => ret (0, Some e)
    | None => ret (1, None)
    end
  else
    let! b := get in
    match w_err b with
    | Some e => ret (0, Some e)
    | None =>
        let encode : M BW (Z * option error) :=
          let! b := get in
          let! room := slice (w_n b) (len (w_buf b)) (w_buf b) in
          let enc := EncodeRune r in
          let! _ := index (len enc - 1) room in
          modify (fun b => set_w_buf (blit (w_n b) enc (w_buf b)) b) ;;;
          modify (count_write (len enc)) ;;;
          modify (fun b => set_w_n (w_n b + len enc) b) ;;;
          ret (len enc, None) in
        if Available b <? UTFMax then
          flush ;;;
          let! b := get in
          match w_err b with
          | Some e => ret (0, Some e)
          | None =>
              if Available b <? UTFMax then bufWriter_WriteString (EncodeRune r)
              else encode
          end
        else encode
    end.

End BufWriter.

(** ** [ReadFrom], on a writer paired with the reader it drains *)

Section ReadFrom.
Context {W R : Type} `{Writer W} `{Reader R}.
(** [b.wr.(io.ReaderFrom)], if the writer has it. *)
Variable wr_ReadFrom : option (M (W * R) (Z * option error)).

Definition on_w {A} (m : M (bufWriter W) A) : M (bufWriter W * R) A :=
  zoom fst (fun b s => (b, s.2)) m.

(** The loop answers the total and the error of the last read, or the early return. *)
Definition bufWriter_ReadFrom_body (n : Z) :
    M (bufWriter W * R) (Z + ((Z * option error) + (Z * option error))) :=
  let! '(b, _) := get in
  let! err1 := (if Available b =? 0 then on_w flush else ret None) in
  match err1 with
  | Some e => ret (inr (inl (n, Some e)))
  | None =>
      let! '(b, _) := get in
      let! p := slice (w_n b) (len (w_buf b)) (w_buf b) in
      let! '(p, m, err) := zoom snd (fun r s => (s.1, r)) (read p) in
      on_w (modify (fun b => set_w_buf (blit (w_n b) p (w_buf b)) b)) ;;;
      if m =? 0 then ret (inr (inr (n, err)))
      else
        on_w (modify (fun b => set_w_n (w_n b + m) b)) ;;;
        let n := i64 (n + m) in
        match err with
        | Some _ => ret (inr (inr (n, err)))
        | None => ret (inl n)
        end
  end.

Definition bufWriter_ReadFrom : M (bufWriter W * R) (Z * option error) :=
  let! '(b, _) := get in
  let generic : M (bufWriter W * R) (Z * option error) :=
    let! res := iter bufWriter_ReadFrom_body 0 in
    match res with
    | inl early => ret early
    | inr (n, err) =>
        let! '(b, _) := get in
        let! err := (if bool_decide (err = Some EOF) then
                       if Available b =? 0 then on_w flush else ret None
                     else ret err) in
        on_w (modify (count_write n)) ;;;
        ret (n, err)
    end in
  if bufWriter_Buffered b =? 0 then
    match wr_ReadFrom with
    | Some w_ReadFrom =>
        let! '(n, err) :=
          zoom (fun s => (w_wr s.1, s.2)) (fun wr s => (set_w_wr wr.1 s.1, wr.2)) w_ReadFrom in
        on_w (modify (count_write n)) ;;;
        ret (n, err)
    | None => generic
    end
  else generic.

End ReadFrom.

(** ** The pair *)

Record ReadWriter (R W : Type) := {
  rw_Reader : bufReader R;
  rw_Writer : bufWriter W
}.
Arguments rw_Reader {R W} _.
Arguments rw_Writer {R W} _.

Definition NewReadWriter {R W} (r : bufReader R) (w : bufWriter W) : ReadWriter R W :=
  {| rw_Reader := r; rw_Writer := w |}.
