(* ===== verification/BufWriterSpec.v ===== *)
(** Correctness of the buffered writer: what it has accepted, buffered or not, is always the bytes its
    callers were told were written, in order, and its errors are final for every call but [ReadFrom]. *)

From Stdlib Require Import ZArith Lia.
From Stdlib Require Import Strings.Byte.
From stdpp Require Import base decidable list numbers strings.
From S2P Require Import Prelude GoIO GoUtf8 BufReader BufWriter.

Section Spec.
Context {W : Type} `{Sink W}.
Abbreviation BW := (bufWriter W).
Implicit Types (b : BW) (p q : bytes) (f : nat).

Definition bw_wf b : Prop :=
  0 <= w_n b <= len (w_buf b) /\ 0 < len (w_buf b) /\ sink_ok (w_wr b).

(** The bytes taken so far: those the underlying writer has and those buffered. *)
Definition pending b : bytes := sub 0 (w_n b) (w_buf b).
Definition accepted b : bytes := written (w_wr b) ++ pending b.

Lemma len_pending b : bw_wf b -> len (pending b) = w_n b.
Proof. intros [Hn _]. unfold pending. rewrite len_sub; lia. Qed.

Lemma pending_nil b : w_n b = 0 -> pending b = [].
Proof. intros Hn. apply sub_empty. lia. Qed.

(** [b'] is [b] with its error and its buffer changed, and nothing lost. *)
Definition same_data b b' : Prop :=
  bw_wf b' /\ accepted b' = accepted b /\ length (w_buf b') = length (w_buf b) /\
  w_TotalWrite b' = w_TotalWrite b.

(** A short write moves what is left to the front of the buffer. *)
Lemma keep_unwritten b wr n f (Q : unit -> BW -> Prop) :
  bw_wf b -> 0 <= n <= w_n b ->
  (forall b1, w_err b1 = w_err b -> length (w_buf b1) = length (w_buf b) -> w_wr b1 = wr ->
     w_TotalWrite b1 = w_TotalWrite b ->
     sub 0 (w_n b - n) (w_buf b1) = drop (Z.to_nat n) (pending b) -> Q tt b1) ->
  wp (when ((0 <? n) && (n <? w_n b))
        (let! dst := slice 0 (w_n b - n) (w_buf b) in
         let! src := slice n (w_n b) (w_buf b) in
         modify (set_w_buf (blit 0 (copy dst src).1 (w_buf b))))) f (set_w_wr wr b) Q.
Proof.
  intros (Hn & Hpos & Hsk) Hnn HQ. assert (drop (Z.to_nat n) (pending b) = sub n (w_n b) (w_buf b)) as Hd
    by (unfold pending; rewrite sub_drop by lia; f_equal; lia).
  rewrite Hd in HQ. destruct ((0 <? n) && (n <? w_n b)) eqn:E.
  - apply andb_true_iff in E as [E1 E2]. apply Z.ltb_lt in E1, E2. unfold when. do 5 wp_step.
    pose proof (len_sub 0 (w_n b - n) (w_buf b) ltac:(lia) ltac:(lia)) as Hl1.
    pose proof (len_sub n (w_n b) (w_buf b) ltac:(lia) ltac:(lia)) as Hl2.
    rewrite copy_fits by lia. cbn [fst]. rewrite (blit_all (sub n _ _)) by lia.
    apply HQ; cbn [w_err w_buf w_wr w_TotalWrite set_w_buf set_w_wr]; try done.
    + apply Nat2Z.inj, len_blit; lia.
    + apply sub_0_blit; lia.
  - apply wp_ret. apply HQ; cbn; try done. apply andb_false_iff in E as [E|E].
    + assert (n = 0) as -> by blia. f_equal; lia.
    + assert (n = w_n b) as -> by blia. rewrite !sub_empty by lia. done.
Qed.

Lemma flush_run b f (Q : option error -> BW -> Prop) :
  bw_wf b -> (sink_fuel W <= f)%nat ->
  (forall b' err, same_data b b' -> w_err b' = err ->
     match err with
     | None => w_err b = None /\ w_n b' = 0
     | Some e => (w_err b = Some e -> b' = b) /\ (w_err b = None -> ~ reliable (w_wr b))
     end -> Q err b') ->
  wp flush f b Q.
Proof.
  intros Hwf Hfuel HQ. pose proof Hwf as (Hn & Hpos & Hsk). pose proof (len_pending b Hwf) as Hlp. unfold flush.
  do 2 wp_step. destruct (w_err b) as [e|] eqn:Herr.
  { wp_step. by apply HQ. }
  destruct (w_n b =? 0) eqn:E0.
  { apply Z.eqb_eq in E0. wp_step. by apply HQ. }
  apply Z.eqb_neq in E0. do 4 wp_step. fold (pending b).
  eapply wp_mono; [by apply write_run|]. intros [n err] wr ((Hnn & Hout & Herr') & Hsk' & Hrel).
  assert (match (match err with
           | None => if n <? w_n b then Some ErrShortWrite else None
           | Some _ => err
           end) with
          | Some e => err = Some e
          | None => err = None /\ n = w_n b
          end) as Hcase.
  { destruct err as [e|]; [done|]. destruct (n <? w_n b) eqn:E; [|split; [done | blia]].
    destruct (Herr' ltac:(blia) eq_refl). }
  destruct (match err with None => _ | Some _ => err end) as [e|].
  - subst err.
    wp_step. apply keep_unwritten; [done | lia |]. rewrite Herr. intros b1 Herr1 Hl1 Hwr1 Ht1 Hsub1. do 5 wp_step.
    apply HQ; [|done|split; [done|]; intros _ Hr; by destruct (Hrel Hr)]. unfold same_data, bw_wf, accepted, pending.
    cbn [w_n w_buf w_wr w_TotalWrite set_w_n set_w_err]. rewrite Hl1, Hwr1, Ht1, Hsub1, Hout.
    repeat split; try lia; [exact Hsk'|]. rewrite <- app_assoc. by rewrite take_drop.
  - destruct Hcase as [-> ->]. wp_step. wp_steps. apply HQ; [|done|done].
    unfold same_data, bw_wf, accepted. cbn [w_n w_buf w_wr w_TotalWrite set_w_n set_w_wr].
    repeat split; try lia; [exact Hsk'|]. rewrite pending_nil by done. rewrite Hout, app_nil_r, take_ge by lia. done.
Qed.

(** ** Putting bytes in the buffer *)

Definition room b : Z := len (w_buf b) - w_n b.

Lemma put_run b p f (Q : Z -> BW -> Prop) :
  bw_wf b ->
  (forall b' n, n = Z.min (room b) (len p) -> bw_wf b' -> w_n b' = w_n b + n ->
     accepted b' = accepted b ++ take (Z.to_nat n) p -> w_err b' = w_err b ->
     length (w_buf b') = length (w_buf b) -> w_TotalWrite b' = w_TotalWrite b -> Q n b') ->
  wp (put_in_buffer p) f b Q.
Proof.
  intros Hwf HQ. pose proof Hwf as (Hn & Hpos & Hsk). unfold put_in_buffer. do 4 wp_step.
  pose proof (len_sub (w_n b) (len (w_buf b)) (w_buf b) ltac:(lia) ltac:(lia)) as Hl.
  unfold copy. cbv zeta. rewrite Hl. fold (room b). set (n := Z.min (room b) (len p)).
  assert (0 <= n <= len p /\ n <= room b) as [Hn1 Hn2] by (unfold room in *; lia).
  assert (len (take (Z.to_nat n) p) = n) as Hlt by (rewrite length_take; lia).
  set (dst := blit 0 _ (sub _ _ _)).
  assert (len dst = room b) as Hld by (subst dst; rewrite len_blit; unfold room in *; lia).
  wp_steps. unfold room in *.
  assert (len (blit (w_n b) dst (w_buf b)) = len (w_buf b)) as Hlb by (rewrite len_blit; lia).
  apply HQ; cbn [w_n w_buf w_err w_TotalWrite w_wr set_w_n set_w_buf]; try done; try lia.
  - unfold bw_wf. cbn. rewrite Hlb. repeat split; (lia || done).
  - unfold accepted, pending. cbn. rewrite <- app_assoc. f_equal.
    rewrite (sub_split 0 (w_n b)) by lia. f_equal; [apply blit_before; lia|].
    rewrite blit_prefix by lia. rewrite <- sub_0_take. subst dst. apply sub_0_blit; lia.
Qed.

(** ** [Write], [WriteString], [WriteByte] *)

Lemma i64_idem z : i64 (i64 z) = i64 z.
Proof. pose proof (i64_add_l z 0) as Hi. by rewrite !Z.add_0_r in Hi. Qed.

(** What a writing call promises: it takes [n] bytes of [p], all of them unless it fails. *)
Definition takes p b (n : Z) (err : option error) b' : Prop :=
  bw_wf b' /\ length (w_buf b') = length (w_buf b) /\ 0 <= n <= len p /\
  accepted b' = accepted b ++ take (Z.to_nat n) p /\
  i64 (w_TotalWrite b') = i64 (w_TotalWrite b + n) /\ w_err b' = err /\
  match err with
  | None => n = len p /\ w_err b = None
  | Some e => w_err b = Some e -> n = 0
  end.

(** The loop invariant: [nn] bytes were taken and [p] is left of [q]. *)
Definition taking q b0 (st : bytes * Z) b : Prop :=
  let '(p, nn) := st in
  bw_wf b /\ length (w_buf b) = length (w_buf b0) /\ 0 <= nn <= len q /\
  p = drop (Z.to_nat nn) q /\ accepted b = accepted b0 ++ take (Z.to_nat nn) q /\
  w_TotalWrite b = w_TotalWrite b0 /\
  (w_err b0 = None \/ (w_err b = w_err b0 /\ nn = 0)).

Lemma taking_start p b : bw_wf b -> taking p b (p, 0) b.
Proof.
  intros Hwf. repeat split; try apply Hwf; try lia; [by rewrite app_nil_r|].
  destruct (w_err b); auto.
Qed.

Lemma taking_step q b0 p nn b n b' :
  taking q b0 (p, nn) b -> w_err b = None -> 0 <= n <= len p ->
  bw_wf b' -> length (w_buf b') = length (w_buf b) ->
  accepted b' = accepted b ++ take (Z.to_nat n) p -> w_TotalWrite b' = w_TotalWrite b ->
  taking q b0 (drop (Z.to_nat n) p, nn + n) b'.
Proof.
  intros (Hwf & Hl & Hnn & -> & Hacc & Ht & Herr0) Herr Hn Hwf' Hl' Hacc' Ht'.
  rewrite length_drop in Hn. split; [done|]. split; [congruence|]. split; [lia|]. split.
  { rewrite drop_drop. f_equal. lia. }
  split; [|split; [congruence|]].
  - rewrite Hacc', Hacc, <- app_assoc. f_equal.
    replace (Z.to_nat (nn + n)) with (Z.to_nat nn + Z.to_nat n)%nat by lia.
    by rewrite take_take_drop.
  - left. destruct Herr0 as [|[E ->]]; [done|congruence].
Qed.

Lemma taking_fresh q b0 st b : taking q b0 st b -> w_err b = None -> w_err b0 = None.
Proof. destruct st. intros (_ & _ & _ & _ & _ & _ & [Hb|[Hb _]]) Hn; [done | congruence]. Qed.

Lemma taking_flush q b0 st b b' :
  taking q b0 st b -> w_err b0 = None -> same_data b b' -> taking q b0 st b'.
Proof.
  destruct st. intros (? & ? & ? & ? & ? & ? & _) Hb0 (Hwf & ? & ? & ?).
  repeat split; try apply Hwf; try congruence; try lia. by left.
Qed.

Lemma write_rest_run q b0 p nn b f (Q : Z * option error -> BW -> Prop) :
  taking q b0 (p, nn) b -> (w_err b = None -> len p <= room b) ->
  (forall n err b', takes q b0 n err b' -> Q (n, err) b') ->
  wp (write_rest p nn) f b Q.
Proof.
  intros Htk Hroom HQ. pose proof Htk as (Hwf & Hl & Hnn & Hp & Hacc & Ht & Herr0).
  unfold write_rest. do 2 wp_step. destruct (w_err b) as [e|] eqn:Herr.
  - do 3 wp_step. apply HQ. repeat split; try apply Hwf; try done; try lia; [cbn; by rewrite i64_idem, Ht|].
    intros He. destruct Herr0 as [|[_ ->]]; [congruence | done].
  - wp_step. apply put_run; [done|]. intros b1 n Hn Hwf1 Hn1 Hacc1 Herr1 Hl1 Ht1. do 3 wp_step.
    specialize (Hroom eq_refl). assert (n = len p) as -> by lia.
    pose proof (taking_step q b0 p nn b (len p) b1 Htk Herr ltac:(lia) Hwf1 Hl1 Hacc1 Ht1)
      as (Hwf2 & Hl2 & Hnn2 & Hp2 & Hacc2 & Ht2 & Herr2).
    assert (nn + len p = len q) as Hall.
    { pose proof (f_equal length Hp) as Hlp. rewrite length_drop in Hlp. lia. }
    apply HQ. repeat split; try apply Hwf2; try done; try lia; [cbn; by rewrite i64_idem, Ht2 | cbn; congruence |].
    destruct Herr0 as [|[E _]]; [done | congruence].
Qed.

Lemma Write_run b p f (Q : Z * option error -> BW -> Prop) :
  bw_wf b -> (sink_fuel W <= f)%nat -> (3 <= f)%nat ->
  (forall n err b', takes p b n err b' -> Q (n, err) b') -> wp (bufWriter_Write p) f b Q.
Proof.
  intros Hwf Hfuel Hf HQ. unfold bufWriter_Write. wp_step.
  apply (wp_iter (fun k st b1 => taking p b st b1 /\
    (w_err b1 = None -> st.1 = [] \/ (w_n b1 = 0 /\ (1 <= k)%nat) \/ (2 <= k)%nat)) 2); [|lia|].
  2:{ split; [by apply taking_start|]. auto. }
  intros k [q nn] b1 [Htk Hk]. cbn [fst] in Hk. do 2 wp_step.
  pose proof Htk as (Hwf1 & _). pose proof Hwf1 as (Hn1 & Hpos1 & Hsk1).
  destruct ((len q >? Available b1) && bool_decide (w_err b1 = None)) eqn:E.
  2:{ wp_step. eapply write_rest_run; [exact Htk | | exact HQ]. intros Hnone.
      rewrite bool_decide_eq_true_2, andb_true_r in E by done. unfold Available in E. unfold room. lia. }
  apply andb_true_iff in E as [Egt Enone]. apply bool_decide_eq_true in Enone.
  unfold Available in Egt. rewrite Z.gtb_lt in Egt.
  assert (q <> []) as Hq by (intros ->; cbn in Egt; lia).
  destruct (Hk Enone) as [|Hk']; [done|]. unfold bufWriter_Buffered. wp_step.
  destruct (w_n b1 =? 0) eqn:E0.
  - apply Z.eqb_eq in E0. do 2 wp_step. eapply wp_mono; [by apply write_spec|].
    intros [n err] wr [(Hn & Hout & Herr) Hsk2]. do 3 wp_step.
    set (b2 := set_w_err err (set_w_wr wr b1)).
    assert (taking p b (drop (Z.to_nat n) q, nn + n) b2) as Htk2.
    { apply (taking_step p b q nn b1 n b2 Htk Enone Hn (conj Hn1 (conj Hpos1 Hsk2)) eq_refl); [|done].
      unfold accepted. subst b2. cbn. rewrite !(pending_nil _) by done. by rewrite !app_nil_r. }
    wp_step. wp_step. rewrite sub_to_end by lia. wp_step. exists O. split; [lia|]. split; [exact Htk2|].
    cbn [fst w_err]. intros Hnone. left. cbn in Hnone. subst err.
    apply drop_ge. destruct (decide (n < len q)) as [Hlt|]; [|lia]. by destruct (Herr Hlt).
  - apply Z.eqb_neq in E0. wp_step. apply put_run; [done|].
    intros b2 n Hn Hwf2 Hn2 Hacc2 Herr2 Hl2 Ht2. unfold room in Hn.
    pose proof (taking_step p b q nn b1 n b2 Htk Enone ltac:(lia) Hwf2 Hl2 Hacc2 Ht2) as Htk2.
    wp_step. apply flush_run; [done | done |]. intros b3 err Hsame Herr3 Hres.
    do 2 wp_step. wp_step. rewrite sub_to_end by lia. wp_step. exists 1%nat. split; [lia|]. split.
    + eapply taking_flush; [exact Htk2 | exact (taking_fresh _ _ _ _ Htk Enone) | exact Hsame].
    + intros Hnone. rewrite Herr3 in Hnone. subst err. rewrite Hnone in Hres.
      right. left. split; [apply Hres | lia].
Qed.

Lemma WriteString_run b p f (Q : Z * option error -> BW -> Prop) :
  bw_wf b -> (sink_fuel W <= f)%nat -> (length p + 1 < f)%nat ->
  (forall n err b', takes p b n err b' -> Q (n, err) b') -> wp (bufWriter_WriteString p) f b Q.
Proof.
  intros Hwf Hfuel Hf HQ. unfold bufWriter_WriteString. wp_step.
  apply (wp_iter (fun k st b1 => taking p b st b1 /\
    (w_err b1 = None -> (length st.1 + (if decide (room b1 = 0%Z) then 1 else 0)%nat <= k)%nat))
    (length p + 1)); [|lia|].
  2:{ split; [by apply taking_start|]. intros _. cbn [fst]. destruct (decide _); lia. }
  intros k [q nn] b1 [Htk Hk]. cbn [fst] in Hk. do 2 wp_step.
  pose proof Htk as (Hwf1 & _). pose proof Hwf1 as (Hn1 & Hpos1 & Hsk1).
  destruct ((len q >? Available b1) && bool_decide (w_err b1 = None)) eqn:E.
  2:{ wp_step. eapply write_rest_run; [exact Htk | | exact HQ]. intros Hnone.
      rewrite bool_decide_eq_true_2, andb_true_r in E by done. unfold Available in E. unfold room. lia. }
  apply andb_true_iff in E as [Egt Enone]. apply bool_decide_eq_true in Enone.
  unfold Available in Egt. rewrite Z.gtb_lt in Egt. wp_step. apply put_run; [done|].
  intros b2 n Hn Hwf2 Hn2 Hacc2 Herr2 Hl2 Ht2. specialize (Hk Enone). unfold room in Hn, Hk.
  pose proof (taking_step p b q nn b1 n b2 Htk Enone ltac:(lia) Hwf2 Hl2 Hacc2 Ht2) as Htk2.
  wp_step. wp_step. rewrite sub_to_end by lia.
  wp_step. apply flush_run; [done | done |]. intros b3 err Hsame Herr3 Hres. wp_step.
  exists (k - 1)%nat. pose proof Hsame as ((_ & Hpos3 & _) & _ & Hl3 & _).
  assert (0 < length q)%nat by lia. split; [destruct (decide _); lia|]. split.
  - eapply taking_flush; [exact Htk2 | exact (taking_fresh _ _ _ _ Htk Enone) | exact Hsame].
  - intros Hnone. rewrite Hnone in Herr3. subst err. cbn [fst]. rewrite length_drop. unfold room.
    destruct Hres as [_ Hn3]. rewrite (decide_False (P := len (w_buf b3) - w_n b3 = 0%Z)) by lia.
    destruct (decide _); lia.
Qed.

Lemma takes_nothing c b e : bw_wf b -> w_err b = Some e -> takes [c] b 0 (Some e) b.
Proof.
  intros Hwf Herr. repeat split; try apply Hwf; try done; [by rewrite app_nil_r | by rewrite Z.add_0_r].
Qed.

Lemma WriteByte_run b c f (Q : option error -> BW -> Prop) :
  bw_wf b -> (sink_fuel W <= f)%nat ->
  (forall err b', takes [c] b (match err with None => 1 | Some _ => 0 end) err b' -> Q err b') ->
  wp (bufWriter_WriteByte c) f b Q.
Proof.
  intros Hwf Hfuel HQ. unfold bufWriter_WriteByte. do 2 wp_step. destruct (w_err b) as [e|] eqn:Herr.
  { wp_step. apply HQ. by apply takes_nothing. }
  (* with room in the buffer *)
  assert (forall b1, same_data b b1 -> w_err b1 = None -> w_n b1 < len (w_buf b1) ->
    wp (let! b := get in
        let! buf := store (w_n b) c (w_buf b) in
        modify (set_w_buf buf) ;;;
        modify (set_w_n (w_n b + 1)) ;;;
        modify (count_write 1) ;;; ret None) f b1 Q) as Hput.
  { intros b1 ((Hn1 & Hpos1 & Hsk1) & Hacc & Hl & Ht) Herr1 Hroom. wp_steps. apply HQ.
    unfold takes, bw_wf. cbn [w_buf w_n w_TotalWrite w_err count_write set_w_n set_w_buf].
    rewrite length_insert. repeat split; try lia; try done.
    - change (take (Z.to_nat 1) [c]) with [c]. rewrite <- Hacc. unfold accepted, pending.
      cbn [w_buf w_n w_wr count_write set_w_n set_w_buf]. rewrite <- app_assoc. f_equal.
      rewrite (sub_split 0 (w_n b1)) by lia. rewrite insert_before by lia. f_equal.
      apply list_eq. intros i. rewrite sub_lookup by lia. case_decide as Hi.
      + assert (i = O) as -> by lia. rewrite Nat.add_0_r, list_lookup_insert_eq by lia. done.
      + symmetry. apply lookup_ge_None. cbn. lia.
    - by rewrite i64_idem, Ht. }
  wp_step. destruct (Available b <=? 0) eqn:Efull.
  - wp_step. apply flush_run; [done | done |]. intros b1 err Hsame Herr1 Hres. wp_step.
    destruct err as [e|]; wp_step.
    + rewrite Herr1. apply HQ. pose proof Hsame as (Hwf1 & Hacc & Hl & Ht).
      repeat split; try apply Hwf1; try done; [by rewrite app_nil_r | by rewrite Ht, Z.add_0_r].
    + apply Hput; [done | done |]. destruct Hres as [_ ->]. pose proof Hsame as ((_ & ? & _) & _). lia.
  - do 2 wp_step. apply Hput; [repeat split; try apply Hwf; done | done |]. unfold Available in Efull. blia.
Qed.

(** The bytes [WriteRune] writes: a rune below [RuneSelf] is written as one byte. *)
Definition rune_bytes (r : Z) : bytes := if r <? RuneSelf then [z2b r] else EncodeRune r.

Lemma takes_after_flush p b b1 n err b' :
  same_data b b1 -> w_err b = None -> takes p b1 n err b' -> takes p b n err b'.
Proof.
  intros (_ & Hacc & Hl & Ht) Herr (Hwf & Hl' & Hn & Hacc' & Ht' & Herr' & Hres).
  rewrite Hacc in Hacc'. rewrite Ht in Ht'. repeat split; try apply Hwf; try done; try lia.
  destruct err; [congruence | tauto].
Qed.

Lemma takes_flush_error p b b1 e :
  same_data b b1 -> w_err b = None -> w_err b1 = Some e -> takes p b 0 (Some e) b1.
Proof.
  intros (Hwf & Hacc & Hl & Ht) Hb Herr. repeat split; try apply Hwf; try done; try lia.
  - by rewrite app_nil_r.
  - by rewrite Ht, Z.add_0_r.
Qed.

Lemma encode_run b r f (Q : Z * option error -> BW -> Prop) :
  bw_wf b -> w_err b = None -> UTFMax <= Available b ->
  (forall n err b', takes (EncodeRune r) b n err b' -> Q (n, err) b') ->
  wp (let! b := get in
      let! room := slice (w_n b) (len (w_buf b)) (w_buf b) in
      let enc := EncodeRune r in
      let! _ := index (len enc - 1) room in
      modify (fun b => set_w_buf (blit (w_n b) enc (w_buf b)) b) ;;;
      modify (count_write (len enc)) ;;;
      modify (fun b => set_w_n (w_n b + len enc) b) ;;;
      ret (len enc, None)) f b Q.
Proof.
  intros (Hn & Hpos & Hsk) Herr Hav HQ. unfold Available, UTFMax in Hav. pose proof (EncodeRune_len r) as He.
  pose proof (len_sub (w_n b) (len (w_buf b)) (w_buf b) ltac:(lia) ltac:(lia)) as Hls.
  do 4 wp_step. cbv zeta. wp_step.
  destruct (lookup_lt_is_Some_2 (sub (w_n b) (len (w_buf b)) (w_buf b))
    (Z.to_nat (len (EncodeRune r) - 1))) as [c Hc]; [lia|].
  eapply wp_index; [lia | exact Hc |]. wp_steps. apply HQ. unfold takes, bw_wf.
  cbn [w_buf w_n w_TotalWrite w_err count_write set_w_n set_w_buf].
  pose proof (len_blit (w_n b) (EncodeRune r) (w_buf b) ltac:(lia) ltac:(lia)) as Hlb.
  repeat split; try lia; try done; [|by rewrite i64_idem].
  rewrite Nat2Z.id, take_ge by lia. unfold accepted, pending.
  cbn [w_buf w_n w_wr count_write set_w_n set_w_buf]. rewrite <- app_assoc. f_equal.
  rewrite (sub_split 0 (w_n b)) by lia. rewrite blit_before by lia. f_equal. apply blit_at; lia.
Qed.

Lemma WriteRune_run b r f (Q : Z * option error -> BW -> Prop) :
  bw_wf b -> (sink_fuel W <= f)%nat -> (5 < f)%nat ->
  (forall n err b', takes (rune_bytes r) b n err b' -> Q (n, err) b') -> wp (WriteRune r) f b Q.
Proof.
  intros Hwf Hfuel Hf HQ. unfold WriteRune, rune_bytes in *. destruct (r <? RuneSelf).
  { wp_step. apply WriteByte_run; [done | done |]. intros [e|] b' Htk; wp_step; by apply HQ. }
  do 2 wp_step. destruct (w_err b) as [e|] eqn:Herr.
  { wp_step. apply HQ. destruct (takes_nothing x00 b e Hwf Herr) as (? & ? & _ & ? & ? & ? & ?).
    pose proof (EncodeRune_len r). repeat split; try apply Hwf; try done; lia. }
  cbv zeta. destruct (Available b <? UTFMax) eqn:Esmall; [|by apply encode_run; [..|blia|]].
  wp_step. apply flush_run; [done | done |]. intros b1 err Hsame Herr1 Hres. do 2 wp_step.
  rewrite Herr1. destruct err as [e|].
  { wp_step. apply HQ. by apply takes_flush_error. }
  pose proof (proj1 Hsame) as Hwf1.
  destruct (Available b1 <? UTFMax) eqn:Esmall1.
  - apply WriteString_run; [done | done | pose proof (EncodeRune_len r); lia |].
    intros n err b' Htk. apply HQ. by eapply takes_after_flush.
  - apply encode_run; [done | done | blia |]. intros n err b' Htk. apply HQ.
    by eapply takes_after_flush.
Qed.

(** ** What the underlying writer keeps *)

Section Keeps.
Variable F : nat.
Variable P : W -> Prop.
Hypothesis write_keeps : forall p, keeps_from F P (write p).

Lemma zoom_write_keeps p : keeps_from F (fun b : BW => P (w_wr b)) (zoom w_wr set_w_wr (write p)).
Proof. by apply (keeps_zoom _ _ P). Qed.

Lemma flush_keeps : keeps_from F (fun b : BW => P (w_wr b)) flush.
Proof. unfold flush. keeping. apply zoom_write_keeps. Qed.

Lemma put_in_buffer_keeps p : keeps_from F (fun b : BW => P (w_wr b)) (put_in_buffer p).
Proof. unfold put_in_buffer. keeping. Qed.

Lemma Write_keeps p : keeps_from F (fun b : BW => P (w_wr b)) (bufWriter_Write p).
Proof.
  unfold bufWriter_Write, write_rest.
  keeping; (apply zoom_write_keeps || apply put_in_buffer_keeps || apply flush_keeps).
Qed.

End Keeps.

(** Over a writer that never fails a buffered writer does not fail. *)
Definition bw_reliable b : Prop := bw_wf b /\ w_err b = None /\ reliable (w_wr b).

Lemma underlying_reliable p : keeps_from (sink_fuel W) (fun w : W => reliable w) (write p).
Proof. intros f w [n er] w' Hf Hr E. by eapply reliable_write. Qed.

Lemma flush_reliable : keeps_from (sink_fuel W) bw_reliable flush.
Proof.
  intros f b err b' Hf (Hwf & Herr & Hrel) E.
  pose proof (flush_run b f (fun err b' => bw_wf b' /\ w_err b' = None) Hwf Hf) as Hrun.
  unfold wp in Hrun. rewrite E in Hrun.
  destruct Hrun as [Hwf' Herr'].
  { intros b2 [e|] (Hwf2 & _) Herr2 Hres; [|done]. destruct Hres as [_ Hno]. by destruct (Hno Herr). }
  split; [done|]. split; [done|]. eapply flush_keeps; [apply underlying_reliable | exact Hf | exact Hrel | exact E].
Qed.

Lemma put_in_buffer_reliable p : keeps_from (sink_fuel W) bw_reliable (put_in_buffer p).
Proof.
  intros f b n b' Hf (Hwf & Herr & Hrel) E.
  pose proof (put_run b p f (fun _ b' => bw_wf b' /\ w_err b' = None) Hwf) as Hrun.
  unfold wp in Hrun. rewrite E in Hrun. destruct Hrun as [Hwf' Herr'].
  { intros b2 m _ Hwf2 _ _ Herr2 _ _. split; [done | congruence]. }
  split; [done|]. split; [done|].
  exact (put_in_buffer_keeps (sink_fuel W) reliable p f b n b' Hf Hrel E).
Qed.

Lemma direct_write_reliable p : keeps_from (sink_fuel W) bw_reliable
  (let! '(n, err) := zoom w_wr set_w_wr (write p) in modify (set_w_err err) ;;; ret n).
Proof.
  apply keeps_wp. intros f b Hf ((Hn & Hpos & Hsk) & Herr & Hrel). do 2 wp_step.
  eapply wp_mono; [by apply write_run|]. intros [n err] w (_ & Hsk' & Hrel'). do 3 wp_step.
  destruct (Hrel' Hrel) as [-> Hr]. split; [exact (conj Hn (conj Hpos Hsk')) | done].
Qed.

Lemma Write_reliable p : keeps_from (sink_fuel W) bw_reliable (bufWriter_Write p).
Proof.
  unfold bufWriter_Write. apply keeps_bind.
  - apply keeps_iter. intros [q nn]. apply keeps_bind; [apply keeps_get|]. intros b1.
    destruct (_ && _); [|apply keeps_ret]. apply keeps_bind; [|keeping].
    destruct (_ =? 0); [apply direct_write_reliable|].
    keeping; (apply put_in_buffer_reliable || apply flush_reliable).
  - intros [q nn]. unfold write_rest. keeping. apply put_in_buffer_reliable.
Qed.

(** What [Write] promises, with what reliability adds to it. *)
Lemma Write_run' b p f (Q : Z * option error -> BW -> Prop) :
  bw_wf b -> (sink_fuel W <= f)%nat -> (3 <= f)%nat ->
  (forall n err b', takes p b n err b' -> (bw_reliable b -> err = None /\ bw_reliable b') -> Q (n, err) b') ->
  wp (bufWriter_Write p) f b Q.
Proof.
  intros Hwf Hf H3 HQ.
  pose proof (Write_run b p f (fun r b' => takes p b r.1 r.2 b') Hwf Hf H3 ltac:(by intros)) as Hrun.
  unfold wp in *. destruct (bufWriter_Write p f b) as [[n err] b'|] eqn:E; [|done].
  apply HQ; [done|]. intros Hr. pose proof (Write_reliable p f b _ b' Hf Hr E) as Hr'.
  split; [|done]. destruct Hrun as (_ & _ & _ & _ & _ & Herr & _). cbn in Herr.
  rewrite <- Herr. apply Hr'.
Qed.

Lemma flush_run' b f (Q : option error -> BW -> Prop) :
  bw_wf b -> (sink_fuel W <= f)%nat ->
  (forall b' err, same_data b b' -> w_err b' = err -> (err = None -> w_n b' = 0) ->
     (bw_reliable b -> err = None /\ bw_reliable b') -> Q err b') ->
  wp flush f b Q.
Proof.
  intros Hwf Hf HQ.
  pose proof (flush_run b f (fun err b' => same_data b b' /\ w_err b' = err /\ (err = None -> w_n b' = 0))
    Hwf Hf) as Hrun.
  unfold wp in *. destruct (flush f b) as [err b'|] eqn:E; [|apply Hrun].
  - destruct Hrun as (Hsame & Herr & Hn); [|apply HQ; try done].
    { intros b2 [e|] Hs He Hres; (split; [done|]); (split; [done|]); [done | by intros _; apply Hres]. }
    intros Hr. pose proof (flush_reliable f b err b' Hf Hr E) as Hr'. split; [|done].
    rewrite <- Herr. apply Hr'.
  - intros b2 [e|] Hs He Hres; (split; [done|]); (split; [done|]); [done | by intros _; apply Hres].
Qed.

(** ** Any sequence of calls *)

Inductive wop :=
| OpWrite (p : bytes)
| OpString (s : bytes)
| OpByte (c : byte)
| OpRune (r : Z)
| OpFlush.

Definition op_bytes (o : wop) : bytes :=
  match o with
  | OpWrite p => p
  | OpString s => s
  | OpByte c => [c]
  | OpRune r => rune_bytes r
  | OpFlush => []
  end.

Definition run_op (o : wop) : M BW (option error) :=
  match o with
  | OpWrite p => let! '(_, err) := bufWriter_Write p in ret err
  | OpString s => let! '(_, err) := bufWriter_WriteString s in ret err
  | OpByte c => bufWriter_WriteByte c
  | OpRune r => let! '(_, err) := WriteRune r in ret err
  | OpFlush => Flush
  end.

(** The calls, up to the first error. *)
Fixpoint run_ops (l : list wop) : M BW (option error) :=
  match l with
  | [] => ret None
  | o :: l' =>
      let! err := run_op o in
      match err with
      | Some e => ret (Some e)
      | None => run_ops l'
      end
  end.

Definition op_fuel (f : nat) (o : wop) : Prop :=
  (sink_fuel W <= f /\ length (op_bytes o) + 5 < f)%nat.

Lemma run_op_run o b f (Q : option error -> BW -> Prop) :
  bw_wf b -> op_fuel f o ->
  (forall n err b', takes (op_bytes o) b n err b' -> Q err b') -> wp (run_op o) f b Q.
Proof.
  intros Hwf [Hfuel Hf] HQ. destruct o as [p|s|c|r|]; cbn [run_op op_bytes] in *.
  - wp_step. apply Write_run; [done | done | lia |]. intros n err b' Htk. wp_step. by eapply HQ.
  - wp_step. apply WriteString_run; [done | done | lia |]. intros n err b' Htk. wp_step. by eapply HQ.
  - apply WriteByte_run; [done | done |]. intros err b' Htk. by eapply HQ.
  - wp_step. apply WriteRune_run; [done | done | lia |]. intros n err b' Htk. wp_step. by eapply HQ.
  - apply flush_run; [done | done |]. intros b' err (Hwf' & Hacc & Hl & Ht) Herr Hres.
    apply (HQ 0). repeat split; try apply Hwf'; try done; [by rewrite app_nil_r | by rewrite Ht, Z.add_0_r |].
    destruct err; [done | tauto].
Qed.

Lemma run_ops_run l b f :
  bw_wf b -> w_err b = None -> (sink_fuel W <= f)%nat -> Forall (op_fuel f) l ->
  wp (run_ops l) f b (fun err b' =>
    bw_wf b' /\ w_err b' = err /\
    exists taken rest, concat (map op_bytes l) = taken ++ rest /\ (err = None -> rest = []) /\
      accepted b' = accepted b ++ taken /\
      i64 (w_TotalWrite b') = i64 (w_TotalWrite b + len taken)).
Proof.
  revert b. induction l as [|o l IH]; intros b Hwf Herr Hfuel Hf; cbn [run_ops map concat].
  { split; [done|]. split; [done|]. exists [], []. repeat split; [by rewrite app_nil_r | by rewrite Z.add_0_r]. }
  inversion Hf as [|? ? Ho Hl]; subst. wp_step. apply run_op_run; [done..|].
  intros n err b1 (Hwf1 & Hlb1 & Hn & Hacc1 & Ht1 & Herr1 & Hres).
  destruct err as [e|].
  - wp_step. split; [done|]. split; [done|].
    exists (take (Z.to_nat n) (op_bytes o)), (drop (Z.to_nat n) (op_bytes o) ++ concat (map op_bytes l)).
    split; [by rewrite app_assoc, take_drop|]. split; [done|]. split; [done|].
    rewrite Ht1, length_take. do 2 f_equal. lia.
  - destruct Hres as [-> _]. rewrite Nat2Z.id, take_ge in Hacc1 by lia.
    eapply wp_mono; [by apply IH|]. intros err b2 (Hwf2 & Herr2 & taken & rest & Hcat & Hrest & Hacc2 & Ht2).
    split; [done|]. split; [done|]. exists (op_bytes o ++ taken), rest.
    split; [by rewrite Hcat, app_assoc|]. split; [done|]. split; [by rewrite Hacc2, Hacc1, app_assoc|].
    rewrite Ht2, <- i64_add_l, Ht1, i64_add_l, len_app. f_equal. lia.
Qed.

(** C23. Buffering keeps order and loses nothing. Whatever sequence of writes and flushes is
    made, what the writer has accepted grows by a prefix of the data given, by all of it when no call
    fails, and [TotalWrite] by its length; and when a final [Flush] succeeds too, the
    underlying writer has received exactly all the data, in order. *)
Theorem writes_in_order l b f :
  bw_wf b -> w_err b = None -> (sink_fuel W <= f)%nat -> Forall (op_fuel f) l ->
  wp (let! err := run_ops l in
      match err with Some e => ret (Some e) | None => Flush end) f b (fun err b' =>
    bw_wf b' /\
    exists taken rest, concat (map op_bytes l) = taken ++ rest /\
      accepted b' = accepted b ++ taken /\
      i64 (w_TotalWrite b') = i64 (w_TotalWrite b + len taken) /\
      (err = None -> written (w_wr b') = accepted b ++ concat (map op_bytes l))).
Proof.
  intros Hwf Herr Hfuel Hf. wp_step. eapply wp_mono; [by apply run_ops_run|].
  intros err b1 (Hwf1 & Herr1 & taken & rest & Hcat & Hrest & Hacc1 & Ht1). destruct err as [e|].
  { wp_step. split; [done|]. by exists taken, rest. }
  apply flush_run; [done | done |]. intros b2 err (Hwf2 & Hacc2 & Hl2 & Ht2) Herr2 Hres.
  split; [done|]. exists taken, rest. split; [done|]. split; [congruence|]. split; [congruence|].
  intros ->. destruct Hres as [_ Hn2]. rewrite (Hrest eq_refl), app_nil_r in Hcat.
  rewrite Hcat, <- Hacc1, <- Hacc2. unfold accepted. by rewrite pending_nil, app_nil_r.
Qed.






End Spec.

(** ** Witnesses *)

Definition out_conn (space : option Z) : conn :=
  {| conn_in := []; conn_fin := EOF; conn_out := str "> "; conn_room := space |}.

Definition no_Writer (c : conn) : option (bufWriter conn) := None.

Definition small_writer : bufWriter conn := NewWriterSize no_Writer (out_conn None) 8.

Definition some_ops : list wop :=
  [OpWrite (str "GET / HTTP/1.1"); OpByte cr; OpString [lf]; OpRune 8364; OpFlush; OpWrite (str "tail")].

Lemma small_writer_wf : bw_wf small_writer.
Proof. split; [split | split]; vm_compute; (discriminate || reflexivity || exact I). Qed.

Lemma writes_in_order_witness :
  wp (let! err := run_ops some_ops in
      match err with Some e => ret (Some e) | None => Flush end) 99 small_writer (fun err b' =>
    bw_wf b' /\
    exists taken rest, concat (map op_bytes some_ops) = taken ++ rest /\
      accepted b' = accepted small_writer ++ taken /\
      i64 (w_TotalWrite b') = i64 (w_TotalWrite small_writer + len taken) /\
      (err = None ->
       written (w_wr b') = accepted small_writer ++ concat (map op_bytes some_ops))).
Proof.
  apply (writes_in_order some_ops small_writer 99 small_writer_wf eq_refl (le_0_n 99)).
  repeat constructor; (apply Nat.leb_le || apply Nat.ltb_lt); vm_compute; reflexivity.
Defined.

Definition broken_writer : bufWriter conn := set_w_err (Some broken_pipe) small_writer.


(** ** Where [ReadFrom] goes wrong *)

(** [ReadFrom] reports success on a writer whose error is set: three bytes taken, none of them sent. *)
Example ReadFrom_ignores_error :
  exists s', bufWriter_ReadFrom None 99%nat (broken_writer, str "abc" : buffer) = Ret (3, None) s' /\
    w_err s'.1 = Some broken_pipe /\ conn_out (w_wr s'.1) = str "> " /\ pending s'.1 = str "abc".
Proof. eexists. vm_compute. repeat split. Qed.

(** The early return of [ReadFrom] skips the counter: eight bytes were read and buffered when the flush
    failed, six of them reached the connection, and [TotalWrite] is still 0. *)
Example ReadFrom_uncounted :
  exists s', bufWriter_ReadFrom None 99%nat
      (NewWriterSize no_Writer (out_conn (Some 6)) 8, str "0123456789" : buffer)
    = Ret (8, Some broken_pipe) s' /\ w_TotalWrite s'.1 = 0 /\ conn_out (w_wr s'.1) = str "> 012345".
Proof. eexists. vm_compute. repeat split. Qed.

(** A source may return no data and no error; [ReadFrom] takes that for the end and reports
    success with the rest of the source unread. *)
Definition pausing_conn : conn :=
  {| conn_in := [str "ab"; []; str "cd"]; conn_fin := EOF; conn_out := []; conn_room := None |}.

Example ReadFrom_stops_at_empty_read :
  exists s', bufWriter_ReadFrom None 99%nat (small_writer, pausing_conn) = Ret (2, None) s' /\
    conn_in s'.2 = [str "cd"].
Proof. eexists. vm_compute. repeat split. Qed.
