(* ===== verification/Cork.v ===== *)
(** The retry delay and the corked connection of [m_server] (socks_server.go): a connection whose first
    writes are gathered in a buffer until a timer opens it.

    [bufw] is the standard library's [bufio.Writer], of which m_bufio is a fork: it is modelled
    by the writer of [BufWriter], whose byte counter nothing here looks at. *)

From Stdlib Require Import ZArith Lia.
From Stdlib Require Import Strings.Byte.
From stdpp Require Import base decidable list numbers strings.
From S2P Require Import Prelude GoIO GoUtf8 BufReader BufWriter BufWriterSpec.

(** [time.Duration], in nanoseconds. *)
Definition Millisecond : Z := 1000000.
Definition Second : Z := 1000000000.

Definition delayCalc (delay : Z) : Z :=
  let delay := if delay =? 0 then 5 * Millisecond else i64 (delay * 2) in
  let max := 1 * Second in
  if delay >? max then max else delay.

(** [e, ok := err.(net.Error); return ok && e.Timeout()]. *)
Definition isTimeout (err : error) : bool :=
  match err with NetError timeout _ _ => timeout | _ => false end.

Lemma delayCalc_iter (k : nat) :
  Nat.iter (S k) delayCalc 0 = Z.min (5 * Millisecond * 2 ^ Z.of_nat k) Second.
Proof.
  induction k as [|k IH]; [reflexivity|].
  rewrite Nat.iter_succ, IH, Nat2Z.inj_succ, Z.pow_succ_r by lia.
  set (p := 2 ^ Z.of_nat k). assert (1 <= p) by (subst p; pose proof (Z.pow_pos_nonneg 2 (Z.of_nat k)); lia).
  unfold delayCalc, Millisecond, Second.
  destruct (Z.eqb_spec (Z.min (5 * 1000000 * p) 1000000000) 0); [lia|].
  rewrite i64_small by (unfold in_i64; lia).
  destruct (Z.gtb_spec (Z.min (5 * 1000000 * p) 1000000000 * 2) (1 * 1000000000)); lia.
Qed.

(** The retry delay is 5 ms doubled at every failure and capped at one second: it is never zero,
    never longer, and the doubling never overflows. *)
Theorem delayCalc_backoff (k : nat) :
  Nat.iter (S k) delayCalc 0 = Z.min (5 * Millisecond * 2 ^ Z.of_nat k) Second.
Proof. apply delayCalc_iter. Qed.

(** ** The corked connection *)

Section Cork.
Context {C : Type} `{Sink C}.

(** [Conn] and the writer under [bufw] are the same connection: it is [w_wr] of [ck_bufw].
    [ck_once] is the [sync.Once]; [ck_timer] says that the timer was started and has not
    fired yet. *)
Record corkedConn := {
  ck_bufw : bufWriter C;
  ck_corked : bool;
  ck_delay : Z;
  ck_err : option error;
  ck_locked : bool;
  ck_once : bool;
  ck_timer : bool
}.

Definition ck_Conn (w : corkedConn) : C := w_wr (ck_bufw w).

Definition set_bufw x (w : corkedConn) : corkedConn :=
  {| ck_bufw := x; ck_corked := ck_corked w; ck_delay := ck_delay w; ck_err := ck_err w;
     ck_locked := ck_locked w; ck_once := ck_once w; ck_timer := ck_timer w |}.
Definition set_ck_Conn x (w : corkedConn) : corkedConn := set_bufw (set_w_wr x (ck_bufw w)) w.
Definition set_corked x (w : corkedConn) : corkedConn :=
  {| ck_bufw := ck_bufw w; ck_corked := x; ck_delay := ck_delay w; ck_err := ck_err w;
     ck_locked := ck_locked w; ck_once := ck_once w; ck_timer := ck_timer w |}.
Definition set_ck_err x (w : corkedConn) : corkedConn :=
  {| ck_bufw := ck_bufw w; ck_corked := ck_corked w; ck_delay := ck_delay w; ck_err := x;
     ck_locked := ck_locked w; ck_once := ck_once w; ck_timer := ck_timer w |}.
Definition set_ck_locked x (w : corkedConn) : corkedConn :=
  {| ck_bufw := ck_bufw w; ck_corked := ck_corked w; ck_delay := ck_delay w; ck_err := ck_err w;
     ck_locked := x; ck_once := ck_once w; ck_timer := ck_timer w |}.
Definition set_once_timer x y (w : corkedConn) : corkedConn :=
  {| ck_bufw := ck_bufw w; ck_corked := ck_corked w; ck_delay := ck_delay w; ck_err := ck_err w;
     ck_locked := ck_locked w; ck_once := x; ck_timer := y |}.

Definition timedCork (as_Writer : C -> option (bufWriter C)) (c : C) (d bufSize : Z) : corkedConn :=
  {| ck_bufw := NewWriterSize as_Writer c bufSize; ck_corked := true; ck_delay := d;
     ck_err := None; ck_locked := false; ck_once := false; ck_timer := false |}.

Definition ck_Lock : M corkedConn unit :=
  let! w := get in
  if ck_locked w then stop Deadlock else put (set_ck_locked true w).

Definition corkedConn_Write (p : bytes) : M corkedConn (Z * option error) :=
  ck_Lock ;;;
  deferring (set_ck_locked false)
    (let! w := get in
     match ck_err w with
     | Some e => ret (0, Some e)
     | None =>
         if ck_corked w then
           when (negb (ck_once w)) (modify (set_once_timer true true)) ;;;
           zoom ck_bufw set_bufw (bufWriter_Write p)
         else zoom ck_Conn set_ck_Conn (write p)
     end).

(** The function the timer runs, in a goroutine of its own. *)
Definition uncork : M corkedConn unit :=
  modify (fun w => set_once_timer (ck_once w) false w) ;;;
  ck_Lock ;;;
  deferring (set_ck_locked false)
    (modify (set_corked false) ;;;
     let! err := zoom ck_bufw set_bufw Flush in
     modify (set_ck_err err)).

(** Both run under the lock, so a concurrent execution is a sequence of these steps. [sent] is what
    the call was told was written. *)
Inductive ck_step (f : nat) : corkedConn -> bytes -> corkedConn -> Prop :=
| step_write p n err w w' :
    corkedConn_Write p f w = Ret (n, err) w' -> ck_step f w (take (Z.to_nat n) p) w'
| step_timer w w' :
    ck_timer w = true -> uncork f w = Ret tt w' -> ck_step f w [] w'.

Inductive ck_steps (f : nat) : corkedConn -> bytes -> corkedConn -> Prop :=
| steps_refl w : ck_steps f w [] w
| steps_more w out w' out' w'' :
    ck_steps f w out w' -> ck_step f w' out' w'' -> ck_steps f w (out ++ out') w''.

(** ** Correctness *)

(** What the connection has accepted is [out]. Once open, nothing is left in the buffer unless
    opening it failed, and then nothing more is accepted. *)
Definition ck_inv (out : bytes) (w : corkedConn) : Prop :=
  bw_wf (ck_bufw w) /\ accepted (ck_bufw w) = out /\ ck_locked w = false /\
  (ck_timer w = true -> ck_corked w = true) /\
  (ck_corked w = true -> ck_err w = None /\ ck_once w = ck_timer w) /\
  (ck_corked w = false -> ck_err w = None -> w_n (ck_bufw w) = 0).

Lemma timedCork_inv as_Writer c d bufSize :
  as_Writer c = None -> sink_ok c -> ck_inv (written c) (timedCork as_Writer c d bufSize).
Proof.
  intros Hnew Hsk. unfold timedCork, NewWriterSize. rewrite Hnew.
  set (sz := if bufSize <=? 0 then defaultBufSize else bufSize).
  assert (0 < sz) by (subst sz; unfold defaultBufSize; destruct (Z.leb_spec bufSize 0); lia).
  repeat split; cbn; try done; try (rewrite len_zeros; lia).
  unfold accepted. rewrite pending_nil by done. by rewrite app_nil_r.
Qed.

Lemma corkedConn_Write_run out w p f (Q : Z * option error -> corkedConn -> Prop) :
  ck_inv out w -> (3 <= f)%nat -> (sink_fuel C <= f)%nat ->
  (forall n err w', 0 <= n <= len p -> (err = None -> n = len p) ->
     ck_inv (out ++ take (Z.to_nat n) p) w' -> ck_corked w' = ck_corked w -> ck_err w' = ck_err w ->
     (ck_corked w = true -> ck_once w' = true) ->
     (ck_err w = None -> bw_reliable (ck_bufw w) -> err = None /\ bw_reliable (ck_bufw w')) ->
     Q (n, err) w') ->
  wp (corkedConn_Write p) f w Q.
Proof.
  intros (Hwf & Hacc & Hlock & Htimer & Hcork & Hopen) Hf Hfuel HQ. unfold corkedConn_Write, ck_Lock.
  do 2 wp_step. wp_step. rewrite Hlock. do 4 wp_step. cbn [ck_err ck_corked set_ck_locked].
  destruct (ck_err w) as [e|] eqn:Herr.
  { wp_step. apply HQ; try done; [lia | | cbn; intros Hc; by destruct (Hcork Hc)].
    rewrite app_nil_r. split; [exact Hwf|]. do 3 (split; [done|]). cbn. rewrite Herr. by split. }
  destruct (ck_corked w) eqn:Ecork.
  - destruct (Hcork eq_refl) as [_ Honce].
    assert (forall (Q1 : unit -> corkedConn -> Prop),
      Q1 tt (set_once_timer true true (set_ck_locked true w)) ->
      wp (when (negb (ck_once (set_ck_locked true w))) (modify (set_once_timer true true))) f
        (set_ck_locked true w) Q1) as Hdo.
    { intros Q1 HQ1. cbn [ck_once set_ck_locked]. destruct (ck_once w) eqn:Eo; cbn [negb].
      - apply wp_ret. unfold set_once_timer in HQ1. cbn in HQ1.
        unfold set_ck_locked. rewrite Eo, <- Honce. exact HQ1.
      - apply wp_modify, HQ1. }
    wp_step. apply Hdo. wp_step. apply Write_run'; [done | done | done |].
    intros n err b' (Hwf' & Hl' & Hn & Hacc' & _ & Herr' & Hres) Hrel.
    apply HQ; cbn; try done; [by intros ->; destruct Hres |].
    split; [exact Hwf'|].
    split; [change (accepted b' = out ++ take (Z.to_nat n) p); rewrite Hacc'; by f_equal|].
    split; [done|]. cbn. rewrite Ecork, Herr. by repeat split.
  - wp_step. pose proof Hwf as (Hn0 & Hpos & Hsk). eapply wp_mono; [by apply write_run|].
    intros [n err] c' ((Hn & Hout & Hshort) & Hsk' & Hrel).
    assert (w_n (ck_bufw w) = 0) as Hempty by auto.
    apply HQ; cbn; try done.
    + intros ->. destruct (decide (n < len p)) as [Hlt|]; [|lia]. by destruct (Hshort Hlt).
    + split; [exact (conj Hn0 (conj Hpos Hsk'))|]. split.
      { rewrite <- Hacc. unfold accepted. rewrite !pending_nil by done. cbn.
        by rewrite !app_nil_r. }
      split; [done|]. cbn. rewrite ?Ecork in *. split; [exact Htimer | by split].
    + intros _ (_ & Hnone & Hr). destruct (Hrel Hr) as [-> Hr']. split; [done|].
      split; [exact (conj Hn0 (conj Hpos Hsk')) | by split].
Qed.

Lemma uncork_run out w f (Q : unit -> corkedConn -> Prop) :
  ck_inv out w -> (sink_fuel C <= f)%nat ->
  (forall w', ck_inv out w' -> ck_corked w' = false -> ck_timer w' = false ->
     (bw_reliable (ck_bufw w) -> ck_err w' = None /\ bw_reliable (ck_bufw w')) -> Q tt w') ->
  wp uncork f w Q.
Proof.
  intros (Hwf & Hacc & Hlock & Htimer & Hcork & Hopen) Hfuel HQ. unfold uncork, ck_Lock, Flush.
  do 4 wp_step. wp_step. cbn [ck_locked set_once_timer]. rewrite Hlock. do 6 wp_step.
  apply flush_run'; [done | done |]. intros b' err (Hwf' & Hacc' & _) Herr Hres Hrel. wp_step.
  apply HQ; try done. split; [exact Hwf'|].
  split; [change (accepted b' = out); by rewrite Hacc'|]. do 3 (split; [done|]).
  cbn. intros _ ->. by apply Hres.
Qed.

Lemma ck_step_inv f w out0 out w' :
  (3 <= f)%nat -> (sink_fuel C <= f)%nat -> ck_inv out0 w -> ck_step f w out w' ->
  ck_inv (out0 ++ out) w' /\
  (ck_corked w' = true -> ck_corked w = true /\ (out = [] \/ ck_once w' = true)).
Proof.
  intros Hf Hfuel Hinv Hstep. revert Hinv. destruct Hstep as [p n err w1 w2 Hw|w1 w2 Ht Hw]; intros Hinv.
  - pose proof (corkedConn_Write_run out0 w1 p f (fun r w' =>
      ck_inv (out0 ++ take (Z.to_nat r.1) p) w' /\ ck_corked w' = ck_corked w1 /\
      (ck_corked w1 = true -> ck_once w' = true)) Hinv Hf Hfuel ltac:(by intros)) as Hrun.
    unfold wp in Hrun. rewrite Hw in Hrun. destruct Hrun as (Hinv' & Hc & Ho).
    split; [exact Hinv'|]. intros Hc'. rewrite Hc in Hc'. auto.
  - pose proof (uncork_run out0 w1 f (fun _ w' => ck_inv out0 w' /\ ck_corked w' = false) Hinv Hfuel
      ltac:(by intros)) as Hrun.
    unfold wp in Hrun. rewrite Hw in Hrun. rewrite app_nil_r. destruct Hrun as [Hinv' Hc].
    split; [exact Hinv' | congruence].
Qed.

Lemma ck_once_stays f w out w' :
  (3 <= f)%nat -> (sink_fuel C <= f)%nat -> ck_step f w out w' -> forall out0, ck_inv out0 w -> ck_once w = true ->
  ck_corked w' = true -> ck_once w' = true.
Proof.
  intros Hf Hfuel Hstep out0 Hinv Ho Hc. pose proof Hstep as Hstep'.
  destruct Hstep' as [p n err w1 w2 Hw|w1 w2 Ht Hw].
  - pose proof (corkedConn_Write_run out0 w1 p f (fun r w' => ck_corked w' = ck_corked w1 /\
      (ck_corked w1 = true -> ck_once w' = true)) Hinv Hf Hfuel ltac:(by intros)) as Hrun.
    unfold wp in Hrun. rewrite Hw in Hrun. destruct Hrun as [Hcc Hoo]. apply Hoo. congruence.
  - pose proof (uncork_run out0 w1 f (fun _ w' => ck_corked w' = false) Hinv Hfuel ltac:(by intros)) as Hrun.
    unfold wp in Hrun. rewrite Hw in Hrun. congruence.
Qed.

Lemma ck_steps_inv f w out0 out w' :
  (3 <= f)%nat -> (sink_fuel C <= f)%nat -> ck_inv out0 w -> ck_steps f w out w' ->
  ck_inv (out0 ++ out) w' /\ (ck_corked w' = true -> out = [] \/ ck_once w' = true).
Proof.
  intros Hf Hfuel Hinv Hs. induction Hs as [w|w out w1 out1 w2 Hs IH Hstep].
  { rewrite app_nil_r. by auto. }
  destruct (IH Hinv) as [Hinv1 Hc1]. destruct (ck_step_inv f w1 _ out1 w2 Hf Hfuel Hinv1 Hstep) as [Hinv2 Hc2].
  rewrite app_assoc. split; [exact Hinv2|]. intros Hc. destruct (Hc2 Hc) as [Hcw [->|Ho]]; [|auto].
  rewrite app_nil_r. destruct (Hc1 Hcw) as [->|Ho]; [auto|]. right.
  by eapply ck_once_stays.
Qed.

(** ** The corked connection as a connection

    Reading goes straight to the connection; what is written is what was accepted, buffered or
    not; the timer is the tick. *)

Context `{!Reader C} `{!Duplex C}.

#[global] Instance corked_Reader : Reader corkedConn := fun p => zoom ck_Conn set_ck_Conn (read p).
#[global] Instance corked_Writer : Writer corkedConn := corkedConn_Write.

#[global] Program Instance corked_Sink : Sink corkedConn := {|
  written := fun w => accepted (ck_bufw w);
  sink_ok := fun w => ck_inv (accepted (ck_bufw w)) w;
  sink_fuel := Nat.max 3 (sink_fuel C)
|}.
Next Obligation.
  intros p f w Hw Hf. eapply corkedConn_Write_run; [exact Hw | lia | lia |].
  intros n err w' Hn Herr Hinv _ _ _ _. pose proof (proj1 (proj2 Hinv)) as Hacc.
  split; [|by rewrite Hacc]. split; [exact Hn|]. split; [exact Hacc|].
  intros Hlt ->. specialize (Herr eq_refl). lia.
Qed.

(** Over a connection that never fails a corked connection does not fail. *)
Definition ck_reliable (w : corkedConn) : Prop :=
  sink_ok w /\ ck_err w = None /\ bw_reliable (ck_bufw w).

Lemma corked_reliable w : ck_reliable w -> reliable w.
Proof.
  intros Hw. exists ck_reliable. split; [exact Hw|]. split; [by intros w1 [? _]|].
  intros p f w1 (Hok & Herr & Hrel) Hf. assert (Nat.max 3 (sink_fuel C) <= f)%nat as Hf' by exact Hf.
  eapply corkedConn_Write_run; [exact Hok | lia | lia |].
  intros n err w' _ _ Hinv _ Herr' _ Hrel'. destruct (Hrel' Herr Hrel) as [-> Hr]. split; [done|].
  split; [|split; [congruence | done]]. pose proof (proj1 (proj2 Hinv)) as Hacc. cbn. by rewrite Hacc.
Qed.

Lemma timedCork_reliable as_Writer c d bufSize :
  as_Writer c = None -> reliable c -> ck_reliable (timedCork as_Writer c d bufSize).
Proof.
  intros Hnew Hr. pose proof (timedCork_inv as_Writer c d bufSize Hnew (reliable_ok c Hr)) as Hinv.
  set (w := timedCork as_Writer c d bufSize) in *. pose proof (proj1 (proj2 Hinv)) as Hacc.
  split; [change (ck_inv (accepted (ck_bufw w)) w); by rewrite Hacc|]. split; [done|].
  split; [apply Hinv|]. subst w. unfold timedCork, NewWriterSize. rewrite Hnew. done.
Qed.

Lemma corked_read w p f (Q : bytes * Z * option error -> C -> Prop) :
  wp (read p) f (ck_Conn w) Q <->
  wp (read p) f w (fun r w' => Q r (ck_Conn w') /\ w' = set_ck_Conn (ck_Conn w') w).
Proof.
  change (@read corkedConn _ p) with (zoom ck_Conn set_ck_Conn (read p)). unfold wp, zoom.
  destruct (read p f (ck_Conn w)) as [a c'|]; [|done]. by split; [|intros [? _]].
Qed.

Lemma corked_exhausted F w e : exhausted F (ck_Conn w) e <-> exhausted F w e.
Proof.
  split.
  - intros (P & HP & Hr). exists (fun w => P (ck_Conn w)). split; [exact HP|].
    intros w1 p f HP1 Hp Hf. pose proof (Hr _ p f HP1 Hp Hf) as Hw. apply corked_read in Hw.
    eapply wp_mono; [exact Hw|]. by intros [[p' n] er] w' [Hres _].
  - intros (P & HP & Hr). exists (fun c => exists w, P w /\ ck_Conn w = c). split; [by exists w|].
    intros c p f (w1 & HP1 & <-) Hp Hf. pose proof (Hr w1 p f HP1 Hp Hf) as Hw. revert Hw.
    change (@read corkedConn _ p) with (zoom ck_Conn set_ck_Conn (read p)). unfold wp, zoom.
    destruct (read p f (ck_Conn w1)) as [[[p' n] er] c'|]; [|done].
    intros (? & ? & ? & ?). repeat split; try done. by exists (set_ck_Conn c' w1).
Qed.

(** It delivers what the connection delivers. *)
Lemma corked_delivers F k bs e w : delivers F k (ck_Conn w) bs e <-> delivers F k w bs e.
Proof.
  revert w bs. induction k as [|k IH]; intros w bs; [done|]. cbn [delivers].
  split; intros Hd p f Hp Hf; specialize (Hd p f Hp Hf).
  - apply corked_read in Hd. eapply wp_mono; [exact Hd|].
    intros [[p' n] er] w' [(chunk & rest & ? & ? & ? & ? & ? & Her) _]. exists chunk, rest.
    repeat split; try done. destruct er as [e'|].
    + destruct Her as (? & ? & ?). repeat split; try done. by apply corked_exhausted.
    + by apply IH.
  - apply corked_read. pose proof Hd as Hd2. revert Hd2.
    change (@read corkedConn _ p) with (zoom ck_Conn set_ck_Conn (read p)). unfold wp, zoom in *.
    destruct (read p f (ck_Conn w)) as [[[p' n] er] c'|]; [|done].
    intros (chunk & rest & ? & ? & ? & ? & ? & Her). split; [|done]. exists chunk, rest.
    repeat split; try done. destruct er as [e'|].
    + destruct Her as (? & ? & Hex). repeat split; try done. by apply (corked_exhausted _ (set_ck_Conn c' w)).
    + by apply (IH (set_ck_Conn c' w)).
Qed.

Lemma ck_Lock_keeps (P : corkedConn -> Prop) :
  (forall w, P w -> P (set_ck_locked true w)) -> keeps P ck_Lock.
Proof.
  intros HP f w a w' _ Hw. unfold ck_Lock, bind, get, stop, put.
  destruct (ck_locked w); [done|]. intros [= _ <-]. by apply HP.
Qed.

#[global] Program Instance corked_Duplex : Duplex corkedConn :=
  {| tick := fun f w w' => ck_timer w = true /\ uncork f w = Ret tt w' |}.
Next Obligation.
  intros p f w a w'. change (@read corkedConn _ p) with (zoom ck_Conn set_ck_Conn (read p)). unfold zoom.
  destruct (read p f (ck_Conn w)) as [b c'|] eqn:E; [|done]. intros [= <- <-].
  apply read_keeps_written in E as [Hw Hok]. split.
  - cbn. unfold accepted, pending. cbn. by rewrite Hw.
  - intros ((? & ? & ?) & Hacc & Hrest). split; [split; [done|]; split; [done | by apply Hok]|].
    split; [done | exact Hrest].
Qed.
Next Obligation.
  intros F k bs e p. cbn. intros f w a w' Hf Hd Hw. apply corked_delivers in Hd. apply corked_delivers.
  revert f w a w' Hf Hd Hw. change (keeps (fun w => delivers F k (ck_Conn w) bs e) (corkedConn_Write p)).
  unfold corkedConn_Write. keeping.
  - by apply ck_Lock_keeps.
  - apply (keeps_zoom _ _ (fun b : bufWriter C => delivers F k (w_wr b) bs e)); [done | done |].
    apply (Write_keeps 0 (fun c => delivers F k c bs e)). intros q. apply write_keeps_stream.
  - apply (keeps_zoom _ _ (fun c => delivers F k c bs e)); [done | done |]. apply write_keeps_stream.
Qed.
Next Obligation.
  intros f w w' [Ht Hu] Hf Hok. assert (Nat.max 3 (sink_fuel C) <= f)%nat as Hf' by exact Hf.
  pose proof (uncork_run _ w f
    (fun _ w' => ck_inv (accepted (ck_bufw w)) w') Hok ltac:(lia) ltac:(by intros)) as Hrun.
  unfold wp in Hrun. rewrite Hu in Hrun. pose proof (proj1 (proj2 Hrun)) as Hacc. cbn.
  split; [exact Hacc|]. split; [by rewrite Hacc|].
  intros F k bs e Hd. apply corked_delivers in Hd. apply corked_delivers. revert Hd Hu.
  enough (keeps (fun w => delivers F k (ck_Conn w) bs e) uncork) as Hk by (intros; by eapply Hk; [apply le_0_n|..]).
  unfold uncork, Flush. keeping.
  { by apply ck_Lock_keeps. }
  apply (keeps_zoom _ _ (fun b : bufWriter C => delivers F k (w_wr b) bs e)); [done | done |].
  apply (flush_keeps 0 (fun c => delivers F k c bs e)). intros q. apply write_keeps_stream.
Qed.

(** C24. The cork keeps order and loses nothing, however its writes and its timer interleave: what the
    callers were told was written is, in order, what the connection has received and what is still in
    the buffer; and from the moment the timer has opened the cork without an error, the
    connection has received all of it. *)
Theorem cork_in_order as_Writer c d bufSize f out w :
  as_Writer c = None -> sink_ok c -> (3 <= f)%nat -> (sink_fuel C <= f)%nat ->
  ck_steps f (timedCork as_Writer c d bufSize) out w ->
  written (ck_Conn w) ++ pending (ck_bufw w) = written c ++ out /\
  (ck_corked w = false -> ck_err w = None -> written (ck_Conn w) = written c ++ out).
Proof.
  intros Hnew Hsk Hf Hfuel Hs. pose proof (timedCork_inv as_Writer c d bufSize Hnew Hsk) as Hinv.
  destruct (ck_steps_inv f _ _ _ _ Hf Hfuel Hinv Hs) as [(Hwf & Hacc & _ & _ & _ & Hopen) _].
  split; [exact Hacc|]. intros Hc Herr. rewrite <- Hacc. unfold accepted.
  by rewrite pending_nil, app_nil_r by auto.
Qed.

(** C33. Data is never stuck in the cork. In every reachable state either nothing was written, or the
    timer is still to fire, or the cork is open; a write and the timer never block or panic;
    the first write starts the timer, and the timer opens the cork for good. *)
Theorem cork_opens as_Writer c d bufSize f out w p :
  as_Writer c = None -> sink_ok c -> (3 <= f)%nat -> (sink_fuel C <= f)%nat ->
  ck_steps f (timedCork as_Writer c d bufSize) out w ->
  (out = [] \/ ck_timer w = true \/ ck_corked w = false) /\
  wp (corkedConn_Write p) f w (fun _ w' =>
    ck_corked w' = ck_corked w /\ (ck_timer w' = true \/ ck_corked w' = false)) /\
  wp uncork f w (fun _ w' => ck_corked w' = false /\ ck_timer w' = false).
Proof.
  intros Hnew Hsk Hf Hfuel Hs. pose proof (timedCork_inv as_Writer c d bufSize Hnew Hsk) as Hinv0.
  destruct (ck_steps_inv f _ _ _ _ Hf Hfuel Hinv0 Hs) as [Hinv Hc].
  split; [|split].
  - destruct (ck_corked w) eqn:E; [|auto]. destruct (Hc eq_refl) as [->|Ho]; [auto|].
    destruct Hinv as (_ & _ & _ & _ & Hcork & _). destruct (Hcork E) as [_ Hot]. rewrite <- Hot. auto.
  - eapply corkedConn_Write_run; [exact Hinv | done | done |].
    intros n err w' _ _ (_ & _ & _ & _ & Hcork' & _) Hcc _ Ho _. split; [done|].
    destruct (ck_corked w') eqn:E; [|auto]. destruct (Hcork' eq_refl) as [_ <-]. left. apply Ho. congruence.
  - eapply uncork_run; [exact Hinv | done |]. intros w' _ Hc' Ht' _. done.
Qed.

End Cork.

(** ** Witnesses *)

Definition quiet_conn : conn :=
  {| conn_in := []; conn_fin := EOF; conn_out := []; conn_room := None |}.

Definition cork0 : corkedConn := timedCork no_Writer quiet_conn (10 * Millisecond) 16.

(** A first write that stays in the buffer, the timer, and a write straight to the connection. *)
Lemma cork_run : exists w, ck_steps 9 cork0 ((([] ++ str "abc") ++ []) ++ str "def") w.
Proof.
  eexists. eapply steps_more; [eapply steps_more; [eapply steps_more; [apply steps_refl|]|]|].
  - apply (step_write 9 (str "abc") 3 None). vm_compute. reflexivity.
  - apply step_timer; vm_compute; reflexivity.
  - apply (step_write 9 (str "def") 3 None). vm_compute. reflexivity.
Defined.

Lemma cork_in_order_witness :
  exists w, ck_steps 9 cork0 ((([] ++ str "abc") ++ []) ++ str "def") w /\
    written (ck_Conn w) ++ pending (ck_bufw w) = str "abcdef" /\
    (ck_corked w = false -> ck_err w = None -> written (ck_Conn w) = str "abcdef").
Proof.
  destruct cork_run as [w Hw]. exists w. split; [exact Hw|].
  exact (cork_in_order no_Writer quiet_conn (10 * Millisecond) 16 9 _ w eq_refl I ltac:(lia) (le_0_n 9) Hw).
Defined.

Lemma cork_opens_witness :
  exists w, ck_steps 9 cork0 ((([] ++ str "abc") ++ []) ++ str "def") w /\
    (str "abcdef" = [] \/ ck_timer w = true \/ ck_corked w = false) /\
    wp (corkedConn_Write (str "x")) 9 w (fun _ w' =>
      ck_corked w' = ck_corked w /\ (ck_timer w' = true \/ ck_corked w' = false)) /\
    wp uncork 9 w (fun _ w' => ck_corked w' = false /\ ck_timer w' = false).
Proof.
  destruct cork_run as [w Hw]. exists w. split; [exact Hw|].
  exact (cork_opens no_Writer quiet_conn (10 * Millisecond) 16 9 _ w (str "x") eq_refl I ltac:(lia) (le_0_n 9) Hw).
Defined.
