(* ===== verification/Endpoint.v ===== *)
(** What a relay needs of the connections at its two ends.

    The contract of [GoIO.Duplex] speaks of every stream a connection could deliver, seen from the
    outside only. A connection with a protocol of its own, such as an encrypted one, keeps a
    promise about the stream it carries: [offers] is that promise, as a predicate of its state. *)

From Stdlib Require Import ZArith Lia.
From stdpp Require Import base list numbers.
From S2P Require Import Prelude GoIO.

(** A read hands out the next part of [bs], or ends with [e] behind all of it. *)
Definition fair_read {A} (bs : bytes) (e : error) (p : bytes) (next : bytes -> A -> Prop)
    (res : bytes * Z * option error) (s : A) : Prop :=
  let '(p', n, er) := res in
  exists chunk rest, bs = chunk ++ rest /\ n = len chunk /\ (length chunk <= length p)%nat /\
    take (length chunk) p' = chunk /\
    match er with
    | None => next rest s
    | Some e' => rest = [] /\ e' = e
    end.

Class Endpoint (C : Type) `{Reader C, Writer C} := {
  (** What was accepted for the other side, and when this account is right. *)
  ep_written : C -> bytes;
  ep_live : C -> Prop;
  (** No write has failed. *)
  ep_writable : C -> Prop;
  ep_fuel : nat;
  (** What may happen between two calls. *)
  ep_tick : nat -> C -> C -> Prop;
  (** The bytes still to come and the error behind them, within [k] reads run with fuel [F]. *)
  offers : nat -> nat -> C -> bytes -> error -> Prop;

  ep_read : forall F k c bs e p f, offers F k c bs e -> p <> [] -> (F <= f)%nat ->
    wp (read p) f c (fair_read bs e p (fun rest c' => exists k', (k' < k)%nat /\ offers F k' c' rest e));
  ep_offers_pos : forall F k c bs e, offers F k c bs e -> (0 < k)%nat;
  ep_read_keeps : forall p f c a c', read p f c = Ret a c' -> ep_live c ->
    ep_written c' = ep_written c /\ ep_live c' /\ (ep_writable c -> ep_writable c');

  ep_write : forall p f c, ep_live c -> ep_writable c -> (ep_fuel <= f)%nat -> len p < 2 ^ 63 ->
    wp (write p) f c (fun '(n, er) c' =>
      0 <= n <= len p /\ ep_written c' = ep_written c ++ take (Z.to_nat n) p /\
      (n < len p -> er <> None) /\ ep_live c' /\ (er = None -> ep_writable c'));
  ep_write_keeps : forall F k bs e p f c a c', write p f c = Ret a c' -> ep_live c ->
    offers F k c bs e -> offers F k c' bs e;

  ep_tick_live : forall f c c', ep_tick f c c' -> (ep_fuel <= f)%nat -> ep_live c ->
    ep_written c' = ep_written c /\ ep_live c' /\ (ep_writable c -> ep_writable c') /\
    (forall F k bs e, offers F k c bs e -> offers F k c' bs e)
}.
Arguments ep_fuel C {_ _ _}.

(** A connection without such a protocol offers what it delivers. *)
#[global] Program Instance Duplex_Endpoint {C} `{Duplex C} : Endpoint C := {|
  ep_written := written; ep_live := sink_ok; ep_writable := fun _ => True; ep_fuel := sink_fuel C;
  ep_tick := tick; offers := delivers
|}.
Next Obligation.
  intros ? ? ? ? ? F k c bs e p f Hd Hp HF. destruct k as [|k]; [done|]. cbn [delivers] in Hd.
  eapply wp_mono; [exact (Hd p f Hp HF)|].
  intros [[p' n] er] c' (chunk & rest & ? & ? & ? & ? & ? & Her). exists chunk, rest.
  do 4 (split; [done|]). destruct er as [e'|]; [by destruct Her as (? & ? & _)|]. exists k. split; [lia | done].
Qed.
Next Obligation. intros ? ? ? ? ? F k c bs e. apply delivers_pos. Qed.
Next Obligation.
  intros ? ? ? ? ? p f c a c' Hr Hl. destruct (read_keeps_written p f c a c' Hr). auto.
Qed.
Next Obligation.
  intros ? ? ? ? ? p f c Hl _ Hf _. eapply wp_mono; [by apply write_spec|].
  intros [n er] c' [(? & ? & ?) ?]. auto.
Qed.
Next Obligation.
  intros ? ? ? ? ? F k bs e p f c a c' Hw _ Hd. eapply write_keeps_stream; [apply Nat.le_0_l | exact Hd | exact Hw].
Qed.
Next Obligation.
  intros ? ? ? ? ? f c c' Ht Hf Hl. destruct (tick_keeps f c c' Ht Hf Hl) as (? & ? & ?). auto.
Qed.
