(* ===== verification/Relay.v ===== *)
(** The two relays: [Server.relay] of m_server (socks_server.go) and [request.Relay] of m_socks
    (handler.go). Each copies between two connections with one goroutine per direction.

    A goroutine is a [pump]; an execution is any interleaving of the pumps' reads and writes,
    and of the read deadlines that [Server.relay] sets. *)

From Stdlib Require Import ZArith Lia.
From stdpp Require Import base decidable list numbers strings.
From S2P Require Import Prelude GoIO Endpoint SaltFilter ShadowCipher ShadowStream.

(** [os.ErrDeadlineExceeded], and [errors.Is(err, os.ErrDeadlineExceeded)]. *)
Definition ErrDeadlineExceeded : error := NetError true true 60.
Definition is_deadline (e : error) : bool := bool_decide (e = ErrDeadlineExceeded).

(** Where a goroutine is: about to read, about to write what it read, or done with the error it
    stopped at. [er] is the error that came with the data. *)
Inductive pump :=
| Reading
| Writing (chunk : bytes) (er : option error)
| Finished (err : option error).

Definition finished (p : pump) : bool := match p with Finished _ => true | _ => false end.

(** How a copy loop goes on after a read and after a write of [n] bytes of [chunk]. *)
Record policy := {
  buf_size : Z;
  on_read : bytes -> option error -> pump;
  on_write : bytes -> option error -> Z -> option error -> pump
}.

(** [io.Copy] between connections that have neither [WriteTo] nor [ReadFrom]: data that comes with
    an error is written first; the end of file is no error. *)
Definition end_of_copy (er : option error) : pump :=
  match er with
  | None => Reading
  | Some e => if decide (e = EOF) then Finished None else Finished (Some e)
  end.

Definition io_Copy : policy := {|
  buf_size := 32 * 1024;
  on_read := fun chunk er => if 0 <? len chunk then Writing chunk er else end_of_copy er;
  on_write := fun chunk er n ew =>
    match ew with
    | Some e => Finished (Some e)
    | None => if n =? len chunk then end_of_copy er else Finished (Some ErrShortWrite)
    end
|}.

(** [io.Copy] with an encrypted connection of m_shadow at one end, which it leaves to that connection's
    [WriteTo] or [ReadFrom]: a record or a read of at most 0x3FFF bytes at a time, with the length
    a write returns ignored. That [WriteTo] is this loop, but for the error it gives when the other side
    ends without a salt, is shown in [CopyLoop]. [ReadFrom] sends the salt before its first read, even if
    nothing follows; here a write sends it when it has not gone out yet. That it may go out earlier is
    a tick of the encrypted connection ([Tunnel.te_tick]), so that the runs of a relay over one
    include those in which it was sent first. When sending it fails, the code ends the copy before it
    has read, and this policy at the first write. *)
Definition stream_copy : policy := {|
  buf_size := payloadSizeMask;
  on_read := fun chunk er => if 0 <? len chunk then Writing chunk er else end_of_copy er;
  on_write := fun chunk er n ew =>
    match ew with
    | Some e => Finished (Some e)
    | None => end_of_copy er
    end
|}.

(** The loops of [request.Relay] with [request.read]: the error of a read ends the loop, and the data
    that came with it is dropped. *)
Definition handler_copy : policy := {|
  buf_size := 50;
  on_read := fun chunk er =>
    match er with
    | Some e => Finished (Some e)
    | None => if 0 <? len chunk then Writing chunk None else Reading
    end;
  on_write := fun chunk _ _ ew =>
    match ew with Some e => Finished (Some e) | None => Reading end
|}.

Section Relay.
Context {L R : Type} `{Endpoint L} `{Endpoint R}.

(** [r_p1] copies left to right, [r_p2] right to left; [r_dleft] and [r_dright] are the read
    deadlines. *)
Record relay_state := {
  r_left : L;
  r_right : R;
  r_p1 : pump;
  r_p2 : pump;
  r_dleft : bool;
  r_dright : bool
}.

Definition relay_start (left : L) (right : R) : relay_state :=
  {| r_left := left; r_right := right; r_p1 := Reading; r_p2 := Reading;
     r_dleft := false; r_dright := false |}.

(** The goroutine of direction 1 goes on to [p]; when it ends it sets the deadline of the right
    connection, and the other one that of the left connection. *)
Definition move1 (ReadTimeout : Z) (p : pump) (s : relay_state) : relay_state :=
  {| r_left := r_left s; r_right := r_right s; r_p1 := p; r_p2 := r_p2 s; r_dleft := r_dleft s;
     r_dright := r_dright s || (finished p && (0 <? ReadTimeout)) |}.
Definition move2 (ReadTimeout : Z) (p : pump) (s : relay_state) : relay_state :=
  {| r_left := r_left s; r_right := r_right s; r_p1 := r_p1 s; r_p2 := p;
     r_dleft := r_dleft s || (finished p && (0 <? ReadTimeout)); r_dright := r_dright s |}.
Definition set_left x (s : relay_state) : relay_state :=
  {| r_left := x; r_right := r_right s; r_p1 := r_p1 s; r_p2 := r_p2 s; r_dleft := r_dleft s;
     r_dright := r_dright s |}.
Definition set_right x (s : relay_state) : relay_state :=
  {| r_left := r_left s; r_right := x; r_p1 := r_p1 s; r_p2 := r_p2 s; r_dleft := r_dleft s;
     r_dright := r_dright s |}.

(** One step of either goroutine. A read of a connection whose deadline is set may fail with it. *)
Inductive relay_step (pol : policy) (ReadTimeout : Z) (f : nat) : relay_state -> relay_state -> Prop :=
| read_left s p p' n er left :
    r_p1 s = Reading -> len p = buf_size pol -> read p f (r_left s) = Ret (p', n, er) left ->
    relay_step pol ReadTimeout f s
      (move1 ReadTimeout (on_read pol (take (Z.to_nat n) p') er) (set_left left s))
| write_right s chunk er n ew right :
    r_p1 s = Writing chunk er -> write chunk f (r_right s) = Ret (n, ew) right ->
    relay_step pol ReadTimeout f s
      (move1 ReadTimeout (on_write pol chunk er n ew) (set_right right s))
| expire_left s :
    r_p1 s = Reading -> r_dleft s = true ->
    relay_step pol ReadTimeout f s (move1 ReadTimeout (Finished (Some ErrDeadlineExceeded)) s)
| read_right s p p' n er right :
    r_p2 s = Reading -> len p = buf_size pol -> read p f (r_right s) = Ret (p', n, er) right ->
    relay_step pol ReadTimeout f s
      (move2 ReadTimeout (on_read pol (take (Z.to_nat n) p') er) (set_right right s))
| write_left s chunk er n ew left :
    r_p2 s = Writing chunk er -> write chunk f (r_left s) = Ret (n, ew) left ->
    relay_step pol ReadTimeout f s
      (move2 ReadTimeout (on_write pol chunk er n ew) (set_left left s))
| expire_right s :
    r_p2 s = Reading -> r_dright s = true ->
    relay_step pol ReadTimeout f s (move2 ReadTimeout (Finished (Some ErrDeadlineExceeded)) s).

(** Runs, with the number of steps of the goroutines. In between, something inside either connection
    may run: the timer of a corked connection. *)
Inductive relay_run (pol : policy) (ReadTimeout : Z) (f : nat) : nat -> relay_state -> relay_state -> Prop :=
| run_start s : relay_run pol ReadTimeout f O s s
| run_step n s s' s'' :
    relay_run pol ReadTimeout f n s s' -> relay_step pol ReadTimeout f s' s'' ->
    relay_run pol ReadTimeout f (S n) s s''
| run_tick_left n s s' left :
    relay_run pol ReadTimeout f n s s' -> ep_tick f (r_left s') left ->
    relay_run pol ReadTimeout f n s (set_left left s')
| run_tick_right n s s' right :
    relay_run pol ReadTimeout f n s s' -> ep_tick f (r_right s') right ->
    relay_run pol ReadTimeout f n s (set_right right s').

(** What [relay] returns when both goroutines are done: [err1] is the error of left to right. *)
Definition relay_result (err1 err : option error) : option error :=
  match err1 with
  | Some e1 =>
      if negb (is_deadline e1) then Some e1
      else match err with
           | Some e => if negb (is_deadline e) then Some e else None
           | None => None
           end
  | None =>
      match err with
      | Some e => if negb (is_deadline e) then Some e else None
      | None => None
      end
  end.

End Relay.
Arguments relay_state L R : clear implicits.

(** ** Correctness *)

(** What the copy loops rely on. *)
Record policy_ok (pol : policy) : Prop := {
  pol_size : 0 < buf_size pol < 2 ^ 63;
  pol_read : forall chunk er,
    match on_read pol chunk er with
    | Reading => chunk = [] /\ er = None
    | Writing chunk' er' => chunk' = chunk /\ er' = er
    | Finished err => er <> None /\ (err = None -> chunk = [])
    end;
  pol_write : forall chunk0 er0 chunk er n ew, on_read pol chunk0 er0 = Writing chunk er ->
    match on_write pol chunk er n ew with
    | Reading => ew = None /\ er = None
    | Writing _ _ => False
    | Finished err => err = None -> ew = None /\ er <> None
    end
}.

Lemma end_of_copy_ok er :
  match end_of_copy er with
  | Reading => er = None | Writing _ _ => False | Finished _ => er <> None
  end.
Proof. destruct er as [e|]; cbn; [destruct (decide _)|]; done. Qed.

Lemma read_then_end_ok chunk er :
  match (if 0 <? len chunk then Writing chunk er else end_of_copy er) with
  | Reading => chunk = [] /\ er = None
  | Writing chunk' er' => chunk' = chunk /\ er' = er
  | Finished err => er <> None /\ (err = None -> chunk = [])
  end.
Proof.
  destruct (0 <? Z.of_nat (length chunk)) eqn:E; [done|].
  assert (chunk = []) as -> by (destruct chunk; [done | cbn in E; blia]).
  pose proof (end_of_copy_ok er). by destruct (end_of_copy er).
Qed.

Lemma io_Copy_ok : policy_ok io_Copy.
Proof.
  constructor; [done | exact read_then_end_ok |].
  intros _ _ chunk er n [e|] _; cbn; [done|]. destruct (n =? _); [|done].
  pose proof (end_of_copy_ok er). by destruct (end_of_copy er).
Qed.

Lemma stream_copy_ok : policy_ok stream_copy.
Proof.
  constructor; [done | exact read_then_end_ok |].
  intros _ _ chunk er n [e|] _; cbn; [done|].
  pose proof (end_of_copy_ok er). by destruct (end_of_copy er).
Qed.

Lemma handler_copy_ok : policy_ok handler_copy.
Proof.
  constructor; [done | |].
  - intros chunk er. cbn. destruct er as [e|]; [done|].
    destruct (0 <? Z.of_nat (length chunk)) eqn:E; [done|]. split; [|done].
    destruct chunk; [done | cbn in E; blia].
  - intros chunk0 er0 chunk er n ew. cbn. destruct er0 as [e|]; [done|].
    destruct (0 <? _); [|done]. intros [= -> <-]. by destruct ew.
Qed.

Section Direction.
Context {S D : Type} `{Endpoint S} `{Endpoint D}.
Variable pol : policy.

(** One direction: the source had [bs] and then [e] to give when the destination held [out]. The
    copy is always a prefix, and all of [bs] if it ended without an error; [m] bounds the
    steps left. *)
Definition copying F (bs : bytes) (e : error) (out : bytes) (m : nat) (src : S) (dst : D) (p : pump) : Prop :=
  exists done rest, bs = done ++ rest /\ ep_written dst = out ++ done /\ ep_live dst /\
    (finished p = false -> ep_writable dst) /\
    match p with
    | Reading => exists k, offers F k src rest e /\ (2 * k <= m)%nat
    | Writing chunk er => exists rest', rest = chunk ++ rest' /\
        len chunk <= buf_size pol /\ (exists chunk0 er0, on_read pol chunk0 er0 = Writing chunk er) /\
        match er with
        | None => exists k, offers F k src rest' e /\ (2 * k + 1 <= m)%nat
        | Some e' => rest' = [] /\ e' = e /\ (1 <= m)%nat
        end
    | Finished err => err = None -> rest = []
    end.

Lemma copying_live F bs e out m src dst p : copying F bs e out m src dst p -> ep_live dst.
Proof. by intros (? & ? & _ & _ & ? & _). Qed.

Lemma copying_read F bs e out m src dst p f b b' n er src' :
  policy_ok pol -> copying F bs e out m src dst Reading -> (F <= f)%nat ->
  len b = buf_size pol -> read b f src = Ret (b', n, er) src' ->
  (p = on_read pol (take (Z.to_nat n) b') er) ->
  exists m', (m' < m)%nat /\ copying F bs e out m' src' dst p.
Proof.
  intros [Hsize Hread _] (done & rest & Hbs & Hout & Hl & Hw & k & Hd & Hm) HF Hb Hr ->.
  pose proof (ep_offers_pos _ _ _ _ _ Hd) as Hk.
  pose proof (ep_read F k src rest e b f Hd) as Hwp. unfold wp in Hwp. rewrite Hr in Hwp.
  destruct Hwp as (chunk & rest' & -> & -> & Hlc & Hchunk & Her);
    [intros ->; cbn in Hb; lia | done |].
  rewrite Nat2Z.id, Hchunk. specialize (Hread chunk er).
  exists (m - 1)%nat. split; [lia|]. exists done, (chunk ++ rest').
  do 3 (split; [done|]). split; [auto|].
  destruct (on_read pol chunk er) as [|chunk' er'|err] eqn:Eon.
  - destruct Hread as [-> ->]. destruct Her as (k' & ? & ?). exists k'. split; [done | lia].
  - destruct Hread as [-> ->]. exists rest'. split; [done|]. split; [lia|]. split; [by exists chunk, er|].
    destruct er as [e'|].
    + destruct Her as (-> & ->). repeat split. lia.
    + destruct Her as (k' & ? & ?). exists k'. split; [done | lia].
  - destruct Hread as [Hner Herr]. intros Hn. rewrite (Herr Hn). destruct er as [e'|]; [|done].
    by destruct Her as (-> & _).
Qed.

Lemma copying_write F bs e out m src dst chunk er p f n ew dst' :
  policy_ok pol -> copying F bs e out m src dst (Writing chunk er) -> (ep_fuel D <= f)%nat ->
  write chunk f dst = Ret (n, ew) dst' -> p = on_write pol chunk er n ew ->
  exists m', (m' < m)%nat /\ copying F bs e out m' src dst' p.
Proof.
  intros [Hsize _ Hpol] (done & rest & Hbs & Hout & Hl & Hwr & rest' & -> & Hlc & (chunk0 & er0 & Hon) & Her) Hfuel Hw ->.
  specialize (Hpol chunk0 er0 chunk er n ew Hon).
  pose proof (ep_write chunk f dst Hl (Hwr eq_refl) Hfuel ltac:(lia)) as Hspec.
  unfold wp in Hspec. rewrite Hw in Hspec. destruct Hspec as (Hn & Hout' & Hshort & Hl' & Hwr').
  assert (1 <= m)%nat as Hm.
  { destruct er; [destruct Her as (_ & _ & ?); lia | destruct Her as (k & _ & ?); lia]. }
  assert (ew = None -> n = len chunk) as Hall.
  { intros ->. destruct (decide (n < len chunk)) as [Hlt|]; [|lia]. by destruct (Hshort Hlt). }
  exists (m - 1)%nat. split; [lia|].
  exists (done ++ take (Z.to_nat n) chunk), (drop (Z.to_nat n) chunk ++ rest').
  split; [by rewrite Hbs, <- (take_drop (Z.to_nat n) chunk) at 1; rewrite <- !app_assoc|].
  split; [by rewrite Hout', Hout, app_assoc|]. split; [exact Hl'|].
  assert (ew = None -> drop (Z.to_nat n) chunk = []) as Hdrop
    by (intros Hew; apply drop_ge; rewrite (Hall Hew); lia).
  destruct (on_write pol chunk er n ew) as [|? ?|err]; [|done|].
  - destruct Hpol as [Hew ->]. split; [auto|]. rewrite (Hdrop Hew). destruct Her as (k & Hd & Hk).
    exists k. split; [done | lia].
  - split; [done|]. intros Hn0. destruct (Hpol Hn0) as [Hew Hner]. rewrite (Hdrop Hew).
    destruct er; [|done]. by destruct Her as (-> & _).
Qed.

Lemma copying_expire F bs e out m src dst err :
  copying F bs e out m src dst Reading -> err <> None ->
  exists m', (m' < m)%nat /\ copying F bs e out m' src dst (Finished err).
Proof.
  intros (done & rest & Hbs & Hout & Hl & Hw & k & Hd & Hm) Herr. apply ep_offers_pos in Hd.
  exists (m - 1)%nat. split; [lia|]. by exists done, rest.
Qed.

(** The other direction writes to the source and reads from the destination, and either
    connection may tick. *)
Lemma copying_src_keeps F bs e out m src dst p src' :
  copying F bs e out m src dst p ->
  (forall k rest, offers F k src rest e -> offers F k src' rest e) ->
  copying F bs e out m src' dst p.
Proof.
  intros (done & rest & Hbs & Hout & Hl & Hw & Hp) Hkeep. exists done, rest. do 4 (split; [done|]).
  destruct p as [|chunk er|err]; [| |done].
  - destruct Hp as (k & ? & ?). exists k. auto.
  - destruct Hp as (rest' & -> & Hlc & Hon & Her). exists rest'. do 3 (split; [done|]). destruct er; [done|].
    destruct Her as (k & ? & ?). exists k. auto.
Qed.

Lemma copying_src_written F bs e out m src dst p q f a src' :
  copying F bs e out m src dst p -> ep_live src -> write q f src = Ret a src' ->
  copying F bs e out m src' dst p.
Proof.
  intros Hc Hl Hw. eapply copying_src_keeps; [exact Hc|]. intros k rest Hd.
  by eapply ep_write_keeps.
Qed.

Lemma copying_dst_keeps F bs e out m src dst p dst' :
  copying F bs e out m src dst p ->
  ep_written dst' = ep_written dst /\ ep_live dst' /\ (ep_writable dst -> ep_writable dst') ->
  copying F bs e out m src dst' p.
Proof.
  intros (done & rest & Hbs & Hout & Hl & Hw & Hp) (Hr & Hl' & Hwr). exists done, rest. split; [done|].
  split; [congruence|]. auto.
Qed.

Lemma copying_dst_read F bs e out m src dst p q f a dst' :
  copying F bs e out m src dst p -> read q f dst = Ret a dst' -> copying F bs e out m src dst' p.
Proof.
  intros Hc Hr. eapply copying_dst_keeps; [exact Hc|].
  eapply ep_read_keeps; [exact Hr | by eapply copying_live].
Qed.

Lemma copying_src_tick F bs e out m src dst p f src' :
  copying F bs e out m src dst p -> ep_live src -> (ep_fuel S <= f)%nat -> ep_tick f src src' ->
  copying F bs e out m src' dst p.
Proof.
  intros Hc Hok Hf Ht. destruct (ep_tick_live f src src' Ht Hf Hok) as (_ & _ & _ & Hkeep).
  eapply copying_src_keeps; [exact Hc|]. intros k rest. apply Hkeep.
Qed.

Lemma copying_dst_tick F bs e out m src dst p f dst' :
  copying F bs e out m src dst p -> (ep_fuel D <= f)%nat -> ep_tick f dst dst' ->
  copying F bs e out m src dst' p.
Proof.
  intros Hc Hf Ht.
  destruct (ep_tick_live f dst dst' Ht Hf (copying_live _ _ _ _ _ _ _ _ Hc)) as (Hw & Hl & Hwr & _).
  by eapply copying_dst_keeps.
Qed.

Lemma copying_prefix F bs e out m src dst p :
  copying F bs e out m src dst p -> exists done rest, bs = done ++ rest /\ ep_written dst = out ++ done /\
    (p = Finished None -> rest = []).
Proof.
  intros (done & rest & Hbs & Hout & _ & _ & Hp). exists done, rest. do 2 (split; [done|]).
  intros ->. auto.
Qed.

(** A goroutine that is not done can always go on. *)
Lemma copying_goes_on F bs e out m src dst p f :
  policy_ok pol -> copying F bs e out m src dst p -> (F <= f)%nat -> (ep_fuel D <= f)%nat ->
  match p with
  | Reading => exists b b' n er src', len b = buf_size pol /\ read b f src = Ret (b', n, er) src'
  | Writing chunk er => exists n ew dst', write chunk f dst = Ret (n, ew) dst'
  | Finished _ => True
  end.
Proof.
  intros [Hsize _ _] (done & rest & Hbs & Hout & Hl & Hwr & Hp) HF Hfuel. destruct p as [|chunk er|err]; [| |done].
  - destruct Hp as (k & Hd & _).
    assert (len (zeros (buf_size pol)) = buf_size pol) as Hz by (apply len_zeros; lia).
    pose proof (ep_read F k src rest e (zeros (buf_size pol)) f Hd) as Hwp.
    apply wp_ex in Hwp as ([[b' n] er] & src' & Hr & _);
      [|intros E; rewrite E in Hz; cbn in Hz; lia | done].
    by exists (zeros (buf_size pol)), b', n, er, src'.
  - destruct Hp as (rest' & _ & Hlc & _). pose proof (ep_write chunk f dst Hl (Hwr eq_refl) Hfuel ltac:(lia)) as Hw. apply wp_ex in Hw as ([n ew] & dst' & Hw & _).
    by exists n, ew, dst'.
Qed.

End Direction.

Section RelayProofs.
Context {L R : Type} `{Endpoint L} `{Endpoint R}.
Abbreviation state := (relay_state L R).
Variable pol : policy.

(** The fuel the two connections need. *)
Definition enough (F f : nat) : Prop := (F <= f /\ ep_fuel L <= f /\ ep_fuel R <= f)%nat.

(** Both directions, and the deadlines. *)
Definition relaying F (bsL : bytes) (eL : error) (bsR : bytes) (eR : error) (outL outR : bytes)
    ReadTimeout (m : nat) (s : state) : Prop :=
  exists m1 m2, (m1 + m2 <= m)%nat /\
    copying pol F bsL eL outR m1 (r_left s) (r_right s) (r_p1 s) /\
    copying pol F bsR eR outL m2 (r_right s) (r_left s) (r_p2 s) /\
    (finished (r_p1 s) = true -> 0 < ReadTimeout -> r_dright s = true) /\
    (finished (r_p2 s) = true -> 0 < ReadTimeout -> r_dleft s = true).

Lemma relaying_step F bsL eL bsR eR outL outR T m f s s' :
  policy_ok pol -> relaying F bsL eL bsR eR outL outR T m s -> enough F f ->
  relay_step pol T f s s' ->
  exists m', (m' < m)%nat /\ relaying F bsL eL bsR eR outL outR T m' s'.
Proof.
  intros Hpol (m1 & m2 & Hm & Hc1 & Hc2 & Hd1 & Hd2) (HF & HfL & HfR) Hstep.
  assert (forall p, finished p = true -> 0 < T -> forall d, d || finished p && (0 <? T) = true) as Hset.
  { intros p -> HT d. rewrite (proj2 (Z.ltb_lt 0 T)) by done. by destruct d. }
  assert (forall d c, d = true -> d || c = true) as Hor by (by intros [] []).
  destruct Hstep as [s b b' n er left Hp Hb Hr|s chunk er n ew right Hp Hw|s Hp Hdl
                    |s b b' n er right Hp Hb Hr|s chunk er n ew left Hp Hw|s Hp Hdr];
    rewrite Hp in *.
  - destruct (copying_read pol F _ _ _ _ _ _ _ f b b' n er left Hpol Hc1 HF Hb Hr eq_refl)
      as (m1' & Hlt & Hc1'). exists (m1' + m2)%nat. split; [lia|]. exists m1', m2. cbn.
    split; [lia|]. split; [exact Hc1'|]. split; [by eapply copying_dst_read|]. eauto.
  - destruct (copying_write pol F _ _ _ _ _ _ chunk er _ f n ew right Hpol Hc1 HfR Hw eq_refl)
      as (m1' & Hlt & Hc1'). exists (m1' + m2)%nat. split; [lia|]. exists m1', m2. cbn.
    split; [lia|]. split; [exact Hc1'|]. split; [eapply copying_src_written; [exact Hc2 | exact (copying_live _ _ _ _ _ _ _ _ _ Hc1) | exact Hw]|]. eauto.
  - destruct (copying_expire pol F _ _ _ _ _ _ (Some ErrDeadlineExceeded) Hc1 ltac:(done))
      as (m1' & Hlt & Hc1'). exists (m1' + m2)%nat. split; [lia|]. exists m1', m2. cbn.
    split; [lia|]. split; [exact Hc1'|]. split; [exact Hc2|]. split; [|exact Hd2].
    intros _ HT. by apply (Hset (Finished None)).
  - destruct (copying_read pol F _ _ _ _ _ _ _ f b b' n er right Hpol Hc2 HF Hb Hr eq_refl)
      as (m2' & Hlt & Hc2'). exists (m1 + m2')%nat. split; [lia|]. exists m1, m2'. cbn.
    split; [lia|]. split; [by eapply copying_dst_read|]. split; [exact Hc2'|]. eauto.
  - destruct (copying_write pol F _ _ _ _ _ _ chunk er _ f n ew left Hpol Hc2 HfL Hw eq_refl)
      as (m2' & Hlt & Hc2'). exists (m1 + m2')%nat. split; [lia|]. exists m1, m2'. cbn.
    split; [lia|]. split; [eapply copying_src_written; [exact Hc1 | exact (copying_live _ _ _ _ _ _ _ _ _ Hc2) | exact Hw]|]. split; [exact Hc2'|]. eauto.
  - destruct (copying_expire pol F _ _ _ _ _ _ (Some ErrDeadlineExceeded) Hc2 ltac:(done))
      as (m2' & Hlt & Hc2'). exists (m1 + m2')%nat. split; [lia|]. exists m1, m2'. cbn.
    split; [lia|]. split; [exact Hc1|]. split; [exact Hc2'|]. split; [exact Hd1|].
    intros _ HT. by apply (Hset (Finished None)).
Qed.

Lemma relaying_start F kL kR left right bsL eL bsR eR T :
  offers F kL left bsL eL -> offers F kR right bsR eR -> ep_live left -> ep_live right ->
  ep_writable left -> ep_writable right ->
  relaying F bsL eL bsR eR (ep_written left) (ep_written right) T (2 * kL + 2 * kR)
    (relay_start left right).
Proof.
  intros HL HR HokL HokR HwL HwR. exists (2 * kL)%nat, (2 * kR)%nat. split; [lia|]. cbn.
  split; [exists [], bsL; rewrite app_nil_r; eauto 10|].
  split; [exists [], bsR; rewrite app_nil_r; eauto 10 | done].
Qed.

Lemma relaying_tick_left F bsL eL bsR eR outL outR T m f s left :
  relaying F bsL eL bsR eR outL outR T m s -> enough F f -> ep_tick f (r_left s) left ->
  relaying F bsL eL bsR eR outL outR T m (set_left left s).
Proof.
  intros (m1 & m2 & Hm & Hc1 & Hc2 & Hd) (_ & HfL & _) Ht. exists m1, m2. split; [exact Hm|]. cbn.
  split; [|split; [by eapply copying_dst_tick | exact Hd]].
  eapply copying_src_tick; [exact Hc1 | | exact HfL | exact Ht].
  exact (copying_live _ _ _ _ _ _ _ _ _ Hc2).
Qed.

Lemma relaying_tick_right F bsL eL bsR eR outL outR T m f s right :
  relaying F bsL eL bsR eR outL outR T m s -> enough F f -> ep_tick f (r_right s) right ->
  relaying F bsL eL bsR eR outL outR T m (set_right right s).
Proof.
  intros (m1 & m2 & Hm & Hc1 & Hc2 & Hd) (_ & _ & HfR) Ht. exists m1, m2. split; [exact Hm|]. cbn.
  split; [by eapply copying_dst_tick | split; [|exact Hd]].
  eapply copying_src_tick; [exact Hc2 | | exact HfR | exact Ht].
  exact (copying_live _ _ _ _ _ _ _ _ _ Hc1).
Qed.

Lemma relaying_run F bsL eL bsR eR outL outR T m f n s s' :
  policy_ok pol -> relaying F bsL eL bsR eR outL outR T m s -> enough F f ->
  relay_run pol T f n s s' ->
  (n <= m)%nat /\ relaying F bsL eL bsR eR outL outR T (m - n) s'.
Proof.
  intros Hpol Hs HF Hrun.
  induction Hrun as [s|n s s1 s2 Hrun IH Hstep|n s s1 l Hrun IH Ht|n s s1 r Hrun IH Ht].
  { by rewrite Nat.sub_0_r; split; [lia|]. }
  - destruct (IH Hs) as [Hn Hs1].
    destruct (relaying_step F _ _ _ _ _ _ _ _ f s1 s2 Hpol Hs1 HF Hstep)
      as (m' & Hlt & m1 & m2 & Hm & Hrest).
    split; [lia|]. exists m1, m2. split; [lia | exact Hrest].
  - destruct (IH Hs) as [Hn Hs1]. split; [exact Hn|]. by eapply relaying_tick_left.
  - destruct (IH Hs) as [Hn Hs1]. split; [exact Hn|]. by eapply relaying_tick_right.
Qed.

End RelayProofs.

Section RelayProperties.
Context {L R : Type} `{Endpoint L} `{Endpoint R}.

(** The copies of [Server.relay], and all copies. *)
Definition server_copies (pol : policy) : Prop := pol = io_Copy \/ pol = stream_copy.
Definition copies (pol : policy) : Prop := server_copies pol \/ pol = handler_copy.

Lemma copies_ok pol : copies pol -> policy_ok pol.
Proof. intros [[-> | ->] | ->]; [apply io_Copy_ok | apply stream_copy_ok | apply handler_copy_ok]. Qed.

(** Two connections that have yet to give [bsL] and [bsR], within [kL] and [kR] reads. *)
Record relayable (F kL kR f : nat) (left : L) (right : R) (bsL : bytes) (eL : error)
    (bsR : bytes) (eR : error) : Prop := {
  ra_left : offers F kL left bsL eL;
  ra_right : offers F kR right bsR eR;
  ra_left_ok : ep_live left;
  ra_right_ok : ep_live right;
  ra_left_writable : ep_writable left;
  ra_right_writable : ep_writable right;
  ra_fuel : (F <= f /\ ep_fuel L <= f /\ ep_fuel R <= f)%nat
}.

Lemma relay_invariant pol T F kL kR (left : L) (right : R) bsL eL bsR eR f n s :
  copies pol -> relayable F kL kR f left right bsL eL bsR eR ->
  relay_run pol T f n (relay_start left right) s ->
  (n <= 2 * kL + 2 * kR)%nat /\
  relaying pol F bsL eL bsR eR (ep_written left) (ep_written right) T (2 * kL + 2 * kR - n) s.
Proof.
  intros Hpol [HL HR HokL HokR HwL HwR HF] Hrun. eapply relaying_run; [by apply copies_ok | | exact HF | exact Hrun].
  by apply relaying_start.
Qed.

(** Both connections are still sound afterwards. *)
Lemma relay_keeps_live pol T F kL kR (left : L) (right : R) bsL eL bsR eR f n s :
  copies pol -> relayable F kL kR f left right bsL eL bsR eR ->
  relay_run pol T f n (relay_start left right) s -> ep_live (r_left s) /\ ep_live (r_right s).
Proof.
  intros Hpol Hra Hrun.
  destruct (relay_invariant pol T F kL kR left right bsL eL bsR eR f n s Hpol Hra Hrun)
    as (_ & m1 & m2 & _ & Hc1 & Hc2 & _).
  split; [exact (copying_live _ _ _ _ _ _ _ _ _ Hc2) | exact (copying_live _ _ _ _ _ _ _ _ _ Hc1)].
Qed.

(** Each direction has passed on a prefix, and all if it ended without an error. *)
Lemma relay_transfers pol T F kL kR (left : L) (right : R) bsL eL bsR eR f n s :
  copies pol -> relayable F kL kR f left right bsL eL bsR eR ->
  relay_run pol T f n (relay_start left right) s ->
  (exists sent rest, bsL = sent ++ rest /\ ep_written (r_right s) = ep_written right ++ sent /\
     (r_p1 s = Finished None -> rest = [])) /\
  (exists sent rest, bsR = sent ++ rest /\ ep_written (r_left s) = ep_written left ++ sent /\
     (r_p2 s = Finished None -> rest = [])).
Proof.
  intros Hpol Hra Hrun.
  destruct (relay_invariant pol T F kL kR left right bsL eL bsR eR f n s Hpol Hra Hrun)
    as (_ & m1 & m2 & _ & Hc1 & Hc2 & _).
  split; [exact (copying_prefix _ _ _ _ _ _ _ _ _ Hc1) | exact (copying_prefix _ _ _ _ _ _ _ _ _ Hc2)].
Qed.

(** C13. Relaying is transparent in both directions at once. In every state any interleaving of the two
    goroutines can reach, each connection has received a prefix of the other's stream, in order, and
    nothing else, and all of it once its goroutine has ended without an error. *)
Theorem relay_in_order pol T F kL kR (left : L) (right : R) bsL eL bsR eR f n s :
  copies pol -> relayable F kL kR f left right bsL eL bsR eR ->
  relay_run pol T f n (relay_start left right) s ->
  (exists sent rest, bsL = sent ++ rest /\ ep_written (r_right s) = ep_written right ++ sent /\
     (r_p1 s = Finished None -> rest = [])) /\
  (exists sent rest, bsR = sent ++ rest /\ ep_written (r_left s) = ep_written left ++ sent /\
     (r_p2 s = Finished None -> rest = [])).
Proof. apply relay_transfers. Qed.

(** C14. A relay between streams that end always ends: no interleaving is longer than the reads
    of the two streams allow, and a relay that is not done can always go on, without deadlock or panic.
    With a read timeout, once one direction is done the other can also be ended by its deadline,
    whatever its peer does. *)
Theorem relay_terminates pol T F kL kR (left : L) (right : R) bsL eL bsR eR f n s :
  copies pol -> relayable F kL kR f left right bsL eL bsR eR ->
  relay_run pol T f n (relay_start left right) s ->
  (n <= 2 * kL + 2 * kR)%nat /\
  (finished (r_p1 s) && finished (r_p2 s) = false -> exists s', relay_step pol T f s s') /\
  (0 < T -> finished (r_p1 s) = true -> r_p2 s = Reading ->
     relay_step pol T f s (move2 T (Finished (Some ErrDeadlineExceeded)) s)) /\
  (0 < T -> finished (r_p2 s) = true -> r_p1 s = Reading ->
     relay_step pol T f s (move1 T (Finished (Some ErrDeadlineExceeded)) s)).
Proof.
  intros Hpol Hra Hrun. pose proof (copies_ok pol Hpol) as Hok.
  destruct (relay_invariant pol T F kL kR left right bsL eL bsR eR f n s Hpol Hra Hrun)
    as (Hn & m1 & m2 & _ & Hc1 & Hc2 & Hd1 & Hd2).
  split; [exact Hn|]. split; [|split; intros HT Hfin Hp; constructor; auto].
  intros Hfin. apply (copying_goes_on pol F _ _ _ _ _ _ _ f Hok) in Hc1; [|apply Hra..].
  apply (copying_goes_on pol F _ _ _ _ _ _ _ f Hok) in Hc2; [|apply Hra..].
  destruct (r_p1 s) as [|c1 e1|e1] eqn:E1; cbn in Hfin.
  - destruct Hc1 as (b & b' & m & er & src' & Hb & Hr). eexists. by eapply read_left.
  - destruct Hc1 as (m & ew & dst' & Hw). eexists. by eapply write_right.
  - destruct (r_p2 s) as [|c2 e2|e2] eqn:E2; [| |done].
    + destruct Hc2 as (b & b' & m & er & src' & Hb & Hr). eexists. by eapply read_right.
    + destruct Hc2 as (m & ew & dst' & Hw). eexists. by eapply write_left.
Qed.

(** C15. What [relay] reports. It returns nil only when each direction passed on its whole stream or was
    ended by the deadline; otherwise it returns the error of left to right, unless that is nil
    or the deadline, and then the error of right to left. It never returns the deadline
    it set itself. *)
Theorem relay_reports pol T F kL kR (left : L) (right : R) bsL eL bsR eR f n s err1 err :
  server_copies pol -> relayable F kL kR f left right bsL eL bsR eR ->
  relay_run pol T f n (relay_start left right) s ->
  r_p1 s = Finished err1 -> r_p2 s = Finished err ->
  match relay_result err1 err with
  | None =>
      (err1 = Some ErrDeadlineExceeded \/ ep_written (r_right s) = ep_written right ++ bsL) /\
      (err = Some ErrDeadlineExceeded \/ ep_written (r_left s) = ep_written left ++ bsR)
  | Some e => e <> ErrDeadlineExceeded /\
      (err1 = Some e \/ ((err1 = None \/ err1 = Some ErrDeadlineExceeded) /\ err = Some e))
  end.
Proof.
  intros Hpol Hra Hrun E1 E2.
  destruct (relay_invariant pol T F kL kR left right bsL eL bsR eR f n s (or_introl Hpol)
    Hra Hrun) as (_ & m1 & m2 & _ & Hc1 & Hc2 & _).
  apply copying_prefix in Hc1 as (d1 & r1 & Hbs1 & Hout1 & Hall1).
  apply copying_prefix in Hc2 as (d2 & r2 & Hbs2 & Hout2 & Hall2).
  rewrite E1 in Hall1. rewrite E2 in Hall2. unfold relay_result, is_deadline.
  assert (err1 = None -> ep_written (r_right s) = ep_written right ++ bsL) as Hfull1
    by (intros ->; rewrite Hbs1, (Hall1 eq_refl), app_nil_r; exact Hout1).
  assert (err = None -> ep_written (r_left s) = ep_written left ++ bsR) as Hfull2
    by (intros ->; rewrite Hbs2, (Hall2 eq_refl), app_nil_r; exact Hout2).
  destruct err1 as [e1|]; [destruct (decide (e1 = ErrDeadlineExceeded)) as [->|B1]|];
    (destruct err as [e2|]; [destruct (decide (e2 = ErrDeadlineExceeded)) as [->|B2]|]);
    rewrite ?(bool_decide_eq_true_2 (ErrDeadlineExceeded = _)) by done;
    rewrite ?bool_decide_eq_false_2 by done; cbn [negb]; auto 10.
Qed.

End RelayProperties.

(** ** Witnesses *)

Definition talker (said : list bytes) : conn :=
  {| conn_in := said; conn_fin := EOF; conn_out := []; conn_room := None |}.

Definition client_end : conn := talker [str "ping"].
Definition target_end : conn := talker [str "po"; str "ng"].

Lemma client_end_delivers : delivers 0 (conn_steps client_end) client_end (str "ping") EOF.
Proof. exact (conn_delivers client_end). Qed.

Lemma target_end_delivers : delivers 0 (conn_steps target_end) target_end (str "pong") EOF.
Proof. exact (conn_delivers target_end). Qed.

(** A scheduler: the turns say which goroutine moves next. *)
Definition relay_next {L R} `{Reader L, Writer L, Reader R, Writer R} (pol : policy) (T : Z) (f : nat)
    (first : bool) (s : relay_state L R) : option (relay_state L R) :=
  let b := zeros (buf_size pol) in
  if first then
    match r_p1 s with
    | Reading => match read b f (r_left s) with
                 | Ret (p', n, er) l => Some (move1 T (on_read pol (take (Z.to_nat n) p') er) (set_left l s))
                 | Halt _ _ => None
                 end
    | Writing chunk er => match write chunk f (r_right s) with
                          | Ret (n, ew) r => Some (move1 T (on_write pol chunk er n ew) (set_right r s))
                          | Halt _ _ => None
                          end
    | Finished _ => None
    end
  else
    match r_p2 s with
    | Reading => match read b f (r_right s) with
                 | Ret (p', n, er) r => Some (move2 T (on_read pol (take (Z.to_nat n) p') er) (set_right r s))
                 | Halt _ _ => None
                 end
    | Writing chunk er => match write chunk f (r_left s) with
                          | Ret (n, ew) l => Some (move2 T (on_write pol chunk er n ew) (set_left l s))
                          | Halt _ _ => None
                          end
    | Finished _ => None
    end.

Lemma relay_next_step {L R} `{Endpoint L} `{Endpoint R} pol T f first (s s' : relay_state L R) :
  policy_ok pol -> relay_next pol T f first s = Some s' -> relay_step pol T f s s'.
Proof.
  intros [Hsize _ _]. assert (len (zeros (buf_size pol)) = buf_size pol) as Hl by (apply len_zeros; lia).
  unfold relay_next. destruct first.
  - destruct (r_p1 s) as [|chunk er|] eqn:E; [| |done].
    + destruct (read _ f (r_left s)) as [[[p' n] er] l|] eqn:Er; [|done]. intros [= <-].
      by eapply read_left.
    + destruct (write chunk f (r_right s)) as [[n ew] r|] eqn:Ew; [|done]. intros [= <-].
      by eapply write_right.
  - destruct (r_p2 s) as [|chunk er|] eqn:E; [| |done].
    + destruct (read _ f (r_right s)) as [[[p' n] er] r|] eqn:Er; [|done]. intros [= <-].
      by eapply read_right.
    + destruct (write chunk f (r_left s)) as [[n ew] l|] eqn:Ew; [|done]. intros [= <-].
      by eapply write_left.
Qed.

Definition relay_exec {L R} `{Reader L, Writer L, Reader R, Writer R} (pol : policy) (T : Z) (f : nat)
    (turns : list bool) (s : relay_state L R) : option (relay_state L R) :=
  fold_left (fun os b => match os with Some s => relay_next pol T f b s | None => None end) turns (Some s).

Lemma relay_exec_run {L R} `{Endpoint L} `{Endpoint R} pol T f turns (s s' : relay_state L R) :
  policy_ok pol -> relay_exec pol T f turns s = Some s' -> relay_run pol T f (length turns) s s'.
Proof.
  intros Hok. revert s'. induction turns as [|b turns IH] using rev_ind; intros s'.
  { intros [= <-]. constructor. }
  unfold relay_exec. rewrite fold_left_app, length_app, Nat.add_comm. cbn [fold_left List.length Nat.add].
  fold (relay_exec pol T f turns s). destruct (relay_exec pol T f turns s) as [s1|]; [|done].
  intros Hn. eapply run_step; [by apply IH | by eapply relay_next_step].
Qed.

Definition example_turns : list bool := [true; false; false; true; false; true; false; false].

Definition example_end : relay_state conn conn :=
  match relay_exec stream_copy 60 9 example_turns (relay_start client_end target_end) with
  | Some s => s
  | None => relay_start client_end target_end
  end.

Lemma example_run : relay_run stream_copy 60 9 8 (relay_start client_end target_end) example_end.
Proof.
  apply (relay_exec_run stream_copy 60 9 example_turns); [apply stream_copy_ok|]. vm_compute. reflexivity.
Qed.

Lemma example_relayable :
  relayable 0 (conn_steps client_end) (conn_steps target_end) 9 client_end target_end
    (str "ping") EOF (str "pong") EOF.
Proof.
  constructor; [exact client_end_delivers | exact target_end_delivers | exact I.. |].
  cbn. lia.
Qed.

Lemma relay_in_order_witness :
  (exists sent rest, str "ping" = sent ++ rest /\
     written (r_right example_end) = written target_end ++ sent /\
     (r_p1 example_end = Finished None -> rest = [])) /\
  (exists sent rest, str "pong" = sent ++ rest /\
     written (r_left example_end) = written client_end ++ sent /\
     (r_p2 example_end = Finished None -> rest = [])).
Proof.
  exact (relay_in_order stream_copy 60 0 (conn_steps client_end) (conn_steps target_end) client_end target_end
    (str "ping") EOF (str "pong") EOF 9 8 example_end (or_introl (or_intror eq_refl)) example_relayable example_run).
Defined.

Lemma relay_terminates_witness :
  (8 <= 2 * conn_steps client_end + 2 * conn_steps target_end)%nat /\
  (finished (r_p1 example_end) && finished (r_p2 example_end) = false ->
     exists s', relay_step stream_copy 60 9 example_end s') /\
  (0 < 60 -> finished (r_p1 example_end) = true -> r_p2 example_end = Reading ->
     relay_step stream_copy 60 9 example_end
       (move2 60 (Finished (Some ErrDeadlineExceeded)) example_end)) /\
  (0 < 60 -> finished (r_p2 example_end) = true -> r_p1 example_end = Reading ->
     relay_step stream_copy 60 9 example_end
       (move1 60 (Finished (Some ErrDeadlineExceeded)) example_end)).
Proof.
  exact (relay_terminates stream_copy 60 0 (conn_steps client_end) (conn_steps target_end) client_end
    target_end (str "ping") EOF (str "pong") EOF 9 8 example_end (or_introl (or_intror eq_refl))
    example_relayable example_run).
Defined.

Lemma relay_reports_witness :
  r_p1 example_end = Finished None /\ r_p2 example_end = Finished None /\
  match relay_result None None with
  | None =>
      (@None error = Some ErrDeadlineExceeded \/
         written (r_right example_end) = written target_end ++ str "ping") /\
      (@None error = Some ErrDeadlineExceeded \/
         written (r_left example_end) = written client_end ++ str "pong")
  | Some e => e <> ErrDeadlineExceeded /\
      (None = Some e \/ ((@None error = None \/ @None error = Some ErrDeadlineExceeded) /\ None = Some e))
  end.
Proof.
  assert (r_p1 example_end = Finished None) as E1 by (vm_compute; reflexivity).
  assert (r_p2 example_end = Finished None) as E2 by (vm_compute; reflexivity).
  split; [exact E1|]. split; [exact E2|].
  exact (relay_reports stream_copy 60 0 (conn_steps client_end) (conn_steps target_end) client_end target_end
    (str "ping") EOF (str "pong") EOF 9 8 example_end None None (or_intror eq_refl) example_relayable example_run E1 E2).
Defined.
