(* ===== verification/Tunnel.v ===== *)
(** The encrypted connection as one end of a relay.

    [plaintext] is what a session's records hold, for any bytes at all on the wire. A [tunnel_end]
    is the connection of [ShadowStream] with an account of what was written through it; it is an
    [Endpoint], so that the theorems on the relay hold of it. *)

From Stdlib Require Import ZArith Lia.
From stdpp Require Import base decidable list numbers.
From S2P Require Import Prelude GoIO Endpoint SaltFilter ShadowCipher ShadowStream ShadowRecord ShadowConn.

(** ** The plaintext of a wire *)

(** The payloads of the records on the wire up to the first that does not open, and the error there;
    [k] bounds the number of records. *)
Fixpoint plaintext_go (a : AEAD) (k : nat) (nonce wire : bytes) (e : error) : bytes * error :=
  match k with
  | O => ([], e)
  | S k' =>
      match decode_record a nonce wire e with
      | (inr er, _, _) => ([], er)
      | (inl pt, nonce', rest) =>
          let '(bs, er) := plaintext_go a k' nonce' rest e in (pt ++ bs, er)
      end
  end.

Definition plaintext (a : AEAD) (nonce wire : bytes) (e : error) : bytes * error :=
  plaintext_go a (S (length wire)) nonce wire e.

(** A record takes more of the wire than its payload. *)
Lemma decode_record_shrinks a nonce wire e pt nonce' rest :
  AEADLaws a -> decode_record a nonce wire e = (inl pt, nonce', rest) ->
  (length rest + length pt + 2 <= length wire)%nat.
Proof.
  intros Ha. pose proof (overhead_nonneg (a := a)) as Hov. unfold decode_record.
  destruct (decide _) as [Hh|]; [|done]. destruct (Open a nonce _ []) as [hdr|]; [|done].
  set (body := drop _ wire). destruct (decide _) as [Hm|]; [|done].
  destruct (Open a (increment nonce) _ []) as [pt'|] eqn:Ho; [|done]. intros [= <- _ <-].
  apply open_len in Ho. subst body. rewrite !length_drop in *. rewrite length_take, length_drop in Ho. lia.
Qed.

Lemma plaintext_go_enough a k k' nonce wire e :
  AEADLaws a -> (length wire < k)%nat -> (length wire < k')%nat ->
  plaintext_go a k nonce wire e = plaintext_go a k' nonce wire e.
Proof.
  intros Ha. revert k' nonce wire. induction k as [|k IH]; intros [|k'] nonce wire Hk Hk'; [lia..|].
  cbn [plaintext_go]. destruct (decode_record a nonce wire e) as [[[pt|er] nonce'] rest] eqn:E; [|done].
  apply decode_record_shrinks in E; [|done]. by rewrite (IH k') by lia.
Qed.

Lemma plaintext_step a nonce wire e : AEADLaws a ->
  plaintext a nonce wire e =
    match decode_record a nonce wire e with
    | (inr er, _, _) => ([], er)
    | (inl pt, nonce', rest) => let '(bs, er) := plaintext a nonce' rest e in (pt ++ bs, er)
    end.
Proof.
  intros Ha. unfold plaintext at 1. cbn [plaintext_go].
  destruct (decode_record a nonce wire e) as [[[pt|er] nonce'] rest] eqn:E; [|done].
  apply decode_record_shrinks in E; [|done]. unfold plaintext.
  by rewrite (plaintext_go_enough a _ (S (length rest))) by (done || lia).
Qed.

(** Whole records give their payloads, and what follows them. *)
Lemma plaintext_encode a nonce chunks tail e : AEADLaws a -> Forall chunk_ok chunks ->
  plaintext a nonce (encode a nonce chunks ++ tail) e =
    let '(bs, er) := plaintext a (nonce_after chunks nonce) tail e in (concat chunks ++ bs, er).
Proof.
  intros Ha Hok. revert nonce. induction Hok as [|c cs Hc Hcs IH]; intros nonce.
  { change (nonce_after [] nonce) with nonce. cbn [encode concat app]. by destruct (plaintext a nonce tail e). }
  rewrite plaintext_step, nonce_after_cons by done. cbn [encode concat].
  rewrite <- app_assoc, decode_frame by done. rewrite IH.
  destruct (plaintext a _ tail e) as [bs er]. by rewrite app_assoc.
Qed.

Lemma plaintext_records a nonce chunks e : AEADLaws a -> Forall chunk_ok chunks ->
  plaintext a nonce (encode a nonce chunks) e = (concat chunks, e).
Proof.
  intros Ha Hok. pose proof (plaintext_encode a nonce chunks [] e Ha Hok) as Hp.
  rewrite app_nil_r in Hp. rewrite Hp, plaintext_step, decode_end by done. by rewrite app_nil_r.
Qed.

(** The wire starts with sealed headers and payloads under successive nonces; [cs] are the payloads. *)
Inductive sealed_records (a : AEAD) : bytes -> bytes -> list bytes -> Prop :=
| sealed_none n wire : sealed_records a n wire []
| sealed_more n hdr c wire cs :
    sealed_records a (next_nonce n) wire cs ->
    sealed_records a n (Seal a n hdr [] ++ Seal a (increment n) c [] ++ wire) (c :: cs).

(** What opens was sealed under the very nonce it is opened with. *)
Lemma decode_record_sealed a nonce wire e pt nonce' rest : AEADLaws a -> AEADTight a ->
  decode_record a nonce wire e = (inl pt, nonce', rest) ->
  nonce' = next_nonce nonce /\
  exists hdr, len hdr = 2 /\ len pt = be16_size hdr /\
    wire = Seal a nonce hdr [] ++ Seal a (increment nonce) pt [] ++ rest.
Proof.
  intros Ha Ht. pose proof (overhead_nonneg (a := a)) as Hov. unfold decode_record. destruct (decide _) as [Hh|]; [|done].
  set (h := Z.to_nat (2 + Overhead a)) in *.
  destruct (Open a nonce _ []) as [hdr|] eqn:Ho1; [|done].
  set (j := Z.to_nat (be16_size hdr + Overhead a)).
  destruct (decide _) as [Hb|]; [|done].
  destruct (Open a (increment nonce) _ []) as [pt'|] eqn:Ho2; [|done]. intros [= <- <- <-].
  pose proof (open_len _ _ _ _ Ho1) as Hl1. pose proof (open_len _ _ _ _ Ho2) as Hl2.
  rewrite length_take in Hl1, Hl2. pose proof (land_mask (be16_val hdr)) as Hland. fold (be16_size hdr) in Hland.
  apply open_tight in Ho1, Ho2. split; [done|]. exists hdr. split; [lia|]. split; [lia|].
  by rewrite <- Ho1, <- Ho2, !take_drop.
Qed.

Lemma plaintext_sealed a nonce wire e : AEADLaws a -> AEADTight a ->
  exists cs, sealed_records a nonce wire cs /\ fst (plaintext a nonce wire e) = concat cs.
Proof.
  intros Ha Ht. remember (length wire) as m eqn:Hm. revert nonce wire Hm.
  induction m as [m IH] using lt_wf_ind. intros nonce wire ->. rewrite plaintext_step by done.
  destruct (decode_record a nonce wire e) as [[[pt|er] nonce'] rest] eqn:E.
  2:{ exists []. split; [constructor | done]. }
  pose proof (decode_record_shrinks _ _ _ _ _ _ _ Ha E) as Hshrink.
  destruct (decode_record_sealed _ _ _ _ _ _ _ Ha Ht E) as (-> & hdr & _ & _ & ->).
  destruct (IH (length rest) ltac:(lia) (next_nonce nonce) _ eq_refl) as (cs & Hcs & Hpl).
  exists (pt :: cs). split; [by constructor|].
  destruct (plaintext a (next_nonce nonce) _ e) as [bs er]. cbn in *. by rewrite Hpl.
Qed.

(** ** What the methods leave alone *)

Lemma lift_keeps {S A} (P : S -> Prop) (o : outcome unit A) : keeps P (lift o).
Proof. intros f s a s' _ HP. unfold lift. destruct o; [by intros [= _ <-] | done]. Qed.

Lemma aead_Seal_keeps {S} (P : S -> Prop) a n p ad : keeps P (aead_Seal a n p ad).
Proof. unfold aead_Seal. keeping. Qed.

Lemma aead_Open_keeps {S} (P : S -> Prop) a d n c ad : keeps P (aead_Open a d n c ad).
Proof. unfold aead_Open. keeping. Qed.

#[local] Hint Resolve lift_keeps aead_Seal_keeps aead_Open_keeps : keeps.

(** The record writer and reader touch their connection through its [Write] and its [Read] only. *)
Section Records.
Context {W : Type} (P : W -> Prop).

Lemma swriter_ReadFrom_keeps {R} `{Writer W, Reader R} :
  (forall p, keeps P (write p)) -> keeps (fun s : wstate W R => P (ws_Writer s)) swriter_ReadFrom.
Proof.
  intros Hw. unfold swriter_ReadFrom, swriter_ReadFrom_body, write_record, seal_in_place. keeping.
  - apply (keeps_zoom _ _ (fun _ => True)); [done | done | by intros ?].
  - apply (keeps_zoom _ _ P); [done | done | apply Hw].
Qed.

Lemma swriter_Write_keeps `{Writer W} b :
  (forall p, keeps P (write p)) -> keeps (fun '(_, out) => P out) (swriter_Write b).
Proof.
  intros Hw f [w out] r [w' out'] _ HP. unfold swriter_Write.
  destruct (swriter_ReadFrom f _) as [[n err] s|h s] eqn:E; [|done]. intros [= <- <- <-].
  eapply (swriter_ReadFrom_keeps (R := buffer) Hw); [apply Nat.le_0_l | | exact E]. exact HP.
Qed.

Lemma sreader_Read_keeps `{Reader W} b :
  (forall p, keeps P (read p)) -> keeps (fun '(_, src) => P src) (sreader_Read b).
Proof.
  intros Hr.
  assert (forall n, keeps (fun '(_, src) => P src) (fill_buf (R := W) n)) as Hfill.
  { intros n. unfold fill_buf, the_r, on_r. keeping.
    - apply (keeps_zoom _ _ P); [by intros [? ?] | by intros ? [? ?] | apply ReadFull_keeps; intros q _; apply Hr].
    - apply keeps_modify. by intros [? ?]. }
  assert (forall g, keeps (fun '(_, src) => P src) (on_r (R := W) g)) as Hon
    by (intros g; apply keeps_modify; by intros [? ?]).
  unfold sreader_Read, sreader_read, open_in_place, the_r. keeping; apply Hon.
Qed.

End Records.

Section Tunnel.
Context {C : Type} `{Duplex C}.
Context {G : Type} `{Reader G}.
Context {B : Type} `{BloomLaws B}.
Variable Getenv : bytes -> bytes.
Variable ParseFloat : bytes -> option float64.
Abbreviation worldT := (world C G B).
Abbreviation inner s := (Conn (conn_of (C := C) (G := G) (B := B) s)).

(** A method of either half leaves true what only depends on the connection through [R]. *)
Lemma on_reader_keeps {A} (P : worldT -> Prop) (R : C -> Prop) (m : M (sreader * C) A) :
  (forall s, P s -> R (inner s)) ->
  (forall s r c, P s -> R c -> P (set_r (Some r) (set_Conn c s))) ->
  keeps (fun '(_, c) => R c) m -> keeps P (on_reader m).
Proof.
  intros HR HP Hm f s a s' _ Hs. unfold on_reader. destruct (sc_r (conn_of s)) as [r|]; [|done].
  destruct (m f (r, inner s)) as [b [r' c']|h [r' c']] eqn:E; [|done]. intros [= <- <-].
  apply HP; [exact Hs|]. exact (Hm f (r, inner s) b (r', c') (Nat.le_0_l f) (HR s Hs) E).
Qed.

Lemma on_writer_keeps {A} (P : worldT -> Prop) (R : C -> Prop) (m : M (swriter * C) A) :
  (forall s, P s -> R (inner s)) ->
  (forall s w c, P s -> R c -> P (set_w (Some w) (set_Conn c s))) ->
  keeps (fun '(_, c) => R c) m -> keeps P (on_writer m).
Proof.
  intros HR HP Hm f s a s' _ Hs. unfold on_writer. destruct (sc_w (conn_of s)) as [w|]; [|done].
  destruct (m f (w, inner s)) as [b [w' c']|h [w' c']] eqn:E; [|done]. intros [= <- <-].
  apply HP; [exact Hs|]. exact (Hm f (w, inner s) b (w', c') (Nat.le_0_l f) (HR s Hs) E).
Qed.

(** Too few bytes for a salt. *)
Lemma initReader_short F k (s : worldT) wire e f (Q : option error -> worldT -> Prop) :
  delivers F k (inner s) wire e -> len wire < SaltSize (ciph (conn_of s)) -> (F <= f)%nat -> (k < f)%nat ->
  (forall c, exhausted F c e -> Q (Some (short_error wire e)) (set_Conn c s)) ->
  wp (initReader Getenv ParseFloat) f s Q.
Proof.
  intros Hd Hl HF Hk HQ. unfold initReader, on_Conn. do 4 wp_step. do 2 wp_step.
  assert (len (zeros (SaltSize (ciph (conn_of s)))) = SaltSize (ciph (conn_of s))) as Hz
    by (rewrite len_zeros; lia).
  eapply wp_mono; [eapply ReadFull_delivers; eassumption|].
  intros [[buf n] err] c [_ Hres]. rewrite decide_False in Hres by lia.
  destruct Hres as (_ & -> & _ & Hex). wp_step. by apply HQ.
Qed.

(** ** Reading leaves the writing half alone *)

Definition same_written (c0 c : C) : Prop := written c = written c0 /\ (sink_ok c0 -> sink_ok c).

Lemma read_same_written c0 p : keeps (same_written c0) (read p).
Proof.
  intros f c1 a c2 _ [Hw Hok] Hr. destruct (read_keeps_written p f c1 a c2 Hr) as [Hw' Hok'].
  split; [congruence | auto].
Qed.

Record read_from (s0 s : worldT) : Prop := {
  rf_writer : sc_w (conn_of s) = sc_w (conn_of s0);
  rf_ciph : ciph (conn_of s) = ciph (conn_of s0);
  rf_rand : rand s = rand s0;
  rf_inner : same_written (inner s0) (inner s)
}.

Lemma streamConn_Read_keeps s0 p : keeps (read_from s0) (streamConn_Read Getenv ParseFloat p).
Proof.
  assert (keeps (read_from s0) (initReader Getenv ParseFloat)) as Hinit.
  { unfold initReader, on_Conn, on_salts. keeping.
    - apply (keeps_zoom _ _ (same_written (inner s0))); [by intros ? [] | by intros ? ? [] ? |].
      apply ReadFull_keeps. intros q _. apply read_same_written.
    - apply (keeps_zoom _ _ (fun _ => True)); [done | by intros ? ? [] _ | by intros ?].
    - apply keeps_modify. by intros ? []. }
  assert (keeps (read_from s0) (on_reader (sreader_Read (R := C) p))) as Hreader.
  { apply (on_reader_keeps _ (same_written (inner s0))); [by intros ? [] | by intros ? ? ? [] ? |].
    apply sreader_Read_keeps, read_same_written. }
  unfold streamConn_Read. keeping.
Qed.

Lemma streamConn_Read_salts (s : worldT) r p f a s' :
  sc_r (conn_of s) = Some r -> streamConn_Read Getenv ParseFloat p f s = Ret a s' ->
  salts s' = salts s /\ sc_r (conn_of s') <> None.
Proof.
  intros Hr. unfold streamConn_Read, bind, get, ret. rewrite Hr. unfold on_reader. rewrite Hr.
  destruct (sreader_Read p f (r, inner s)) as [b [r' c']|h [r' c']]; [|done]. by intros [= <- <-].
Qed.

(** ** Writing leaves the reading half alone *)

(** Once one half is set up, what is read does not depend on the salts the other half adds. *)
Record write_from (P : C -> Prop) (s0 s : worldT) : Prop := {
  wf_reader : sc_r (conn_of s) = sc_r (conn_of s0);
  wf_ciph : ciph (conn_of s) = ciph (conn_of s0);
  wf_writer : sc_w (conn_of s0) <> None -> sc_w (conn_of s) <> None /\ salts s = salts s0;
  wf_inner : P (inner s)
}.

Lemma streamConn_Write_keeps (P : C -> Prop) s0 p : (forall q, keeps P (write q)) ->
  keeps (write_from P s0) (streamConn_Write Getenv ParseFloat p).
Proof.
  intros Hw.
  assert (keeps (write_from P s0) (on_writer (swriter_Write p))) as Hwriter.
  { apply (on_writer_keeps _ P); [by intros ? [] | | by apply swriter_Write_keeps].
    intros s w c [? ? Hws ?] Hc. constructor; cbn; try done. intros Hs0. split; [done | by apply Hws]. }
  intros f s a s' Hf Hfr. unfold streamConn_Write, bind, get.
  destruct (sc_w (conn_of s)) as [w|] eqn:Ew; [by apply Hwriter|].
  destruct (initWriter Getenv ParseFloat f s) as [err s1|] eqn:Ei; [|done].
  assert (write_from P s0 s1) as Hfr1.
  { destruct Hfr as [Hr Hk Hws Hin]. assert (sc_w (conn_of s0) = None) as Hs0
      by (destruct (sc_w (conn_of s0)); [by destruct Hws|done]).
    assert (keeps (fun s : worldT => sc_r (conn_of s) = sc_r (conn_of s0) /\ ciph (conn_of s) = ciph (conn_of s0) /\
      P (inner s)) (initWriter Getenv ParseFloat)) as Hinit.
    { unfold initWriter, on_Conn, on_salts. keeping.
      - by apply (keeps_zoom _ _ (fun _ => True)).
      - apply (keeps_zoom _ _ P); [by intros ? (? & ? & ?) | by intros ? ? (? & ? & ?) ? | apply Hw].
      - by apply (keeps_zoom _ _ (fun _ => True)). }
    destruct (Hinit f s err s1 Hf) as (? & ? & ?); [done | exact Ei |]. by constructor. }
  destruct err as [e|]; [by intros [= _ <-]|]. by apply Hwriter.
Qed.

End Tunnel.

(** ** One read of a record stream *)

(** What the reader has left over, and then the plaintext of the wire. *)
Definition reader_offers (r : sreader) (wire : bytes) (e : error) : bytes * error :=
  let '(bs, er) := plaintext (r_AEAD r) (r_nonce r) wire e in (leftover_bytes r ++ bs, er).

(** Every read of a reader makes this smaller, until there is an error. *)
Definition reader_measure (r : sreader) (wire : bytes) : nat :=
  (length (leftover_bytes r) + 2 * length wire)%nat.

Lemma sreader_step {C} `{Reader C} Fi ki wire e0 p f r (c : C) bs e :
  sreader_wf r -> delivers Fi ki c wire e0 -> (Fi <= f)%nat -> (ki < f)%nat -> p <> [] ->
  reader_offers r wire e0 = (bs, e) ->
  wp (sreader_Read p) f (r, c) (fair_read bs e p (fun rest '(r', c') =>
    sreader_wf r' /\ exists wire', delivers Fi ki c' wire' e0 /\ reader_offers r' wire' e0 = (rest, e) /\
      (reader_measure r' wire' < reader_measure r wire)%nat)).
Proof.
  intros Hwf Hd HF Hk Hp Hbs. unfold reader_offers in Hbs.
  assert (0 < length p)%nat as Hp0 by (destruct p; [done | cbn; lia]).
  destruct (decide (leftover_bytes r = [])) as [Hlo|Hlo].
  - pose proof (rw_laws _ Hwf) as Hlaws. rewrite Hlo, plaintext_step in Hbs by done. cbn [app] in Hbs.
    eapply (Read_record Fi ki wire e0); [done | done | exact Hd | done | done | |].
    + intros pt nonce rest r' c' Hdec Hwf' Ha' Hn' Hd' n Hlo'.
      pose proof (decode_record_shrinks _ _ _ _ _ _ _ Hlaws Hdec) as Hshrink. rewrite Hdec in Hbs.
      destruct (plaintext (r_AEAD r) nonce rest e0) as [l er] eqn:Epl. injection Hbs as <- <-.
      pose proof (filled_spec p pt) as (Hf1 & Hf2 & Hf3 & Hf4). subst n. cbv zeta in Hlo'.
      set (n := Z.to_nat (len p `min` len pt)) in *.
      exists (take n pt), (drop n pt ++ l). rewrite Hf2. split; [by rewrite app_assoc, take_drop|].
      split; [lia|]. split; [exact Hf3|]. split; [exact Hf4|]. split; [exact Hwf'|].
      exists rest. split; [exact Hd'|]. unfold reader_offers, reader_measure.
      rewrite Ha', Hn', Epl, Hlo', Hlo. split; [done|]. rewrite length_drop. cbn. lia.
    + intros er nonce rest r' c' Hdec _ _ _ _ _. rewrite Hdec in Hbs. injection Hbs as <- <-.
      exists [], []. repeat split; try done. cbn. lia.
  - apply Read_leftover; [done..|]. set (lo := leftover_bytes r) in *. intros r' Hwf' Ha' Hn' Hlo'.
    destruct (plaintext (r_AEAD r) (r_nonce r) wire e0) as [l er] eqn:Epl. injection Hbs as <- <-.
    pose proof (filled_spec p lo) as (Hf1 & Hf2 & Hf3 & Hf4).
    set (n := Z.to_nat (len p `min` len lo)) in *.
    assert (0 < length lo)%nat as Hpos by (destruct lo; [done | cbn; lia]).
    exists (take n lo), (drop n lo ++ l). rewrite Hf2. split; [by rewrite app_assoc, take_drop|].
    split; [lia|]. split; [exact Hf3|]. split; [exact Hf4|]. split; [exact Hwf'|].
    exists wire. split; [exact Hd|]. unfold reader_offers, reader_measure. fold lo.
    rewrite Ha', Hn', Epl, Hlo'. split; [done|]. rewrite length_drop. lia.
Qed.

(** ** The end of a tunnel *)

(** What a connection depends on: the two calls of the salt filter, the salt that the random source gives
    it and what the cipher makes of that, and the fuel and the number of reads that takes. *)
Record environment := {
  env_Getenv : bytes -> bytes;
  env_ParseFloat : bytes -> option float64;
  env_salt : bytes;
  env_AEAD : AEAD;
  env_fuel : nat;
  env_reads : nat
}.

(** A connection, what had been accepted below it when it was set up, what was written through it
    since, and the first error of a write. *)
Record tunnel_end (env : environment) (C G B : Type) := TunnelEnd {
  te_world : world C G B;
  te_base : bytes;
  te_plain : bytes;
  te_err : option error
}.
Arguments TunnelEnd {env C G B} _ _ _ _.
Arguments te_world {env C G B} _.
Arguments te_base {env C G B} _.
Arguments te_plain {env C G B} _.
Arguments te_err {env C G B} _.

Section TunnelEnd.
Context {C : Type} `{Duplex C}.
Context {G : Type} `{Reader G}.
Context {B : Type} `{BloomLaws B}.
Context {env : environment}.

Abbreviation tend := (tunnel_end env C G B).
Abbreviation worldT := (world C G B).
Abbreviation inner s := (Conn (conn_of (C := C) (G := G) (B := B) s)).
Abbreviation Read_ := (streamConn_Read (env_Getenv env) (env_ParseFloat env)).
Abbreviation Write_ := (streamConn_Write (env_Getenv env) (env_ParseFloat env)).

Definition te_set_world (w : worldT) (t : tend) : tend := TunnelEnd w (te_base t) (te_plain t) (te_err t).

#[global] Instance tunnel_Reader : Reader tend := fun p => zoom te_world te_set_world (Read_ p).

(** A write, with the fuel that the length of its data calls for. *)
#[global] Instance tunnel_Writer : Writer tend := fun p f t =>
  match Write_ p (f + length p + 2)%nat (te_world t) with
  | Ret (n, err) w =>
      Ret (n, err) (TunnelEnd w (te_base t) (te_plain t ++ take (Z.to_nat n) p)
                      (match te_err t with None => err | Some _ => te_err t end))
  | Halt h w => Halt h (te_set_world w t)
  end.

(** What a connection that has not read yet makes of the bytes [wire] below it: too few for a salt, a
    salt that is known, or a session. *)
Definition opens (s : worldT) (wire : bytes) (e0 : error) (bs : bytes) (e : error) : Prop :=
  (sc_r (conn_of s) = None /\ len wire < SaltSize (ciph (conn_of s)) /\ bs = [] /\ e = short_error wire e0) \/
  (exists salt a records, awaiting s salt a /\ wire = salt ++ records /\
     (bs, e) = if known_salt salt (salts s) then ([], ErrRepeatedSalt)
               else plaintext a (zeros (NonceSize a)) records e0).

Lemma opens_ext s s' wire e0 bs e :
  sc_r (conn_of s') = sc_r (conn_of s) -> ciph (conn_of s') = ciph (conn_of s) -> salts s' = salts s ->
  opens s wire e0 bs e -> opens s' wire e0 bs e.
Proof.
  intros Hr Hk Hs [(? & ? & ? & ?) | (salt & a & records & [? ? ? ? ?] & ? & ?)]; [left | right].
  - by rewrite Hr, Hk.
  - exists salt, a, records. rewrite Hs. split; [|done]. constructor; rewrite ?Hr, ?Hs, ?Hk; done.
Qed.

Definition te_offers (F k : nat) (t : tend) (bs : bytes) (e : error) : Prop :=
  exists Fi ki wire e0, (S (Nat.max Fi ki) <= F)%nat /\ delivers Fi ki (inner (te_world t)) wire e0 /\
    match sc_r (conn_of (te_world t)) with
    | Some r => sreader_wf r /\ reader_offers r wire e0 = (bs, e) /\ (reader_measure r wire < k)%nat
    | None => opens (te_world t) wire e0 bs e /\ (2 * length wire < k)%nat
    end.

(** What was written is on the wire below, as the records of one session. *)
Definition te_sent (t : tend) : Prop :=
  match sc_w (conn_of (te_world t)) with
  | Some _ => exists cs, session (te_base t) (env_salt env) (env_AEAD env) cs (te_world t) /\ concat cs = te_plain t
  | None => te_plain t = [] /\ written (inner (te_world t)) = te_base t /\
      opening (env_fuel env) (env_reads env) (te_world t) (env_salt env) (env_AEAD env)
  end.

Lemma te_offers_mono F F' k t bs e : (F <= F')%nat -> te_offers F k t bs e -> te_offers F' k t bs e.
Proof. intros HF (Fi & ki & wire & e0 & ? & Hrest). exists Fi, ki, wire, e0. split; [lia | exact Hrest]. Qed.

Definition te_live (t : tend) : Prop :=
  sink_ok (inner (te_world t)) /\
  (te_err t = None -> te_sent t) /\
  (sc_w (conn_of (te_world t)) = None -> sc_r (conn_of (te_world t)) <> None).

Lemma te_read F k t bs e p f : te_offers F k t bs e -> p <> [] -> (F <= f)%nat ->
  wp (read p) f t (fair_read bs e p (fun rest t' => exists k', (k' < k)%nat /\ te_offers F k' t' rest e)).
Proof.
  intros (Fi & ki & wire & e0 & HF & Hd & Hr) Hp Hf. unfold read, tunnel_Reader. apply wp_zoom.
  assert (forall r s c wire', sreader_wf r -> delivers Fi ki c wire' e0 ->
    reader_offers r wire' e0 = (bs, e) -> (reader_measure r wire' < k)%nat ->
    wp (sreader_Read p) f (r, c) (fun a '(r', c') =>
      fair_read bs e p (fun rest t' => exists k', (k' < k)%nat /\ te_offers F k' t' rest e) a
        (te_set_world (set_r (Some r') (set_Conn c' s)) t))) as Hstep.
  { intros r s c wire' Hwf Hd' Hbs Hm.
    eapply wp_mono; [eapply (sreader_step Fi ki wire' e0); [exact Hwf | exact Hd' | lia | lia | exact Hp | exact Hbs]|].
    intros [[p' n] er] [r' c'] (chunk & rest & ? & ? & ? & ? & Her). exists chunk, rest.
    do 4 (split; [done|]). destruct er as [e'|]; [done|].
    destruct Her as (Hwf' & wire2 & Hd2 & Hbs2 & Hm2). exists (k - 1)%nat. split; [lia|].
    exists Fi, ki, wire2, e0. split; [exact HF|]. split; [exact Hd2|]. cbn. split; [exact Hwf'|].
    split; [exact Hbs2 | lia]. }
  destruct (sc_r (conn_of (te_world t))) as [r|] eqn:Er.
  - destruct Hr as (Hwf & Hbs & Hm). apply (streamConn_Read_on _ _ _ r (inner (te_world t))); [done|].
    by apply (Hstep r (te_world t) _ wire).
  - destruct Hr as [[(_ & Hl & -> & ->) | (salt & a & records & Haw & -> & Hbs)] Hm].
    + unfold streamConn_Read. do 2 wp_step. rewrite Er. wp_step.
      apply (initReader_short _ _ Fi ki _ wire e0); [exact Hd | exact Hl | lia | lia |].
      intros c _. wp_step. exists [], []. repeat split; try done. cbn. lia.
    + eapply (streamConn_Read_first _ _ Fi ki); [exact Haw | exact Hd | lia | lia |].
      intros c Hd'. destruct (known_salt salt (salts (te_world t))).
      { injection Hbs as -> ->. exists [], []. repeat split; try done. cbn. lia. }
      apply (Hstep (newReader a) (te_world t) c records).
      * apply newReader_wf, (aw_laws _ _ _ Haw).
      * exact Hd'.
      * unfold reader_offers. cbn [newReader r_AEAD r_nonce]. rewrite <- Hbs. done.
      * unfold reader_measure. change (leftover_bytes (newReader a)) with (@nil byte).
        rewrite length_app in Hm. cbn [length]. lia.
Qed.

(** What a write counts, whether it fails or not. *)
Definition counted (b : bytes) (res : Z * option error) (s' : worldT) : Prop :=
  let '(n, err) := res in
  0 <= n <= len b /\ (n < len b -> err <> None) /\ sink_ok (inner s').

Lemma swriter_counted w (s : worldT) b f :
  sc_w (conn_of s) = Some w -> swriter_wf w -> sink_ok (inner s) -> (sink_fuel C <= f)%nat ->
  (length b + 1 < f)%nat -> len b < 2 ^ 63 ->
  wp (on_writer (swriter_Write b)) f s (fun res s' => counted b res s' /\ sc_w (conn_of s') <> None).
Proof.
  intros Hw Hwf Hok Hfuel Hf Hb. eapply wp_on_writer; [exact Hw|].
  eapply wp_mono; [by apply swriter_Write_run|].
  intros [n err] [w' c'] [(cs & _ & -> & _ & _ & _ & Hres) [Hok' _]]. split; [|done].
  assert (len (concat cs) <= len b) as Hl.
  { destruct Hres as [(-> & _) | (_ & Hpre & _)]; [lia|]. apply prefix_length in Hpre. lia. }
  rewrite i64_small by (unfold in_i64; lia). split; [lia|]. split; [|exact Hok'].
  intros Hlt. by destruct Hres as [(Hc & _) | (Herr & _)]; [rewrite Hc in Hlt; lia|].
Qed.

Lemma fresh_counted salt a (s : worldT) b f :
  opening (env_fuel env) (env_reads env) s salt a -> (sink_fuel C <= f)%nat -> (env_fuel env <= f)%nat ->
  (env_reads env < f)%nat -> (length b + 1 < f)%nat -> len b < 2 ^ 63 ->
  wp (Write_ b) f s (counted b).
Proof.
  intros Hop Hfuel HF Hk Hf Hb. unfold streamConn_Write. do 2 wp_step. rewrite (op_fresh _ _ _ _ _ Hop). wp_step.
  eapply initWriter_run; [exact Hop | done | done | done | |].
  - intros g c m e _ Hok _. wp_step. split; [lia|]. split; [done | exact Hok].
  - intros g c _ Hok _. lazy beta iota.
    eapply wp_mono; [apply (swriter_counted (newWriter a)); [done | | exact Hok | done..]|].
    + apply newWriter_wf, (op_laws _ _ _ _ _ Hop).
    + by intros res s' [Hc _].
Qed.

Definition te_fuel : nat := Nat.max (sink_fuel C) (Nat.max (env_fuel env) (S (env_reads env))).

(** The error of a write is remembered. *)
Lemma te_write p f t : te_live t -> te_err t = None -> (te_fuel <= f)%nat -> len p < 2 ^ 63 ->
  wp (write p) f t (fun '(n, er) t' =>
    0 <= n <= len p /\ te_plain t' = te_plain t ++ take (Z.to_nat n) p /\
    (n < len p -> er <> None) /\ te_live t' /\ (er = None -> te_err t' = None)).
Proof.
  intros (Hok & Hsent & Hhalf) Herr Hf Hp. unfold te_fuel in Hf. specialize (Hsent Herr).
  set (f' := (f + length p + 2)%nat).
  assert (forall (P : Z * option error -> worldT -> Prop), wp (Write_ p) f' (te_world t) P ->
    (forall n er s', P (n, er) s' -> counted p (n, er) s' /\
       (er = None -> exists cs, session (te_base t) (env_salt env) (env_AEAD env) cs s' /\ concat cs = te_plain t ++ p) /\
       (sc_w (conn_of s') = None -> sc_r (conn_of s') <> None)) ->
    wp (write p) f t (fun '(n, er) t' =>
      0 <= n <= len p /\ te_plain t' = te_plain t ++ take (Z.to_nat n) p /\
      (n < len p -> er <> None) /\ te_live t' /\ (er = None -> te_err t' = None))) as Hlift.
  { intros P HP Himp. unfold wp, write, tunnel_Writer in *. fold f'.
    destruct (Write_ p f' (te_world t)) as [[n er] s'|h s']; [|done].
    destruct (Himp n er s' HP) as [(Hn & Hshort & Hok') [Hses Hhalf']]. cbn. rewrite Herr.
    split; [exact Hn|]. split; [done|]. split; [exact Hshort|]. split; [|done].
    split; [exact Hok'|]. split; [|exact Hhalf']. intros Her. cbn in Her.
    destruct (Hses Her) as (cs & Hs' & Hcs). unfold te_sent. cbn.
    pose proof Hs' as (w & Hw & _). rewrite Hw. exists cs. split; [exact Hs'|]. rewrite Hcs.
    destruct (decide (n < len p)) as [Hlt|]; [by destruct (Hshort Hlt)|]. by rewrite take_ge by lia. }
  unfold te_sent in Hsent. destruct (sc_w (conn_of (te_world t))) as [w|] eqn:Ew.
  - destruct Hsent as (cs & Hs & Hcs).
    eapply Hlift; [apply wp_and; [apply (Write_session _ _ (te_base t) (env_salt env) (env_AEAD env) cs); [exact Hs | lia | lia]|]|].
    + unfold streamConn_Write. do 2 wp_step. rewrite Ew. do 2 wp_step.
      destruct Hs as (w0 & Hw0 & Hwf & _). rewrite Ew in Hw0. injection Hw0 as <-.
      apply (swriter_counted w); [exact Ew | exact Hwf | exact Hok | lia | lia | exact Hp].
    + intros n er s' [[_ Hres] [Hc Hw']]. split; [exact Hc|]. split; [|done].
      intros Her. destruct (Hres Her) as (_ & cs' & Hcs' & Hs'). exists cs'. by rewrite Hcs', Hcs.
  - destruct Hsent as (Hpl & Hbase & Hop).
    eapply Hlift; [apply wp_and; [apply (wp_keeps (write_from (fun _ => True) (te_world t)))|]|].
    + apply streamConn_Write_keeps. by intros q f1 c r c' _ _ _.
    + by constructor.
    + apply (Write_fresh _ _ (env_fuel env) (env_reads env) _ (env_salt env) (env_AEAD env)); [exact Hop | lia..].
    + apply (fresh_counted (env_salt env) (env_AEAD env)); [exact Hop | lia..| exact Hp].
    + intros n er s' [[[_ Hres] [Hr _ _ _]] Hc]. split; [exact Hc|]. split.
      * intros Her. destruct (Hres Her) as (_ & _ & cs & Hcs & Hs'). exists cs.
        rewrite Hpl, Hcs, <- Hbase. done.
      * intros _. rewrite Hr. by apply Hhalf.
Qed.

Lemma te_write_keeps p f t a t' : write p f t = Ret a t' -> te_live t -> forall F k bs e,
  te_offers F k t bs e -> te_offers F k t' bs e.
Proof.
  unfold write, tunnel_Writer. intros Hw (_ & _ & Hhalf) F k bs e (Fi & ki & wire & e0 & HF & Hd & Hr).
  destruct (Write_ p _ (te_world t)) as [[n er] s'|h s'] eqn:E; [|done]. injection Hw as _ <-.
  assert (write_from (fun c => delivers Fi ki c wire e0) (te_world t) s') as [Hr' Hk' Hws Hd'].
  { eapply streamConn_Write_keeps; [|apply Nat.le_0_l | | exact E]; [|by constructor].
    intros q. apply write_keeps_stream. }
  exists Fi, ki, wire, e0. split; [exact HF|]. split; [exact Hd'|]. cbn. rewrite Hr'.
  destruct (sc_r (conn_of (te_world t))) as [r|] eqn:Er; [done|].
  destruct Hr as [Hop Hk]. split; [|exact Hk].
  destruct Hws as [_ Hsalts]; [intros Hn; by apply Hhalf in Hn|].
  by apply (opens_ext (te_world t)); [congruence | ..].
Qed.

Lemma te_read_keeps p f t a t' : read p f t = Ret a t' -> te_live t ->
  te_plain t' = te_plain t /\ te_err t' = te_err t /\ te_live t'.
Proof.
  unfold read, tunnel_Reader, zoom. destruct (Read_ p f (te_world t)) as [b s'|] eqn:E; [|done].
  intros [= <- <-] (Hok & Hsent & Hhalf). split; [done|]. split; [done|].
  assert (read_from (te_world t) s') as [Hw Hk Hg [Hwr Hok']].
  { eapply streamConn_Read_keeps; [apply Nat.le_0_l | | exact E]. by constructor. }
  split; [by apply Hok'|]. cbn [te_err te_set_world te_world].
  assert (sc_w (conn_of s') = None -> salts s' = salts (te_world t) /\ sc_r (conn_of s') <> None) as Hsalts.
  { rewrite Hw. intros Hn. specialize (Hhalf Hn).
    destruct (sc_r (conn_of (te_world t))) as [r|] eqn:Er; [|done]. by eapply streamConn_Read_salts. }
  split; [|intros Hn; by apply Hsalts].
  intros He. specialize (Hsent He). unfold te_sent in *. cbn [te_set_world te_world te_plain te_base].
  rewrite Hw in *. destruct (sc_w (conn_of (te_world t))) as [w|] eqn:Ew.
  - destruct Hsent as (cs & (w0 & Hw0 & ? & ? & ? & ? & _ & Hout) & Hcs).
    exists cs. split; [|exact Hcs]. exists w0. rewrite Hw, Hwr. do 5 (split; [congruence || assumption|]).
    split; [by apply Hok' | exact Hout].
  - destruct Hsent as (Hpl & Hbase & [? ? ? ? ? ? ?]). split; [exact Hpl|].
    split; [congruence|]. destruct (Hsalts eq_refl) as [Hs _].
    constructor; rewrite ?Hw, ?Hs, ?Hk, ?Hg; auto.
Qed.

(** Between two calls the connection below may tick, and the salt may go out: [streamConn.ReadFrom] sends it
    before it reads from its source, even from one that has nothing to give. *)
Definition te_tick (f : nat) (t t' : tend) : Prop :=
  (exists c', tick f (inner (te_world t)) c' /\ t' = te_set_world (set_Conn c' (te_world t)) t) \/
  (sc_w (conn_of (te_world t)) = None /\ te_err t = None /\
   exists s', initWriter (env_Getenv env) (env_ParseFloat env) f (te_world t) = Ret None s' /\ t' = te_set_world s' t).

Lemma te_inner_tick_keeps f t c' : tick f (inner (te_world t)) c' -> (te_fuel <= f)%nat -> te_live t ->
  let t' := te_set_world (set_Conn c' (te_world t)) t in
  te_live t' /\ (forall F k bs e, te_offers F k t bs e -> te_offers F k t' bs e).
Proof.
  unfold te_fuel. intros Ht Hf (Hok & Hsent & Hhalf).
  destruct (tick_keeps f _ c' Ht ltac:(lia) Hok) as (Hw & Hok' & Hkeep). split.
  - split; [exact Hok'|]. split; [|exact Hhalf]. intros He. specialize (Hsent He).
    unfold te_sent in *. cbn. destruct (sc_w (conn_of (te_world t))) as [w|] eqn:Ew.
    + destruct Hsent as (cs & (w0 & Hw0 & ? & ? & ? & ? & _ & Hout) & Hcs).
      exists cs. split; [|exact Hcs]. exists w0. cbn. rewrite Hw. auto 10.
    + destruct Hsent as (Hpl & Hbase & [? ? ? ? ? ? ?]). split; [exact Hpl|].
      split; [congruence|]. by constructor.
  - intros F k bs e (Fi & ki & wire & e0 & HF & Hd & Hr). exists Fi, ki, wire, e0.
    split; [exact HF|]. split; [by apply Hkeep|]. cbn.
    destruct (sc_r (conn_of (te_world t))) as [r|] eqn:Er; [done|]. destruct Hr as [Hop Hk]. split; [|exact Hk].
    by apply (opens_ext (te_world t)).
Qed.

(** The salt on its way is a session without a record yet. *)
Lemma te_salt_sent f t s' :
  sc_w (conn_of (te_world t)) = None -> te_err t = None ->
  initWriter (env_Getenv env) (env_ParseFloat env) f (te_world t) = Ret None s' -> (te_fuel <= f)%nat -> te_live t ->
  sc_r (conn_of s') = sc_r (conn_of (te_world t)) /\ te_live (te_set_world s' t) /\
  (forall Fi ki wire e0, delivers Fi ki (inner (te_world t)) wire e0 -> delivers Fi ki (inner s') wire e0).
Proof.
  unfold te_fuel. intros Hfresh He Hi Hf (Hok & Hsent & Hhalf). specialize (Hsent He). specialize (Hhalf Hfresh).
  unfold te_sent in Hsent. rewrite Hfresh in Hsent. destruct Hsent as (Hpl & Hbase & Hop).
  pose proof (op_laws _ _ _ _ _ Hop) as Hlaws.
  assert (wp (initWriter (env_Getenv env) (env_ParseFloat env)) f (te_world t) (fun err s1 => err = None ->
    sc_r (conn_of s1) = sc_r (conn_of (te_world t)) /\ sink_ok (inner s1) /\
    session (te_base t) (env_salt env) (env_AEAD env) [] s1)) as Hrun.
  { eapply initWriter_run; [exact Hop | lia | lia | lia | done |]. intros g c Hout Hsk Hrel _. split; [done|].
    split; [exact Hsk|]. exists (newWriter (env_AEAD env)). split; [done|]. split; [by apply newWriter_wf|].
    do 4 (split; [done|]). cbn. by rewrite app_nil_r, Hout, <- Hbase. }
  unfold wp in Hrun. rewrite Hi in Hrun. destruct (Hrun eq_refl) as (Hr & Hsk & Hses). split; [exact Hr|]. split.
  - split; [exact Hsk|]. pose proof Hses as (w & Hw & _).
    split; [|intros Hn; cbn in Hn; congruence]. intros _. unfold te_sent. cbn. rewrite Hw. exists []. by rewrite Hpl.
  - intros Fi ki wire e0 Hd.
    assert (keeps (fun s : worldT => delivers Fi ki (inner s) wire e0)
      (initWriter (env_Getenv env) (env_ParseFloat env))) as Hkeep.
    { unfold initWriter, on_Conn, on_salts. keeping.
      - by apply (keeps_zoom _ _ (fun _ => True)).
      - apply (keeps_zoom _ _ (fun c => delivers Fi ki c wire e0)); [done | done |]. apply write_keeps_stream.
      - by apply (keeps_zoom _ _ (fun _ => True)). }
    by eapply Hkeep; [apply Nat.le_0_l | exact Hd | exact Hi].
Qed.

Lemma te_tick_keeps f t t' : te_tick f t t' -> (te_fuel <= f)%nat -> te_live t ->
  te_plain t' = te_plain t /\ te_live t' /\ te_err t' = te_err t /\
  (forall F k bs e, te_offers F k t bs e -> te_offers F k t' bs e).
Proof.
  intros [(c' & Ht & ->) | (Hfresh & He & s' & Hi & ->)] Hf Hl.
  - destruct (te_inner_tick_keeps f t c' Ht Hf Hl). auto.
  - destruct (te_salt_sent f t s' Hfresh He Hi Hf Hl) as (Hr & Hl' & Hkeep).
    split; [done|]. split; [exact Hl'|]. split; [done|].
    intros F k bs e (Fi & ki & wire & e0 & HF & Hd & Hrest). exists Fi, ki, wire, e0.
    split; [exact HF|]. split; [by apply Hkeep|]. cbn. rewrite Hr.
    destruct Hl as (_ & _ & Hhalf). by destruct (sc_r (conn_of (te_world t))); [|destruct Hhalf].
Qed.

(** An encrypted connection is an end of a relay. *)
#[global] Program Instance tunnel_Endpoint : Endpoint tend := {|
  ep_written := te_plain; ep_live := te_live; ep_writable := fun t => te_err t = None;
  ep_fuel := te_fuel; ep_tick := te_tick; offers := te_offers
|}.
Next Obligation. intros F k t bs e p f Ho Hp Hf. exact (te_read F k t bs e p f Ho Hp Hf). Qed.
Next Obligation.
  intros F k t bs e (Fi & ki & wire & e0 & _ & _ & Hr).
  destruct (sc_r (conn_of (te_world t))); [destruct Hr as (_ & _ & ?) | destruct Hr as [_ ?]]; lia.
Qed.
Next Obligation.
  intros p f t a t' Hr Hl. destruct (te_read_keeps p f t a t' Hr Hl) as (? & He & ?).
  split; [done|]. split; [done|]. by rewrite He.
Qed.
Next Obligation. intros p f t Hl He Hf Hp. by apply te_write. Qed.
Next Obligation. intros F k bs e p f t a t' Hw Hl Ho. by eapply te_write_keeps. Qed.
Next Obligation.
  intros f t t' Ht Hf Hl. destruct (te_tick_keeps f t t' Ht Hf Hl) as (? & ? & He & ?).
  split; [done|]. split; [done|]. split; [by rewrite He | done].
Qed.

(** What is on the wire once something was written and no write failed. *)
Lemma te_wire t : te_live t -> te_err t = None -> te_plain t <> [] ->
  exists cs, Forall chunk_ok cs /\ concat cs = te_plain t /\
    written (inner (te_world t)) =
      te_base t ++ env_salt env ++ encode (env_AEAD env) (zeros (NonceSize (env_AEAD env))) cs.
Proof.
  intros (_ & Hsent & _) He Hne. specialize (Hsent He). unfold te_sent in Hsent.
  destruct (sc_w (conn_of (te_world t))); [|by destruct Hsent].
  destruct Hsent as (cs & (w & _ & _ & _ & _ & Hok & _ & Hout) & Hcs). by exists cs.
Qed.

(** ** A session whose first bytes are read before the relay *)

Lemma sreader_Read_stream Fi ki wire e0 p r (c : C) f :
  sreader_wf r -> delivers Fi ki c wire e0 -> (Fi <= f)%nat -> (ki < f)%nat ->
  wp (sreader_Read p) f (r, c) (fun _ '(r', c') => sreader_wf r' /\ exists wire', delivers Fi ki c' wire' e0).
Proof.
  intros Hwf Hd HF Hk. destruct (decide (leftover_bytes r = [])) as [Hlo|Hlo].
  - eapply (Read_record Fi ki wire e0); [done | done | exact Hd | done | done | |]; eauto.
  - apply Read_leftover; [done..|]. eauto.
Qed.

(** [s] is [s0], whose wire starts a new session, or what reads made of it. *)
Definition reading_session (Fi ki : nat) (e0 : error) (s0 s : worldT) : Prop :=
  s = s0 \/
  (salts s = salts s0 /\ read_from s0 s /\ exists r wire, sc_r (conn_of s) = Some r /\
     sreader_wf r /\ delivers Fi ki (inner s) wire e0).

Lemma reading_session_keeps Fi ki e0 s0 salt a records p :
  awaiting s0 salt a -> known_salt salt (salts s0) = false ->
  delivers Fi ki (inner s0) (salt ++ records) e0 ->
  keeps_from (S (Nat.max Fi ki)) (reading_session Fi ki e0 s0) (Read_ p).
Proof.
  intros Haw Hnew Hd f s x s' HF Hs E.
  assert (wp (Read_ p) f s (fun _ s' => salts s' = salts s0 /\ exists r wire, sc_r (conn_of s') = Some r /\
    sreader_wf r /\ delivers Fi ki (inner s') wire e0)) as Hwp.
  { destruct Hs as [-> | (Hsalts & _ & r & wire & Hr & Hwf & Hw)].
    - eapply (streamConn_Read_first _ _ Fi ki); [exact Haw | exact Hd | lia | lia |].
      intros c Hc. rewrite Hnew.
      eapply wp_mono; [apply (sreader_Read_stream Fi ki records e0); [|exact Hc | lia | lia]|].
      + apply newReader_wf, (aw_laws _ _ _ Haw).
      + intros _ [r' c'] [? [? ?]]. cbn. eauto 10.
    - apply (streamConn_Read_on _ _ s r (inner s)); [done|].
      eapply wp_mono; [apply (sreader_Read_stream Fi ki wire e0); [exact Hwf | exact Hw | lia | lia]|].
      intros _ [r' c'] [? [? ?]]. cbn. eauto 10. }
  unfold wp in Hwp. rewrite E in Hwp. destruct Hwp as (Hsalts & Hr). right. split; [exact Hsalts|].
  split; [|exact Hr]. eapply streamConn_Read_keeps; [apply Nat.le_0_l | | exact E].
  destruct Hs as [-> | (_ & ? & _)]; [by constructor | done].
Qed.

End TunnelEnd.
