(* ===== verification/CopyLoop.v ===== *)
(** The copy loops of the code as runs of the relay.

    [Relay] has one loop of reads and writes, with a policy for each kind of copy. Here two loops as
    they are written are shown to be that loop: [WriteTo] of an encrypted connection (m_shadow,
    stream.go), the shortcut [io.Copy] takes for the policy [stream_copy], and the loops of
    [request.Relay] (m_socks, handler.go) for [handler_copy]. *)

From Stdlib Require Import ZArith Lia.
From stdpp Require Import base decidable list numbers strings.
From S2P Require Import Prelude GoIO Endpoint SaltFilter ShadowCipher ShadowStream ShadowRecord ShadowConn Relay Tunnel.

(** ** [read] and [Read] *)

Section ReadRead.
Context {C : Type} `{Reader C}.

Lemma sreader_read_bound f (s s' : sreader * C) n er :
  sreader_read f s = Ret (n, er) s' -> 0 <= n <= payloadSizeMask.
Proof.
  unfold sreader_read, bind, ret. destruct (the_r f s) as [r s1|]; [|done].
  destruct (fill_buf _ f s1) as [[e|] s2|]; [by intros [= <- _ _]| |done].
  destruct (open_in_place _ f s2) as [[e|] s3|]; [by intros [= <- _ _]| |done].
  destruct (the_r f s3) as [r' s4|]; [|done].
  destruct (index 0 _ f s4) as [b0 s5|]; [|done]. destruct (index 1 _ f s5) as [b1 s6|]; [|done].
  destruct (fill_buf _ f s6) as [[e|] s7|]; [by intros [= <- _ _]| |done].
  destruct (open_in_place _ f s7) as [[e|] s8|]; [by intros [= <- _ _]| |done].
  intros [= <- _ _]. apply land_mask.
Qed.

(** [read] does not touch what is left over. *)
Lemma sreader_read_leftover l : keeps (fun s : sreader * C => r_leftover s.1 = l) sreader_read.
Proof.
  assert (forall n, keeps (fun s : sreader * C => r_leftover s.1 = l) (fill_buf n)) as Hfill.
  { intros n. unfold fill_buf, the_r, on_r. keeping.
    - by apply (keeps_zoom _ _ (fun _ => True)); [| intros ? [? ?] | intros ?].
    - by apply keeps_modify; intros [? ?]. }
  assert (forall n, keeps (fun s : sreader * C => r_leftover s.1 = l) (open_in_place n)) as Hopen.
  { intros n. unfold open_in_place, the_r, on_r. keeping; [apply aead_Open_keeps|].
    apply keeps_modify. by intros [? ?]. }
  unfold sreader_read, the_r. keeping.
Qed.

(** With nothing left over, a [Read] with room for a record is a [read], whose bytes it copies out. *)
Lemma Read_is_read p f (r : sreader) (c : C) x s' :
  (r_leftover r).2 - (r_leftover r).1 <= 0 -> payloadSizeMask <= len p ->
  sreader_Read p f (r, c) = Ret x s' ->
  exists n er, sreader_read f (r, c) = Ret (n, er) s' /\ 0 <= n <= len (r_buf s'.1) /\
    exists p', x = (p', n, er) /\ take (Z.to_nat n) p' = sub 0 n (r_buf s'.1).
Proof.
  intros Hlo Hp. unfold sreader_Read, bind, the_r, gets. cbn [fst].
  destruct (r_leftover r) as [lo hi]. cbn in Hlo. destruct (hi - lo >? 0) eqn:E; [lia|].
  destruct (sreader_read f (r, c)) as [[n er] s1|] eqn:Er; [|done].
  pose proof (sreader_read_bound f (r, c) s1 n er Er) as Hn.
  unfold slice. destruct (_ && _) eqn:Eb; [|done]. apply andb_prop in Eb as [_ Eb]. apply Z.leb_le in Eb.
  pose proof (len_sub 0 n (r_buf s1.1) ltac:(lia) Eb) as Hl.
  cbn [ret]. rewrite copy_fits, Hl, Z.sub_0_r, Z.ltb_irrefl by lia. unfold when, ret.
  intros [= <- <-]. exists n, er. split; [done|]. split; [lia|]. eexists. split; [done|].
  rewrite <- (sub_0_take n). apply sub_0_blit; lia.
Qed.

(** With something left over, that is what a [Read] with room for it gives. *)
Lemma Read_is_leftover p f (r : sreader) (c : C) :
  sreader_wf r -> payloadSizeMask <= len p -> 0 < (r_leftover r).2 - (r_leftover r).1 ->
  exists p', sreader_Read p f (r, c) =
    Ret (p', len (leftover_bytes r), None) (r_set_leftover ((r_leftover r).2, (r_leftover r).2) r, c) /\
    take (length (leftover_bytes r)) p' = leftover_bytes r.
Proof.
  intros Hwf Hp Hlo. pose proof (leftover_len r Hwf) as Hl. pose proof (rw_leftover _ Hwf) as Hr.
  unfold sreader_Read, bind, the_r, gets, on_r, modify. cbn [fst].
  destruct (r_leftover r) as [lo hi]. cbn [fst snd] in *. destruct (hi - lo >? 0) eqn:E; [|lia].
  rewrite copy_fits by lia. cbn [ret]. replace (lo + len (leftover_bytes r)) with hi by lia.
  eexists. split; [done|]. pose proof (sub_0_blit (leftover_bytes r) p (len (leftover_bytes r)) eq_refl) as Hs.
  rewrite sub_0_take, Nat2Z.id in Hs. apply Hs. lia.
Qed.

End ReadRead.

(** ** [WriteTo] as a run of the relay *)

Section Shortcut.
Context {C : Type} `{Duplex C}.
Context {G : Type} `{Reader G}.
Context {B : Type} `{BloomLaws B}.
Context {env : environment}.
Context {D : Type} `{Endpoint D}.

Abbreviation tend := (tunnel_end env C G B).
Abbreviation worldT := (world C G B).
Abbreviation inner s := (Conn (conn_of (C := C) (G := G) (B := B) s)).

(** The relay starts with the connection [t] and the other end [w0]; [s1] is the connection when its reader
    has been set up. *)
Variables (t : tend) (w0 : D) (s1 : worldT).
Variables (T : Z) (f : nat).

(** [t] with this reader and this connection below. *)
Definition te_at (r : sreader) (c : C) : tend := te_set_world (set_r (Some r) (set_Conn c s1)) t.

(** The direction out of the connection has got to [p], with [w] at the other end, and nothing else has
    moved. *)
Definition reached (p : pump) (w : D) (left : tend -> Prop) : Prop :=
  exists steps st, relay_run stream_copy T f steps (relay_start t w0) st /\
    r_p1 st = p /\ r_p2 st = Reading /\ r_right st = w /\ left (r_left st).

(** A read of [l] is a [Read] of this reader. *)
Definition reads_as (r : sreader) (c : C) (l : tend) : Prop := forall p x r' c',
  sreader_Read p f (r, c) = Ret x (r', c') -> read p f l = Ret x (te_at r' c').

Lemma te_at_reads r c : reads_as r c (te_at r c).
Proof.
  intros p x r' c' Hr. unfold read, tunnel_Reader, zoom, te_at, streamConn_Read, bind, get.
  cbn -[sreader_Read]. unfold on_reader. cbn -[sreader_Read]. by rewrite Hr.
Qed.

Lemma reached_read r c w q q' n er r' c' :
  reached Reading w (reads_as r c) -> len q = payloadSizeMask ->
  sreader_Read q f (r, c) = Ret (q', n, er) (r', c') ->
  reached (on_read stream_copy (take (Z.to_nat n) q') er) w (eq (te_at r' c')).
Proof.
  intros (steps & st & Hrun & Hp1 & Hp2 & Hw & Hl) Hq Hr.
  eexists _, _. split; [eapply run_step; [exact Hrun | eapply read_left; [exact Hp1 | exact Hq | by apply Hl]]|].
  done.
Qed.

Lemma reached_write w chunk er l n ew w' :
  reached (Writing chunk er) w l -> write chunk f w = Ret (n, ew) w' ->
  reached (on_write stream_copy chunk er n ew) w' l.
Proof.
  intros (steps & st & Hrun & Hp1 & Hp2 & <- & Hl) Hw.
  eexists _, _. split; [eapply run_step; [exact Hrun | eapply write_right; [exact Hp1 | exact Hw]]|].
  done.
Qed.

Lemma reached_mono p w (l l' : tend -> Prop) : reached p w l -> (forall x, l x -> l' x) -> reached p w l'.
Proof. intros (steps & st & ? & ? & ? & ? & ?) Hl. exists steps, st. auto 10. Qed.

Variables (Fi ki : nat) (e0 e : error).

(** The loops have come this far: the run is the same, and the reader has more to give. *)
Record going (k : nat) (s : (sreader * C) * D) : Prop := {
  go_reader : sreader_wf s.1.1;
  go_wire : exists wire rest, delivers Fi ki s.1.2 wire e0 /\ reader_offers s.1.1 wire e0 = (rest, e) /\
    (reader_measure s.1.1 wire <= k)%nat;
  go_live : ep_live s.2;
  go_writable : ep_writable s.2;
  go_run : reached Reading s.2 (reads_as s.1.1 s.1.2)
}.

(** The loop has ended, and so has the direction of the relay. *)
Definition ended (err : option error) (s : (sreader * C) * D) : Prop :=
  reached (Finished err) s.2 (fun l => inner (te_world l) = s.1.2).

Hypothesis fuel_source : (Fi <= f)%nat.
Hypothesis fuel_reads : (ki < f)%nat.
Hypothesis fuel_sink : (ep_fuel D <= f)%nat.

(** A read of the relay, with the reader that comes out of it. *)
Lemma going_read k r c w : going k ((r, c), w) ->
  exists q q' n er r' c', sreader_Read q f (r, c) = Ret (q', n, er) (r', c') /\ len q = payloadSizeMask /\
    0 <= n <= payloadSizeMask /\
    reached (on_read stream_copy (take (Z.to_nat n) q') er) w (eq (te_at r' c')) /\
    (er = None -> sreader_wf r' /\ exists wire rest, delivers Fi ki c' wire e0 /\
       reader_offers r' wire e0 = (rest, e) /\ (reader_measure r' wire < k)%nat).
Proof.
  intros [Hwf (wire & rest & Hd & Ho & Hm) Hl Hw Hrun]. cbn [fst snd] in *.
  assert (len (zeros payloadSizeMask) = payloadSizeMask) as Hq by (by apply len_zeros).
  set (q := zeros payloadSizeMask) in *. clearbody q.
  assert (q <> []) as Hne by (intros ->; done).
  pose proof (sreader_step Fi ki wire e0 q f r c rest e Hwf Hd fuel_source fuel_reads Hne Ho) as Hwp.
  apply wp_ex in Hwp as ([[q' n] er] & [r' c'] & Hr & chunk & more & -> & -> & Hlc & _ & Her).
  exists q, q', (len chunk), er, r', c'. split; [exact Hr|]. split; [exact Hq|]. split; [lia|].
  split; [by eapply reached_read|]. intros ->. destruct Her as (Hwf' & wire' & ? & ? & ?).
  split; [exact Hwf'|]. exists wire', more. repeat split; try done. lia.
Qed.

Lemma going_leftover k r c w :
  going k ((r, c), w) -> 0 < (r_leftover r).2 - (r_leftover r).1 ->
  let r' := r_set_leftover ((r_leftover r).2, (r_leftover r).2) r in
  reached (Writing (leftover_bytes r) None) w (eq (te_at r' c)) /\ sreader_wf r' /\
  exists wire rest, delivers Fi ki c wire e0 /\ reader_offers r' wire e0 = (rest, e) /\
    (reader_measure r' wire < k)%nat.
Proof.
  intros Hg Hlo r'. pose proof (go_reader _ _ Hg) as Hwf. cbn [fst] in Hwf.
  destruct (going_read k r c w Hg) as (q & q' & n & er & r1 & c1 & Hr & Hq & _ & Hrun & Hmore).
  destruct (Read_is_leftover q f r c Hwf ltac:(lia) Hlo) as (p' & Hr' & Htake). rewrite Hr' in Hr.
  injection Hr as <- <- <- <- <-. rewrite Nat2Z.id, Htake in Hrun. split; [|by apply Hmore].
  pose proof (leftover_len r Hwf) as Hl. cbn [on_read stream_copy] in Hrun.
  by rewrite (proj2 (Z.ltb_lt 0 _)) in Hrun by lia.
Qed.

Lemma going_record k r c w :
  going k ((r, c), w) -> (r_leftover r).2 - (r_leftover r).1 <= 0 ->
  exists n er r' c', sreader_read f (r, c) = Ret (n, er) (r', c') /\ 0 <= n <= payloadSizeMask /\ n <= len (r_buf r') /\
    reached (on_read stream_copy (sub 0 n (r_buf r')) er) w (eq (te_at r' c')) /\
    (er = None -> sreader_wf r' /\ (r_leftover r').2 - (r_leftover r').1 <= 0 /\
       exists wire rest, delivers Fi ki c' wire e0 /\
       reader_offers r' wire e0 = (rest, e) /\ (reader_measure r' wire < k)%nat).
Proof.
  intros Hg Hlo. destruct (going_read k r c w Hg) as (q & q' & n & er & r' & c' & Hr & Hq & Hn & Hrun & Hmore).
  destruct (Read_is_read q f r c (q', n, er) (r', c') Hlo ltac:(lia) Hr) as (n1 & er1 & Hread & Hn1 & p' & Hx & Htake).
  injection Hx as <- <- <-. exists n, er, r', c'. split; [exact Hread|]. split; [exact Hn|]. cbn [fst] in *.
  split; [lia|]. rewrite <- Htake. split; [exact Hrun|].
  intros Her. destruct (Hmore Her) as (Hwf' & Hrest). split; [exact Hwf'|]. split; [|exact Hrest].
  pose proof (sreader_read_leftover (r_leftover r) f (r, c) _ _ (Nat.le_0_l f) eq_refl Hread) as Hkeep.
  cbn [fst] in Hkeep. by rewrite Hkeep.
Qed.

(** After a write without an error everything was taken. *)
Lemma write_through chunk (w : D) (Q : Z * option error -> D -> Prop) :
  ep_live w -> ep_writable w -> len chunk <= payloadSizeMask ->
  (forall w', write chunk f w = Ret (len chunk, None) w' -> ep_live w' -> ep_writable w' -> Q (len chunk, None) w') ->
  (forall n x w', write chunk f w = Ret (n, Some x) w' -> 0 <= n <= len chunk -> Q (n, Some x) w') ->
  wp (write chunk) f w Q.
Proof.
  intros Hl Hw Hlen HQ1 HQ2. unfold payloadSizeMask in Hlen.
  pose proof (ep_write chunk f w Hl Hw fuel_sink ltac:(lia)) as Hwp. unfold wp in *.
  destruct (write chunk f w) as [[n [x|]] w'|]; [|..|done]; destruct Hwp as (Hn & _ & Hshort & Hl' & Hw').
  - by apply HQ2.
  - destruct (decide (n < len chunk)) as [Hlt|]; [by destruct (Hshort Hlt)|].
    assert (n = len chunk) as -> by lia. apply HQ1; auto.
Qed.

Lemma drain_run k s n :
  going k s -> (k < f)%nat ->
  wp (iter drain_leftover_body n) f s (fun '(_, err) s' =>
    match err with
    | Some x => ended (Some x) s'
    | None => going k s' /\ (r_leftover s'.1.1).2 - (r_leftover s'.1.1).1 <= 0
    end).
Proof.
  intros Hg Hk. apply (wp_iter (fun m (_ : Z) s => (m <= k)%nat /\ going m s) k); [|exact Hk | by split].
  clear s n Hg. intros m n [[r c] w] [Hm Hg]. unfold drain_leftover_body, to_reader, to_writer, the_r, on_r.
  wp_step. wp_step. wp_step. cbn [fst]. destruct (r_leftover r) as [lo hi] eqn:El. destruct (hi - lo >? 0) eqn:E.
  - destruct (going_leftover m r c w Hg) as (Hrun & Hwf' & wire & rest & Hd & Ho & Hlt); [rewrite El; cbn; lia|].
    pose proof (go_reader _ _ Hg) as Hwf. cbn [fst] in Hwf.
    pose proof (leftover_len r Hwf) as Hl. pose proof (rw_leftover _ Hwf) as Hlo. rewrite El in *. cbn [fst snd] in *.
    do 2 wp_step. cbn [snd]. apply write_through; [apply (go_live _ _ Hg) | apply (go_writable _ _ Hg) | lia |..].
    + intros w' Hw Hl' Hw'. apply (reached_write _ _ _ _ _ _ _ Hrun) in Hw.
      rewrite (proj2 (Z.leb_le 0 _)), (proj2 (Z.leb_le _ (hi - lo))) by lia. cbn [andb].
      replace (lo + len (leftover_bytes r)) with hi by lia. repeat wp_step.
      exists (m - 1)%nat. split; [lia|]. split; [lia|]. constructor; cbn [fst snd]; try done.
      * exists wire, rest. repeat split; try done. lia.
      * eapply reached_mono; [exact Hw|]. intros ? <-. apply te_at_reads.
    + intros nw x w' Hw Hn. apply (reached_write _ _ _ _ _ _ _ Hrun) in Hw.
      rewrite (proj2 (Z.leb_le 0 _)), (proj2 (Z.leb_le _ (hi - lo))) by lia. cbn [andb]. repeat wp_step.
      eapply reached_mono; [exact Hw|]. by intros ? <-.
  - wp_step. split; [|cbn [fst]; rewrite El; cbn; lia]. destruct Hg as [? (wire & rest & ? & ? & ?) ? ? ?].
    constructor; try done. exists wire, rest. repeat split; try done. lia.
Qed.

(** A turn of the second loop, from the record on. *)
Lemma end_of_copy_ends w' r' c' x :
  reached (end_of_copy (Some x)) w' (eq (te_at r' c')) ->
  ended (if bool_decide (x = EOF) then None else Some x) ((r', c'), w').
Proof.
  unfold end_of_copy. case_decide as E; [rewrite bool_decide_true by done | rewrite bool_decide_false by done];
    intros Hr; eapply reached_mono; try exact Hr; by intros ? <-.
Qed.

Lemma copy_records_run k s n :
  going k s -> (r_leftover s.1.1).2 - (r_leftover s.1.1).1 <= 0 -> (k < f)%nat ->
  wp (iter copy_records_body n) f s (fun '(_, err) s' => ended err s').
Proof.
  intros Hg Hlo Hk.
  apply (wp_iter (fun m (_ : Z) s => going m s /\ (r_leftover s.1.1).2 - (r_leftover s.1.1).1 <= 0) k);
    [|exact Hk | by split].
  clear s n Hg Hlo. intros m n [[r c] w] [Hg Hlo]. cbn [fst] in Hlo.
  destruct (going_record m r c w Hg Hlo) as (nr & er & r' & c' & Hr & Hn & Hb & Hrun & Hmore).
  unfold copy_records_body, to_reader, to_writer, the_r. do 2 wp_step. cbn [fst].
  eapply wp_eq; [exact Hr|]. lazy beta iota.
  assert (forall n' w', ep_live w' -> ep_writable w' -> reached (end_of_copy er) w' (eq (te_at r' c')) ->
    wp (match er with
        | Some x => ret (inr (n', if bool_decide (x = EOF) then None else Some x))
        | None => ret (inl n')
        end) f ((r', c'), w') (fun (r0 : Z + Z * option error) s' =>
      match r0 with
      | inl x' => exists k', (k' < m)%nat /\ going k' s' /\ (r_leftover s'.1.1).2 - (r_leftover s'.1.1).1 <= 0
      | inr a => (fun '(_, err) s' => ended err s') a s'
      end)) as Hend.
  { intros n' w' Hl' Hw' Hr'. destruct er as [x|]; wp_step; [by apply end_of_copy_ends|].
    destruct (Hmore eq_refl) as (Hwf' & Hlo' & wire & rest & ? & ? & ?).
    exists (m - 1)%nat. split; [lia|]. split; [|exact Hlo']. constructor; cbn [fst snd]; try done.
    - exists wire, rest. repeat split; try done. lia.
    - eapply reached_mono; [exact Hr'|]. intros ? <-. apply te_at_reads. }
  pose proof (len_sub 0 nr (r_buf r') ltac:(lia) Hb) as Hl. cbn [on_read stream_copy] in Hrun.
  destruct (nr >? 0) eqn:E.
  - rewrite (proj2 (Z.ltb_lt 0 _)) in Hrun by lia. repeat (wp_step; cbn [fst snd]).
    apply write_through; [apply (go_live _ _ Hg) | apply (go_writable _ _ Hg) | lia |..].
    + intros w' Hw Hl' Hw'. apply (reached_write _ _ _ _ _ _ _ Hrun) in Hw. by apply Hend.
    + intros nw x w' Hw _. apply (reached_write _ _ _ _ _ _ _ Hrun) in Hw. wp_step.
      eapply reached_mono; [exact Hw|]. by intros ? <-.
  - rewrite (proj2 (Z.ltb_ge 0 _)) in Hrun by lia. do 2 wp_step.
    apply Hend; [apply (go_live _ _ Hg) | apply (go_writable _ _ Hg) | exact Hrun].
Qed.

Lemma sreader_WriteTo_run k s :
  going k s -> (k < f)%nat -> wp sreader_WriteTo f s (fun '(_, err) s' => ended err s').
Proof.
  intros Hg Hk. unfold sreader_WriteTo. wp_step. eapply wp_mono; [by apply drain_run|].
  intros [n [x|]] s'; [intros He; by wp_step|]. intros [Hg' Hlo]. by eapply copy_records_run.
Qed.

End Shortcut.

Section WriteToProperties.
Context {C : Type} `{Duplex C}.
Context {G : Type} `{Reader G}.
Context {B : Type} `{BloomLaws B}.
Context {env : environment}.
Context {D : Type} `{Endpoint D}.

Abbreviation tend := (tunnel_end env C G B).
Abbreviation inner s := (Conn (conn_of (C := C) (G := G) (B := B) s)).
Abbreviation init := (initReader (env_Getenv env) (env_ParseFloat env)).
Abbreviation WriteTo_ := (streamConn_WriteTo (env_Getenv env) (env_ParseFloat env)).

(** The run of the relay that a [WriteTo] is, and where they differ. *)
Definition as_relayed (t : tend) (w0 : D) (T : Z) (f : nat) (missing : Prop)
    (err : option error) (s' : world C G B) (w' : D) : Prop :=
  exists steps st err', relay_run stream_copy T f steps (relay_start t w0) st /\
    r_p1 st = Finished err' /\ r_p2 st = Reading /\ r_right st = w' /\
    inner (te_world (r_left st)) = inner s' /\
    (err' = err \/ (missing /\ err = Some EOF /\ err' = None)).

Lemma WriteTo_opened (t : tend) w0 T f s1 r Fi ki e0 e k missing :
  (Fi <= f)%nat -> (ki < f)%nat -> (ep_fuel D <= f)%nat -> (k < f)%nat -> sc_r (conn_of s1) = Some r ->
  going t w0 s1 T f Fi ki e0 e k ((r, inner s1), w0) ->
  wp (fun f '(s, w) =>
      match sc_r (conn_of s) with
      | None => Halt (Panicked NilDereference) (s, w)
      | Some r =>
          match sreader_WriteTo f (r, Conn (conn_of s), w) with
          | Ret a (r', c', w') => Ret a (set_r (Some r') (set_Conn c' s), w')
          | Halt h (r', c', w') => Halt h (set_r (Some r') (set_Conn c' s), w')
          end
      end) f (s1, w0) (fun '(_, err) '(s', w') => as_relayed t w0 T f missing err s' w').
Proof.
  intros HFi Hki HD Hk Hr Hg. unfold wp. rewrite Hr.
  pose proof (sreader_WriteTo_run t w0 s1 T f Fi ki e0 e HFi Hki HD k _ Hg Hk) as Hwp.
  apply wp_ex in Hwp as ([n err] & [[r' c'] w'] & -> & steps & st & Hrun & Hp1 & Hp2 & Hw & Hi).
  exists steps, st, err. auto 10.
Qed.

(** When the reader cannot be set up, a read of the relay ends the same way. *)
Lemma WriteTo_unopened (t : tend) w0 T f x s1 (missing : Prop) :
  sc_r (conn_of (te_world t)) = None -> init f (te_world t) = Ret (Some x) s1 -> (x = EOF -> missing) ->
  as_relayed t w0 T f missing (Some x) s1 w0.
Proof.
  intros Hr Hi Hmiss. assert (len (zeros payloadSizeMask) = payloadSizeMask) as Hq by (by apply len_zeros).
  set (q := zeros payloadSizeMask) in *. clearbody q.
  assert (read q f t = Ret (q, 0, Some x) (te_set_world s1 t)) as Hread.
  { unfold read, tunnel_Reader, zoom, streamConn_Read, bind, get. rewrite Hr, Hi. done. }
  assert (reached t w0 T f (end_of_copy (Some x)) w0 (eq (te_set_world s1 t))) as Hend.
  { eexists _, _. split; [eapply run_step; [apply run_start | eapply read_left; [reflexivity | exact Hq | exact Hread]]|].
    done. }
  destruct Hend as (steps & st & Hrun & Hp1 & Hp2 & Hw & Hl). unfold end_of_copy in Hp1.
  destruct (decide (x = EOF)) as [He|_]; [exists steps, st, None | exists steps, st, (Some x)]; rewrite <- Hl.
  - subst x. auto 10.
  - auto 10.
Qed.

Lemma reads_unopened (t : tend) f s1 r c :
  sc_r (conn_of (te_world t)) = None -> init f (te_world t) = Ret None (set_r (Some r) (set_Conn c s1)) ->
  reads_as t s1 f r c t.
Proof.
  intros Hr Hi p x r' c' Hread. unfold read, tunnel_Reader, zoom, streamConn_Read, bind, get. rewrite Hr, Hi.
  unfold on_reader. cbn -[sreader_Read]. by rewrite Hread.
Qed.

Lemma reads_opened (t : tend) f r :
  sc_r (conn_of (te_world t)) = Some r -> reads_as t (te_world t) f r (inner (te_world t)) t.
Proof.
  intros Hr p x r' c' Hread. unfold read, tunnel_Reader, zoom, streamConn_Read, bind, get. rewrite Hr. cbn -[sreader_Read].
  unfold on_reader. rewrite Hr. cbn -[sreader_Read]. by rewrite Hread.
Qed.

(** C16. [WriteTo] of an encrypted connection, which [io.Copy] takes in place of its own loop, is a run of
    that loop: it returns, and one direction of the relay gets from its start, by reads into a
    buffer of 16383 bytes and writes of what was read, to the same bytes in the same writes at the
    other end, the same state of the connection below, and the same error - except that [WriteTo]
    reports an end of file in place of the salt, which the loop takes for the end of the data. *)
Theorem WriteTo_is_stream_copy F k (t : tend) bs e w0 T f :
  te_offers F k t bs e -> ep_live w0 -> ep_writable w0 ->
  (F <= f)%nat -> (k <= f)%nat -> (ep_fuel D <= f)%nat ->
  wp WriteTo_ f (te_world t, w0) (fun '(_, err) '(s', w') =>
    as_relayed t w0 T f (sc_r (conn_of (te_world t)) = None /\ bs = [] /\ e = EOF) err s' w').
Proof.
  intros (Fi & ki & wire & e0 & HF & Hd & Hr) Hl Hw HFf Hk HD. unfold streamConn_WriteTo. do 2 wp_step. cbn [fst].
  assert (forall left : tend -> Prop, left t -> reached t w0 T f Reading w0 left) as Hstart
    by (intros left Hleft; exists O, (relay_start t w0); repeat split; [apply run_start | exact Hleft]).
  destruct (sc_r (conn_of (te_world t))) as [r|] eqn:Er.
  - destruct Hr as (Hwf & Ho & Hm). do 2 wp_step.
    eapply (WriteTo_opened t w0 T f (te_world t) r Fi ki e0 e (reader_measure r wire)); [lia..|exact Er|].
    constructor; cbn [fst snd]; try done.
    + exists wire, bs. repeat split; done.
    + apply Hstart. by apply reads_opened.
  - destruct Hr as [[(_ & Hshort & -> & ->) | (salt & a & records & Haw & -> & Hbs)] Hm].
    + assert (wp init f (te_world t) (fun err _ => err = Some (short_error wire e0))) as Hwp
        by (eapply initReader_short; [exact Hd | exact Hshort | lia | lia | done]).
      apply wp_ex in Hwp as (err & s1 & Hi & ->). do 2 wp_step. eapply wp_eq; [exact Hi|]. wp_step.
      apply WriteTo_unopened; auto.
    + assert (wp init f (te_world t) (fun err s1 => exists c : C, delivers Fi ki c records e0 /\
        if known_salt salt (salts (te_world t)) then err = Some ErrRepeatedSalt
        else err = None /\ s1 = set_r (Some (newReader a)) (set_Conn c (te_world t)))) as Hwp.
      { eapply (initReader_run _ _ Fi ki); [exact Haw | exact Hd | lia | lia |].
        intros c Hc. destruct (known_salt _ _); by exists c. }
      apply wp_ex in Hwp as (err & s1 & Hi & c & Hc & Hres).
      do 2 wp_step. eapply wp_eq; [exact Hi|]. destruct (known_salt salt (salts (te_world t))).
      * subst err. wp_step. by apply WriteTo_unopened.
      * destruct Hres as [-> ->]. lazy beta iota.
        eapply (WriteTo_opened t w0 T f _ (newReader a) Fi ki e0 e (2 * length records)); [lia | lia | lia | | done |].
        { rewrite length_app in Hm. lia. }
        constructor; cbn [fst snd]; try done.
        -- apply newReader_wf, (aw_laws _ _ _ Haw).
        -- exists records, bs. split; [exact Hc|]. unfold reader_offers, reader_measure.
           change (leftover_bytes (newReader a)) with (@nil byte). cbn [newReader r_AEAD r_nonce].
           rewrite <- Hbs. done.
        -- apply Hstart. eapply reads_unopened; [exact Er | exact Hi].
Qed.

End WriteToProperties.

(** ** The loops of [request.Relay] *)

Section HandlerLoop.
Context {S D : Type} `{Endpoint S} `{Endpoint D}.

(** [request.read]: what comes with an error is dropped. *)
Definition request_read : M S (bytes * option error) :=
  let! bs := make 50 in
  let! '(bs, nr, err) := read bs in
  match err with
  | Some e => ret ([], Some e)
  | None =>
      let! got := slice 0 nr bs in
      ret (got, None)
  end.

(** The body of either loop, from [src] to [dst]. *)
Definition Relay_body (u : unit) : M (S * D) (unit + unit) :=
  let! '(bs, err) := zoom fst (fun src '(_, dst) => (src, dst)) request_read in
  match err with
  | Some _ => ret (inr tt)
  | None =>
      let! err :=
        (if 0 <? len bs then
           let! '(_, err) := zoom snd (fun dst '(src, _) => (src, dst)) (write bs) in ret err
         else ret None) in
      match err with
      | Some _ => ret (inr tt)
      | None => ret (inl tt)
      end
  end.

Definition Relay_loop : M (S * D) unit := iter Relay_body tt.

Variables (src0 : S) (dst0 : D) (T : Z) (f : nat).

(** The direction from [src0] to [dst0] has got to [p], and nothing else has moved. *)
Definition handed (p : pump) (s : S * D) : Prop :=
  exists steps st, relay_run handler_copy T f steps (relay_start src0 dst0) st /\
    r_p1 st = p /\ r_p2 st = Reading /\ r_left st = s.1 /\ r_right st = s.2.

Lemma handed_read src dst q q' n er src' :
  handed Reading (src, dst) -> len q = 50 -> read q f src = Ret (q', n, er) src' ->
  handed (on_read handler_copy (take (Z.to_nat n) q') er) (src', dst).
Proof.
  intros (steps & st & Hrun & Hp1 & Hp2 & Hs & Hd) Hq Hr. cbn [fst snd] in *. subst src dst.
  eexists _, _. split; [eapply run_step; [exact Hrun | eapply read_left; [exact Hp1 | exact Hq | exact Hr]]|].
  done.
Qed.

Lemma handed_write chunk er src dst n ew dst' :
  handed (Writing chunk er) (src, dst) -> write chunk f dst = Ret (n, ew) dst' ->
  handed (on_write handler_copy chunk er n ew) (src, dst').
Proof.
  intros (steps & st & Hrun & Hp1 & Hp2 & Hs & Hd) Hw. cbn [fst snd] in *. subst src dst.
  eexists _, _. split; [eapply run_step; [exact Hrun | eapply write_right; [exact Hp1 | exact Hw]]|].
  done.
Qed.

Lemma Relay_body_run F e k src dst u rest :
  handed Reading (src, dst) -> offers F k src rest e -> ep_live dst -> ep_writable dst ->
  (F <= f)%nat -> (ep_fuel D <= f)%nat ->
  wp (Relay_body u) f (src, dst) (fun r s' =>
    match r with
    | inl _ => exists k', (k' < k)%nat /\ handed Reading s' /\ (exists rest', offers F k' s'.1 rest' e) /\
        ep_live s'.2 /\ ep_writable s'.2
    | inr _ => exists err, handed (Finished err) s'
    end).
Proof.
  intros Hh Ho Hl Hw HF HD. unfold Relay_body, request_read. repeat (wp_step; cbn [fst]).
  assert (len (zeros 50) = 50) as Hq by (by apply len_zeros).
  pose proof (ep_read F k src rest e (zeros 50) f Ho ltac:(done) HF) as Hwp.
  apply wp_ex in Hwp as ([[q' n] er] & src' & Hr & chunk & more & -> & -> & Hlc & Htake & Her).
  eapply wp_eq; [exact Hr|]. apply (handed_read _ _ _ _ _ _ _ Hh Hq) in Hr.
  rewrite Nat2Z.id, Htake in Hr. destruct er as [x|]; [repeat wp_step; eexists; exact Hr|].
  destruct Her as (k' & Hk' & Ho'). cbn [on_read handler_copy] in Hr.
  assert (length chunk <= length q')%nat by (rewrite <- Htake, length_take; lia).
  wp_step. wp_step. wp_step. rewrite sub_0_take, Nat2Z.id, Htake.
  wp_step. wp_step.
  - do 2 wp_step. cbn [snd].
    pose proof (ep_write chunk f dst Hl Hw HD ltac:(lia)) as Hwp. apply wp_ex in Hwp as ([nw ew] & dst' & Hwr & _ & _ & _ & Hl' & Hw').
    eapply wp_eq; [exact Hwr|]. apply (handed_write _ _ _ _ _ _ _ Hr) in Hwr.
    destruct ew as [x|]; repeat wp_step; [eexists; exact Hwr|].
    exists k'. split; [done|]. split; [exact Hwr|]. eauto.
  - repeat wp_step. exists k'. eauto 10.
Qed.

(** A loop of [request.Relay] is a run of one direction of the relay with the policy
    [handler_copy]: it ends, and it leaves both connections as the run does. *)
Theorem Relay_loop_is_handler_copy F k bs e :
  offers F k src0 bs e -> ep_live dst0 -> ep_writable dst0 -> (F <= f)%nat -> (k < f)%nat -> (ep_fuel D <= f)%nat ->
  wp Relay_loop f (src0, dst0) (fun _ s' => exists err, handed (Finished err) s').
Proof.
  intros Ho Hl Hw HF Hk HD.
  apply (wp_iter (fun k (_ : unit) s => handed Reading s /\ (exists rest, offers F k s.1 rest e) /\
    ep_live s.2 /\ ep_writable s.2) k); [|exact Hk|].
  - intros m u [src dst] (Hh & [rest Ho'] & Hl' & Hw'). eapply wp_mono; [by eapply Relay_body_run|].
    by intros [[]|[]] s'.
  - split; [exists O, (relay_start src0 dst0); repeat split; apply run_start | eauto].
Qed.

End HandlerLoop.

(** ** Witnesses: a session with one record, and two segments, copied to a plain connection *)

Definition toy_environment : environment :=
  {| env_Getenv := no_env; env_ParseFloat := no_floats; env_salt := toy_salt; env_AEAD := toy_AEAD;
     env_fuel := 0; env_reads := 21 |}.

Definition hello_wire : bytes := toy_salt ++ hello_records.

Definition hello_end : tunnel_end toy_environment conn buffer list_bloom :=
  TunnelEnd (toy_world [hello_wire] small_salts) [] [] None.

Lemma hello_end_offers :
  te_offers (S (conn_steps (idle_conn [hello_wire]))) 200 hello_end (str "hello") EOF.
Proof.
  exists O, (conn_steps (idle_conn [hello_wire])), hello_wire, EOF. split; [vm_compute; lia|].
  split; [exact (toy_stream_delivers small_salts hello_records)|]. split; [|vm_compute; lia].
  right. exists toy_salt, toy_AEAD, hello_records. split; [apply toy_awaiting, small_salts_wf|].
  split; [done|]. vm_compute. reflexivity.
Qed.

Lemma WriteTo_is_stream_copy_witness :
  wp (streamConn_WriteTo no_env no_floats) 200 (te_world hello_end, idle_conn []) (fun '(_, err) '(s', w') =>
    as_relayed hello_end (idle_conn []) 0 200
      (sc_r (conn_of (te_world hello_end)) = None /\ str "hello" = [] /\ EOF = EOF) err s' w').
Proof.
  exact (WriteTo_is_stream_copy (D := conn) _ 200 hello_end (str "hello") EOF (idle_conn []) 0 200
    hello_end_offers I I ltac:(apply Nat.leb_le; vm_compute; reflexivity) ltac:(lia)
    ltac:(apply Nat.leb_le; vm_compute; reflexivity)).
Defined.

Lemma Relay_loop_is_handler_copy_witness :
  let src := idle_conn [str "GET /"; str " HTTP/1.1"] in
  wp Relay_loop 30 (src, idle_conn []) (fun _ s' => exists err, handed src (idle_conn []) 0 30 (Finished err) s').
Proof.
  exact (Relay_loop_is_handler_copy (idle_conn [str "GET /"; str " HTTP/1.1"]) (idle_conn []) 0 30 0
    (conn_steps (idle_conn [str "GET /"; str " HTTP/1.1"])) (str "GET / HTTP/1.1") EOF
    (idle_conn_delivers [str "GET /"; str " HTTP/1.1"] (str "GET / HTTP/1.1") eq_refl) I I ltac:(lia)
    ltac:(apply Nat.leb_le; vm_compute; reflexivity) ltac:(apply Nat.leb_le; vm_compute; reflexivity)).
Defined.
