(* ===== verification/GoMd5.v ===== *)
(** Go's [crypto/md5] (RFC 1321), which m_core derives keys with: the digest of a list of bytes, on
    32-bit words, and the length of its result. It is checked against the test suite
    of the RFC. *)

From Stdlib Require Import ZArith Lia.
From Stdlib Require Import Strings.Byte.
From stdpp Require Import base decidable list numbers strings.
From S2P Require Import Prelude.

(** ** 32-bit words *)

Definition u32 (z : Z) : Z := Z.land z 0xFFFFFFFF.
Definition not32 (z : Z) : Z := Z.lxor z 0xFFFFFFFF.
Definition rotl32 (z n : Z) : Z := Z.lor (u32 (Z.shiftl z n)) (Z.shiftr z (32 - n)).

(** Little-endian bytes of an integer, and back. *)
Fixpoint le_bytes (n : nat) (z : Z) : bytes :=
  match n with
  | O => []
  | S n => z2b z :: le_bytes n (Z.shiftr z 8)
  end.

Definition le_word (l : bytes) : Z := foldr (fun b z => b2z b + 256 * z) 0 l.

(** ** The compression function *)

Definition md5_K : list Z := [
  0xd76aa478; 0xe8c7b756; 0x242070db; 0xc1bdceee; 0xf57c0faf; 0x4787c62a; 0xa8304613; 0xfd469501;
  0x698098d8; 0x8b44f7af; 0xffff5bb1; 0x895cd7be; 0x6b901122; 0xfd987193; 0xa679438e; 0x49b40821;
  0xf61e2562; 0xc040b340; 0x265e5a51; 0xe9b6c7aa; 0xd62f105d; 0x02441453; 0xd8a1e681; 0xe7d3fbc8;
  0x21e1cde6; 0xc33707d6; 0xf4d50d87; 0x455a14ed; 0xa9e3e905; 0xfcefa3f8; 0x676f02d9; 0x8d2a4c8a;
  0xfffa3942; 0x8771f681; 0x6d9d6122; 0xfde5380c; 0xa4beea44; 0x4bdecfa9; 0xf6bb4b60; 0xbebfbc70;
  0x289b7ec6; 0xeaa127fa; 0xd4ef3085; 0x04881d05; 0xd9d4d039; 0xe6db99e5; 0x1fa27cf8; 0xc4ac5665;
  0xf4292244; 0x432aff97; 0xab9423a7; 0xfc93a039; 0x655b59c3; 0x8f0ccc92; 0xffeff47d; 0x85845dd1;
  0x6fa87e4f; 0xfe2ce6e0; 0xa3014314; 0x4e0811a1; 0xf7537e82; 0xbd3af235; 0x2ad7d2bb; 0xeb86d391].

Definition md5_shifts : list (list Z) :=
  [[7; 12; 17; 22]; [5; 9; 14; 20]; [4; 11; 16; 23]; [6; 10; 15; 21]].

Definition digest : Type := Z * Z * Z * Z.

(** Step [i] of the 64, on the sixteen words [x] of the block. *)
Definition md5_step (x : list Z) (i : nat) (st : digest) : digest :=
  let '(a, b, c, d) := st in
  let round := (i / 16)%nat in
  let '(mix, g) :=
    match round with
    | O => (Z.lor (Z.land b c) (Z.land (not32 b) d), i)
    | 1%nat => (Z.lor (Z.land d b) (Z.land (not32 d) c), (5 * i + 1) mod 16)%nat
    | 2%nat => (Z.lxor b (Z.lxor c d), (3 * i + 5) mod 16)%nat
    | _ => (Z.lxor c (Z.lor b (not32 d)), (7 * i) mod 16)%nat
    end in
  let s := nth (i mod 4) (nth round md5_shifts []) 0 in
  let sum := u32 (mix + a + nth i md5_K 0 + nth g x 0) in
  (d, u32 (b + rotl32 sum s), b, c).

Definition add_digest (p q : digest) : digest :=
  let '(a, b, c, d) := p in
  let '(a', b', c', d') := q in
  (u32 (a + a'), u32 (b + b'), u32 (c + c'), u32 (d + d')).

(** The words of a block, at most [k] of them. *)
Fixpoint le_words (k : nat) (l : bytes) : list Z :=
  match k with
  | O => []
  | S k => le_word (take 4 l) :: le_words k (drop 4 l)
  end.

Definition md5_block (st : digest) (block : bytes) : digest :=
  let x := le_words 16 block in
  add_digest st (foldl (fun st i => md5_step x i st) st (seq 0 64)).

(** At most [k] blocks. *)
Fixpoint md5_blocks (k : nat) (st : digest) (l : bytes) : digest :=
  match k with
  | O => st
  | S k =>
      match l with
      | [] => st
      | _ => md5_blocks k (md5_block st (take 64 l)) (drop 64 l)
      end
  end.

(** A one bit, zeros up to 8 bytes before the end of a block, and the length in bits. *)
Definition md5_pad (l : bytes) : bytes :=
  l ++ x80 :: zeros ((55 - len l) mod 64) ++ le_bytes 8 (8 * len l).

Definition md5_init : digest := (0x67452301, 0xefcdab89, 0x98badcfe, 0x10325476).

Definition md5_Size : Z := 16.

Definition md5_Sum (l : bytes) : bytes :=
  let p := md5_pad l in
  let '(a, b, c, d) := md5_blocks (length p / 64) md5_init p in
  le_bytes 4 a ++ le_bytes 4 b ++ le_bytes 4 c ++ le_bytes 4 d.

(** ** Its length, and the test suite *)

Lemma le_bytes_length n z : length (le_bytes n z) = n.
Proof. revert z. induction n as [|n IH]; intros z; cbn; [done | by rewrite IH]. Qed.

Lemma md5_Sum_len l : len (md5_Sum l) = md5_Size.
Proof.
  unfold md5_Sum. destruct (md5_blocks _ _ _) as [[[a b] c] d].
  rewrite !length_app, !le_bytes_length. reflexivity.
Qed.

Definition hex_char (z : Z) : byte := z2b (if z <? 10 then 48 + z else 87 + z).
Definition hex (l : bytes) : bytes :=
  concat (map (fun b => [hex_char (Z.shiftr (b2z b) 4); hex_char (Z.land (b2z b) 15)]) l).

Example md5_rfc1321 :
  map (fun s => hex (md5_Sum s))
    [[]; str "a"; str "abc"; str "message digest"; str "abcdefghijklmnopqrstuvwxyz";
     str "12345678901234567890123456789012345678901234567890123456789012345678901234567890"]
  = [str "d41d8cd98f00b204e9800998ecf8427e"; str "0cc175b9c0f1b6a831c399e269772661";
     str "900150983cd24fb0d6963f7d28e17f72"; str "f96b697d7cb7938d525a2f31aaf161d0";
     str "c3fcd3d76192e4007dfb496cca67e13b"; str "57edf4a22be3c955ac49da2e2107b67a"].
Proof. vm_compute. reflexivity. Qed.
