(* ===== verification/Core.v ===== *)
(** The cipher registry of [m_core] (cipher.go) and its network wrappers (stream.go, packet.go): key
    derivation from a password, the choice of a cipher by name, and the connections the chosen
    cipher makes. *)

From Stdlib Require Import ZArith Lia.
From Stdlib Require Import Strings.Byte.
From stdpp Require Import base decidable list numbers strings sorting gmap.
From S2P Require Import Prelude GoIO GoUtf8 GoMd5 SaltFilter ShadowCipher ShadowStream ShadowPacket.

(** ** [strings] and [sort] *)

Definition ascii (c : byte) : bool := b2z c <? RuneSelf.
Definition upper_byte (c : byte) : byte := if between 97 122 (b2z c) then z2b (b2z c - 32) else c.

(** [strings.Map]: at most [k] runes. *)
Fixpoint map_runes (k : nat) (g : Z -> Z) (s : bytes) : bytes :=
  match k, s with
  | S k, _ :: _ =>
      let '(r, n) := DecodeRune s in EncodeRune (g r) ++ map_runes k g (drop (Z.to_nat n) s)
  | _, _ => []
  end.

(** [strings.ToUpper]. [unicode.ToUpper] outside of ASCII is a parameter. *)
Definition ToUpper (unicode_ToUpper : Z -> Z) (s : bytes) : bytes :=
  if forallb ascii s then map upper_byte s
  else map_runes (length s)
         (fun r => if r <? RuneSelf then b2z (upper_byte (z2b r)) else unicode_ToUpper r) s.

(** The order of Go strings. *)
Fixpoint bytes_leb (s t : bytes) : bool :=
  match s, t with
  | [], _ => true
  | _ :: _, [] => false
  | a :: s', b :: t' => (b2z a <? b2z b) || ((b2z a =? b2z b) && bytes_leb s' t')
  end.

Definition bytes_le (s t : bytes) : Prop := bytes_leb s t = true.

#[global] Instance bytes_le_dec s t : Decision (bytes_le s t) := bool_eq_dec _ _.

(** ** cipher.go *)

Definition ErrCipherNotSupported : error := Sentinel "cipher not supported".

Definition aeadAes128Gcm : bytes := str "AEAD_AES_128_GCM".
Definition aeadAes256Gcm : bytes := str "AEAD_AES_256_GCM".
Definition aeadChacha20Poly1305 : bytes := str "AEAD_CHACHA20_POLY1305".

(** [kdf]. The hash is written the previous digest and the password, and reset, in every round. *)
Definition kdf_body {S} (password : bytes) (keyLen : Z) (st : bytes * bytes)
    : M S ((bytes * bytes) + bytes) :=
  let '(b, prev) := st in
  if len b <? keyLen then
    let b := b ++ md5_Sum (prev ++ password) in
    let! prev := slice (len b - md5_Size) (len b) b in
    ret (inl (b, prev))
  else
    let! key := slice 0 keyLen b in
    ret (inr key).

Definition kdf {S} (password : bytes) (keyLen : Z) : M S bytes :=
  iter (kdf_body password keyLen) ([], []).

(** The interface [Cipher] of m_core, as the two types that implement it. The embedded
    [m_shadow.Cipher] may be nil. *)
Inductive core_Cipher :=
| dummy
| aeadCipher (embedded : option Cipher).

Section PickCipher.
Variable unicode_ToUpper : Z -> Z.
Variable hkdf_sha1 : forall (secret salt info : bytes) (n : Z), bytes + error.
Variable gcm_of_aes : bytes -> AEAD.
Variable chacha20poly1305_New : bytes -> AEAD + error.

Definition aead_choice : Type := Z * (bytes -> Cipher + error).

Definition aeadList : gmap bytes aead_choice :=
  <[aeadAes128Gcm := (16, AESGCM hkdf_sha1 gcm_of_aes)]>
  (<[aeadAes256Gcm := (32, AESGCM hkdf_sha1 gcm_of_aes)]>
  (<[aeadChacha20Poly1305 := (32, Chacha20Poly1305 hkdf_sha1 chacha20poly1305_New)]> ∅)).

(** [ListCipher], for the [order] in which [range] visits the keys. *)
Definition ListCipher (order : list bytes) : list bytes := merge_sort bytes_le order.

(** The [switch] over the aliases. *)
Definition cipher_alias (name : bytes) : bytes :=
  if decide (name = str "CHACHA20-IETF-POLY1305") then aeadChacha20Poly1305
  else if decide (name = str "AES-128-GCM") then aeadAes128Gcm
  else if decide (name = str "AES-256-GCM") then aeadAes256Gcm
  else name.

Definition PickCipher {S} (name key password : bytes) : M S (option core_Cipher * option error) :=
  let name := ToUpper unicode_ToUpper name in
  if decide (name = str "DUMMY") then ret (Some dummy, None)
  else
    match aeadList !! cipher_alias name with
    | Some (KeySize, New) =>
        let! key := (if len key =? 0 then kdf password KeySize else ret key) in
        if negb (len key =? KeySize) then ret (None, Some (KeySizeError KeySize))
        else
          match New key with
          | inl aead => ret (Some (aeadCipher (Some aead)), None)
          | inr err => ret (Some (aeadCipher None), Some err)
          end
    | None => ret (None, Some ErrCipherNotSupported)
    end.

End PickCipher.

(** What [StreamConn] makes of a connection: itself, or an encrypted connection over it, unusable if
    there is no embedded cipher. *)
Inductive stream (C : Type) :=
| Bare (c : C)
| Shadowed (sc : streamConn C)
| NoCipher (c : C).
Arguments Bare {C}.
Arguments Shadowed {C}.
Arguments NoCipher {C}.

Definition StreamConn {C} (k : core_Cipher) (c : C) : stream C :=
  match k with
  | dummy => Bare c
  | aeadCipher (Some a) => Shadowed (NewConn c a)
  | aeadCipher None => NoCipher c
  end.

Definition PacketConn {P B G} (k : core_Cipher) (c : P) (t : saltState B) (g : G)
    : P + (option (pworld P G B)) :=
  match k with
  | dummy => inl c
  | aeadCipher (Some a) => inr (Some (NewPacketConn c a t g))
  | aeadCipher None => inr None
  end.

(** ** stream.go and packet.go

    [net.Listen], [net.Dial] and [net.ListenPacket] are parameters: they give a connection or nil, and an
    error or none. The cipher is applied to what they give, nil included. *)

Section Net.
Context {L C P : Type}.

Record listener := { l_Listener : option L; l_ciph : core_Cipher }.

Definition Listen (net_Listen : bytes -> bytes -> option L * option error)
    (network address : bytes) (ciph : core_Cipher) : listener * option error :=
  let '(l, err) := net_Listen network address in
  ({| l_Listener := l; l_ciph := ciph |}, err).

(** [accept] is the embedded listener's. *)
Definition listener_Accept (accept : M L (option C * option error))
    : M listener (stream (option C) * option error) := fun f l =>
  match l_Listener l with
  | None => Halt (Panicked NilDereference) l
  | Some inner =>
      let back inner := {| l_Listener := Some inner; l_ciph := l_ciph l |} in
      match accept f inner with
      | Ret (c, err) inner => Ret (StreamConn (l_ciph l) c, err) (back inner)
      | Halt h inner => Halt h (back inner)
      end
  end.

Definition Dial (net_Dial : bytes -> bytes -> option C * option error)
    (network address : bytes) (ciph : core_Cipher) : stream (option C) * option error :=
  let '(c, err) := net_Dial network address in (StreamConn ciph c, err).

Definition ListenPacket {B G} (net_ListenPacket : bytes -> bytes -> option P * option error)
    (network address : bytes) (ciph : core_Cipher) (t : saltState B) (g : G)
    : (option P + option (pworld (option P) G B)) * option error :=
  let '(c, err) := net_ListenPacket network address in (PacketConn ciph c t g, err).

End Net.
Arguments listener L : clear implicits.

(** ** Correctness: the order of strings *)

#[global] Instance bytes_le_trans : Transitive bytes_le.
Proof.
  unfold bytes_le. intros s. induction s as [|a s IH]; intros [|b t] [|c u]; cbn; try done.
  rewrite !orb_true_iff, !andb_true_iff, !Z.ltb_lt, !Z.eqb_eq.
  intros [|[? ?]] [|[? ?]]; [left; lia.. |]. right. split; [lia|]. by eapply IH.
Qed.

#[global] Instance bytes_le_antisymm : AntiSymm (=) bytes_le.
Proof.
  unfold bytes_le. intros s. induction s as [|a s IH]; intros [|b t]; cbn; try done.
  rewrite !orb_true_iff, !andb_true_iff, !Z.ltb_lt, !Z.eqb_eq.
  intros [|[Hab ?]] [|[? ?]]; [lia.. |]. f_equal; [by apply b2z_inj | by apply IH].
Qed.

#[global] Instance bytes_le_total : Total bytes_le.
Proof.
  unfold bytes_le. intros s. induction s as [|a s IH]; intros [|b t]; cbn; auto.
  rewrite !orb_true_iff, !andb_true_iff, !Z.ltb_lt, !Z.eqb_eq.
  destruct (Z.lt_trichotomy (b2z a) (b2z b)) as [|[|]]; auto.
  destruct (IH t); auto.
Qed.

(** ** Correctness: key derivation *)

(** The [i]-th digest, and the first [k] of them. *)
Fixpoint md5_digest (password : bytes) (i : nat) : bytes :=
  match i with
  | O => []
  | S i => md5_Sum (md5_digest password i ++ password)
  end.

Definition md5_chain (password : bytes) (k : nat) : bytes :=
  concat (map (md5_digest password) (seq 1 k)).

Lemma md5_chain_succ password k :
  md5_chain password (S k) = md5_chain password k ++ md5_digest password (S k).
Proof. unfold md5_chain. rewrite seq_S, map_app, concat_app. cbn. by rewrite app_nil_r. Qed.

Lemma md5_chain_len password k : len (md5_chain password k) = 16 * Z.of_nat k.
Proof.
  induction k as [|k IH]; [done|]. rewrite md5_chain_succ, len_app, IH. cbn [md5_digest].
  rewrite md5_Sum_len. unfold md5_Size. lia.
Qed.

Lemma md5_chain_prefix password j k :
  (j <= k)%nat -> exists rest, md5_chain password k = md5_chain password j ++ rest.
Proof.
  intros Hjk. exists (concat (map (md5_digest password) (seq (1 + j) (k - j)))). unfold md5_chain.
  rewrite <- concat_app, <- map_app, <- seq_app. do 3 f_equal. lia.
Qed.

(** The key [kdf] derives: a prefix of the chain, long enough whatever the key length. *)
Definition derived_key (password : bytes) (keyLen : Z) : bytes :=
  take (Z.to_nat keyLen) (md5_chain password (Z.to_nat keyLen)).

Lemma derived_key_len password keyLen : 0 <= keyLen -> len (derived_key password keyLen) = keyLen.
Proof. intros Hk. unfold derived_key. pose proof (md5_chain_len password (Z.to_nat keyLen)). rewrite length_take. lia. Qed.

Lemma derived_key_chain password keyLen j :
  0 <= keyLen -> keyLen <= 16 * Z.of_nat j -> (j <= Z.to_nat keyLen)%nat ->
  take (Z.to_nat keyLen) (md5_chain password j) = derived_key password keyLen.
Proof.
  intros Hk Hlen Hj. unfold derived_key. destruct (md5_chain_prefix password _ _ Hj) as [rest ->].
  pose proof (md5_chain_len password j). by rewrite take_app_le by lia.
Qed.

Lemma kdf_run {T} password keyLen f (s : T) (Q : bytes -> T -> Prop) :
  0 <= keyLen -> keyLen < Z.of_nat f -> Q (derived_key password keyLen) s ->
  wp (kdf password keyLen) f s Q.
Proof.
  intros Hk Hf HQ. unfold kdf.
  apply (wp_iter (fun j st s' => s' = s /\ exists i, (i + j = Z.to_nat keyLen)%nat /\
    st = (md5_chain password i, md5_digest password i)) (Z.to_nat keyLen)); [|lia|].
  2:{ split; [done|]. by exists O. }
  intros j st s' (-> & i & Hi & ->). unfold kdf_body.
  pose proof (md5_chain_len password i) as Hl. pose proof (md5_chain_len password (S i)) as Hl'.
  change (md5_Sum (md5_digest password i ++ password)) with (md5_digest password (S i)).
  rewrite <- md5_chain_succ. destruct (Z.ltb_spec (len (md5_chain password i)) keyLen) as [Hlt|Hge].
  - assert (md5_Size = 16) as E by done. wp_step. wp_step. wp_step. exists (j - 1)%nat. split; [lia|]. split; [done|].
    exists (S i). split; [lia|]. f_equal. rewrite sub_to_end by lia. rewrite E, Hl'.
    rewrite md5_chain_succ. replace (Z.to_nat _) with (length (md5_chain password i)) by lia.
    by rewrite drop_app_length.
  - wp_step. wp_step. wp_step. rewrite sub_0_take, derived_key_chain by lia. exact HQ.
Qed.

(** C27. Keys are derived as EVP_BytesToKey derives them: whatever the password, [kdf] returns the first
    [keyLen] bytes of D1 ++ D2 ++ ..., where D1 is the MD5 digest of the password and D(i+1) that
    of Di followed by the password; it never panics, and ends within [keyLen] rounds. *)
Theorem kdf_derives password keyLen f :
  0 <= keyLen -> keyLen < Z.of_nat f ->
  kdf password keyLen f tt = Ret (derived_key password keyLen) tt /\
  len (derived_key password keyLen) = keyLen.
Proof.
  intros Hk Hf. split; [|by apply derived_key_len].
  pose proof (kdf_run password keyLen f tt (fun key _ => key = derived_key password keyLen) Hk Hf
    eq_refl) as Hrun.
  unfold wp in Hrun. destruct (kdf password keyLen f tt) as [key []|]; [|done]. by subst key.
Qed.

(** ** Correctness: the choice of a cipher *)

Section PickCipherProofs.
Variable unicode_ToUpper : Z -> Z.
Variable hkdf_sha1 : forall (secret salt info : bytes) (n : Z), bytes + error.
Variable gcm_of_aes : bytes -> AEAD.
Variable chacha20poly1305_New : bytes -> AEAD + error.
Hypothesis hkdf_ok : forall secret salt info n,
  0 <= n <= 255 * 20 -> exists key, hkdf_sha1 secret salt info n = inl key /\ len key = n.
Hypothesis chacha_ok : forall key, len key = 32 -> exists a, chacha20poly1305_New key = inl a.

Abbreviation the_list := (aeadList hkdf_sha1 gcm_of_aes chacha20poly1305_New).
Abbreviation Pick := (PickCipher unicode_ToUpper hkdf_sha1 gcm_of_aes chacha20poly1305_New).

(** A usable cipher for keys of [size] bytes: both ends derive the same AEAD from a salt. *)
Definition usable (size : Z) (a : Cipher) : Prop :=
  KeySize a = size /\ 16 <= SaltSize a /\ size <= SaltSize a /\
  forall salt, exists aead, Encrypter a salt = Ret (inl aead) tt /\ Decrypter a salt = Ret (inl aead) tt.

(** Every entry of the list makes a usable cipher of a key of its length. *)
Lemma aeadList_entry name size New :
  the_list !! name = Some (size, New) ->
  (size = 16 \/ size = 32) /\
  forall key, len key = size -> exists a, New key = inl a /\ usable size a.
Proof.
  assert (forall key a, AESGCM hkdf_sha1 gcm_of_aes key = inl a \/
    Chacha20Poly1305 hkdf_sha1 chacha20poly1305_New key = inl a -> usable (len key) a) as Husable.
  { intros key a Ha. pose proof (fun salt => session_agrees hkdf_sha1 gcm_of_aes chacha20poly1305_New
      hkdf_ok chacha_ok key salt a Ha) as Hs.
    destruct (Hs []) as (H16 & Hsize & Hle & _). repeat split; [done | done | lia |].
    intros salt. by destruct (Hs salt) as (_ & _ & _ & ?). }
  unfold aeadList.
  assert (forall key, len key = 16 \/ len key = 32 -> exists a,
    AESGCM hkdf_sha1 gcm_of_aes key = inl a /\ usable (len key) a) as Haes.
  { intros key Hk. destruct (proj2 (AESGCM_spec hkdf_sha1 gcm_of_aes key)) as [a Ha]; [lia|]. eauto. }
  intros Hl. apply lookup_insert_Some in Hl as [[_ [= <- <-]]|[_ Hl]].
  { split; [auto|]. intros key Hk. rewrite <- Hk. apply Haes. lia. }
  apply lookup_insert_Some in Hl as [[_ [= <- <-]]|[_ Hl]].
  { split; [auto|]. intros key Hk. rewrite <- Hk. apply Haes. lia. }
  apply lookup_insert_Some in Hl as [[_ [= <- <-]]|[_ Hl]]; [|by rewrite lookup_empty in Hl].
  split; [auto|]. intros key Hk. unfold Chacha20Poly1305, chacha20poly1305_KeySize in *.
  rewrite (proj2 (Z.eqb_eq _ _) Hk) in *. eexists. split; [done|]. rewrite <- Hk. apply Husable. right.
  unfold Chacha20Poly1305, chacha20poly1305_KeySize. by rewrite (proj2 (Z.eqb_eq _ _) Hk).
Qed.

Lemma PickCipher_run {T} (name key password : bytes) f (s : T) :
  (32 < f)%nat ->
  wp (Pick name key password) f s (fun '(c, err) s' => s' = s /\
    let upper := ToUpper unicode_ToUpper name in
    if decide (upper = str "DUMMY") then c = Some dummy /\ err = None
    else match the_list !! cipher_alias upper with
         | None => c = None /\ err = Some ErrCipherNotSupported
         | Some (size, New) =>
             let key' := if decide (key = []) then derived_key password size else key in
             if decide (len key' = size)
             then err = None /\ exists a, c = Some (aeadCipher (Some a)) /\ New key' = inl a /\ usable size a
             else key <> [] /\ c = None /\ err = Some (KeySizeError size)
         end).
Proof.
  intros Hf. unfold PickCipher. cbv zeta. destruct (decide (ToUpper _ name = _)); [by wp_step|].
  destruct (the_list !! _) as [[size New]|] eqn:Hl; [|by wp_step].
  destruct (aeadList_entry _ _ _ Hl) as [Hsize Hnew].
  assert (0 <= size <= 32) as Hrange by lia.
  assert (forall key', len key' = size -> forall Q : option core_Cipher * option error -> T -> Prop,
    (forall a, New key' = inl a -> usable size a -> Q (Some (aeadCipher (Some a)), None) s) ->
    wp (if negb (len key' =? size) then ret (None, Some (KeySizeError size))
        else match New key' with
             | inl aead => ret (Some (aeadCipher (Some aead)), None)
             | inr err => ret (Some (aeadCipher None), Some err)
             end) f s Q) as Hmake.
  { intros key' Hk Q HQ. rewrite (proj2 (Z.eqb_eq _ _) Hk). cbn [negb].
    destruct (Hnew key' Hk) as (a & Ha & Hu). rewrite Ha. by apply HQ. }
  apply wp_bind. destruct (decide (key = [])) as [->|Hne].
  - cbn [List.length]. apply kdf_run; [lia | lia |].
    pose proof (derived_key_len password size ltac:(lia)) as Hlen.
    destruct (decide (len (derived_key password size) = size)); [|done]. apply Hmake; eauto 10.
  - rewrite (proj2 (Z.eqb_neq _ _)) by (destruct key; [done | cbn; lia]). apply wp_ret.
    destruct (decide (len key = size)) as [Hk|Hk]; [apply Hmake; eauto 10|]. rewrite (proj2 (Z.eqb_neq _ _) Hk). cbn [negb]. by wp_step.
Qed.

(** C26. [PickCipher] gives a working cipher or a precise error, for every name, key and password. The
    name is looked up in upper case, with its aliases; an unknown name is refused; an empty key is
    replaced by one derived from the password, so that a key of the wrong length can only
    be the caller's, and is refused with the length needed; otherwise the result is a cipher of that
    key size whose two directions agree on every salt, and there is no error. It never panics. *)
Theorem PickCipher_picks (name key password : bytes) f :
  (32 < f)%nat ->
  wp (Pick name key password) f tt (fun '(c, err) _ =>
    let upper := ToUpper unicode_ToUpper name in
    if decide (upper = str "DUMMY") then c = Some dummy /\ err = None
    else match the_list !! cipher_alias upper with
         | None => c = None /\ err = Some ErrCipherNotSupported
         | Some (size, New) =>
             let key' := if decide (key = []) then derived_key password size else key in
             if decide (len key' = size)
             then err = None /\ exists a, c = Some (aeadCipher (Some a)) /\ New key' = inl a /\ usable size a
             else key <> [] /\ c = None /\ err = Some (KeySizeError size)
         end).
Proof.
  intros Hf. eapply wp_mono; [by apply PickCipher_run|]. by intros [c err] s' [_ Hres].
Qed.

(** [ListCipher] returns the names of the list in alphabetical order, whatever order the map is
    walked in. *)
Theorem ListCipher_sorted order :
  order ≡ₚ (map_to_list the_list).*1 ->
  ListCipher order = [aeadAes128Gcm; aeadAes256Gcm; aeadChacha20Poly1305].
Proof.
  intros Ho. unfold ListCipher. apply (Sorted_unique bytes_le).
  - apply (Sorted_merge_sort _).
  - repeat constructor.
  - rewrite merge_sort_Permutation, Ho. unfold aeadList.
    rewrite !map_to_list_insert by (vm_compute; reflexivity). rewrite map_to_list_empty. done.
Qed.

End PickCipherProofs.

(** ** Witnesses *)

Abbreviation toy_chacha := (fun _ : bytes => inl toy_AEAD : AEAD + error).
Abbreviation toy_gcm := (fun _ : bytes => toy_AEAD).

(** The names and aliases, and the length of the key each asks for. *)
Example cipher_names :
  map (fun name => fst <$> aeadList toy_hkdf toy_gcm toy_chacha !! cipher_alias (str name))
    ["AEAD_AES_128_GCM"; "AES-128-GCM"; "AEAD_AES_256_GCM"; "AES-256-GCM"; "AEAD_CHACHA20_POLY1305";
     "CHACHA20-IETF-POLY1305"; "AES-192-GCM"]%string
  = [Some 16; Some 16; Some 32; Some 32; Some 32; Some 32; None].
Proof. reflexivity. Qed.

Lemma kdf_derives_witness :
  kdf (str "password") 16 40%nat tt = Ret (derived_key (str "password") 16) tt /\
  len (derived_key (str "password") 16) = 16 /\
  hex (derived_key (str "password") 16) = str "5f4dcc3b5aa765d61d8327deb882cf99".
Proof.
  destruct (kdf_derives (str "password") 16 40 ltac:(lia) ltac:(lia)) as [Hkey Hlen].
  split; [exact Hkey|]. split; [exact Hlen|]. vm_compute. reflexivity.
Defined.

Lemma PickCipher_picks_witness :
  cipher_alias (ToUpper id (str "aes-256-gcm")) = aeadAes256Gcm /\
  wp (PickCipher id toy_hkdf toy_gcm toy_chacha (str "aes-256-gcm") [] (str "secret")) 99 tt
    (fun '(c, err) _ =>
      let upper := ToUpper id (str "aes-256-gcm") in
      if decide (upper = str "DUMMY") then c = Some dummy /\ err = None
      else match aeadList toy_hkdf toy_gcm toy_chacha !! cipher_alias upper with
           | None => c = None /\ err = Some ErrCipherNotSupported
           | Some (size, New) =>
               let key' := if decide ([] = [] :> bytes) then derived_key (str "secret") size else [] in
               if decide (len key' = size)
               then err = None /\ exists a, c = Some (aeadCipher (Some a)) /\ New key' = inl a /\ usable size a
               else [] <> [] :> bytes /\ c = None /\ err = Some (KeySizeError size)
           end).
Proof.
  split; [vm_compute; reflexivity|].
  exact (PickCipher_picks id toy_hkdf toy_gcm toy_chacha toy_hkdf_ok (fun key _ => ex_intro _ toy_AEAD eq_refl)
    (str "aes-256-gcm") [] (str "secret") 99 ltac:(lia)).
Defined.

Lemma ListCipher_sorted_witness :
  ListCipher [aeadChacha20Poly1305; aeadAes128Gcm; aeadAes256Gcm]
    = [aeadAes128Gcm; aeadAes256Gcm; aeadChacha20Poly1305].
Proof.
  apply (ListCipher_sorted toy_hkdf toy_gcm toy_chacha). unfold aeadList.
  rewrite !map_to_list_insert by (vm_compute; reflexivity). rewrite map_to_list_empty. cbn.
  apply (perm_trans (perm_swap _ _ _)). apply perm_skip, perm_swap.
Defined.
