(* ===== verification/Config.v ===== *)
(** The configuration of [m_config] (config.go). Reading the file is gcfg's
    ([gopkg.in/gcfg.v1]), a parameter. *)

From Stdlib Require Import ZArith Lia.
From stdpp Require Import base decidable list numbers strings.
From S2P Require Import Prelude.

Record ConfigServer := {
  Local : bool;
  Port : Z;
  RemoteServer : bytes;
  MonitorPort : Z;
  cfg_Cipher : bytes;
  Username : bytes;
  Password : bytes;
  ClientReadTimeout : Z;
  ClientWriteTimeout : Z;
  cfg_GracefulShutdownTimeout : Z;
  MaxIdle : Z;
  MaxCpus : Z
}.

(** [Conf] is a struct with one field. *)
Record Conf := { cfg_Server : ConfigServer }.

Definition ConfigServer_SetDefaultConfig (cfg : ConfigServer) : ConfigServer :=
  {| Local := Local cfg; Port := Port cfg; RemoteServer := RemoteServer cfg;
     MonitorPort := MonitorPort cfg; cfg_Cipher := cfg_Cipher cfg; Username := Username cfg;
     Password := Password cfg; ClientReadTimeout := 60; ClientWriteTimeout := 60;
     cfg_GracefulShutdownTimeout := 10; MaxIdle := MaxIdle cfg; MaxCpus := MaxCpus cfg |}.

Definition SetDefaultConfig (conf : Conf) : Conf :=
  {| cfg_Server := ConfigServer_SetDefaultConfig (cfg_Server conf) |}.

Definition zero_Conf : Conf := {| cfg_Server :=
  {| Local := false; Port := 0; RemoteServer := []; MonitorPort := 0; cfg_Cipher := []; Username := [];
     Password := []; ClientReadTimeout := 0; ClientWriteTimeout := 0;
     cfg_GracefulShutdownTimeout := 0; MaxIdle := 0; MaxCpus := 0 |} |}.

(** [log.Fatalf] ends the process with status 1, so that the error is never returned. [root] is not
    used. *)
Definition ConfigLoad {S} (ReadFileInto : bytes -> Conf -> Conf * option error)
    (path root : bytes) (f : Conf -> Conf) : M S (Conf * option error) :=
  let '(cfg, err) := ReadFileInto path (f zero_Conf) in
  match err with
  | Some _ => stop (Exited 1)
  | None => ret (cfg, None)
  end.
