(* ===== verification/Serve.v ===== *)
(** The two ends of the proxy, one connection at a time: the goroutines [ServeLocal] and [ServeServer]
    of m_server (socks_server.go) start for a connection, up to the relay.

    A goroutine works on its connections and on the state of the process: the salt filter, the
    random source and the counters. *)

From Stdlib Require Import ZArith Lia.
From stdpp Require Import base decidable list numbers strings.
From S2P Require Import Prelude GoIO SaltFilter ShadowCipher ShadowStream GoNet SocksAddr SocksHandshake BufReader BufWriter BufWriterSpec Cork Core.

(** [Stats]. *)
Record Stats := { ReqNum : Z; CoNum : Z }.

Section Process.
Context {G : Type} `{Reader G}.
Context {B : Type} `{Bloom B}.

Record process := { p_salts : saltState B; p_rand : G; p_stats : Stats }.

Definition set_p_stats x (p : process) : process :=
  {| p_salts := p_salts p; p_rand := p_rand p; p_stats := x |}.

(** [atomic.AddInt64(&srv.stats.ReqNum, 1)]. *)
Definition count_request (p : process) : process :=
  set_p_stats {| ReqNum := i64 (ReqNum (p_stats p) + 1); CoNum := CoNum (p_stats p) |} p.

Section Link.
Context {C : Type} `{Reader C} `{Writer C}.
Variable Getenv : bytes -> bytes.
Variable ParseFloat : bytes -> option float64.

(** A call on what [StreamConn] returned: of the connection itself, or of the encrypted one. *)
Definition on_stream {A} (bare : M C A) (shadowed : M (world C G B) A) : M (stream C * process) A :=
  fun f '(st, p) =>
    match st with
    | Bare c =>
        match bare f c with
        | Ret a c => Ret a (Bare c, p)
        | Halt h c => Halt h (Bare c, p)
        end
    | Shadowed sc =>
        let back w := (Shadowed (conn_of w),
                       {| p_salts := salts w; p_rand := rand w; p_stats := p_stats p |}) in
        match shadowed f {| conn_of := sc; salts := p_salts p; rand := p_rand p |} with
        | Ret a w => Ret a (back w)
        | Halt h w => Halt h (back w)
        end
    | NoCipher _ => Halt (Panicked NilDereference) (st, p)
    end.

#[global] Instance stream_Reader : Reader (stream C * process) := fun p =>
  on_stream (read p) (streamConn_Read Getenv ParseFloat p).
#[global] Instance stream_Writer : Writer (stream C * process) := fun p =>
  on_stream (write p) (streamConn_Write Getenv ParseFloat p).

End Link.

(** [io.Copy(ioutil.Discard, c)]: read to the end. *)
Definition discard {R} `{Reader R} : M R (option error) :=
  iter (fun _ : unit =>
    let! '(_, _, err) := read (zeros 8192) in
    match err with
    | None => ret (inl tt)
    | Some e => ret (inr (if decide (e = EOF) then None else Some e))
    end) tt.

(** Work on the connection [st], which is not part of the goroutine's state yet. *)
Definition on_new {X C A} (st : stream C) (m : M (stream C * process) A)
    : M (X * process) (A * stream C) := fun f '(x, p) =>
  match m f (st, p) with
  | Ret a (st, p) => Ret (a, st) (x, p)
  | Halt h (_, p) => Halt h (x, p)
  end.

Definition on_conn {X A} (m : M X A) : M (X * process) A := zoom fst (fun x '(_, p) => (x, p)) m.
Definition on_process {X A} (m : M process A) : M (X * process) A := zoom snd (fun p '(x, _) => (x, p)) m.

End Process.
Arguments process G B : clear implicits.

(** ** The local side: [ServeLocal]'s goroutine *)

Section LocalConn.
Context {G : Type} `{Reader G}.
Context {B : Type} `{Bloom B}.
(** The client, and the connection to the remote server, which is not a [bufio.Writer]. *)
Context {C : Type} `{Reader C} `{Writer C}.
Context {R : Type} `{Reader R} `{Sink R}.
Variable Getenv : bytes -> bytes.
Variable ParseFloat : bytes -> option float64.
(** [net.Dial("tcp", address)]. *)
Variable dial : bytes -> R + error.

Abbreviation tunnel := (stream (corkedConn (C := R))).

(** How the goroutine ends before it relays, or what it relays between. *)
Inductive local_end :=
| NoTarget (err : error) (discarded : option error)
| NoRemote (err : error)
| NotSent (err : error) (rc : tunnel)
| RelayLocal (tgt : option Addr) (rc : tunnel).

Definition local_conn (getAddr : M C (option Addr * option error)) (shadow : core_Cipher)
    (RemoteServer : bytes) : M (C * process G B) local_end :=
  let! '(tgt, err) := on_conn getAddr in
  match err with
  | Some e =>
      let! discarded := on_conn discard in
      ret (NoTarget e discarded)
  | None =>
      match dial RemoteServer with
      | inr e => ret (NoRemote e)
      | inl rc =>
          let rc := timedCork (fun _ => None) rc (10 * Millisecond) 1280 in
          let rc := StreamConn shadow rc in
          let! '(_, err, rc) := on_new rc (stream_Writer Getenv ParseFloat (default [] tgt)) in
          match err with
          | Some e => ret (NotSent e rc)
          | None => ret (RelayLocal tgt rc)
          end
      end
  end.

(** What the deferred calls close when the goroutine is over: the client, and the remote connection
    if there is one. *)
Definition local_closes (e : local_end) : bool * bool :=
  match e with
  | NoTarget _ _ | NoRemote _ => (true, false)
  | NotSent _ _ | RelayLocal _ _ => (true, true)
  end.

End LocalConn.

(** ** The server side: [ServeServer]'s goroutine *)

Section ServerConn.
Context {G : Type} `{Reader G}.
Context {B : Type} `{Bloom B}.
(** The tunnel's connection, and the target. *)
Context {C : Type} `{Reader C} `{Sink C}.
Context {R : Type}.
Variable Getenv : bytes -> bytes.
Variable ParseFloat : bytes -> option float64.
Variable dial : bytes -> R + error.

Abbreviation tunnel := (stream (corkedConn (C := C))).

Inductive server_end :=
| BadTarget (err : error) (discarded : option error)
| NotConnected (err : error)
| RelayServer (rc : R).

(** [c := timedCork(c, ...); sc := shadow(c)]. *)
Definition server_tunnel (shadow : core_Cipher) (c : C) : tunnel :=
  StreamConn shadow (timedCork (fun _ => None) c (10 * Millisecond) 1280).

(** Reading [c] past [sc]. *)
Definition on_inner {X A} (m : M X A) : M (stream X * process G B) A :=
  fun f '(st, p) =>
    match st with
    | Bare c =>
        match m f c with
        | Ret a c => Ret a (Bare c, p)
        | Halt h c => Halt h (Bare c, p)
        end
    | Shadowed sc =>
        let back c := (Shadowed {| Conn := c; ciph := ciph sc; sc_r := sc_r sc; sc_w := sc_w sc |}, p) in
        match m f (Conn sc) with
        | Ret a c => Ret a (back c)
        | Halt h c => Halt h (back c)
        end
    | NoCipher c =>
        match m f c with
        | Ret a c => Ret a (NoCipher c, p)
        | Halt h c => Halt h (NoCipher c, p)
        end
    end.

Definition server_conn : M (tunnel * process G B) server_end :=
  let! '(tgt, err) := ReadAddr (H := stream_Reader Getenv ParseFloat) in
  match err with
  | Some e =>
      let! discarded := on_inner discard in
      ret (BadTarget e discarded)
  | None =>
      let! address := Addr_String (default [] tgt) in
      match dial address with
      | inr e => ret (NotConnected e)
      | inl rc => modify (fun '(st, p) => (st, count_request p)) ;;; ret (RelayServer rc)
      end
  end.

Definition server_closes (e : server_end) : bool * bool :=
  match e with
  | BadTarget _ _ | NotConnected _ => (true, false)
  | RelayServer _ => (true, true)
  end.

End ServerConn.
