(* ===== verification/ServeSpec.v ===== *)
(** Correctness of the two ends of the proxy: what the local side sends through the tunnel for a request,
    what the server side makes of it, and the two together. *)

From Stdlib Require Import ZArith Lia.
From Stdlib Require Import Strings.Byte.
From stdpp Require Import base decidable list numbers strings.
From S2P Require Import Prelude GoIO SaltFilter ShadowCipher ShadowStream ShadowRecord ShadowConn GoNet SocksAddr SocksHandshake BufReader BufWriter BufWriterSpec Cork Core Serve.

(** ** Reading what is left *)

Section Discard.
Context {R : Type} `{Reader R}.

(** [discard] reads a stream to its end and reports its error, unless it is the end of file. *)
Lemma discard_run F k r bs e f :
  delivers F k r bs e -> (F <= f)%nat -> (k < f)%nat ->
  wp discard f r (fun err r' => err = source_error e /\ exhausted F r' e).
Proof.
  intros Hd HF Hk. unfold discard.
  apply (wp_iter (fun j _ r' => exists bs, delivers F j r' bs e) k); [|exact Hk | by exists bs].
  clear k r bs Hd Hk. intros j [] r (bs & Hd). destruct j as [|j]; [done|]. cbn [delivers] in Hd. wp_step.
  assert (len (zeros 8192) = 8192) as Hz by (apply len_zeros; lia).
  eapply wp_mono; [apply (Hd (zeros 8192)); [intros E; rewrite E in Hz; cbn in Hz; lia | done]|].
  intros [[p n] er] r' (chunk & rest & _ & _ & _ & _ & _ & Her). destruct er as [e'|]; wp_step.
  - destruct Her as (_ & -> & Hex). split; [|done]. unfold source_error.
    by destruct (decide (e = EOF)), (bool_decide_reflect (e = EOF)).
  - exists j. split; [lia | by exists rest].
Qed.

Lemma discard_keeps (P : R -> Prop) : (forall p, keeps P (read p)) -> keeps P discard.
Proof. intros Hr. unfold discard. keeping. Qed.

End Discard.

(** ** Calls on a stream *)

Section Stream.
Context {G : Type} `{Reader G}.
Context {B : Type} `{Bloom B}.
Context {C : Type} `{Reader C} `{Writer C}.

Definition world_of (sc : streamConn C) (p : process G B) : world C G B :=
  {| conn_of := sc; salts := p_salts p; rand := p_rand p |}.

Definition after_world (w : world C G B) (p : process G B) : process G B :=
  {| p_salts := salts w; p_rand := rand w; p_stats := p_stats p |}.

Lemma wp_shadowed {A} (bare : M C A) (m : M (world C G B) A) sc p f Q :
  wp m f (world_of sc p) (fun a w => Q a (Shadowed (conn_of w), after_world w p)) ->
  wp (on_stream bare m) f (Shadowed sc, p) Q.
Proof. unfold wp, on_stream, world_of. by destruct (m f _). Qed.

Lemma wp_on_new {X A} (st : stream C) (m : M (stream C * process G B) A) x p f (Q : A * stream C -> X * process G B -> Prop) :
  wp m f (st, p) (fun a '(st, p) => Q (a, st) (x, p)) -> wp (on_new st m) f (x, p) Q.
Proof. unfold wp, on_new. by destruct (m f _) as [a [? ?]|h [? ?]]. Qed.

Lemma wp_on_conn {X A} (m : M X A) x p f (Q : A -> X * process G B -> Prop) :
  wp m f x (fun a x => Q a (x, p)) -> wp (on_conn m) f (x, p) Q.
Proof. intros Hw. by apply wp_zoom. Qed.

Variable Getenv : bytes -> bytes.
Variable ParseFloat : bytes -> option float64.
Abbreviation reader_of_stream := (stream_Reader (G := G) (B := B) (C := C) Getenv ParseFloat).
Abbreviation reader_of_world := (streamConn_Reader (C := C) (G := G) (B := B) Getenv ParseFloat).

Lemma shadowed_exhausted F sc p e :
  @exhausted _ reader_of_world F (world_of sc p) e -> @exhausted _ reader_of_stream F (Shadowed sc, p) e.
Proof.
  intros (P & HP & Hr). exists (fun '(st, p) => exists sc, st = Shadowed sc /\ P (world_of sc p)).
  split; [by exists sc|]. clear sc p HP. intros [st p] b f (sc & -> & HP) Hb Hf.
  apply wp_shadowed. eapply wp_mono; [exact (Hr _ b f HP Hb Hf)|].
  intros [[b' n] er] [sc' t g] (? & ? & ? & HP'). repeat split; try done. by exists sc'.
Qed.

Lemma shadowed_delivers F k sc p bs e :
  @delivers _ reader_of_world F k (world_of sc p) bs e ->
  @delivers _ reader_of_stream F k (Shadowed sc, p) bs e.
Proof.
  revert sc p bs. induction k as [|k IH]; intros sc p bs Hd; [done|]. cbn [delivers] in *.
  intros b f Hb Hf. apply wp_shadowed. eapply wp_mono; [exact (Hd b f Hb Hf)|].
  intros [[b' n] er] [sc' t g] (chunk & rest & ? & ? & ? & ? & ? & Her). exists chunk, rest.
  repeat split; try done. destruct er as [e'|].
  - destruct Her as (? & ? & ?). repeat split; try done. by apply shadowed_exhausted.
  - by apply IH.
Qed.

End Stream.

(** ** The local side *)

Section Local.
Context {G : Type} `{Reader G}.
Context {B : Type} `{BloomLaws B}.
Context {C : Type} `{Duplex C}.
Context {R : Type} `{Duplex R}.
Variable Getenv : bytes -> bytes.
Variable ParseFloat : bytes -> option float64.
Variable dial : bytes -> R + error.

(** The process can open a session with the cipher [a]: [salt] is what the random source
    gives next, and the cipher makes [aead] of it. *)
Record can_open (F k : nat) (a : Cipher) (p : process G B) (salt : bytes) (aead : AEAD) : Prop := {
  co_salts : salts_wf (p_salts p);
  co_laws : AEADLaws aead;
  co_size : len salt = SaltSize a;
  co_enc : Encrypter a salt = Ret (inl aead) tt;
  co_rand : exists more e, delivers F k (p_rand p) (salt ++ more) e
}.

Definition enough_fuel (F k f : nat) : Prop :=
  (sink_fuel C <= f /\ Nat.max 3 (sink_fuel R) <= f /\ F <= f /\ k < f /\ 300 < f)%nat.

Abbreviation local := (local_conn (G := G) (B := B) (C := C) (R := R) Getenv ParseFloat dial).

Lemma local_opening F k a p salt aead rc :
  can_open F k a p salt aead -> reliable rc ->
  opening F k (world_of (NewConn (timedCork (fun _ => None) rc (10 * Millisecond) 1280) a) p) salt aead.
Proof.
  intros [? ? ? ? ?] Hr. constructor; try done.
  apply reliable_ok, corked_reliable. by apply timedCork_reliable.
Qed.

(** What the local side has done when it starts to relay: the client has its two replies, and the tunnel
    has been given the salt and the records of the address. *)
Definition requested (c : C) (rc : R) (t : target) (salt : bytes) (aead : AEAD)
    (r : local_end (R := R)) (c' : C) : Prop :=
  GoIO.sent (written c ++ method_reply ++ connect_reply) c' /\
  exists sc cs, r = RelayLocal (Some (encode_target t)) (Shadowed sc) /\
    reliable (Conn sc) /\ Forall chunk_ok cs /\ concat cs = encode_target t /\
    written (Conn sc) = written rc ++ salt ++ encode aead (zeros (NonceSize aead)) cs.

Lemma local_conn_run F k la c p e f v methods v' rsv t rest a salt aead server rc :
  accepts c -> len methods <= 255 -> target_wf t ->
  delivers F k c (connect_request v v' rsv methods t rest) e ->
  dial server = inl rc -> reliable rc -> can_open F k a p salt aead ->
  enough_fuel F k f ->
  wp (local (HandShake false (Some la)) (aeadCipher (Some a)) server) f (c, p) (fun r '(c', p') =>
    requested c rc t salt aead r c' /\ delivers F k c' rest e /\
    p_salts p' = after_AddSalt salt (p_salts p)).
Proof.
  intros Hacc Hm Hwf Hd Hdial Hrc Hopen (HfC & HfR & HF & Hk & H300). unfold local_conn. wp_step.
  apply wp_on_conn. eapply wp_mono; [by eapply connect_run|].
  intros [tgt err] c' (-> & -> & Hs & Hd'). cbv zeta. rewrite Hdial. wp_step. apply wp_on_new.
  cbn [StreamConn default]. change (id (encode_target t)) with (encode_target t).
  apply wp_shadowed.
  pose proof (local_opening F k a p salt aead rc Hopen Hrc) as Hop.
  pose proof (encode_target_fits t Hwf) as Hl. unfold MaxAddrLen in Hl.
  eapply wp_mono; [apply (Write_fresh Getenv ParseFloat F k _ salt aead); [exact Hop | exact HfR | done | done | lia]|].
  intros [n err] w [Hrel Hres]. destruct Hrel as [-> Hrel'].
  { apply corked_reliable. by apply timedCork_reliable. }
  destruct (Hres eq_refl) as (_ & Hsalts & cs & Hcs & w' & _ & _ & _ & _ & Hok & _ & Hout). wp_step.
  split; [|split; [exact Hd' | exact Hsalts]]. split; [exact Hs|].
  exists (conn_of w), cs. split; [done|]. split; [exact Hrel'|]. split; [exact Hok|]. split; [exact Hcs|].
  rewrite Hout. cbn. unfold accepted. by rewrite pending_nil, app_nil_r by done.
Qed.

End Local.

(** ** The server side *)

Section Server.
Context {G : Type} `{Reader G}.
Context {B : Type} `{BloomLaws B}.
(** The tunnel's connection and the target's. *)
Context {C : Type} `{Duplex C}.
Context {T : Type}.
Variable Getenv : bytes -> bytes.
Variable ParseFloat : bytes -> option float64.
Variable dial : bytes -> T + error.

Abbreviation reader := (stream_Reader (G := G) (B := B) (C := corkedConn (C := C)) Getenv ParseFloat).
Abbreviation server := (server_conn (G := G) (B := B) (C := C) (R := T) Getenv ParseFloat dial).

(** The process takes the session that starts with [salt]: it is new, and the cipher makes [aead] of it. *)
Record can_accept (a : Cipher) (p : process G B) (salt : bytes) (aead : AEAD) : Prop := {
  ca_salts : salts_wf (p_salts p);
  ca_new : known_salt salt (p_salts p) = false;
  ca_laws : AEADLaws aead;
  ca_size : len salt = SaltSize a;
  ca_dec : Decrypter a salt = Ret (inl aead) tt
}.

(** The tunnel's stream is what its records hold. *)
Lemma server_tunnel_delivers F k a p salt aead c chunks e :
  can_accept a p salt aead -> Forall chunk_ok chunks ->
  delivers F k c (salt ++ encode aead (zeros (NonceSize aead)) chunks) e ->
  @delivers _ reader (S (Nat.max F k)) (S (length (concat chunks) + length chunks))
    (server_tunnel (aeadCipher (Some a)) c, p) (concat chunks) e.
Proof.
  intros [? Hnew ? ? ?] Hok Hd. apply shadowed_delivers.
  apply (awaiting_records Getenv ParseFloat F k _ salt aead); [by constructor | exact Hnew | exact Hok |].
  apply corked_delivers. exact Hd.
Qed.

(** Reading the tunnel leaves the counters alone. *)
Lemma read_keeps_stats x b :
  keeps (fun s : stream (corkedConn (C := C)) * process G B => p_stats s.2 = x) (reader b).
Proof.
  intros f [st p] r [st' p'] _ Hx. unfold stream_Reader, on_stream. destruct st as [c|sc|c]; [| |done].
  - destruct (read b f c) as [a c'|]; [|done]. by intros [= <- <- <-].
  - destruct (streamConn_Read (G := G) (B := B) Getenv ParseFloat b f _) as [a w|]; [|done]. by intros [= <- <- <-].
Qed.

(** The counters do not matter to reading. *)
Lemma read_any_stats b f st p x :
  reader b f (st, set_p_stats x p) =
    match reader b f (st, p) with
    | Ret r (st', p') => Ret r (st', set_p_stats x p')
    | Halt h (st', p') => Halt h (st', set_p_stats x p')
    end.
Proof.
  unfold stream_Reader, on_stream. destruct st as [c|sc|c]; [by destruct (read b f c)| |done].
  change (p_salts (set_p_stats x p)) with (p_salts p). change (p_rand (set_p_stats x p)) with (p_rand p).
  by destruct (streamConn_Read Getenv ParseFloat b f _).
Qed.

Lemma exhausted_any_stats F st p x e :
  @exhausted _ reader F (st, p) e -> @exhausted _ reader F (st, set_p_stats x p) e.
Proof.
  intros (P & HP & Hr).
  exists (fun '(st, q) => exists p, P (st, p) /\ q = set_p_stats x p). split; [by exists p|].
  clear st p HP. intros [st q] b f (p & HP & ->) Hb Hf. specialize (Hr (st, p) b f HP Hb Hf). revert Hr.
  unfold wp, read. rewrite read_any_stats. destruct (reader b f (st, p)) as [[[b' n] er] [st' p']|]; [|done].
  intros (? & ? & ? & ?). repeat split; try done. by exists p'.
Qed.

Lemma delivers_any_stats F k st p x bs e :
  @delivers _ reader F k (st, p) bs e -> @delivers _ reader F k (st, set_p_stats x p) bs e.
Proof.
  revert st p bs. induction k as [|k IH]; intros st p bs Hd; [done|]. cbn [delivers] in *.
  intros b f Hb Hf. specialize (Hd b f Hb Hf). revert Hd. unfold wp, read. rewrite read_any_stats.
  destruct (reader b f (st, p)) as [[[b' n] er] [st' p']|]; [|done].
  intros (chunk & rest & ? & ? & ? & ? & ? & Her). exists chunk, rest. repeat split; try done.
  destruct er as [e'|]; [|by apply IH].
  destruct Her as (? & ? & ?). repeat split; try done. by apply exhausted_any_stats.
Qed.

Lemma server_conn_run F k a p salt aead c chunks e t rest f :
  can_accept a p salt aead -> Forall chunk_ok chunks -> target_wf t ->
  concat chunks = encode_target t ++ rest ->
  delivers F k c (salt ++ encode aead (zeros (NonceSize aead)) chunks) e ->
  (F < f)%nat -> (k < f)%nat -> (length (concat chunks) + length chunks + 1 < f)%nat ->
  wp server f (server_tunnel (aeadCipher (Some a)) c, p) (fun r s =>
    match dial (target_text t) with
    | inl tc => r = RelayServer tc /\ p_stats s.2 = p_stats (count_request p)
    | inr err => r = NotConnected err /\ p_stats s.2 = p_stats p
    end /\
    @delivers _ reader (S (Nat.max F k)) (S (length (concat chunks) + length chunks)) s rest e).
Proof.
  intros Hacc Hok Hwf Hcat Hd HF Hk Hlen.
  pose proof (server_tunnel_delivers F k a p salt aead c chunks e Hacc Hok Hd) as Hdel.
  unfold server_conn. wp_step.
  eapply wp_mono.
  { apply (wp_keeps (fun s => p_stats s.2 = p_stats p)); [apply ReadAddr_keeps; intros q _; apply read_keeps_stats | done |].
    eapply ReadAddr_run; [exact Hdel | lia | lia]. }
  intros [tgt err] [st p'] [Hres Hstats]. cbn [snd] in Hstats. rewrite Hcat, SplitAddr_encode in Hres by done.
  destruct Hres as (-> & -> & Hrest). rewrite drop_app_length, <- Hcat in Hrest. wp_step.
  cbn [default]. change (id (encode_target t)) with (encode_target t).
  eapply wp_mono; [by apply Addr_String_run|]. intros text s (-> & ->).
  destruct (dial (target_text t)) as [tc|e'] eqn:Hdial.
  - wp_step. wp_step. wp_step. split; [split; [done|]|].
    + cbn. unfold count_request. by rewrite Hstats.
    + by apply delivers_any_stats.
  - by wp_step.
Qed.

End Server.

(** ** Both ends *)

Section Proxy.
Context {G : Type} `{Reader G}.
Context {B : Type} `{BloomLaws B}.
(** The client, the tunnel at the local end, the tunnel at the server's end, and the target. *)
Context {C : Type} `{Duplex C}.
Context {R : Type} `{Duplex R}.
Context {S : Type} `{Duplex S}.
Context {T : Type}.
Variable Getenv : bytes -> bytes.
Variable ParseFloat : bytes -> option float64.
Variable dial_remote : bytes -> R + error.
Variable dial_target : bytes -> T + error.

Abbreviation local := (local_conn (G := G) (B := B) (C := C) (R := R) Getenv ParseFloat dial_remote).
Abbreviation server := (server_conn (G := G) (B := B) (C := S) (R := T) Getenv ParseFloat dial_target).
Abbreviation tunnel_reader := (stream_Reader (G := G) (B := B) (C := corkedConn (C := S)) Getenv ParseFloat).

(** C6. The proxy connects its client to the target it asked for. A client that asks the local side
    for a connection to [t], with whatever versions and methods, gets its two replies, and
    the local side starts to relay what the client sent after its request; it has given its tunnel
    a salt and the records of the address, in full. A server that receives these bytes, cut up in any
    way, and further records, with the same session AEAD and a salt it does not know,
    dials exactly the text of [t] and nothing else, and what its tunnel then delivers is exactly the
    payload of the further records. *)
Theorem proxy_reaches_target F k la (c : C) (p : process G B) e f v methods v' rsv t rest
    a salt aead remote (rc : R) :
  accepts c -> len methods <= 255 -> target_wf t ->
  delivers F k c (connect_request v v' rsv methods t rest) e ->
  dial_remote remote = inl rc -> reliable rc -> can_open F k a p salt aead ->
  enough_fuel (C := C) (R := R) F k f ->
  wp (local (HandShake false (Some la)) (aeadCipher (Some a)) remote) f (c, p) (fun r '(c', _) =>
    written c' = written c ++ method_reply ++ connect_reply /\ delivers F k c' rest e /\
    exists sc cs, r = RelayLocal (Some (encode_target t)) (Shadowed sc) /\
      written (Conn sc) = written rc ++ salt ++ encode aead (zeros (NonceSize aead)) cs /\
      forall F' k' (s : S) (q : process G B) a' more e' g,
        can_accept a' q salt aead -> Forall chunk_ok more ->
        delivers F' k' s (salt ++ encode aead (zeros (NonceSize aead)) (cs ++ more)) e' ->
        (F' < g)%nat -> (k' < g)%nat -> (length (concat (cs ++ more)) + length (cs ++ more) + 1 < g)%nat ->
        wp server g (server_tunnel (aeadCipher (Some a')) s, q) (fun r' s' =>
          match dial_target (target_text t) with
          | inl tc => r' = RelayServer tc /\ p_stats s'.2 = p_stats (count_request q)
          | inr err => r' = NotConnected err /\ p_stats s'.2 = p_stats q
          end /\
          exists k'', @delivers _ tunnel_reader (Datatypes.S (Nat.max F' k')) k'' s' (concat more) e')).
Proof.
  intros Hacc Hm Hwf Hd Hdial Hrc Hopen Hfuel.
  eapply wp_mono; [by eapply local_conn_run|].
  intros r [c' p'] ([[_ Hw] (sc & cs & Hr & _ & Hok & Hcs & Hout)] & Hd' & _).
  split; [exact Hw|]. split; [exact Hd'|]. exists sc, cs. split; [exact Hr|]. split; [exact Hout|].
  intros F' k' s q a' more e' g Hca Hmore Hds HF' Hk' Hg.
  eapply wp_mono.
  { eapply (server_conn_run Getenv ParseFloat dial_target F' k' a' q salt aead s (cs ++ more) e' t (concat more));
      [exact Hca | by apply Forall_app | exact Hwf | by rewrite concat_app, Hcs | exact Hds | done..]. }
  intros r' s' [Hres Hdel]. split; [exact Hres | by eexists].
Qed.

End Proxy.

(** ** Witnesses *)

Definition toy_process : process buffer list_bloom :=
  {| p_salts := small_salts; p_rand := toy_salt ++ str "more"; p_stats := {| ReqNum := 0; CoNum := 0 |} |}.

Definition remote_conn : conn := idle_conn [].

Definition only_remote (address : bytes) : conn + error :=
  if decide (address = str "server:8010") then inl remote_conn else inr broken_pipe.

Definition only_target (address : bytes) : bool + error :=
  if decide (address = target_text example_target) then inl true else inr broken_pipe.

Lemma toy_can_open : can_open 0 21 toy_Cipher toy_process toy_salt toy_AEAD.
Proof.
  constructor; [apply small_salts_wf | apply toy_AEAD_laws | reflexivity | reflexivity |].
  exists (str "more"), EOF. exact (buffer_delivers (toy_salt ++ str "more")).
Qed.

Lemma proxy_reaches_target_witness :
  wp (local_conn no_env no_floats only_remote (HandShake false (Some (str "127.0.0.1:1080")))
        (aeadCipher (Some toy_Cipher)) (str "server:8010")) 400 (client, toy_process) (fun r '(c', _) =>
    written c' = written client ++ method_reply ++ connect_reply /\
    delivers 0 (Nat.max 21 (conn_steps client)) c' (str "early") EOF /\
    exists sc cs, r = RelayLocal (Some (encode_target example_target)) (Shadowed sc) /\
      written (Conn sc) = written remote_conn ++ toy_salt ++ encode toy_AEAD (zeros 12) cs /\
      forall F' k' (s : conn) (q : process buffer list_bloom) a' more e' g,
        can_accept a' q toy_salt toy_AEAD -> Forall chunk_ok more ->
        delivers F' k' s (toy_salt ++ encode toy_AEAD (zeros 12) (cs ++ more)) e' ->
        (F' < g)%nat -> (k' < g)%nat -> (length (concat (cs ++ more)) + length (cs ++ more) + 1 < g)%nat ->
        wp (server_conn no_env no_floats only_target) g
          (server_tunnel (aeadCipher (Some a')) s, q) (fun r' s' =>
          match only_target (target_text example_target) with
          | inl tc => r' = RelayServer tc /\ p_stats s'.2 = p_stats (count_request q)
          | inr err => r' = NotConnected err /\ p_stats s'.2 = p_stats q
          end /\
          exists k'', @delivers _ (stream_Reader no_env no_floats) (S (Nat.max F' k')) k'' s' (concat more) e')).
Proof.
  apply (proxy_reaches_target no_env no_floats only_remote only_target 0 (Nat.max 21 (conn_steps client))
    (str "127.0.0.1:1080") client toy_process EOF 400 x05 [x00] x05 x00 example_target (str "early")
    toy_Cipher toy_salt toy_AEAD (str "server:8010") remote_conn (conn_accepts client eq_refl)).
  - vm_compute. discriminate.
  - vm_compute. intuition discriminate.
  - apply (delivers_mono 0 0 (conn_steps client)); [lia | lia | exact (conn_delivers client)].
  - reflexivity.
  - by apply conn_reliable.
  - destruct toy_can_open as [? ? ? ? (more & e & Hd)]. constructor; try done. exists more, e.
    apply (delivers_mono 0 0 21); [lia | lia | exact Hd].
  - repeat split; (apply Nat.leb_le || apply Nat.ltb_lt); vm_compute; reflexivity.
Defined.
