(* ===== verification/Server.v ===== *)
(** The server of m_server (server.go) and its accept loops (socks_server.go): what is configured, what
    is started for an accepted connection, how accept errors are retried, and shutting down.

    [net.Listener], [net.Listen] and the target of [os.Exit] are the operating system's:
    [Listener] is a type class. What the loop does beside changing the server - the goroutines it
    starts and the pauses it makes - is kept as a log. *)

From Stdlib Require Import ZArith Lia.
From stdpp Require Import base decidable list numbers strings.
From S2P Require Import Prelude GoIO GoNet GoMd5 SocksAddr SocksHandshake ShadowCipher Cork Core Config Serve.

(** [l.Accept()], and [l.Close()], which gives an error or none. *)
Class Listener (L C : Type) := {
  accept : M L (C + error);
  close_listener : M L (option error)
}.

(** ** The server *)

Section Server.
Context {L : Type}.

Record Server := {
  s_Addr : bytes;
  s_Cipher : option core_Cipher;
  s_ReadTimeout : Z;
  s_WriteTimeout : Z;
  s_TlsHandshakeTimeout : Z;
  s_GracefulShutdownTimeout : Z;
  s_CloseNotifyCh : option bool;  (** the channel, if made, and whether it is closed *)
  s_listener : option L;
  s_connWaitGroup : Z;
  s_Config : Conf;
  s_ConfRoot : bytes;
  s_stats : Stats;
  s_Version : bytes
}.

(** [new(Server)]. *)
Definition new_Server : Server :=
  {| s_Addr := []; s_Cipher := None; s_ReadTimeout := 0; s_WriteTimeout := 0;
     s_TlsHandshakeTimeout := 0; s_GracefulShutdownTimeout := 0; s_CloseNotifyCh := None;
     s_listener := None; s_connWaitGroup := 0; s_Config := zero_Conf; s_ConfRoot := [];
     s_stats := {| ReqNum := 0; CoNum := 0 |}; s_Version := [] |}.

Definition set_Addr_timeouts (addr : bytes) (rt gt : Z) (s : Server) : Server :=
  {| s_Addr := addr; s_Cipher := s_Cipher s; s_ReadTimeout := rt; s_WriteTimeout := s_WriteTimeout s;
     s_TlsHandshakeTimeout := s_TlsHandshakeTimeout s; s_GracefulShutdownTimeout := gt;
     s_CloseNotifyCh := s_CloseNotifyCh s; s_listener := s_listener s;
     s_connWaitGroup := s_connWaitGroup s; s_Config := s_Config s; s_ConfRoot := s_ConfRoot s;
     s_stats := s_stats s; s_Version := s_Version s |}.

Definition set_config (cfg : Conf) (root : bytes) (s : Server) : Server :=
  {| s_Addr := s_Addr s; s_Cipher := s_Cipher s; s_ReadTimeout := s_ReadTimeout s;
     s_WriteTimeout := s_WriteTimeout s; s_TlsHandshakeTimeout := s_TlsHandshakeTimeout s;
     s_GracefulShutdownTimeout := s_GracefulShutdownTimeout s; s_CloseNotifyCh := s_CloseNotifyCh s;
     s_listener := s_listener s; s_connWaitGroup := s_connWaitGroup s; s_Config := cfg; s_ConfRoot := root;
     s_stats := s_stats s; s_Version := s_Version s |}.

Definition set_Cipher (k : option core_Cipher) (s : Server) : Server :=
  {| s_Addr := s_Addr s; s_Cipher := k; s_ReadTimeout := s_ReadTimeout s;
     s_WriteTimeout := s_WriteTimeout s; s_TlsHandshakeTimeout := s_TlsHandshakeTimeout s;
     s_GracefulShutdownTimeout := s_GracefulShutdownTimeout s; s_CloseNotifyCh := s_CloseNotifyCh s;
     s_listener := s_listener s; s_connWaitGroup := s_connWaitGroup s; s_Config := s_Config s;
     s_ConfRoot := s_ConfRoot s; s_stats := s_stats s; s_Version := s_Version s |}.

Definition set_notify_stats (ch : option bool) (st : Stats) (version : bytes) (s : Server) : Server :=
  {| s_Addr := s_Addr s; s_Cipher := s_Cipher s; s_ReadTimeout := s_ReadTimeout s;
     s_WriteTimeout := s_WriteTimeout s; s_TlsHandshakeTimeout := s_TlsHandshakeTimeout s;
     s_GracefulShutdownTimeout := s_GracefulShutdownTimeout s; s_CloseNotifyCh := ch;
     s_listener := s_listener s; s_connWaitGroup := s_connWaitGroup s; s_Config := s_Config s;
     s_ConfRoot := s_ConfRoot s; s_stats := st; s_Version := version |}.

Definition set_listener (l : option L) (s : Server) : Server :=
  {| s_Addr := s_Addr s; s_Cipher := s_Cipher s; s_ReadTimeout := s_ReadTimeout s;
     s_WriteTimeout := s_WriteTimeout s; s_TlsHandshakeTimeout := s_TlsHandshakeTimeout s;
     s_GracefulShutdownTimeout := s_GracefulShutdownTimeout s; s_CloseNotifyCh := s_CloseNotifyCh s;
     s_listener := l; s_connWaitGroup := s_connWaitGroup s; s_Config := s_Config s;
     s_ConfRoot := s_ConfRoot s; s_stats := s_stats s; s_Version := s_Version s |}.

(** [InitConfig]. A [time.Duration] is an int64. *)
Definition InitConfig (s : Server) : Server :=
  let cfg := cfg_Server (s_Config s) in
  set_Addr_timeouts (colon :: Itoa (Port cfg))
    (if ClientReadTimeout cfg =? 0 then s_ReadTimeout s else i64 (ClientReadTimeout cfg * Second))
    (i64 (cfg_GracefulShutdownTimeout cfg * Second)) s.

Definition NewServer (cfg : Conf) (confRoot version : bytes) : Server :=
  set_notify_stats (Some false) {| ReqNum := 0; CoNum := 0 |} version
    (InitConfig (set_config cfg confRoot new_Server)).

Definition InitSocks (s : Server) : option error := None.

(** [CheckGracefulShutdown]: receiving from a closed channel succeeds. *)
Definition CheckGracefulShutdown (s : Server) : bool :=
  match s_CloseNotifyCh s with Some closed => closed | None => false end.

(** [atomic.AddInt64(&srv.stats.ReqNum, 1)]. *)
Definition server_count (s : Server) : Server :=
  set_notify_stats (s_CloseNotifyCh s)
    {| ReqNum := i64 (ReqNum (s_stats s) + 1); CoNum := CoNum (s_stats s) |} (s_Version s) s.

End Server.
Arguments Server L : clear implicits.

(** ** Shutting down *)

Section Shutdown.
Context {L C : Type} `{Listener L C}.

Definition close_CloseNotifyCh : M (Server L) unit :=
  let! s := get in
  match s_CloseNotifyCh s with
  | None => fail (PanicValue "close of nil channel")
  | Some true => fail CloseOfClosed
  | Some false => put (set_notify_stats (Some true) (s_stats s) (s_Version s) s)
  end.

(** The method call on [srv.listener] panics when it is nil; an error is logged. *)
Definition closeListeners : M (Server L) unit := fun f s =>
  match s_listener s with
  | None => Halt (Panicked NilDereference) s
  | Some l =>
      match close_listener (C := C) f l with
      | Ret _ l => Ret tt (set_listener (Some l) s)
      | Halt h l => Halt h (set_listener (Some l) s)
      end
  end.

(** [ShutdownHandler]. Whichever of the end of the connections and the timer comes first, the process
    exits. *)
Definition ShutdownHandler : M (Server L) unit :=
  close_CloseNotifyCh ;;;
  closeListeners ;;;
  stop (Exited 0).

End Shutdown.

(** ** The accept loops *)

(** What the loops do beside. *)
Inductive event (C : Type) :=
| Started (c : C)
| Slept (d : Z).
Arguments Started {C}.
Arguments Slept {C}.

Section Loops.
Context {L C : Type} `{Listener L C}.
(** [net.Listen("tcp", addr)]. *)
Variable listen : bytes -> L + error.

(** The loop's own listener, the server, and the log. *)
Record serving := { sv_l : L; sv_srv : Server L; sv_log : list (event C) }.

Definition log_event (e : event C) (s : serving) : serving :=
  {| sv_l := sv_l s; sv_srv := sv_srv s; sv_log := sv_log s ++ [e] |}.
Definition set_sv_l (l : L) (s : serving) : serving :=
  {| sv_l := l; sv_srv := sv_srv s; sv_log := sv_log s |}.
Definition set_sv_srv (srv : Server L) (s : serving) : serving :=
  {| sv_l := sv_l s; sv_srv := srv; sv_log := sv_log s |}.

(** [ne, ok := e.(net.Error); ok && ne.Temporary()]. *)
Definition isTemporary (err : error) : bool :=
  match err with NetError _ temporary _ => temporary | _ => false end.

(** A new connection: it is counted and a goroutine is started for it. *)
Definition start_conn (c : C) : M serving unit :=
  modify (fun s => set_sv_srv (server_count (sv_srv s)) s) ;;;
  modify (log_event (Started c)).

Definition ServeLocal_body (tempDelay : Z) : M serving (Z + error) :=
  let! r := zoom sv_l set_sv_l accept in
  match r with
  | inr e =>
      if isTimeout e then ret (inl tempDelay)
      else if isTemporary e then
        let tempDelay := delayCalc tempDelay in
        modify (log_event (Slept tempDelay)) ;;;
        ret (inl tempDelay)
      else
        let! s := get in
        when (CheckGracefulShutdown (sv_srv s))
          (modify (log_event
            (Slept (i64 (cfg_GracefulShutdownTimeout (cfg_Server (s_Config (sv_srv s))) * Second))))) ;;;
        ret (inr e)
  | inl c =>
      start_conn c ;;;
      ret (inl tempDelay)
  end.

(** The body of [ServeServer]'s loop never leaves it. *)
Definition ServeServer_body (u : unit) : M serving (unit + error) :=
  let! r := zoom sv_l set_sv_l accept in
  match r with
  | inr _ => ret (inl tt)
  | inl c =>
      start_conn c ;;;
      ret (inl tt)
  end.

(** A new listener takes the place of the argument [l]: [srv.listener] stays as it was. *)
Definition serve (loop : M serving error) : M (Server L * list (event C)) error := fun f '(s, log) =>
  match listen (s_Addr s) with
  | inr err => Ret err (s, log)
  | inl l =>
      match loop f {| sv_l := l; sv_srv := s; sv_log := log |} with
      | Ret e v => Ret e (sv_srv v, sv_log v)
      | Halt h v => Halt h (sv_srv v, sv_log v)
      end
  end.

Definition ServeLocal (l : option L) : M (Server L * list (event C)) error :=
  serve (iter ServeLocal_body 0).
Definition ServeServer (l : option L) : M (Server L * list (event C)) error :=
  serve (iter ServeServer_body tt).

(** [shadow := s.Cipher.StreamConn] evaluates the interface: nil panics. *)
Definition ServeSocks (which : option L -> M (Server L * list (event C)) error)
    : M (Server L * list (event C)) error := fun f '(s, log) =>
  match s_Cipher s with
  | None => Halt (Panicked NilDereference) (s, log)
  | Some _ => which (s_listener s) f (s, log)
  end.

Definition ServeSocksLocal : M (Server L * list (event C)) error := ServeSocks ServeLocal.
Definition ServeSocksServer : M (Server L * list (event C)) error := ServeSocks ServeServer.

(** [Start]: the goroutine's result is waited for. The state is the server once it is made. *)
Variable unicode_ToUpper : Z -> Z.
Variable hkdf_sha1 : forall (secret salt info : bytes) (n : Z), bytes + error.
Variable gcm_of_aes : bytes -> AEAD.
Variable chacha20poly1305_New : bytes -> AEAD + error.

Definition Start (cfg : Conf) (version confRoot : bytes) : M (Server L * list (event C)) (option error) :=
  put (NewServer cfg confRoot version, []) ;;;
  let! '(ciph, err) := PickCipher unicode_ToUpper hkdf_sha1 gcm_of_aes chacha20poly1305_New
                         (cfg_Cipher (cfg_Server cfg)) [] (str "password") in
  match err with
  | Some e => ret (Some e)
  | None =>
      modify (fun '(s, log) => (set_Cipher ciph s, log)) ;;;
      let! err := (if Local (cfg_Server cfg) then ServeSocksLocal else ServeSocksServer) in
      ret (Some err)
  end.

End Loops.
Arguments serving L C : clear implicits.

(** ** Correctness: serving *)

Section ServeProofs.
Context {L C : Type} `{Listener L C}.
Variable listen : bytes -> L + error.

(** [l] gives the results [rs] to as many accepts, and is [l'] then. *)
Inductive gives : L -> list (C + error) -> L -> Prop :=
| gives_nil l : gives l [] l
| gives_cons l r l1 rs l2 :
    (forall f, accept f l = Ret r l1) -> gives l1 rs l2 -> gives l (r :: rs) l2.

(** The connections and the temporary errors among accept results. *)
Definition conns (rs : list (C + error)) : list C := omap (fun r => match r with inl c => Some c | _ => None end) rs.
Definition retried (r : C + error) : bool :=
  match r with inl _ => false | inr e => negb (isTimeout e) && isTemporary e end.
Definition temporaries (rs : list (C + error)) : nat := length (List.filter retried rs).

(** An accept result after which [ServeLocal] goes on. *)
Definition passing (r : C + error) : Prop :=
  match r with inl _ => True | inr e => isTimeout e = true \/ isTemporary e = true end.
Definition fatal (e : error) : Prop := isTimeout e = false /\ isTemporary e = false.

(** The goroutines started and the pauses made. *)
Definition starts (log : list (event C)) : list C :=
  omap (fun e => match e with Started c => Some c | _ => None end) log.
Definition pauses (log : list (event C)) : list Z :=
  omap (fun e => match e with Slept d => Some d | _ => None end) log.

(** [k] pauses in a row, after a first one of [d]. *)
Fixpoint backoff (d : Z) (k : nat) : list Z :=
  match k with
  | O => []
  | S k => delayCalc d :: backoff (delayCalc d) k
  end.

Lemma backoff_from j k :
  backoff (Nat.iter j delayCalc 0) k
  = map (fun i => Z.min (5 * Millisecond * 2 ^ Z.of_nat i) Cork.Second) (seq j k).
Proof.
  revert j. induction k as [|k IH]; intros j; [done|]. cbn [backoff seq map].
  change (delayCalc (Nat.iter j delayCalc 0)) with (Nat.iter (S j) delayCalc 0).
  by rewrite IH, delayCalc_iter.
Qed.

Definition shutdown_pause (s : Server L) : list Z :=
  if CheckGracefulShutdown s
  then [i64 (cfg_GracefulShutdownTimeout (cfg_Server (s_Config s)) * Cork.Second)] else [].

Definition accepted_conn (c : C) (l1 : L) (v : serving L C) : serving L C :=
  {| sv_l := l1; sv_srv := server_count (sv_srv v); sv_log := sv_log v ++ [Started c] |}.

(** One turn of [ServeLocal] and of [ServeServer]. *)
Lemma ServeLocal_accepted f v c l1 d :
  accept f (sv_l v) = Ret (inl c) l1 ->
  ServeLocal_body d f v = Ret (inl d) (accepted_conn c l1 v).
Proof. intros Ha. unfold ServeLocal_body, bind, zoom. by rewrite Ha. Qed.

Lemma ServeLocal_failed f v e l1 d :
  accept f (sv_l v) = Ret (inr e) l1 ->
  ServeLocal_body d f v =
    if isTimeout e then Ret (inl d) (set_sv_l l1 v)
    else if isTemporary e
         then Ret (inl (delayCalc d)) (log_event (Slept (delayCalc d)) (set_sv_l l1 v))
         else Ret (inr e) {| sv_l := l1; sv_srv := sv_srv v;
                             sv_log := sv_log v ++ map Slept (shutdown_pause (sv_srv v)) |}.
Proof.
  intros Ha. unfold ServeLocal_body, bind, zoom. rewrite Ha.
  destruct (isTimeout e); [done|]. destruct (isTemporary e); [done|].
  unfold get, when, shutdown_pause. cbn [sv_srv set_sv_l]. destruct (CheckGracefulShutdown _); [done|].
  cbn [map]. by rewrite app_nil_r.
Qed.

Lemma ServeServer_turn f v r l1 u :
  accept f (sv_l v) = Ret r l1 ->
  ServeServer_body u f v =
    Ret (inl tt) (match r with inl c => accepted_conn c l1 v | inr _ => set_sv_l l1 v end).
Proof. intros Ha. unfold ServeServer_body, bind, zoom. rewrite Ha. by destruct r. Qed.

Lemma starts_app l1 l2 : starts (l1 ++ l2) = starts l1 ++ starts l2.
Proof. apply omap_app. Qed.
Lemma pauses_app l1 l2 : pauses (l1 ++ l2) = pauses l1 ++ pauses l2.
Proof. apply omap_app. Qed.
Lemma starts_slept l : starts (map Slept l) = [].
Proof. by induction l. Qed.
Lemma pauses_slept l : pauses (map (Slept (C := C)) l) = l.
Proof. induction l as [|d l IH]; [done|]. cbn. by f_equal. Qed.

Lemma ServeLocal_loop f e l' rs d n (v : serving L C) :
  gives (sv_l v) (rs ++ [inr e]) l' -> Forall passing rs -> fatal e -> (length rs < n)%nat ->
  exists v', iter_n n ServeLocal_body d f v = Ret e v' /\
    sv_srv v' = Nat.iter (length (conns rs)) server_count (sv_srv v) /\
    starts (sv_log v') = starts (sv_log v) ++ conns rs /\
    pauses (sv_log v') = pauses (sv_log v) ++ backoff d (temporaries rs) ++ shutdown_pause (sv_srv v).
Proof.
  revert d n v. induction rs as [|r rs IH]; intros d n v Hg Hp Hfatal Hn;
    (destruct n as [|n]; [lia|]); inversion Hg as [|l r' l1 rs' l2 Hacc Hg']; subst; cbn [iter_n].
  - rewrite (ServeLocal_failed _ _ _ _ _ (Hacc f)). destruct Hfatal as [-> ->]. eexists. split; [done|].
    cbn [sv_srv sv_log]. rewrite starts_app, pauses_app, starts_slept, pauses_slept. done.
  - inversion Hp as [|? ? Hr Hp']; subst. destruct r as [c|e1].
    + rewrite (ServeLocal_accepted _ _ _ _ _ (Hacc f)).
      destruct (IH d n (accepted_conn c l1 v) Hg' Hp' Hfatal) as (v' & Hv & Hsrv & Hst & Hpa); [cbn in Hn; lia|].
      exists v'. split; [exact Hv|]. cbn [sv_srv sv_log accepted_conn] in *. rewrite starts_app in Hst.
      rewrite pauses_app, app_nil_r in Hpa. change (shutdown_pause (server_count (sv_srv v))) with (shutdown_pause (sv_srv v)) in Hpa.
      split; [|split; [by rewrite Hst, <- app_assoc | exact Hpa]].
      rewrite Hsrv. cbn. by rewrite <- Nat.iter_succ_r.
    + rewrite (ServeLocal_failed _ _ _ _ _ (Hacc f)). unfold temporaries, conns. cbn [omap list_omap List.filter retried].
      fold (conns rs). destruct (isTimeout e1) eqn:Et; cbn [negb andb].
      * apply (IH d n (set_sv_l l1 v)); [done | done | done | cbn in Hn; lia].
      * assert (isTemporary e1 = true) as Htemp by (by destruct Hr; congruence). rewrite Htemp.
        destruct (IH (delayCalc d) n (log_event (Slept (delayCalc d)) (set_sv_l l1 v)) Hg' Hp' Hfatal)
          as (v' & Hv & Hsrv & Hst & Hpa); [cbn in Hn; lia|].
        exists v'. split; [exact Hv|]. cbn [sv_srv sv_log log_event set_sv_l] in *.
        rewrite starts_app, app_nil_r in Hst. rewrite pauses_app, <- app_assoc in Hpa. done.
Qed.

Lemma ServeServer_loop f rs l' (v : serving L C) :
  gives (sv_l v) rs l' ->
  exists v', iter_n (length rs) ServeServer_body tt f v = Halt OutOfFuel v' /\
    sv_srv v' = Nat.iter (length (conns rs)) server_count (sv_srv v) /\
    sv_log v' = sv_log v ++ map Started (conns rs).
Proof.
  revert v. induction rs as [|r rs IH]; intros v Hg.
  { exists v. cbn. by rewrite app_nil_r. }
  inversion Hg as [|l r' l1 rs' l2 Hacc Hg']; subst. cbn [List.length iter_n].
  rewrite (ServeServer_turn _ _ _ _ _ (Hacc f)). destruct r as [c|e].
  - destruct (IH (accepted_conn c l1 v) Hg') as (v' & Hv & Hsrv & Hlog). exists v'. split; [exact Hv|].
    cbn [sv_srv sv_log accepted_conn] in *. split; [rewrite Hsrv; cbn; by rewrite <- Nat.iter_succ_r|].
    by rewrite Hlog, <- app_assoc.
  - apply (IH (set_sv_l l1 v) Hg').
Qed.

(** C25. [ServeLocal] serves until an accept error is neither a timeout nor temporary, and then returns
    that error. It starts one goroutine for each connection accepted, in order, and counts
    it; it retries timeouts at once and temporary errors after pauses that grow from 5 ms to a
    second over the life of the server, connections accepted in between or not; while shutting down it
    waits out the grace period before it returns. The server's [listener] is never set. *)
Theorem ServeLocal_serves (s : Server L) log l rs e l' any f :
  listen (s_Addr s) = inl l -> gives l (rs ++ [inr e]) l' -> Forall passing rs -> fatal e ->
  (length rs < f)%nat ->
  exists s' log', ServeLocal listen any f (s, log) = Ret e (s', log') /\
    s' = Nat.iter (length (conns rs)) server_count s /\ s_listener s' = s_listener s /\
    starts log' = starts log ++ conns rs /\
    pauses log' = pauses log ++
      map (fun i => Z.min (5 * Millisecond * 2 ^ Z.of_nat i) Cork.Second) (seq 0 (temporaries rs)) ++
      shutdown_pause s.
Proof.
  intros Hl Hg Hp Hfatal Hf.
  destruct (ServeLocal_loop f e l' rs 0 f {| sv_l := l; sv_srv := s; sv_log := log |} Hg Hp Hfatal Hf)
    as (v' & Hv & Hsrv & Hst & Hpa).
  exists (sv_srv v'), (sv_log v'). unfold ServeLocal, serve, iter. rewrite Hl, Hv. split; [done|].
  split; [exact Hsrv|]. split.
  { rewrite Hsrv. clear. by induction (length (conns rs)). }
  split; [exact Hst|]. cbn [sv_srv sv_log] in Hpa. by rewrite Hpa, (backoff_from 0).
Qed.

(** C34. [ServeServer] never returns once it listens: it has started a goroutine for each connection
    accepted, in order, but after any number of accept results, errors of whatever kind among
    them, it accepts again, at once, without a pause and without asking whether
    the server is shutting down. *)
Theorem ServeServer_never_returns (s : Server L) log l any :
  listen (s_Addr s) = inl l ->
  (forall f e s', ServeServer listen any f (s, log) <> Ret e s') /\
  (forall rs l', gives l rs l' -> exists s', s' = Nat.iter (length (conns rs)) server_count s /\
     ServeServer listen any (length rs) (s, log) = Halt OutOfFuel (s', log ++ map Started (conns rs))).
Proof.
  intros Hl. unfold ServeServer, serve, iter. rewrite Hl. split.
  - intros f e s' Hr. revert Hr. generalize {| sv_l := l; sv_srv := s; sv_log := log |}.
    generalize f at 2. generalize tt. induction f as [|f IH]; intros [] g v; [done|].
    cbn [iter_n]. destruct (ServeServer_body tt g v) as [[[]|e'] v'|h v'] eqn:E; [by apply IH | | done].
    exfalso. revert E. unfold ServeServer_body, bind, zoom.
    destruct (accept g (sv_l v)) as [[c|e1] l1|]; done.
  - intros rs l' Hg.
    destruct (ServeServer_loop (length rs) rs l' {| sv_l := l; sv_srv := s; sv_log := log |} Hg)
      as (v' & Hv & Hsrv & Hlog).
    rewrite Hv. exists (sv_srv v'). split; [exact Hsrv|]. by rewrite Hlog.
Qed.

End ServeProofs.

(** ** Correctness: starting and shutting down *)

Section StartProofs.
Context {L C : Type} `{Listener L C}.
Variable listen : bytes -> L + error.
Variable unicode_ToUpper : Z -> Z.
Variable hkdf_sha1 : forall (secret salt info : bytes) (n : Z), bytes + error.
Variable gcm_of_aes : bytes -> AEAD.
Variable chacha20poly1305_New : bytes -> AEAD + error.
Hypothesis hkdf_ok : forall secret salt info n,
  0 <= n <= 255 * 20 -> exists key, hkdf_sha1 secret salt info n = inl key /\ len key = n.
Hypothesis chacha_ok : forall key, len key = 32 -> exists a, chacha20poly1305_New key = inl a.

Abbreviation state := (Server L * list (event C))%type.
Abbreviation start := (Start listen unicode_ToUpper hkdf_sha1 gcm_of_aes chacha20poly1305_New).

Section Counting.
Variable P : Server L -> Prop.
Hypothesis count_keeps : forall s, P s -> P (server_count s).

Lemma accept_stays : stays (fun v : serving L C => P (sv_srv v)) (zoom sv_l set_sv_l accept).
Proof. apply (stays_zoom _ (fun _ => True)); [done | done |]. by intros f s. Qed.

Lemma start_conn_stays c : stays (fun v : serving L C => P (sv_srv v)) (start_conn c).
Proof.
  apply stays_bind; [|intros _]; apply stays_modify; [|done]. intros v. apply count_keeps.
Qed.

Lemma ServeLocal_body_stays d : stays (fun v : serving L C => P (sv_srv v)) (ServeLocal_body d).
Proof.
  apply stays_bind; [apply accept_stays|]. intros [c|e].
  - apply stays_bind; [apply start_conn_stays | intros _; apply stays_ret].
  - destruct (isTimeout e); [apply stays_ret|]. destruct (isTemporary e).
    + apply stays_bind; [by apply stays_modify | intros _; apply stays_ret].
    + apply stays_bind; [apply stays_get|]. intros v.
      apply stays_bind; [by apply stays_when, stays_modify | intros _; apply stays_ret].
Qed.

Lemma ServeServer_body_stays u : stays (fun v : serving L C => P (sv_srv v)) (ServeServer_body u).
Proof.
  apply stays_bind; [apply accept_stays|]. intros [c|e]; [|apply stays_ret].
  apply stays_bind; [apply start_conn_stays | intros _; apply stays_ret].
Qed.

(** Serving changes nothing of the server but its counters. *)
Lemma serve_stays loop :
  stays (fun v : serving L C => P (sv_srv v)) loop -> stays (fun s : state => P s.1) (serve listen loop).
Proof.
  intros Hl f [s log] HP. unfold serve. destruct (listen (s_Addr s)) as [l|e]; [|exact HP].
  specialize (Hl f {| sv_l := l; sv_srv := s; sv_log := log |} HP). by destruct (loop f _).
Qed.

Lemma ServeSocks_stays which :
  (forall any, stays (fun s : state => P s.1) (which any)) ->
  stays (fun s : state => P s.1) (ServeSocks which).
Proof.
  intros Hw f [s log] HP. unfold ServeSocks. destruct (s_Cipher s); [by apply Hw | exact HP].
Qed.

Lemma serving_stays (b : bool) :
  stays (fun s : state => P s.1) (if b then ServeSocksLocal listen else ServeSocksServer listen).
Proof.
  destruct b; apply ServeSocks_stays; intros any; apply serve_stays, stays_iter;
    [exact ServeLocal_body_stays | exact ServeServer_body_stays].
Qed.

End Counting.

(** The server [Start] has made, once it has a cipher or has failed to get one. *)
Definition started (cfg : Conf) (version root : bytes) (k : option core_Cipher) (s : Server L) : Prop :=
  exists n, s = Nat.iter n server_count (set_Cipher k (NewServer cfg root version)).

(** The cipher [Start] picks, and its error. *)
Definition start_cipher (name : bytes) (k : option core_Cipher) (err : option error) : Prop :=
  let upper := ToUpper unicode_ToUpper name in
  if decide (upper = str "DUMMY") then k = Some dummy /\ err = None
  else match aeadList hkdf_sha1 gcm_of_aes chacha20poly1305_New !! cipher_alias upper with
       | None => k = None /\ err = Some ErrCipherNotSupported
       | Some (size, New) => err = None /\ exists a, k = Some (aeadCipher (Some a)) /\
           New (derived_key (str "password") size) = inl a
       end.

Lemma Start_run cfg version root f st :
  (32 < f)%nat ->
  exists k err, start_cipher (cfg_Cipher (cfg_Server cfg)) k err /\
    started cfg version root k (state_after (start cfg version root f st)).1 /\
    (err <> None -> exists s, start cfg version root f st = Ret err s).
Proof.
  intros Hf. unfold Start, bind, put.
  set (s0 := NewServer cfg root version).
  pose proof (PickCipher_run unicode_ToUpper hkdf_sha1 gcm_of_aes chacha20poly1305_New hkdf_ok chacha_ok
    (cfg_Cipher (cfg_Server cfg)) [] (str "password") f (s0, [] : list (event C)) Hf) as Hpick.
  unfold wp in Hpick. destruct (PickCipher _ _ _ _ _ _ _ f _) as [[k err] s1|h s1]; [|done].
  destruct Hpick as [-> Hpick]. exists k, err.
  assert (start_cipher (cfg_Cipher (cfg_Server cfg)) k err) as Hk.
  { unfold start_cipher. destruct (decide _); [exact Hpick|].
    destruct (_ !! _) as [[size New]|] eqn:El; [|exact Hpick].
    destruct (decide ([] = [] :> bytes)) as [_|]; [|done].
    destruct (aeadList_entry hkdf_sha1 gcm_of_aes chacha20poly1305_New hkdf_ok chacha_ok _ _ _ El)
      as [Hsize _].
    rewrite decide_True in Hpick by (apply derived_key_len; lia).
    destruct Hpick as (-> & a & -> & Ha & _). eauto. }
  split; [exact Hk|]. destruct err as [e|].
  - split; [|by eexists]. exists O. unfold start_cipher in Hk.
    destruct (decide _); [by destruct Hk as [_ [=]]|].
    destruct (_ !! _) as [[size New]|]; [by destruct Hk as [[=] _]|].
    by destruct Hk as [-> _].
  - split; [|done].
    pose proof (serving_stays (started cfg version root k)
      ltac:(by intros s [n ->]; exists (S n)) (Local (cfg_Server cfg)) f (set_Cipher k s0, [])
      ltac:(by exists O)) as Hs.
    unfold modify. cbn beta iota.
    destruct (Local (cfg_Server cfg));
      [destruct (ServeSocksLocal listen f (set_Cipher k s0, []))
      |destruct (ServeSocksServer listen f (set_Cipher k s0, []))]; exact Hs.
Qed.

(** C35. The key of the tunnel does not depend on the configuration. Whatever the password, [Start] gives
    the server a cipher made from the key derived from the literal "password", or returns the
    error of a name that is not supported; either way, and at any time while it
    serves, that is the server's cipher. *)
Theorem Start_uses_fixed_password cfg version root f st :
  (32 < f)%nat ->
  exists k err, s_Cipher (state_after (start cfg version root f st)).1 = k /\
    start_cipher (cfg_Cipher (cfg_Server cfg)) k err /\
    (err <> None -> exists s, start cfg version root f st = Ret err s).
Proof.
  intros Hf. destruct (Start_run cfg version root f st Hf) as (k & err & Hk & [n Hs] & Herr).
  exists k, err. split; [|by split]. rewrite Hs. clear. by induction n.
Qed.

(** C36. Graceful shutdown cannot work. The loops listen on a listener of their own, so that at any time
    while [Start] serves the server's [listener] is nil: the signal handler closes the
    notification channel and then panics, before it waits for any connection; called again, it
    panics on the closed channel. *)
Theorem ShutdownHandler_panics cfg version root f st g g' :
  (32 < f)%nat ->
  let s := (state_after (start cfg version root f st)).1 in
  s_listener s = None /\
  exists s', ShutdownHandler (C := C) g s = Halt (Panicked NilDereference) s' /\
    CheckGracefulShutdown s = false /\ CheckGracefulShutdown s' = true /\
    ShutdownHandler (C := C) g' s' = Halt (Panicked CloseOfClosed) s'.
Proof.
  intros Hf. destruct (Start_run cfg version root f st Hf) as (k & err & _ & [n Hs] & _). cbv zeta.
  rewrite Hs.
  assert (s_listener (Nat.iter n server_count (set_Cipher k (NewServer (L := L) cfg root version))) = None /\
    s_CloseNotifyCh (Nat.iter n server_count (set_Cipher k (NewServer (L := L) cfg root version))) = Some false)
    as [Hl Hc] by (clear Hs; induction n as [|n IH]; [by split | exact IH]).
  set (s := Nat.iter n _ _) in *. split; [exact Hl|].
  exists (set_notify_stats (Some true) (s_stats s) (s_Version s) s).
  unfold ShutdownHandler, close_CloseNotifyCh, closeListeners, CheckGracefulShutdown, bind, get, put.
  rewrite Hc. cbn. by rewrite Hl.
Qed.

End StartProofs.

(** ** Witnesses *)

(** A listener that gives the results of a list and then waits for ever. *)
#[global] Instance script_Listener {C} : Listener (list (C + error)) C := {|
  accept := fun _ l => match l with [] => Halt Deadlock [] | r :: l => Ret r l end;
  close_listener := fun _ l => Ret None l
|}.

Lemma script_gives {C} (rs : list (C + error)) : gives rs rs [].
Proof. induction rs as [|r rs IH]; econstructor; [done | exact IH]. Qed.

Definition busy : error := NetError false true 24.
Definition too_slow : error := NetError true true 11.
Definition closed_listener : error := NetError false false 0.

Definition example_accepts : list (nat + error) :=
  [inl 1%nat; inr busy; inl 2%nat; inr too_slow; inr busy; inl 3%nat; inr busy].

Definition example_listen (addr : bytes) : list (nat + error) + error :=
  if decide (addr = str ":8010") then inl (example_accepts ++ [inr closed_listener]) else inr busy.

Definition example_conf (password : bytes) : Conf := {| cfg_Server :=
  {| Local := true; Port := 8010; RemoteServer := str "server:8010"; MonitorPort := 8421;
     cfg_Cipher := str "aes-128-gcm"; Username := []; Password := password; ClientReadTimeout := 60;
     ClientWriteTimeout := 60; cfg_GracefulShutdownTimeout := 10; MaxIdle := 0; MaxCpus := 0 |} |}.

Definition example_server : Server (list (nat + error)) := NewServer (example_conf []) [] (str "0.1").

Lemma ServeLocal_serves_witness :
  exists s' log', ServeLocal example_listen None 20%nat (example_server, []) = Ret closed_listener (s', log') /\
    s' = Nat.iter 3 server_count example_server /\ s_listener s' = s_listener example_server /\
    starts log' = [1; 2; 3]%nat /\
    pauses log' = [5 * Millisecond; 10 * Millisecond; 20 * Millisecond].
Proof.
  exact (ServeLocal_serves example_listen example_server [] (example_accepts ++ [inr closed_listener])
    example_accepts closed_listener [] None 20 eq_refl (script_gives _)
    ltac:(repeat constructor; (left; reflexivity) || (right; reflexivity) || exact I)
    (conj eq_refl eq_refl) ltac:(cbn; lia)).
Defined.

Lemma ServeServer_never_returns_witness :
  (forall f e s', ServeServer example_listen None f (example_server, []) <> Ret e s') /\
  (forall rs l', gives (example_accepts ++ [inr closed_listener]) rs l' ->
     exists s', s' = Nat.iter (length (conns rs)) server_count example_server /\
     ServeServer example_listen None (length rs) (example_server, [])
       = Halt OutOfFuel (s', [] ++ map Started (conns rs))).
Proof.
  exact (ServeServer_never_returns example_listen example_server []
    (example_accepts ++ [inr closed_listener]) None eq_refl).
Defined.

Abbreviation example_Start := (Start example_listen id toy_hkdf toy_gcm toy_chacha).

Lemma Start_uses_fixed_password_witness :
  hex (derived_key (str "password") 16) = str "5f4dcc3b5aa765d61d8327deb882cf99" /\
  exists k err,
    s_Cipher (state_after (example_Start (example_conf (str "secret")) [] [] 99%nat (example_server, []))).1 = k /\
    start_cipher id toy_hkdf toy_gcm toy_chacha (str "aes-128-gcm") k err /\
    (err <> None -> exists s, example_Start (example_conf (str "secret")) [] [] 99%nat (example_server, []) = Ret err s).
Proof.
  split; [vm_compute; reflexivity|].
  exact (Start_uses_fixed_password example_listen id toy_hkdf toy_gcm toy_chacha toy_hkdf_ok
    (fun key _ => ex_intro _ toy_AEAD eq_refl) (example_conf (str "secret")) [] [] 99 (example_server, [])
    ltac:(lia)).
Defined.

Lemma ShutdownHandler_panics_witness :
  let s := (state_after (example_Start (example_conf []) [] [] 99%nat (example_server, []))).1 in
  s_listener s = None /\
  exists s', ShutdownHandler (C := nat) 9%nat s = Halt (Panicked NilDereference) s' /\
    CheckGracefulShutdown s = false /\ CheckGracefulShutdown s' = true /\
    ShutdownHandler (C := nat) 9%nat s' = Halt (Panicked CloseOfClosed) s'.
Proof.
  exact (ShutdownHandler_panics example_listen id toy_hkdf toy_gcm toy_chacha toy_hkdf_ok
    (fun key _ => ex_intro _ toy_AEAD eq_refl) (example_conf []) [] [] 99 (example_server, []) 9 9
    ltac:(lia)).
Defined.
