(* ===== verification/SocksHandler.v ===== *)
(** The older SOCKS5 server of m_socks (handler.go): [request], which takes each read of the client for
    a whole message. Its relay is the one of [Relay] with the policy [handler_copy].

    A [logger.Panic] is a panic, and [Serv] recovers from all of them. *)

From Stdlib Require Import ZArith Lia.
From Stdlib Require Import Strings.Byte.
From stdpp Require Import base decidable list numbers strings.
From S2P Require Import Prelude GoIO GoNet SocksAddr SocksHandshake.

Definition STATUS_VERIFY : Z := 0.
Definition STATUS_CONNECT : Z := 1.

Definition CONNECT : Z := 0.
Definition BIND : Z := 1.
Definition UDPASSOCIATE : Z := 2.

(** [request] without its connection, which is the rest of the state. *)
Record request := {
  rq_version : Z;
  rq_command : Z;
  rq_host : bytes;
  rq_port : bytes
}.

Definition NewRequest : request := {| rq_version := 0; rq_command := 0; rq_host := []; rq_port := [] |}.

Definition set_version x (r : request) : request :=
  {| rq_version := x; rq_command := rq_command r; rq_host := rq_host r; rq_port := rq_port r |}.
Definition set_command x (r : request) : request :=
  {| rq_version := rq_version r; rq_command := x; rq_host := rq_host r; rq_port := rq_port r |}.
Definition set_host x (r : request) : request :=
  {| rq_version := rq_version r; rq_command := rq_command r; rq_host := x; rq_port := rq_port r |}.
Definition set_rq_port x (r : request) : request :=
  {| rq_version := rq_version r; rq_command := rq_command r; rq_host := rq_host r; rq_port := x |}.

Section Handler.
Context {C : Type} `{Reader C} `{Writer C}.
Context {T : Type}.
(** [net.Dial("tcp", address)]. *)
Variable dial : bytes -> T + error.

Abbreviation rstate := (request * C)%type.

Definition on_request (g : request -> request) : M rstate unit := modify (fun '(r, c) => (g r, c)).
Definition on_client {A} (m : M C A) : M rstate A := zoom snd (fun c '(r, _) => (r, c)) m.

(** [switch b[1]], [switch b[3]] and the port. *)
Definition Resolve_connect (b : bytes) (n : Z) : M rstate unit :=
  let! cmd := index 1 b in
  (if decide (cmd = x01) then on_request (set_command CONNECT)
   else if decide (cmd = x02) then on_request (set_command BIND)
   else if decide (cmd = x03) then on_request (set_command UDPASSOCIATE)
   else ret tt) ;;;
  let! atyp := index 3 b in
  (if decide (atyp = x01) then
     let! ip := slice 4 8 b in
     match ip with
     | [a0; a1; a2; a3] => on_request (set_host (IP_String (IPv4 a0 a1 a2 a3)))
     | _ => ret tt
     end
   else if decide (atyp = x03) then
     let! host := slice 5 (n - 2) b in
     on_request (set_host host)
   else if decide (atyp = x04) then
     let! ip := slice 4 20 b in
     on_request (set_host (IP_String ip))
   else ret tt) ;;;
  let! hi := index (n - 2) b in
  let! lo := index (n - 1) b in
  on_request (set_rq_port (Itoa (Z.lor (Z.shiftl (b2z hi) 8) (b2z lo)))).

Definition Resolve (status : Z) : M rstate bool :=
  let! '(b, n, err) := on_client (read (zeros 1024)) in
  match err with
  | Some _ => fail (PanicValue "the error of the read")
  | None =>
      if n <? 3 then fail (PanicValue "m_socks request read byte length small")
      else
        (if status =? STATUS_VERIFY then
           let! v := index 0 b in
           if decide (v = x05) then on_request (set_version 5)
           else fail (PanicValue "m_socks request other version protocol")
         else ret tt) ;;;
        when (status =? STATUS_CONNECT) (Resolve_connect b n) ;;;
        ret true
  end.

(** The results of the writes are ignored. *)
Definition ResponseVerify : M rstate unit :=
  let! '(r, _) := get in
  when (rq_version r =? 5) (let! _ := on_client (write [x05; x00]) in ret tt).

Definition ResponseConnect : M rstate unit :=
  let! _ := on_client (write [x05; x00; x00; x01; x00; x00; x00; x00; x00; x00]) in ret tt.

Definition connect : M rstate T :=
  let! '(r, _) := get in
  match dial (JoinHostPort (rq_host r) (rq_port r)) with
  | inl remoteconn => ret remoteconn
  | inr _ => fail (PanicValue "connect remote failed")
  end.

(** [Serv] up to the relay: the remote connection, or nothing after a panic it recovered from. The
    client's connection is closed when it returns, and the remote one if there is one. *)
Definition Serv_body : M rstate T :=
  let! _ := Resolve STATUS_VERIFY in
  ResponseVerify ;;;
  let! _ := Resolve STATUS_CONNECT in
  ResponseConnect ;;;
  connect.

Definition Serv : M rstate (option T) := fun f s =>
  match Serv_body f s with
  | Ret t s' => Ret (Some t) s'
  | Halt (Panicked _) s' => Ret None s'
  | Halt h s' => Halt h s'
  end.

End Handler.

(** ** Correctness *)

(** A message at the front of the buffer it was read into. *)
Definition buffer_of (msg : bytes) : bytes := blit 0 msg (zeros 1024).

Section HandlerProofs.
Context {T : Type}.
Variable dial : bytes -> T + error.

(** A client that sends [chunks], each in a segment of its own, and accepts what it is sent. *)
Definition segments (chunks : list bytes) (out : bytes) (e : error) : conn :=
  {| conn_in := chunks; conn_fin := e; conn_out := out; conn_room := None |}.

Lemma read_segment chunk more out e f :
  len chunk <= 1024 ->
  read (zeros 1024) f (segments (chunk :: more) out e)
    = Ret (buffer_of chunk, len chunk, None) (segments more out e).
Proof.
  intros Hl. unfold read, conn_Reader. cbn [segments conn_in conn_fin conn_out conn_room].
  assert (length (zeros 1024) = 1024%nat) as Hz by (unfold zeros; by rewrite length_replicate).
  rewrite Hz, Nat.min_r by lia. rewrite take_ge by lia. by rewrite Nat.ltb_irrefl.
Qed.

Lemma buffer_of_app msg : len msg <= 1024 -> exists tail, buffer_of msg = msg ++ tail.
Proof.
  intros Hl. unfold buffer_of, blit. exists (drop (length msg) (zeros 1024)). done.
Qed.

Lemma sub_app_l lo hi (l1 l2 : bytes) : 0 <= lo -> hi <= len l1 -> sub lo hi (l1 ++ l2) = sub lo hi l1.
Proof.
  intros Hlo Hhi. unfold sub. destruct (decide (lo <= hi)).
  - rewrite drop_app_le by lia. rewrite take_app_le; [done|]. rewrite length_drop. lia.
  - by replace (Z.to_nat (hi - lo)) with O by lia.
Qed.

Lemma wp_slice_mid {S} (a b c : bytes) lo hi l f (s : S) (Q : bytes -> S -> Prop) :
  lo = len a -> hi = len a + len b -> l = a ++ b ++ c -> Q b s -> wp (slice lo hi l) f s Q.
Proof.
  intros -> -> -> HQ. apply wp_slice; [lia | rewrite !length_app; lia |].
  unfold sub. rewrite Nat2Z.id, drop_app_length.
  by replace (Z.to_nat _) with (length b) by lia; rewrite take_app_length.
Qed.

Lemma IP_String_v4 a b c d : IP_String (IPv4 a b c d) = dotted a b c d.
Proof. reflexivity. Qed.

(** A request for [t] in the same segment as [extra]. *)
Definition request_segment (v cmd rsv : byte) (t : target) (extra : bytes) : bytes :=
  [v; cmd; rsv] ++ encode_target t ++ extra.

(** The end of the segment from the port on; its last two bytes are taken for the port. *)
Definition from_port (t : target) (extra : bytes) : bytes := port_bytes (target_port t) ++ extra.

Definition taken_port (t : target) (extra : bytes) : Z :=
  match drop (length extra) (from_port t extra) with
  | [hi; lo] => Z.lor (Z.shiftl (b2z hi) 8) (b2z lo)
  | _ => 0
  end.

Definition taken_host (t : target) (extra : bytes) : bytes :=
  match t with
  | Domain name _ => name ++ take (length extra) (from_port t extra)
  | TargetV4 a b c d _ => dotted a b c d
  | TargetV6 ip _ => IP_String ip
  end.

Lemma from_port_last t extra : exists hi lo,
  from_port t extra = take (length extra) (from_port t extra) ++ [hi; lo] /\
  taken_port t extra = Z.lor (Z.shiftl (b2z hi) 8) (b2z lo).
Proof.
  assert (length (from_port t extra) = length extra + 2)%nat as Hl
    by (unfold from_port; rewrite length_app; cbn; lia).
  destruct (split_last2 (from_port t extra) (len extra)) as (x & hi & lo & Hx & Hlx); [lia | lia |].
  exists hi, lo. assert (length x = length extra) as Hlen by lia. unfold taken_port. rewrite Hx.
  rewrite <- Hlen, take_app_length, drop_app_length. done.
Qed.

(** The segment up to its last two bytes. *)
Lemma request_segment_split v cmd rsv t extra : target_wf t ->
  exists front, request_segment v cmd rsv t extra = front ++ drop (length extra) (from_port t extra) /\
    front = match t with
            | Domain name _ => [v; cmd; rsv; ATYPDomain; z2b (len name)] ++ taken_host t extra
            | TargetV4 a b c d _ =>
                [v; cmd; rsv; ATYPIPv4; a; b; c; d] ++ take (length extra) (from_port t extra)
            | TargetV6 ip _ => [v; cmd; rsv; ATYPIPv6] ++ ip ++ take (length extra) (from_port t extra)
            end.
Proof.
  intros Hwf. eexists. split; [|reflexivity]. unfold request_segment, from_port, taken_host.
  destruct t; cbn [encode_target target_port]; rewrite <- ?app_assoc; cbn [app];
    rewrite <- ?app_assoc; unfold from_port; cbn [target_port]; by rewrite take_drop.
Qed.

(** The port, from the last two bytes. *)
Lemma port_run front hi lo tail b n r (c : conn) f (Q : unit -> request * conn -> Prop) :
  b = front ++ hi :: lo :: tail -> n = len front + 2 ->
  Q tt (set_rq_port (Itoa (Z.lor (Z.shiftl (b2z hi) 8) (b2z lo))) r, c) ->
  wp (let! hi := index (n - 2) b in
      let! lo := index (n - 1) b in
      on_request (set_rq_port (Itoa (Z.lor (Z.shiftl (b2z hi) 8) (b2z lo))))) f (r, c) Q.
Proof.
  intros -> -> HQ. wp_step. apply (wp_index _ hi); [lia | |].
  { replace (Z.to_nat _) with (length front) by lia. by apply list_lookup_middle. }
  wp_step. apply (wp_index _ lo); [lia | |].
  { replace (Z.to_nat _) with (length front + 1)%nat by lia.
    rewrite lookup_app_r by lia. by replace (length front + 1 - length front)%nat with 1%nat by lia. }
  by apply wp_modify.
Qed.

(** What the two switches do with the bytes [rest] after the address type. *)
Lemma Resolve_connect_run v cmd rsv t extra r (c : conn) f (Q : unit -> request * conn -> Prop) :
  target_wf t -> len (request_segment v cmd rsv t extra) <= 1024 ->
  (forall r', rq_version r' = rq_version r -> rq_host r' = taken_host t extra ->
     rq_port r' = Itoa (taken_port t extra) -> Q tt (r', c)) ->
  wp (Resolve_connect (buffer_of (request_segment v cmd rsv t extra))
        (len (request_segment v cmd rsv t extra))) f (r, c) Q.
Proof.
  intros Hwf Hl HQ. destruct (buffer_of_app _ Hl) as [tail Hb]. rewrite Hb.
  destruct (request_segment_split v cmd rsv t extra Hwf) as (front & Hseg & Hfront).
  destruct (from_port_last t extra) as (hi & lo & Hfrom & Hport).
  assert (length (from_port t extra) = length extra + 2)%nat as Hlf
    by (unfold from_port; rewrite length_app; cbn; lia).
  assert (drop (length extra) (from_port t extra) = [hi; lo]) as Hlast.
  { rewrite Hfrom. apply drop_app_length'. rewrite length_take. lia. }
  rewrite Hlast in Hseg.
  assert (len (request_segment v cmd rsv t extra) = len front + 2) as Hn
    by (rewrite Hseg, length_app; cbn; lia).
  assert (request_segment v cmd rsv t extra ++ tail = front ++ hi :: lo :: tail) as Hbuf
    by (by rewrite Hseg, <- app_assoc).
  assert (forall r' Q', Q' tt (set_rq_port (Itoa (taken_port t extra)) r', c) ->
    wp (let! hi := index (len (request_segment v cmd rsv t extra) - 2) (request_segment v cmd rsv t extra ++ tail) in
        let! lo := index (len (request_segment v cmd rsv t extra) - 1) (request_segment v cmd rsv t extra ++ tail) in
        on_request (set_rq_port (Itoa (Z.lor (Z.shiftl (b2z hi) 8) (b2z lo))))) f (r', c) Q') as Hend.
  { intros r' Q' HQ'. rewrite Hport in HQ'. by apply (port_run front hi lo tail). }
  unfold Resolve_connect. wp_step. apply (wp_index _ cmd); [lia | done |]. wp_step.
  assert (forall Q1 : unit -> request * conn -> Prop,
    (forall r', rq_version r' = rq_version r -> Q1 tt (r', c)) ->
    wp (if decide (cmd = x01) then on_request (set_command CONNECT)
        else if decide (cmd = x02) then on_request (set_command BIND)
        else if decide (cmd = x03) then on_request (set_command UDPASSOCIATE)
        else ret tt) f (r, c) Q1) as Hcmd.
  { intros Q1 HQ1. repeat destruct (decide _); by apply HQ1. }
  apply Hcmd. intros r1 Hr1. wp_step.
  assert (forall a l Q1, request_segment v cmd rsv t extra ++ tail = v :: cmd :: rsv :: a :: l ->
    Q1 a (r1, c) -> wp (index 3 (request_segment v cmd rsv t extra ++ tail)) f (r1, c) Q1) as Hidx.
  { intros a l Q1 -> HQ1. apply (wp_index _ a); [lia | done | exact HQ1]. }
  subst front. destruct t as [name port|a0 a1 a2 a3 port|ip port].
  - eapply Hidx; [rewrite Hbuf; reflexivity|]. wp_step. rewrite decide_False, decide_True by done.
    wp_step. eapply (wp_slice_mid [v; cmd; rsv; ATYPDomain; z2b (len name)] _ (hi :: lo :: tail));
      [done | | by rewrite Hbuf, <- app_assoc |].
    { rewrite Hn, length_app. lia. }
    apply wp_modify. apply Hend. apply HQ; [exact Hr1 | done | done].
  - eapply Hidx; [rewrite Hbuf; reflexivity|]. wp_step. rewrite decide_True by done.
    wp_step. eapply (wp_slice_mid [v; cmd; rsv; ATYPIPv4] [a0; a1; a2; a3]);
      [done | done | rewrite Hbuf; cbn [app]; reflexivity |].
    apply wp_modify. apply Hend. apply HQ; [exact Hr1 | apply IP_String_v4 | done].
  - destruct Hwf as [_ Hip]. eapply Hidx; [rewrite Hbuf; reflexivity|]. wp_step.
    do 2 rewrite decide_False by done. rewrite decide_True by done.
    wp_step. eapply (wp_slice_mid [v; cmd; rsv; ATYPIPv6] ip);
      [done | rewrite Hip; done | rewrite Hbuf; cbn [app]; rewrite <- !app_assoc; reflexivity |].
    apply wp_modify. apply Hend. apply HQ; [exact Hr1 | done | done].
Qed.

(** What [Serv] sends before it dials, in all cases. *)
Definition both_replies : bytes := [x05; x00] ++ [x05; x00; x00; x01; x00; x00; x00; x00; x00; x00].

Lemma write_segments p chunks out e f :
  write p f (segments chunks out e) = Ret (len p, None) (segments chunks (out ++ p) e).
Proof.
  unfold write, conn_Writer, segments. cbn [conn_room conn_in conn_fin conn_out option_map].
  by rewrite Z.ltb_irrefl, Nat2Z.id, take_ge by lia.
Qed.

(** The end of [Resolve] on a segment that was read whole. *)
Lemma Resolve_segment status chunk more out e r f (Q : bool -> request * conn -> Prop) :
  3 <= len chunk <= 1024 ->
  wp ((if status =? STATUS_VERIFY then
         let! v := index 0 (buffer_of chunk) in
         if decide (v = x05) then on_request (set_version 5)
         else fail (PanicValue "m_socks request other version protocol")
       else ret tt) ;;;
      when (status =? STATUS_CONNECT) (Resolve_connect (buffer_of chunk) (len chunk)) ;;;
      ret true) f (r, segments more out e) Q ->
  wp (Resolve status) f (r, segments (chunk :: more) out e) Q.
Proof.
  intros Hl HQ. unfold Resolve. wp_step. apply wp_zoom. unfold wp at 1. cbn [snd].
  rewrite read_segment by lia. cbn beta iota. rewrite (proj2 (Z.ltb_ge _ _)) by lia. exact HQ.
Qed.

Lemma Serv_run greeting v cmd rsv t extra more e f :
  3 <= len greeting <= 1024 -> hd_error greeting = Some x05 ->
  target_wf t -> len (request_segment v cmd rsv t extra) <= 1024 ->
  exists r, Serv dial f (NewRequest, segments (greeting :: request_segment v cmd rsv t extra :: more) [] e)
    = Ret (match dial (JoinHostPort (taken_host t extra) (Itoa (taken_port t extra))) with
           | inl remote => Some remote
           | inr _ => None
           end) (r, segments more both_replies e).
Proof.
  intros Hg Hv Hwf Hl. set (s := (NewRequest, _)).
  set (addr := JoinHostPort (taken_host t extra) (Itoa (taken_port t extra))).
  assert (wp (let! _ := Resolve STATUS_VERIFY in
              ResponseVerify ;;;
              let! _ := Resolve STATUS_CONNECT in
              ResponseConnect) f s
    (fun _ s' => exists r, s' = (r, segments more both_replies e) /\
       JoinHostPort (rq_host r) (rq_port r) = addr)) as Hrun.
  { wp_step. apply Resolve_segment; [done|]. cbn [Z.eqb STATUS_VERIFY STATUS_CONNECT].
    destruct greeting as [|x greeting]; [discriminate|]. injection Hv as ->.
    wp_steps. eapply (wp_index _ x05); [lia | done |]. rewrite decide_True by done. cbn [when].
    apply wp_modify. do 4 wp_step. unfold ResponseVerify. do 2 wp_step. cbn [when rq_version set_version Z.eqb Pos.eqb].
    wp_step. apply wp_zoom. unfold wp at 1. cbn [snd].
    rewrite write_segments. cbn beta iota. do 2 wp_step. apply Resolve_segment.
    { split; [|exact Hl]. unfold request_segment. rewrite !length_app. cbn [length]. lia. }
    cbn [Z.eqb STATUS_VERIFY STATUS_CONNECT Pos.eqb when]. do 3 wp_step.
    apply Resolve_connect_run; [done | done |]. intros r _ Hhost Hport. wp_step.
    unfold ResponseConnect. wp_step. apply wp_zoom. unfold wp at 1. cbn [snd].
    rewrite write_segments. cbn beta iota. wp_step. exists r. split; [done|].
    by rewrite Hhost, Hport. }
  destruct (proj1 (wp_ex _ _ _ _) Hrun) as (u & s' & Heq & r & -> & Haddr). exists r.
  unfold Serv, Serv_body. unfold bind in Heq |- *.
  destruct (Resolve STATUS_VERIFY f s) as [b1 s1|]; [|discriminate].
  destruct (ResponseVerify f s1) as [b2 s2|]; [|discriminate].
  destruct (Resolve STATUS_CONNECT f s2) as [b3 s3|]; [|discriminate]. rewrite Heq.
  unfold connect, bind, get. rewrite Haddr. by destruct (dial addr).
Qed.

(** When the greeting and the request each arrive in one segment, [Serv] answers success to both
    and only then dials the address the request names, whatever command the request asks for (BIND and
    UDP ASSOCIATE too); a dial that fails is not reported: the client was already told it succeeded. *)
Theorem Serv_connects greeting v cmd rsv t more e f :
  3 <= len greeting <= 1024 -> hd_error greeting = Some x05 -> target_wf t ->
  exists r, Serv dial f (NewRequest, segments (greeting :: ([v; cmd; rsv] ++ encode_target t) :: more) [] e)
    = Ret (match dial (target_text t) with inl remote => Some remote | inr _ => None end)
        (r, segments more both_replies e).
Proof.
  intros Hg Hv Hwf. pose proof (encode_target_fits t Hwf) as Hfits. unfold MaxAddrLen, IPv4len, IPv6len in Hfits.
  assert (len (request_segment v cmd rsv t []) <= 1024) as Hl
    by (unfold request_segment; rewrite app_nil_r, length_app; cbn [length]; lia).
  destruct (Serv_run greeting v cmd rsv t [] more e f Hg Hv Hwf Hl) as [r Hr]. exists r.
  revert Hr. unfold request_segment, taken_host, taken_port, from_port. rewrite !app_nil_r.
  cbn [length drop take port_bytes]. rewrite port_value by apply Hwf. intros ->.
  destruct t; cbn [target_text target_port take]; by rewrite ?app_nil_r.
Qed.

(** C37. When the segment of the request carries more bytes than the request (data sent right behind
    it), the last two bytes of the segment are taken for the port, the extra bytes are lost, and a
    domain name is dialed with the port and the extra bytes appended to it. *)
Theorem Serv_misreads_glued_data greeting v cmd rsv t x hi lo more e f :
  3 <= len greeting <= 1024 -> hd_error greeting = Some x05 -> target_wf t -> len x <= 512 ->
  let host := match t with
              | Domain name port => name ++ port_bytes port ++ x
              | TargetV4 a b c d _ => dotted a b c d
              | TargetV6 ip _ => IP_String ip
              end in
  exists r, Serv dial f
      (NewRequest, segments (greeting :: ([v; cmd; rsv] ++ encode_target t ++ x ++ [hi; lo]) :: more) [] e)
    = Ret (match dial (JoinHostPort host (Itoa (Z.lor (Z.shiftl (b2z hi) 8) (b2z lo)))) with
           | inl remote => Some remote
           | inr _ => None
           end) (r, segments more both_replies e).
Proof.
  intros Hg Hv Hwf Hx host. pose proof (encode_target_fits t Hwf) as Hfits.
  unfold MaxAddrLen, IPv4len, IPv6len in Hfits.
  assert (len (request_segment v cmd rsv t (x ++ [hi; lo])) <= 1024) as Hl
    by (unfold request_segment; rewrite !length_app; cbn [length]; lia).
  destruct (Serv_run greeting v cmd rsv t (x ++ [hi; lo]) more e f Hg Hv Hwf Hl) as [r Hr]. exists r.
  assert (from_port t (x ++ [hi; lo]) = (port_bytes (target_port t) ++ x) ++ [hi; lo]) as Hfrom
    by (unfold from_port; by rewrite app_assoc).
  assert (length (x ++ [hi; lo]) = length (port_bytes (target_port t) ++ x)) as Hlen
    by (rewrite !length_app; cbn [length port_bytes]; lia).
  revert Hr. unfold taken_host, taken_port. rewrite Hfrom, Hlen, drop_app_length, take_app_length.
  intros Hr. unfold request_segment in Hr. rewrite Hr. by destruct t.
Qed.

End HandlerProofs.

Definition example_dial (addr : bytes) : bytes + error := inl addr.

Lemma Serv_connects_witness :
  exists r, Serv example_dial O
      (NewRequest, segments [[x05; x01; x00];
         [x05; x02; x00] ++ encode_target (Domain [x61; x2e; x62] 443)] [] EOF)
    = Ret (Some [x61; x2e; x62; x3a; x34; x34; x33]) (r, segments [] both_replies EOF).
Proof.
  apply (Serv_connects example_dial [x05; x01; x00] x05 x02 x00 (Domain [x61; x2e; x62] 443) [] EOF O).
  - cbn. lia.
  - reflexivity.
  - split; cbn; lia.
Defined.

Lemma Serv_misreads_glued_data_witness :
  exists r, Serv example_dial O
      (NewRequest, segments [[x05; x01; x00];
         [x05; x01; x00] ++ encode_target (TargetV4 x7f x00 x00 x01 443) ++ [x47] ++ [x45; x54]] [] EOF)
    = Ret (Some (JoinHostPort (dotted x7f x00 x00 x01) (Itoa 17748))) (r, segments [] both_replies EOF).
Proof.
  apply (Serv_misreads_glued_data example_dial [x05; x01; x00] x05 x01 x00
    (TargetV4 x7f x00 x00 x01 443) [x47] x45 x54 [] EOF O).
  - cbn. lia.
  - reflexivity.
  - split; cbn; [lia | done].
  - cbn. lia.
Defined.
