(* ===== verification/RandString.v ===== *)
(** Random strings (m_util/utils.go): [RandStringBytesMaskImprSrc], which cuts the numbers of a
    [rand.Source] into groups of six bits and keeps the groups that number a letter. *)

From Stdlib Require Import ZArith Lia.
From Stdlib Require Import Strings.Byte.
From stdpp Require Import base decidable list numbers strings.
From S2P Require Import Prelude.

Definition letterBytes : bytes := str "0123456789abcdefghijklmnopqrstuvwxyzABCDEFGHIJKLMNOPQRSTUVWXYZ".
Definition letterIdxBits : Z := 6.
Definition letterIdxMask : Z := Z.shiftl 1 letterIdxBits - 1.
Definition letterIdxMax : Z := 63 / letterIdxBits.

Section RandString.
Context {S : Type}.
(** [src.Int63()]. *)
Variable Int63 : S -> Z * S.

Definition draw : M S Z := fun _ s => let '(c, s') := Int63 s in Ret c s'.

(** One turn of the loop over [i], [cache] and [remain]. *)
Definition RandString_body (st : bytes * Z * Z * Z) : M S ((bytes * Z * Z * Z) + bytes) :=
  let '(b, i, cache, remain) := st in
  if i >=? 0 then
    let! '(cache, remain) :=
      (if remain =? 0 then let! c := draw in ret (c, letterIdxMax) else ret (cache, remain)) in
    let idx := Z.land cache letterIdxMask in
    let! '(b, i) :=
      (if idx <? len letterBytes then
         let! letter := index idx letterBytes in
         let! b := store i letter b in
         ret (b, i - 1)
       else ret (b, i)) in
    ret (inl (b, i, Z.shiftr cache letterIdxBits, remain - 1))
  else ret (inr b).

Definition RandStringBytesMaskImprSrc (n : Z) : M S bytes :=
  let! b := make n in
  let! c := draw in
  iter RandString_body (b, n - 1, c, letterIdxMax).

(** ** The reference *)

(** The first [r] groups of six bits of [c], from the low end. *)
Fixpoint groups (r : nat) (c : Z) : list Z :=
  match r with
  | O => []
  | Datatypes.S r' => Z.land c letterIdxMask :: groups r' (Z.shiftr c letterIdxBits)
  end.

(** The letters of a number, first to last. *)
Definition letter (idx : Z) : option byte := if idx <? len letterBytes then letterBytes !! Z.to_nat idx else None.
Definition letters (r : nat) (c : Z) : bytes := omap letter (groups r c).

(** The next [k] numbers of the source, and the letters in them. *)
Fixpoint draws (k : nat) (s : S) : list Z :=
  match k with
  | O => []
  | Datatypes.S k' => let '(c, s') := Int63 s in c :: draws k' s'
  end.
Definition drawn_letters (k : nat) (s : S) : bytes := concat (map (letters 10) (draws k s)).

(** ** Correctness *)

Lemma group_range c : 0 <= Z.land c letterIdxMask < 64.
Proof.
  change letterIdxMask with (Z.ones 6). rewrite Z.land_ones by lia. apply Z.mod_pos_bound. lia.
Qed.

Lemma drawn_letters_in k s : Forall (fun c => c ∈ letterBytes) (drawn_letters k s).
Proof.
  unfold drawn_letters. apply Forall_concat, Forall_map, Forall_true. intros c.
  apply Forall_forall. intros x Hx. apply list_elem_of_omap in Hx as (idx & _ & Hl).
  unfold letter in Hl. destruct (idx <? _); [|done]. by eapply list_elem_of_lookup_2.
Qed.

(** What is left to do: the letters in the rest of the number at hand and in [k] more. *)
Definition filling (n : Z) (all : bytes) (m : nat) (st : bytes * Z * Z * Z) (s : S) : Prop :=
  let '(b, i, cache, remain) := st in
  exists k done todo, m = (Z.to_nat remain + 10 * k)%nat /\ 0 <= remain <= 10 /\
    -1 <= i /\ len b = n /\ len done + i + 1 = n /\ drop (Z.to_nat (i + 1)) b = rev done /\
    letters (Z.to_nat remain) cache ++ drawn_letters k s = todo /\ all = done ++ todo /\ i + 1 <= len todo.

Lemma fill_one n (b done todo : bytes) x i :
  0 <= i -> len b = n -> len done + i + 1 = n -> drop (Z.to_nat (i + 1)) b = rev done ->
  drop (Z.to_nat (i - 1 + 1)) (<[Z.to_nat i := x]> b) = rev (done ++ [x]).
Proof.
  intros Hi Hb Hd Hdrop. replace (Z.to_nat (i - 1 + 1)) with (Z.to_nat i) by lia.
  rewrite rev_app_distr, <- Hdrop. cbn [rev app].
  rewrite (drop_S _ x) by (apply list_lookup_insert_eq; lia).
  rewrite drop_insert_lt by lia. f_equal. f_equal. lia.
Qed.

Lemma letters_S r c :
  letters (Datatypes.S r) c =
  (match letter (Z.land c letterIdxMask) with Some x => [x] | None => [] end) ++ letters r (Z.shiftr c letterIdxBits).
Proof. unfold letters. cbn [groups omap list_omap]. by destruct (letter _). Qed.

Lemma drawn_letters_S k s :
  drawn_letters (Datatypes.S k) s = letters 10 (fst (Int63 s)) ++ drawn_letters k (snd (Int63 s)).
Proof. unfold drawn_letters. cbn [draws]. by destruct (Int63 s). Qed.

Lemma letter_of idx :
  0 <= idx -> idx < len letterBytes -> exists x, letterBytes !! Z.to_nat idx = Some x /\ letter idx = Some x.
Proof.
  intros H0 H1. destruct (lookup_lt_is_Some_2 letterBytes (Z.to_nat idx)) as [x Hx]; [lia|].
  exists x. split; [done|]. unfold letter. by rewrite (proj2 (Z.ltb_lt _ _) H1).
Qed.

(** The part of a turn behind the refill, when a group is left in [cache]. *)
Definition fill_group (b : bytes) (i cache remain : Z) : M S ((bytes * Z * Z * Z) + bytes) :=
  let idx := Z.land cache letterIdxMask in
  let! '(b, i) :=
    (if idx <? len letterBytes then
       let! letter := index idx letterBytes in
       let! b := store i letter b in
       ret (b, i - 1)
     else ret (b, i)) in
  ret (inl (b, i, Z.shiftr cache letterIdxBits, remain - 1)).

Definition filled (n : Z) (all : bytes) (m : nat) (r : (bytes * Z * Z * Z) + bytes) (s : S) : Prop :=
  match r with
  | inl st => exists m', (m' < m)%nat /\ filling n all m' st s
  | inr w => w = rev (take (Z.to_nat n) all)
  end.

Lemma fill_group_fills n all m b i cache remain f s :
  filling n all m (b, i, cache, remain) s -> 0 <= i -> 0 < remain ->
  wp (fill_group b i cache remain) f s (filled n all m).
Proof.
  intros (k & done & todo & Hm & Hr & Hi & Hb & Hd & Hdrop & Htodo & Hall & Hlen) H0 H1.
  pose proof (group_range cache) as Hg.
  replace (Z.to_nat remain) with (Datatypes.S (Z.to_nat (remain - 1))) in Htodo by lia.
  rewrite letters_S in Htodo. unfold fill_group. wp_steps; cbv [filled].
  - destruct (letter_of (Z.land cache letterIdxMask)) as (x & Hx & Hl); [lia | lia |].
    rewrite Hl in Htodo. simplify_eq/=.
    eapply wp_index; [lia | exact Hx |]. wp_steps.
    exists (Z.to_nat (remain - 1) + 10 * k)%nat. split; [lia|].
    exists k, (done ++ [x]), (letters (Z.to_nat (remain - 1)) (Z.shiftr cache letterIdxBits) ++ drawn_letters k s).
    cbn in Hlen. rewrite ?length_insert, ?length_app in *. cbn.
    repeat split; try lia; [by apply (fill_one (len b)) | by rewrite <- app_assoc].
  - assert (Hl : letter (Z.land cache letterIdxMask) = None) by (unfold letter; rewrite Heqb0; reflexivity).
    rewrite Hl in Htodo. simplify_eq/=.
    exists (Z.to_nat (remain - 1) + 10 * k)%nat. split; [lia|].
    exists k, done, (letters (Z.to_nat (remain - 1)) (Z.shiftr cache letterIdxBits) ++ drawn_letters k s).
    repeat split; try lia; done.
Qed.

Lemma RandString_body_fills n all m st f s :
  filling n all m st s -> wp (RandString_body st) f s (filled n all m).
Proof.
  destruct st as [[[b i] cache] remain]. intros HI. unfold RandString_body.
  destruct (i >=? 0) eqn:E; [apply Z.geb_le in E | rewrite Z.geb_leb in E; apply Z.leb_gt in E].
  - fold (fill_group b i). apply wp_bind. destruct (remain =? 0) eqn:E0.
    + apply Z.eqb_eq in E0. subst remain.
      destruct HI as ([|k] & done & todo & Hm & Hr & Hi & Hb & Hd & Hdrop & Htodo & Hall & Hlen);
        [change ([] = todo) in Htodo; subst todo; change (i + 1 <= 0) in Hlen; lia|].
      rewrite drawn_letters_S in Htodo. unfold draw, wp, bind.
      destruct (Int63 s) as [c s'] eqn:Es. cbn [ret]. apply fill_group_fills; [|lia|done].
      change letterIdxMax with 10. exists k, done, todo. repeat split; try done; lia.
    + apply Z.eqb_neq in E0. apply wp_ret. apply fill_group_fills; [done | done |].
      destruct HI as (? & ? & ? & ? & ? & _). lia.
  - apply wp_ret. destruct HI as (k & done & todo & Hm & Hr & Hi & Hb & Hd & Hdrop & Htodo & Hall & Hlen).
    cbn. replace i with (-1) in * by lia. cbn in Hdrop. rewrite drop_0 in Hdrop.
    rewrite Hall, Hdrop. f_equal. rewrite take_app_length'; [done | lia].
Qed.

(** C38. [RandStringBytesMaskImprSrc] fills every one of the [n] places it asked for, from the
    last to the first, with the letters among the numbers of the source, and never indexes
    outside the alphabet or the buffer: whatever the numbers are, once [k + 1] of them hold
    [n] letters the loop is over within ten turns for each, and the string has length [n] and
    only characters of the alphabet.  A negative length panics. *)
Theorem random_string_filled n k fuel s :
  n <= len (drawn_letters (Datatypes.S k) s) -> (10 * Datatypes.S k < fuel)%nat ->
  (0 <= n ->
   wp (RandStringBytesMaskImprSrc n) fuel s (fun w _ =>
     w = rev (take (Z.to_nat n) (drawn_letters (Datatypes.S k) s)) /\
     len w = n /\ Forall (fun c => c ∈ letterBytes) w)) /\
  (n < 0 -> RandStringBytesMaskImprSrc n fuel s = Halt (Panicked MakeNegative) s).
Proof.
  intros Hn Hfuel. split; intros H0.
  - apply wp_mono with (P := fun w (_ : S) => w = rev (take (Z.to_nat n) (drawn_letters (Datatypes.S k) s))).
    + unfold RandStringBytesMaskImprSrc. wp_steps. unfold wp at 1, draw.
      destruct (Int63 s) as [c s'] eqn:Es.
      apply (wp_iter (filling n (drawn_letters (Datatypes.S k) s)) (10 + 10 * k));
        [intros; by apply RandString_body_fills | lia |].
      exists k, [], (drawn_letters (Datatypes.S k) s).
      rewrite drawn_letters_S, Es in *. unfold zeros. rewrite length_replicate.
      cbn [List.length rev]. repeat split; try done; try lia.
      apply drop_ge. rewrite length_replicate. lia.
    + intros w _ ->. split; [done|]. split; [rewrite length_rev, length_take; lia|].
      apply Forall_rev, Forall_take, drawn_letters_in.
  - unfold RandStringBytesMaskImprSrc, bind, make. by rewrite (proj2 (Z.leb_gt 0 n)) by done.
Qed.
End RandString.

(** A source that counts up from a seed, far enough apart to fill the low bits. *)
Definition counting (s : Z) : Z * Z := (s mod 2 ^ 63, s + 2 ^ 40 + 4097).

Example random_string_filled_witness :
  wp (RandStringBytesMaskImprSrc counting 12) 100 (2 ^ 62 + 12345) (fun w _ =>
    w = rev (take 12 (drawn_letters counting 2 (2 ^ 62 + 12345))) /\
    len w = 12 /\ Forall (fun c => c ∈ letterBytes) w).
Proof.
  refine (proj1 (random_string_filled counting 12 1 100 (2 ^ 62 + 12345) _ _) _);
    [vm_compute; discriminate | lia | lia].
Defined.
