(* ===== verification/Main.v ===== *)
(** The command (proxy.go), with [AbnormalExit] (m_util/exit.go) and the debug switches (m_debug).

    The flags are parsed by a model of the [flag] package, the configuration path is made by a model
    of [path.Join]; [log.Init] and the configuration parser are packages outside the repository and so
    are parameters. What the command does to the log and the terminal is kept as a list of effects. *)

From Stdlib Require Import ZArith Lia.
From Stdlib Require Import Strings.Byte.
From stdpp Require Import base decidable list numbers strings.
From S2P Require Import Prelude GoIO GoNet SocksAddr ShadowCipher Cork Core Config Serve Server.

(** ** The [flag] package *)

(** The variables the flags are parsed into. *)
Record flags := {
  help : bool;
  confRoot : bytes;
  logPath : bytes;
  stdOut : bool;
  showVersion : bool;
  showVerbose : bool;
  debugLog : bool
}.

Definition default_flags : flags :=
  {| help := false; confRoot := str "./conf"; logPath := str "./log"; stdOut := false;
     showVersion := false; showVerbose := false; debugLog := false |}.

(** The variable a flag is bound to: where a parsed value goes. *)
Inductive flag_value :=
| BoolFlag (set : bool -> flags -> flags)
| StringFlag (set : bytes -> flags -> flags).

Definition formal (name : bytes) : option flag_value :=
  if decide (name = str "h") then Some (BoolFlag (fun b v =>
    {| help := b; confRoot := confRoot v; logPath := logPath v; stdOut := stdOut v;
       showVersion := showVersion v; showVerbose := showVerbose v; debugLog := debugLog v |}))
  else if decide (name = str "c") then Some (StringFlag (fun s v =>
    {| help := help v; confRoot := s; logPath := logPath v; stdOut := stdOut v;
       showVersion := showVersion v; showVerbose := showVerbose v; debugLog := debugLog v |}))
  else if decide (name = str "l") then Some (StringFlag (fun s v =>
    {| help := help v; confRoot := confRoot v; logPath := s; stdOut := stdOut v;
       showVersion := showVersion v; showVerbose := showVerbose v; debugLog := debugLog v |}))
  else if decide (name = str "s") then Some (BoolFlag (fun b v =>
    {| help := help v; confRoot := confRoot v; logPath := logPath v; stdOut := b;
       showVersion := showVersion v; showVerbose := showVerbose v; debugLog := debugLog v |}))
  else if decide (name = str "v") then Some (BoolFlag (fun b v =>
    {| help := help v; confRoot := confRoot v; logPath := logPath v; stdOut := stdOut v;
       showVersion := b; showVerbose := showVerbose v; debugLog := debugLog v |}))
  else if decide (name = str "V") then Some (BoolFlag (fun b v =>
    {| help := help v; confRoot := confRoot v; logPath := logPath v; stdOut := stdOut v;
       showVersion := showVersion v; showVerbose := b; debugLog := debugLog v |}))
  else if decide (name = str "d") then Some (BoolFlag (fun b v =>
    {| help := help v; confRoot := confRoot v; logPath := logPath v; stdOut := stdOut v;
       showVersion := showVersion v; showVerbose := showVerbose v; debugLog := b |}))
  else None.

(** [strconv.ParseBool]. *)
Definition ParseBool (s : bytes) : option bool :=
  if decide (s ∈ map str ["1"; "t"; "T"; "TRUE"; "true"; "True"]%string) then Some true
  else if decide (s ∈ map str ["0"; "f"; "F"; "FALSE"; "false"; "False"]%string) then Some false
  else None.

(** A name up to its first [=] that is not its first byte, and what follows that. *)
Fixpoint cut_at (c : byte) (s : bytes) : bytes * option bytes :=
  match s with
  | [] => ([], None)
  | x :: s => if decide (x = c) then ([], Some s) else let '(n, v) := cut_at c s in (x :: n, v)
  end.

Definition cut_equals (name : bytes) : bytes * option bytes :=
  match name with
  | [] => ([], None)
  | x :: s => let '(n, v) := cut_at x3d s in (x :: n, v)
  end.

(** What the next argument is: not a flag, the end of the flags, or a flag. *)
Inductive argument :=
| NotFlag
| Terminator
| BadSyntax
| FlagArg (name : bytes).

Definition minus : byte := x2d.

Definition flag_name (s : bytes) : argument :=
  match s with
  | x :: s' =>
      if decide (x = minus) then
        match s' with
        | [] => NotFlag
        | y :: s'' =>
            if decide (y = minus /\ s'' = []) then Terminator else
            match (if decide (y = minus) then s'' else s') with
            | [] => BadSyntax
            | z :: name => if decide (z = minus \/ z = x3d) then BadSyntax else FlagArg (z :: name)
            end
        end
      else NotFlag
  | [] => NotFlag
  end.

Inductive parse_result :=
| Parsed (v : flags) (args : list bytes)
| UsageError
| HelpWanted.

(** The arguments are consumed one or two at a time. *)
Fixpoint parse_flags (v : flags) (args : list bytes) : parse_result :=
  match args with
  | [] => Parsed v []
  | s :: rest =>
      match flag_name s with
      | NotFlag => Parsed v args
      | Terminator => Parsed v rest
      | BadSyntax => UsageError
      | FlagArg name =>
          let '(name, value) := cut_equals name in
          match formal name with
          | None => if decide (name = str "help") then HelpWanted else UsageError
          | Some (BoolFlag set) =>
              match ParseBool (default (str "true") value) with
              | Some b => parse_flags (set b v) rest
              | None => UsageError
              end
          | Some (StringFlag set) =>
              match value, rest with
              | Some value, _ => parse_flags (set value v) rest
              | None, value :: rest => parse_flags (set value v) rest
              | None, [] => UsageError
              end
          end
      end
  end.

(** ** [path.Join] *)

Definition slash : byte := x2f.

(** The elements between the slashes. *)
Fixpoint path_elements (p : bytes) : list bytes :=
  match p with
  | [] => [[]]
  | c :: p =>
      if decide (c = slash) then [] :: path_elements p
      else match path_elements p with e :: es => (c :: e) :: es | [] => [[c]] end
  end.

(** The elements a clean path is made of, last first. *)
Definition path_add (rooted : bool) (out : list bytes) (e : bytes) : list bytes :=
  if decide (e = []) then out
  else if decide (e = str ".") then out
  else if decide (e = str "..") then
    match out with
    | d :: out' => if decide (d = str "..") then e :: out else out'
    | [] => if rooted then [] else [e]
    end
  else e :: out.

Fixpoint path_concat (es : list bytes) : bytes :=
  match es with
  | [] => []
  | [e] => e
  | e :: es => e ++ slash :: path_concat es
  end.

Definition path_Clean (p : bytes) : bytes :=
  let rooted := match p with c :: _ => bool_decide (c = slash) | [] => false end in
  let clean := path_concat (rev (fold_left (path_add rooted) (path_elements p) [])) in
  if rooted then slash :: clean
  else if decide (clean = []) then str "." else clean.

Definition path_Join (a b : bytes) : bytes :=
  match List.filter (fun e : bytes => negb (bool_decide (e = []))) [a; b] with
  | [] => []
  | es => path_Clean (path_concat es)
  end.

(** ** The process *)

Inductive level := DEBUG | INFO | ERROR.

(** What the command does to the terminal and the log. *)
Inductive effect :=
| PrintedDefaults
| PrintedVersion
| PrintedUsage
| PrintedInitError (err : error)
| LogOpened (switch : level) (dir : bytes) (stdout : bool)
| Logged (l : level) (format : bytes)
| LogClosed
| Waited (d : Z).

Definition version : bytes := str "0.1".

Section Process.
Context {L C : Type} `{Listener L C}.

Record process := {
  DebugIsOpen : bool;
  DebugHealthCheck : bool;
  p_effects : list effect;
  p_server : option (Server L * list (event C))
}.

Definition new_process : process :=
  {| DebugIsOpen := false; DebugHealthCheck := false; p_effects := []; p_server := None |}.

Definition set_DebugIsOpen (b : bool) (p : process) : process :=
  {| DebugIsOpen := b; DebugHealthCheck := DebugHealthCheck p; p_effects := p_effects p;
     p_server := p_server p |}.
Definition add_effect (e : effect) (p : process) : process :=
  {| DebugIsOpen := DebugIsOpen p; DebugHealthCheck := DebugHealthCheck p;
     p_effects := p_effects p ++ [e]; p_server := p_server p |}.
Definition set_p_server (s : Server L * list (event C)) (p : process) : process :=
  {| DebugIsOpen := DebugIsOpen p; DebugHealthCheck := DebugHealthCheck p;
     p_effects := p_effects p; p_server := Some s |}.

Definition effect_of (e : effect) : M process unit := modify (add_effect e).

(** [AbnormalExit]. *)
Definition AbnormalExit {A} : M process A := effect_of LogClosed ;;; stop (Exited 1).

(** [flag.Parse]: exits with status 2 on a malformed command line, with 0 on [-help]. *)
Definition flag_Parse (args : list bytes) : M process flags :=
  match parse_flags default_flags args with
  | Parsed v _ => ret v
  | UsageError => effect_of PrintedUsage ;;; stop (Exited 2)
  | HelpWanted => effect_of PrintedUsage ;;; stop (Exited 0)
  end.

(** [log.Init("proxy", logSwitch, logPath, stdOut, "midnight", 7)]. *)
Variable log_Init : level -> bytes -> bool -> option error.
(** [gcfg.ReadFileInto]. *)
Variable ReadFileInto : bytes -> Conf -> Conf * option error.
Variable listen : bytes -> L + error.
Variable unicode_ToUpper : Z -> Z.
Variable hkdf_sha1 : forall (secret salt info : bytes) (n : Z), bytes + error.
Variable gcm_of_aes : bytes -> AEAD.
Variable chacha20poly1305_New : bytes -> AEAD + error.

Definition main_Start (config : Conf) (root : bytes) : M process (option error) :=
  zoom (fun p => default (new_Server, []) (p_server p)) set_p_server
    (Start (C := C) listen unicode_ToUpper hkdf_sha1 gcm_of_aes chacha20poly1305_New config version root).

Definition main (args : list bytes) : M process unit :=
  let! fl := flag_Parse args in
  if help fl then effect_of PrintedDefaults
  else if showVerbose fl then effect_of PrintedVersion
  else
    let logSwitch := if debugLog fl then DEBUG else INFO in
    modify (set_DebugIsOpen (debugLog fl)) ;;;
    match log_Init logSwitch (logPath fl) (stdOut fl) with
    | Some err => effect_of (PrintedInitError err) ;;; AbnormalExit
    | None =>
        effect_of (LogOpened logSwitch (logPath fl) (stdOut fl)) ;;;
        effect_of (Logged INFO (str "proxy[version:%s] start")) ;;;
        let confPath := path_Join (confRoot fl) (str "proxy.conf") in
        let! '(config, err) := ConfigLoad ReadFileInto confPath (confRoot fl) SetDefaultConfig in
        match err with
        | Some _ =>
            effect_of (Logged ERROR (str "main(): in Server ConfigLoad():%s")) ;;;
            AbnormalExit
        | None =>
            let! err := main_Start config (confRoot fl) in
            match err with
            | Some _ => effect_of (Logged ERROR (str "main(): server.StartUp(): %s"))
            | None => ret tt
            end ;;;
            effect_of (Waited (1 * Second)) ;;;
            effect_of LogClosed
        end
    end.

End Process.
Arguments process L C : clear implicits.

(** ** What a run does *)

(** A command line for given flags, then other arguments. *)
Definition bool_arg (name : bytes) (b : bool) : bytes :=
  minus :: name ++ x3d :: str (if b then "true" else "false").
Definition string_arg (name value : bytes) : bytes := minus :: minus :: name ++ x3d :: value.
Definition print_flags (v : flags) : list bytes :=
  [bool_arg (str "h") (help v); string_arg (str "c") (confRoot v); string_arg (str "l") (logPath v);
   bool_arg (str "s") (stdOut v); bool_arg (str "v") (showVersion v); bool_arg (str "V") (showVerbose v);
   bool_arg (str "d") (debugLog v)].

(** Every setting of the flags can be given on the command line, whatever bytes the paths hold. *)
Lemma parse_print_flags v rest :
  parse_flags default_flags (print_flags v ++ str "--" :: rest) = Parsed v rest.
Proof. destruct v as [[] c l [] [] [] []]; reflexivity. Qed.

(** The flags but for the one of the version, which is parsed and never looked at. *)
Definition without_version (v : flags) : flags :=
  {| help := help v; confRoot := confRoot v; logPath := logPath v; stdOut := stdOut v;
     showVersion := false; showVerbose := showVerbose v; debugLog := debugLog v |}.

Definition same_run (r r' : parse_result) : Prop :=
  match r, r' with
  | Parsed v rest, Parsed v' rest' => without_version v = without_version v' /\ rest = rest'
  | UsageError, UsageError | HelpWanted, HelpWanted => True
  | _, _ => False
  end.

Lemma formal_version name v v' : without_version v = without_version v' ->
  match formal name with
  | Some (BoolFlag set) => forall b, without_version (set b v) = without_version (set b v')
  | Some (StringFlag set) => forall x, without_version (set x v) = without_version (set x v')
  | None => True
  end.
Proof.
  destruct v, v'. cbn. intros [= -> -> -> -> -> ->]. unfold formal.
  repeat (case_decide; [done|]). done.
Qed.

Lemma parse_flags_version args v v' :
  without_version v = without_version v' -> same_run (parse_flags v args) (parse_flags v' args).
Proof.
  remember (length args) as n eqn:Hn. revert args v v' Hn.
  induction n as [n IH] using lt_wf_ind. intros [|x rest] v v' -> Hv; [by split|]. cbn [parse_flags].
  destruct (flag_name x) as [| | |name]; [by split | by split | done |]. destruct (cut_equals name) as [key value].
  pose proof (formal_version key v v' Hv) as Hset. destruct (formal key) as [[set|set]|]; [| |by case_decide].
  - destruct (ParseBool _) as [b|]; [|done]. by apply (IH (length rest)); [cbn; lia | |].
  - destruct value as [value|]; [by apply (IH (length rest)); [cbn; lia | |]|].
    destruct rest as [|value rest]; [done|]. by apply (IH (length rest)); [cbn; lia | |].
Qed.

Section Runs.
Context {L C : Type} `{Listener L C}.
Variable log_Init : level -> bytes -> bool -> option error.
Variable ReadFileInto : bytes -> Conf -> Conf * option error.
Variable listen : bytes -> L + error.
Variable unicode_ToUpper : Z -> Z.
Variable hkdf_sha1 : forall (secret salt info : bytes) (n : Z), bytes + error.
Variable gcm_of_aes : bytes -> AEAD.
Variable chacha20poly1305_New : bytes -> AEAD + error.
Abbreviation run_Start := (Start (C := C) listen unicode_ToUpper hkdf_sha1 gcm_of_aes chacha20poly1305_New).
Abbreviation run_main := (main log_Init ReadFileInto listen unicode_ToUpper hkdf_sha1 gcm_of_aes chacha20poly1305_New).

(** The command line is well formed and asks for a run: neither for help nor for the verbose information.
    The flag of the version does not matter. *)
Definition wants_run (args : list bytes) (v : flags) : Prop :=
  (exists rest, parse_flags default_flags args = Parsed v rest) /\ help v = false /\ showVerbose v = false.

Definition log_switch (v : flags) : level := if debugLog v then DEBUG else INFO.

Definition read_config (v : flags) : Conf * option error :=
  ReadFileInto (path_Join (confRoot v) (str "proxy.conf")) (SetDefaultConfig zero_Conf).

(** All that is needed to start a server. *)
Definition ready (args : list bytes) (v : flags) (config : Conf) : Prop :=
  wants_run args v /\ log_Init (log_switch v) (logPath v) (stdOut v) = None /\
  read_config v = (config, None).

Lemma wants_run_or args : (exists v, wants_run args v) \/ (forall v, ~ wants_run args v).
Proof.
  unfold wants_run. destruct (parse_flags default_flags args) as [v rest| |];
    [|by right; intros v [[r Hr] _]..].
  destruct (help v) eqn:Eh, (showVerbose v) eqn:Ev; [right..|left]; [intros v' ([r Hr] & ? & ?); congruence..|].
  exists v. repeat split; eauto.
Qed.

(** The effects up to the start of the server. *)
Definition opened (v : flags) : list effect :=
  [LogOpened (log_switch v) (logPath v) (stdOut v); Logged INFO (str "proxy[version:%s] start")].

Lemma main_unwanted args f p :
  (forall v, ~ wants_run args v) -> p_server (state_after (run_main args f p)) = p_server p.
Proof.
  intros Hn. unfold main, flag_Parse, bind, effect_of.
  destruct (parse_flags default_flags args) as [v rest| |] eqn:E; [|done|done]. cbn.
  destruct (help v) eqn:Eh; [done|]. destruct (showVerbose v) eqn:Ev; [done|].
  destruct (Hn v). repeat split; eauto.
Qed.

Lemma main_log_fails args v err f :
  wants_run args v -> log_Init (log_switch v) (logPath v) (stdOut v) = Some err ->
  run_main args f new_process =
  Halt (Exited 1) (add_effect LogClosed (add_effect (PrintedInitError err) (set_DebugIsOpen (debugLog v) new_process))).
Proof.
  intros ([rest Hp] & Hh & Hv) Hl. unfold main, flag_Parse, bind. rewrite Hp. cbn. rewrite Hh, Hv. cbn.
  fold (log_switch v). by rewrite Hl.
Qed.

(** The process when the log is open. *)
Definition opened_process (v : flags) : process L C :=
  {| DebugIsOpen := debugLog v; DebugHealthCheck := false; p_effects := opened v; p_server := None |}.

Lemma main_opens args v f :
  wants_run args v -> log_Init (log_switch v) (logPath v) (stdOut v) = None ->
  run_main args f new_process =
  match read_config v with
  | (_, Some _) => Halt (Exited 1) (opened_process v)
  | (config, None) =>
      match run_Start config version (confRoot v) f (new_Server, []) with
      | Ret err s =>
          Ret tt (add_effect LogClosed (add_effect (Waited (1 * Second))
            (match err with
             | Some _ => add_effect (Logged ERROR (str "main(): server.StartUp(): %s"))
             | None => id
             end (set_p_server s (opened_process v)))))
      | Halt h s => Halt h (set_p_server s (opened_process v))
      end
  end.
Proof.
  intros ([rest Hp] & Hh & Hv) Hl. unfold main, flag_Parse, bind. rewrite Hp. cbn -[Start str]. rewrite Hh, Hv. cbn -[Start str].
  fold (log_switch v). rewrite Hl. unfold ConfigLoad, read_config. cbn -[Start str].
  destruct (ReadFileInto _ _) as [config [err|]]; [done|]. cbn -[Start str]. unfold main_Start, zoom. cbn -[Start str].
  destruct (run_Start config version (confRoot v) f (new_Server, [])) as [[err|] s|h s]; done.
Qed.

Lemma main_ignores_version args f p : run_main (str "-v" :: args) f p = run_main args f p.
Proof.
  unfold main, flag_Parse, bind.
  change (parse_flags default_flags (str "-v" :: args)) with (parse_flags
    {| help := false; confRoot := str "./conf"; logPath := str "./log"; stdOut := false;
       showVersion := true; showVerbose := false; debugLog := false |} args).
  pose proof (parse_flags_version args {| help := false; confRoot := str "./conf"; logPath := str "./log";
    stdOut := false; showVersion := true; showVerbose := false; debugLog := false |} default_flags eq_refl) as Hv.
  destruct (parse_flags _ args) as [v rest| |], (parse_flags default_flags args) as [v' rest'| |]; try done.
  destruct Hv as [Hv ->], v, v'. cbn in Hv. injection Hv as -> -> -> -> -> ->. reflexivity.
Qed.

(** C39. A server runs exactly when the command line is well formed and asks neither for help ([-h]) nor
    for the verbose information ([-V]), the log could be opened at the level the debug flag asks for, and
    the configuration file under the root was read; it is then the server [Start] makes of the file's
    settings laid over the defaults, with the debug switch as the flag has it. Whatever else
    happens no server is made. The flag [-v], documented as showing the version, has no effect: a run with
    it is the run without it. *)
Theorem main_starts args f :
  let p := state_after (run_main args f new_process) in
  (forall v config, ready args v config ->
     p_server p = Some (state_after (run_Start config version (confRoot v) f (new_Server, []))) /\
     DebugIsOpen p = debugLog v) /\
  ((forall v config, ~ ready args v config) -> p_server p = None) /\
  run_main (str "-v" :: args) f new_process = run_main args f new_process.
Proof.
  split; [|split; [|apply main_ignores_version]].
  - intros v config (Hw & Hl & Hc). rewrite (main_opens args v f Hw Hl), Hc.
    destruct (run_Start config version (confRoot v) f (new_Server, [])) as [[err|] s|h s]; by split.
  - intros Hn. destruct (wants_run_or args) as [[v Hw]|Hno]; [|by rewrite main_unwanted].
    destruct (log_Init (log_switch v) (logPath v) (stdOut v)) as [err|] eqn:Hl.
    + by rewrite (main_log_fails args v err f Hw Hl).
    + rewrite (main_opens args v f Hw Hl). destruct (read_config v) as [config [err|]] eqn:Hc; [done|].
      by destruct (Hn v config).
Qed.

(** C40. How a run ends.  When the log cannot be opened the process exits with status 1 and the log
    closed; when the configuration cannot be read it exits with status 1 too, but from inside
    [ConfigLoad], with the log still open and no error in it; and when [Start] returns, with an error or
    without, the command ends normally, a second later, with the log closed. *)
Theorem main_ends args v f :
  wants_run args v ->
  match log_Init (log_switch v) (logPath v) (stdOut v), read_config v with
  | Some err, _ =>
      exists p, run_main args f new_process = Halt (Exited 1) p /\ p_effects p = [PrintedInitError err; LogClosed]
  | None, (_, Some _) =>
      exists p, run_main args f new_process = Halt (Exited 1) p /\ p_effects p = opened v
  | None, (config, None) =>
      forall err s, run_Start config version (confRoot v) f (new_Server, []) = Ret err s ->
      exists p, run_main args f new_process = Ret tt p /\ p_server p = Some s /\
        p_effects p = opened v ++
          (if err is Some _ then [Logged ERROR (str "main(): server.StartUp(): %s")] else []) ++
          [Waited (1 * Second); LogClosed]
  end.
Proof.
  intros Hw. destruct (log_Init (log_switch v) (logPath v) (stdOut v)) as [err|] eqn:Hl.
  - eexists. split; [exact (main_log_fails args v err f Hw Hl) | done].
  - rewrite (main_opens args v f Hw Hl). destruct (read_config v) as [config [err|]].
    + by eexists.
    + intros err s ->. by destruct err; eexists.
Qed.
End Runs.

Example join_default : path_Join (str "./conf") (str "proxy.conf") = str "conf/proxy.conf".
Proof. reflexivity. Qed.
Example join_up : path_Join (str "/etc/../opt//x/./") (str "proxy.conf") = str "/opt/x/proxy.conf".
Proof. reflexivity. Qed.
Example join_out : path_Join (str "../../a/..") (str "proxy.conf") = str "../../proxy.conf".
Proof. reflexivity. Qed.

(** ** Witnesses *)

(** A configuration file that is only there under [conf]. *)
Definition example_file (path : bytes) (conf : Conf) : Conf * option error :=
  if decide (path = str "conf/proxy.conf") then (example_conf (str "secret"), None)
  else (conf, Some (ForeignError 2)).
Definition log_opens (switch : level) (dir : bytes) (stdout : bool) : option error := None.

Definition example_args : list bytes := [str "-v"; str "-d"; str "-s=1"; str "-l"; str "/var/log"].
Definition example_flags : flags :=
  {| help := false; confRoot := str "./conf"; logPath := str "/var/log"; stdOut := true;
     showVersion := true; showVerbose := false; debugLog := true |}.

Abbreviation example_main := (main log_opens example_file example_listen id toy_hkdf toy_gcm toy_chacha).

Lemma main_starts_witness :
  let p := state_after (example_main example_args 99%nat new_process) in
  (exists s, p_server p = Some s) /\ DebugIsOpen p = true.
Proof.
  cbv zeta.
  destruct (proj1 (main_starts log_opens example_file example_listen id toy_hkdf toy_gcm toy_chacha
    example_args 99) example_flags (example_conf (str "secret"))) as [Hs Hd].
  { repeat split. eexists. reflexivity. }
  split; [eexists; exact Hs | exact Hd].
Defined.

(** The other root has no configuration. *)
Lemma main_ends_witness :
  exists p, example_main [str "-c"; str "/etc"] 99%nat new_process = Halt (Exited 1) p /\
    p_effects p = [LogOpened INFO (str "./log") false; Logged INFO (str "proxy[version:%s] start")].
Proof.
  refine (main_ends log_opens example_file example_listen id toy_hkdf toy_gcm toy_chacha
    [str "-c"; str "/etc"]
    {| help := false; confRoot := str "/etc"; logPath := str "./log"; stdOut := false;
       showVersion := false; showVerbose := false; debugLog := false |} 99 _).
  repeat split. eexists. reflexivity.
Defined.
