(* ===== verification/Session.v ===== *)
(** Whole sessions: the handler of a connection and the relay it goes on to, at both ends of the proxy,
    and the two ends together. *)

From Stdlib Require Import ZArith Lia.
From Stdlib Require Import Strings.Byte.
From stdpp Require Import base decidable list numbers strings.
From S2P Require Import Prelude GoIO Endpoint SaltFilter ShadowCipher ShadowStream ShadowRecord ShadowConn Tunnel GoNet SocksAddr SocksHandshake BufReader BufWriter BufWriterSpec Cork Relay Core Serve ServeSpec.

(** ** The stream a handler read from, as a tunnel end *)

Section Agree.
Context {G : Type} `{Reader G}.
Context {B : Type} `{BloomLaws B}.
Context {C : Type} `{Duplex C}.
Context {env : environment}.

Abbreviation stream_reader :=
  (stream_Reader (G := G) (B := B) (C := C) (env_Getenv env) (env_ParseFloat env)).
Abbreviation tend := (tunnel_end env C G B).

(** What a connection was seen to deliver is what it promises. *)
Lemma stream_agrees F k F' k' sc (p : process G B) base plain err bs e bs' e' :
  @delivers _ stream_reader F k (Shadowed sc, p) bs e ->
  te_offers F' k' (TunnelEnd (world_of sc p) base plain err : tend) bs' e' -> bs = bs' /\ e = e'.
Proof.
  revert k' sc p bs bs'. induction k as [|k IH]; intros k' sc p bs bs' Hd Ho; [done|].
  cbn [delivers] in Hd. specialize (Hd [x00] (Nat.max F F') ltac:(done) ltac:(lia)).
  pose proof (te_read F' k' _ bs' e' [x00] (Nat.max F F') Ho ltac:(done) ltac:(lia)) as Hr.
  revert Hd Hr. unfold wp, read, stream_Reader, on_stream, tunnel_Reader, zoom. fold (world_of sc p).
  cbn [te_world]. destruct (streamConn_Read _ _ [x00] _ (world_of sc p)) as [[[b n] er] w|h w]; [|done].
  intros (chunk & rest & -> & -> & _ & _ & Hc & Her) (chunk' & rest' & -> & Hn & _ & Hc' & Her').
  assert (chunk = chunk') as <- by (rewrite <- Hc, <- Hc'; f_equal; lia).
  destruct er as [e1|].
  - destruct Her as (-> & -> & _), Her' as (-> & ->). done.
  - destruct Her' as (k2 & _ & Ho'). destruct (IH k2 (conn_of w) (after_world w p) rest rest') as [-> ->]; [exact Her | |done].
    destruct w as [sc' t g]. exact Ho'.
Qed.

End Agree.

(** ** The server side *)

Section ServerSession.
Context {G : Type} `{Reader G}.
Context {B : Type} `{BloomLaws B}.
Context {C : Type} `{Duplex C}.
Context {T : Type}.
Context {env : environment}.
Variable dial : bytes -> T + error.

Abbreviation corked := (corkedConn (C := C)).
Abbreviation server := (server_conn (G := G) (B := B) (C := C) (R := T) (env_Getenv env) (env_ParseFloat env) dial).
Abbreviation tend := (tunnel_end env corked G B).

(** The tunnel of a handler, ready to be relayed. *)
Definition tunnel_of (sc : streamConn corked) (p : process G B) (base plain : bytes) : tend :=
  TunnelEnd (world_of sc p) base plain None.

(** A fresh cork has taken nothing yet. *)
Lemma fresh_cork (c : C) : sink_ok c ->
  let w := timedCork (fun _ => None) c (10 * Millisecond) 1280 in sink_ok w /\ written w = written c.
Proof.
  intros Hsink w. pose proof (timedCork_inv (fun _ => None) c (10 * Millisecond) 1280 eq_refl Hsink) as Hinv.
  fold w in Hinv. pose proof (proj1 (proj2 Hinv)) as Hacc. split; [|exact Hacc].
  change (ck_inv (accepted (ck_bufw w)) w). by rewrite Hacc.
Qed.

(** Reading the address stays in the session. *)
Lemma ReadAddr_in_session Fi ki e s0 salt aead recs :
  awaiting s0 salt aead -> known_salt salt (salts s0) = false ->
  delivers Fi ki (Conn (conn_of s0)) (salt ++ recs) e ->
  keeps_from (S (Nat.max Fi ki)) (fun '(st, q) => exists sc, st = Shadowed sc /\
    reading_session (C := corked) (G := G) (B := B) Fi ki e s0 (world_of sc q))
    (ReadAddr (H := stream_Reader (env_Getenv env) (env_ParseFloat env))).
Proof.
  intros Haw Hnew Hd. apply ReadAddr_keeps. intros b _ f1 [st q] r [st' q'] HF1 (sc & -> & Hs) Hr.
  unfold read, stream_Reader, on_stream in Hr. fold (world_of sc q) in Hr.
  destruct (streamConn_Read _ _ b f1 (world_of sc q)) as [x w|h w] eqn:E; [|done].
  injection Hr as _ <- <-. exists (conn_of w). split; [done|].
  destruct w as [sc' t' g']. eapply reading_session_keeps; [exact Haw | exact Hnew | exact Hd | exact HF1 | exact Hs | exact E].
Qed.

(** Nothing of the session was read: all of it is still offered. *)
Lemma unread_offers Fi ki e (s0 : world corked G B) salt aead chunks base plain :
  awaiting s0 salt aead -> known_salt salt (salts s0) = false -> Forall chunk_ok chunks ->
  delivers Fi ki (Conn (conn_of s0)) (salt ++ encode aead (zeros (NonceSize aead)) chunks) e ->
  exists k, te_offers (S (Nat.max Fi ki)) k (TunnelEnd s0 base plain None : tend) (concat chunks) e.
Proof.
  intros Haw Hnew Hok Hd. pose proof Haw as [Hfresh _ Hlaws _ _].
  exists (S (2 * length (salt ++ encode aead (zeros (NonceSize aead)) chunks))), Fi, ki,
    (salt ++ encode aead (zeros (NonceSize aead)) chunks), e.
  split; [lia|]. split; [exact Hd|]. cbn [te_world]. rewrite Hfresh. split; [|lia]. right.
  exists salt, aead, (encode aead (zeros (NonceSize aead)) chunks). split; [exact Haw|]. split; [done|].
  rewrite Hnew. by rewrite plaintext_records.
Qed.

(** A handler that read the address [t] from a new session has a tunnel that offers the rest of the
    session, and that can answer. *)
Lemma server_relay_ready Fi ki a p salt aead (c : C) chunks e t rest tc f :
  can_accept a p salt aead -> can_open (env_fuel env) (env_reads env) a p (env_salt env) (env_AEAD env) -> sink_ok c ->
  Forall chunk_ok chunks -> target_wf t -> concat chunks = encode_target t ++ rest ->
  delivers Fi ki c (salt ++ encode aead (zeros (NonceSize aead)) chunks) e ->
  dial (target_text t) = inl tc ->
  (Fi < f)%nat -> (ki < f)%nat -> (length (concat chunks) + length chunks + 1 < f)%nat ->
  wp server f (server_tunnel (aeadCipher (Some a)) c, p) (fun r '(st, p') =>
    r = RelayServer tc /\ exists sc, st = Shadowed sc /\
      ep_live (tunnel_of sc p' (written c) []) /\
      exists k, offers (S (Nat.max Fi ki)) k (tunnel_of sc p' (written c) []) rest e).
Proof.
  intros Hacc Hopen Hsink Hok Hwf Hcat Hd Hdial HF Hk Hlen.
  set (s0 := world_of (NewConn (timedCork (fun _ => None) c (10 * Millisecond) 1280) a) p).
  assert (delivers Fi ki (Conn (conn_of s0)) (salt ++ encode aead (zeros (NonceSize aead)) chunks) e) as Hd0.
  { apply corked_delivers. exact Hd. }
  assert (awaiting s0 salt aead) as Haw by (destruct Hacc; by constructor).
  pose proof (server_tunnel_delivers (env_Getenv env) (env_ParseFloat env) Fi ki a p salt aead c chunks e
    Hacc Hok Hd) as Hdel.
  unfold server_conn. wp_step. eapply wp_mono.
  { apply (wp_keeps_from (S (Nat.max Fi ki)) (fun '(st, q) => exists sc, st = Shadowed sc /\
      reading_session Fi ki e s0 (world_of sc q))).
    - eapply ReadAddr_in_session; [exact Haw | apply Hacc | exact Hd0].
    - lia.
    - exists (conn_of s0). split; [done|]. left. done.
    - eapply ReadAddr_run; [exact Hdel | lia | lia]. }
  intros [tgt err] [st p'] [Hres (sc & -> & Hs)]. rewrite Hcat, SplitAddr_encode in Hres by done.
  destruct Hres as (-> & -> & Hrest). rewrite drop_app_length, <- Hcat in Hrest. wp_step.
  cbn [default]. change (id (encode_target t)) with (encode_target t).
  eapply wp_mono; [by apply Addr_String_run|]. intros text s (-> & ->). rewrite Hdial. do 3 wp_step.
  split; [done|]. exists sc. split; [done|]. change (world_of sc p') with (world_of sc (count_request p')) in Hs.
  assert (forall k' bs' e', te_offers (S (Nat.max Fi ki)) k' (tunnel_of sc p' (written c) []) bs' e' -> bs' = rest /\ e' = e)
    as Hagree by (intros k' bs' e' Ho; destruct (stream_agrees _ _ _ _ _ _ _ _ _ _ _ _ _ Hrest Ho); done).
  destruct Hs as [Hs | (Hsalts & [Hw Hk' Hg [Hout Hsk]] & r & wire & Hr & Hrwf & Hwire)].
  { exfalso. destruct (unread_offers Fi ki e s0 salt aead chunks (written c) [] Haw ltac:(apply Hacc) Hok Hd0) as [k0 Ho].
    rewrite <- Hs in Ho. destruct (Hagree _ _ _ Ho) as [Hall _].
    rewrite Hall in Hcat. apply (f_equal length) in Hcat. rewrite length_app in Hcat. destruct t; cbn in Hcat; lia. }
  destruct (fresh_cork c Hsink) as [Hok0 Hw0].
  split.
  - split; [by apply Hsk|]. split; [|intros _; unfold tunnel_of; cbn [te_world]; by rewrite Hr].
    intros _. unfold te_sent, tunnel_of. cbn [te_world te_plain te_base]. rewrite Hw.
    split; [done|]. split; [exact (eq_trans Hout Hw0)|]. destruct Hopen as [? ? ? ? Hrand].
    constructor; rewrite ?Hk', ?Hsalts, ?Hg, ?Hw; auto.
  - destruct (reader_offers r wire e) as [bs' e'] eqn:Ebs.
    assert (te_offers (S (Nat.max Fi ki)) (S (reader_measure r wire)) (tunnel_of sc p' (written c) []) bs' e') as Ho.
    { exists Fi, ki, wire, e. split; [lia|]. split; [exact Hwire|]. cbn in Hr |- *. rewrite Hr.
      split; [exact Hrwf|]. split; [exact Ebs | lia]. }
    destruct (Hagree _ _ _ Ho) as [-> ->]. by eexists.
Qed.

End ServerSession.

(** ** The local side *)

Section LocalSession.
Context {G : Type} `{Reader G}.
Context {B : Type} `{BloomLaws B}.
Context {C : Type} `{Duplex C}.
Context {R : Type} `{Duplex R}.
Context {env : environment}.
Variable dial : bytes -> R + error.

Abbreviation local := (local_conn (G := G) (B := B) (C := C) (R := R) (env_Getenv env) (env_ParseFloat env) dial).

(** The process once it has sent [salt], with a connection that has not read. *)
Definition after_salt (a : Cipher) (rc : R) (salt : bytes) (p : process G B) : world (corkedConn (C := R)) G B :=
  {| conn_of := NewConn (timedCork (fun _ => None) rc (10 * Millisecond) 1280) a;
     salts := after_AddSalt salt (p_salts p); rand := p_rand p |}.

(** A handler that served a CONNECT for [t] has a client that goes on with [rest], and a tunnel through
    which the address went and that offers what the server's bytes open to. *)
Lemma local_relay_ready F k la c p e f v methods v' rsv t rest a server rc Fi ki wire eS bsS e' :
  accepts c -> len methods <= 255 -> target_wf t ->
  delivers F k c (connect_request v v' rsv methods t rest) e ->
  dial server = inl rc -> reliable rc -> can_open F k a p (env_salt env) (env_AEAD env) ->
  enough_fuel (C := C) (R := R) F k f ->
  delivers Fi ki rc wire eS -> opens (after_salt a rc (env_salt env) p) wire eS bsS e' ->
  wp (local (HandShake false (Some la)) (aeadCipher (Some a)) server) f (c, p) (fun r '(c', p') =>
    exists sc, r = RelayLocal (Some (encode_target t)) (Shadowed sc) /\
      written c' = written c ++ method_reply ++ connect_reply /\ sink_ok c' /\ delivers F k c' rest e /\
      ep_live (tunnel_of (env := env) sc p' (written rc) (encode_target t)) /\
      exists k', offers (S (Nat.max Fi ki)) k' (tunnel_of (env := env) sc p' (written rc) (encode_target t)) bsS e').
Proof.
  intros Hacc Hm Hwf Hd Hdial Hrc Hopen (HfC & HfR & HF & Hk & H300) Hds Hopens. unfold local_conn. wp_step.
  apply wp_on_conn. eapply wp_mono; [by eapply connect_run|].
  intros [tgt err] c' (-> & -> & [(P & HP & HPok & _) Hs] & Hd'). cbv zeta. rewrite Hdial. wp_step. apply wp_on_new.
  cbn [StreamConn default]. change (id (encode_target t)) with (encode_target t).
  apply wp_shadowed.
  pose proof (local_opening F k a p _ _ rc Hopen Hrc) as Hop.
  pose proof (encode_target_fits t Hwf) as Hl. unfold MaxAddrLen in Hl.
  set (s0 := world_of (NewConn (timedCork (fun _ => None) rc (10 * Millisecond) 1280) a) p) in *.
  eapply wp_mono.
  { apply (wp_keeps (write_from (fun c => delivers Fi ki c wire eS) s0)).
    - apply streamConn_Write_keeps. intros q. apply write_keeps_stream.
    - constructor; try done. by apply corked_delivers.
    - apply (Write_fresh _ _ F k _ (env_salt env) (env_AEAD env)); [exact Hop | exact HfR | done | done | lia]. }
  intros [n err] w [[Hrel Hres] [Hr Hci _ Hin]]. destruct Hrel as [-> Hrel'].
  { apply corked_reliable. by apply timedCork_reliable. }
  destruct (Hres eq_refl) as (_ & Hsalts & cs & Hcs & Hses). wp_step.
  exists (conn_of w). split; [done|]. split; [exact Hs|]. split; [by apply HPok|]. split; [exact Hd'|].
  assert (written (Conn (conn_of s0)) = written rc) as Hbase.
  { cbn. unfold accepted. by rewrite pending_nil, app_nil_r by done. }
  rewrite Hbase in Hses. destruct w as [sc ts g]. pose proof Hses as (w0 & Hw0 & _).
  split.
  - split; [exact (reliable_ok _ Hrel')|]. split; [|intros Hn; cbn in Hn, Hw0; congruence].
    intros _. unfold te_sent, tunnel_of. cbn [te_world te_plain te_base]. cbn in Hw0 |- *. rewrite Hw0.
    exists cs. split; [exact Hses | exact Hcs].
  - exists (S (2 * length wire)). exists Fi, ki, wire, eS. split; [lia|]. split; [exact Hin|].
    unfold tunnel_of. cbn [te_world]. cbn in Hr |- *. rewrite Hr. split; [|lia].
    apply (opens_ext (after_salt a rc (env_salt env) p)); [exact Hr | exact Hci | exact Hsalts | exact Hopens].
Qed.

End LocalSession.

(** ** From the client to the target and back *)

Section EndToEnd.
Context {G : Type} `{Reader G}.
Context {B : Type} `{BloomLaws B}.
(** The client, the tunnel at the local end, the tunnel at the server's end, and the target. *)
Context {C : Type} `{Duplex C}.
Context {R : Type} `{Duplex R}.
Context {S : Type} `{Duplex S}.
Context {T : Type} `{Duplex T}.
(** What the two ends of the tunnel depend on. *)
Variable env1 env2 : environment.
Variable dial_remote : bytes -> R + error.
Variable dial_target : bytes -> T + error.

Abbreviation local := (local_conn (G := G) (B := B) (C := C) (R := R) (env_Getenv env1) (env_ParseFloat env1) dial_remote).
Abbreviation server := (server_conn (G := G) (B := B) (C := S) (R := T) (env_Getenv env2) (env_ParseFloat env2) dial_target).
Abbreviation local_tunnel := (tunnel_end env1 (corkedConn (C := R)) G B).
Abbreviation server_tunnel_end := (tunnel_end env2 (corkedConn (C := S)) G B).

(** The bytes below a tunnel, and the records of its session. *)
Definition below {D} (w : world (corkedConn (C := D)) G B) : corkedConn (C := D) := Conn (conn_of w).
Definition records (env : environment) (cs : list bytes) : bytes :=
  env_salt env ++ encode (env_AEAD env) (zeros (NonceSize (env_AEAD env))) cs.

(** A client of the local side that asks for [t] and then sends [rest], with a remote server that
    accepts what it is sent and itself sends [wire], which opens to [back]. *)
Record local_session (F k f Fi ki : nat) (c : C) (p : process G B) (a : Cipher) (remote : bytes) (rc : R)
    (t : target) (v v' rsv : byte) (methods rest wire back : bytes) (e eS eB : error) : Prop := {
  ls_client : accepts c;
  ls_methods : len methods <= 255;
  ls_target : target_wf t;
  ls_request : delivers F k c (connect_request v v' rsv methods t rest) e;
  ls_dial : dial_remote remote = inl rc;
  ls_remote : reliable rc;
  ls_open : can_open F k a p (env_salt env1) (env_AEAD env1);
  ls_fuel : enough_fuel (C := C) (R := R) F k f;
  ls_wire : delivers Fi ki rc wire eS;
  ls_back : opens (after_salt a rc (env_salt env1) p) wire eS back eB
}.

(** A server that gets the records [cs] of a session, which hold the address of [t] and then [up], and
    whose target sends [down]. *)
Record server_session (Fi ki f Ft kt : nat) (c : S) (q : process G B) (a : Cipher) (cs : list bytes)
    (t : target) (tc : T) (up down : bytes) (e eT : error) : Prop := {
  ss_accept : can_accept a q (env_salt env1) (env_AEAD env1);
  ss_answer : can_open (env_fuel env2) (env_reads env2) a q (env_salt env2) (env_AEAD env2);
  ss_ok : sink_ok c;
  ss_records : Forall chunk_ok cs;
  ss_target : target_wf t;
  ss_holds : concat cs = encode_target t ++ up;
  ss_wire : delivers Fi ki c (records env1 cs) e;
  ss_dial : dial_target (target_text t) = inl tc;
  ss_fuel : (Fi < f /\ ki < f /\ length (concat cs) + length cs + 1 < f)%nat;
  ss_target_ok : sink_ok tc;
  ss_down : delivers Ft kt tc down eT
}.

(** The fuel of a relay between an end below which reads take [Fi] and [ki] and an end that takes [F]. *)
Definition relay_fuel (D E : Type) (env : environment) `{Duplex D, Duplex E} (Fi ki F g : nat) : Prop :=
  (Datatypes.S (Nat.max Fi ki) <= g /\ F <= g /\ sink_fuel E <= g /\
   Nat.max 3 (sink_fuel D) <= g /\ env_fuel env <= g /\ env_reads env < g)%nat.

Lemma relay_ready {D E} `{Duplex D} `{Duplex E} (env : environment) Fi ki F k k' g
    (tun : tunnel_end env (corkedConn (C := D)) G B) (x : E) bs e bs' e' :
  ep_live tun -> te_err tun = None -> offers (Datatypes.S (Nat.max Fi ki)) k tun bs e ->
  sink_ok x -> delivers F k' x bs' e' -> relay_fuel D E env Fi ki F g ->
  relayable (Nat.max (Datatypes.S (Nat.max Fi ki)) F) k k' g tun x bs e bs' e'.
Proof.
  intros Hl He Ho Hok Hd (? & ? & ? & ? & ? & ?). constructor; try done.
  - by eapply te_offers_mono; [|exact Ho]; lia.
  - apply (delivers_mono F _ k' k'); [lia | lia | exact Hd].
  - cbn. unfold te_fuel. cbn. lia.
Qed.

(** A cork has taken [out]: what went to the connection below and what its buffer still holds, and once
    it was opened without an error it holds nothing. *)
Definition cork_took (w : corkedConn (C := R)) (out : bytes) : Prop :=
  written (ck_Conn w) ++ pending (ck_bufw w) = out /\
  (ck_corked w = false -> ck_err w = None -> pending (ck_bufw w) = []).

Lemma cork_accounts (w : corkedConn (C := R)) : sink_ok w -> cork_took w (written w).
Proof. intros (_ & _ & _ & _ & _ & Hopen). split; [done|]. intros Hc He. by apply pending_nil, Hopen. Qed.

(** The relay of the local side, with what both directions do. *)
Lemma local_session_run F k f Fi ki la c p a remote rc t v v' rsv methods rest wire back e eS eB :
  local_session F k f Fi ki c p a remote rc t v v' rsv methods rest wire back e eS eB ->
  wp (local (HandShake false (Some la)) (aeadCipher (Some a)) remote) f (c, p) (fun r '(c', p') =>
    exists sc, r = RelayLocal (Some (encode_target t)) (Shadowed sc) /\
    forall timeout g n (s : relay_state local_tunnel C),
      relay_fuel R C env1 Fi ki F g ->
      relay_run stream_copy timeout g n (relay_start (tunnel_of sc p' (written rc) (encode_target t)) c') s ->
      (exists given left, back = given ++ left /\
         written (r_right s) = written c ++ method_reply ++ connect_reply ++ given /\
         (r_p1 s = Finished None -> left = [])) /\
      (exists sent left, rest = sent ++ left /\ (r_p2 s = Finished None -> left = []) /\
         (te_err (r_left s) = None -> exists cs, Forall chunk_ok cs /\ concat cs = encode_target t ++ sent /\
            cork_took (below (te_world (r_left s))) (te_base (r_left s) ++ records env1 cs)))).
Proof.
  intros [Hacc Hm Hwf Hd Hdial Hrc Hopen Hfuel Hw Hb].
  eapply wp_mono; [by eapply (local_relay_ready dial_remote)|].
  intros r [c' p'] (sc & Hr & Hout & Hok & Hd' & Hlive & k' & Ho). exists sc. split; [exact Hr|].
  intros timeout g n s Hg Hrun.
  assert (copies stream_copy) as Hpol by (left; by right).
  pose proof (relay_ready env1 Fi ki F k' k g _ _ _ _ _ _ Hlive eq_refl Ho Hok Hd' Hg) as Hra.
  destruct (relay_transfers _ timeout _ _ _ _ _ _ _ _ _ g n s Hpol Hra Hrun)
    as [(given & left & Hgiven & Hright & Hdone1) (sent & left' & Hsent & Hleft & Hdone2)].
  destruct (relay_keeps_live _ timeout _ _ _ _ _ _ _ _ _ g n s Hpol Hra Hrun) as [Hlive' _].
  split; [exists given, left | exists sent, left'].
  - split; [exact Hgiven|]. split; [|exact Hdone1]. cbn in Hright. by rewrite Hright, Hout, <- !app_assoc.
  - split; [exact Hsent|]. split; [exact Hdone2|]. intros He.
    cbn in Hleft. destruct (te_wire _ Hlive' He) as (cs & Hcs & Hcat & Hwire).
    { rewrite Hleft. by destruct t. }
    exists cs. split; [exact Hcs|].
    split; [by rewrite Hcat, Hleft|]. unfold records. rewrite <- Hwire. apply cork_accounts, Hlive'.
Qed.

(** The relay of the server side. *)
Lemma server_session_run Fi ki f Ft kt c q a cs t tc up down e eT :
  server_session Fi ki f Ft kt c q a cs t tc up down e eT ->
  wp server f (server_tunnel (aeadCipher (Some a)) c, q) (fun r '(st, q') =>
    r = RelayServer tc /\ exists sc, st = Shadowed sc /\
    forall timeout g n (s : relay_state server_tunnel_end T),
      relay_fuel S T env2 Fi ki Ft g ->
      relay_run stream_copy timeout g n (relay_start (tunnel_of sc q' (written c) []) tc) s ->
      (exists given left, up = given ++ left /\ written (r_right s) = written tc ++ given /\
         (r_p1 s = Finished None -> left = [])) /\
      (exists sent left, down = sent ++ left /\ te_plain (r_left s) = sent /\ (r_p2 s = Finished None -> left = []) /\
         (te_err (r_left s) = None -> sent <> [] -> exists cs, Forall chunk_ok cs /\ concat cs = sent /\
            written (below (te_world (r_left s))) = te_base (r_left s) ++ records env2 cs))).
Proof.
  intros [Hacc Hans Hok Hcs Hwf Hcat Hw Hdial (HF & Hk & Hlen) Htok Hdown].
  eapply wp_mono; [by eapply (server_relay_ready dial_target Fi ki a q _ _ c cs e t up tc)|].
  intros r [st q'] (-> & sc & -> & Hlive & k' & Ho). split; [done|]. exists sc. split; [done|].
  intros timeout g n s Hg Hrun.
  assert (copies stream_copy) as Hpol by (left; by right).
  pose proof (relay_ready env2 Fi ki Ft k' kt g _ _ _ _ _ _ Hlive eq_refl Ho Htok Hdown Hg) as Hra.
  destruct (relay_transfers _ timeout _ _ _ _ _ _ _ _ _ g n s Hpol Hra Hrun)
    as [(given & left & Hgiven & Hright & Hdone1) (sent & left' & Hsent & Hleft & Hdone2)].
  destruct (relay_keeps_live _ timeout _ _ _ _ _ _ _ _ _ g n s Hpol Hra Hrun) as [Hlive' _].
  split; [by exists given, left | exists sent, left'].
  split; [exact Hsent|]. split; [exact Hleft|]. split; [exact Hdone2|]. intros He Hne.
  cbn in Hleft. destruct (te_wire _ Hlive' He) as (cs' & Hcs' & Hcat' & Hwire); [by rewrite Hleft|].
  exists cs'. split; [exact Hcs'|]. split; [by rewrite Hcat', Hleft | exact Hwire].
Qed.


(** C2. What the target answers reaches the client. In every state the relay of the server can reach
    without a failed write, its tunnel has been given a salt of its own and whole records that hold
    a prefix of the target's data, or nothing. A local side that gets any number of those records
    after its request passes on to its client, behind the two replies, a prefix of the target's data in
    order and with nothing added: all of it once every record has arrived and the two copies have
    ended without an error. *)
Theorem target_data_reaches_client Fi2 ki2 f2 Ft kt sv q a2 cs t tc up down e2 eT :
  server_session Fi2 ki2 f2 Ft kt sv q a2 cs t tc up down e2 eT ->
  wp server f2 (server_tunnel (aeadCipher (Some a2)) sv, q) (fun r2 '(st2, q') =>
    r2 = RelayServer tc /\ exists sc2, st2 = Shadowed sc2 /\
    forall timeout2 g2 n2 (s2 : relay_state server_tunnel_end T),
      relay_fuel S T env2 Fi2 ki2 Ft g2 ->
      relay_run stream_copy timeout2 g2 n2 (relay_start (tunnel_of sc2 q' (written sv) []) tc) s2 ->
      te_err (r_left s2) = None ->
      (r_p2 s2 = Finished None -> te_plain (r_left s2) = down) /\
      (te_plain (r_left s2) <> [] ->
       exists back, written (below (te_world (r_left s2))) = te_base (r_left s2) ++ records env2 back /\
       forall got F k f Fi ki la c p a remote rc v v' rsv methods rest e eS,
         got `prefix_of` back ->
         local_session F k f Fi ki c p a remote rc t v v' rsv methods rest (records env2 got) (concat got) e eS eS ->
         wp (local (HandShake false (Some la)) (aeadCipher (Some a)) remote) f (c, p) (fun r '(c', p') =>
           exists sc, r = RelayLocal (Some (encode_target t)) (Shadowed sc) /\
           forall timeout g n (s : relay_state local_tunnel C),
             relay_fuel R C env1 Fi ki F g ->
             relay_run stream_copy timeout g n (relay_start (tunnel_of sc p' (written rc) (encode_target t)) c') s ->
             exists given, given `prefix_of` down /\
               written (r_right s) = written c ++ method_reply ++ connect_reply ++ given /\
               (got = back -> r_p2 s2 = Finished None -> r_p1 s = Finished None -> given = down)))).
Proof.
  intros Hss. eapply wp_mono; [by eapply server_session_run|].
  intros r2 [st2 q'] (-> & sc2 & -> & Hrelay2). split; [done|]. exists sc2. split; [done|].
  intros timeout2 g2 n2 s2 Hg2 Hrun2 He.
  destruct (Hrelay2 timeout2 g2 n2 s2 Hg2 Hrun2) as [_ (sent & left & Hdown & Hplain & Hdone & Hwire)].
  split; [intros Hd; by rewrite Hplain, Hdown, (Hdone Hd), app_nil_r|].
  intros Hne. rewrite Hplain in Hne. destruct (Hwire He Hne) as (back & _ & Hcat & Hout).
  exists back. split; [exact Hout|].
  intros got F k f Fi ki la c p a remote rc v v' rsv methods rest e eS [more Hgot] Hls.
  eapply wp_mono; [by eapply local_session_run|].
  intros r [c' p'] (sc & Hr & Hrelay). exists sc. split; [exact Hr|]. intros timeout g n s Hg Hrun.
  destruct (Hrelay timeout g n s Hg Hrun) as [(given & left2 & Hgiven & Hright & Hdone1) _].
  exists given. rewrite Hgot, concat_app in Hcat.
  split; [|split; [exact Hright|]].
  - exists (left2 ++ concat more ++ left). by rewrite Hdown, <- Hcat, Hgiven, <- !app_assoc.
  - intros -> Hd2 Hd1. assert (more = []) as ->.
    { apply (f_equal length) in Hgot. rewrite length_app in Hgot. destruct more; [done | cbn in Hgot; lia]. }
    rewrite (Hdone1 Hd1), app_nil_r in Hgiven. rewrite (Hdone Hd2), app_nil_r in Hdown.
    cbn in Hcat. rewrite app_nil_r in Hcat. congruence.
Qed.

(** C3. The client of the local side receives nothing that was not sealed for its session. Whatever bytes
    the remote server, or anyone in between, sends, in every state of the relay the client has received,
    behind its two replies, nothing, or a prefix of the payloads of records each of which was sealed
    under the session's AEAD and the very nonce at its place, for a salt the process had not seen. *)
Theorem client_gets_only_sealed F k f Fi ki la c p a remote rc t v v' rsv methods rest wire back e eS eB :
  local_session F k f Fi ki c p a remote rc t v v' rsv methods rest wire back e eS eB ->
  (forall salt aead, Decrypter a salt = Ret (inl aead) tt -> AEADTight aead) ->
  wp (local (HandShake false (Some la)) (aeadCipher (Some a)) remote) f (c, p) (fun r '(c', p') =>
    exists sc, r = RelayLocal (Some (encode_target t)) (Shadowed sc) /\
    forall timeout g n (s : relay_state local_tunnel C),
      relay_fuel R C env1 Fi ki F g ->
      relay_run stream_copy timeout g n (relay_start (tunnel_of sc p' (written rc) (encode_target t)) c') s ->
      exists given, written (r_right s) = written c ++ method_reply ++ connect_reply ++ given /\
        (given = [] \/
         exists salt aead recs cs, wire = salt ++ recs /\ Decrypter a salt = Ret (inl aead) tt /\
           known_salt salt (after_AddSalt (env_salt env1) (p_salts p)) = false /\
           sealed_records aead (zeros (NonceSize aead)) recs cs /\ given `prefix_of` concat cs)).
Proof.
  intros Hls Htight. eapply wp_mono; [by eapply local_session_run|].
  intros r [c' p'] (sc & Hr & Hrelay). exists sc. split; [exact Hr|]. intros timeout g n s Hg Hrun.
  destruct (Hrelay timeout g n s Hg Hrun) as [(given & left & Hback & Hright & _) _].
  exists given. split; [exact Hright|].
  destruct (ls_back _ _ _ _ _ _ _ _ _ _ _ _ _ _ _ _ _ _ _ _ _ Hls)
    as [(_ & _ & -> & _) | (salt & aead & recs & [_ _ Hlaws _ Hdec] & -> & Hpl)].
  { left. by destruct given. }
  change (salts (after_salt a rc (env_salt env1) p)) with (after_AddSalt (env_salt env1) (p_salts p)) in Hpl.
  destruct (known_salt salt _) eqn:Hk.
  { injection Hpl as -> _. left. by destruct given. }
  right. destruct (plaintext_sealed aead (zeros (NonceSize aead)) recs eS Hlaws (Htight salt aead Hdec)) as (cs & Hcs & Hfst).
  exists salt, aead, recs, cs. do 4 (split; [done|]). exists left. by rewrite <- Hfst, <- Hpl, <- Hback.
Qed.

End EndToEnd.

(** ** Witnesses: a client that says "early", a target that says "pong" *)

Definition answer_salt : bytes := str "another salt 16b".

Definition env_local : environment :=
  {| env_Getenv := no_env; env_ParseFloat := no_floats; env_salt := toy_salt; env_AEAD := toy_AEAD;
     env_fuel := 0; env_reads := 21 |}.
Definition env_server : environment :=
  {| env_Getenv := no_env; env_ParseFloat := no_floats; env_salt := answer_salt; env_AEAD := toy_AEAD;
     env_fuel := 0; env_reads := 21 |}.

(** What the server sends, and a connection to it. *)
Definition answer : bytes := records env_server [str "pong"].
Definition answering : conn := idle_conn [answer].
Definition dial_answering (address : bytes) : conn + error :=
  if decide (address = str "server:8010") then inl answering else inr broken_pipe.

(** What the local side sends, a connection to it, and the target. *)
Definition asked : list bytes := [encode_target example_target; str "early"].
Definition asking : conn := idle_conn [records env_local asked].
Definition talking_target : conn := idle_conn [str "pong"].
Definition dial_target_conn (address : bytes) : conn + error :=
  if decide (address = target_text example_target) then inl talking_target else inr broken_pipe.
Definition answering_process : process buffer list_bloom :=
  {| p_salts := small_salts; p_rand := answer_salt ++ str "more"; p_stats := {| ReqNum := 0; CoNum := 0 |} |}.

Lemma example_local_session :
  local_session env_local dial_answering 0 (Nat.max 21 (conn_steps client)) 400 0 (conn_steps answering) client
    toy_process toy_Cipher (str "server:8010") answering example_target x05 x05 x00 [x00] (str "early")
    answer (str "pong") EOF EOF EOF.
Proof.
  constructor.
  - by apply conn_accepts.
  - vm_compute. discriminate.
  - vm_compute. intuition discriminate.
  - apply (delivers_mono 0 0 (conn_steps client)); [lia | lia | exact (conn_delivers client)].
  - reflexivity.
  - by apply conn_reliable.
  - destruct toy_can_open as [? ? ? ? (more & e & Hd)]. constructor; try done. exists more, e.
    apply (delivers_mono 0 0 21); [lia | lia | exact Hd].
  - repeat split; (apply Nat.leb_le || apply Nat.ltb_lt); vm_compute; reflexivity.
  - exact (conn_delivers answering).
  - right. exists answer_salt, toy_AEAD, (encode toy_AEAD (zeros 12) [str "pong"]).
    split; [constructor; try reflexivity|].
    + apply after_AddSalt_wf, small_salts_wf.
    + apply toy_AEAD_laws.
    + split; [reflexivity|]. vm_compute. reflexivity.
Qed.

Lemma example_server_session :
  server_session env_local env_server dial_target_conn 0 (conn_steps asking) 400 0 (conn_steps talking_target)
    asking answering_process toy_Cipher asked example_target talking_target (str "early") (str "pong") EOF EOF.
Proof.
  constructor.
  - constructor; [apply small_salts_wf | reflexivity | apply toy_AEAD_laws | reflexivity | reflexivity].
  - constructor; [apply small_salts_wf | apply toy_AEAD_laws | reflexivity | reflexivity |].
    exists (str "more"), EOF. exact (buffer_delivers (answer_salt ++ str "more")).
  - exact I.
  - repeat constructor; vm_compute; discriminate.
  - vm_compute. intuition discriminate.
  - reflexivity.
  - exact (conn_delivers asking).
  - reflexivity.
  - repeat split; (apply Nat.leb_le || apply Nat.ltb_lt); vm_compute; reflexivity.
  - exact I.
  - exact (conn_delivers talking_target).
Qed.


Lemma target_data_reaches_client_witness :
  wp (server_conn no_env no_floats dial_target_conn) 400
    (server_tunnel (aeadCipher (Some toy_Cipher)) asking, answering_process) (fun r2 '(st2, q') =>
    r2 = RelayServer talking_target /\ exists sc2, st2 = Shadowed sc2 /\
    forall timeout g n (s2 : relay_state (tunnel_end env_server (corkedConn (C := conn)) buffer list_bloom) conn),
      relay_fuel conn conn env_server 0 (conn_steps asking) 0 g ->
      relay_run stream_copy timeout g n (relay_start (tunnel_of sc2 q' [] []) talking_target) s2 ->
      te_err (r_left s2) = None -> r_p2 s2 = Finished None -> te_plain (r_left s2) = str "pong").
Proof.
  eapply wp_mono.
  { exact (target_data_reaches_client env_local env_server dial_answering dial_target_conn
      _ _ _ _ _ _ _ _ _ _ _ _ _ _ _ example_server_session). }
  intros r2 [st2 q'] (-> & sc2 & -> & Hrelay). split; [done|]. exists sc2. split; [done|].
  intros timeout g n s2 Hg Hrun He. exact (proj1 (Hrelay timeout g n s2 Hg Hrun He)).
Defined.

Lemma client_gets_only_sealed_witness :
  wp (local_conn no_env no_floats dial_answering (HandShake false (Some (str "127.0.0.1:1080")))
        (aeadCipher (Some toy_Cipher)) (str "server:8010")) 400 (client, toy_process) (fun r '(c', p') =>
    exists sc, r = RelayLocal (Some (encode_target example_target)) (Shadowed sc) /\
    forall timeout g n (s : relay_state (tunnel_end env_local (corkedConn (C := conn)) buffer list_bloom) conn),
      relay_fuel conn conn env_local 0 (conn_steps answering) 0 g ->
      relay_run stream_copy timeout g n (relay_start (tunnel_of sc p' [] (encode_target example_target)) c') s ->
      exists given, written (r_right s) = [] ++ method_reply ++ connect_reply ++ given /\
        (given = [] \/
         exists salt aead recs cs, answer = salt ++ recs /\ Decrypter toy_Cipher salt = Ret (inl aead) tt /\
           known_salt salt (after_AddSalt toy_salt small_salts) = false /\
           sealed_records aead (zeros (NonceSize aead)) recs cs /\ given `prefix_of` concat cs)).
Proof.
  apply (client_gets_only_sealed env_local dial_answering
    _ _ _ _ _ (str "127.0.0.1:1080") _ _ _ _ _ _ _ _ _ _ _ _ _ _ _ _ example_local_session).
  intros salt aead [= <-]. apply toy_AEAD_tight.
Defined.
