(* ===== verification/Probe.v ===== *)
(** What either end does with a connection it does not serve: a client of the local end whose negotiation
    fails, and a probe of the server. *)

From Stdlib Require Import ZArith Lia.
From Stdlib Require Import Strings.Byte.
From stdpp Require Import base decidable list numbers strings.
From S2P Require Import Prelude GoIO SaltFilter ShadowCipher ShadowStream ShadowRecord ShadowConn Tunnel GoNet SocksAddr SocksHandshake BufReader BufWriter BufWriterSpec Cork Core Serve ServeSpec.

(** ** Reading an address from a stream whose first read fails *)

Section FirstError.
Context {R : Type} `{Reader R}.

Lemma ReadFull_first_error buf er f (r : R) (Q : bytes * Z * option error -> R -> Prop) :
  buf <> [] -> (0 < f)%nat ->
  wp (read buf) f r (fun '(p, n, err) r' => n = 0 /\ err = Some er /\ forall b, Q (b, 0, Some er) r') ->
  wp (ReadFull buf) f r Q.
Proof.
  intros Hb Hf Hread. unfold ReadFull, iter. destruct f as [|f]; [lia|]. cbn [iter_n].
  assert (0 < len buf) as Hl by (destruct buf; [done | cbn; lia]).
  assert (wp (readFull_body (buf, 0)) (S f) r (fun x r' => exists b, x = inr (b, 0, Some er) /\ Q (b, 0, Some er) r')) as Hbody.
  { unfold readFull_body. destruct (0 >=? len buf) eqn:E; [lia|]. wp_step. wp_step. rewrite sub_all by lia.
    wp_step. eapply wp_mono; [exact Hread|]. intros [[p n] err] r' (-> & -> & HQ).
    destruct (0 + 0 >=? len buf) eqn:E2; [lia|].
    change ((0 <? 0 + 0) && bool_decide (er = EOF)) with false. lazy beta iota. wp_step. by eexists. }
  unfold wp in *. cbn [iter_n]. destruct (readFull_body (buf, 0) (S f) r) as [[x|x] r'|h r']; [| |done].
  - by destruct Hbody as (? & ? & _).
  - destruct Hbody as (b & [= ->] & HQ). exact HQ.
Qed.

Lemma ReadAddr_first_error er f (r : R) (Q : option Addr * option error -> R -> Prop) :
  (0 < f)%nat ->
  (forall p, length p = 1%nat -> wp (read p) f r (fun '(_, n, err) r' => n = 0 /\ err = Some er /\ Q (None, Some er) r')) ->
  wp ReadAddr f r Q.
Proof.
  intros Hf Hread. unfold ReadAddr. wp_step. wp_step; [done|]. unfold readAddr.
  assert (len (zeros MaxAddrLen) = MaxAddrLen) as Hz by (by rewrite len_zeros).
  wp_step. wp_step; [lia|]. wp_step. unfold ReadFull_at. wp_step. wp_step; [unfold MaxAddrLen in *; lia|].
  assert (length (sub 0 1 (zeros MaxAddrLen)) = 1%nat) as Hl
    by (apply Nat2Z.inj; rewrite len_sub; unfold MaxAddrLen in *; lia).
  wp_step. apply (ReadFull_first_error _ er); [by intros E; rewrite E in Hl | done |].
  eapply wp_mono; [by apply Hread|]. intros [[p n] err] r' (-> & -> & HQ). split; [done|]. split; [done|].
  intros b. wp_step. wp_step. wp_step. exact HQ.
Qed.

End FirstError.

(** ** The server *)

Section Probe.
Context {G : Type} `{Reader G}.
Context {B : Type} `{BloomLaws B}.
Context {C : Type} `{Duplex C}.
Context {T : Type}.
Variable Getenv : bytes -> bytes.
Variable ParseFloat : bytes -> option float64.
Variable dial : bytes -> T + error.

Abbreviation server := (server_conn (G := G) (B := B) (C := C) (R := T) Getenv ParseFloat dial).

(** The first bytes of the connection are no session: too few for a salt, a salt seen before, or a first
    record that does not open. [er] is the error the first read reports. *)
Definition no_session (a : Cipher) (p : process G B) (wire : bytes) (e er : error) : Prop :=
  (len wire < SaltSize a /\ er = short_error wire e) \/
  exists salt aead recs, wire = salt ++ recs /\ len salt = SaltSize a /\ salts_wf (p_salts p) /\ AEADLaws aead /\
    Decrypter a salt = Ret (inl aead) tt /\
    if known_salt salt (p_salts p) then er = ErrRepeatedSalt
    else exists nonce rest, decode_record aead (zeros (NonceSize aead)) recs e = (inr er, nonce, rest).

(** The first read of such a connection. *)
Lemma no_session_read F k a p wire e er (c : corkedConn (C := C)) b f :
  no_session a p wire e er -> delivers F k c wire e -> (F < f)%nat -> (k < f)%nat ->
  wp (streamConn_Read Getenv ParseFloat b) f (world_of (NewConn c a) p) (fun '(_, n, err) w =>
    n = 0 /\ err = Some er /\ exists rest k', delivers F k' (Conn (conn_of w)) rest e /\ (k' <= S k)%nat).
Proof.
  intros [[Hl ->] | (salt & aead & recs & -> & Hsize & Hsalts & Hlaws & Hdec & Hbad)] Hd HF Hk.
  - unfold streamConn_Read. do 2 wp_step. change (sc_r (conn_of (world_of (NewConn c a) p))) with (@None sreader).
    wp_step. apply (initReader_short _ _ F k _ wire e); [exact Hd | exact Hl | lia | lia |].
    intros c' Hex. wp_step. split; [done|]. split; [done|].
    exists [], 1%nat. split; [by apply exhausted_delivers | lia].
  - eapply (streamConn_Read_first _ _ F k _ salt aead recs e); [by constructor | exact Hd | lia | lia |].
    intros c' Hd'. change (salts (world_of (NewConn c a) p)) with (p_salts p).
    destruct (known_salt salt (p_salts p)).
    + subst er. split; [done|]. split; [done|]. exists recs, k. split; [exact Hd' | lia].
    + destruct Hbad as (nonce & rest & Hdr).
      eapply (Read_record F k recs e); [by apply newReader_wf | done | exact Hd' | lia | lia | |];
        cbn [newReader r_AEAD r_nonce]; rewrite Hdr; [discriminate|].
      intros er' nonce' rest' r' c2 [= <- <- <-] _ _ _ Hd2 _. split; [done|]. split; [done|].
      exists rest, k. split; [exact Hd2 | lia].
Qed.

Lemma no_session_drained F k a p wire e er c f :
  no_session a p wire e er -> delivers F k c wire e -> sink_ok c -> (F < f)%nat -> (S k < f)%nat ->
  wp server f (server_tunnel (aeadCipher (Some a)) c, p) (fun r '(st, p') =>
    r = BadTarget er (source_error e) /\ server_closes r = (true, false) /\
    p_stats p' = p_stats p /\ p_rand p' = p_rand p /\
    exists sc, st = Shadowed sc /\ written (Conn sc) = written c /\ exhausted F (Conn sc) e).
Proof.
  intros Hno Hd Hsink HF Hk. unfold server_conn. wp_step.
  set (w0 := timedCork (fun _ => None) c (10 * Millisecond) 1280).
  assert (delivers F k w0 wire e) as Hd0 by (by apply corked_delivers).
  assert (written w0 = written c) as Hw0
    by exact (proj1 (proj2 (timedCork_inv (fun _ => None) c (10 * Millisecond) 1280 eq_refl Hsink))).
  apply (ReadAddr_first_error er); [lia|]. intros b _.
  unfold server_tunnel, StreamConn. fold w0. apply wp_shadowed.
  eapply wp_mono.
  { apply (wp_keeps (read_from (world_of (NewConn w0 a) p))); [apply streamConn_Read_keeps | by constructor |].
    apply (no_session_read F k a p wire e er); [exact Hno | exact Hd0 | lia | lia]. }
  intros [[b' n] err] [[inner ci sr sw] ts g] [(-> & -> & rest & k' & Hd' & Hk') [_ _ Hg [Hw _]]]. cbn in Hd', Hg, Hw.
  split; [done|]. split; [done|]. wp_step.
  assert (wp discard f inner (fun err r => (err = source_error e /\ exhausted F r e) /\ same_written inner r)) as Hdis.
  { apply wp_keeps; [apply discard_keeps, read_same_written | done |]. eapply discard_run; [exact Hd' | lia | lia]. }
  unfold wp, on_inner in *. cbn [conn_of Conn]. destruct (discard f inner) as [res inner'|h i]; [|done].
  destruct Hdis as [[-> Hex] [Hin _]]. cbn [after_world p_rand p_stats rand].
  split; [done|]. split; [done|]. split; [done|]. split; [exact Hg|].
  eexists. split; [done|]. split; [|exact Hex]. cbn [Conn]. rewrite Hin. exact (eq_trans Hw Hw0).
Qed.

(** Every salt of the right length gives a key, and so an AEAD under which only what was sealed opens. *)
Definition seals_sessions (a : Cipher) : Prop :=
  forall salt, len salt = SaltSize a ->
    exists aead, Decrypter a salt = Ret (inl aead) tt /\ AEADLaws aead /\ AEADTight aead.

(** The bytes start with a salt that the filter does not know and a record sealed under that salt and the
    first two nonces, with a header that states the length of its payload. *)
Definition sealed_start (a : Cipher) (p : process G B) (wire : bytes) : Prop :=
  exists salt aead hdr pt rest, len salt = SaltSize a /\ known_salt salt (p_salts p) = false /\
    Decrypter a salt = Ret (inl aead) tt /\ len hdr = 2 /\ len pt = be16_size hdr /\
    let nonce := zeros (NonceSize aead) in
    wire = salt ++ Seal aead nonce hdr [] ++ Seal aead (increment nonce) pt [] ++ rest.

Lemma unsealed_no_session a p wire e :
  0 <= SaltSize a -> seals_sessions a -> salts_wf (p_salts p) -> ~ sealed_start a p wire ->
  exists er, no_session a p wire e er.
Proof.
  intros Hsize Hkey Hsalts Hno. unfold no_session.
  destruct (decide (len wire < SaltSize a)) as [Hl|Hl]; [by exists (short_error wire e); left|].
  set (salt := take (Z.to_nat (SaltSize a)) wire). set (recs := drop (Z.to_nat (SaltSize a)) wire).
  assert (wire = salt ++ recs) as Hwire by (symmetry; apply take_drop).
  assert (len salt = SaltSize a) as Hlen by (subst salt; rewrite length_take; lia).
  destruct (Hkey salt Hlen) as (aead & Hdec & Hlaws & Htight).
  destruct (known_salt salt (p_salts p)) eqn:Hk.
  { exists ErrRepeatedSalt. right. exists salt, aead, recs. rewrite Hk. do 5 (split; [done|]). done. }
  destruct (decode_record aead (zeros (NonceSize aead)) recs e) as [[[pt|er] nonce] rest] eqn:E.
  - destruct Hno. destruct (decode_record_sealed _ _ _ _ _ _ _ Hlaws Htight E) as (_ & hdr & Hh & Hpt & Hrecs).
    exists salt, aead, hdr, pt, rest. do 5 (split; [done|]). cbv zeta. by rewrite Hwire, Hrecs.
  - exists er. right. exists salt, aead, recs. rewrite Hk. eauto 10.
Qed.

(** C4. A connection that does not open a new session learns nothing from the server. Unless its first
    bytes are a salt that the process does not know and a record that was sealed under the session key
    of that very salt, no target is dialed and there is no answer: the server reads everything up to the
    end of the stream, closes nothing early, writes not one byte and counts no request; the error is that
    of the short salt, of the known salt or of the record. Whoever lacks the key has no such first bytes
    of its own; it can still have recorded some, and the salts of what the server received are not kept: a
    recorded session is such a start, and is served again ([replayed_stream_accepted]). *)
Theorem probe_gets_no_answer F k a p wire e c f :
  0 <= SaltSize a -> seals_sessions a -> salts_wf (p_salts p) -> ~ sealed_start a p wire ->
  delivers F k c wire e -> sink_ok c -> (F < f)%nat -> (S k < f)%nat ->
  exists er, no_session a p wire e er /\
  wp server f (server_tunnel (aeadCipher (Some a)) c, p) (fun r '(st, p') =>
    r = BadTarget er (source_error e) /\ server_closes r = (true, false) /\
    p_stats p' = p_stats p /\ p_rand p' = p_rand p /\
    exists sc, st = Shadowed sc /\ written (Conn sc) = written c /\ exhausted F (Conn sc) e).
Proof.
  intros Hsize Hkey Hsalts Hno Hd Hsink HF Hk.
  destruct (unsealed_no_session a p wire e Hsize Hkey Hsalts Hno) as (er & Hns).
  exists er. split; [exact Hns|]. by eapply no_session_drained.
Qed.

End Probe.

(** ** A client the local end refuses *)

Section Refused.
Context {C R : Type} `{Duplex C} `{Duplex R}.
Context {G : Type} `{Reader G}.
Context {B : Type} `{BloomLaws B}.
Variable Getenv : bytes -> bytes.
Variable ParseFloat : bytes -> option float64.
Variable dial : bytes -> R + error.
Abbreviation local := (local_conn (G := G) (B := B) (C := C) (R := R) Getenv ParseFloat dial).

(** C5. A client whose bytes are no request the local end can serve, cut short, with a type of address or a
    command it does not know, is answered with no more than the replies up to that point, and the
    server is not dialed, whatever the cipher: what else the client sends is read to its end, so that its
    connection is not reset, and nothing of the process changes. *)
Theorem refused_client_is_drained F k f la shadow remote (c : C) (p : process G B) bs e err :
  accepts c -> delivers F k c bs e -> o_err (negotiate false la bs e) = Some err ->
  (sink_fuel C <= f)%nat -> (F <= f)%nat -> (k < f)%nat ->
  wp (local (HandShake false (Some la)) shadow remote) f (c, p) (fun r '(c', p') =>
    r = NoTarget err (source_error e) /\ local_closes r = (true, false) /\ p' = p /\
    written c' = written c ++ o_reply (negotiate false la bs e) /\ exhausted F c' e).
Proof.
  intros Hacc Hd Herr Hfuel HF Hk. unfold local_conn. wp_step. apply wp_on_conn.
  eapply wp_mono.
  { apply (wp_keeps_from F (still_gives F k e)); [apply HandShake_still_gives | exact HF | by exists k, bs |].
    by apply (HandShake_run false (Some la) F k c bs e). }
  intros [tgt er] c' [(Hr & [_ Hw] & _) (k' & rest & Hk' & Hd')]. cbn [default] in Hr, Hw.
  change (id la) with la in Hr, Hw. rewrite Herr in Hr. injection Hr as -> ->.
  wp_step. apply wp_on_conn.
  eapply wp_mono.
  { apply wp_keeps; [apply discard_keeps, (read_same_written c') | done |].
    eapply discard_run; [exact Hd' | lia | lia]. }
  intros x c2 [[-> Hex] [Hw2 _]]. wp_step. split; [done|]. split; [done|]. split; [done|]. split; [congruence | done].
Qed.

End Refused.

(** A record that nobody sealed, and a session recorded earlier and replayed. *)
Definition forged_session : bytes := toy_salt ++ str "thirty-four bytes sealed by nobody".
Definition prober (wire : bytes) : conn := idle_conn [wire].

Lemma toy_seals_sessions : seals_sessions toy_Cipher.
Proof.
  intros salt _. exists toy_AEAD. split; [reflexivity|]. split; [apply toy_AEAD_laws | apply toy_AEAD_tight].
Qed.

Lemma forged_not_sealed : ~ sealed_start toy_Cipher toy_process forged_session.
Proof.
  intros (salt & aead & hdr & pt & rest & Hlen & _ & [= <-] & Hh & _ & Hwire).
  apply (app_inj_1 toy_salt salt) in Hwire as [<- Hrecs]; [|by apply Nat2Z.inj; rewrite Hlen].
  pose proof (open_seal (a := toy_AEAD) (zeros 12) hdr []) as Ho.
  pose proof (seal_len (a := toy_AEAD) (zeros 12) hdr []) as Hl. cbn [Overhead toy_AEAD] in Hl.
  change (zeros (NonceSize toy_AEAD)) with (zeros 12) in Hrecs.
  apply (f_equal (take 18)) in Hrecs. rewrite take_app_le, (take_ge (Seal _ _ _ _)) in Hrecs by lia.
  rewrite <- Hrecs in Ho. vm_compute in Ho. discriminate.
Qed.

Lemma probe_gets_no_answer_witness :
  exists er, no_session toy_Cipher toy_process forged_session EOF er /\
  wp (server_conn no_env no_floats only_target) 400
    (server_tunnel (aeadCipher (Some toy_Cipher)) (prober forged_session), toy_process) (fun r '(st, p') =>
    r = BadTarget er (source_error EOF) /\ server_closes r = (true, false) /\
    p_stats p' = p_stats toy_process /\ p_rand p' = p_rand toy_process /\
    exists sc, st = Shadowed sc /\ written (Conn sc) = written (prober forged_session) /\ exhausted 0 (Conn sc) EOF).
Proof.
  apply (probe_gets_no_answer no_env no_floats only_target 0 (conn_steps (prober forged_session)) toy_Cipher
    toy_process forged_session EOF (prober forged_session) 400).
  - apply Z.leb_le. vm_compute. reflexivity.
  - apply toy_seals_sessions.
  - apply small_salts_wf.
  - apply forged_not_sealed.
  - exact (conn_delivers (prober forged_session)).
  - exact I.
  - lia.
  - apply Nat.ltb_lt. vm_compute. reflexivity.
Defined.

(** A client that asks for a command there is none of, and goes on talking. *)
Definition odd_request : bytes := [x05; x01; x00; x05; x09; x00] ++ encode_target example_target ++ str "and more".

Lemma refused_client_is_drained_witness :
  wp (local_conn no_env no_floats only_remote (HandShake false (Some (str "127.0.0.1:1080")))
        (aeadCipher (Some toy_Cipher)) (str "server:8010")) 400 (prober odd_request, toy_process) (fun r '(c', p') =>
    r = NoTarget ErrCommandNotSupported (source_error EOF) /\ local_closes r = (true, false) /\ p' = toy_process /\
    written c' = written (prober odd_request) ++ o_reply (negotiate false (str "127.0.0.1:1080") odd_request EOF) /\
    exhausted 0 c' EOF).
Proof.
  apply (refused_client_is_drained no_env no_floats only_remote 0 (conn_steps (prober odd_request))).
  - by apply conn_accepts.
  - exact (conn_delivers (prober odd_request)).
  - vm_compute. reflexivity.
  - apply Nat.leb_le. vm_compute. reflexivity.
  - lia.
  - apply Nat.ltb_lt. vm_compute. reflexivity.
Defined.
